(* ===== verification/_CoqProject ===== *)
-Q . S2P
Prelude.v
Singleton.v
Threads.v
Ownership.v
Buffer.v
Double.v
Json.v
JsonScan.v
JsonParser.v
JsonGrammar.v
JsonRoundTrip.v
JsonValue.v
JsonProxy.v
StdString.v
Http.v
Message.v
MemoryPool.v
Allocator.v
ThreadPool.v
Executor.v
Strand.v
Futures.v
StrandFutures.v
Format.v
FormatArgs.v
FileTool.v
Log.v
Loggers.v
GlobalLogging.v
Coroutine.v
Generator.v
Awaitable.v
AwaitableVoid.v
Scheduler.v
Task.v
IOContext.v
Socket.v
Connection.v
Server.v
