(* ===== verification/Prelude.v ===== *)
(** * HighSpeed: a verification development

    HighSpeed is a header-only C++ library (src/include/) with an example program
    (src/main.cpp).  Its parts:

    - io/Buffer.hpp: a byte buffer for sockets, over a vector with two indices;
    - protocol/Json.hpp: JSON values, printing, parsing, and [JsonValue], a proxy
      that edits a document through subscripts; main.cpp uses it;
    - protocol/Http.hpp: an HTTP request message, serialised and parsed;
    - alloc/MemoryPool.hpp and alloc/alloc.hpp: a pool allocator with size
      classes and a per-thread cache, and typed allocation on top of it;
    - tools/ThreadPool.hpp: a thread pool; net/Strand.hpp: serial execution on a
      thread pool;
    - coro/: generators; awaitables, coroutines that await each other on a thread
      pool; tasks, whose coroutines are resumed by a scheduler of their own;
    - net/Epoll.hpp, IOContext.hpp, Socket.hpp: asynchronous sockets over epoll;
    - log/format.hpp and log/Log.hpp: formatting and logging, which the thread pool
      and net/ use, with an earlier version of the logger in log/Log.bak.hpp;
      tools/Tool.hpp: reading and writing files.

    The development translates the code into executable definitions and proves
    what makes each part correct.  Files, in the order they build on each other:

    - Prelude: strings as lists of characters, the [outcome] of a C++ call
      (returned, threw, undefined behaviour), machine arithmetic, the tactics and
      the lemmas on lists and integers that the components share.
    - Singleton: [GlobalLogger::instance()] and [Scheduler::get_instance()], an object
      made by its first use without a lock.  Theorems: an instance that exists is
      shared by all threads, and overlapping first uses leave one with a deleted object.
    - Threads: threads that share a mutex, and counting them, for the scheduler and
      the loggers.
      Ownership: variables that hold a resource or nothing, for the move-only
      types.
    - Buffer: [Buffer.hpp].  The record [t] is the class, every method a
      definition; accesses to the vector are checked ([load], [store]), the
      results of [readv] and [write] are arguments.  Theorems: any sequence of
      calls behaves as an abstract byte queue, conserves the bytes, reallocates
      only when needed; what the constructor does for every size.
    - Double: the standard library's [ostream << double] and [std::stod] on
      binary64, as far as JSON numbers need them.
    - Json, JsonParser, JsonValue: the three parts of [Json.hpp].  The six classes
      are the constructors of [json], [unique_ptr] children are options; the
      parser works on a text and a position, every read of a character is checked
      and the tests that guard it are separate from it; a [JsonValue] is a root
      together with the path its pointer leads along.  Theorems on the parser and
      the proxy: the parser reads nothing out of range and ends on every input;
      assigning through subscripts is found again; what each assignment operator
      stores and each accessor then gives.
    - JsonScan: the parser without the checks, as total functions on the text.  It is
      the reference that JsonParser is shown to agree with, and what the grammar is
      compared to.
    - JsonProxy: proxies that are kept.  The document of JsonValue with a number for the
      storage of every vector; a proxy remembers the storage it points into.
      Theorem: a kept proxy can be used exactly until its storage is disturbed.
    - JsonGrammar: the grammar as inductive relations; the parser returns a value
      exactly on the texts the grammar relates to it.
    - JsonRoundTrip: what [toString] and [dump] print is parsed back to the same
      value, for which values, and the values for which it is not.
    - StdString: the operations of std::string and of string streams that the
      sources use.
    - Http: [Http.hpp].  The header map is a finite map and the order it is
      traversed in an argument.  Theorems: totality of the parser, what it reads,
      the round trip, the case without headers, and what is made of a message that
      has arrived in part.
    - Message: the abstract class of [Http.hpp] as an interface, which HTTP messages
      implement.
    - MemoryPool, Allocator: the two files of alloc/.  Memory is a set of regions
      obtained from the system; the pool, the manager and the thread caches are
      the state, and clients are sequences of allocations and deallocations by
      any threads.  Theorems: conservation of the blocks, safety when one size
      class is in use and its failure with two, size-class arithmetic for all
      64-bit sizes, destruction, exception safety and round trips of typed
      allocation, and what the elements of an array get of its arguments.
    - ThreadPool: [ThreadPool.hpp] as a transition system at the granularity of
      the accesses other threads can interleave with.  Theorems: accounting of
      tasks, counters and mutual exclusion by an invariant over reachable
      states; no added task waits forever, by a measure and a progress lemma;
      [stop] leaves no task behind, and can hang; a pool can be destroyed, unless
      it was stopped with [stopHard].
    - Executor: a type class with what the strand, the futures and the awaitables
      need from the pool; the thread pool, a plain queue and the strand itself are
      instances.
    - Strand: [Strand.hpp] over any executor.  Theorems: tasks are run one at a
      time, in order, each once; a strand never gets stuck; when nothing refers to
      a strand any more, and that its last future can be ready before that.
    - Futures: the packaged tasks of [ThreadPool::addTask], over any executor.
      Theorem: every future gets the result of its function, and no exception of
      a task reaches a worker.
    - StrandFutures: [Strand::addTask] as a whole.  The strand is an executor, so the
      packaged tasks of Futures can be put on it.  Theorem: futures of a strand get
      their results in the order of the calls.
    - Format: [format.hpp].  The arguments are the constructors of [arg], the
      stream is its text with the flags the code sets.  Theorems: formatting
      always ends, what it prints for a format string given as pieces, when it
      succeeds, escaping, the integer bases, and the flags that leak; the objects
      [format] makes are deleted, except when memory runs out half-way.
    - FormatArgs: the overload resolution of [format.hpp] that selects a formatter.
      Theorem: it selects the one that the arguments of Format stand for.
    - FileTool: [Tool.hpp] over a map from paths to contents.
    - Log: [Log.hpp].  The global logger with its two sinks; the clock's reading is
      part of a message, when a file stream writes out its buffer an argument.
      Theorems: the logger implements its configuration (every line that is not
      filtered out ends up where it was sent, in order); the library's own
      messages never throw; what the factory does with a format, and the macros.
    - Loggers: [Log.bak.hpp].  Threads that share loggers made by the factory, with the
      log mutex, line by line and character by character.  Theorem: lines arrive
      whole, each thread's in its order; two loggers of one file cut lines.
    - GlobalLogging: Log and Loggers together.  Theorem: after any configuration the
      threads that log write whole lines, filtered, into the sink that was chosen.
    - Coroutine: the frames of coroutines, their handles, and what is undefined.
    - Generator: [Generator.hpp] over a body given as a function from its state to
      what it does next.  Theorems: iterators, [next] and range-based for loops show
      what the body yields; generators own their frames, and a program is undefined
      exactly when it uses an iterator whose frame is gone.
    - Awaitable: [Awaitable.hpp], with and without a value, over any executor and bodies
      that return, throw, await a call or wait for something else.  Theorems: resumption is safe,
      spawned coroutines compute what their bodies compute, none is forgotten,
      awaitables own their frames, and the frames that are never destroyed.
    - AwaitableVoid: the specialisation [Awaitable<void>], translated on its own.
      Theorem: it behaves as Awaitable says for a coroutine without a value.
    - Scheduler: [Scheduler.hpp] as a transition system, in the manner of
      ThreadPool.  Theorems: accounting, [stop] resumes everything, both while the
      queue is shorter than 2^31, what its [int] counter can count; deleting the
      instance is safe, and the two ways in which a notification is lost.
    - Task: [Task.hpp], the life of a task between its owner and a worker.
      Theorems: what an ordered run gives, and the races nothing excludes.
    - IOContext: [Epoll.hpp] and [IOContext.hpp]: the interest list, the table of
      waiters, the event loop.  Theorems: each waiter is resumed once; [await_suspend]
      is its two steps; and a loop inside [epoll_wait] is not stopped without an
      event.
    - Socket: [Socket.hpp].  Operations in flight, interleaved with the event loop;
      the kernel's answers are arguments.  Theorems: what reads and writes return
      for any answers, when an operation that waits is sure to be resumed and two
      ways in which it is not, that sockets own their descriptors unless an acceptor
      is copied, and the address an acceptor binds.
    - Connection: the parts together.  A JSON value goes into an HTTP message, through
      the buffers and sockets of two peers, and is parsed again; the two programs make
      any calls of the library.  Theorem: the receiver has the beginning of what was
      sent, what parsing makes of it at every length, and that the value is there when
      exactly the message has arrived; what follows a message is read as its body.
    - Server: Awaitable and IOContext together, over any executor.  Coroutines await
      each other and descriptors, and the event loop resumes them.  Theorems: this is
      safe, outside two windows in the code; every suspension passes through these
      windows; and every spawned coroutine gets its result, or waits for one that is in
      the table of waiters or was evicted from it.

    Bounds and fuel.  [JsonParser.parse] gives its mutually recursive functions
    fuel twice the length of the text plus two: every call consumes a character
    or descends one level on the same one, and [parse_total] shows that it never
    runs out; the loops that skip or collect characters have one more than the length
    of the text, since every turn moves on by a character.  [Format.vformat] gives its loop one more than the length of the
    format string, since every turn consumes a brace, and [vformat_returns] shows
    that it is enough; printing a number in a base has one digit of fuel per
    bit.  [Awaitable.drive], the chain of coroutines that end one after the other
    and resume the one that awaits them, has one more than the number of frames as
    fuel, since every link destroys a frame; [resumption_is_safe] shows that it is
    enough, and [AwaitableVoid.drive] has the same.  [Generator.for_loop], a loop of the client, has fuel; it ends when the body
    does, and [range_for_collects] says how much is enough.  All other recursion is
    structural.  Sizes are [size_t] values
    modulo 2^64; where a container's [max_size] matters it is a hypothesis or a
    [length_error].  The task counters of ThreadPool and Scheduler are atomic [int]s and
    wrap around at 32 bits; what is counted by the number of threads is not wrapped.

    Conventions.  [Undefined] marks behaviour the language leaves undefined: a
    theorem that an operation returns [Ok] also says that it does not occur.
    Failure to allocate memory is modelled in MemoryPool, Allocator and for the
    arguments of [Format.format]; in the other components memory does not run out.

    Not modelled: data races as such, that is, accesses to memory that is not
    synchronised (the transition systems interleave whole accesses), among them the
    object that [std::localtime] shares between the threads that log; socket options; [inet_addr], which is an argument; argument types of [format] other than
    those the formatters are made for.  What is left of the sources are declarations,
    accessors that return a member, and namespaces.  container/algorithm.hpp is empty. *)

From stdpp Require Export base tactics option numbers list gmap strings sorting.
From Stdlib Require Export Ascii ZArith Lia.

(** ** Strings and bytes *)

(** [std::string], [std::string_view], [std::vector<char>] and raw byte ranges
    are lists of 8-bit characters; positions are list indices. *)
Abbreviation str := (list ascii).

(** A string literal of the source. *)
Definition lit (s : string) : str := String.list_ascii_of_string s.

Definition Zlen {A} (l : list A) : Z := Z.of_nat (length l).

(** The characters that cannot be written as themselves in a literal. *)
Definition dquote : ascii := "034"%char.
Definition backslash : ascii := "092"%char.
Definition newline : ascii := "010"%char.
Definition creturn : ascii := "013"%char.
Definition tab : ascii := "009"%char.
Definition backspace : ascii := "008"%char.
Definition formfeed : ascii := "012"%char.

(** A literal of the source that contains double quotes, written with
    apostrophes in their place. *)
Definition qlit (s : string) : str :=
  (fun c => if decide (c = "'"%char) then dquote else c) <$> lit s.

(** [isdigit] and [isspace] of <cctype>, in the "C" locale. *)
Definition isdigit (c : ascii) : bool := (48 <=? nat_of_ascii c) && (nat_of_ascii c <=? 57).
Definition isspace (c : ascii) : bool := Ascii.is_space c.

(** ** What a C++ call can do *)

(** The exceptions the code throws or lets through; [AssertionFailed] is a
    failing [assert], which ends the program. *)
Inductive exn : Type :=
| RuntimeError (msg : str)
| FormatError (msg : str)
| InvalidArgument (msg : str)
| LengthError
| OutOfRange
| BadAlloc
| AssertionFailed (msg : str)
| BadOptionalAccess
| FutureError (msg : str)
| SystemError (errno : Z) (msg : str).

(** A call returns, throws, or has undefined behaviour (an access outside an
    object, a null dereference).  [OutOfFuel] is the value of a fuelled loop
    that was given too little fuel; the termination theorems exclude it. *)
Inductive outcome (A : Type) : Type :=
| Ok (a : A)
| Throw (e : exn)
| Undefined
| OutOfFuel.
Arguments Ok {A} a.
Arguments Throw {A} e.
Arguments Undefined {A}.
Arguments OutOfFuel {A}.

#[global] Instance outcome_ret : MRet outcome := @Ok.
#[global] Instance outcome_bind : MBind outcome := fun A B f m =>
  match m with
  | Ok a => f a
  | Throw e => Throw e
  | Undefined => Undefined
  | OutOfFuel => OutOfFuel
  end.
#[global] Instance outcome_fmap : FMap outcome := fun A B f m =>
  match m with
  | Ok a => Ok (f a)
  | Throw e => Throw e
  | Undefined => Undefined
  | OutOfFuel => OutOfFuel
  end.

(** ** Machine integers *)

(** [size_t] is 64 bits wide; arithmetic on it is modulo 2^64. *)
Definition SIZE_MAX : Z := 2 ^ 64 - 1.
Definition u64 (z : Z) : Z := z `mod` 2 ^ 64.
Definition wadd (a b : Z) : Z := u64 (a + b).
Definition wsub (a b : Z) : Z := u64 (a - b).
Definition wmul (a b : Z) : Z := u64 (a * b).

(** A 32-bit [int] as [std::atomic<int>] counts: past the largest value it goes on with
    the smallest. *)
Definition i32 (z : Z) : Z := (z + 2 ^ 31) `mod` 2 ^ 32 - 2 ^ 31.

(** The conversion [(ssize_t)] of a [size_t]. *)
Definition s64 (z : Z) : Z := (if z <? 2 ^ 63 then z else z - 2 ^ 64)%Z.

(** [max_size()] of the standard containers of one-byte elements. *)
Definition PTRDIFF_MAX : Z := 2 ^ 63 - 1.

(** ** Hint databases and tactics *)

(** [hspd] collects the lemmas that say that steps and calls keep an invariant;
    the components add theirs to it. *)
Create HintDb hspd discriminated.

(** Evaluates the binds of a monadic chain whose calls are known. *)
Tactic Notation "run_binds" := cbn [mbind outcome_bind].
Tactic Notation "run_binds" "in" hyp(H) := cbn [mbind outcome_bind] in H.

(** Splits the first [if] or [match] scrutinee of the goal. *)
Ltac case_split_goal :=
  match goal with
  | |- context [if ?b then _ else _] => destruct b eqn:?
  | |- context [match ?x with _ => _ end] => destruct x eqn:?
  end.

(** Reads boolean comparisons on [Z] and [nat] as propositions. *)
Ltac reflect_bools :=
  repeat match goal with
  | H : (_ && _)%bool = true |- _ => apply andb_true_iff in H as [??]
  | H : (_ || _)%bool = false |- _ => apply orb_false_iff in H as [??]
  | H : (_ <? _)%Z = true |- _ => apply Z.ltb_lt in H
  | H : (_ <? _)%Z = false |- _ => apply Z.ltb_ge in H
  | H : (_ <=? _)%Z = true |- _ => apply Z.leb_le in H
  | H : (_ <=? _)%Z = false |- _ => apply Z.leb_gt in H
  | H : (_ =? _)%Z = true |- _ => apply Z.eqb_eq in H
  | H : (_ =? _)%Z = false |- _ => apply Z.eqb_neq in H
  | H : (_ <? _)%nat = true |- _ => apply Nat.ltb_lt in H
  | H : (_ <? _)%nat = false |- _ => apply Nat.ltb_ge in H
  | H : (_ <=? _)%nat = true |- _ => apply Nat.leb_le in H
  | H : (_ <=? _)%nat = false |- _ => apply Nat.leb_gt in H
  | H : (_ =? _)%nat = true |- _ => apply Nat.eqb_eq in H
  | H : (_ =? _)%nat = false |- _ => apply Nat.eqb_neq in H
  | H : bool_decide _ = true |- _ => apply bool_decide_eq_true in H
  | H : bool_decide _ = false |- _ => apply bool_decide_eq_false in H
  | H : negb _ = true |- _ => apply negb_true_iff in H
  | H : negb _ = false |- _ => apply negb_false_iff in H
  end.

(** ** Lemmas on outcomes *)

Lemma bind_ok {A B} (m : outcome A) (k : A -> outcome B) b : m ≫= k = Ok b -> exists a, m = Ok a /\ k a = Ok b.
Proof. destruct m; cbn; intros H; try done. eauto. Qed.

(** ** Lemmas on machine integers *)

Lemma u64_small z : (0 <= z < 2 ^ 64)%Z -> u64 z = z.
Proof. apply Z.mod_small. Qed.

Lemma i32_small z : (- 2 ^ 31 <= z < 2 ^ 31)%Z -> i32 z = z.
Proof. intros. unfold i32. rewrite Z.mod_small by lia. lia. Qed.

Lemma i32_add a b : i32 (i32 a + b) = i32 (a + b).
Proof.
  unfold i32. f_equal. replace ((a + 2 ^ 31) `mod` 2 ^ 32 - 2 ^ 31 + b + 2 ^ 31)%Z with ((a + 2 ^ 31) `mod` 2 ^ 32 + b)%Z by lia.
  rewrite Z.add_mod_idemp_l by lia. f_equal. lia.
Qed.

Lemma i32_sub a b : i32 (i32 a - b) = i32 (a - b).
Proof. rewrite <- !Z.add_opp_r. apply i32_add. Qed.

Lemma u64_range z : (0 <= u64 z < 2 ^ 64)%Z.
Proof. apply Z.mod_pos_bound. lia. Qed.

Lemma wsub_small a b : (0 <= b <= a)%Z -> (a < 2 ^ 64)%Z -> wsub a b = (a - b)%Z.
Proof. intros. apply u64_small. lia. Qed.

Lemma wadd_small a b : (0 <= a)%Z -> (0 <= b)%Z -> (a + b < 2 ^ 64)%Z -> wadd a b = (a + b)%Z.
Proof. intros. apply u64_small. lia. Qed.

(** ** Lemmas on lists *)

Section lists.
Context {A : Type}.
Implicit Types l k : list A.

Lemma Zlen_nonneg l : (0 <= Zlen l)%Z.
Proof. unfold Zlen. lia. Qed.

Lemma Zlen_app l k : Zlen (l ++ k) = (Zlen l + Zlen k)%Z.
Proof. unfold Zlen. rewrite length_app. lia. Qed.

(** The bytes between two offsets, after a write at the second one. *)
Lemma slice_after_write l k (r w : nat) :
  r <= w -> w <= length l ->
  take (w + length k - r) (drop r (take w l ++ k ++ drop (w + length k) l))
  = take (w - r) (drop r l) ++ k.
Proof.
  intros Hr Hw.
  rewrite drop_app_le by (rewrite length_take; lia).
  rewrite take_app, length_drop, length_take.
  rewrite (take_ge (drop r (take w l))) by (rewrite length_drop, length_take; lia).
  replace (w + length k - r - (w `min` length l - r)) with (length k) by lia.
  rewrite take_app_length. f_equal.
  rewrite skipn_firstn_comm. done.
Qed.

(** The same slice of a list that only grew at its end. *)
Lemma slice_app l k (r n : nat) :
  r + n <= length l -> take n (drop r (l ++ k)) = take n (drop r l).
Proof.
  intros. rewrite drop_app_le by lia. rewrite take_app_le; [done|].
  rewrite length_drop. lia.
Qed.

(** Replacing one element of a list that is then flattened. *)
Lemma bind_lookup {B} (f : A -> list B) l i x :
  l !! i = Some x -> l ≫= f ≡ₚ f x ++ (delete i l ≫= f).
Proof. intros H. by rewrite (delete_Permutation l i x H) at 1. Qed.

Lemma bind_insert {B} (f : A -> list B) l i x y :
  l !! i = Some x -> <[i := y]> l ≫= f ≡ₚ f y ++ (delete i l ≫= f).
Proof.
  intros H. assert (i < length l) as Hi by (by eapply lookup_lt_Some).
  rewrite (bind_lookup f (<[i := y]> l) i y) by (by apply list_lookup_insert_eq).
  by rewrite !delete_take_drop, take_insert_ge, drop_insert_lt by lia.
Qed.

(** Replacing one summand. *)
Lemma sum_list_insert (f : A -> nat) l i x y :
  l !! i = Some x -> sum_list_with f (<[i := y]> l) + f x = sum_list_with f l + f y.
Proof.
  revert i. induction l as [|z l IH]; intros [|i] H; [done|done|injection H as ->; simpl; lia|].
  simpl in *. specialize (IH i H). lia.
Qed.

Lemma sum_list_zero (f : A -> nat) l i x : sum_list_with f l = 0 -> l !! i = Some x -> f x = 0.
Proof.
  revert i. induction l as [|z l IH]; intros [|i] Hs H; [done|done|injection H as ->; cbn in Hs; lia|].
  cbn in *. eapply IH; [lia|done].
Qed.
End lists.
