(* ===== verification/Singleton.v ===== *)
(** * Instances created by their first use

    Models how src/include/log/Log.hpp ([GlobalLogger::instance()]) and
    src/include/coro/Scheduler.hpp ([Scheduler::get_instance()]) make their only object:
    a static [std::unique_ptr] is tested, filled when it is null, and dereferenced,
    without a lock.  The calls of several threads are interleaved step by step.  The
    scheduler also starts its workers when it has filled the pointer, which is [run] of
    Scheduler.v and left out here.

    The theorems: once an instance exists, any number of threads get that instance; when
    the first uses overlap, a thread can be left with an object that was deleted. *)

From S2P Require Import Prelude.

Module Singleton.

(** Where a thread is in a call, and in what it does with the result. *)
Inductive phase : Type :=
| Testing                  (** [if (instance == nullptr)] *)
| Making                   (** [instance.reset(new T());] *)
| Returning                (** [return *instance;] *)
| Using (o : nat)          (** about to use the object *)
| Done.

(** The static pointer, the objects that exist, and the threads. *)
Record state : Type := mk { instance_ : option nat; objects : gset nat; next : nat; threads : list phase }.

Definition set_phase (t : nat) (ph : phase) (s : state) : state :=
  mk (instance_ s) (objects s) (next s) (<[t := ph]> (threads s)).

(** [reset]: the new object is stored, and the one that was there is deleted. *)
Definition reset (t : nat) (s : state) : state :=
  let old := match instance_ s with Some o => {[o]} | None => ∅ end in
  mk (Some (next s)) ({[next s]} ∪ (objects s ∖ old)) (S (next s)) (<[t := Returning]> (threads s)).

(** The next step of a thread. *)
Definition step (t : nat) (s : state) : option (outcome state) :=
  ph ← threads s !! t;
  match ph with
  | Testing => Some (Ok (set_phase t (match instance_ s with None => Making | Some _ => Returning end) s))
  | Making => Some (Ok (reset t s))
  | Returning => Some (match instance_ s with Some o => Ok (set_phase t (Using o) s) | None => Undefined end)
  | Using o => Some (if decide (o ∈ objects s) then Ok (set_phase t Done s) else Undefined)
  | Done => None
  end.

(** A run: the thread that makes each step; steps that do not exist are left out. *)
Fixpoint run (ts : list nat) (s : state) : outcome state :=
  match ts with
  | [] => Ok s
  | t :: ts =>
      match step t s with
      | None => run ts s
      | Some r => s ← r; run ts s
      end
  end.

(** What a thread can be doing while [o] is the instance. *)
Definition sees (o : nat) (ph : phase) : Prop :=
  match ph with Making => False | Using o' => o' = o | _ => True end.

Record settled (o : nat) (s : state) : Prop := {
  settled_instance : instance_ s = Some o;
  settled_object : o ∈ objects s;
  settled_threads : Forall (sees o) (threads s)
}.

Lemma set_phase_settled o t ph s : settled o s -> sees o ph -> settled o (set_phase t ph s).
Proof. intros [Hi Ho Ht] Hph. split; cbn; [done..|]. by apply Forall_insert. Qed.

Lemma step_settled o t s r : settled o s -> step t s = Some r -> exists s', r = Ok s' /\ settled o s'.
Proof.
  intros Hs (ph & Hph & Hr)%bind_Some. pose proof Hs as [Hi Ho Ht].
  pose proof (Forall_lookup_1 _ _ _ _ Ht Hph) as Hsee. destruct ph as [| | |o'|]; cbn in Hsee; try done.
  - injection Hr as <-. rewrite Hi. eexists. split; [done|]. by apply set_phase_settled.
  - rewrite Hi in Hr. injection Hr as <-. eexists. split; [done|]. by apply set_phase_settled.
  - subst o'. rewrite decide_True in Hr by done. injection Hr as <-. eexists. split; [done|]. by apply set_phase_settled.
Qed.

(** An instance that exists is shared safely: whatever the threads and however their
    calls are interleaved, nothing is undefined, the instance stays the same, and every
    thread uses that one. *)
Theorem instance_is_shared o ts s :
  settled o s -> exists s', run ts s = Ok s' /\ settled o s'.
Proof.
  revert s. induction ts as [|t ts IH]; intros s Hs; [by exists s|]. cbn [run].
  destruct (step t s) as [r|] eqn:Hr; [|by apply IH]. destruct (step_settled _ _ _ _ Hs Hr) as (s1 & -> & Hs1). run_binds. by apply IH.
Qed.

(** One thread that makes the first use gets the object it made. *)
Lemma first_use_alone n : exists s, run [0; 0; 0; 0] (mk None ∅ n [Testing]) = Ok s /\ settled n s.
Proof.
  cbn [run step threads lookup list_lookup mbind option_bind outcome_bind instance_ set_phase reset insert list_insert objects next].
  rewrite decide_True by set_solver. eexists. split; [done|]. split; cbn; [done|set_solver|by repeat constructor].
Qed.

(** Two first uses that overlap: both find no instance, the second replaces the object of
    the first, which the first thread goes on to use. *)
Theorem first_uses_race : run [0; 1; 0; 0; 1; 0] (mk None ∅ 0 [Testing; Testing]) = Undefined.
Proof. by vm_compute. Qed.

Lemma instance_is_shared_witness :
  exists s', run [0; 1; 1; 0; 0; 1] (mk (Some 3) {[3]} 4 [Testing; Testing]) = Ok s' /\ settled 3 s'.
Proof.
  apply (instance_is_shared 3). split; cbn; [done|by apply elem_of_singleton|by repeat constructor].
Defined.

End Singleton.
