(* ===== verification/Threads.v ===== *)
(** * Threads and a mutex

    What the models of the thread pools share: the threads of a pool are a list
    of phases, some of which hold the pool's mutex and some of which are counted;
    lemmas on changing the phase of one thread. *)

From S2P Require Import Prelude.

Section threads.
Context {A : Type}.
Implicit Types (ws : list A) (w : nat) (ph : A).

(** The mutex is held by the thread whose phase says so. *)
Definition mutex_ok (holds : A -> bool) ws (m : option nat) : Prop :=
  (forall w ph, ws !! w = Some ph -> holds ph = true <-> m = Some w) /\
  (forall w, m = Some w -> is_Some (ws !! w)).

(** The number of threads in some phase. *)
Definition count (f : A -> bool) ws : nat := sum_list_with (fun ph => Nat.b2n (f ph)) ws.

Lemma lookup_insert_phase ws w w' ph ph' ph1 :
  ws !! w = Some ph -> <[w := ph']> ws !! w' = Some ph1 ->
  (w' = w /\ ph1 = ph') \/ (w' <> w /\ ws !! w' = Some ph1).
Proof. intros H [(<- & <- & _)|[Hne H1]]%list_lookup_insert_Some; auto. Qed.

Lemma lookup_insert_self ws w ph ph' : ws !! w = Some ph -> <[w := ph']> ws !! w = Some ph'.
Proof. intros H. apply list_lookup_insert_eq. by eapply lookup_lt_Some. Qed.

(** A thread locks, unlocks or leaves the mutex alone. *)
Lemma mutex_move holds ws m w ph ph' :
  mutex_ok holds ws m -> ws !! w = Some ph -> (holds ph' = true -> holds ph = true \/ m = None) ->
  mutex_ok holds (<[w := ph']> ws) (if holds ph' then Some w else if holds ph then None else m).
Proof.
  intros [Hm Ho] Hw Hfree. pose proof (Hm _ _ Hw) as Hmw. split.
  - intros w1 ph1 H1. destruct (lookup_insert_phase _ _ _ _ _ _ Hw H1) as [[-> ->]|[Hne H2]].
    + destruct (holds ph'); [done|]. destruct (holds ph); [split; done|]. split; [done|]. intros H. by apply Hmw.
    + rewrite (Hm _ _ H2). destruct (holds ph') eqn:E1.
      * destruct (Hfree eq_refl) as [H|H]; [apply Hmw in H|]; rewrite H; split; congruence.
      * destruct (holds ph) eqn:E2; [|done]. rewrite (proj1 Hmw eq_refl). split; congruence.
  - intros w1 H1. apply lookup_lt_is_Some. rewrite length_insert.
    destruct (holds ph'); [injection H1 as <-; by eapply lookup_lt_Some|].
    destruct (holds ph); [done|]. by apply lookup_lt_is_Some, Ho.
Qed.

Lemma mutex_free holds ws w ph : mutex_ok holds ws None -> ws !! w = Some ph -> holds ph = false.
Proof. intros [Hm _] Hw. destruct (holds ph) eqn:E; [|done]. by apply (Hm _ _ Hw) in E. Qed.

Lemma mutex_map holds (f : A -> A) ws m :
  (forall ph, holds (f ph) = holds ph) -> mutex_ok holds ws m -> mutex_ok holds (f <$> ws) m.
Proof.
  intros Hf [Hm Ho]. split.
  - intros w ph. rewrite list_lookup_fmap, fmap_Some. intros (ph1 & H1 & ->). rewrite Hf. by apply Hm.
  - intros w H%Ho. rewrite list_lookup_fmap. by apply fmap_is_Some.
Qed.

Lemma mutex_app holds ws k m :
  mutex_ok holds ws m -> Forall (fun ph => holds ph = false) k -> mutex_ok holds (ws ++ k) m.
Proof.
  intros [Hm Ho] Hk. split.
  - intros w ph. rewrite lookup_app. destruct (ws !! w) as [ph1|] eqn:E.
    + intros [= <-]. by apply Hm.
    + intros H. rewrite (Forall_lookup_1 _ _ _ _ Hk H). split; [done|]. intros Hw. apply Ho in Hw as [? ?]. congruence.
  - intros w [ph H]%Ho. exists ph. by apply lookup_app_l_Some.
Qed.

(** Two threads do not hold the mutex at once. *)
Lemma mutex_exclusive holds ws m w1 w2 ph1 ph2 :
  mutex_ok holds ws m -> ws !! w1 = Some ph1 -> ws !! w2 = Some ph2 ->
  holds ph1 = true -> holds ph2 = true -> w1 = w2.
Proof. intros [Hm _] H1 H2 Hh1%(Hm _ _ H1) Hh2%(Hm _ _ H2). congruence. Qed.

Lemma count_move f ws w ph ph' :
  ws !! w = Some ph -> count f (<[w := ph']> ws) + Nat.b2n (f ph) = count f ws + Nat.b2n (f ph').
Proof. intros H. apply (sum_list_insert (fun ph => Nat.b2n (f ph)) _ _ _ _ H). Qed.

Lemma count_app f ws k : count f (ws ++ k) = count f ws + count f k.
Proof. apply sum_list_with_app. Qed.

Lemma count_none f ws : Forall (fun ph => f ph = false) ws -> count f ws = 0.
Proof. induction 1 as [|ph ws H _ IH]; [done|]. unfold count in *. simpl. by rewrite H, IH. Qed.

Lemma count_map f (g : A -> A) ws : (forall ph, f (g ph) = f ph) -> count f (g <$> ws) = count f ws.
Proof. intros H. unfold count. induction ws as [|ph ws IH]; [done|]. cbn in *. by rewrite H, IH. Qed.

End threads.
