(* ===== verification/Ownership.v ===== *)
(** * Exclusive ownership

    Variables of a program that hold a resource or nothing (move-only handles of
    C++), and the resources that are alive.  [Exclusive] says that every live
    resource is held by exactly one variable and that nothing else is held; the
    lemmas are the operations of a move-only type.  Used for coroutine frames
    held by generators, and for descriptors held by sockets. *)

From S2P Require Import Prelude.

Section ownership.
Context {K : Type}.
Implicit Types (os : gmap nat (option K)) (alive : K -> Prop).

Record Exclusive os alive : Prop := {
  held_alive : forall x k, os !! x = Some (Some k) -> alive k;
  held_once : forall x y k, os !! x = Some (Some k) -> os !! y = Some (Some k) -> x = y;
  alive_held : forall k, alive k -> exists x, os !! x = Some (Some k)
}.

Lemma exclusive_iff os alive alive' :
  Exclusive os alive -> (forall k, alive' k <-> alive k) -> Exclusive os alive'.
Proof.
  intros [Ha Ho Hh] Heq. split; [|done|].
  - intros x k Hx. apply Heq. eauto.
  - intros k Hk. apply Hh. by apply Heq.
Qed.

Lemma exclusive_nothing alive : (forall k, ~ alive k) -> Exclusive ∅ alive.
Proof. intros Hn. split; [done..|]. intros k Hk. by destruct (Hn k). Qed.

(** A new variable that holds nothing. *)
Lemma exclusive_empty os alive x : Exclusive os alive -> os !! x = None -> Exclusive (<[x := None]> os) alive.
Proof.
  intros [Ha Ho Hh] Hx. split.
  - intros y k [[_ ?]|[_ Hy]]%lookup_insert_Some; [done|]. eauto.
  - intros y z k [[_ ?]|[_ Hy]]%lookup_insert_Some [[_ ?]|[_ Hz]]%lookup_insert_Some; try done. eauto.
  - intros k [y Hy]%Hh. exists y. rewrite lookup_insert_ne by congruence. done.
Qed.

(** A new variable with a new resource. *)
Lemma exclusive_new os alive x k :
  Exclusive os alive -> os !! x = None -> ~ alive k -> Exclusive (<[x := Some k]> os) (fun k' => k' = k \/ alive k').
Proof.
  intros [Ha Ho Hh] Hx Hk. split.
  - intros y k' [[_ [= <-]]|[_ Hy]]%lookup_insert_Some; eauto.
  - intros y z k' [[<- Hy]|[_ Hy]]%lookup_insert_Some [[<- Hz]|[_ Hz]]%lookup_insert_Some; simplify_eq; eauto.
    + by apply Ha in Hz.
    + by apply Ha in Hy.
  - intros k' [->|[y Hy]%Hh]; [exists x; apply lookup_insert_eq|]. exists y. rewrite lookup_insert_ne by congruence. done.
Qed.

(** A variable gives up its resource, which ceases to exist. *)
Lemma exclusive_release os alive x k :
  Exclusive os alive -> os !! x = Some (Some k) -> Exclusive (<[x := None]> os) (fun k' => alive k' /\ k' <> k).
Proof.
  intros [Ha Ho Hh] Hx. split.
  - intros y k' [[_ ?]|[Hne Hy]]%lookup_insert_Some; [done|]. split; [by eauto|]. intros ->. eauto.
  - intros y z k' [[_ ?]|[_ Hy]]%lookup_insert_Some [[_ ?]|[_ Hz]]%lookup_insert_Some; try done. eauto.
  - intros k' [[y Hy]%Hh Hne]. exists y. rewrite lookup_insert_ne by congruence. done.
Qed.

(** A variable that holds nothing goes away. *)
Lemma exclusive_leave os alive x : Exclusive os alive -> os !! x = Some None -> Exclusive (delete x os) alive.
Proof.
  intros [Ha Ho Hh] Hx. split.
  - intros y k [_ Hy]%lookup_delete_Some. eauto.
  - intros y z k [_ Hy]%lookup_delete_Some [_ Hz]%lookup_delete_Some. eauto.
  - intros k [y Hy]%Hh. exists y. rewrite lookup_delete_ne by congruence. done.
Qed.

(** What [y] holds goes to [x], which is new or holds nothing. *)
Lemma exclusive_transfer os alive x y g :
  Exclusive os alive -> os !! x = None \/ os !! x = Some None -> os !! y = Some g -> x <> y ->
  Exclusive (<[x := g]> (<[y := None]> os)) alive.
Proof.
  intros [Ha Ho Hh] Hx Hy Hne. split.
  - intros z k. rewrite !lookup_insert_Some. intros [[<- ->]|[_ [[_ ?]|[_ Hz]]]]; [|done|]; eauto.
  - intros z1 z2 k. rewrite !lookup_insert_Some.
    intros [[<- ->]|[H1 [[_ ?]|[H1' Hz1]]]] [[<- ?]|[H2 [[_ ?]|[H2' Hz2]]]]; simplify_eq; try done.
    + destruct H2'. eauto.
    + destruct H1'. symmetry. eauto.
    + eauto.
  - intros k [z Hz]%Hh. destruct (decide (z = y)) as [->|Hzy].
    + exists x. rewrite lookup_insert_eq. congruence.
    + exists z. rewrite lookup_insert_ne by (intros <-; destruct Hx; congruence). by rewrite lookup_insert_ne.
Qed.

Lemma exclusive_owner os alive k :
  Exclusive os alive ->
  alive k <-> exists x, os !! x = Some (Some k) /\ forall y, os !! y = Some (Some k) -> y = x.
Proof.
  intros [Ha Ho Hh]. split; [|intros (x & Hx & _); eauto]. intros [x Hx]%Hh. exists x. eauto.
Qed.

End ownership.
