(* ===== verification/Buffer.v ===== *)
(** * io/Buffer.hpp: the network I/O buffer

    [Buffer] is a byte vector with a read and a write index.  The definitions
    follow the methods of [hspd::Buffer]; memory accesses are checked, so that
    an access outside the vector is [Undefined].  The system calls [readv] and
    [write] are arguments: the value the kernel returned for this call.

    The abstraction [contents] reads the buffer as the byte queue it
    implements, and every operation is shown to refine the queue operation,
    for single calls and for arbitrary sequences of calls. *)

From S2P Require Import Prelude.
#[local] Open Scope Z_scope.

Module Buffer.

(** ** State and checked memory accesses *)

Record t : Type := mk {
  buffer_ : list ascii;
  readIndex_ : Z;
  writeIndex_ : Z
}.

Definition kCheapPrepend : Z := 8.

(** [buffer_.size()] *)
Definition size (b : t) : Z := Zlen (buffer_ b).

(** [std::vector<char>(n)] and [resize(n)]: value-initialised elements,
    [std::length_error] above [max_size()]. *)
Definition vector_new (n : Z) : outcome (list ascii) :=
  if n <=? PTRDIFF_MAX then Ok (replicate (Z.to_nat n) "000"%char) else Throw LengthError.

Definition vector_resize (l : list ascii) (n : Z) : outcome (list ascii) :=
  if n <=? PTRDIFF_MAX
  then Ok (resize (Z.to_nat n) "000"%char l)
  else Throw LengthError.

(** Reading [len] bytes from offset [off] of the vector's storage. *)
Definition load (l : list ascii) (off len : Z) : outcome str :=
  if (0 <=? off) && (0 <=? len) && (off + len <=? Zlen l)
  then Ok (take (Z.to_nat len) (drop (Z.to_nat off) l))
  else Undefined.

(** Writing [data] at offset [off] of the vector's storage. *)
Definition store (l : list ascii) (off : Z) (data : str) : outcome (list ascii) :=
  if (0 <=? off) && (off + Zlen data <=? Zlen l)
  then Ok (take (Z.to_nat off) l ++ data ++ drop (Z.to_nat off + length data) l)
  else Undefined.

(** ** Operations *)

Definition new (initialSize : Z) : outcome t :=
  l ← vector_new (wadd kCheapPrepend initialSize);
  Ok (mk l kCheapPrepend kCheapPrepend).

Definition readableBytes (b : t) : Z := wsub (writeIndex_ b) (readIndex_ b).
Definition writableBytes (b : t) : Z := wsub (size b) (writeIndex_ b).
Definition prependableBytes (b : t) : Z := readIndex_ b.

Definition retrieveAll (b : t) : t := mk (buffer_ b) kCheapPrepend kCheapPrepend.

Definition retrieve (b : t) (len : Z) : t :=
  if len <? readableBytes b
  then mk (buffer_ b) (wadd (readIndex_ b) len) (writeIndex_ b)
  else retrieveAll b.

Definition retrieveAsString (b : t) (len : Z) : outcome (str * t) :=
  let len := Z.min len (readableBytes b) in
  result ← load (buffer_ b) (readIndex_ b) len;
  Ok (result, retrieve b len).

Definition retrieveAllAsString (b : t) : outcome (str * t) :=
  retrieveAsString b (readableBytes b).

(** Enlarges the vector, or moves the readable bytes to the front. *)
Definition makeSpace (b : t) (len : Z) : outcome t :=
  if wadd (writableBytes b) (prependableBytes b) <? wadd len kCheapPrepend
  then
    l ← vector_resize (buffer_ b) (wadd (writeIndex_ b) len);
    Ok (mk l (readIndex_ b) (writeIndex_ b))
  else
    let readable := readableBytes b in
    bytes ← load (buffer_ b) (readIndex_ b) (writeIndex_ b - readIndex_ b);
    l ← store (buffer_ b) kCheapPrepend bytes;
    Ok (mk l kCheapPrepend (wadd kCheapPrepend readable)).

(** [append(data, len)] with [len] the length of the byte range [data]. *)
Definition append (b : t) (data : str) : outcome t :=
  let len := Zlen data in
  b ← (if writableBytes b <? len then makeSpace b len else Ok b);
  l ← store (buffer_ b) (writeIndex_ b) data;
  Ok (mk l (readIndex_ b) (wadd (writeIndex_ b) len)).

(** The value a system call returned: [-1] with [errno], or the bytes it
    transferred ([readv]), or their number ([write]). *)
Inductive readv_result : Type :=
| ReadvFails (errno : Z)
| ReadvReads (bytes : str).

Inductive write_result : Type :=
| WriteFails (errno : Z)
| WriteWrites (n : Z).

(** [sizeof(extraBuf)] *)
Definition extraBufSize : Z := 65536.

(** The bytes offered to [readv]: the writable part, and [extraBuf] when the
    writable part is smaller than it. *)
Definition iov_capacity (b : t) : Z :=
  let writable := writableBytes b in
  if writable <? extraBufSize then writable + extraBufSize else writable.

(** Returns [n], the value stored through [savedErrno] if any, and the buffer.
    The kernel fills the first iovec before the second. *)
Definition readFd (b : t) (r : readv_result) : outcome (Z * option Z * t) :=
  let writable := writableBytes b in
  match r with
  | ReadvFails errno => Ok (-1, Some errno, b)
  | ReadvReads bytes =>
      let n := Zlen bytes in
      let vec0 := take (Z.to_nat writable) bytes in
      let extraBuf := drop (Z.to_nat writable) bytes in
      l ← store (buffer_ b) (writeIndex_ b) vec0;
      if n <=? s64 writable
      then Ok (n, None, mk l (readIndex_ b) (wadd (writeIndex_ b) n))
      else
        b' ← append (mk l (readIndex_ b) (size b)) extraBuf;
        Ok (n, None, b')
  end.

Definition writeFd (b : t) (r : write_result) : Z * option Z * t :=
  match r with
  | WriteFails errno => (-1, Some errno, b)
  | WriteWrites n => (n, None, retrieve b n)
  end.

(** The bytes the kernel took from [peek()]. *)
Definition write_sent (b : t) (r : write_result) : str :=
  match r with
  | WriteFails _ => []
  | WriteWrites n => take (Z.to_nat n) (drop (Z.to_nat (readIndex_ b)) (buffer_ b))
  end.

(** ** The byte queue the buffer implements *)

(** The readable bytes. *)
Definition contents (b : t) : str :=
  take (Z.to_nat (writeIndex_ b - readIndex_ b)) (drop (Z.to_nat (readIndex_ b)) (buffer_ b)).

(** The index invariant. *)
Definition wf (b : t) : Prop :=
  kCheapPrepend <= readIndex_ b /\
  readIndex_ b <= writeIndex_ b /\
  writeIndex_ b <= size b /\
  size b <= PTRDIFF_MAX.

#[export] Instance wf_dec b : Decision (wf b).
Proof. unfold wf. apply _. Defined.

(** A call of a client, with the value the kernel returned for the two calls
    that enter it. *)
Inductive op : Type :=
| OpAppend (data : str)
| OpRetrieve (len : Z)
| OpRetrieveAll
| OpRetrieveAsString (len : Z)
| OpRetrieveAllAsString
| OpReadFd (r : readv_result)
| OpWriteFd (r : write_result).

(** One call on the buffer: the new buffer and the string it returns or the
    bytes it hands to the kernel. *)
Definition exec (b : t) (o : op) : outcome (t * str) :=
  match o with
  | OpAppend data => b' ← append b data; Ok (b', [])
  | OpRetrieve len => Ok (retrieve b len, [])
  | OpRetrieveAll => Ok (retrieveAll b, [])
  | OpRetrieveAsString len => r ← retrieveAsString b len; Ok (r.2, r.1)
  | OpRetrieveAllAsString => r ← retrieveAllAsString b; Ok (r.2, r.1)
  | OpReadFd r => x ← readFd b r; Ok (x.2, [])
  | OpWriteFd r => Ok ((writeFd b r).2, write_sent b r)
  end.

Fixpoint run (b : t) (ops : list op) : outcome (t * list str) :=
  match ops with
  | [] => Ok (b, [])
  | o :: ops =>
      x ← exec b o;
      y ← run x.1 ops;
      Ok (y.1, x.2 :: y.2)
  end.

(** The same call on a byte queue. *)
Definition spec_exec (q : str) (o : op) : str * str :=
  match o with
  | OpAppend data => (q ++ data, [])
  | OpRetrieve len => (drop (Z.to_nat len) q, [])
  | OpRetrieveAll => ([], [])
  | OpRetrieveAsString len => (drop (Z.to_nat len) q, take (Z.to_nat len) q)
  | OpRetrieveAllAsString => ([], q)
  | OpReadFd (ReadvFails _) => (q, [])
  | OpReadFd (ReadvReads bytes) => (q ++ bytes, [])
  | OpWriteFd (WriteFails _) => (q, [])
  | OpWriteFd (WriteWrites n) => (drop (Z.to_nat n) q, take (Z.to_nat n) q)
  end.

Fixpoint spec_run (q : str) (ops : list op) : str * list str :=
  match ops with
  | [] => (q, [])
  | o :: ops =>
      let x := spec_exec q o in
      let y := spec_run x.1 ops in
      (y.1, x.2 :: y.2)
  end.

(** The bytes a call puts into the buffer. *)
Definition op_input (o : op) : str :=
  match o with
  | OpAppend data => data
  | OpReadFd (ReadvReads bytes) => bytes
  | _ => []
  end.

(** What holds of a call by its types and by the contract of the system calls:
    lengths are [size_t] values, [readv] fills no more than it was offered,
    [write] takes no more than it was given. *)
Definition op_ok (b : t) (o : op) : Prop :=
  match o with
  | OpRetrieve len | OpRetrieveAsString len => 0 <= len
  | OpReadFd (ReadvReads bytes) => Zlen bytes <= iov_capacity b
  | OpWriteFd (WriteWrites n) => 0 <= n <= readableBytes b
  | _ => True
  end.

Fixpoint ops_ok (b : t) (ops : list op) : Prop :=
  match ops with
  | [] => True
  | o :: ops => op_ok b o /\ match exec b o with Ok (b', _) => ops_ok b' ops | _ => True end
  end.

(** ** Helper lemmas *)

Ltac unfold_sizes :=
  unfold wf, size, kCheapPrepend, PTRDIFF_MAX, extraBufSize, Zlen in *; cbn [buffer_ readIndex_ writeIndex_] in *.

Lemma readableBytes_wf b : wf b -> readableBytes b = writeIndex_ b - readIndex_ b.
Proof. intros. unfold_sizes. unfold readableBytes. apply wsub_small; lia. Qed.

Lemma writableBytes_wf b : wf b -> writableBytes b = size b - writeIndex_ b.
Proof. intros. unfold writableBytes. unfold_sizes. apply wsub_small; lia. Qed.

Lemma length_contents b : wf b -> Zlen (contents b) = writeIndex_ b - readIndex_ b.
Proof.
  intros. unfold contents. unfold_sizes. rewrite length_take, length_drop. lia.
Qed.

Lemma store_in_bounds l off data :
  0 <= off -> off + Zlen data <= Zlen l ->
  store l off data = Ok (take (Z.to_nat off) l ++ data ++ drop (Z.to_nat off + length data) l).
Proof. intros. unfold store. case_split_goal; [done|]. lia. Qed.

Lemma load_in_bounds l off len :
  0 <= off -> 0 <= len -> off + len <= Zlen l ->
  load l off len = Ok (take (Z.to_nat len) (drop (Z.to_nat off) l)).
Proof. intros. unfold load. case_split_goal; [done|]. lia. Qed.

(** A write at the write index, and the write index moved behind it, append
    the data to the contents and keep the vector's length. *)
Lemma store_at_end b data :
  wf b -> writeIndex_ b + Zlen data <= size b ->
  exists l, store (buffer_ b) (writeIndex_ b) data = Ok l /\
    Zlen l = size b /\
    contents (mk l (readIndex_ b) (writeIndex_ b + Zlen data)) = contents b ++ data.
Proof.
  intros Hwf Hfit. eexists. split; [|split].
  - unfold_sizes. apply store_in_bounds; unfold Zlen; lia.
  - unfold_sizes. rewrite !length_app, length_take, length_drop. lia.
  - unfold contents. unfold_sizes.
    rewrite (Z2Nat.inj_sub (writeIndex_ b)) by lia.
    rewrite <- (slice_after_write _ data) by lia. f_equal. lia.
Qed.

(** [makeSpace] keeps the contents and makes room for [len] bytes, enlarging
    the vector by no more than [len]. *)
Lemma makeSpace_correct b len :
  wf b -> writableBytes b < len -> size b + len <= PTRDIFF_MAX ->
  exists b', makeSpace b len = Ok b' /\ wf b' /\ contents b' = contents b /\
    writeIndex_ b' + len <= size b' <= size b + len.
Proof.
  intros Hwf Hlen Hmax. rewrite writableBytes_wf in Hlen by done.
  unfold makeSpace. rewrite writableBytes_wf, readableBytes_wf by done.
  rewrite !wadd_small by (unfold prependableBytes; unfold_sizes; lia).
  case_split_goal; reflect_bools; unfold prependableBytes in *.
  - unfold vector_resize. case_split_goal; [|unfold_sizes; lia]. cbn.
    eexists. split; [done|]. unfold contents, wf. unfold_sizes.
    rewrite length_resize, resize_ge by lia. rewrite slice_app by lia.
    repeat split; lia || done.
  - rewrite load_in_bounds by (unfold_sizes; lia). run_binds.
    fold (contents b). pose proof (length_contents b Hwf) as Hc.
    rewrite store_in_bounds by (unfold_sizes; lia). run_binds.
    eexists. split; [done|]. split; [|split].
    + unfold_sizes. rewrite !length_app, length_take, length_drop. lia.
    + unfold contents at 1. cbn [buffer_ readIndex_ writeIndex_]. unfold_sizes.
      replace (Z.to_nat (8 + (writeIndex_ b - readIndex_ b) - 8)) with (length (contents b)) by lia.
      rewrite drop_app_length' by (rewrite length_take; lia).
      apply take_app_length.
    + unfold_sizes. rewrite !length_app, length_take, length_drop. lia.
Qed.

Lemma store_length l off data l' : store l off data = Ok l' -> Zlen l' = Zlen l.
Proof.
  unfold store. case_split_goal; [|done]. intros [= <-]. reflect_bools. unfold Zlen in *.
  rewrite !length_app, length_take, length_drop. lia.
Qed.

Lemma makeSpace_size b len b' :
  wf b -> writableBytes b < len -> size b + len <= PTRDIFF_MAX -> makeSpace b len = Ok b' ->
  size b' = if writableBytes b + prependableBytes b <? len + kCheapPrepend
            then writeIndex_ b + len else size b.
Proof.
  intros Hwf Hlen Hmax. unfold makeSpace. rewrite writableBytes_wf in * by done.
  rewrite !wadd_small by (unfold prependableBytes; unfold_sizes; lia).
  destruct (_ <? _); intros H.
  - unfold vector_resize in H. destruct (_ <=? _); [|done]. injection H as <-.
    unfold_sizes. rewrite length_resize. lia.
  - destruct (load _ _ _) as [bytes| | |]; try done. run_binds in H.
    destruct (store _ _ _) as [l| | |] eqn:Hl; try done. injection H as <-.
    by apply store_length in Hl.
Qed.

Lemma append_correct b data :
  wf b -> size b + Zlen data <= PTRDIFF_MAX ->
  exists b', append b data = Ok b' /\ wf b' /\ contents b' = contents b ++ data /\
    size b' <= size b + Zlen data.
Proof.
  intros Hwf Hmax. pose proof (Zlen_nonneg data).
  assert (exists b1, (if writableBytes b <? Zlen data then makeSpace b (Zlen data) else Ok b) = Ok b1
    /\ wf b1 /\ contents b1 = contents b
    /\ writeIndex_ b1 + Zlen data <= size b1 <= size b + Zlen data)
    as (b1 & Hb1 & Hwf1 & Hc1 & Hw1).
  { case_split_goal; reflect_bools.
    - apply makeSpace_correct; done.
    - rewrite writableBytes_wf in * by done. exists b. unfold size in *. repeat split; try lia; apply Hwf. }
  unfold append. rewrite Hb1. run_binds.
  destruct (store_at_end b1 data) as (l & Hl & Hlen & Hc); [done|lia|].
  rewrite Hl. run_binds. eexists. split; [done|].
  rewrite wadd_small by (unfold_sizes; lia). rewrite Hc, Hc1.
  unfold wf, size in *. cbn. rewrite Hlen. repeat split; try lia; apply Hwf1.
Qed.

Lemma retrieve_correct b len :
  wf b -> 0 <= len ->
  wf (retrieve b len) /\ contents (retrieve b len) = drop (Z.to_nat len) (contents b) /\
  size (retrieve b len) = size b.
Proof.
  intros Hwf Hlen. pose proof (length_contents b Hwf) as Hc.
  unfold retrieve. rewrite readableBytes_wf by done. case_split_goal; reflect_bools.
  - rewrite wadd_small by (unfold_sizes; lia). split; [unfold_sizes; lia|]. split; [|done].
    unfold contents. cbn [buffer_ readIndex_ writeIndex_].
    rewrite skipn_firstn_comm, drop_drop. unfold_sizes. f_equal; [|f_equal]; lia.
  - split; [unfold retrieveAll; unfold_sizes; lia|]. split; [|done].
    rewrite drop_ge by (unfold_sizes; lia). done.
Qed.

Lemma retrieveAll_correct b :
  wf b -> wf (retrieveAll b) /\ contents (retrieveAll b) = [] /\ size (retrieveAll b) = size b.
Proof. intros. split; [unfold retrieveAll; unfold_sizes; lia|done]. Qed.

Lemma retrieveAsString_correct b len :
  wf b -> 0 <= len ->
  exists b', retrieveAsString b len = Ok (take (Z.to_nat len) (contents b), b') /\
    wf b' /\ contents b' = drop (Z.to_nat len) (contents b) /\ size b' = size b.
Proof.
  intros Hwf Hlen. pose proof (length_contents b Hwf) as Hc.
  unfold retrieveAsString. rewrite readableBytes_wf by done.
  rewrite load_in_bounds by (unfold_sizes; lia). run_binds.
  destruct (retrieve_correct b (Z.min len (writeIndex_ b - readIndex_ b))) as (H1 & H2 & H3);
    [done|unfold_sizes; lia|].
  eexists. split; [|split; [done|split; [|done]]].
  - do 2 f_equal. unfold contents. rewrite take_take. f_equal. lia.
  - rewrite H2. destruct (decide (len <= writeIndex_ b - readIndex_ b)).
    + f_equal. lia.
    + rewrite !drop_ge by (unfold_sizes; lia). done.
Qed.

Lemma readFd_correct b bytes :
  wf b -> Zlen bytes <= iov_capacity b -> size b + Zlen bytes <= PTRDIFF_MAX ->
  exists b', readFd b (ReadvReads bytes) = Ok (Zlen bytes, None, b') /\
    wf b' /\ contents b' = contents b ++ bytes /\ size b' <= size b + Zlen bytes.
Proof.
  intros Hwf Hcap Hmax. pose proof (Zlen_nonneg bytes).
  unfold readFd. rewrite writableBytes_wf by done.
  assert (s64 (size b - writeIndex_ b) = size b - writeIndex_ b) as ->.
  { unfold s64. case_split_goal; [done|]. unfold_sizes. lia. }
  set (w := size b - writeIndex_ b). assert (0 <= w) by (unfold w; unfold_sizes; lia).
  destruct (store_at_end b (take (Z.to_nat w) bytes)) as (l & Hl & Hlen & Hc); [done|..].
  { unfold Zlen. rewrite length_take. lia. }
  rewrite Hl. run_binds. case_split_goal; reflect_bools.
  - rewrite take_ge in Hc by (unfold Zlen in *; lia).
    rewrite wadd_small by (unfold_sizes; lia). eexists. split; [done|].
    rewrite Hc. unfold wf, size in *. cbn. rewrite Hlen. repeat split; try lia; apply Hwf.
  - assert (Zlen (take (Z.to_nat w) bytes) = w) as Htl by (unfold Zlen in *; rewrite length_take; lia).
    assert (Zlen (drop (Z.to_nat w) bytes) = Zlen bytes - w) as Hdl
      by (unfold Zlen in *; rewrite length_drop; lia).
    rewrite Htl in Hc. replace (writeIndex_ b + w) with (size b) in Hc by lia.
    destruct (append_correct (mk l (readIndex_ b) (size b)) (drop (Z.to_nat w) bytes))
      as (b' & Hb' & Hwf' & Hc' & Hs').
    + unfold wf, size in *. cbn. rewrite Hlen. repeat split; try lia; apply Hwf.
    + unfold size in *. cbn. lia.
    + rewrite Hb'. run_binds. eexists. split; [done|]. split; [done|].
      rewrite Hc', Hc, <- app_assoc, take_drop. split; [done|].
      unfold size in *. cbn in *. lia.
Qed.

(** Every single call refines the queue operation, keeps the invariant and
    enlarges the vector by at most the bytes it takes in. *)
Lemma exec_correct b o :
  wf b -> op_ok b o -> size b + Zlen (op_input o) <= PTRDIFF_MAX ->
  exists b', exec b o = Ok (b', (spec_exec (contents b) o).2) /\ wf b' /\
    contents b' = (spec_exec (contents b) o).1 /\ size b' <= size b + Zlen (op_input o).
Proof.
  intros Hwf Hok Hmax. pose proof (length_contents b Hwf) as Hc.
  destruct o as [data|len| |len| |[e|bytes]|[e|n]]; cbn [exec spec_exec op_input op_ok fst snd] in *.
  - destruct (append_correct b data) as (b' & -> & ?); [done..|]. eauto.
  - destruct (retrieve_correct b len) as (? & ? & ?); [done..|]. eexists. rewrite ?Z.add_0_r; eauto using Z.eq_le_incl.
  - destruct (retrieveAll_correct b) as (? & ? & ?); [done..|]. eexists. rewrite ?Z.add_0_r; eauto using Z.eq_le_incl.
  - destruct (retrieveAsString_correct b len) as (b' & -> & ? & ? & ?); [done..|].
    eexists. split; [done|]. rewrite ?Z.add_0_r; eauto using Z.eq_le_incl.
  - unfold retrieveAllAsString. rewrite readableBytes_wf by done.
    destruct (retrieveAsString_correct b (writeIndex_ b - readIndex_ b))
      as (b' & -> & ? & Hd & ?); [done|unfold_sizes; lia|].
    rewrite drop_ge in Hd by (unfold_sizes; lia). rewrite take_ge by (unfold_sizes; lia).
    eexists. split; [done|]. rewrite ?Z.add_0_r; eauto using Z.eq_le_incl.
  - eexists. split; [done|]. rewrite ?Z.add_0_r; eauto using Z.eq_le_incl.
  - destruct (readFd_correct b bytes) as (b' & -> & ?); [done..|]. eexists. split; [done|]. eauto.
  - eexists. split; [done|]. rewrite ?Z.add_0_r; eauto using Z.eq_le_incl.
  - rewrite readableBytes_wf in Hok by done.
    destruct (retrieve_correct b n) as (? & ? & ?); [done|lia|].
    eexists. split; [|rewrite ?Z.add_0_r; eauto using Z.eq_le_incl]. do 2 f_equal.
    unfold contents. rewrite take_take. cbn [write_sent]. f_equal. lia.
Qed.

Lemma run_correct ops : forall b,
  wf b -> ops_ok b ops -> size b + Zlen (concat (op_input <$> ops)) <= PTRDIFF_MAX ->
  exists b', run b ops = Ok (b', (spec_run (contents b) ops).2) /\ wf b' /\
    contents b' = (spec_run (contents b) ops).1.
Proof.
  induction ops as [|o ops IH]; intros b Hwf Hok Hmax; [eexists; done|].
  destruct Hok as [Ho Hops]. cbn [fmap list_fmap concat] in Hmax. rewrite Zlen_app in Hmax.
  pose proof (Zlen_nonneg (concat (op_input <$> ops))).
  destruct (exec_correct b o) as (b1 & Hb1 & Hwf1 & Hc1 & Hs1); [done..|lia|].
  rewrite Hb1 in Hops. destruct (IH b1) as (b2 & Hb2 & Hwf2 & Hc2); [done|done|lia|].
  exists b2. cbn [run spec_run]. rewrite Hb1. cbn [mbind outcome_bind fst snd].
  rewrite Hb2. cbn [mbind outcome_bind fst snd]. rewrite <- Hc1. done.
Qed.

(** The calls that drop bytes without handing them to anybody. *)
Definition op_discards (o : op) : bool :=
  match o with OpRetrieve _ | OpRetrieveAll => true | _ => false end.

Lemma spec_exec_conserves q o :
  op_discards o = false ->
  (spec_exec q o).2 ++ (spec_exec q o).1 = q ++ op_input o.
Proof.
  destruct o as [data|len| |len| |[e|bytes]|[e|n]]; cbn; intros;
    rewrite ?take_drop, ?app_nil_r; done.
Qed.

Lemma spec_run_conserves ops : forall q,
  Forall (fun o => op_discards o = false) ops ->
  concat (spec_run q ops).2 ++ (spec_run q ops).1 = q ++ concat (op_input <$> ops).
Proof.
  induction ops as [|o ops IH]; intros q H; [cbn; by rewrite app_nil_r|].
  inversion H; subst. cbn [spec_run fmap list_fmap concat fst snd].
  rewrite <- app_assoc, IH, app_assoc, spec_exec_conserves, <- app_assoc by done. done.
Qed.

(** ** Properties *)

(** C1: Every sequence of calls on a well-formed buffer (appends, retrieves,
    [readFd] and [writeFd] with whatever the kernel returns) runs without an
    out-of-bounds access or an exception, as long as the bytes fit in a vector;
    it returns exactly what the same calls return on a byte queue, leaves the
    queue's bytes readable, and keeps the index invariant. *)
Theorem run_refines_queue b ops :
  wf b -> ops_ok b ops -> size b + Zlen (concat (op_input <$> ops)) <= PTRDIFF_MAX ->
  exists b', run b ops = Ok (b', (spec_run (contents b) ops).2) /\ wf b' /\
    contents b' = (spec_run (contents b) ops).1.
Proof. apply run_correct. Qed.

(** No byte is lost, duplicated or reordered: for any sequence of calls
    that does not discard bytes, what was handed out (to the caller or to the
    socket), followed by what is still readable, is what was readable before
    followed by everything that was appended or read from the socket. *)
Theorem run_conserves_bytes b ops :
  wf b -> ops_ok b ops -> size b + Zlen (concat (op_input <$> ops)) <= PTRDIFF_MAX ->
  Forall (fun o => op_discards o = false) ops ->
  exists b' outs, run b ops = Ok (b', outs) /\
    concat outs ++ contents b' = contents b ++ concat (op_input <$> ops).
Proof.
  intros Hwf Hok Hmax Hd. destruct (run_correct ops b) as (b' & Hr & _ & Hc); [done..|].
  exists b', (spec_run (contents b) ops).2. split; [done|].
  rewrite Hc. by apply spec_run_conserves.
Qed.

(** [append] keeps the vector (no reallocation) whenever the free bytes in
    front of and behind the readable part, less the eight reserved ones, can
    hold the data, and otherwise enlarges it to exactly the bytes needed. *)
Theorem append_capacity b data :
  wf b -> size b + Zlen data <= PTRDIFF_MAX ->
  exists b', append b data = Ok b' /\
    size b' = (if writableBytes b + prependableBytes b <? Zlen data + kCheapPrepend
               then (if writableBytes b <? Zlen data then writeIndex_ b + Zlen data else size b)
               else size b).
Proof.
  intros Hwf Hmax. pose proof (Zlen_nonneg data).
  destruct (append_correct b data) as (b' & Hb' & _ & _ & Hs); [done..|].
  exists b'. split; [done|]. revert Hb'. unfold append.
  destruct (writableBytes b <? Zlen data) eqn:Hlt; reflect_bools; run_binds; intros Hb'.
  - destruct (makeSpace b (Zlen data)) as [b1| | |] eqn:H1; try done.
    run_binds in Hb'.
    destruct (store _ _ _) as [l| | |] eqn:H2; try done. injection Hb' as <-.
    apply store_length in H2. apply makeSpace_size in H1; [|done..].
    transitivity (size b1); [exact H2|exact H1].
  - destruct (store _ _ _) as [l| | |] eqn:H2; try done. injection Hb' as <-.
    apply store_length in H2. unfold size at 1. cbn. rewrite H2. by destruct (_ <? _).
Qed.

(** The constructor: a size that fits gives an empty well-formed buffer
    with exactly that many writable bytes; a size above [max_size()] throws;
    and for the eight largest sizes [kCheapPrepend + initialSize] wraps, so that
    the vector is shorter than the prepend area, the invariant fails and the
    first [append] writes outside the vector. *)
Theorem new_cases n :
  0 <= n <= SIZE_MAX ->
  (n <= PTRDIFF_MAX - kCheapPrepend ->
     exists b, new n = Ok b /\ wf b /\ contents b = [] /\ writableBytes b = n) /\
  (PTRDIFF_MAX - kCheapPrepend < n <= SIZE_MAX - kCheapPrepend -> new n = Throw LengthError) /\
  (SIZE_MAX - kCheapPrepend < n ->
     exists b, new n = Ok b /\ ~ wf b /\ append b (lit "x") = Undefined).
Proof.
  unfold new, vector_new, SIZE_MAX, PTRDIFF_MAX, kCheapPrepend. intros Hn. split; [|split]; intros H.
  - rewrite wadd_small by lia. case_split_goal; reflect_bools; unfold PTRDIFF_MAX in *; [|lia].
    eexists. split; [done|]. assert (wf (mk (replicate (Z.to_nat (8 + n)) "000"%char) 8 8)) as Hwf.
    { unfold_sizes. rewrite length_replicate. lia. }
    split; [done|]. split; [done|]. rewrite writableBytes_wf by done.
    unfold_sizes. rewrite length_replicate. lia.
  - rewrite wadd_small by lia. case_split_goal; reflect_bools; unfold PTRDIFF_MAX in *; [lia|done].
  - assert (wadd 8 n = n + 8 - 2 ^ 64) as ->.
    { unfold wadd, u64. symmetry. apply (Z.mod_unique_pos _ _ 1); lia. }
    case_split_goal; reflect_bools; unfold PTRDIFF_MAX in *; [|lia].
    eexists. split; [done|]. split.
    { unfold_sizes. rewrite length_replicate. lia. }
    assert (n + 8 - 2 ^ 64 = 0 \/ n + 8 - 2 ^ 64 = 1 \/ n + 8 - 2 ^ 64 = 2 \/ n + 8 - 2 ^ 64 = 3 \/
      n + 8 - 2 ^ 64 = 4 \/ n + 8 - 2 ^ 64 = 5 \/ n + 8 - 2 ^ 64 = 6 \/ n + 8 - 2 ^ 64 = 7)
      as Hcases by lia.
    destruct_or! Hcases; rewrite Hcases; vm_compute; done.
Qed.

(** ** Witnesses *)

(** A buffer of four bytes that holds nothing yet. *)
Definition small : t := mk (replicate 12 "000"%char) 8 8.

Definition echo_ops : list op :=
  [OpReadFd (ReadvReads (lit "hello, world")); OpRetrieveAsString 5; OpAppend (lit "!");
   OpWriteFd (WriteFails 11); OpWriteFd (WriteWrites 3)].

Lemma echo_ops_ok : ops_ok small echo_ops.
Proof. by vm_compute. Qed.

Lemma run_refines_queue_witness :
  exists b', run small echo_ops = Ok (b', [[]; lit "hello"; []; []; lit ", w"]) /\ wf b' /\
    contents b' = lit "orld!".
Proof. apply (run_refines_queue small echo_ops); [by vm_compute|apply echo_ops_ok|by vm_compute]. Defined.

Lemma run_conserves_bytes_witness :
  exists b' outs, run small echo_ops = Ok (b', outs) /\
    concat outs ++ contents b' = lit "hello, world!".
Proof.
  apply (run_conserves_bytes small echo_ops); [by vm_compute|apply echo_ops_ok|by vm_compute|].
  repeat constructor.
Defined.

Lemma append_capacity_witness :
  exists b', append small (lit "hello") = Ok b' /\ size b' = 13.
Proof. apply (append_capacity small (lit "hello")); by vm_compute. Defined.

Lemma new_cases_witness :
  exists b, new SIZE_MAX = Ok b /\ ~ wf b /\ append b (lit "x") = Undefined.
Proof. destruct (new_cases SIZE_MAX) as (_ & _ & H); [by vm_compute|]. by apply H. Defined.

End Buffer.
