(* ===== verification/Double.v ===== *)
(** * double: decimal conversion as the standard library does it

    The JSON and logging code converts between [double] and text with
    [operator<<(std::ostream&, double)] and [std::stod].  A [double] is an
    IEEE-754 binary64 value in the representation of [SpecFloat]; both
    conversions are defined by exact integer arithmetic with round-half-even,
    as the C library defines them, so they evaluate on concrete inputs. *)

From Stdlib Require Export Floats.SpecFloat.
From S2P Require Import Prelude.
#[local] Open Scope Z_scope.

Module Double.

Abbreviation t := spec_float.

Definition prec : Z := 53.
Definition emax : Z := 1024.

(** ** Decimal digits of integers *)

Definition digit (n : Z) : ascii := ascii_of_nat (48 + Z.to_nat n).
Definition digit_value (c : ascii) : Z := Z.of_nat (nat_of_ascii c) - 48.

(** The decimal digits of [n >= 0]; [fuel] bounds their number. *)
Fixpoint digits_fuel (fuel : nat) (n : Z) : str :=
  match fuel with
  | O => []
  | S fuel => (if n <? 10 then [] else digits_fuel fuel (n `div` 10)) ++ [digit (n `mod` 10)]
  end.

Definition digits (n : Z) : str := digits_fuel (S (Z.to_nat (Z.log2 n))) n.

(** [os << n] and [std::to_string(n)] for an integer. *)
Definition print_int (n : Z) : str :=
  if n <? 0 then "-"%char :: digits (- n) else digits n.

(** The value of a string of digits, as [strtol] and [strtod] accumulate it. *)
Definition digits_value (s : str) : Z := foldl (fun a c => 10 * a + digit_value c) 0 s.

(** Exactly [k] digits, with leading zeros. *)
Definition digits_padded (k : nat) (n : Z) : str :=
  let s := digits n in replicate (k - length s) "0"%char ++ s.

(** ** Integers as doubles: [static_cast<double>(n)] *)

Definition of_Z (n : Z) : t := binary_normalize prec emax n 0 false.

(** ** Printing *)

(** [num / den] rounded to an integer, ties to even. *)
Definition round_half_even (num den : Z) : Z :=
  let q := num `div` den in
  let r := num `mod` den in
  match Z.compare (2 * r) den with
  | Lt => q
  | Gt => q + 1
  | Eq => if Z.even q then q else q + 1
  end.

(** [num / den * 10^k] rounded to an integer. *)
Definition scaled (num den k : Z) : Z :=
  if 0 <=? k then round_half_even (num * 10 ^ k) den else round_half_even num (den * 10 ^ (- k)).

(** The floor of the decimal logarithm of [num / den > 0]. *)
Definition log10_floor (num den : Z) : Z :=
  if den <=? num
  then Zlen (digits (num `div` den)) - 1
  else - Zlen (digits ((den + num - 1) `div` num - 1)).

(** [num / den] with [p] significant digits: the digits as an integer below
    [10^p], and the decimal exponent of the first one. *)
Definition significant (p num den : Z) : Z * Z :=
  let x := log10_floor num den in
  let q := scaled num den (p - 1 - x) in
  if q <? 10 ^ p then (q, x) else (q `div` 10, x + 1).

(** Drops trailing zeros of a fraction. *)
Fixpoint strip_zeros (s : str) : str :=
  match s with
  | [] => []
  | c :: s => match strip_zeros s with
              | [] => if decide (c = "0"%char) then [] else [c]
              | r => c :: r
              end
  end.

(** A fraction with its point, or nothing. *)
Definition with_point (s : str) : str := if decide (s = []) then [] else "."%char :: s.

(** At least two digits of exponent, with its sign. *)
Definition print_exponent (x : Z) : str :=
  "e"%char :: (if x <? 0 then "-"%char else "+"%char) :: digits_padded 2 (Z.abs x).

(** [%g] with precision [p > 0] of [num / den > 0]. *)
Definition general (p num den : Z) : str :=
  let '(q, x) := significant p num den in
  if (-4 <=? x) && (x <? p)
  then
    let k := p - 1 - x in
    digits (q `div` 10 ^ k) ++ with_point (strip_zeros (digits_padded (Z.to_nat k) (q `mod` 10 ^ k)))
  else
    let k := p - 1 in
    digits (q `div` 10 ^ k) ++ with_point (strip_zeros (digits_padded (Z.to_nat k) (q `mod` 10 ^ k)))
    ++ print_exponent x.

(** The fraction [m * 2^e]. *)
Definition numerator (m : positive) (e : Z) : Z := if 0 <=? e then Zpos m * 2 ^ e else Zpos m.
Definition denominator (e : Z) : Z := if 0 <=? e then 1 else 2 ^ (- e).

Definition sign_str (s : bool) : str := if s then ["-"%char] else [].

(** [os << d] on a stream with default flags: [%g] with precision 6. *)
Definition print (d : t) : str :=
  match d with
  | S754_zero s => sign_str s ++ lit "0"
  | S754_infinity s => sign_str s ++ lit "inf"
  | S754_nan => lit "nan"
  | S754_finite s m e => sign_str s ++ general 6 (numerator m e) (denominator e)
  end.

(** ** Reading *)

(** [(-1)^s * m * 10^e], correctly rounded. *)
Definition of_decimal (s : bool) (m e : Z) : t :=
  match m with
  | Zpos p =>
      if 0 <=? e
      then binary_round prec emax s (Z.to_pos (Zpos p * 10 ^ e)) 0
      else SFdiv prec emax (S754_finite s p 0) (S754_finite false (Z.to_pos (10 ^ (- e))) 0)
  | _ => S754_zero s
  end.

(** Whether [m * 10^e] is [d]'s magnitude exactly. *)
Definition exact (d : t) (m e : Z) : bool :=
  match d with
  | S754_zero _ => m =? 0
  | S754_finite _ m' e' =>
      numerator m' e' * (if 0 <=? e then 1 else 10 ^ (- e)) =?
      (if 0 <=? e then m * 10 ^ e else m) * denominator e'
  | _ => false
  end.

(** Below the smallest normal number. *)
Definition tiny (d : t) : bool :=
  match d with
  | S754_zero _ => true
  | S754_finite _ m _ => (Zpos (digits2_pos m) <? prec)
  | _ => false
  end.

(** The longest prefix of digits, and the rest. *)
Fixpoint span_digits (s : str) : str * str :=
  match s with
  | c :: s' => if isdigit c then let '(a, b) := span_digits s' in (c :: a, b) else ([], s)
  | [] => ([], [])
  end.

(** The rest of [s] when it starts with [c]. *)
Definition eat (c : ascii) (s : str) : option str :=
  match s with
  | x :: s' => if decide (x = c) then Some s' else None
  | [] => None
  end.

(** The exponent part [e[+-]ddd] of a number, 0 when there is none or no digit
    follows: [strtod] then stops before the [e]. *)
Definition read_exponent (s : str) : Z :=
  match eat "e"%char s, eat "E"%char s with
  | Some s, _ | None, Some s =>
      match eat "-"%char s, eat "+"%char s with
      | Some s, _ => - digits_value (span_digits s).1
      | None, Some s => digits_value (span_digits s).1
      | None, None => digits_value (span_digits s).1
      end
  | None, None => 0
  end.

(** The number after the sign: [std::invalid_argument] without a digit,
    [std::out_of_range] when [strtod] reports ERANGE (an infinite result, or a
    tiny one that is not exact). *)
Definition stod_unsigned (neg : bool) (s : str) : outcome t :=
  let '(int_part, s) := span_digits s in
  let '(frac_part, s) := match eat "."%char s with Some s => span_digits s | None => ([], s) end in
  if decide (int_part ++ frac_part = [])
  then Throw (InvalidArgument (lit "stod"))
  else
    let m := digits_value (int_part ++ frac_part) in
    let e := read_exponent s - Zlen frac_part in
    let d := of_decimal neg m e in
    match d with
    | S754_infinity _ => Throw OutOfRange
    | _ => if tiny d && negb (exact d m e) then Throw OutOfRange else Ok d
    end.

(** [std::stod] on a text that starts with an optional minus sign and contains
    only digits, [.], [e], [E], [+] and [-] (no blanks, hexadecimal digits or
    names). *)
Definition stod (s : str) : outcome t :=
  match eat "-"%char s with
  | Some s => stod_unsigned true s
  | None => stod_unsigned false s
  end.

(** ** Decimal digits *)

Lemma isdigit_digit n : 0 <= n < 10 -> isdigit (digit n) = true.
Proof.
  intros. unfold isdigit, digit. rewrite nat_ascii_embedding by lia.
  apply andb_true_iff. split; apply Nat.leb_le; lia.
Qed.

Lemma digit_value_digit n : 0 <= n < 10 -> digit_value (digit n) = n.
Proof. intros. unfold digit_value, digit. rewrite nat_ascii_embedding by lia. lia. Qed.

Lemma digits_value_app s k :
  digits_value (s ++ k) = foldl (fun a c => 10 * a + digit_value c) (digits_value s) k.
Proof. apply foldl_app. Qed.

Lemma digits_fuel_value fuel : forall n, 0 <= n < 10 ^ Z.of_nat fuel -> digits_value (digits_fuel fuel n) = n.
Proof.
  induction fuel as [|fuel IH]; intros n Hn; [simpl in *; cbn; lia|].
  rewrite Nat2Z.inj_succ, Z.pow_succ_r in Hn by lia. cbn [digits_fuel].
  pose proof (Z.mod_pos_bound n 10 ltac:(lia)). pose proof (Z.div_mod n 10 ltac:(lia)).
  rewrite digits_value_app. cbn [foldl]. rewrite digit_value_digit by lia.
  case_split_goal; reflect_bools.
  - rewrite Z.mod_small by lia. change (digits_value []) with 0. lia.
  - rewrite IH; [lia|]. split; [apply Z.div_pos; lia|]. apply Z.div_lt_upper_bound; lia.
Qed.

Lemma digits_fuel_isdigit fuel : forall n, 0 <= n -> Forall (fun c => isdigit c = true) (digits_fuel fuel n).
Proof.
  induction fuel as [|fuel IH]; intros n Hn; cbn [digits_fuel]; [constructor|].
  apply Forall_app. split.
  - case_split_goal; [constructor|]. apply IH. apply Z.div_pos; lia.
  - constructor; [|constructor]. apply isdigit_digit. apply Z.mod_pos_bound. lia.
Qed.

Lemma digits_fuel_length fuel : forall n,
  1 <= n < 10 ^ Z.of_nat fuel -> 10 ^ (Zlen (digits_fuel fuel n) - 1) <= n < 10 ^ Zlen (digits_fuel fuel n).
Proof.
  induction fuel as [|fuel IH]; intros n Hb; [change (10 ^ Z.of_nat 0) with 1 in *; lia|].
  rewrite Nat2Z.inj_succ, Z.pow_succ_r in Hb by lia. cbn [digits_fuel].
  rewrite Zlen_app. change (Zlen [digit (n `mod` 10)]) with 1.
  destruct (n <? 10) eqn:?; reflect_bools.
  { change (10 ^ (Zlen (@nil ascii) + 1 - 1)) with 1. change (10 ^ (Zlen (@nil ascii) + 1)) with 10. lia. }
  pose proof (Z.mod_pos_bound n 10 ltac:(lia)). pose proof (Z.div_mod n 10 ltac:(lia)).
  specialize (IH (n `div` 10) ltac:(lia)).
  set (k := Zlen (digits_fuel fuel (n `div` 10))) in *.
  assert (0 <= k) by apply Zlen_nonneg.
  assert (k <> 0) by (intros E; rewrite E in IH; change (10 ^ 0) with 1 in IH; lia).
  replace (k + 1 - 1) with (Z.succ (k - 1)) by lia. replace (k + 1) with (Z.succ k) by lia.
  rewrite !Z.pow_succ_r by lia. lia.
Qed.

Lemma digits_fuel_enough n : 0 <= n -> n < 10 ^ Z.of_nat (S (Z.to_nat (Z.log2 n))).
Proof.
  intros. rewrite Nat2Z.inj_succ, Z2Nat.id by apply Z.log2_nonneg.
  destruct (decide (n = 0)) as [->|]; [cbn; lia|].
  pose proof (Z.log2_spec n ltac:(lia)) as [_ Hlt].
  eapply Z.lt_le_trans; [exact Hlt|]. apply Z.pow_le_mono_l. lia.
Qed.

Lemma digits_value_digits n : 0 <= n -> digits_value (digits n) = n.
Proof. intros. apply digits_fuel_value. split; [done|]. by apply digits_fuel_enough. Qed.

Lemma digits_isdigit n : 0 <= n -> Forall (fun c => isdigit c = true) (digits n).
Proof. apply digits_fuel_isdigit. Qed.

Lemma digits_nonempty n : digits n <> [].
Proof. unfold digits. cbn [digits_fuel]. by destruct (if n <? 10 then _ else _). Qed.

Lemma digits_length n :
  1 <= n -> 10 ^ (Zlen (digits n) - 1) <= n < 10 ^ Zlen (digits n).
Proof.
  intros. apply digits_fuel_length. split; [done|]. apply digits_fuel_enough. lia.
Qed.

(** ** Integers below 2^53 are represented exactly *)

Lemma digits2_pos_iter m k : digits2_pos (Pos.iter xO m k) = (digits2_pos m + k)%positive.
Proof.
  induction k as [|k IH] using Pos.peano_ind; [cbn; lia|].
  rewrite Pos.iter_succ. cbn [digits2_pos]. rewrite IH. lia.
Qed.

Lemma iter_xO_value m k : Zpos (Pos.iter xO m k) = Zpos m * 2 ^ Zpos k.
Proof.
  induction k as [|k IH] using Pos.peano_ind; [cbn; lia|].
  rewrite Pos.iter_succ, Pos2Z.inj_succ, Z.pow_succ_r by lia.
  rewrite (Pos2Z.inj_xO (Pos.iter xO m k)), IH. lia.
Qed.

Lemma digits2_pos_lower m : 2 ^ (Zpos (digits2_pos m) - 1) <= Zpos m.
Proof.
  induction m as [m IH|m IH|]; cbn [digits2_pos]; [| |cbn; lia];
    rewrite Pos2Z.inj_succ;
    replace (Z.succ (Zpos (digits2_pos m)) - 1) with (Z.succ (Zpos (digits2_pos m) - 1)) by lia;
    rewrite Z.pow_succ_r by lia; lia.
Qed.

(** A 53-bit mantissa is already rounded. *)
Lemma round_aux_53 s m e :
  Zpos (digits2_pos m) = 53 -> -1074 <= e <= 971 ->
  binary_round_aux prec emax s (Zpos m) e loc_Exact = S754_finite s m e.
Proof.
  intros Hd He.
  assert (shr_fexp prec emax (Zpos m) e loc_Exact = ({| shr_m := Zpos m; shr_r := false; shr_s := false |}, e))
    as Hs.
  { unfold shr_fexp. cbn [Zdigits2]. rewrite Hd. unfold fexp, SpecFloat.emin, prec, emax.
    replace (Z.max (53 + e - 53) (3 - 1024 - 53) - e) with 0 by lia. done. }
  unfold binary_round_aux. rewrite Hs. cbn [shr_m loc_of_shr_record round_nearest_even].
  rewrite Hs. cbn [shr_m]. case_split_goal; [done|]. unfold prec, emax in *. lia.
Qed.

Lemma binary_round_small s m :
  Zpos m < 2 ^ 53 ->
  exists m' e, binary_round prec emax s m 0 = S754_finite s m' e /\ e <= 0 /\
    Zpos m' = Zpos m * 2 ^ (- e) /\ Zpos (digits2_pos m') = 53.
Proof.
  intros Hm. pose proof (digits2_pos_lower m) as Hl.
  assert (Zpos (digits2_pos m) <= 53) as Hd.
  { assert (Zpos (digits2_pos m) - 1 < 53); [|lia]. apply (Z.pow_lt_mono_r_iff 2); lia. }
  assert (fexp prec emax (Zpos (digits2_pos m) + 0) = Zpos (digits2_pos m) - 53) as Hf.
  { unfold fexp, SpecFloat.emin, prec, emax. lia. }
  unfold binary_round, shl_align. rewrite Hf, Z.sub_0_r.
  destruct (Zpos (digits2_pos m) - 53) as [|k|k] eqn:Hk; [| |]; try lia.
  - rewrite (round_aux_53 s m 0) by lia. exists m, 0. repeat split; lia.
  - rewrite (round_aux_53 s (Pos.iter xO m k) (Zneg k)) by (rewrite ?digits2_pos_iter; lia).
    exists (Pos.iter xO m k), (Zneg k). rewrite digits2_pos_iter. repeat split; try lia.
    apply iter_xO_value.
Qed.

(** ** Printing and reading integers *)

Lemma round_half_even_exact q den : 0 < den -> round_half_even (q * den) den = q.
Proof.
  intros. unfold round_half_even. rewrite Z.div_mul, Z.mod_mul by lia.
  destruct (Z.compare_spec (2 * 0) den); lia.
Qed.

Lemma strip_zeros_replicate k : strip_zeros (replicate k "0"%char) = [].
Proof. induction k as [|k IH]; [done|]. cbn. by rewrite IH. Qed.

Lemma digits_padded_zero k : strip_zeros (digits_padded k 0) = [].
Proof.
  unfold digits_padded. change (digits 0) with (replicate 1 "0"%char).
  rewrite <- replicate_add. apply strip_zeros_replicate.
Qed.

(** [%g] prints a positive integer of at most six digits as its digits. *)
Lemma general_integer n den :
  1 <= n < 10 ^ 6 -> 0 < den -> general 6 (n * den) den = digits n.
Proof.
  intros Hn Hden. pose proof (digits_length n ltac:(lia)) as Hl.
  set (x := Zlen (digits n) - 1) in *. replace (Zlen (digits n)) with (x + 1) in Hl by lia.
  assert (0 <= x).
  { pose proof (digits_nonempty n). unfold x, Zlen. destruct (digits n); [done|cbn; lia]. }
  assert (x < 6) by (apply (Z.pow_lt_mono_r_iff 10); lia).
  assert (log10_floor (n * den) den = x) as Hlog.
  { unfold log10_floor. case_split_goal; reflect_bools; [|nia]. by rewrite Z.div_mul by lia. }
  assert (n * 10 ^ (5 - x) < 10 ^ 6) as Hlt.
  { replace (10 ^ 6) with (10 ^ (x + 1) * 10 ^ (5 - x)) by (rewrite <- Z.pow_add_r by lia; f_equal; lia).
    apply Z.mul_lt_mono_pos_r; [|lia]. apply Z.pow_pos_nonneg; lia. }
  unfold general, significant. rewrite Hlog. unfold scaled.
  replace (6 - 1 - x) with (5 - x) by lia.
  destruct (0 <=? 5 - x) eqn:E; reflect_bools; [|lia].
  replace (n * den * 10 ^ (5 - x)) with (n * 10 ^ (5 - x) * den) by lia.
  rewrite round_half_even_exact by done.
  destruct (n * 10 ^ (5 - x) <? 10 ^ 6) eqn:E2; reflect_bools; [|lia].
  destruct ((-4 <=? x) && (x <? 6)) eqn:E3; [|lia].
  replace (6 - 1 - x) with (5 - x) by lia.
  assert (0 < 10 ^ (5 - x)) by (apply Z.pow_pos_nonneg; lia).
  rewrite Z.div_mul, Z.mod_mul, digits_padded_zero by lia. apply app_nil_r.
Qed.

Lemma numerator_neg m e : e <= 0 -> numerator m e = Zpos m.
Proof. intros. unfold numerator. case_split_goal; [|done]. reflect_bools. assert (e = 0) as -> by lia. lia. Qed.

Lemma denominator_neg e : e <= 0 -> denominator e = 2 ^ (- e).
Proof. intros. unfold denominator. case_split_goal; [|done]. reflect_bools. by assert (e = 0) as -> by lia. Qed.

Lemma print_of_Z n : Z.abs n < 10 ^ 6 -> print (of_Z n) = print_int n.
Proof.
  intros Hn. destruct n as [|p|p]; [done| |].
  - destruct (binary_round_small false p) as (m & e & Hr & He & Hm & _); [lia|].
    unfold of_Z. cbn [binary_normalize]. rewrite Hr. cbn [print sign_str app].
    rewrite numerator_neg, denominator_neg, Hm by done.
    rewrite general_integer by (try apply Z.pow_pos_nonneg; lia). done.
  - destruct (binary_round_small true p) as (m & e & Hr & He & Hm & _); [lia|].
    unfold of_Z. cbn [binary_normalize]. rewrite Hr. cbn [print sign_str app].
    rewrite numerator_neg, denominator_neg, Hm by done.
    rewrite general_integer by (try apply Z.pow_pos_nonneg; lia). done.
Qed.

Lemma span_digits_all s : Forall (fun c => isdigit c = true) s -> span_digits s = (s, []).
Proof. induction 1 as [|c s Hc _ IH]; [done|]. cbn. by rewrite Hc, IH. Qed.

Lemma eat_digit c s x : isdigit x = true -> isdigit c = false -> eat c (x :: s) = None.
Proof. intros Hx Hc. cbn. case_decide; congruence. Qed.

Lemma eat_digits c n : 0 <= n -> isdigit c = false -> eat c (digits n) = None.
Proof.
  intros Hn Hc. pose proof (digits_isdigit n Hn) as H. pose proof (digits_nonempty n).
  destruct (digits n) as [|x s]; [done|]. inversion H; subst. by apply eat_digit.
Qed.

(** What [stod] computes on a signed run of digits. *)
Lemma of_decimal_integer s m :
  0 <= m < 2 ^ 53 ->
  of_decimal s m 0 = match m with Zpos p => binary_round prec emax s p 0 | _ => S754_zero s end /\
  tiny (of_decimal s m 0) && negb (exact (of_decimal s m 0) m 0) = false /\
  (forall b, of_decimal s m 0 <> S754_infinity b).
Proof.
  intros Hm. destruct m as [|p|p]; [done| |lia].
  destruct (binary_round_small s p) as (m' & e & Hr & He & Hv & Hd); [lia|].
  assert (of_decimal s (Zpos p) 0 = binary_round prec emax s p 0) as ->.
  { unfold of_decimal. change (0 <=? 0) with true. change (10 ^ 0) with 1. by rewrite Z.mul_1_r. }
  rewrite Hr. split; [done|]. split; [|done]. cbn [tiny]. rewrite Hd. done.
Qed.

Lemma stod_unsigned_digits s m :
  0 <= m < 2 ^ 53 ->
  stod_unsigned s (digits m)
  = Ok (match m with Zpos p => binary_round prec emax s p 0 | _ => S754_zero s end).
Proof.
  intros Hm. unfold stod_unsigned.
  rewrite span_digits_all by (apply digits_isdigit; lia). cbn [eat].
  rewrite app_nil_r. case_decide as Hd; [by apply digits_nonempty in Hd|].
  rewrite digits_value_digits by lia. cbn [read_exponent eat].
  change (0 - Zlen []) with 0. destruct (of_decimal_integer s m Hm) as (Heq & Ht & Hi).
  cbv zeta. rewrite Ht, <- Heq. destruct (of_decimal s m 0) eqn:E; [done| |done..].
  by destruct (Hi s0).
Qed.

Lemma stod_print_int n : Z.abs n < 2 ^ 53 -> stod (print_int n) = Ok (of_Z n).
Proof.
  intros Hn. unfold stod, print_int. case_split_goal; reflect_bools.
  - cbn [eat]. rewrite decide_True by done. rewrite stod_unsigned_digits by lia.
    destruct n; [lia..|done].
  - rewrite eat_digits by (done || lia). rewrite stod_unsigned_digits by lia.
    destruct n; [done..|lia].
Qed.

(** ** The shape of a printed number *)

Definition all_digits (s : str) : Prop := Forall (fun c => isdigit c = true) s.

(** An exponent as [os << d] writes it, or nothing. *)
Definition exponent_text (x : str) : Prop :=
  x = [] \/ exists c ds, (c = "+"%char \/ c = "-"%char) /\ all_digits ds /\ x = "e"%char :: c :: ds.

(** Sign, digits, point and digits, exponent. *)
Definition number_text (s : str) : Prop :=
  exists sg a f x, s = sign_str sg ++ a ++ with_point f ++ x /\
    a <> [] /\ all_digits a /\ all_digits f /\ exponent_text x.

Definition is_number (d : t) : Prop :=
  match d with S754_zero _ | S754_finite _ _ _ => True | _ => False end.

Lemma round_half_even_nonneg num den : 0 <= num -> 0 < den -> 0 <= round_half_even num den.
Proof.
  intros. unfold round_half_even. assert (0 <= num `div` den) by (apply Z.div_pos; lia).
  destruct (_ ?= _); [destruct (Z.even _)|..]; lia.
Qed.

Lemma significant_nonneg p num den : 0 <= num -> 0 < den -> 0 <= (significant p num den).1.
Proof.
  intros. assert (forall k, 0 <= scaled num den k).
  { intros k. unfold scaled. case_split_goal; reflect_bools; apply round_half_even_nonneg.
    - apply Z.mul_nonneg_nonneg; [done|]. apply Z.pow_nonneg. lia.
    - done.
    - done.
    - apply Z.mul_pos_pos; [done|]. apply Z.pow_pos_nonneg; lia. }
  unfold significant. case_split_goal; cbn; [done|]. apply Z.div_pos; [done|lia].
Qed.

Lemma strip_zeros_digits s : all_digits s -> all_digits (strip_zeros s).
Proof.
  induction 1 as [|c s Hc _ IH]; [constructor|]. cbn. destruct (strip_zeros s).
  - case_decide; repeat constructor. done.
  - by constructor.
Qed.

Lemma digits_padded_digits k n : 0 <= n -> all_digits (digits_padded k n).
Proof.
  intros. apply Forall_app. split; [|by apply digits_isdigit]. by apply Forall_replicate.
Qed.

Lemma print_number_text d : is_number d -> number_text (print d).
Proof.
  destruct d as [s|s| |s m e]; intros Hd; try done.
  - exists s, (lit "0"), [], []. repeat split; try done; [by repeat constructor|constructor|by left].
  - cbn [print]. set (num := numerator m e). set (den := denominator e).
    assert (0 < num /\ 0 < den) as [Hnum Hden].
    { unfold num, den, numerator, denominator. destruct (0 <=? e) eqn:?; reflect_bools.
      - assert (0 < 2 ^ e) by (apply Z.pow_pos_nonneg; lia). lia.
      - split; [lia|]. apply Z.pow_pos_nonneg; lia. }
    unfold general. pose proof (significant_nonneg 6 num den ltac:(lia) Hden) as Hq.
    destruct (significant 6 num den) as [q x]. cbn [fst] in Hq.
    assert (forall k, 0 <= k -> 0 <= q `div` 10 ^ k) as Hdiv.
    { intros. apply Z.div_pos; [done|]. apply Z.pow_pos_nonneg; lia. }
    assert (forall k, 0 <= k -> 0 <= q `mod` 10 ^ k) as Hmod.
    { intros. apply Z.mod_pos_bound. apply Z.pow_pos_nonneg; lia. }
    case_split_goal; reflect_bools; [eexists s, _, _, []|eexists s, _, _, _].
    + rewrite app_nil_r. repeat split.
      * apply digits_nonempty.
      * apply digits_isdigit, Hdiv; lia.
      * apply strip_zeros_digits, digits_padded_digits, Hmod. lia.
      * by left.
    + repeat split.
      * apply digits_nonempty.
      * apply digits_isdigit, Hdiv; lia.
      * apply strip_zeros_digits, digits_padded_digits, Hmod. lia.
      * right. unfold print_exponent. eexists _, _. split; [|split; [|done]].
        { destruct (x <? 0); auto. }
        apply digits_padded_digits. lia.
Qed.

End Double.
