(* ===== verification/Json.v ===== *)
(** * protocol/Json.hpp: the value classes

    [JsonBase] and its six subclasses: the values, their types and accessors,
    the compact printer [toString], the indented printer [dump], and the
    operations of [JsonObject] and [JsonArray].

    A [std::unique_ptr<JsonBase>] is an optional value: the code can hold null
    pointers inside containers, and treats them differently in arrays (printed
    as [null]) and in objects (dereferenced). *)

From S2P Require Import Prelude Double.
#[local] Open Scope Z_scope.

Module Json.

(** ** Values *)

Inductive JsonType : Type := Object | Array | String | Number | Boolean | Null.

#[export] Instance JsonType_eq_dec : EqDecision JsonType.
Proof. solve_decision. Defined.

#[warnings="-register-all"]
Inductive json : Type :=
| JsonObject (members_ : list (str * option json))
| JsonArray (elements_ : list (option json))
| JsonString (value_ : str)
| JsonNumber (value_ : Double.t)
| JsonBoolean (value_ : bool)
| JsonNull.

(** [std::unique_ptr<JsonBase>] *)
Abbreviation ptr := (option json).

Definition getType (j : json) : JsonType :=
  match j with
  | JsonObject _ => Object
  | JsonArray _ => Array
  | JsonString _ => String
  | JsonNumber _ => Number
  | JsonBoolean _ => Boolean
  | JsonNull => Null
  end.

(** The virtual converters of [JsonBase], overridden by one subclass each. *)
Definition asObject (j : json) : outcome (list (str * ptr)) :=
  match j with JsonObject ms => Ok ms | _ => Throw (RuntimeError (lit "Not an object")) end.
Definition asArray (j : json) : outcome (list ptr) :=
  match j with JsonArray es => Ok es | _ => Throw (RuntimeError (lit "Not an array")) end.
Definition asString (j : json) : outcome str :=
  match j with JsonString v => Ok v | _ => Throw (RuntimeError (lit "Not a string")) end.
Definition asNumber (j : json) : outcome Double.t :=
  match j with JsonNumber v => Ok v | _ => Throw (RuntimeError (lit "Not a number")) end.
Definition asBool (j : json) : outcome bool :=
  match j with JsonBoolean v => Ok v | _ => Throw (RuntimeError (lit "Not a boolean")) end.

(** ** Compact printing *)

Definition escape_char (c : ascii) : str :=
  if decide (c = dquote) then [backslash; dquote]
  else if decide (c = backslash) then [backslash; backslash]
  else if decide (c = newline) then [backslash; "n"%char]
  else if decide (c = creturn) then [backslash; "r"%char]
  else if decide (c = tab) then [backslash; "t"%char]
  else [c].

(** [JsonString::toString] *)
Definition string_toString (value_ : str) : str :=
  [dquote] ++ concat (escape_char <$> value_) ++ [dquote].

Section loops.
Variable print : json -> outcome str.

(** The loop of [JsonObject::toString]; a null member is dereferenced. *)
Fixpoint object_loop (first : bool) (ms : list (str * ptr)) (result : str) : outcome str :=
  match ms with
  | [] => Ok (result ++ lit "}")
  | (key, val) :: ms =>
      let result := if first then result else result ++ lit "," in
      match val with
      | None => Undefined
      | Some v =>
          s ← print v;
          object_loop false ms (result ++ [dquote] ++ key ++ [dquote] ++ lit ":" ++ s)
      end
  end.

(** The loop of [JsonArray::toString]; a null element prints as [null]. *)
Fixpoint array_loop (first : bool) (es : list ptr) (result : str) : outcome str :=
  match es with
  | [] => Ok (result ++ lit "]")
  | e :: es =>
      let result := if first then result else result ++ lit "," in
      s ← match e with Some v => print v | None => Ok (lit "null") end;
      array_loop false es (result ++ s)
  end.

(** The loop of [JsonObject::dump]. *)
Fixpoint object_dump_loop (pad inside : str) (ms : list (str * ptr)) (res : str) : outcome str :=
  match ms with
  | [] => Ok (res ++ pad ++ lit "}")
  | (key, val) :: ms =>
      match val with
      | None => Undefined
      | Some v =>
          s ← print v;
          let res := res ++ inside ++ [dquote] ++ key ++ [dquote] ++ lit ": " ++ s in
          let res := match ms with [] => res | _ => res ++ lit "," end in
          object_dump_loop pad inside ms (res ++ [newline])
      end
  end.

(** The loop of [JsonArray::dump]. *)
Fixpoint array_dump_loop (pad inside : str) (es : list ptr) (res : str) : outcome str :=
  match es with
  | [] => Ok (res ++ pad ++ lit "]")
  | e :: es =>
      s ← match e with Some v => print v | None => Ok (lit "null") end;
      let res := res ++ inside ++ s in
      let res := match es with [] => res | _ => res ++ lit "," end in
      array_dump_loop pad inside es (res ++ [newline])
  end.
End loops.

(** [toString] of the six classes. *)
Fixpoint toString (j : json) : outcome str :=
  match j with
  | JsonString v => Ok (string_toString v)
  | JsonNumber d => Ok (Double.print d)
  | JsonBoolean b => Ok (if b then lit "true" else lit "false")
  | JsonNull => Ok (lit "null")
  | JsonObject members_ => object_loop toString true members_ (lit "{")
  | JsonArray elements_ => array_loop toString true elements_ (lit "[")
  end.

(** ** Indented printing *)

(** [int] arithmetic: overflow is undefined. *)
Definition int_arith (z : Z) : outcome Z :=
  if (- 2 ^ 31 <=? z) && (z <? 2 ^ 31) then Ok z else Undefined.

(** [std::string(n, ' ')] with an [int] argument: a negative one converts to a
    [size_t] above [max_size()]. *)
Definition spaces (n : Z) : outcome str :=
  if n <? 0 then Throw LengthError else Ok (replicate (Z.to_nat n) " "%char).

(** [dump] of the six classes. *)
Fixpoint dump (indent depth : Z) (j : json) : outcome str :=
  match j with
  | JsonObject members_ =>
      if indent <? 0 then toString j
      else
        n ← int_arith (depth * indent);
        pad ← spaces n;
        depth1 ← int_arith (depth + 1);
        n1 ← int_arith (depth1 * indent);
        inside ← spaces n1;
        object_dump_loop (dump indent depth1) pad inside members_ (lit "{" ++ [newline])
  | JsonArray elements_ =>
      if indent <? 0 then toString j
      else
        n ← int_arith (depth * indent);
        pad ← spaces n;
        depth1 ← int_arith (depth + 1);
        n1 ← int_arith (depth1 * indent);
        inside ← spaces n1;
        array_dump_loop (dump indent depth1) pad inside elements_ (lit "[" ++ [newline])
  | _ => toString j
  end.

(** ** [JsonObject] *)

Fixpoint contains (members_ : list (str * ptr)) (key : str) : bool :=
  match members_ with
  | [] => false
  | m :: ms => if decide (m.1 = key) then true else contains ms key
  end.

(** [getRefForKeyCreate]: the members afterwards and the position of the
    member whose pointer is referred to. *)
Fixpoint getRefForKeyCreate (members_ : list (str * ptr)) (key : str) : list (str * ptr) * nat :=
  match members_ with
  | [] => ([(key, Some JsonNull)], 0%nat)
  | m :: ms =>
      if decide (m.1 = key) then (m :: ms, 0%nat)
      else let '(ms', i) := getRefForKeyCreate ms key in (m :: ms', S i)
  end.

(** [operator[](key) const] *)
Fixpoint object_at (members_ : list (str * ptr)) (key : str) : outcome json :=
  match members_ with
  | [] => Throw (RuntimeError (lit "Key not found: " ++ key))
  | m :: ms =>
      if decide (m.1 = key)
      then match m.2 with Some v => Ok v | None => Undefined end
      else object_at ms key
  end.

(** [insert] and its alias [add] do not look for the key. *)
Definition insert (members_ : list (str * ptr)) (key : str) (val : ptr) : list (str * ptr) :=
  members_ ++ [(key, val)].

(** ** [JsonArray] *)

(** [max_size()] of a vector of pointers. *)
Definition max_elements : Z := PTRDIFF_MAX `div` 8.

Definition fill_null (e : ptr) : ptr :=
  match e with None => Some JsonNull | Some v => Some v end.

(** [getElementRefCreate(idx)]: the elements afterwards; the reference is to
    element [idx]. *)
Definition getElementRefCreate (elements_ : list ptr) (idx : Z) : outcome (list ptr) :=
  es ← (if Zlen elements_ <=? idx
        then
          let n := wadd idx 1 in
          if n <=? max_elements
          then Ok (fill_null <$> resize (Z.to_nat n) None elements_)
          else Throw LengthError
        else Ok elements_);
  match es !! Z.to_nat idx with
  | None => Undefined
  | Some e => Ok (<[Z.to_nat idx := fill_null e]> es)
  end.

(** [operator[](idx) const] *)
Definition array_at (elements_ : list ptr) (idx : Z) : outcome json :=
  if Zlen elements_ <=? idx then Throw (RuntimeError (lit "Array index out of range"))
  else match elements_ !! Z.to_nat idx with
       | Some (Some v) => Ok v
       | _ => Undefined
       end.

Definition push (elements_ : list ptr) (v : ptr) : list ptr := elements_ ++ [v].

(** ** Induction on values *)

Section json_induction.
Variable P : json -> Prop.
Hypothesis P_object : forall ms, Forall (fun m => forall v, m.2 = Some v -> P v) ms -> P (JsonObject ms).
Hypothesis P_array : forall es, Forall (fun e => forall v, e = Some v -> P v) es -> P (JsonArray es).
Hypothesis P_string : forall v, P (JsonString v).
Hypothesis P_number : forall v, P (JsonNumber v).
Hypothesis P_boolean : forall v, P (JsonBoolean v).
Hypothesis P_null : P JsonNull.

Fixpoint json_induction (j : json) : P j.
Proof.
  destruct j as [ms|es|v|v|v|].
  - apply P_object. induction ms as [|[k e] ms IH]; constructor; [|exact IH].
    cbn. destruct e as [v'|]; intros v [= <-]. exact (json_induction v').
  - apply P_array. induction es as [|e es IH]; constructor; [|exact IH].
    destruct e as [v'|]; intros v [= <-]. exact (json_induction v').
  - apply P_string.
  - apply P_number.
  - apply P_boolean.
  - apply P_null.
Defined.
End json_induction.

(** ** Lookup *)

Lemma contains_insert ms k v k' : contains (insert ms k v) k' = contains ms k' || bool_decide (k = k').
Proof.
  unfold insert. induction ms as [|m ms IH]; cbn [app contains].
  - cbn [fst]. case_decide; [by rewrite bool_decide_eq_true_2|by rewrite bool_decide_eq_false_2].
  - repeat case_decide; try done; exact IH.
Qed.

Lemma object_at_insert ms k v k' :
  object_at (insert ms k v) k' = if contains ms k' then object_at ms k' else object_at [(k, v)] k'.
Proof. unfold insert. induction ms as [|m ms IH]; cbn [app contains object_at]; [done|]. by case_decide; [|exact IH]. Qed.

Lemma object_at_missing ms k : contains ms k = false -> object_at ms k = Throw (RuntimeError (lit "Key not found: " ++ k)).
Proof. induction ms as [|m ms IH]; cbn [contains object_at]; [done|]. case_decide; [done|exact IH]. Qed.

(** Inserting into an object appends: a new key is then found with its value,
    a key that was there keeps its first value, other keys are not affected and
    a missing key throws with its name.  Pushing to an array puts the value
    after the last element; an index past the end throws. *)
Theorem insert_and_push_lookup ms k (v : json) k' es (i : Z) :
  contains (insert ms k (Some v)) k' = contains ms k' || bool_decide (k = k') /\
  (contains ms k = false -> object_at (insert ms k (Some v)) k = Ok v) /\
  (contains ms k' = true -> object_at (insert ms k (Some v)) k' = object_at ms k') /\
  (contains ms k' = false -> k <> k' ->
     object_at (insert ms k (Some v)) k' = Throw (RuntimeError (lit "Key not found: " ++ k'))) /\
  array_at (push es (Some v)) (Zlen es) = Ok v /\
  (0 <= i < Zlen es -> array_at (push es (Some v)) i = array_at es i) /\
  (Zlen es <= i -> array_at es i = Throw (RuntimeError (lit "Array index out of range"))).
Proof.
  split; [apply contains_insert|]. rewrite !object_at_insert.
  split; [intros ->; cbn; by rewrite decide_True|]. split; [by intros ->|].
  split; [intros -> Hne; cbn; by rewrite decide_False|].
  unfold array_at, push. rewrite Zlen_app. change (Zlen [Some v]) with 1. split; [|split].
  - rewrite (proj2 (Z.leb_gt _ _)) by lia. unfold Zlen. by rewrite Nat2Z.id, list_lookup_middle.
  - intros Hi. rewrite !(proj2 (Z.leb_gt _ _)) by lia. rewrite lookup_app_l; [done|]. unfold Zlen in Hi. lia.
  - intros Hi. by rewrite (proj2 (Z.leb_le _ _)) by lia.
Qed.

Lemma insert_and_push_lookup_witness :
  object_at (insert [(lit "a", Some JsonNull)] (lit "b") (Some (JsonBoolean true))) (lit "b") = Ok (JsonBoolean true) /\
  object_at (insert [(lit "a", Some JsonNull)] (lit "a") (Some (JsonBoolean true))) (lit "a") = Ok JsonNull.
Proof.
  split.
  - destruct (insert_and_push_lookup [(lit "a", Some JsonNull)] (lit "b") (JsonBoolean true) (lit "a") [] 0) as (_ & H & _).
    by apply H.
  - destruct (insert_and_push_lookup [(lit "a", Some JsonNull)] (lit "a") (JsonBoolean true) (lit "a") [] 0) as (_ & _ & H & _).
    by apply H.
Defined.

End Json.
