(* ===== verification/JsonScan.v ===== *)
(** * Parsing as reading a text

    The functions of [JsonParser] (src/include/protocol/Json.hpp) as a reader would state
    them: what they make of the text from a position on, without accesses that could
    fail.  JsonParser.v, which follows the code access by access, is proved equal to
    these; the grammar and the round trips are proved of these.  The mutual recursion
    has fuel, and the lemmas at the end say how much is enough. *)

From S2P Require Import Prelude Double Json.
Import Json.

Module JsonScan.

Definition error {A} (msg : string) : outcome A := Throw (RuntimeError (lit msg)).

(** The loop condition of [skipSpaces]: a character that is not NUL and is a
    blank. *)
Definition skippable (c : ascii) : bool := negb (bool_decide (c = "000"%char)) && isspace c.

(** The number of leading characters that satisfy [p]. *)
Fixpoint count_while (p : ascii -> bool) (s : str) : nat :=
  match s with
  | c :: s => if p c then S (count_while p s) else 0
  | [] => 0
  end.

Definition skipSpaces (json : str) (pos : nat) : nat :=
  pos + count_while skippable (drop pos json).

Definition skipDigits (json : str) (pos : nat) : nat :=
  pos + count_while isdigit (drop pos json).

(** The character an escape sequence stands for. *)
Definition unescape (esc : ascii) : ascii :=
  if decide (esc = "b"%char) then backspace
  else if decide (esc = "f"%char) then formfeed
  else if decide (esc = "n"%char) then newline
  else if decide (esc = "r"%char) then creturn
  else if decide (esc = "t"%char) then tab
  else esc.

(** The loop of [parseString], on the text from [pos] on. *)
Fixpoint parseString_loop (rest : str) (pos : nat) (out : str) : outcome (str * nat) :=
  match rest with
  | [] => Ok (out, pos)
  | c :: rest =>
      if decide (c = dquote) then Ok (out, S pos)
      else if decide (c = backslash) then
        match rest with
        | [] => error "Bad escape in string"
        | esc :: rest => parseString_loop rest (S (S pos)) (out ++ [unescape esc])
        end
      else parseString_loop rest (S pos) (out ++ [c])
  end.

Definition parseString (json : str) (pos : nat) : outcome (str * nat) :=
  let pos := S pos in
  parseString_loop (drop pos json) pos [].

(** Whether [json[pos]] exists and is [c]. *)
Definition at_char (json : str) (pos : nat) (c : ascii) : bool := bool_decide (json !! pos = Some c).

(** The parts of a number, in the order [parseNumber] skips them. *)
Definition skipSign (json : str) (pos : nat) : nat :=
  if at_char json pos "-"%char then S pos else pos.

Definition skipFraction (json : str) (pos : nat) : nat :=
  if at_char json pos "."%char then skipDigits json (S pos) else pos.

Definition skipExponent (json : str) (pos : nat) : nat :=
  if at_char json pos "e"%char || at_char json pos "E"%char
  then
    let pos := S pos in
    let pos := if at_char json pos "+"%char || at_char json pos "-"%char then S pos else pos in
    skipDigits json pos
  else pos.

(** The end of the number that starts at [pos]. *)
Definition scanNumber (json : str) (pos : nat) : nat :=
  skipExponent json (skipFraction json (skipDigits json (skipSign json pos))).

Definition parseNumber (json : str) (pos : nat) : outcome (Json.json * nat) :=
  let start := pos in
  let pos := scanNumber json pos in
  match Double.stod (take (pos - start) (drop start json)) with
  | Ok val => Ok (JsonNumber val, pos)
  | Throw _ => error "Invalid number"
  | Undefined => Undefined
  | OutOfFuel => OutOfFuel
  end.

(** [json.compare(pos, n, word) == 0] for a word of [n] characters. *)
Definition compare_at (json : str) (pos : nat) (word : string) : bool :=
  bool_decide (take (length (lit word)) (drop pos json) = lit word).

Definition parseBoolean (json : str) (pos : nat) : outcome (Json.json * nat) :=
  if compare_at json pos "true" then Ok (JsonBoolean true, pos + 4)
  else if compare_at json pos "false" then Ok (JsonBoolean false, pos + 5)
  else error "Invalid boolean".

Definition parseNull (json : str) (pos : nat) : outcome (Json.json * nat) :=
  if compare_at json pos "null" then Ok (JsonNull, pos + 4) else error "Invalid null".

(** [parseValue], [parseObject], [parseArray] and the bodies of their loops. *)
Fixpoint parseValue (fuel : nat) (json : str) (pos : nat) {struct fuel} : outcome (Json.json * nat) :=
  match fuel with
  | O => OutOfFuel
  | S fuel =>
      let pos := skipSpaces json pos in
      match json !! pos with
      | None => error "Unexpected end of JSON"
      | Some c =>
          if decide (c = "{"%char) then
            (* parseObject *)
            let pos := skipSpaces json (S pos) in
            if at_char json pos "}"%char then Ok (JsonObject [], S pos)
            else parseObject_loop fuel json pos []
          else if decide (c = "["%char) then
            (* parseArray *)
            let pos := skipSpaces json (S pos) in
            if at_char json pos "]"%char then Ok (JsonArray [], S pos)
            else parseArray_loop fuel json pos []
          else if decide (c = dquote) then
            '(s, pos) ← parseString json pos; Ok (JsonString s, pos)
          else if decide (c = "t"%char \/ c = "f"%char) then parseBoolean json pos
          else if decide (c = "n"%char) then parseNull json pos
          else if bool_decide (c = "-"%char) || isdigit c then parseNumber json pos
          else Throw (RuntimeError (lit "Invalid JSON value at pos " ++ Double.print_int (Z.of_nat pos)))
      end
  end
with parseObject_loop (fuel : nat) (json : str) (pos : nat) (members : list (str * ptr)) {struct fuel}
    : outcome (Json.json * nat) :=
  match fuel with
  | O => OutOfFuel
  | S fuel =>
      let pos := skipSpaces json pos in
      if negb (at_char json pos dquote) then error "Expected string key in object"
      else
        '(key, pos) ← parseString json pos;
        let pos := skipSpaces json pos in
        if negb (at_char json pos ":"%char) then error "Expected ':' after key"
        else
          let pos := skipSpaces json (S pos) in
          '(val, pos) ← parseValue fuel json pos;
          let members := members ++ [(key, Some val)] in
          let pos := skipSpaces json pos in
          match json !! pos with
          | None => error "Unexpected end in object"
          | Some c =>
              if decide (c = "}"%char) then Ok (JsonObject members, S pos)
              else if decide (c = ","%char) then parseObject_loop fuel json (S pos) members
              else error "Expected ',' or '}' in object"
          end
  end
with parseArray_loop (fuel : nat) (json : str) (pos : nat) (elems : list ptr) {struct fuel}
    : outcome (Json.json * nat) :=
  match fuel with
  | O => OutOfFuel
  | S fuel =>
      let pos := skipSpaces json pos in
      '(v, pos) ← parseValue fuel json pos;
      let elems := elems ++ [Some v] in
      let pos := skipSpaces json pos in
      match json !! pos with
      | None => error "Unexpected end in array"
      | Some c =>
          if decide (c = "]"%char) then Ok (JsonArray elems, S pos)
          else if decide (c = ","%char) then parseArray_loop fuel json (S pos) elems
          else error "Expected ',' or ']' in array"
      end
  end.

(** Two calls per character and one to start. *)
Definition enough_fuel (json : str) : nat := 2 * length json + 2.

Definition parse (json : str) : outcome Json.json :=
  let pos := skipSpaces json 0 in
  '(root, pos) ← parseValue (enough_fuel json) json pos;
  let pos := skipSpaces json pos in
  if decide (pos = length json) then Ok root else error "Extra characters after JSON end".

(** ** Positions *)

Lemma count_while_le p s : count_while p s <= length s.
Proof. induction s as [|c s IH]; cbn; [lia|]. destruct (p c); lia. Qed.

Lemma skipSpaces_bounds json pos : pos <= length json -> pos <= skipSpaces json pos <= length json.
Proof.
  intros. unfold skipSpaces. pose proof (count_while_le skippable (drop pos json)) as H1.
  rewrite length_drop in H1. lia.
Qed.

Lemma skipDigits_bounds json pos : pos <= length json -> pos <= skipDigits json pos <= length json.
Proof.
  intros. unfold skipDigits. pose proof (count_while_le isdigit (drop pos json)) as H1.
  rewrite length_drop in H1. lia.
Qed.

Lemma at_char_lt json pos c : at_char json pos c = true -> pos < length json.
Proof. intros H. apply bool_decide_eq_true in H. by eapply lookup_lt_Some. Qed.

Lemma parseString_loop_bounds : forall rest pos out s p,
  parseString_loop rest pos out = Ok (s, p) -> pos <= p <= pos + length rest.
Proof.
  fix IH 1. intros [|c rest] pos out s p; cbn; [intros [= _ <-]; lia|].
  case_decide; [intros [= _ <-]; lia|]. case_decide.
  - destruct rest as [|esc rest]; [done|]. intros H1. apply IH in H1. cbn. lia.
  - intros H1. apply IH in H1. lia.
Qed.

Lemma parseString_bounds json pos s p :
  pos < length json -> parseString json pos = Ok (s, p) -> pos < p <= length json.
Proof.
  intros Hlt H. apply parseString_loop_bounds in H. rewrite length_drop in H. lia.
Qed.

Lemma scanNumber_bounds json pos c :
  json !! pos = Some c -> c = "-"%char \/ isdigit c = true ->
  pos < scanNumber json pos <= length json.
Proof.
  intros Hc Hd. pose proof (lookup_lt_Some _ _ _ Hc) as Hlt.
  assert (pos < skipDigits json (skipSign json pos) <= length json) as Hp2.
  { unfold skipSign. destruct (at_char json pos "-"%char) eqn:E.
    - pose proof (skipDigits_bounds json (S pos)). lia.
    - pose proof (skipDigits_bounds json pos). split; [|lia]. unfold skipDigits.
      rewrite (drop_S json c) by done. cbn. destruct Hd as [->|Hd].
      { unfold at_char in E. rewrite Hc in E. by rewrite bool_decide_eq_false in E. }
      rewrite Hd. lia. }
  unfold scanNumber. set (p2 := skipDigits json (skipSign json pos)) in *.
  assert (pos < skipFraction json p2 <= length json) as Hp3.
  { unfold skipFraction. destruct (at_char json p2 "."%char) eqn:E; [|lia].
    apply at_char_lt in E. pose proof (skipDigits_bounds json (S p2)). lia. }
  set (p3 := skipFraction json p2) in *. unfold skipExponent.
  destruct (at_char json p3 "e"%char || at_char json p3 "E"%char) eqn:E; [|lia].
  assert (p3 < length json) by (apply orb_true_iff in E as [E|E]; by apply at_char_lt in E).
  destruct (at_char json (S p3) "+"%char || at_char json (S p3) "-"%char) eqn:E2.
  - assert (S p3 < length json) by (apply orb_true_iff in E2 as [E2|E2]; by apply at_char_lt in E2).
    pose proof (skipDigits_bounds json (S (S p3))). lia.
  - pose proof (skipDigits_bounds json (S p3)). lia.
Qed.

Lemma compare_at_bounds json pos w :
  compare_at json pos w = true -> pos <= length json -> pos + length (lit w) <= length json.
Proof.
  intros H%bool_decide_eq_true ?. apply (f_equal length) in H.
  rewrite length_take, length_drop in H. lia.
Qed.

(** Whether a result, if there is one, ends behind [pos] and within the text. *)
Definition advances {A} (json : str) (pos : nat) (m : outcome (A * nat)) : Prop :=
  match m with Ok (_, p) => pos < p <= length json | _ => True end.

Lemma parseNumber_advances json pos c :
  json !! pos = Some c -> bool_decide (c = "-"%char) || isdigit c = true ->
  advances json pos (parseNumber json pos).
Proof.
  intros Hc Hd. unfold parseNumber. destruct (Double.stod _); cbn; try done.
  apply (scanNumber_bounds json pos c); [done|].
  apply orb_true_iff in Hd as [Hd|Hd]; [left; by apply bool_decide_eq_true in Hd|by right].
Qed.

Lemma parseWord_advances json pos :
  pos < length json -> advances json pos (parseBoolean json pos) /\ advances json pos (parseNull json pos).
Proof.
  intros Hlt. unfold parseBoolean, parseNull. split.
  - destruct (compare_at json pos "true") eqn:E1.
    { apply compare_at_bounds in E1; cbn in *; lia. }
    destruct (compare_at json pos "false") eqn:E2; [|done].
    apply compare_at_bounds in E2; cbn in *; lia.
  - destruct (compare_at json pos "null") eqn:E1; [|done].
    apply compare_at_bounds in E1; cbn in *; lia.
Qed.

Lemma advances_weaken {A} json pos pos' (m : outcome (A * nat)) :
  pos' <= pos -> advances json pos m -> advances json pos' m.
Proof. destruct m as [[a p]| | |]; cbn; [lia|done..]. Qed.

(** What follows a result is judged from the position it ends at. *)
Lemma advances_bind {A B} json pos (m : outcome (A * nat)) (k : A * nat -> outcome (B * nat)) :
  advances json pos m ->
  (forall a p, m = Ok (a, p) -> pos < p <= length json -> advances json pos (k (a, p))) ->
  advances json pos (m ≫= k).
Proof. destruct m as [[a p]| | |]; cbn; intros H Hk; [|done..]. by apply Hk. Qed.

Lemma parseString_advances json pos :
  at_char json pos dquote = true -> advances json pos (parseString json pos).
Proof.
  intros H%at_char_lt. destruct (parseString json pos) as [[s p]| | |] eqn:E; cbn; [|done..].
  by eapply parseString_bounds.
Qed.

Lemma parse_advances fuel : forall json pos, pos <= length json ->
  advances json pos (parseValue fuel json pos) /\
  (forall ms, advances json pos (parseObject_loop fuel json pos ms)) /\
  (forall es, advances json pos (parseArray_loop fuel json pos es)).
Proof.
  induction fuel as [|fuel IH]; intros json pos Hpos; [done|].
  pose proof (skipSpaces_bounds json pos Hpos) as Hsk.
  split; [|split]; intros.
  - cbn [parseValue]. destruct (json !! skipSpaces json pos) as [c|] eqn:Hc; [|done].
    pose proof (lookup_lt_Some _ _ _ Hc) as Hlt.
    apply (advances_weaken _ (skipSpaces json pos)); [lia|].
    pose proof (skipSpaces_bounds json (S (skipSpaces json pos))) as Hs2.
    case_decide; [|case_decide; [|case_decide as Hq; [|case_decide; [|case_decide; [|]]]]].
    + destruct (at_char _ _ "}"%char) eqn:E.
      { apply at_char_lt in E. cbn [advances]. lia. }
      eapply advances_weaken; [|apply IH; lia]. lia.
    + destruct (at_char _ _ "]"%char) eqn:E.
      { apply at_char_lt in E. cbn [advances]. lia. }
      eapply advances_weaken; [|apply IH; lia]. lia.
    + apply advances_bind; [|done].
      apply parseString_advances, bool_decide_eq_true. by rewrite Hc, Hq.
    + by apply parseWord_advances.
    + by apply parseWord_advances.
    + destruct (_ || _) eqn:E; [|done]. by eapply parseNumber_advances.
  - cbn [parseObject_loop]. destruct (negb _) eqn:E; [done|]. reflect_bools.
    apply (advances_weaken _ (skipSpaces json pos)); [lia|].
    apply advances_bind; [by apply parseString_advances|]. intros key p1 _ Hp1.
    pose proof (skipSpaces_bounds json p1 ltac:(lia)).
    destruct (negb _) eqn:E2; [done|]. reflect_bools. apply at_char_lt in E2.
    pose proof (skipSpaces_bounds json (S (skipSpaces json p1)) ltac:(lia)).
    apply advances_bind.
    { eapply advances_weaken; [|apply IH; lia]. lia. }
    intros val p2 _ Hp2. pose proof (skipSpaces_bounds json p2 ltac:(lia)).
    destruct (json !! skipSpaces json p2) as [c|] eqn:Hc; [|done].
    apply lookup_lt_Some in Hc. case_decide; [cbn [advances]; lia|]. case_decide; [|done].
    eapply advances_weaken; [|apply IH; lia]. lia.
  - cbn [parseArray_loop].
    apply (advances_weaken _ (skipSpaces json pos)); [lia|].
    apply advances_bind; [apply IH; lia|]. intros val p2 _ Hp2.
    pose proof (skipSpaces_bounds json p2 ltac:(lia)).
    destruct (json !! skipSpaces json p2) as [c|] eqn:Hc; [|done].
    apply lookup_lt_Some in Hc. case_decide; [cbn [advances]; lia|]. case_decide; [|done].
    eapply advances_weaken; [|apply IH; lia]. lia.
Qed.

(** ** Termination *)

(** A call returned or threw an exception of the parser. *)
Definition completes {A} (m : outcome A) : Prop :=
  match m with Ok _ => True | Throw (RuntimeError _) => True | _ => False end.

Lemma completes_bind {A B} (m : outcome A) (k : A -> outcome B) :
  completes m -> (forall a, m = Ok a -> completes (k a)) -> completes (m ≫= k).
Proof. destruct m; cbn; intros Hm Hk; [by apply Hk|done..]. Qed.

Lemma parseString_loop_completes : forall rest pos out, completes (parseString_loop rest pos out).
Proof.
  fix IH 1. intros [|c rest] pos out; cbn; [done|].
  case_decide; [done|]. case_decide; [|apply IH]. destruct rest; [done|apply IH].
Qed.

Lemma stod_completes s : match Double.stod s with Ok _ | Throw _ => True | _ => False end.
Proof.
  assert (forall b s, match Double.stod_unsigned b s with Ok _ | Throw _ => True | _ => False end) as H.
  { clear s. intros b s. unfold Double.stod_unsigned. destruct (Double.span_digits s) as [a s1].
    destruct (match Double.eat _ s1 with Some _ => _ | None => _ end) as [f s2].
    case_decide; [done|]. cbv zeta. destruct (Double.of_decimal _ _ _); try done;
    by destruct (_ && _). }
  unfold Double.stod. destruct (Double.eat _ s); apply H.
Qed.

Lemma parseNumber_completes json pos : completes (parseNumber json pos).
Proof.
  unfold parseNumber. pose proof (stod_completes (take (scanNumber json pos - pos) (drop pos json))).
  by destruct (Double.stod _).
Qed.

Lemma parseWord_completes json pos : completes (parseBoolean json pos) /\ completes (parseNull json pos).
Proof. unfold parseBoolean, parseNull. split; repeat case_split_goal; done. Qed.

(** A value needs two units of fuel per remaining character and one more; a
    loop, which may start with a value at its own position, one more. *)
Lemma parse_completes fuel : forall json pos, pos <= length json ->
  (2 * (length json - pos) + 1 <= fuel -> completes (parseValue fuel json pos)) /\
  (2 * (length json - pos) + 2 <= fuel ->
     (forall ms, completes (parseObject_loop fuel json pos ms)) /\
     (forall es, completes (parseArray_loop fuel json pos es))).
Proof.
  induction fuel as [|fuel IH]; intros json pos Hpos; [lia|].
  pose proof (skipSpaces_bounds json pos Hpos) as Hsk.
  split; [|split]; intros.
  - cbn [parseValue]. destruct (json !! skipSpaces json pos) as [c|] eqn:Hc; [|done].
    pose proof (lookup_lt_Some _ _ _ Hc) as Hlt.
    pose proof (skipSpaces_bounds json (S (skipSpaces json pos))) as Hs2.
    case_decide; [|case_decide; [|case_decide as Hq; [|case_decide; [|case_decide; [|]]]]].
    + destruct (at_char _ _ "}"%char); [done|]. apply IH; lia.
    + destruct (at_char _ _ "]"%char); [done|]. apply IH; lia.
    + apply completes_bind; [apply parseString_loop_completes|]. by intros [s p].
    + apply parseWord_completes.
    + apply parseWord_completes.
    + destruct (_ || _); [apply parseNumber_completes|done].
  - cbn [parseObject_loop]. destruct (negb _) eqn:E; [done|]. reflect_bools.
    apply completes_bind; [apply parseString_loop_completes|]. intros [key p1] Hp1.
    apply parseString_bounds in Hp1; [|by eapply at_char_lt].
    pose proof (skipSpaces_bounds json p1 ltac:(lia)).
    destruct (negb _) eqn:E2; [done|]. reflect_bools. apply at_char_lt in E2.
    pose proof (skipSpaces_bounds json (S (skipSpaces json p1)) ltac:(lia)).
    apply completes_bind; [apply IH; lia|]. intros [val p2] Hp2.
    destruct (parse_advances fuel json (skipSpaces json (S (skipSpaces json p1)))) as [Ha _]; [lia|].
    rewrite Hp2 in Ha. cbn [advances] in Ha. pose proof (skipSpaces_bounds json p2 ltac:(lia)).
    destruct (json !! skipSpaces json p2) as [c|] eqn:Hc; [|done].
    apply lookup_lt_Some in Hc. case_decide; [done|]. case_decide; [|done]. apply IH; lia.
  - cbn [parseArray_loop].
    apply completes_bind; [apply IH; lia|]. intros [val p2] Hp2.
    destruct (parse_advances fuel json (skipSpaces json pos)) as [Ha _]; [lia|].
    rewrite Hp2 in Ha. cbn [advances] in Ha. pose proof (skipSpaces_bounds json p2 ltac:(lia)).
    destruct (json !! skipSpaces json p2) as [c|] eqn:Hc; [|done].
    apply lookup_lt_Some in Hc. case_decide; [done|]. case_decide; [|done]. apply IH; lia.
Qed.

(** [parse] returns a value or throws a [std::runtime_error]. *)
Lemma scan_completes json : completes (parse json).
Proof.
  unfold parse. pose proof (skipSpaces_bounds json 0 ltac:(lia)).
  apply completes_bind; [apply parse_completes; unfold enough_fuel; lia|].
  intros [root p] _. by case_decide.
Qed.

End JsonScan.
