(* ===== verification/JsonParser.v ===== *)
(** * protocol/Json.hpp: the parser

    [JsonParser] is a recursive-descent parser over a string and a position.  The
    definitions follow the static methods of the class access by access: [json[pos]] is
    a checked read, which is undefined behind the terminating null character, and the
    tests [pos < json.size()] are those of the code.  Loops and the mutual recursion of
    [parseValue], [parseObject] and [parseArray] have fuel, and [parse] supplies enough
    of it for every input.

    The theorems: every function computes what JsonScan.v says of the text; and parsing
    ends on every input without reading out of range. *)

From S2P Require Import Prelude Double Json JsonScan.
Import Json.

Module JsonParser.

Definition error {A} (msg : string) : outcome A := Throw (RuntimeError (lit msg)).

(** [json[pos]]: at the end of the string there is a null character, and behind that
    nothing. *)
Definition char_at (json : str) (pos : nat) : outcome ascii :=
  match json !! pos with
  | Some c => Ok c
  | None => if (pos =? length json)%nat then Ok "000"%char else Undefined
  end.

(** [while (pos < json.size() && p(json[pos])) ++pos;] *)
Fixpoint skip_while (p : ascii -> bool) (fuel : nat) (json : str) (pos : nat) : outcome nat :=
  match fuel with
  | O => OutOfFuel
  | S fuel =>
      if pos <? length json then
        c ← char_at json pos;
        if p c then skip_while p fuel json (S pos) else Ok pos
      else Ok pos
  end.

Definition skipSpaces (json : str) (pos : nat) : outcome nat :=
  skip_while (fun c => negb (bool_decide (c = "000"%char)) && isspace c) (S (length json)) json pos.

(** The loops over digits in [parseNumber]. *)
Definition skipDigits (json : str) (pos : nat) : outcome nat := skip_while isdigit (S (length json)) json pos.

(** The character an escape sequence stands for. *)
Definition unescape (esc : ascii) : ascii :=
  if decide (esc = dquote) then dquote
  else if decide (esc = backslash) then backslash
  else if decide (esc = "/"%char) then "/"%char
  else if decide (esc = "b"%char) then backspace
  else if decide (esc = "f"%char) then formfeed
  else if decide (esc = "n"%char) then newline
  else if decide (esc = "r"%char) then creturn
  else if decide (esc = "t"%char) then tab
  else esc.

(** The loop of [parseString]. *)
Fixpoint parseString_loop (fuel : nat) (json : str) (pos : nat) (out : str) : outcome (str * nat) :=
  match fuel with
  | O => OutOfFuel
  | S fuel =>
      if pos <? length json then
        c ← char_at json pos;
        let pos := S pos in
        if decide (c = dquote) then Ok (out, pos)
        else if decide (c = backslash) then
          if length json <=? pos then error "Bad escape in string"
          else
            esc ← char_at json pos;
            parseString_loop fuel json (S pos) (out ++ [unescape esc])
        else parseString_loop fuel json pos (out ++ [c])
      else Ok (out, pos)
  end.

Definition parseString (json : str) (pos : nat) : outcome (str * nat) :=
  parseString_loop (S (length json)) json (S pos) [].

(** The parts of a number, in the order [parseNumber] skips them; the sign is read
    without a test. *)
Definition skipSign (json : str) (pos : nat) : outcome nat :=
  c ← char_at json pos; Ok (if decide (c = "-"%char) then S pos else pos).

Definition skipFraction (json : str) (pos : nat) : outcome nat :=
  if pos <? length json then
    c ← char_at json pos;
    if decide (c = "."%char) then skipDigits json (S pos) else Ok pos
  else Ok pos.

Definition skipExponentSign (json : str) (pos : nat) : outcome nat :=
  if pos <? length json then
    c ← char_at json pos;
    Ok (if decide (c = "+"%char \/ c = "-"%char) then S pos else pos)
  else Ok pos.

Definition skipExponent (json : str) (pos : nat) : outcome nat :=
  if pos <? length json then
    c ← char_at json pos;
    if decide (c = "e"%char \/ c = "E"%char) then
      pos ← skipExponentSign json (S pos);
      skipDigits json pos
    else Ok pos
  else Ok pos.

(** The end of the number that starts at [pos]. *)
Definition scanNumber (json : str) (pos : nat) : outcome nat :=
  pos ← skipSign json pos;
  pos ← skipDigits json pos;
  pos ← skipFraction json pos;
  skipExponent json pos.

(** [json.substr(pos, n)] *)
Definition substr (json : str) (pos n : nat) : outcome str :=
  if length json <? pos then Throw OutOfRange else Ok (take n (drop pos json)).

(** [parseNumber]; whatever [substr] and [stod] throw is replaced. *)
Definition parseNumber (json : str) (pos : nat) : outcome (Json.json * nat) :=
  let start := pos in
  pos ← scanNumber json pos;
  match text ← substr json start (pos - start); Double.stod text with
  | Ok val => Ok (JsonNumber val, pos)
  | Throw _ => error "Invalid number"
  | Undefined => Undefined
  | OutOfFuel => OutOfFuel
  end.

(** [json.compare(pos, n, word) == 0] for a word of [n] characters. *)
Definition compare_at (json : str) (pos : nat) (word : string) : outcome bool :=
  text ← substr json pos (length (lit word)); Ok (bool_decide (text = lit word)).

Definition parseBoolean (json : str) (pos : nat) : outcome (Json.json * nat) :=
  is_true ← compare_at json pos "true";
  if (is_true : bool) then Ok (JsonBoolean true, pos + 4)
  else
    is_false ← compare_at json pos "false";
    if (is_false : bool) then Ok (JsonBoolean false, pos + 5) else error "Invalid boolean".

Definition parseNull (json : str) (pos : nat) : outcome (Json.json * nat) :=
  is_null ← compare_at json pos "null";
  if (is_null : bool) then Ok (JsonNull, pos + 4) else error "Invalid null".

(** [pos < json.size() && json[pos] == c], or the negation of
    [pos >= json.size() || json[pos] != c]. *)
Definition next_is (json : str) (pos : nat) (c : ascii) : outcome bool :=
  if pos <? length json then x ← char_at json pos; Ok (bool_decide (x = c)) else Ok false.

(** [parseValue], [parseObject], [parseArray] and the bodies of their loops. *)
Fixpoint parseValue (fuel : nat) (json : str) (pos : nat) {struct fuel} : outcome (Json.json * nat) :=
  match fuel with
  | O => OutOfFuel
  | S fuel =>
      pos ← skipSpaces json pos;
      if length json <=? pos then error "Unexpected end of JSON"
      else
        c ← char_at json pos;
        if decide (c = "{"%char) then
          (* parseObject *)
          pos ← skipSpaces json (S pos);
          closed ← next_is json pos "}"%char;
          if (closed : bool) then Ok (JsonObject [], S pos) else parseObject_loop fuel json pos []
        else if decide (c = "["%char) then
          (* parseArray *)
          pos ← skipSpaces json (S pos);
          closed ← next_is json pos "]"%char;
          if (closed : bool) then Ok (JsonArray [], S pos) else parseArray_loop fuel json pos []
        else if decide (c = dquote) then
          '(s, pos) ← parseString json pos; Ok (JsonString s, pos)
        else if decide (c = "t"%char \/ c = "f"%char) then parseBoolean json pos
        else if decide (c = "n"%char) then parseNull json pos
        else if bool_decide (c = "-"%char) || isdigit c then parseNumber json pos
        else Throw (RuntimeError (lit "Invalid JSON value at pos " ++ Double.print_int (Z.of_nat pos)))
  end
with parseObject_loop (fuel : nat) (json : str) (pos : nat) (members : list (str * ptr)) {struct fuel}
    : outcome (Json.json * nat) :=
  match fuel with
  | O => OutOfFuel
  | S fuel =>
      pos ← skipSpaces json pos;
      quoted ← next_is json pos dquote;
      if negb quoted then error "Expected string key in object"
      else
        '(key, pos) ← parseString json pos;
        pos ← skipSpaces json pos;
        colon ← next_is json pos ":"%char;
        if negb colon then error "Expected ':' after key"
        else
          pos ← skipSpaces json (S pos);
          '(val, pos) ← parseValue fuel json pos;
          let members := members ++ [(key, Some val)] in
          pos ← skipSpaces json pos;
          if length json <=? pos then error "Unexpected end in object"
          else
            c ← char_at json pos;
            if decide (c = "}"%char) then Ok (JsonObject members, S pos)
            else if decide (c = ","%char) then parseObject_loop fuel json (S pos) members
            else error "Expected ',' or '}' in object"
  end
with parseArray_loop (fuel : nat) (json : str) (pos : nat) (elems : list ptr) {struct fuel}
    : outcome (Json.json * nat) :=
  match fuel with
  | O => OutOfFuel
  | S fuel =>
      pos ← skipSpaces json pos;
      '(v, pos) ← parseValue fuel json pos;
      let elems := elems ++ [Some v] in
      pos ← skipSpaces json pos;
      if length json <=? pos then error "Unexpected end in array"
      else
        c ← char_at json pos;
        if decide (c = "]"%char) then Ok (JsonArray elems, S pos)
        else if decide (c = ","%char) then parseArray_loop fuel json (S pos) elems
        else error "Expected ',' or ']' in array"
  end.

(** Two calls per character and one to start. *)
Definition enough_fuel (json : str) : nat := 2 * length json + 2.

Definition parse (json : str) : outcome Json.json :=
  pos ← skipSpaces json 0;
  '(root, pos) ← parseValue (enough_fuel json) json pos;
  pos ← skipSpaces json pos;
  if decide (pos = length json) then Ok root else error "Extra characters after JSON end".

(** ** The parser reads what is there *)

(** A read behind a test is a lookup. *)
Lemma guarded_read {A} json pos (k : ascii -> outcome A) (d : outcome A) :
  (if pos <? length json then c ← char_at json pos; k c else d) = match json !! pos with Some c => k c | None => d end.
Proof.
  unfold char_at. destruct (Nat.ltb_spec pos (length json)) as [Hlt|Hge].
  - destruct (lookup_lt_is_Some_2 json pos Hlt) as [c Hc]. by rewrite Hc.
  - by rewrite (lookup_ge_None_2 json pos Hge).
Qed.

Lemma refused_read {A} json pos (k : ascii -> outcome A) (d : outcome A) :
  (if length json <=? pos then d else c ← char_at json pos; k c) = match json !! pos with Some c => k c | None => d end.
Proof.
  rewrite <- guarded_read. destruct (Nat.leb_spec (length json) pos), (Nat.ltb_spec pos (length json)); done || lia.
Qed.

Lemma skip_while_scan p fuel : forall json pos,
  length json - pos < fuel -> skip_while p fuel json pos = Ok (pos + JsonScan.count_while p (drop pos json)).
Proof.
  induction fuel as [|fuel IH]; intros json pos Hf; [lia|]. cbn [skip_while]. rewrite guarded_read.
  destruct (json !! pos) as [c|] eqn:Hc.
  - pose proof (lookup_lt_Some _ _ _ Hc). rewrite (drop_S json c pos Hc). cbn [JsonScan.count_while].
    destruct (p c); [|by rewrite Nat.add_0_r]. rewrite IH by lia. f_equal. lia.
  - rewrite drop_ge by (by apply lookup_ge_None). cbn. by rewrite Nat.add_0_r.
Qed.

Lemma skipSpaces_scan json pos : skipSpaces json pos = Ok (JsonScan.skipSpaces json pos).
Proof. apply skip_while_scan. lia. Qed.

Lemma skipDigits_scan json pos : skipDigits json pos = Ok (JsonScan.skipDigits json pos).
Proof. apply skip_while_scan. lia. Qed.

Lemma unescape_scan c : unescape c = JsonScan.unescape c.
Proof. unfold unescape, JsonScan.unescape. repeat case_decide; subst; done. Qed.

Lemma parseString_loop_scan fuel : forall json pos out,
  length json - pos < fuel -> parseString_loop fuel json pos out = JsonScan.parseString_loop (drop pos json) pos out.
Proof.
  induction fuel as [|fuel IH]; intros json pos out Hf; [lia|]. cbn [parseString_loop]. rewrite guarded_read.
  destruct (json !! pos) as [c|] eqn:Hc; [|by rewrite drop_ge by (by apply lookup_ge_None)].
  pose proof (lookup_lt_Some _ _ _ Hc). rewrite (drop_S json c pos Hc). cbn [JsonScan.parseString_loop].
  case_decide; [done|]. case_decide; [|apply IH; lia]. rewrite refused_read.
  destruct (json !! S pos) as [esc|] eqn:He; [|by rewrite drop_ge by (by apply lookup_ge_None)].
  rewrite (drop_S json esc (S pos) He), IH, unescape_scan by lia. done.
Qed.

Lemma parseString_scan json pos : parseString json pos = JsonScan.parseString json pos.
Proof. apply parseString_loop_scan. lia. Qed.

Lemma next_is_scan json pos c : next_is json pos c = Ok (JsonScan.at_char json pos c).
Proof.
  unfold next_is, JsonScan.at_char. rewrite guarded_read. destruct (json !! pos) as [x|]; [|done].
  f_equal. apply bool_decide_ext. split; [by intros ->|by intros [= ->]].
Qed.

Lemma decide_or_scan json pos x c d (A : Type) (a b : A) :
  json !! pos = Some x ->
  (if decide (x = c \/ x = d) then a else b) = if JsonScan.at_char json pos c || JsonScan.at_char json pos d then a else b.
Proof.
  intros Hx. unfold JsonScan.at_char. rewrite Hx.
  destruct (decide (x = c \/ x = d)) as [H|H]; repeat case_bool_decide; naive_solver.
Qed.

Lemma skipFraction_scan json pos : skipFraction json pos = Ok (JsonScan.skipFraction json pos).
Proof.
  unfold skipFraction, JsonScan.skipFraction, JsonScan.at_char. rewrite guarded_read. destruct (json !! pos) as [c|]; [|done].
  rewrite skipDigits_scan. case_decide as H; [by rewrite H, bool_decide_eq_true_2|].
  rewrite bool_decide_eq_false_2; [done|congruence].
Qed.

Lemma skipExponent_scan json pos : skipExponent json pos = Ok (JsonScan.skipExponent json pos).
Proof.
  unfold skipExponent, JsonScan.skipExponent. rewrite guarded_read. destruct (json !! pos) as [c|] eqn:Hc.
  - rewrite (decide_or_scan json pos c _ _ _ _ _ Hc). destruct (_ || _); [|done]. unfold skipExponentSign. rewrite guarded_read.
    destruct (json !! S pos) as [d|] eqn:Hd.
    + run_binds. rewrite (decide_or_scan json (S pos) d _ _ _ _ _ Hd). destruct (_ || _); apply skipDigits_scan.
    + run_binds. unfold JsonScan.at_char. rewrite Hd. apply skipDigits_scan.
  - unfold JsonScan.at_char. by rewrite Hc.
Qed.

Lemma parseNumber_scan json pos : pos < length json -> parseNumber json pos = JsonScan.parseNumber json pos.
Proof.
  intros Hlt. assert (scanNumber json pos = Ok (JsonScan.scanNumber json pos)) as Hs.
  { unfold scanNumber, skipSign, JsonScan.scanNumber, JsonScan.skipSign, JsonScan.at_char, char_at.
    destruct (lookup_lt_is_Some_2 json pos Hlt) as [c Hc]. rewrite Hc. run_binds.
    replace (if decide (c = "-"%char) then S pos else pos)
      with (if bool_decide (Some c = Some "-"%char) then S pos else pos)
      by (case_decide as H; [by rewrite H, bool_decide_eq_true_2|rewrite bool_decide_eq_false_2; congruence]).
    rewrite skipDigits_scan. run_binds. rewrite skipFraction_scan. run_binds. apply skipExponent_scan. }
  unfold parseNumber, JsonScan.parseNumber, substr. rewrite Hs. run_binds.
  by rewrite (proj2 (Nat.ltb_ge _ _)) by lia.
Qed.

Lemma compare_at_scan json pos w : pos <= length json -> compare_at json pos w = Ok (JsonScan.compare_at json pos w).
Proof. intros H. unfold compare_at, substr. by rewrite (proj2 (Nat.ltb_ge _ _)) by lia. Qed.

Lemma parseWord_scan json pos : pos < length json ->
  parseBoolean json pos = JsonScan.parseBoolean json pos /\ parseNull json pos = JsonScan.parseNull json pos.
Proof.
  intros H. unfold parseBoolean, parseNull. rewrite !compare_at_scan by lia. run_binds.
  unfold JsonScan.parseBoolean, JsonScan.parseNull. split; repeat case_match; done.
Qed.

(** What follows a result that is the same is the same. *)
Lemma bind_scan {A B} (m m' : outcome A) (k k' : A -> outcome B) :
  m = m' -> (forall a, m' = Ok a -> k a = k' a) -> m ≫= k = m' ≫= k'.
Proof. intros -> Hk. destruct m'; [by apply Hk|done..]. Qed.

Lemma parse_scan_fuel fuel : forall json pos,
  parseValue fuel json pos = JsonScan.parseValue fuel json pos /\
  (forall ms, parseObject_loop fuel json pos ms = JsonScan.parseObject_loop fuel json pos ms) /\
  (forall es, parseArray_loop fuel json pos es = JsonScan.parseArray_loop fuel json pos es).
Proof.
  induction fuel as [|fuel IH]; intros json pos; [done|].
  split_and!; intros; cbn [parseValue parseObject_loop parseArray_loop JsonScan.parseValue JsonScan.parseObject_loop JsonScan.parseArray_loop];
    rewrite skipSpaces_scan; run_binds.
  - rewrite refused_read. destruct (json !! JsonScan.skipSpaces json pos) as [c|] eqn:Hc; [|done].
    pose proof (lookup_lt_Some _ _ _ Hc) as Hlt. destruct (parseWord_scan _ _ Hlt) as [Hb Hn].
    rewrite !skipSpaces_scan. run_binds. rewrite !next_is_scan. run_binds.
    rewrite parseString_scan, Hb, Hn, parseNumber_scan by done.
    repeat case_match; try done; apply IH.
  - rewrite next_is_scan. run_binds. destruct (negb _); [done|]. apply bind_scan; [apply parseString_scan|].
    intros [key p1] _. rewrite skipSpaces_scan. run_binds. rewrite next_is_scan. run_binds. destruct (negb _); [done|].
    rewrite skipSpaces_scan. run_binds. apply bind_scan; [apply IH|]. intros [val p2] _. rewrite skipSpaces_scan. run_binds.
    rewrite refused_read. repeat case_match; try done. apply IH.
  - apply bind_scan; [apply IH|]. intros [val p2] _. rewrite skipSpaces_scan. run_binds.
    rewrite refused_read. repeat case_match; try done. apply IH.
Qed.

(** The parser, with its tests and its reads, is the function of the text in JsonScan.v. *)
Theorem parse_scan json : parse json = JsonScan.parse json.
Proof.
  unfold parse, JsonScan.parse. rewrite skipSpaces_scan. run_binds. apply bind_scan; [apply parse_scan_fuel|].
  intros [root p] _. rewrite skipSpaces_scan. by run_binds.
Qed.

(** C10: the parser terminates on every input: [parse] returns a value or throws
    a [std::runtime_error]; no read of a character is out of range, and it never runs
    out of the fuel of two calls per character. *)
Theorem parse_total json : JsonScan.completes (parse json).
Proof. rewrite parse_scan. apply JsonScan.scan_completes. Qed.

End JsonParser.
