(* ===== verification/JsonGrammar.v ===== *)
(** * protocol/Json.hpp: the language of the parser

    The texts [JsonParser::parse] accepts and the values it gives them, as a
    grammar that does not mention positions, fuel or control flow.  The parser
    is shown to be sound and complete for it: [parse s = Ok v] exactly when
    [text s v]; the work is done for the functions of JsonScan.v.  The printers produce texts of the grammar, which gives the
    round trips of [toString] and [dump]. *)

From S2P Require Import Prelude Double Json JsonScan JsonParser.
Import Json JsonScan.

Module JsonGrammar.

(** ** The grammar *)

Definition blank (w : str) : Prop := Forall (fun c => skippable c = true) w.

(** The characters between the quotes of a string, and the string. *)
Inductive body : str -> str -> Prop :=
| body_nil : body [] []
| body_char c b v : c <> dquote -> c <> backslash -> body b v -> body (c :: b) (c :: v)
| body_escape e b v : body b v -> body (backslash :: e :: b) (unescape e :: v).

Definition digits_text (s : str) : Prop := Forall (fun c => isdigit c = true) s.
Definition fraction_text (s : str) : Prop := s = [] \/ exists f, digits_text f /\ s = "."%char :: f.
Definition exponent_text (s : str) : Prop :=
  s = [] \/
  exists e sg ds, (e = "e"%char \/ e = "E"%char) /\ (sg = [] \/ sg = ["+"%char] \/ sg = ["-"%char]) /\
    digits_text ds /\ s = e :: sg ++ ds.

(** A number: what the scanner recognises and [std::stod] converts.  It is
    laxer than JSON: leading zeros, a missing integer part after the sign and
    empty fractions and exponents are accepted. *)
Definition number (s : str) (d : Double.t) : Prop :=
  exists sg a f x, (sg = [] /\ a <> [] \/ sg = ["-"%char]) /\ digits_text a /\
    fraction_text f /\ exponent_text x /\ s = sg ++ a ++ f ++ x /\ Double.stod s = Ok d.

Inductive value : str -> json -> Prop :=
| value_string b v : body b v -> value (dquote :: b ++ [dquote]) (JsonString v)
| value_number s d : number s d -> value s (JsonNumber d)
| value_true : value (lit "true") (JsonBoolean true)
| value_false : value (lit "false") (JsonBoolean false)
| value_null : value (lit "null") JsonNull
| value_array_empty w : blank w -> value ("["%char :: w ++ lit "]") (JsonArray [])
| value_array s es : elements s es -> value ("["%char :: s ++ lit "]") (JsonArray es)
| value_object_empty w : blank w -> value ("{"%char :: w ++ lit "}") (JsonObject [])
| value_object s ms : members s ms -> value ("{"%char :: s ++ lit "}") (JsonObject ms)
with elements : str -> list ptr -> Prop :=
| elements_one w1 s w2 v : blank w1 -> value s v -> blank w2 -> elements (w1 ++ s ++ w2) [Some v]
| elements_cons w1 s w2 v r es :
    blank w1 -> value s v -> blank w2 -> elements r es ->
    elements (w1 ++ s ++ w2 ++ ","%char :: r) (Some v :: es)
with members : str -> list (str * ptr) -> Prop :=
| members_one w1 b k w2 w3 s w4 v :
    blank w1 -> body b k -> blank w2 -> blank w3 -> value s v -> blank w4 ->
    members (w1 ++ dquote :: b ++ dquote :: w2 ++ ":"%char :: w3 ++ s ++ w4) [(k, Some v)]
| members_cons w1 b k w2 w3 s w4 v r ms :
    blank w1 -> body b k -> blank w2 -> blank w3 -> value s v -> blank w4 -> members r ms ->
    members (w1 ++ dquote :: b ++ dquote :: w2 ++ ":"%char :: w3 ++ s ++ w4 ++ ","%char :: r)
      ((k, Some v) :: ms).

Scheme value_mut := Minimality for value Sort Prop
with elements_mut := Minimality for elements Sort Prop
with members_mut := Minimality for members Sort Prop.
Combined Scheme grammar_mut from value_mut, elements_mut, members_mut.

(** A document: a value between blanks, or a string whose closing quote is
    missing at the end of the input. *)
Definition text (s : str) (v : json) : Prop :=
  (exists w1 t w2, blank w1 /\ value t v /\ blank w2 /\ s = w1 ++ t ++ w2) \/
  (exists w b k, blank w /\ body b k /\ v = JsonString k /\ s = w ++ dquote :: b).

(** ** Reading the text at a position *)

Lemma drop_add {A} (l a r : list A) pos : drop pos l = a ++ r -> drop (pos + length a) l = r.
Proof. intros H. rewrite <- drop_drop, H. apply drop_app_length. Qed.

Lemma drop_cons {A} (l r : list A) c pos : drop pos l = c :: r -> l !! pos = Some c /\ drop (S pos) l = r.
Proof.
  intros H. split.
  - rewrite <- (Nat.add_0_r pos), <- lookup_drop, H. done.
  - replace (S pos) with (pos + length [c]) by (cbn; lia). by apply drop_add.
Qed.

Lemma drop_nil_lookup {A} (l : list A) pos : drop pos l = [] -> l !! pos = None.
Proof. intros H. rewrite <- (Nat.add_0_r pos), <- lookup_drop, H. done. Qed.

Lemma drop_length {A} (l r : list A) pos : drop pos l = r -> length r = length l - pos.
Proof. intros <-. apply length_drop. Qed.

(** [r] does not start with a character that satisfies [p]. *)
Definition stops (p : ascii -> bool) (r : str) : Prop :=
  match r with c :: _ => p c = false | [] => True end.

Lemma count_while_app p a r : Forall (fun c => p c = true) a -> stops p r -> count_while p (a ++ r) = length a.
Proof.
  intros Ha Hr. induction Ha as [|c a Hc _ IH]; cbn.
  - destruct r; [done|]. cbn in Hr |- *. by rewrite Hr.
  - by rewrite Hc, IH.
Qed.

Lemma count_while_split p s : exists a r, s = a ++ r /\ Forall (fun c => p c = true) a /\ stops p r /\
  count_while p s = length a.
Proof.
  induction s as [|c s IH]; [exists [], []; done|]. destruct IH as (a & r & -> & Ha & Hr & Hc).
  cbn. destruct (p c) eqn:Hp.
  - exists (c :: a), r. repeat split; [by constructor|done|cbn; congruence].
  - exists [], (c :: a ++ r). done.
Qed.

Lemma skipSpaces_at json pos w r :
  drop pos json = w ++ r -> blank w -> stops skippable r ->
  skipSpaces json pos = pos + length w /\ drop (skipSpaces json pos) json = r.
Proof.
  intros H Hw Hr. assert (skipSpaces json pos = pos + length w) as ->.
  { unfold skipSpaces. by rewrite H, count_while_app. }
  split; [done|]. by apply drop_add.
Qed.

Lemma skipSpaces_split json pos : exists w r, drop pos json = w ++ r /\ blank w /\ stops skippable r /\
  skipSpaces json pos = pos + length w /\ drop (skipSpaces json pos) json = r.
Proof.
  destruct (count_while_split skippable (drop pos json)) as (w & r & H & Hw & Hr & Hc).
  exists w, r. destruct (skipSpaces_at json pos w r H Hw Hr). done.
Qed.

Lemma skipDigits_at json pos a r :
  drop pos json = a ++ r -> digits_text a -> stops isdigit r ->
  skipDigits json pos = pos + length a /\ drop (skipDigits json pos) json = r.
Proof.
  intros H Hw Hr. assert (skipDigits json pos = pos + length a) as ->.
  { unfold skipDigits. by rewrite H, count_while_app. }
  split; [done|]. by apply drop_add.
Qed.

Lemma skipDigits_split json pos : exists a r, drop pos json = a ++ r /\ digits_text a /\ stops isdigit r /\
  skipDigits json pos = pos + length a /\ drop (skipDigits json pos) json = r.
Proof.
  destruct (count_while_split isdigit (drop pos json)) as (w & r & H & Hw & Hr & Hc).
  exists w, r. destruct (skipDigits_at json pos w r H Hw Hr). done.
Qed.

Lemma at_char_head json pos r c :
  drop pos json = r -> at_char json pos c = bool_decide (head r = Some c).
Proof.
  intros H. unfold at_char. destruct r as [|x r].
  - by rewrite (drop_nil_lookup _ _ H).
  - apply drop_cons in H as [-> _]. done.
Qed.

(** ** Strings *)

Lemma parseString_loop_terminated b v : body b v -> forall rest pos out,
  parseString_loop (b ++ dquote :: rest) pos out = Ok (out ++ v, pos + length b + 1).
Proof.
  induction 1 as [|c b v Hq Hb _ IH|e b v _ IH]; intros rest pos out; cbn.
  - rewrite app_nil_r. do 2 f_equal. lia.
  - rewrite decide_False, decide_False, IH, <- app_assoc by done. do 2 f_equal. lia.
  - rewrite IH, <- app_assoc. do 2 f_equal. lia.
Qed.

Lemma parseString_loop_open b v : body b v -> forall pos out,
  parseString_loop b pos out = Ok (out ++ v, pos + length b).
Proof.
  induction 1 as [|c b v Hq Hb _ IH|e b v _ IH]; intros pos out; cbn.
  - rewrite app_nil_r. do 2 f_equal. lia.
  - rewrite decide_False, decide_False, IH, <- app_assoc by done. do 2 f_equal. lia.
  - rewrite IH, <- app_assoc. do 2 f_equal. lia.
Qed.

Lemma parseString_loop_sound : forall rest pos out s p,
  parseString_loop rest pos out = Ok (s, p) ->
  exists b v, body b v /\ s = out ++ v /\
    ((exists r, rest = b ++ dquote :: r /\ p = pos + length b + 1) \/ (rest = b /\ p = pos + length b)).
Proof.
  fix IH 1. intros [|c rest] pos out s p; cbn.
  - intros [= <- <-]. exists [], []. rewrite app_nil_r. repeat split; [constructor|right; split; [done|cbn; lia]].
  - case_decide as Hq; [|case_decide as Hb].
    + intros [= <- <-]. exists [], []. rewrite app_nil_r. subst.
      repeat split; [constructor|left; exists rest; split; [done|cbn; lia]].
    + destruct rest as [|e rest]; [done|]. intros H. apply IH in H as (b & v & Hbody & -> & Hcase).
      exists (backslash :: e :: b), (unescape e :: v). subst c.
      split; [by constructor|]. split; [by rewrite <- app_assoc|].
      destruct Hcase as [(r & -> & ->)|[-> ->]]; [left; exists r|right]; (split; [done|cbn; lia]).
    + intros H. apply IH in H as (b & v & Hbody & -> & Hcase).
      exists (c :: b), (c :: v). split; [by constructor|]. split; [by rewrite <- app_assoc|].
      destruct Hcase as [(r & -> & ->)|[-> ->]]; [left; exists r|right]; (split; [done|cbn; lia]).
Qed.

Lemma parseString_at json pos b v rest :
  drop pos json = dquote :: b ++ dquote :: rest -> body b v ->
  parseString json pos = Ok (v, pos + length b + 2) /\ drop (pos + length b + 2) json = rest.
Proof.
  intros H Hb. split.
  - unfold parseString. apply drop_cons in H as [_ ->].
    rewrite (parseString_loop_terminated b v Hb). cbn. do 2 f_equal. lia.
  - replace (pos + length b + 2) with (pos + length (dquote :: b ++ [dquote]))
      by (cbn; rewrite length_app; cbn; lia).
    apply drop_add. cbn. by rewrite <- app_assoc.
Qed.

Lemma parseString_sound json pos s p :
  parseString json pos = Ok (s, p) -> at_char json pos dquote = true ->
  exists b, body b s /\
    (drop pos json = dquote :: b ++ dquote :: drop p json /\ p = pos + length b + 2 \/
     drop pos json = dquote :: b /\ p = length json).
Proof.
  intros H Hq. apply bool_decide_eq_true in Hq. pose proof (lookup_lt_Some _ _ _ Hq).
  unfold parseString in H. apply parseString_loop_sound in H as (b & v & Hb & -> & Hcase).
  exists b. split; [done|]. pose proof (drop_S json dquote pos Hq) as Hd.
  destruct Hcase as [(r & Hr & ->)|[Hr ->]]; [left|right].
  - assert (drop pos json = (dquote :: b ++ [dquote]) ++ r) as Ha.
    { rewrite Hd, Hr. cbn. by rewrite <- app_assoc. }
    split; [|lia]. replace (S pos + length b + 1) with (pos + length (dquote :: b ++ [dquote]))
      by (cbn; rewrite length_app; cbn; lia).
    rewrite (drop_add _ _ _ _ Ha), Ha. cbn. by rewrite <- app_assoc.
  - rewrite Hd, Hr. split; [done|]. apply (f_equal length) in Hr. rewrite length_drop in Hr. lia.
Qed.

(** ** Numbers *)

(** The characters that can continue a number. *)
Definition number_char (c : ascii) : bool :=
  isdigit c || existsb (Ascii.eqb c) [".";"e";"E";"+";"-"]%char.

Lemma stops_weaken (p q : ascii -> bool) r :
  (forall c, p c = true -> q c = true) -> stops q r -> stops p r.
Proof.
  destruct r as [|c r]; [done|]. cbn. intros H Hq. destruct (p c) eqn:E; [|done].
  apply H in E. congruence.
Qed.

Lemma stops_head p r c : p c = true -> stops p r -> bool_decide (head r = Some c) = false.
Proof.
  intros Hp Hr. apply bool_decide_eq_false. destruct r as [|x r]; [done|]. cbn in *. congruence.
Qed.

Lemma fraction_text_stops f p : fraction_text f -> p "."%char = false -> forall r, stops p r -> stops p (f ++ r).
Proof. intros [->|(g & _ & ->)] Hp r Hr; done. Qed.

Lemma exponent_text_stops x p : exponent_text x -> p "e"%char = false -> p "E"%char = false ->
  forall r, stops p r -> stops p (x ++ r).
Proof. intros [->|(e & sg & ds & [->| ->] & _ & _ & ->)] Hp HP r Hr; done. Qed.

Lemma digits_stop a p r : digits_text a -> (forall c, isdigit c = true -> p c = false) -> stops p r -> stops p (a ++ r).
Proof. intros Ha Hp Hr. destruct Ha as [|c a Hc Ha]; [done|]. cbn. by apply Hp. Qed.

Lemma skipSign_at json pos sg r :
  drop pos json = sg ++ r -> (sg = ["-"%char] \/ sg = [] /\ head r <> Some "-"%char) ->
  skipSign json pos = pos + length sg /\ drop (skipSign json pos) json = r.
Proof.
  intros H Hsg. assert (skipSign json pos = pos + length sg) as ->.
  { unfold skipSign. rewrite (at_char_head _ _ _ _ H). destruct Hsg as [->|[-> Hr]]; cbn [app head length].
    - rewrite bool_decide_eq_true_2 by done. lia.
    - rewrite bool_decide_eq_false_2 by done. lia. }
  split; [done|]. by apply drop_add.
Qed.

Lemma skipFraction_at json pos f r :
  drop pos json = f ++ r -> fraction_text f -> stops (fun c => isdigit c || bool_decide (c = "."%char)) r ->
  skipFraction json pos = pos + length f /\ drop (skipFraction json pos) json = r.
Proof.
  intros H Hf Hr. assert (skipFraction json pos = pos + length f) as ->.
  { unfold skipFraction. rewrite (at_char_head _ _ _ _ H). destruct Hf as [->|(g & Hg & ->)].
    - cbn [app]. rewrite (stops_head (fun c => isdigit c || bool_decide (c = "."%char))) by done. cbn. lia.
    - cbn [app head]. rewrite bool_decide_eq_true_2 by done. apply drop_cons in H as [_ H].
      destruct (skipDigits_at json (S pos) g r) as [-> _]; [done..| |cbn; lia].
      eapply stops_weaken; [|done]. intros c Hc. cbn beta. by rewrite Hc. }
  split; [done|]. by apply drop_add.
Qed.

Lemma skipExponent_at json pos x r :
  drop pos json = x ++ r -> exponent_text x -> stops number_char r ->
  skipExponent json pos = pos + length x /\ drop (skipExponent json pos) json = r.
Proof.
  intros H Hx Hr. assert (skipExponent json pos = pos + length x) as ->.
  { unfold skipExponent. rewrite !(at_char_head _ _ _ _ H).
    destruct Hx as [->|(e & sg & ds & He & Hsg & Hds & ->)].
    - cbn [app]. rewrite !(stops_head number_char r) by done. cbn. lia.
    - assert (bool_decide (head ((e :: sg ++ ds) ++ r) = Some "e"%char)
        || bool_decide (head ((e :: sg ++ ds) ++ r) = Some "E"%char) = true) as ->
        by (by destruct He as [->| ->]).
      cbn [app] in H. apply drop_cons in H as [_ H]. rewrite <- app_assoc in H. rewrite !(at_char_head _ _ _ _ H).
      assert (stops isdigit r) as Hr' by (eapply stops_weaken; [|done]; intros c Hc; unfold number_char; by rewrite Hc).
      destruct Hsg as [->|Hsg].
      + cbn [app]. set (sign := fun c => bool_decide (c = "+"%char) || bool_decide (c = "-"%char)).
        assert (stops sign (ds ++ r)) as Hst.
        { apply digits_stop; [done| |].
          - intros c Hc. apply orb_false_iff. split; apply bool_decide_eq_false; by intros ->.
          - eapply stops_weaken; [|exact Hr]. intros c Hc. unfold sign in Hc.
            apply orb_true_iff in Hc as [Hc|Hc]; apply bool_decide_eq_true in Hc; by subst. }
        rewrite !(stops_head sign) by done.
        cbn [orb]. destruct (skipDigits_at json (S pos) ds r) as [-> _]; [done..|]. cbn. lia.
      + destruct Hsg as [->| ->]; cbn [app head].
        all: match goal with |- context [if ?b then _ else _] => replace b with true by done end.
        all: apply drop_cons in H as [_ H].
        all: destruct (skipDigits_at json (S (S pos)) ds r) as [-> _]; [done..|]; cbn [length]; lia. }
  split; [done|]. by apply drop_add.
Qed.

(** A text that cannot continue a number, as no delimiter can. *)
Definition ends_number (r : str) : Prop := stops number_char r.

Lemma scanNumber_at json pos sg a f x r :
  drop pos json = (sg ++ a ++ f ++ x) ++ r ->
  (sg = [] /\ a <> [] \/ sg = ["-"%char]) -> digits_text a -> fraction_text f -> exponent_text x ->
  ends_number r ->
  scanNumber json pos = pos + length (sg ++ a ++ f ++ x).
Proof.
  intros H Hsg Ha Hf Hx Hr. rewrite <- !app_assoc in H.
  destruct (skipSign_at json pos sg (a ++ f ++ x ++ r) H) as [E1 H1].
  { destruct Hsg as [[-> Hne]| ->]; [right; split; [done|]|by left].
    destruct Ha as [|c a Hc Ha]; [done|]. cbn. by intros [= ->]. }
  assert (forall p, (forall c, p c = true -> number_char c = true) -> p "e"%char = false ->
    p "E"%char = false -> stops p (x ++ r)) as Hxr.
  { intros p Hp He HE. apply exponent_text_stops; [done..|]. by eapply stops_weaken. }
  assert (forall c, isdigit c = true -> number_char c = true) as Hdig
    by (intros c Hc; unfold number_char; by rewrite Hc).
  destruct (skipDigits_at json _ a (f ++ x ++ r) H1) as [E2 H2]; [done| |].
  { apply fraction_text_stops; [done..|]. by apply Hxr. }
  destruct (skipFraction_at json _ f (x ++ r) H2) as [E3 H3]; [done| |].
  { apply Hxr; [|done..]. intros c Hc. apply orb_true_iff in Hc as [Hc|Hc]; [by apply Hdig|].
    apply bool_decide_eq_true in Hc. by subst. }
  destruct (skipExponent_at json _ x r H3) as [E4 H4]; [done..|].
  unfold scanNumber. rewrite E4, E3, E2, E1, !length_app. lia.
Qed.

Lemma skipExponent_split json pos : exists x r, drop pos json = x ++ r /\ exponent_text x /\
  skipExponent json pos = pos + length x.
Proof.
  unfold skipExponent. destruct (at_char json pos "e"%char || at_char json pos "E"%char) eqn:E.
  - assert (exists e, (e = "e"%char \/ e = "E"%char) /\ json !! pos = Some e) as (e & He & Hl).
    { apply orb_true_iff in E as [E|E]; apply bool_decide_eq_true in E; [exists "e"%char|exists "E"%char]; auto. }
    pose proof (drop_S json e pos Hl) as Hd.
    destruct (at_char json (S pos) "+"%char || at_char json (S pos) "-"%char) eqn:E2.
    + assert (exists c, (c = "+"%char \/ c = "-"%char) /\ json !! S pos = Some c) as (c & Hc & Hl2).
      { apply orb_true_iff in E2 as [E2|E2]; apply bool_decide_eq_true in E2; [exists "+"%char|exists "-"%char]; auto. }
      pose proof (drop_S json c (S pos) Hl2) as Hd2.
      destruct (skipDigits_split json (S (S pos))) as (ds & r & Hds & Hdd & _ & -> & _).
      exists (e :: [c] ++ ds), r. rewrite Hd, Hd2, Hds. split; [done|]. split; [|cbn [length app]; lia].
      right. exists e, [c], ds. repeat split; [done| |done].
      right. destruct Hc as [->| ->]; auto.
    + destruct (skipDigits_split json (S pos)) as (ds & r & Hds & Hdd & _ & -> & _).
      exists (e :: [] ++ ds), r. rewrite Hd, Hds. split; [done|]. split; [|cbn [length app]; lia].
      right. exists e, [], ds. repeat split; [done|by left|done].
  - exists [], (drop pos json). split; [done|]. split; [by left|cbn [length app]; lia].
Qed.

Lemma skipFraction_split json pos : exists f r, drop pos json = f ++ r /\ fraction_text f /\
  skipFraction json pos = pos + length f /\ drop (skipFraction json pos) json = r.
Proof.
  unfold skipFraction. destruct (at_char _ _ _) eqn:E.
  - apply bool_decide_eq_true in E. pose proof (drop_S json _ pos E) as Hd.
    destruct (skipDigits_split json (S pos)) as (ds & r & Hds & Hdd & _ & E2 & H2).
    exists ("."%char :: ds), r. rewrite Hd, Hds, H2. split; [done|].
    split; [right; eauto|]. split; [cbn [length app]; lia|done].
  - exists [], (drop pos json). split; [done|]. split; [by left|]. split; [cbn [length app]; lia|done].
Qed.

Lemma scanNumber_split json pos c :
  json !! pos = Some c -> c = "-"%char \/ isdigit c = true ->
  exists sg a f x r, drop pos json = (sg ++ a ++ f ++ x) ++ r /\
    (sg = [] /\ a <> [] \/ sg = ["-"%char]) /\ digits_text a /\ fraction_text f /\ exponent_text x /\
    scanNumber json pos = pos + length (sg ++ a ++ f ++ x).
Proof.
  intros Hl Hc. pose proof (drop_S json _ pos Hl) as Hd.
  assert (exists sg r1, drop pos json = sg ++ r1 /\ skipSign json pos = pos + length sg /\
    drop (skipSign json pos) json = r1 /\
    (sg = ["-"%char] \/ sg = [] /\ isdigit c = true /\ r1 = c :: drop (S pos) json)) as (sg & r1 & H1 & E1 & D1 & Hsg).
  { unfold skipSign, at_char. rewrite Hl. destruct (bool_decide _) eqn:E.
    - apply bool_decide_eq_true in E as [= ->]. exists ["-"%char], (drop (S pos) json).
      rewrite Hd. repeat split; [cbn [length app]; lia|by left].
    - apply bool_decide_eq_false in E. exists [], (drop pos json). repeat split; [cbn [length app]; lia|].
      right. repeat split; [|done]. destruct Hc as [->|Hc]; [|done]. done. }
  destruct (skipDigits_split json (skipSign json pos)) as (a & r2 & H2 & Ha & Hs2 & E2 & D2).
  destruct (skipFraction_split json (skipDigits json (skipSign json pos))) as (f & r3 & H3 & Hf & E3 & D3).
  destruct (skipExponent_split json (skipFraction json (skipDigits json (skipSign json pos)))) as (x & r4 & H4 & Hx & E4).
  exists sg, a, f, x, r4. split.
  { rewrite <- !app_assoc. congruence. }
  split.
  { destruct Hsg as [->|(-> & Hdig & ->)]; [by right|left]. split; [done|].
    intros ->. rewrite D1 in H2. cbn in H2. subst r2. cbn in Hs2. congruence. }
  split; [done|]. split; [done|]. split; [done|].
  unfold scanNumber. rewrite E4, E3, E2, E1, !length_app. lia.
Qed.

Lemma parseNumber_at json pos s d r :
  drop pos json = s ++ r -> number s d -> ends_number r ->
  parseNumber json pos = Ok (JsonNumber d, pos + length s).
Proof.
  intros H (sg & a & f & x & Hsg & Ha & Hf & Hx & -> & Hd) Hr. unfold parseNumber.
  rewrite (scanNumber_at json pos sg a f x r) by done.
  replace (pos + length (sg ++ a ++ f ++ x) - pos) with (length (sg ++ a ++ f ++ x)) by lia.
  rewrite H, take_app_length, Hd. done.
Qed.

Lemma parseNumber_sound json pos c v p :
  json !! pos = Some c -> c = "-"%char \/ isdigit c = true -> parseNumber json pos = Ok (v, p) ->
  exists s d, number s d /\ v = JsonNumber d /\ drop pos json = s ++ drop p json /\ p = pos + length s.
Proof.
  intros Hl Hc. destruct (scanNumber_split json pos c Hl Hc) as (sg & a & f & x & r & H & Hsg & Ha & Hf & Hx & E).
  unfold parseNumber. rewrite E.
  replace (pos + length (sg ++ a ++ f ++ x) - pos) with (length (sg ++ a ++ f ++ x)) by lia.
  rewrite H, take_app_length. destruct (Double.stod _) as [d| | |] eqn:Hd; try done.
  intros [= <- <-]. exists (sg ++ a ++ f ++ x), d. split; [|split; [done|split; [|done]]].
  - exists sg, a, f, x. done.
  - by rewrite (drop_add _ _ _ _ H).
Qed.

(** ** Completeness: texts of the grammar are parsed *)

Lemma skippable_not_number c : skippable c = true -> number_char c = false.
Proof. destruct c as [[] [] [] [] [] [] [] []]; vm_compute; congruence. Qed.

Lemma isdigit_not_skippable c : isdigit c = true -> skippable c = false.
Proof. destruct c as [[] [] [] [] [] [] [] []]; vm_compute; congruence. Qed.

Lemma blank_ends_number w r : blank w -> ends_number r -> ends_number (w ++ r).
Proof. intros [|c w' Hc _] Hr; [done|]. cbn. by apply skippable_not_number. Qed.

(** A value starts with a character that tells its kind. *)
Lemma number_start s d : number s d ->
  exists c s', s = c :: s' /\ (c = "-"%char \/ isdigit c = true).
Proof.
  intros (sg & a & f & x & [[-> Hne]| ->] & Ha & _ & _ & -> & _); [|by eauto].
  destruct Ha as [|c a Hc Ha]; [done|]. cbn. eauto.
Qed.

Definition closers (c : ascii) : Prop := c = "]"%char \/ c = "}"%char.

Lemma value_start t v : value t v ->
  exists c t', t = c :: t' /\ skippable c = false /\ ~ closers c.
Proof.
  destruct 1 as [b v Hb|s d Hn| | | |w Hw|s es He|w Hw|s ms Hm];
    try (eexists _, _; split; [reflexivity|]; split; [reflexivity|by intros [|]]).
  apply number_start in Hn as (c & s' & -> & Hc). exists c, s'. split; [done|].
  destruct Hc as [->|Hc]; [split; [done|by intros [|]]|].
  split; [by apply isdigit_not_skippable|]. intros [->| ->]; done.
Qed.

Lemma elements_start s es : elements s es ->
  exists w c s', s = w ++ c :: s' /\ blank w /\ skippable c = false /\ c <> "]"%char.
Proof.
  destruct 1 as [w1 s w2 v Hw1 Hv Hw2|w1 s w2 v r es Hw1 Hv Hw2 _];
    apply value_start in Hv as (c & t' & -> & Hc & Hcl);
    (eexists w1, c, _; split; [reflexivity|]; split; [done|]; split; [done|]);
    intros ->; apply Hcl; by left.
Qed.

Lemma members_start s ms : members s ms -> exists w s', s = w ++ dquote :: s' /\ blank w.
Proof. destruct 1; eexists _, _; eauto. Qed.

Lemma skipSpaces_idempotent json pos : skipSpaces json (skipSpaces json pos) = skipSpaces json pos.
Proof.
  destruct (skipSpaces_split json pos) as (w & r & _ & _ & Hr & _ & Hd).
  destruct (skipSpaces_at json (skipSpaces json pos) [] r) as [E _]; [done|constructor|done|].
  rewrite E. cbn [length]. lia.
Qed.

Lemma parseArray_loop_skip fuel json pos es :
  parseArray_loop fuel json (skipSpaces json pos) es = parseArray_loop fuel json pos es.
Proof. destruct fuel as [|fuel]; [done|]. cbn [parseArray_loop]. by rewrite skipSpaces_idempotent. Qed.

Lemma parseObject_loop_skip fuel json pos ms :
  parseObject_loop fuel json (skipSpaces json pos) ms = parseObject_loop fuel json pos ms.
Proof. destruct fuel as [|fuel]; [done|]. cbn [parseObject_loop]. by rewrite skipSpaces_idempotent. Qed.

(** The branch of [parseValue] a first character selects. *)
Lemma parseValue_at fuel json pos w c t :
  drop pos json = w ++ c :: t -> blank w -> skippable c = false ->
  parseValue (S fuel) json pos =
    let pos := pos + length w in
    if decide (c = "{"%char) then
      (if at_char json (skipSpaces json (S pos)) "}"%char
       then Ok (JsonObject [], S (skipSpaces json (S pos)))
       else parseObject_loop fuel json (S pos) [])
    else if decide (c = "["%char) then
      (if at_char json (skipSpaces json (S pos)) "]"%char
       then Ok (JsonArray [], S (skipSpaces json (S pos)))
       else parseArray_loop fuel json (S pos) [])
    else if decide (c = dquote) then
      '(s, pos) ← parseString json pos; Ok (JsonString s, pos)
    else if decide (c = "t"%char \/ c = "f"%char) then parseBoolean json pos
    else if decide (c = "n"%char) then parseNull json pos
    else if bool_decide (c = "-"%char) || isdigit c then parseNumber json pos
    else Throw (RuntimeError (lit "Invalid JSON value at pos " ++ Double.print_int (Z.of_nat pos))).
Proof.
  intros H Hw Hc. cbn [parseValue].
  destruct (skipSpaces_at json pos w (c :: t)) as [E D]; [done..|]. rewrite E in D |- *.
  apply drop_cons in D as [-> _]. cbv zeta. by rewrite parseArray_loop_skip, parseObject_loop_skip.
Qed.

Lemma compare_at_word json pos word r :
  drop pos json = lit word ++ r -> compare_at json pos word = true.
Proof. intros H. apply bool_decide_eq_true. by rewrite H, take_app_length. Qed.

Lemma compare_at_other json pos word r :
  drop pos json = r -> take (length (lit word)) r <> lit word -> compare_at json pos word = false.
Proof. intros <- Hne. by apply bool_decide_eq_false. Qed.

Definition value_parses (t : str) (v : json) : Prop := forall json pos w r fuel,
  drop pos json = w ++ t ++ r -> blank w -> ends_number r -> 2 * (length json - pos) + 1 <= fuel ->
  parseValue fuel json pos = Ok (v, pos + length w + length t).

Definition elements_parse (s : str) (es : list ptr) : Prop := forall json pos r fuel acc,
  drop pos json = s ++ "]"%char :: r -> 2 * (length json - pos) + 2 <= fuel ->
  parseArray_loop fuel json pos acc = Ok (JsonArray (acc ++ es), pos + length s + 1).

Definition members_parse (s : str) (ms : list (str * ptr)) : Prop := forall json pos r fuel acc,
  drop pos json = s ++ "}"%char :: r -> 2 * (length json - pos) + 2 <= fuel ->
  parseObject_loop fuel json pos acc = Ok (JsonObject (acc ++ ms), pos + length s + 1).

(** Takes the first unit of fuel. *)
Ltac take_fuel := match goal with H : _ <= ?f |- _ => destruct f as [|f]; [lia|] end.

Lemma string_parses b v : body b v -> value_parses (dquote :: b ++ [dquote]) (JsonString v).
Proof.
  intros Hb json pos w r fuel H Hw Hr Hf. take_fuel. cbn [app] in H.
  rewrite (parseValue_at _ _ _ _ _ _ H) by done. cbv zeta.
  rewrite decide_False, decide_False, decide_True by done.
  destruct (parseString_at json (pos + length w) b v r) as [-> _]; [|done|].
  { apply drop_add in H. by rewrite H, <- app_assoc. }
  cbn. do 2 f_equal. rewrite length_app. cbn. lia.
Qed.

Lemma number_parses s d : number s d -> value_parses s (JsonNumber d).
Proof.
  intros Hn json pos w r fuel H Hw Hr Hf. take_fuel.
  pose proof (number_start _ _ Hn) as (c & s' & Es & Hc).
  assert (skippable c = false) as Hsk.
  { destruct Hc as [->|Hc]; [done|by apply isdigit_not_skippable]. }
  assert (drop pos json = w ++ c :: s' ++ r) as H' by (by rewrite H, Es).
  rewrite (parseValue_at _ _ _ _ _ _ H') by done. cbv zeta.
  assert (forall x, isdigit x = false -> x <> "-"%char -> c <> x) as Hne.
  { intros x Hx Hm ->. destruct Hc; congruence. }
  rewrite !decide_False by ((by apply Hne) || (intros [E|E]; revert E; by apply Hne)).
  assert (bool_decide (c = "-"%char) || isdigit c = true) as ->.
  { destruct Hc as [->|Hc]; [done|]. rewrite Hc. apply orb_true_r. }
  apply (parseNumber_at _ _ s d r); [by apply drop_add in H|done..].
Qed.

Lemma words_parse :
  value_parses (lit "true") (JsonBoolean true) /\ value_parses (lit "false") (JsonBoolean false) /\
  value_parses (lit "null") JsonNull.
Proof.
  split; [|split]; intros json pos w r fuel H Hw Hr Hf; take_fuel;
    pose proof (drop_add _ _ _ _ H) as Hd; cbn in H;
    rewrite (parseValue_at _ _ _ _ _ _ H) by done; cbv zeta;
    rewrite !decide_False by (done || by intros [|]); rewrite decide_True by auto.
  - unfold parseBoolean. by rewrite (compare_at_word _ _ _ _ Hd).
  - unfold parseBoolean. rewrite (compare_at_other _ _ "true" _ Hd) by done.
    by rewrite (compare_at_word _ _ _ _ Hd).
  - unfold parseNull. by rewrite (compare_at_word _ _ _ _ Hd).
Qed.

Lemma empty_array_parses w : blank w -> value_parses ("["%char :: w ++ lit "]") (JsonArray []).
Proof.
  intros Hw' json pos w0 r fuel H Hw Hr Hf. take_fuel. cbn [app] in H.
  rewrite (parseValue_at _ _ _ _ _ _ H) by done. cbv zeta.
  rewrite decide_False, decide_True by done.
  apply drop_add, drop_cons in H as [_ H]. rewrite <- app_assoc in H.
  destruct (skipSpaces_at _ _ _ _ H Hw') as [E D]; [done|].
  rewrite (at_char_head _ _ _ _ D). cbn [lit app head]. rewrite bool_decide_eq_true_2 by done.
  rewrite E. do 2 f_equal. cbn [length]. rewrite length_app. cbn. lia.
Qed.

Lemma empty_object_parses w : blank w -> value_parses ("{"%char :: w ++ lit "}") (JsonObject []).
Proof.
  intros Hw' json pos w0 r fuel H Hw Hr Hf. take_fuel. cbn [app] in H.
  rewrite (parseValue_at _ _ _ _ _ _ H) by done. cbv zeta. rewrite decide_True by done.
  apply drop_add, drop_cons in H as [_ H]. rewrite <- app_assoc in H.
  destruct (skipSpaces_at _ _ _ _ H Hw') as [E D]; [done|].
  rewrite (at_char_head _ _ _ _ D). cbn [lit app head]. rewrite bool_decide_eq_true_2 by done.
  rewrite E. do 2 f_equal. cbn [length]. rewrite length_app. cbn. lia.
Qed.

Lemma array_parses s es : elements s es -> elements_parse s es -> value_parses ("["%char :: s ++ lit "]") (JsonArray es).
Proof.
  intros He IH json pos w0 r fuel H Hw Hr Hf. take_fuel. cbn [app] in H.
  rewrite (parseValue_at _ _ _ _ _ _ H) by done. cbv zeta.
  rewrite decide_False, decide_True by done.
  pose proof (drop_length _ _ _ H) as Hlen. rewrite length_app in Hlen. cbn [length] in Hlen.
  apply drop_add, drop_cons in H as [_ H]. rewrite <- app_assoc in H. cbn [lit app] in H.
  destruct (elements_start _ _ He) as (w & c & s' & -> & Hwb & Hc & Hne).
  pose proof H as H'. rewrite <- app_assoc in H'.
  destruct (skipSpaces_at _ _ _ _ H' Hwb) as [_ D]; [done|].
  rewrite (at_char_head _ _ _ _ D), bool_decide_eq_false_2 by (cbn; congruence).
  rewrite (IH _ _ r) by (done || lia). cbn [app]. do 2 f_equal.
  cbn [length]. rewrite !length_app. cbn. lia.
Qed.

Lemma object_parses s ms : members s ms -> members_parse s ms -> value_parses ("{"%char :: s ++ lit "}") (JsonObject ms).
Proof.
  intros He IH json pos w0 r fuel H Hw Hr Hf. take_fuel. cbn [app] in H.
  rewrite (parseValue_at _ _ _ _ _ _ H) by done. cbv zeta. rewrite decide_True by done.
  pose proof (drop_length _ _ _ H) as Hlen. rewrite length_app in Hlen. cbn [length] in Hlen.
  apply drop_add, drop_cons in H as [_ H]. rewrite <- app_assoc in H. cbn [lit app] in H.
  destruct (members_start _ _ He) as (w & s' & -> & Hwb).
  pose proof H as H'. rewrite <- app_assoc in H'.
  destruct (skipSpaces_at _ _ _ _ H' Hwb) as [_ D]; [done|].
  rewrite (at_char_head _ _ _ _ D), bool_decide_eq_false_2 by done.
  rewrite (IH _ _ r) by (done || lia). cbn [app]. do 2 f_equal.
  cbn [length]. rewrite !length_app. cbn. lia.
Qed.

(** One round of the array loop: the element at [pos] and what stands behind it. *)
Lemma array_round fuel json pos acc w1 s w2 v c r :
  value s v -> value_parses s v -> blank w1 -> blank w2 -> skippable c = false -> number_char c = false ->
  drop pos json = w1 ++ s ++ w2 ++ c :: r -> 2 * (length json - pos) + 2 <= S fuel ->
  parseArray_loop (S fuel) json pos acc =
    (let elems := acc ++ [Some v] in
     let pos := pos + length (w1 ++ s ++ w2) in
     if decide (c = "]"%char) then Ok (JsonArray elems, S pos)
     else if decide (c = ","%char) then parseArray_loop fuel json (S pos) elems
     else error "Expected ',' or ']' in array") /\
  drop (S (pos + length (w1 ++ s ++ w2))) json = r.
Proof.
  intros Hv Hp Hw1 Hw2 Hc Hn H Hf. split.
  - cbn [parseArray_loop]. destruct (value_start _ _ Hv) as (c' & s' & Es & Hc' & _).
    destruct (skipSpaces_at json pos w1 (s ++ w2 ++ c :: r)) as [E D]; [done..|by rewrite Es|].
    rewrite (Hp json _ [] (w2 ++ c :: r)) by
      (done || constructor || (apply blank_ends_number; done) || lia).
    cbn [mbind outcome_bind length]. rewrite Nat.add_0_r. apply drop_add in D.
    destruct (skipSpaces_at json _ w2 (c :: r) D) as [E2 D2]; [done..|].
    rewrite E2 in *. apply drop_cons in D2 as [-> _]. rewrite E, !length_app.
    replace (pos + length w1 + length s + length w2) with (pos + (length w1 + (length s + length w2))) by lia.
    done.
  - replace (S (pos + length (w1 ++ s ++ w2))) with (pos + length ((w1 ++ s ++ w2) ++ [c]))
      by (rewrite (length_app _ [c]); cbn; lia).
    apply drop_add. rewrite H, <- !app_assoc. done.
Qed.

Lemma members_round fuel json pos acc w1 b k w2 w3 s w4 v c r :
  value s v -> value_parses s v -> body b k -> blank w1 -> blank w2 -> blank w3 -> blank w4 ->
  skippable c = false -> number_char c = false ->
  drop pos json = w1 ++ dquote :: b ++ dquote :: w2 ++ ":"%char :: w3 ++ s ++ w4 ++ c :: r ->
  2 * (length json - pos) + 2 <= S fuel ->
  let n := length (w1 ++ dquote :: b ++ dquote :: w2 ++ ":"%char :: w3 ++ s ++ w4) in
  parseObject_loop (S fuel) json pos acc =
    (let members := acc ++ [(k, Some v)] in
     if decide (c = "}"%char) then Ok (JsonObject members, S (pos + n))
     else if decide (c = ","%char) then parseObject_loop fuel json (S (pos + n)) members
     else error "Expected ',' or '}' in object") /\
  drop (S (pos + n)) json = r.
Proof.
  intros Hv Hp Hb Hw1 Hw2 Hw3 Hw4 Hc Hn H Hf n. split.
  - cbn [parseObject_loop]. destruct (value_start _ _ Hv) as (c' & s' & Es & Hc' & _).
    destruct (skipSpaces_at _ _ _ _ H) as [E1 D1]; [done..|].
    rewrite (at_char_head _ _ _ _ D1). cbn [head]. rewrite bool_decide_eq_true_2 by done. cbn [negb].
    destruct (parseString_at _ _ _ _ _ D1 Hb) as [-> D2]. run_binds.
    destruct (skipSpaces_at _ _ _ _ D2) as [E3 D3]; [done..|].
    rewrite (at_char_head _ _ _ _ D3). cbn [head]. rewrite bool_decide_eq_true_2 by done. cbn [negb].
    apply drop_cons in D3 as [_ D3].
    destruct (skipSpaces_at _ _ _ _ D3) as [E4 D4]; [done|by rewrite Es|].
    rewrite (Hp json _ [] (w4 ++ c :: r)) by
      (done || constructor || (apply blank_ends_number; done) || lia).
    cbn [mbind outcome_bind length]. rewrite Nat.add_0_r. apply drop_add in D4.
    destruct (skipSpaces_at json _ w4 (c :: r) D4) as [E5 D5]; [done..|].
    assert (skipSpaces json (skipSpaces json (S (skipSpaces json (skipSpaces json pos + length b + 2))) + length s)
      = pos + n) as Epos.
    { rewrite E5, E4, E3, E1. unfold n. rewrite !length_app. cbn [length]. rewrite !length_app.
      cbn [length]. rewrite !length_app. cbn [length]. rewrite !length_app. lia. }
    rewrite Epos in *. apply drop_cons in D5 as [-> _]. done.
  - replace (S (pos + n)) with (pos + length ((w1 ++ dquote :: b ++ dquote :: w2 ++ ":"%char :: w3 ++ s ++ w4) ++ [c]))
      by (rewrite (length_app _ [c]); cbn [length]; fold n; lia).
    apply drop_add. rewrite H, <- !app_assoc. cbn. rewrite <- !app_assoc. cbn. rewrite <- !app_assoc. cbn.
    by rewrite <- !app_assoc.
Qed.

Lemma grammar_complete :
  (forall t v, value t v -> value_parses t v) /\
  (forall s es, elements s es -> elements_parse s es) /\
  (forall s ms, members s ms -> members_parse s ms).
Proof.
  apply grammar_mut; [apply string_parses|apply number_parses|apply words_parse..|apply empty_array_parses
    |apply array_parses|apply empty_object_parses|apply object_parses| | | |].
  - intros w1 s w2 v Hw1 Hv Hp Hw2 json pos r fuel acc H Hf. take_fuel. rewrite <- !app_assoc in H.
    destruct (array_round fuel json pos acc w1 s w2 v "]"%char r) as [-> _]; [done..|].
    cbv zeta. rewrite decide_True by done. do 2 f_equal. lia.
  - intros w1 s w2 v r es Hw1 Hv Hp Hw2 _ IH json pos r' fuel acc H Hf. take_fuel.
    rewrite <- !app_assoc in H. cbn [app] in H.
    destruct (array_round fuel json pos acc w1 s w2 v ","%char (r ++ "]"%char :: r')) as [-> D]; [done..|].
    cbv zeta. rewrite decide_False, decide_True by done.
    pose proof (drop_length _ _ _ D) as Hlen. rewrite length_app in Hlen. cbn [length] in Hlen.
    rewrite (IH _ _ r') by (done || lia). rewrite <- app_assoc. do 2 f_equal.
    rewrite !length_app. cbn [length]. lia.
  - intros w1 b k w2 w3 s w4 v Hw1 Hb Hw2 Hw3 Hv Hp Hw4 json pos r fuel acc H Hf. take_fuel.
    destruct (members_round fuel json pos acc w1 b k w2 w3 s w4 v "}"%char r) as [-> _]; [done..| |done|].
    { rewrite H, <- !app_assoc. cbn. rewrite <- !app_assoc. cbn. rewrite <- !app_assoc. cbn.
      by rewrite <- !app_assoc. }
    cbv zeta. rewrite decide_True by done. do 2 f_equal. lia.
  - intros w1 b k w2 w3 s w4 v r ms Hw1 Hb Hw2 Hw3 Hv Hp Hw4 _ IH json pos r' fuel acc H Hf. take_fuel.
    destruct (members_round fuel json pos acc w1 b k w2 w3 s w4 v ","%char (r ++ "}"%char :: r'))
      as [-> D]; [done..| |done|].
    { rewrite H, <- !app_assoc. cbn. rewrite <- !app_assoc. cbn. rewrite <- !app_assoc. cbn.
      by rewrite <- !app_assoc. }
    cbv zeta. rewrite decide_False, decide_True by done.
    pose proof (drop_length _ _ _ D) as Hlen. rewrite length_app in Hlen. cbn [length] in Hlen.
    rewrite (IH _ _ r') by (done || lia). rewrite <- app_assoc. do 2 f_equal.
    rewrite !length_app. cbn [length]. rewrite !length_app. cbn [length]. rewrite !length_app.
    cbn [length]. rewrite !length_app. cbn [length]. lia.
Qed.

(** ** Soundness: what is parsed is a text of the grammar *)

(** What a value parsed between [pos] and [p] says about the text: a value
    after blanks, or an unclosed string up to the end. *)
Definition value_read (json : str) (pos : nat) (v : Json.json) (p : nat) : Prop :=
  (exists w t, blank w /\ value t v /\ drop pos json = w ++ t ++ drop p json) \/
  (exists w b k, blank w /\ body b k /\ v = JsonString k /\ drop pos json = w ++ dquote :: b /\
     p = length json).

Definition elements_read (json : str) (pos : nat) (acc : list ptr) (v : Json.json) (p : nat) : Prop :=
  exists s es, elements s es /\ v = JsonArray (acc ++ es) /\ drop pos json = s ++ "]"%char :: drop p json.

Definition members_read (json : str) (pos : nat) (acc : list (str * ptr)) (v : Json.json) (p : nat) : Prop :=
  exists s ms, members s ms /\ v = JsonObject (acc ++ ms) /\ drop pos json = s ++ "}"%char :: drop p json.

Lemma compare_at_true json pos word :
  compare_at json pos word = true -> drop pos json = lit word ++ drop (pos + length (lit word)) json.
Proof.
  intros H%bool_decide_eq_true.
  rewrite <- (take_drop (length (lit word)) (drop pos json)) at 1. by rewrite H, drop_drop.
Qed.

Lemma parseBoolean_sound json pos v p :
  parseBoolean json pos = Ok (v, p) -> exists t, value t v /\ drop pos json = t ++ drop p json.
Proof.
  unfold parseBoolean. destruct (compare_at json pos "true") eqn:E1; [|destruct (compare_at json pos "false") eqn:E2; [|done]].
  - intros [= <- <-]. exists (lit "true"). split; [constructor|]. by apply compare_at_true in E1.
  - intros [= <- <-]. exists (lit "false"). split; [constructor|]. by apply compare_at_true in E2.
Qed.

Lemma parseNull_sound json pos v p :
  parseNull json pos = Ok (v, p) -> exists t, value t v /\ drop pos json = t ++ drop p json.
Proof.
  unfold parseNull. destruct (compare_at json pos "null") eqn:E1; [|done].
  intros [= <- <-]. exists (lit "null"). split; [constructor|]. by apply compare_at_true in E1.
Qed.

(** [skipSpaces] and the character behind it. *)
Lemma skip_lookup json pos c :
  json !! skipSpaces json pos = Some c ->
  exists w, blank w /\ drop pos json = w ++ c :: drop (S (skipSpaces json pos)) json.
Proof.
  intros H. destruct (skipSpaces_split json pos) as (w & r & Hd & Hw & _ & _ & D).
  exists w. split; [done|]. rewrite (drop_S json c) in D by done. by rewrite Hd, D.
Qed.

Lemma skip_at_char json pos c :
  at_char json (skipSpaces json pos) c = true ->
  exists w, blank w /\ drop pos json = w ++ c :: drop (S (skipSpaces json pos)) json.
Proof. intros H%bool_decide_eq_true. by apply skip_lookup. Qed.

(** After an element or a member: blanks and the character that follows, which
    an unclosed string leaves no room for. *)
Lemma read_then json pos v p c :
  value_read json pos v p -> json !! skipSpaces json p = Some c ->
  exists w1 s w2, blank w1 /\ value s v /\ blank w2 /\
    drop pos json = w1 ++ s ++ w2 ++ c :: drop (S (skipSpaces json p)) json.
Proof.
  intros Hv Hc. apply skip_lookup in Hc as (w2 & Hw2 & D).
  destruct Hv as [(w & t & Hw & Ht & Hd)|(w & b & k & _ & _ & _ & _ & ->)].
  - exists w, t, w2. by rewrite Hd, D.
  - exfalso. rewrite drop_ge in D by done. by destruct w2.
Qed.

Section soundness_steps.
Context (fuel : nat) (json : str).
Hypothesis Hval : forall pos v p, parseValue fuel json pos = Ok (v, p) -> value_read json pos v p.
Hypothesis Harr : forall pos acc v p,
  parseArray_loop fuel json pos acc = Ok (v, p) -> elements_read json pos acc v p.
Hypothesis Hobj : forall pos acc v p,
  parseObject_loop fuel json pos acc = Ok (v, p) -> members_read json pos acc v p.

Lemma parseValue_sound_step pos v p :
  parseValue (S fuel) json pos = Ok (v, p) -> value_read json pos v p.
Proof.
  cbn [parseValue]. destruct (json !! skipSpaces json pos) as [c|] eqn:Hc; [|done].
  pose proof (skip_lookup _ _ _ Hc) as (w & Hw & Hd). set (q := skipSpaces json pos) in *.
  case_decide; [|case_decide; [|case_decide as Hq; [|case_decide; [|case_decide; [|]]]]].
  + subst c. destruct (at_char _ _ "}"%char) eqn:E.
    * intros [= <- <-]. apply skip_at_char in E as (w' & Hw' & D). left.
      exists w, ("{"%char :: w' ++ lit "}"). split; [done|]. split; [by constructor|].
      rewrite Hd, D. cbn. by rewrite <- app_assoc.
    * rewrite parseObject_loop_skip. intros H'. apply Hobj in H' as (s & ms & Hs & -> & D). left.
      exists w, ("{"%char :: s ++ lit "}"). split; [done|]. split; [by constructor|].
      rewrite Hd, D. cbn. by rewrite <- app_assoc.
  + subst c. destruct (at_char _ _ "]"%char) eqn:E.
    * intros [= <- <-]. apply skip_at_char in E as (w' & Hw' & D). left.
      exists w, ("["%char :: w' ++ lit "]"). split; [done|]. split; [by constructor|].
      rewrite Hd, D. cbn. by rewrite <- app_assoc.
    * rewrite parseArray_loop_skip. intros H'. apply Harr in H' as (s & ms & Hs & -> & D). left.
      exists w, ("["%char :: s ++ lit "]"). split; [done|]. split; [by constructor|].
      rewrite Hd, D. cbn. by rewrite <- app_assoc.
  + intros H'. apply bind_ok in H' as ([s p'] & H' & [= <- <-]). subst c.
    apply parseString_sound in H' as (b & Hb & Hcase); [|by apply bool_decide_eq_true].
    rewrite <- (drop_S json dquote q Hc) in Hd.
    destruct Hcase as [[D _]|[D ->]].
    * left. exists w, (dquote :: b ++ [dquote]). split; [done|]. split; [by constructor|].
      rewrite Hd, D. cbn. by rewrite <- app_assoc.
    * right. exists w, b, s. by rewrite Hd, D.
  + intros H'. apply parseBoolean_sound in H' as (t & Ht & D). rewrite <- (drop_S json c q Hc) in Hd.
    left. exists w, t. by rewrite Hd, D.
  + intros H'. apply parseNull_sound in H' as (t & Ht & D). rewrite <- (drop_S json c q Hc) in Hd.
    left. exists w, t. by rewrite Hd, D.
  + destruct (_ || _) eqn:E; [|done]. intros H'. apply orb_true_iff in E as [E|E].
    all: apply (parseNumber_sound _ _ c) in H' as (t & d & Ht & -> & D & _);
      [|done|first [by right|left; by apply bool_decide_eq_true in E]].
    all: rewrite <- (drop_S json c q Hc) in Hd; left; exists w, t; rewrite Hd, D.
    all: split; [done|]; split; [by constructor|done].
Qed.

Lemma parseArray_sound_step pos acc v p :
  parseArray_loop (S fuel) json pos acc = Ok (v, p) -> elements_read json pos acc v p.
Proof.
  intros H. cbn [parseArray_loop] in H. apply bind_ok in H as ([u p1] & Hu & H).
  apply Hval in Hu. destruct (json !! skipSpaces json p1) as [c|] eqn:Hc; [|done].
  destruct (read_then _ _ _ _ _ Hu Hc) as (w1 & s & w2 & Hw1 & Hs & Hw2 & D).
  destruct (skipSpaces_split json pos) as (w & r & Hr & Hw & _ & _ & Dr). rewrite Dr in D. subst r.
  assert (blank (w ++ w1)) as Hww by (by apply Forall_app).
  rewrite app_assoc in Hr.
  case_decide; [|case_decide; [|done]]; subst c.
  + injection H as <- <-. exists ((w ++ w1) ++ s ++ w2), [Some u]. split; [by constructor|].
    split; [done|]. by rewrite Hr, <- !app_assoc.
  + apply Harr in H as (s' & es & Hes & -> & D'). rewrite D' in Hr.
    exists ((w ++ w1) ++ s ++ w2 ++ ","%char :: s'), (Some u :: es). split; [by constructor|].
    split; [by rewrite <- app_assoc|]. rewrite Hr, <- !app_assoc. done.
Qed.

Lemma parseObject_sound_step pos acc v p :
  parseObject_loop (S fuel) json pos acc = Ok (v, p) -> members_read json pos acc v p.
Proof.
  intros H. cbn [parseObject_loop] in H. destruct (negb _) eqn:E; [done|]. reflect_bools.
  pose proof (skip_at_char _ _ _ E) as (w1 & Hw1 & D1).
  apply bind_ok in H as ([key p1] & Hk & H).
  apply parseString_sound in Hk as (b & Hb & Hcase); [|done].
  rewrite <- (drop_S json dquote (skipSpaces json pos)) in D1 by (by apply bool_decide_eq_true in E).
  destruct (negb _) eqn:E2; [done|]. reflect_bools. pose proof (skip_at_char _ _ _ E2) as (w2 & Hw2 & D2).
  destruct Hcase as [[Dk _]|[_ ->]]; [|rewrite drop_ge in D2 by done; by destruct w2].
  apply bind_ok in H as ([u p2] & Hu & H). apply Hval in Hu.
  destruct (json !! skipSpaces json p2) as [c|] eqn:Hc; [|done].
  destruct (read_then _ _ _ _ _ Hu Hc) as (w3 & s & w4 & Hw3 & Hs & Hw4 & D).
  destruct (skipSpaces_split json (S (skipSpaces json p1))) as (w & r & Hr & Hw & _ & _ & Dr).
  rewrite Dr in D. subst r.
  assert (blank (w ++ w3)) as Hww by (by apply Forall_app). rewrite app_assoc in Hr.
  rewrite Dk, D2, Hr in D1. clear Dk D2 Hr Dr E E2 Hc Hu.
  case_decide; [|case_decide; [|done]]; subst c.
  + injection H as <- <-. eexists _, [(key, Some u)].
    split; [exact (members_one w1 b key w2 (w ++ w3) s w4 u Hw1 Hb Hw2 Hww Hs Hw4)|].
    split; [done|]. rewrite D1, <- !app_assoc. cbn. rewrite <- !app_assoc. cbn. rewrite <- !app_assoc.
    cbn. by rewrite <- !app_assoc.
  + apply Hobj in H as (s' & ms & Hms & -> & D'). rewrite D' in D1.
    eexists _, ((key, Some u) :: ms).
    split; [exact (members_cons w1 b key w2 (w ++ w3) s w4 u s' ms Hw1 Hb Hw2 Hww Hs Hw4 Hms)|].
    split; [by rewrite <- app_assoc|]. rewrite D1, <- !app_assoc. cbn. rewrite <- !app_assoc. cbn.
    rewrite <- !app_assoc. cbn. by rewrite <- !app_assoc.
Qed.
End soundness_steps.

Lemma parse_sound fuel json :
  (forall pos v p, parseValue fuel json pos = Ok (v, p) -> value_read json pos v p) /\
  (forall pos acc v p, parseArray_loop fuel json pos acc = Ok (v, p) -> elements_read json pos acc v p) /\
  (forall pos acc v p, parseObject_loop fuel json pos acc = Ok (v, p) -> members_read json pos acc v p).
Proof.
  induction fuel as [|fuel (Hv & Ha & Ho)]; [done|].
  split; [|split]; intros; [eapply parseValue_sound_step|eapply parseArray_sound_step|eapply parseObject_sound_step]; eauto.
Qed.

Lemma stops_blank_end json p :
  skipSpaces json p = length json -> blank (drop p json).
Proof.
  intros H. destruct (skipSpaces_split json p) as (w & r & Hd & Hw & _ & _ & Dr).
  rewrite H, drop_ge in Dr by done. subst r. by rewrite Hd, app_nil_r.
Qed.

Lemma skip_leading json w r :
  json = w ++ r -> blank w -> stops skippable r -> skipSpaces json 0 = length w /\ drop (length w) json = r.
Proof.
  intros Hj Hw Hr. destruct (skipSpaces_at json 0 w r) as [E D]; [by rewrite drop_0|done..|].
  rewrite E in D. done.
Qed.

Lemma scan_text_iff s v : JsonScan.parse s = Ok v <-> text s v.
Proof.
  unfold parse. split.
  - intros H. apply bind_ok in H as ([root p] & Hp & H). case_decide as Hend; [|done].
    injection H as ->. apply parse_sound in Hp. apply stops_blank_end in Hend.
    destruct (skipSpaces_split s 0) as (w0 & r & Hr & Hw0 & _ & _ & Dr). rewrite drop_0 in Hr.
    destruct Hp as [(w & t & Hw & Ht & D)|(w & b & k & Hw & Hb & -> & D & ->)]; rewrite Dr in D; subst r.
    + left. exists (w0 ++ w), t, (drop p s). repeat split; [by apply Forall_app|done|done|].
      by rewrite Hr at 1; rewrite <- app_assoc.
    + right. exists (w0 ++ w), b, k. repeat split; [by apply Forall_app|done|].
      by rewrite Hr, <- app_assoc.
  - intros [(w1 & t & w2 & Hw1 & Ht & Hw2 & Hs)|(w & b & k & Hw & Hb & -> & Hs)].
    + destruct (value_start _ _ Ht) as (c & t' & Et & Hc & _).
      destruct (skip_leading s w1 (t ++ w2)) as [-> D]; [done|done|by rewrite Et|].
      destruct grammar_complete as [Hcomp _].
      rewrite (Hcomp _ _ Ht s (length w1) [] w2);
        [|done|constructor|rewrite <- (app_nil_r w2); by apply blank_ends_number|unfold enough_fuel; lia].
      cbn [mbind outcome_bind length]. rewrite Nat.add_0_r.
      destruct (skipSpaces_at s (length w1 + length t) w2 []) as [-> _]; [|done|done|].
      { rewrite app_nil_r. by apply drop_add. }
      rewrite decide_True; [done|]. rewrite Hs, !length_app. lia.
    + destruct (skip_leading s w (dquote :: b)) as [-> D]; [done..|].
      unfold enough_fuel. rewrite Nat.add_comm. cbn [Nat.add].
      rewrite (parseValue_at _ s (length w) [] dquote b) by (done || constructor).
      cbn [length]. rewrite Nat.add_0_r. cbv zeta. rewrite decide_False, decide_False, decide_True by done.
      unfold parseString. pose proof D as D'. apply drop_cons in D' as [_ D'].
      rewrite D', (parseString_loop_open b k Hb). cbn [mbind outcome_bind app].
      destruct (skipSpaces_at s (S (length w) + length b) [] []) as [-> _]; [|constructor|done|].
      { apply drop_ge. rewrite Hs, length_app. cbn. lia. }
      rewrite decide_True; [done|]. rewrite Hs, length_app. cbn. lia.
Qed.

Lemma parse_text_iff s v : JsonParser.parse s = Ok v <-> text s v.
Proof. rewrite JsonParser.parse_scan. apply scan_text_iff. Qed.

(** ** Properties *)

(** C2: The parser accepts exactly the grammar: [parse] returns [v] on a text
    if and only if the text denotes [v].  The grammar is JSON with the laxer
    numbers and the unclosed final string described above. *)
Theorem parse_accepts_grammar s v : JsonParser.parse s = Ok v <-> text s v.
Proof. apply parse_text_iff. Qed.

(** A string whose closing quote is missing is accepted: any well-escaped
    run of characters after an opening quote parses as a complete string,
    although JSON requires the closing quote. *)
Theorem unclosed_string_accepted b k :
  body b k -> JsonParser.parse (dquote :: b) = Ok (JsonString k).
Proof. intros Hb. apply parse_text_iff. right. exists [], b, k. repeat split; done || constructor. Qed.

Lemma unclosed_string_accepted_witness : JsonParser.parse (dquote :: lit "abc") = Ok (JsonString (lit "abc")).
Proof. apply (unclosed_string_accepted (lit "abc") (lit "abc")). by repeat constructor. Defined.

End JsonGrammar.
