(* ===== verification/JsonRoundTrip.v ===== *)
(** * protocol/Json.hpp: printing and parsing back

    [toString] and [dump] print texts of the parser's grammar, so parsing gives
    the value back: for every value whose object keys need no escaping, whose
    numbers survive the six digits [operator<<] prints, and whose objects hold
    no null pointer.  Null array elements come back as [JsonNull]. *)

From S2P Require Import Prelude Double Json JsonScan JsonParser JsonGrammar.
Import Json JsonScan JsonGrammar.

Module JsonRoundTrip.

#[export] Instance spec_float_eq_dec : EqDecision spec_float.
Proof. solve_decision. Defined.

(** A key that [JsonObject::toString], which does not escape keys, prints as a
    JSON string. *)
Definition plain_key (k : str) : bool :=
  forallb (fun c => negb (bool_decide (c = dquote)) && negb (bool_decide (c = backslash))) k.

(** A number whose printed form converts back to it. *)
Definition prints_exactly (d : Double.t) : bool :=
  match Double.stod (Double.print d) with Ok d' => bool_decide (d' = d) | _ => false end.

Fixpoint printable (j : json) : bool :=
  match j with
  | JsonObject ms =>
      forallb (fun m => plain_key m.1 && match m.2 with Some v => printable v | None => false end) ms
  | JsonArray es => forallb (fun e => match e with Some v => printable v | None => true end) es
  | JsonNumber d => prints_exactly d
  | _ => true
  end.

(** The value without null pointers in arrays. *)
Fixpoint normalize (j : json) : json :=
  match j with
  | JsonObject ms =>
      JsonObject (map (fun m => (m.1, match m.2 with Some v => Some (normalize v) | None => None end)) ms)
  | JsonArray es =>
      JsonArray (map (fun e => match e with Some v => Some (normalize v) | None => Some JsonNull end) es)
  | j => j
  end.

(** The levels of containers in a value. *)
Fixpoint height (j : json) : nat :=
  match j with
  | JsonObject ms =>
      S (foldr (fun m n => Nat.max (match m.2 with Some v => height v | None => 0 end) n) 0 ms)
  | JsonArray es =>
      S (foldr (fun e n => Nat.max (match e with Some v => height v | None => 0 end) n) 0 es)
  | _ => 0
  end.

(** ** Strings, keys and numbers *)

Lemma escape_body v : body (concat (escape_char <$> v)) v.
Proof.
  induction v as [|c v IH]; [constructor|]. rewrite fmap_cons. cbn [concat]. unfold escape_char at 1.
  repeat case_decide; subst; cbn [app];
    [exact (body_escape dquote _ _ IH)|exact (body_escape backslash _ _ IH)|exact (body_escape "n"%char _ _ IH)
    |exact (body_escape "r"%char _ _ IH)|exact (body_escape "t"%char _ _ IH)|by constructor].
Qed.

Lemma string_value v : value (string_toString v) (JsonString v).
Proof. apply value_string, escape_body. Qed.

Lemma plain_body k : plain_key k = true -> body k k.
Proof.
  induction k as [|c k IH]; [constructor|]. cbn. intros H. reflect_bools. constructor; auto.
Qed.

Lemma prints_exactly_number d : prints_exactly d = true -> number (Double.print d) d.
Proof.
  unfold prints_exactly. destruct (Double.stod (Double.print d)) as [d'| | |] eqn:E; try done.
  intros H. apply bool_decide_eq_true in H. subst d'.
  assert (Double.is_number d) as Hnum by (destruct d as [s|[]| |]; done).
  apply Double.print_number_text in Hnum as (sg & a & f & x & Hp & Hne & Ha & Hf & Hx).
  exists (Double.sign_str sg), a, (Double.with_point f), x. repeat split; try done.
  - destruct sg; [by right|by left].
  - unfold Double.with_point. case_decide; [by left|right; eauto].
  - destruct Hx as [->|(c & ds & Hc & Hds & ->)]; [by left|right].
    exists "e"%char, [c], ds. repeat split; [by left| |done]. destruct Hc as [->| ->]; auto.
Qed.

(** ** The compact printer *)

(** A printer that maps every printable value of a list to a text of the
    grammar. *)
Definition prints (print : json -> outcome str) (v : json) : Prop :=
  exists s, print v = Ok s /\ value s (normalize v).

Definition norm_member (m : str * ptr) : str * ptr :=
  (m.1, match m.2 with Some v => Some (normalize v) | None => None end).
Definition norm_element (e : ptr) : ptr :=
  match e with Some v => Some (normalize v) | None => Some JsonNull end.

(** The members of an object are printable by [print]. *)
Definition member_prints (print : json -> outcome str) (m : str * ptr) : Prop :=
  exists v, m.2 = Some v /\ plain_key m.1 = true /\ prints print v.
Definition element_prints (print : json -> outcome str) (e : ptr) : Prop :=
  match e with Some v => prints print v | None => True end.

Lemma element_text print e :
  element_prints print e ->
  exists s v, match e with Some v => print v | None => Ok (lit "null") end = Ok s /\
    value s v /\ norm_element e = Some v.
Proof.
  destruct e as [v|]; cbn.
  - intros (s & Hs & Hv). eauto.
  - intros _. exists (lit "null"), JsonNull. repeat split. constructor.
Qed.

Lemma object_loop_cons print first k v ms result :
  object_loop print first ((k, Some v) :: ms) result =
  (s ← print v;
   object_loop print false ms
     ((if first then result else result ++ lit ",") ++ [dquote] ++ k ++ [dquote] ++ lit ":" ++ s)).
Proof. done. Qed.

Lemma array_loop_cons print first e es result :
  array_loop print first (e :: es) result =
  (s ← match e with Some v => print v | None => Ok (lit "null") end;
   array_loop print false es ((if first then result else result ++ lit ",") ++ s)).
Proof. done. Qed.

Lemma object_loop_text print ms : ms <> [] -> Forall (member_prints print) ms ->
  exists s, members s (norm_member <$> ms) /\ forall first result,
    object_loop print first ms result
    = Ok ((if first then result else result ++ lit ",") ++ s ++ lit "}").
Proof.
  intros Hne Hall. induction Hall as [|[k e] ms (v & He & Hk & t & Ht & Hv) Hms IH]; [done|].
  cbn in He, Hk. subst e. apply plain_body in Hk. destruct ms as [|m ms].
  - eexists. split.
    { exact (members_one [] k k [] [] t [] _ ltac:(constructor) Hk ltac:(constructor) ltac:(constructor) Hv ltac:(constructor)). }
    intros first result. rewrite object_loop_cons, Ht. cbn [mbind outcome_bind object_loop].
    rewrite app_nil_r. f_equal. rewrite <- !app_assoc. cbn. by rewrite <- ?app_assoc.
  - destruct IH as (s & Hs & IH); [done|]. eexists. split.
    { exact (members_cons [] k k [] [] t [] _ s _ ltac:(constructor) Hk ltac:(constructor) ltac:(constructor) Hv ltac:(constructor) Hs). }
    intros first result. rewrite object_loop_cons, Ht. run_binds.
    rewrite IH. f_equal. rewrite <- !app_assoc. cbn. rewrite <- !app_assoc. cbn. by rewrite <- ?app_assoc.
Qed.

Lemma array_loop_text print es : es <> [] -> Forall (element_prints print) es ->
  exists s, elements s (norm_element <$> es) /\ forall first result,
    array_loop print first es result
    = Ok ((if first then result else result ++ lit ",") ++ s ++ lit "]").
Proof.
  intros Hne Hall. induction Hall as [|e es He Hes IH]; [done|].
  destruct (element_text _ _ He) as (t & v & Ht & Hv & Hn). rewrite fmap_cons, Hn. destruct es as [|e' es].
  - eexists. split; [exact (elements_one [] t [] v ltac:(constructor) Hv ltac:(constructor))|].
    intros first result. rewrite array_loop_cons, Ht. cbn [mbind outcome_bind array_loop].
    rewrite app_nil_r. f_equal. by rewrite <- !app_assoc.
  - destruct IH as (s & Hs & IH); [done|]. eexists.
    split; [exact (elements_cons [] t [] v s _ ltac:(constructor) Hv ltac:(constructor) Hs)|].
    intros first result. rewrite array_loop_cons, Ht. run_binds.
    rewrite IH. f_equal. rewrite <- !app_assoc. cbn. by rewrite <- ?app_assoc.
Qed.

(** What [printable] says of the members and the elements. *)
Lemma printable_members print ms :
  forallb (fun m => plain_key m.1 && match m.2 with Some v => printable v | None => false end) ms = true ->
  Forall (fun m : str * ptr => forall v, m.2 = Some v -> printable v = true -> prints print v) ms ->
  Forall (member_prints print) ms.
Proof.
  intros H Hall. rewrite forallb_forall in H. rewrite List.Forall_forall in Hall |- *.
  intros m Hm. specialize (H m Hm). specialize (Hall m Hm). reflect_bools.
  destruct m as [k [v|]]; cbn in *; [|done]. exists v. auto.
Qed.

Lemma printable_elements print es :
  forallb (fun e => match e with Some v => printable v | None => true end) es = true ->
  Forall (fun e : ptr => forall v, e = Some v -> printable v = true -> prints print v) es ->
  Forall (element_prints print) es.
Proof.
  intros H Hall. rewrite forallb_forall in H. rewrite List.Forall_forall in Hall |- *.
  intros e He. specialize (H e He). specialize (Hall e He). destruct e; cbn in *; auto.
Qed.

Lemma toString_prints j : printable j = true -> prints toString j.
Proof.
  induction j as [ms IH|es IH|v|d|b|] using json_induction; intros Hp.
  - cbn in Hp. apply (printable_members toString) in Hp; [|done].
    destruct ms as [|m ms]; [exists (lit "{}"); split; [done|exact (value_object_empty [] ltac:(constructor))]|].
    destruct (object_loop_text toString (m :: ms)) as (s & Hs & Hl); [done..|].
    eexists. split; [exact (Hl true (lit "{"))|]. by apply value_object.
  - cbn in Hp. apply (printable_elements toString) in Hp; [|done].
    destruct es as [|e es]; [exists (lit "[]"); split; [done|exact (value_array_empty [] ltac:(constructor))]|].
    destruct (array_loop_text toString (e :: es)) as (s & Hs & Hl); [done..|].
    eexists. split; [exact (Hl true (lit "["))|]. by apply value_array.
  - eexists. split; [done|]. apply string_value.
  - eexists. split; [done|]. by apply value_number, prints_exactly_number.
  - eexists. split; [done|]. destruct b; constructor.
  - eexists. split; [done|]. constructor.
Qed.

(** ** The indented printer *)

Lemma object_dump_loop_cons print pad inside k v ms res :
  object_dump_loop print pad inside ((k, Some v) :: ms) res =
  (s ← print v;
   let res := res ++ inside ++ [dquote] ++ k ++ [dquote] ++ lit ": " ++ s in
   object_dump_loop print pad inside ms ((match ms with [] => res | _ => res ++ lit "," end) ++ [newline])).
Proof. done. Qed.

Lemma array_dump_loop_cons print pad inside e es res :
  array_dump_loop print pad inside (e :: es) res =
  (s ← match e with Some v => print v | None => Ok (lit "null") end;
   let res := res ++ inside ++ s in
   array_dump_loop print pad inside es ((match es with [] => res | _ => res ++ lit "," end) ++ [newline])).
Proof. done. Qed.

Lemma blank_newline w : blank w -> blank (newline :: w).
Proof. by constructor. Qed.

Lemma object_dump_loop_text print pad inside ms :
  ms <> [] -> blank pad -> blank inside -> Forall (member_prints print) ms ->
  exists s, members (newline :: s) (norm_member <$> ms) /\ forall res,
    object_dump_loop print pad inside ms res = Ok (res ++ s ++ lit "}").
Proof.
  intros Hne Hpad Hin Hall. apply blank_newline in Hpad, Hin.
  assert (blank (lit " ")) as Hsp by (by repeat constructor).
  induction Hall as [|[k e] ms (v & He & Hk & t & Ht & Hv) Hms IH]; [done|].
  cbn in He, Hk. subst e. apply plain_body in Hk. destruct ms as [|m ms].
  - exists (inside ++ dquote :: k ++ dquote :: lit ": " ++ t ++ newline :: pad). split.
    { exact (members_one _ k k [] _ t _ _ Hin Hk ltac:(constructor) Hsp Hv Hpad). }
    intros res. rewrite object_dump_loop_cons, Ht. cbn [mbind outcome_bind object_dump_loop].
    f_equal. rewrite <- !app_assoc. cbn. rewrite <- !app_assoc. cbn. by rewrite <- ?app_assoc.
  - destruct IH as (s & Hs & IH); [done|].
    exists (inside ++ dquote :: k ++ dquote :: lit ": " ++ t ++ lit "," ++ newline :: s). split.
    { exact (members_cons _ k k [] _ t [] _ _ _ Hin Hk ltac:(constructor) Hsp Hv ltac:(constructor) Hs). }
    intros res. rewrite object_dump_loop_cons, Ht. run_binds. cbv zeta.
    rewrite IH. f_equal. rewrite <- !app_assoc. cbn. rewrite <- !app_assoc. cbn. by rewrite <- ?app_assoc.
Qed.

Lemma array_dump_loop_text print pad inside es :
  es <> [] -> blank pad -> blank inside -> Forall (element_prints print) es ->
  exists s, elements (newline :: s) (norm_element <$> es) /\ forall res,
    array_dump_loop print pad inside es res = Ok (res ++ s ++ lit "]").
Proof.
  intros Hne Hpad Hin Hall. apply blank_newline in Hpad, Hin.
  induction Hall as [|e es He Hes IH]; [done|].
  destruct (element_text _ _ He) as (t & v & Ht & Hv & Hn). rewrite fmap_cons, Hn. destruct es as [|e' es].
  - exists (inside ++ t ++ newline :: pad). split; [exact (elements_one _ t _ v Hin Hv Hpad)|].
    intros res. rewrite array_dump_loop_cons, Ht. cbn [mbind outcome_bind array_dump_loop].
    f_equal. rewrite <- !app_assoc. cbn. by rewrite <- ?app_assoc.
  - destruct IH as (s & Hs & IH); [done|]. exists (inside ++ t ++ lit "," ++ newline :: s).
    split; [exact (elements_cons _ t [] v _ _ Hin Hv ltac:(constructor) Hs)|].
    intros res. rewrite array_dump_loop_cons, Ht. run_binds. cbv zeta.
    rewrite IH. f_equal. rewrite <- !app_assoc. cbn. by rewrite <- ?app_assoc.
Qed.

(** The indentation computed at a depth. *)
Lemma indentation_ok n : (0 <= n < 2 ^ 31)%Z -> int_arith n = Ok n /\ exists w, spaces n = Ok w /\ blank w.
Proof.
  intros Hn. split.
  - unfold int_arith. case_split_goal; [done|]. lia.
  - unfold spaces. case_split_goal; reflect_bools; [lia|]. eexists. split; [done|].
    by apply Forall_replicate.
Qed.

(** The depths and widths reached when printing [j] fit an [int]. *)
Definition fits (indent depth : Z) (j : json) : Prop :=
  (0 <= indent /\ 0 <= depth /\ depth + Z.of_nat (height j) < 2 ^ 31 /\
   (depth + Z.of_nat (height j)) * indent < 2 ^ 31)%Z.

Lemma fits_child indent depth j v :
  fits indent depth j -> height v < height j -> fits indent (depth + 1) v.
Proof. unfold fits. intros. repeat split; nia. Qed.

Lemma dump_header indent depth j (k : Z -> str -> str -> outcome str) :
  fits indent depth j -> 0 < height j ->
  exists pad inside, blank pad /\ blank inside /\
    (n ← int_arith (depth * indent); pad ← spaces n; depth1 ← int_arith (depth + 1);
     n1 ← int_arith (depth1 * indent); inside ← spaces n1; k depth1 pad inside) = k (depth + 1)%Z pad inside.
Proof.
  intros (Hi & Hd & Hh & Hm) Hpos.
  destruct (indentation_ok (depth * indent)) as (E1 & pad & E2 & Hpad); [nia|].
  destruct (indentation_ok (depth + 1)) as (E3 & _); [lia|].
  destruct (indentation_ok ((depth + 1) * indent)) as (E4 & inside & E5 & Hin); [nia|].
  exists pad, inside. split; [done|]. split; [done|].
  rewrite E1. run_binds. rewrite E2. run_binds. rewrite E3.
  run_binds. rewrite E4. run_binds. by rewrite E5.
Qed.

Lemma height_member ms m v : In m ms -> m.2 = Some v -> height v < height (JsonObject ms).
Proof.
  intros Hin Hm. cbn [height]. induction ms as [|m' ms IH]; [done|]. cbn [foldr].
  destruct Hin as [->|Hin]; [rewrite Hm; lia|]. specialize (IH Hin). lia.
Qed.

Lemma height_element es e v : In e es -> e = Some v -> height v < height (JsonArray es).
Proof.
  intros Hin ->. cbn [height]. induction es as [|e' es IH]; [done|]. cbn [foldr].
  destruct Hin as [->|Hin]; [lia|]. specialize (IH Hin). lia.
Qed.

Lemma dump_prints j : printable j = true -> forall indent depth,
  fits indent depth j -> prints (dump indent depth) j.
Proof.
  induction j as [ms IH|es IH|v|d|b|] using json_induction; intros Hp indent depth Hfit.
  3-6: by apply toString_prints in Hp.
  - assert (Forall (member_prints (dump indent (depth + 1))) ms) as Hms.
    { apply printable_members; [done|]. rewrite List.Forall_forall in IH |- *.
      intros m Hm v Hv Hpv. eapply IH; [done..|]. eapply fits_child; [done|]. by eapply height_member. }
    destruct (dump_header indent depth (JsonObject ms) (fun d pad inside =>
      object_dump_loop (dump indent d) pad inside ms (lit "{" ++ [newline])))
      as (pad & inside & Hpad & Hin & E); [done|cbn; lia|].
    unfold prints. cbn [dump]. destruct (indent <? 0)%Z eqn:E0; [destruct Hfit; lia|]. rewrite E.
    destruct ms as [|m ms]; [|destruct (object_dump_loop_text (dump indent (depth + 1)) pad inside (m :: ms))
      as (s & Hs & Hl); [done..|]].
    + eexists. split; [done|]. exact (value_object_empty (newline :: pad) (blank_newline _ Hpad)).
    + rewrite Hl. eexists. split; [done|]. exact (value_object (newline :: s) _ Hs).
  - assert (Forall (element_prints (dump indent (depth + 1))) es) as Hes.
    { apply printable_elements; [done|]. rewrite List.Forall_forall in IH |- *.
      intros e He v Hv Hpv. eapply IH; [done..|]. eapply fits_child; [done|]. by eapply height_element. }
    destruct (dump_header indent depth (JsonArray es) (fun d pad inside =>
      array_dump_loop (dump indent d) pad inside es (lit "[" ++ [newline])))
      as (pad & inside & Hpad & Hin & E); [done|cbn; lia|].
    unfold prints. cbn [dump]. destruct (indent <? 0)%Z eqn:E0; [destruct Hfit; lia|]. rewrite E.
    destruct es as [|e es]; [|destruct (array_dump_loop_text (dump indent (depth + 1)) pad inside (e :: es))
      as (s & Hs & Hl); [done..|]].
    + eexists. split; [done|]. exact (value_array_empty (newline :: pad) (blank_newline _ Hpad)).
    + rewrite Hl. eexists. split; [done|]. exact (value_array (newline :: s) _ Hs).
Qed.

Lemma prints_parses print j : prints print j -> exists s, print j = Ok s /\ text s (normalize j).
Proof.
  intros (s & Hs & Hv). exists s. split; [done|]. left. exists [], s, [].
  rewrite app_nil_r. repeat split; done || constructor.
Qed.

(** ** Round trips *)

(** C8: Parsing what [toString] prints gives the value back (null array elements as
    [JsonNull]), for a printable value, that is one whose numbers survive six digits,
    whose keys need no escaping and whose members are not null pointers. *)
Theorem toString_parse j :
  printable j = true -> exists s, toString j = Ok s /\ JsonParser.parse s = Ok (normalize j).
Proof.
  intros H%toString_prints%prints_parses. destruct H as (s & Hs & Ht). exists s. split; [done|].
  by apply parse_text_iff.
Qed.

(** A negative indentation, which is the default, stands for none. *)
Lemma dump_negative j indent depth : (indent < 0)%Z -> dump indent depth j = toString j.
Proof. intros H. destruct j; cbn [dump]; by rewrite ?(proj2 (Z.ltb_lt _ _) H). Qed.

(** C9: Parsing what [dump] prints gives the value back (null array elements as
    [JsonNull]), for a printable value, that is one whose numbers survive six digits,
    whose keys need no escaping and whose members are not null pointers, and every
    indentation that is negative, as the default is, or for which the depth is not
    negative and the depths and column positions fit an [int]. *)
Theorem dump_parse j indent depth :
  printable j = true -> (indent < 0)%Z \/ fits indent depth j ->
  exists s, dump indent depth j = Ok s /\ JsonParser.parse s = Ok (normalize j).
Proof.
  intros Hp [Hi|Hf].
  { rewrite dump_negative by done. destruct (prints_parses _ _ (toString_prints j Hp)) as (s & Hs & Ht). exists s.
    split; [done|]. by apply parse_text_iff. }
  destruct (prints_parses (dump indent depth) j) as (s & Hs & Ht);
    [by apply dump_prints|]. exists s. split; [done|]. by apply parse_text_iff.
Qed.

(** Every integer below one million prints as its decimal digits and reads
    back as the same [double]: such numbers survive a round trip. *)
Theorem integer_prints_exactly n :
  (Z.abs n < 10 ^ 6)%Z ->
  Double.print (Double.of_Z n) = Double.print_int n /\ prints_exactly (Double.of_Z n) = true.
Proof.
  intros Hn. rewrite Double.print_of_Z by done. split; [done|].
  unfold prints_exactly. rewrite Double.print_of_Z, Double.stod_print_int by lia.
  by apply bool_decide_eq_true.
Qed.

(** Object keys are printed without escaping: a member whose key contains
    quotes prints as two members, so different objects have the same text. *)
Theorem key_is_not_escaped k1 k2 v :
  let k := k1 ++ [dquote] ++ lit ":null," ++ [dquote] ++ k2 in
  toString (JsonObject [(k, Some v)]) = toString (JsonObject [(k1, Some JsonNull); (k2, Some v)]).
Proof.
  cbn. destruct (toString v) as [s| | |]; cbn; [|done..]. f_equal.
  rewrite <- !app_assoc. cbn. do 2 f_equal. by rewrite <- !app_assoc.
Qed.

(** Numbers are printed with six significant digits: the [double] 1234567
    prints as [1.23457e+06] and reads back as 1234570. *)
Theorem seventh_digit_is_lost :
  toString (JsonNumber (Double.of_Z 1234567)) = Ok (lit "1.23457e+06") /\
  JsonParser.parse (lit "1.23457e+06") = Ok (JsonNumber (Double.of_Z 1234570)) /\
  Double.of_Z 1234570 <> Double.of_Z 1234567.
Proof. split; [by vm_compute|]. split; [by vm_compute|]. by vm_compute. Qed.

(** A null pointer in an object is dereferenced by [toString], wherever it
    stands among printable members, while arrays of null pointers print. *)
Theorem null_member_undefined ms k ms' es :
  Forall (member_prints toString) ms ->
  toString (JsonObject (ms ++ (k, None) :: ms')) = Undefined /\
  (Forall (fun e => e = None) es -> exists s, toString (JsonArray es) = Ok s).
Proof.
  intros Hms. split.
  2: { intros Hes. destruct (toString_prints (JsonArray es)) as (s & Hs & _); [|eauto].
       cbn. apply forallb_forall. intros e He. rewrite List.Forall_forall in Hes. by rewrite (Hes e He). }
  cbn [toString]. generalize true (lit "{"). induction Hms as [|[k' e] ms (v & He & _ & s & Hs & _) _ IH];
    intros first result; [done|].
  cbn in He. subst e. cbn [app]. rewrite object_loop_cons, Hs. apply IH.
Qed.

(** ** Witnesses *)

Definition sample : json :=
  JsonObject
    [(lit "x", Some (JsonNumber (Double.of_Z 21)));
     (lit "y", Some (JsonArray [Some (JsonBoolean true); None; Some (JsonString [dquote; newline; "z"%char])]));
     (lit "z", Some (JsonObject []))].

Lemma toString_parse_witness :
  exists s, toString sample = Ok s /\ JsonParser.parse s = Ok (normalize sample).
Proof. apply (toString_parse sample). by vm_compute. Defined.

Lemma dump_parse_witness :
  exists s, dump 2 0 sample = Ok s /\ JsonParser.parse s = Ok (normalize sample).
Proof. apply (dump_parse sample 2 0); [|right]; by vm_compute. Defined.

Lemma null_member_undefined_witness :
  toString (JsonObject [(lit "a", Some JsonNull); (lit "b", None)]) = Undefined /\
  (Forall (fun e : ptr => e = None) [None] -> exists s, toString (JsonArray [None]) = Ok s).
Proof.
  apply (null_member_undefined [(lit "a", Some JsonNull)] (lit "b") [] [None]).
  constructor; [|constructor]. exists JsonNull. split; [done|]. split; [done|].
  exists (lit "null"). split; [done|constructor].
Defined.

Lemma integer_prints_exactly_witness :
  Double.print (Double.of_Z (-999999)) = lit "-999999" /\ prints_exactly (Double.of_Z (-999999)) = true.
Proof. apply (integer_prints_exactly (-999999)). lia. Defined.

End JsonRoundTrip.
