(* ===== verification/JsonValue.v ===== *)
(** * protocol/Json.hpp: the proxy [JsonValue]

    A [JsonValue] holds a pointer to a [std::unique_ptr<JsonBase>]: the root
    pointer, or the pointer stored in a member of an object or in an element of
    an array below it.  The model keeps the root pointer as the state and a
    proxy as the path of member positions that leads to its slot; a path that
    leads nowhere is a dangling pointer, and using it is [Undefined].

    The paths describe proxies that are used before a container on the path is
    enlarged or replaced, which is how the code uses them (one expression
    [root[a][b] = x]); a proxy kept across a reallocation of the vector it
    points into is the subject of JsonProxy.v. *)

From S2P Require Import Prelude Double Json JsonParser JsonGrammar JsonRoundTrip.
Import Json.

Module JsonValue.

(** ** Slots *)

Definition path := list nat.

(** The slots directly below a value. *)
Definition child (v : ptr) (i : nat) : option ptr :=
  match v with
  | Some (JsonObject ms) => snd <$> ms !! i
  | Some (JsonArray es) => es !! i
  | _ => None
  end.

Definition set_child (v : ptr) (i : nat) (x : ptr) : ptr :=
  match v with
  | Some (JsonObject ms) => Some (JsonObject (alter (fun m => (m.1, x)) i ms))
  | Some (JsonArray es) => Some (JsonArray (<[i := x]> es))
  | v => v
  end.

Fixpoint load (v : ptr) (p : path) : option ptr :=
  match p with
  | [] => Some v
  | i :: p => c ← child v i; load c p
  end.

Fixpoint store (v : ptr) (p : path) (x : ptr) : ptr :=
  match p with
  | [] => x
  | i :: p => match child v i with
              | Some c => set_child v i (store c p x)
              | None => v
              end
  end.

(** [*ref_ptr_] and [*ref_ptr_ = x] *)
Definition deref (root : ptr) (p : path) : outcome ptr :=
  match load root p with Some v => Ok v | None => Undefined end.
Definition assign (root : ptr) (p : path) (x : ptr) : outcome ptr :=
  _ ← deref root p; Ok (store root p x).

(** ** Construction and assignment *)

(** [JsonValue(&slot)]: an unset slot is set to null. *)
Definition attach (root : ptr) (p : path) : outcome ptr :=
  v ← deref root p;
  match v with None => assign root p (Some JsonNull) | Some _ => Ok root end.

(** [JsonValue()]: a root of its own, an empty object. *)
Definition new : ptr := Some (JsonObject []).

Definition assignString (root : ptr) (p : path) (s : str) : outcome ptr := assign root p (Some (JsonString s)).
Definition assignNumber (root : ptr) (p : path) (d : Double.t) : outcome ptr := assign root p (Some (JsonNumber d)).
Definition assignBool (root : ptr) (p : path) (b : bool) : outcome ptr := assign root p (Some (JsonBoolean b)).
Definition assignNull (root : ptr) (p : path) : outcome ptr := assign root p (Some JsonNull).
Definition assignObject (root : ptr) (p : path) (ms : list (str * ptr)) : outcome ptr :=
  assign root p (Some (JsonObject ms)).
Definition assignArray (root : ptr) (p : path) (es : list ptr) : outcome ptr :=
  assign root p (Some (JsonArray es)).

(** [operator=(std::unique_ptr<JsonBase>)] *)
Definition assignPtr (root : ptr) (p : path) (up : ptr) : outcome ptr :=
  root ← assign root p up;
  match up with None => assign root p (Some JsonNull) | Some _ => Ok root end.

(** The assignment operators, by the type of their operand; an object, array or pointer
    that is moved in is not part of the document. *)
Inductive operand : Type :=
| CString (s : str)        (** [const char*] and [std::string] *)
| AFloating (d : Double.t) (** [double], and [float], whose values are values of [double] *)
| AnInt (i : Z)
| ALong (l : Z)
| ABool (b : bool)
| ANullptr
| AnObject (ms : list (str * ptr))   (** [JsonObject&&] *)
| AnArray (es : list ptr)            (** [JsonArray&&] *)
| AUnique (up : ptr).                (** [std::unique_ptr<JsonBase>] *)

Definition operator_assign (root : ptr) (p : path) (x : operand) : outcome ptr :=
  match x with
  | CString s => assignString root p s
  | AFloating d => assignNumber root p d
  | AnInt i => assignNumber root p (Double.of_Z i)
  | ALong l => assignNumber root p (Double.of_Z l)
  | ABool b => assignBool root p b
  | ANullptr => assignNull root p
  | AnObject ms => assignObject root p ms
  | AnArray es => assignArray root p es
  | AUnique up => assignPtr root p up
  end.

(** ** Reading *)

Definition type (root : ptr) (p : path) : outcome JsonType :=
  v ← deref root p; Ok (match v with None => Null | Some j => getType j end).

Definition asString (root : ptr) (p : path) : outcome str :=
  v ← deref root p;
  match v with None => Throw (RuntimeError (lit "Value is null")) | Some j => Json.asString j end.
Definition asNumber (root : ptr) (p : path) : outcome Double.t :=
  v ← deref root p;
  match v with None => Throw (RuntimeError (lit "Value is null")) | Some j => Json.asNumber j end.
Definition asBool (root : ptr) (p : path) : outcome bool :=
  v ← deref root p;
  match v with None => Throw (RuntimeError (lit "Value is null")) | Some j => Json.asBool j end.

Definition toString (root : ptr) (p : path) : outcome str :=
  v ← deref root p; match v with None => Ok (lit "null") | Some j => Json.toString j end.
Definition dump (root : ptr) (p : path) (indent depth : Z) : outcome str :=
  v ← deref root p; match v with None => Ok (lit "null") | Some j => Json.dump indent depth j end.

(** ** Coercion, subscripts and push *)

(** The value [ensureExistsAs] creates. *)
Definition default_value (t : JsonType) : json :=
  match t with
  | Object => JsonObject []
  | Array => JsonArray []
  | String => JsonString []
  | Number => JsonNumber (Double.of_Z 0)
  | Boolean => JsonBoolean false
  | Null => JsonNull
  end.

Definition ensureExistsAs (root : ptr) (p : path) (t : JsonType) : outcome ptr :=
  v ← deref root p;
  match v with
  | Some j => if decide (getType j = t) then Ok root else assign root p (Some (default_value t))
  | None => assign root p (Some (default_value t))
  end.

(** [operator[](key)] *)
Definition at_key (root : ptr) (p : path) (key : str) : outcome (ptr * path) :=
  root ← ensureExistsAs root p Object;
  v ← deref root p;
  match v with
  | Some (JsonObject ms) =>
      let '(ms, i) := getRefForKeyCreate ms key in
      root ← assign root p (Some (JsonObject ms));
      root ← attach root (p ++ [i]);
      Ok (root, p ++ [i])
  | _ => Undefined
  end.

(** [operator[](idx)] *)
Definition at_index (root : ptr) (p : path) (idx : Z) : outcome (ptr * path) :=
  root ← ensureExistsAs root p Array;
  v ← deref root p;
  match v with
  | Some (JsonArray es) =>
      es ← getElementRefCreate es idx;
      root ← assign root p (Some (JsonArray es));
      root ← attach root (p ++ [Z.to_nat idx]);
      Ok (root, p ++ [Z.to_nat idx])
  | _ => Undefined
  end.

(** [asObject()] and [asArray()]: the document afterwards, and what the returned
    reference refers to. *)
Definition asObject (root : ptr) (p : path) : outcome (ptr * list (str * ptr)) :=
  root ← ensureExistsAs root p Object;
  v ← deref root p;
  match v with Some (JsonObject ms) => Ok (root, ms) | _ => Undefined end.
Definition asArray (root : ptr) (p : path) : outcome (ptr * list ptr) :=
  root ← ensureExistsAs root p Array;
  v ← deref root p;
  match v with Some (JsonArray es) => Ok (root, es) | _ => Undefined end.

Definition ensureArray (root : ptr) (p : path) : outcome ptr :=
  v ← deref root p;
  match v with
  | Some (JsonArray _) => Ok root
  | _ => assign root p (Some (JsonArray []))
  end.

(** The [push] overloads, with the value they build. *)
Definition push (root : ptr) (p : path) (x : ptr) : outcome ptr :=
  root ← ensureArray root p;
  '(root, es) ← asArray root p;
  assign root p (Some (JsonArray (Json.push es x))).

(** A chain of subscripts [root[s1][s2]...]. *)
Inductive subscript : Type := Key (k : str) | Index (i : Z).

Definition at_subscript (root : ptr) (p : path) (s : subscript) : outcome (ptr * path) :=
  match s with Key k => at_key root p k | Index i => at_index root p i end.

Fixpoint navigate (root : ptr) (p : path) (ss : list subscript) : outcome (ptr * path) :=
  match ss with
  | [] => Ok (root, p)
  | s :: ss => '(root, p) ← at_subscript root p s; navigate root p ss
  end.

(** [root[s1][s2]... = x] *)
Definition put (root : ptr) (ss : list subscript) (x : json) : outcome ptr :=
  '(root, p) ← navigate root [] ss; assign root p (Some x).

(** ** main.cpp *)

Definition main_json : str := qlit "{'x':1,'y':[true, false, 'hi']}".

(** The two texts [main] writes to the standard output. *)
Definition main : outcome (str * str) :=
  let root := new in
  root ← put root [Key (lit "name")] (JsonString (lit "Jerry"));
  root ← put root [Key (lit "age")] (JsonNumber (Double.of_Z 21));
  root ← put root [Key (lit "pi")] (JsonNumber (Double.of_decimal false 314159 (-5)));
  root ← put root [Key (lit "alive")] (JsonBoolean true);
  root ← put root [Key (lit "nothing")] JsonNull;
  root ← put root [Key (lit "user"); Key (lit "id")] (JsonNumber (Double.of_Z 123));
  root ← put root [Key (lit "user"); Key (lit "meta"); Key (lit "nick")] (JsonString (lit "ruijie"));
  root ← put root [Key (lit "arr"); Index 0] (JsonString (lit "a"));
  root ← put root [Key (lit "arr"); Index 3] (JsonNumber (Double.of_Z 999));
  out1 ← dump root [] 2 0;
  parsed ← JsonParser.parse main_json;
  p ← attach (Some parsed) [];
  out2 ← dump p [] 2 0;
  Ok (out1 ++ [newline], out2 ++ [newline]).

(** ** Slots: the lens laws *)

Lemma child_set_child v i c x : child v i = Some c -> child (set_child v i x) i = Some x.
Proof.
  destruct v as [[ms|es| | | |]|]; cbn; try done.
  - intros H. rewrite list_lookup_alter_eq. destruct (ms !! i); done.
  - intros H. apply list_lookup_insert_eq. by eapply lookup_lt_Some.
Qed.

Lemma set_child_id v i c : child v i = Some c -> set_child v i c = v.
Proof.
  destruct v as [[ms|es| | | |]|]; cbn; try done; intros H; do 2 f_equal.
  - apply list_eq. intros j. destruct (decide (i = j)) as [<-|Hne].
    + rewrite list_lookup_alter_eq. destruct (ms !! i) as [[k e]|] eqn:E; [|done]. cbn in *. congruence.
    + by rewrite list_lookup_alter_ne.
  - by apply list_insert_id.
Qed.

Lemma set_set_child v i x y : set_child (set_child v i x) i y = set_child v i y.
Proof.
  destruct v as [[ms|es| | | |]|]; cbn; try done; do 2 f_equal.
  - apply list_eq. intros j. destruct (decide (i = j)) as [<-|Hne].
    + rewrite !list_lookup_alter_eq. by destruct (ms !! i).
    + by rewrite !list_lookup_alter_ne.
  - apply list_insert_insert_eq.
Qed.

Lemma load_app v p q : load v (p ++ q) = c ← load v p; load c q.
Proof. revert v. induction p as [|i p IH]; intros v; cbn; [done|]. destruct (child v i); cbn; [apply IH|done]. Qed.

Lemma load_store v p c x : load v p = Some c -> load (store v p x) p = Some x.
Proof.
  revert v. induction p as [|i p IH]; intros v; cbn; [done|].
  destruct (child v i) as [c'|] eqn:E; cbn; [|done]. intros H.
  rewrite (child_set_child _ _ _ _ E). cbn. by apply IH.
Qed.

Lemma store_load v p c : load v p = Some c -> store v p c = v.
Proof.
  revert v. induction p as [|i p IH]; intros v; cbn; [congruence|].
  destruct (child v i) as [c'|] eqn:E; cbn; [|done]. intros H. rewrite IH by done. by apply set_child_id.
Qed.

Lemma store_store v p x y c : load v p = Some c -> store (store v p x) p y = store v p y.
Proof.
  revert v. induction p as [|i p IH]; intros v; cbn; [done|].
  destruct (child v i) as [c'|] eqn:E; cbn; [|done]. intros H.
  rewrite (child_set_child _ _ _ _ E), set_set_child. by rewrite IH.
Qed.

Lemma store_app v p q c x : load v p = Some c -> store v (p ++ q) x = store v p (store c q x).
Proof.
  revert v. induction p as [|i p IH]; intros v; cbn; [congruence|].
  destruct (child v i) as [c'|] eqn:E; cbn; [|done]. intros H. by rewrite IH.
Qed.

Lemma deref_load root p v : load root p = Some v -> deref root p = Ok v.
Proof. intros H. unfold deref. by rewrite H. Qed.

Lemma assign_load root p v x : load root p = Some v -> assign root p x = Ok (store root p x).
Proof. intros H. unfold assign. by rewrite (deref_load _ _ _ H). Qed.

(** ** Subscripts act on the slot they are applied to *)

Definition object_members (v : ptr) : list (str * ptr) :=
  match v with Some (JsonObject ms) => ms | _ => [] end.
Definition array_elements (v : ptr) : list ptr :=
  match v with Some (JsonArray es) => es | _ => [] end.

(** What a subscript does to the slot, and the position it leads to. *)
Definition subscript_slot (v : ptr) (s : subscript) : outcome (ptr * nat) :=
  match s with
  | Key k =>
      let '(ms, i) := getRefForKeyCreate (object_members v) k in
      Ok (Some (JsonObject (alter (fun m => (m.1, fill_null m.2)) i ms)), i)
  | Index idx =>
      es ← getElementRefCreate (array_elements v) idx;
      Ok (Some (JsonArray es), Z.to_nat idx)
  end.

Lemma getRef_lookup ms k ms' i : getRefForKeyCreate ms k = (ms', i) -> exists e, ms' !! i = Some (k, e).
Proof.
  revert ms' i. induction ms as [|[k' e'] ms IH]; cbn; intros ms' i.
  - intros [= <- <-]. eauto.
  - case_decide as Hk.
    + intros [= <- <-]. cbn in Hk. subst. eauto.
    + destruct (getRefForKeyCreate ms k) as [ms1 i1]. intros [= <- <-]. destruct (IH ms1 i1); eauto.
Qed.

Lemma getElement_lookup es idx es' :
  getElementRefCreate es idx = Ok es' -> exists v, es' !! Z.to_nat idx = Some (Some v).
Proof.
  intros (es1 & _ & H)%bind_ok. destruct (es1 !! Z.to_nat idx) as [e|] eqn:E; [|done].
  injection H as <-. rewrite list_lookup_insert_eq by (by eapply lookup_lt_Some).
  destruct e; cbn; eauto.
Qed.

Lemma attach_child root p v i e :
  load root p = Some v -> child v i = Some e ->
  attach root (p ++ [i]) = Ok (store root p (set_child v i (fill_null e))).
Proof.
  intros Hl Hc. assert (load root (p ++ [i]) = Some e) as Hle.
  { rewrite load_app, Hl. cbn. by rewrite Hc. }
  unfold attach. rewrite (deref_load _ _ _ Hle). run_binds. destruct e as [j|]; cbn [fill_null].
  - by rewrite (set_child_id _ _ _ Hc), (store_load _ _ _ Hl).
  - rewrite (assign_load _ _ _ _ Hle), (store_app _ _ _ _ _ Hl). cbn [store]. by rewrite Hc.
Qed.

Lemma ensureExistsAs_object root p v :
  load root p = Some v ->
  ensureExistsAs root p Object = Ok (store root p (Some (JsonObject (object_members v)))).
Proof.
  intros Hl. unfold ensureExistsAs. rewrite (deref_load _ _ _ Hl). run_binds.
  destruct v as [[]|]; cbn; try by rewrite (assign_load _ _ _ _ Hl).
  by rewrite (store_load _ _ _ Hl).
Qed.

Lemma ensureExistsAs_array root p v :
  load root p = Some v ->
  ensureExistsAs root p Array = Ok (store root p (Some (JsonArray (array_elements v)))).
Proof.
  intros Hl. unfold ensureExistsAs. rewrite (deref_load _ _ _ Hl). run_binds.
  destruct v as [[]|]; cbn; try by rewrite (assign_load _ _ _ _ Hl).
  by rewrite (store_load _ _ _ Hl).
Qed.

Lemma at_subscript_slot root p v s :
  load root p = Some v ->
  at_subscript root p s = '(v', i) ← subscript_slot v s; Ok (store root p v', p ++ [i]).
Proof.
  intros Hl. destruct s as [k|idx]; cbn [at_subscript subscript_slot].
  - unfold at_key. rewrite (ensureExistsAs_object _ _ _ Hl). run_binds.
    rewrite (deref_load _ _ (Some (JsonObject (object_members v)))) by (by eapply load_store).
    run_binds.
    destruct (getRefForKeyCreate (object_members v) k) as [ms i] eqn:E.
    destruct (getRef_lookup _ _ _ _ E) as [e He].
    rewrite (assign_load _ _ (Some (JsonObject (object_members v)))) by (by eapply load_store).
    run_binds. rewrite (store_store _ _ _ _ _ Hl).
    rewrite (attach_child _ _ (Some (JsonObject ms)) i e);
      [|by eapply load_store|cbn; by rewrite He].
    run_binds. rewrite (store_store _ _ _ _ _ Hl). cbn [set_child].
    do 5 f_equal. apply list_eq. intros j. destruct (decide (i = j)) as [<-|Hne].
    + rewrite !list_lookup_alter_eq, He. done.
    + by rewrite !list_lookup_alter_ne.
  - unfold at_index. rewrite (ensureExistsAs_array _ _ _ Hl). run_binds.
    rewrite (deref_load _ _ (Some (JsonArray (array_elements v)))) by (by eapply load_store).
    run_binds.
    destruct (getElementRefCreate (array_elements v) idx) as [es| | |] eqn:E; [|done..].
    destruct (getElement_lookup _ _ _ E) as [e He]. run_binds.
    rewrite (assign_load _ _ (Some (JsonArray (array_elements v)))) by (by eapply load_store).
    run_binds. rewrite (store_store _ _ _ _ _ Hl).
    rewrite (attach_child _ _ (Some (JsonArray es)) (Z.to_nat idx) (Some e));
      [|by eapply load_store|done].
    cbn [mbind outcome_bind fill_null]. rewrite (store_store _ _ _ _ _ Hl).
    by rewrite (set_child_id (Some (JsonArray es)) _ (Some e)).
Qed.

(** Every subscript leads to an existing slot, which is not null. *)
Lemma subscript_slot_child v s v1 i :
  subscript_slot v s = Ok (v1, i) -> exists j, child v1 i = Some (Some j).
Proof.
  destruct s as [k|idx]; cbn [subscript_slot].
  - destruct (getRefForKeyCreate (object_members v) k) as [ms n] eqn:E. intros [= <- <-].
    destruct (getRef_lookup _ _ _ _ E) as [e He]. cbn. rewrite list_lookup_alter_eq, He. cbn.
    destruct e; cbn; eauto.
  - intros (es & E & [= <- <-])%bind_ok. apply getElement_lookup in E as [e He]. cbn. eauto.
Qed.

(** A chain of subscripts on a slot. *)
Fixpoint navigate_slot (v : ptr) (ss : list subscript) : outcome (ptr * path) :=
  match ss with
  | [] => Ok (v, [])
  | s :: ss =>
      '(v1, i) ← subscript_slot v s;
      match child v1 i with
      | None => Undefined
      | Some c => '(c', q) ← navigate_slot c ss; Ok (set_child v1 i c', i :: q)
      end
  end.

Lemma navigate_navigate_slot ss : forall root p v,
  load root p = Some v ->
  navigate root p ss = '(v', q) ← navigate_slot v ss; Ok (store root p v', p ++ q).
Proof.
  induction ss as [|s ss IH]; intros root p v Hl; cbn [navigate navigate_slot].
  - cbn. by rewrite (store_load _ _ _ Hl), app_nil_r.
  - rewrite (at_subscript_slot _ _ _ _ Hl).
    destruct (subscript_slot v s) as [[v1 i]| | |] eqn:E; [|done..].
    destruct (subscript_slot_child _ _ _ _ E) as [j Hj]. run_binds. rewrite Hj.
    assert (load (store root p v1) p = Some v1) as Hl1 by (by eapply load_store).
    rewrite (IH _ _ (Some j)) by (rewrite load_app, Hl1; cbn; by rewrite Hj).
    destruct (navigate_slot (Some j) ss) as [[c q]| | |]; [|done..]. run_binds.
    rewrite (store_app _ _ _ _ _ Hl1). cbn [store]. rewrite Hj, (store_store _ _ _ _ _ Hl).
    by rewrite <- app_assoc.
Qed.

Lemma navigate_slot_load ss : forall v v' q,
  navigate_slot v ss = Ok (v', q) -> exists c, load v' q = Some c.
Proof.
  induction ss as [|s ss IH]; intros v v' q; cbn [navigate_slot]; [intros [= <- <-]; by eexists|].
  intros ([v1 i] & E & H)%bind_ok. destruct (child v1 i) as [c|] eqn:Hc; [|done].
  apply bind_ok in H as ([c' q'] & Hn & [= <- <-]). apply IH in Hn as [c'' Hn].
  exists c''. cbn. by rewrite (child_set_child _ _ _ _ Hc).
Qed.

Lemma put_slot root ss x :
  put root ss x = '(v', q) ← navigate_slot root ss; Ok (store v' q (Some x)).
Proof.
  unfold put. rewrite (navigate_navigate_slot ss root [] root) by done.
  destruct (navigate_slot root ss) as [[v q]| | |] eqn:E; [|done..]. cbn [mbind outcome_bind store app].
  apply navigate_slot_load in E as [c Hc]. by rewrite (assign_load _ _ _ _ Hc).
Qed.

(** ** Reading without creating *)

(** The first member with a key, the element at an index. *)
Fixpoint find_member (ms : list (str * ptr)) (k : str) : option ptr :=
  match ms with
  | [] => None
  | m :: ms => if decide (m.1 = k) then Some m.2 else find_member ms k
  end.

Definition find_child (v : ptr) (s : subscript) : option ptr :=
  match s, v with
  | Key k, Some (JsonObject ms) => find_member ms k
  | Index i, Some (JsonArray es) => if (0 <=? i)%Z then es !! Z.to_nat i else None
  | _, _ => None
  end.

Fixpoint find (v : ptr) (ss : list subscript) : option ptr :=
  match ss with
  | [] => Some v
  | s :: ss => c ← find_child v s; find c ss
  end.

(** Two chains that part at some level, by another key or another index. *)
Inductive diverge : list subscript -> list subscript -> Prop :=
| diverge_key k k' ss ss' : k <> k' -> diverge (Key k :: ss) (Key k' :: ss')
| diverge_index i i' ss ss' : (0 <= i)%Z -> (0 <= i')%Z -> i <> i' -> diverge (Index i :: ss) (Index i' :: ss')
| diverge_below s ss ss' : diverge ss ss' -> diverge (s :: ss) (s :: ss').

(** The indices of a chain are positions of a vector. *)
Definition index_ok (s : subscript) : Prop :=
  match s with Key _ => True | Index i => (0 <= i < max_elements)%Z end.

Lemma find_member_getRef ms k ms' i :
  getRefForKeyCreate ms k = (ms', i) ->
  (forall f, find_member (alter (fun m => (m.1, f m.2)) i ms') k = f <$> (snd <$> ms' !! i)) /\
  (forall k' f, k <> k' -> find_member (alter (fun m => (m.1, f m.2)) i ms') k' = find_member ms k') /\
  (forall e, find_member ms k = Some e -> snd <$> ms' !! i = Some e).
Proof.
  revert ms' i. induction ms as [|[k0 e0] ms IH]; cbn; intros ms' i.
  - intros [= <- <-]. cbn. split; [|split]; [intros f; by rewrite decide_True|intros; by rewrite decide_False|done].
  - case_decide as Hk; cbn in Hk.
    + intros [= <- <-]. cbn. split; [|split]; intros.
      * by rewrite decide_True.
      * rewrite !decide_False by congruence. done.
      * congruence.
    + destruct (getRefForKeyCreate ms k) as [ms1 i1]. intros [= <- <-].
      destruct (IH ms1 i1 eq_refl) as (H1 & H2 & H3). cbn. split; [|split]; intros.
      * rewrite decide_False by done. apply H1.
      * rewrite H2 by done. done.
      * by apply H3.
Qed.

(** A value that is as it was, or that was a null pointer and is now a JSON null. *)
Definition kept (e e' : ptr) : Prop := e' = e \/ e' = fill_null e.

Lemma getElement_kept es idx es' j e :
  (0 <= idx)%Z -> getElementRefCreate es idx = Ok es' -> es !! j = Some e ->
  exists e', es' !! j = Some e' /\ kept e e' /\ (j = Z.to_nat idx -> e' = fill_null e).
Proof.
  intros Hi (es1 & H1 & H)%bind_ok He. destruct (es1 !! Z.to_nat idx) as [e0|] eqn:E0; [|done].
  injection H as <-.
  assert (exists e1, es1 !! j = Some e1 /\ kept e e1) as (e1 & He1 & Hk).
  { destruct (Zlen es <=? idx)%Z eqn:Hle; [|injection H1 as <-; exists e; by unfold kept; auto].
    cbv zeta in H1. destruct (wadd idx 1 <=? max_elements)%Z; [|done]. injection H1 as <-.
    destruct (decide (j < Z.to_nat (wadd idx 1))) as [Hj|Hj].
    - exists (fill_null e). split; [|by right].
      rewrite list_lookup_fmap, lookup_resize; [by rewrite He|done|by eapply lookup_lt_Some].
    - apply lookup_lt_Some in He, E0. rewrite length_fmap, length_resize in E0.
      unfold Zlen in Hle. lia. }
  destruct (decide (j = Z.to_nat idx)) as [->|Hne].
  - rewrite He1 in E0. injection E0 as ->. exists (fill_null e0).
    rewrite list_lookup_insert_eq by (by eapply lookup_lt_Some).
    destruct Hk as [->| ->]; destruct e; unfold kept; cbn; auto.
  - exists e1. rewrite list_lookup_insert_ne by done. done.
Qed.

(** What a subscript does to its slot: the selected child is the one the
    subscript finds, and the children it does not select are kept. *)
Lemma subscript_slot_find v s v1 i :
  index_ok s -> subscript_slot v s = Ok (v1, i) ->
  (forall x, find_child (set_child v1 i x) s = Some x) /\
  (forall c, find_child v s = Some c -> child v1 i = Some (fill_null c)) /\
  (forall s' ss ss' x c, diverge (s :: ss) (s' :: ss') -> s <> s' -> find_child v s' = Some c ->
     exists c', find_child (set_child v1 i x) s' = Some c' /\ kept c c').
Proof.
  destruct s as [k|idx]; cbn [subscript_slot]; intros Hok.
  - destruct (getRefForKeyCreate (object_members v) k) as [ms n] eqn:E. intros [= <- <-].
    destruct (find_member_getRef _ _ _ _ E) as (H1 & H2 & H3).
    destruct (getRef_lookup _ _ _ _ E) as [e He].
    assert (forall x, alter (fun m : str * ptr => (m.1, x)) n (alter (fun m => (m.1, fill_null m.2)) n ms)
                 = alter (fun m : str * ptr => (m.1, x)) n ms) as Hx.
    { intros x. apply list_eq. intros j. destruct (decide (n = j)) as [<-|Hne];
        [by rewrite !list_lookup_alter_eq, He|by rewrite !list_lookup_alter_ne by done]. }
    split; [|split].
    + intros x. cbn. rewrite Hx, (H1 (fun _ => x)), He. done.
    + intros c Hc. assert (find_member (object_members v) k = Some c) as Hm by (by destruct v as [[]|]).
      apply H3 in Hm. cbn. rewrite list_lookup_alter_eq, He in *. cbn in *. by injection Hm as ->.
    + intros s' ss ss' x c Hd Hne Hc. inversion Hd; subst; [|done]. exists c. split; [|by left].
      cbn. rewrite Hx, (H2 _ (fun _ => x)) by done. by destruct v as [[]|].
  - intros (es & E & [= <- <-])%bind_ok. destruct (getElement_lookup _ _ _ E) as [e He]. cbn in Hok.
    split; [|split].
    + intros x. cbn. rewrite (proj2 (Z.leb_le 0 idx)) by lia.
      by rewrite list_lookup_insert_eq by (by eapply lookup_lt_Some).
    + intros c Hc. cbn in Hc. destruct v as [[]|]; try done.
      destruct (0 <=? idx)%Z; [|done].
      destruct (getElement_kept _ _ _ _ _ (proj1 Hok) E Hc) as (e' & He' & _ & H'). cbn.
      by rewrite He', H'.
    + intros s' ss ss' x c Hd Hne Hc. inversion Hd; subst; [|done]. cbn in Hc |- *.
      destruct v as [[]|]; try done. rewrite (proj2 (Z.leb_le 0 i')) in * by lia.
      destruct (getElement_kept _ _ _ _ _ (proj1 Hok) E Hc) as (e' & He' & Hk & _).
      exists e'. by rewrite list_lookup_insert_ne by lia.
Qed.

Lemma subscript_slot_total v s : index_ok s -> exists v1 i, subscript_slot v s = Ok (v1, i).
Proof.
  destruct s as [k|idx]; cbn [subscript_slot index_ok]; intros Hok.
  - destruct (getRefForKeyCreate _ _). eauto.
  - unfold getElementRefCreate. set (es := array_elements v).
    assert (max_elements < 2 ^ 60)%Z as Hmax by (vm_compute; done).
    destruct (Zlen es <=? idx)%Z eqn:Hle.
    + rewrite wadd_small by (unfold SIZE_MAX; lia). rewrite (proj2 (Z.leb_le _ _)) by lia.
      run_binds.
      destruct ((fill_null <$> resize (Z.to_nat (idx + 1)) None es) !! Z.to_nat idx) eqn:E; [cbn; eauto|].
      apply lookup_ge_None in E. rewrite length_fmap, length_resize in E. lia.
    + run_binds. destruct (es !! Z.to_nat idx) eqn:E; [cbn; eauto|].
      apply lookup_ge_None in E. unfold Zlen in Hle. lia.
Qed.

Lemma navigate_slot_total ss : forall v,
  Forall index_ok ss -> exists v' q, navigate_slot v ss = Ok (v', q).
Proof.
  induction ss as [|s ss IH]; intros v Hok; cbn [navigate_slot]; [eauto|].
  inversion_clear Hok as [|?? Hs Hss].
  destruct (subscript_slot_total v s Hs) as (v1 & i & E). rewrite E. run_binds.
  destruct (subscript_slot_child _ _ _ _ E) as [j Hj]. rewrite Hj.
  destruct (IH (Some j) Hss) as (v' & q & ->). cbn. eauto.
Qed.

Lemma find_fill_null c ss e : ss <> [] -> find c ss = Some e -> fill_null c = c.
Proof. destruct c; [done|]. by destruct ss as [|[]]. Qed.

Lemma navigate_slot_find ss : forall v v' q x,
  Forall index_ok ss -> navigate_slot v ss = Ok (v', q) -> find (store v' q x) ss = Some x.
Proof.
  induction ss as [|s ss IH]; intros v v' q x Hok; cbn [navigate_slot]; [by intros [= <- <-]|].
  inversion_clear Hok as [|?? Hs Hss]. intros ([v1 i] & E & H)%bind_ok.
  destruct (child v1 i) as [c|] eqn:Hc; [|done].
  apply bind_ok in H as ([c' q'] & Hn & [= <- <-]). cbn [store].
  rewrite (child_set_child _ _ _ _ Hc). rewrite (set_set_child _ _ _ _).
  destruct (subscript_slot_find _ _ _ _ Hs E) as (H1 & _ & _). cbn [find]. rewrite H1. cbn.
  by eapply IH.
Qed.

Lemma navigate_slot_frame_head s ss s' ss' v v' q x e :
  diverge (s :: ss) (s' :: ss') -> s <> s' -> Forall index_ok (s :: ss) ->
  navigate_slot v (s :: ss) = Ok (v', q) -> find v (s' :: ss') = Some e ->
  exists e', find (store v' q x) (s' :: ss') = Some e' /\ kept e e'.
Proof.
  intros Hd Hne Hok Hn Hf. inversion_clear Hok as [|?? Hs Hss].
  cbn [navigate_slot] in Hn. apply bind_ok in Hn as ([v1 i] & E & H).
  destruct (child v1 i) as [c|] eqn:Hc; [|done].
  apply bind_ok in H as ([c' q'] & Hn & [= <- <-]). cbn [store].
  rewrite (child_set_child _ _ _ _ Hc), set_set_child.
  cbn [find] in *. apply bind_Some in Hf as (d & Hd' & Hf).
  destruct (subscript_slot_find _ _ _ _ Hs E) as (_ & _ & H3).
  destruct (H3 _ _ _ (store c' q' x) _ Hd Hne Hd') as (d' & -> & Hk). cbn.
  destruct Hk as [->| ->]; [exists e; split; [done|by left]|].
  destruct ss' as [|s2 ss'].
  - injection Hf as ->. eexists. split; [done|by right].
  - exists e. split; [|by left]. by rewrite (find_fill_null d (s2 :: ss') e ltac:(discriminate) Hf).
Qed.

Lemma navigate_slot_frame ss ss' : diverge ss ss' -> forall v v' q x e,
  Forall index_ok ss -> navigate_slot v ss = Ok (v', q) -> find v ss' = Some e ->
  exists e', find (store v' q x) ss' = Some e' /\ kept e e'.
Proof.
  induction 1 as [k k' ss ss' Hne|i i' ss ss' ?? Hne|s ss ss' Hd IH].
  - intros. eapply navigate_slot_frame_head; eauto using diverge; congruence.
  - intros. eapply navigate_slot_frame_head; eauto using diverge; congruence.
  - intros v v' q x e Hok Hn Hf. inversion_clear Hok as [|?? Hs Hss].
    cbn [navigate_slot] in Hn. apply bind_ok in Hn as ([v1 i] & E & H).
    destruct (child v1 i) as [c|] eqn:Hc; [|done].
    apply bind_ok in H as ([c' q'] & Hn & [= <- <-]). cbn [store].
    rewrite (child_set_child _ _ _ _ Hc), set_set_child.
    destruct (subscript_slot_find _ _ _ _ Hs E) as (H1 & H2 & _).
    cbn [find] in *. rewrite H1. apply bind_Some in Hf as (d & Hd' & Hf).
    apply H2 in Hd'. rewrite Hc in Hd'. injection Hd' as ->. cbn.
    eapply IH; [done|exact Hn|].
    by rewrite (find_fill_null d ss' e (ltac:(by destruct Hd)) Hf).
Qed.

(** C27: Assigning through the proxy always succeeds for subscripts a vector can
    hold, whatever the document was before: [root[s1][s2]... = x] turns the
    values on the way into objects and arrays as needed, and afterwards the
    same subscripts find exactly [x]. *)
Theorem put_find root ss x :
  Forall index_ok ss -> exists root', put root ss x = Ok root' /\ find root' ss = Some (Some x).
Proof.
  intros Hok. destruct (navigate_slot_total ss root Hok) as (v' & q & E).
  exists (store v' q (Some x)). rewrite put_slot, E. split; [done|].
  by eapply navigate_slot_find.
Qed.

Definition put_doc : ptr :=
  Some (JsonObject [(lit "name", Some (JsonString (lit "x"))); (lit "list", None)]).

Lemma put_find_witness :
  exists root', put put_doc [Key (lit "list"); Index 2; Key (lit "a")] (JsonBoolean true) = Ok root' /\
    find root' [Key (lit "list"); Index 2; Key (lit "a")] = Some (Some (JsonBoolean true)).
Proof. apply put_find. repeat constructor; done. Defined.

(** Assigning through the proxy changes nothing else: what any chain of
    subscripts that parts from the assigned one by another key or index found
    before is still found after, unchanged, except that a null pointer may have
    become a JSON null. *)
Theorem put_frame root ss x root' ss' e :
  Forall index_ok ss -> put root ss x = Ok root' -> diverge ss ss' -> find root ss' = Some e ->
  exists e', find root' ss' = Some e' /\ kept e e'.
Proof.
  intros Hok Hp Hd Hf. rewrite put_slot in Hp. apply bind_ok in Hp as ([v' q] & E & [= <-]).
  by eapply navigate_slot_frame.
Qed.

Lemma put_frame_witness :
  exists e', find (Some (JsonObject [(lit "name", Some (JsonString (lit "x"))); (lit "list", Some (JsonBoolean true))]))
               [Key (lit "name")] = Some e' /\ kept (Some (JsonString (lit "x"))) e'.
Proof.
  apply (put_frame put_doc [Key (lit "list")] (JsonBoolean true)).
  - repeat constructor.
  - reflexivity.
  - constructor. discriminate.
  - reflexivity.
Defined.

(** Typed access: a value assigned through a proxy is what the accessor of its
    type returns, the proxy then has that type, and an accessor of another type
    throws.  A null pointer assigned becomes a JSON null. *)
Theorem assign_then_access root p v s d b :
  load root p = Some v ->
  (root' ← assignString root p s; asString root' p) = Ok s /\
  (root' ← assignNumber root p d; asNumber root' p) = Ok d /\
  (root' ← assignBool root p b; asBool root' p) = Ok b /\
  (root' ← assignNull root p; type root' p) = Ok Null /\
  (root' ← assignPtr root p None; type root' p) = Ok Null /\
  (root' ← assignString root p s; asNumber root' p) = Throw (RuntimeError (lit "Not a number")) /\
  (root' ← assignNumber root p d; asString root' p) = Throw (RuntimeError (lit "Not a string")).
Proof.
  intros Hl. unfold assignString, assignNumber, assignBool, assignNull, assignPtr.
  rewrite !(assign_load _ _ _ _ Hl). run_binds.
  assert (forall x, deref (store root p x) p = Ok x) as Hd.
  { intros x. apply deref_load. by eapply load_store. }
  unfold asString, asNumber, asBool, type. rewrite !Hd. run_binds.
  rewrite ?(assign_load _ _ None) by (by eapply load_store).
  run_binds. rewrite ?(store_store _ _ _ _ _ Hl), ?Hd. repeat split.
Qed.

Lemma assign_then_access_witness :
  (root' ← assignString put_doc [1] (lit "x"); asString root' [1]) = Ok (lit "x").
Proof. apply (assign_then_access put_doc [1] None (lit "x") (Double.of_Z 1) true). reflexivity. Defined.

(** The value an operand stands for. *)
Definition operand_value (x : operand) : json :=
  match x with
  | CString s => JsonString s
  | AFloating d => JsonNumber d
  | AnInt i | ALong i => JsonNumber (Double.of_Z i)
  | ABool b => JsonBoolean b
  | ANullptr | AUnique None => JsonNull
  | AnObject ms => JsonObject ms
  | AnArray es => JsonArray es
  | AUnique (Some j) => j
  end.

Lemma operator_assign_stores root p v x :
  load root p = Some v -> operator_assign root p x = Ok (store root p (Some (operand_value x))).
Proof.
  intros Hl. unfold operator_assign, assignString, assignNumber, assignBool, assignNull, assignObject, assignArray, assignPtr.
  destruct x as [| | | | | | | |[j|]]; rewrite (assign_load _ _ _ _ Hl); try done. run_binds.
  rewrite (assign_load _ _ None) by (by eapply load_store). by rewrite (store_store _ _ _ _ _ Hl).
Qed.

(** [asObject] and [asArray] on a slot that has a value. *)
Lemma asObject_load root p j :
  load root p = Some (Some j) ->
  asObject root p = match j with JsonObject ms => Ok (root, ms) | _ => Ok (store root p (Some (JsonObject [])), []) end.
Proof.
  intros Hl. unfold asObject. rewrite (ensureExistsAs_object _ _ _ Hl). run_binds.
  rewrite (deref_load _ _ (Some (JsonObject (object_members (Some j))))) by (by eapply load_store). run_binds.
  destruct j; try done. cbn [object_members]. by rewrite store_load.
Qed.

Lemma asArray_load root p j :
  load root p = Some (Some j) ->
  asArray root p = match j with JsonArray es => Ok (root, es) | _ => Ok (store root p (Some (JsonArray [])), []) end.
Proof.
  intros Hl. unfold asArray. rewrite (ensureExistsAs_array _ _ _ Hl). run_binds.
  rewrite (deref_load _ _ (Some (JsonArray (array_elements (Some j))))) by (by eapply load_store). run_binds.
  destruct j; try done. cbn [array_elements]. by rewrite store_load.
Qed.

(** C40: typed access, for each of the eleven operators that assign a value (the copy
    assignment makes the proxy refer to another slot instead): the slot then has the
    type of the operand (an integer is the [double] it is converted to, a null pointer
    is JSON's null). [asString], [asNumber] and [asBool] return the operand if it is of
    their type and throw otherwise. [asObject] and [asArray] never throw: they give the
    operand if it is of their type, and otherwise replace it by an empty object or
    array. *)
Theorem operator_assign_access root p v x :
  load root p = Some v ->
  exists root', operator_assign root p x = Ok root' /\ type root' p = Ok (getType (operand_value x)) /\
    asString root' p = match operand_value x with JsonString s => Ok s | _ => Throw (RuntimeError (lit "Not a string")) end /\
    asNumber root' p = match operand_value x with JsonNumber d => Ok d | _ => Throw (RuntimeError (lit "Not a number")) end /\
    asBool root' p = match operand_value x with JsonBoolean b => Ok b | _ => Throw (RuntimeError (lit "Not a boolean")) end /\
    asObject root' p =
      match operand_value x with JsonObject ms => Ok (root', ms) | _ => Ok (store root' p (Some (JsonObject [])), []) end /\
    asArray root' p =
      match operand_value x with JsonArray es => Ok (root', es) | _ => Ok (store root' p (Some (JsonArray [])), []) end.
Proof.
  intros Hl. rewrite (operator_assign_stores _ _ _ _ Hl). eexists. split; [done|].
  pose proof (load_store root p v (Some (operand_value x)) Hl) as Hs.
  rewrite (asObject_load _ _ _ Hs), (asArray_load _ _ _ Hs). unfold type, asString, asNumber, asBool.
  rewrite (deref_load _ _ _ Hs). run_binds. by destruct (operand_value x).
Qed.

Lemma operator_assign_access_witness :
  exists root', operator_assign put_doc [1] (AnArray [None]) = Ok root' /\ type root' [1] = Ok Array /\
    asArray root' [1] = Ok (root', [None]) /\ asBool root' [1] = Throw (RuntimeError (lit "Not a boolean")).
Proof.
  destruct (operator_assign_access put_doc [1] None (AnArray [None])) as (root' & H1 & H2 & _ & _ & H3 & _ & H4); [reflexivity|].
  exists root'. split; [done|]. split; [done|]. by split.
Defined.

(** [push] makes the slot an array, if it is none, and appends. *)
Lemma push_appends root p v x :
  load root p = Some v -> push root p x = Ok (store root p (Some (JsonArray (array_elements v ++ [x])))).
Proof.
  intros Hl. unfold push, ensureArray, asArray. rewrite (deref_load _ _ _ Hl). run_binds.
  assert (forall r, load r p = Some (Some (JsonArray (array_elements v))) -> store r p (Some (JsonArray (array_elements v))) = r ->
    store r p (Some (JsonArray (array_elements v ++ [x]))) = store root p (Some (JsonArray (array_elements v ++ [x]))) ->
    ('(root0, es) ← (root0 ← ensureExistsAs r p Array; v0 ← deref root0 p;
       match v0 with Some (JsonArray es) => Ok (root0, es) | _ => Undefined end);
     assign root0 p (Some (JsonArray (Json.push es x)))) = Ok (store root p (Some (JsonArray (array_elements v ++ [x]))))) as H.
  { intros r Hr Hs Ht. rewrite (ensureExistsAs_array _ _ _ Hr). cbn [array_elements]. run_binds. rewrite Hs, (deref_load _ _ _ Hr). run_binds.
    rewrite (assign_load _ _ _ _ Hr). unfold Json.push. by rewrite Ht. }
  destruct v as [[| | | | |]|]; cbn [array_elements app] in *;
    rewrite ?(assign_load _ _ _ _ Hl); run_binds; apply H; rewrite ?(store_store _ _ _ _ _ Hl); try done;
    try (by eapply load_store); by apply store_load.
Qed.

(** The operands of the [push] overloads, and what they are stored as. *)
Inductive push_operand : Type :=
| PString (s : str)          (** [const char*] and [std::string] *)
| PDouble (d : Double.t)
| PInt (i : Z)
| PBool (b : bool)
| PPtr (v : ptr).

Definition pushed (x : push_operand) : ptr :=
  match x with
  | PString s => Some (JsonString s)
  | PDouble d => Some (JsonNumber d)
  | PInt i => Some (JsonNumber (Double.of_Z i))
  | PBool b => Some (JsonBoolean b)
  | PPtr v => v
  end.

Definition operator_push (root : ptr) (p : path) (x : push_operand) : outcome ptr := push root p (pushed x).

(** A pushed value is the last element, and the slot is an array. *)
Lemma push_then_read root p v x j root' :
  load root p = Some v -> pushed x = Some j -> operator_push root p x = Ok root' ->
  type root' p = Ok Array /\ load root' (p ++ [length (array_elements v)]) = Some (Some j).
Proof.
  intros Hl Hx. unfold operator_push. rewrite (push_appends _ _ _ _ Hl), Hx. intros [= <-].
  pose proof (load_store root p v (Some (JsonArray (array_elements v ++ [Some j]))) Hl) as Hs. split.
  - unfold type. by rewrite (deref_load _ _ _ Hs).
  - rewrite load_app, Hs. cbn. by rewrite list_lookup_middle.
Qed.

(** The program in main.cpp runs without an exception and prints the
    indented text of the object it builds (with the array filled up with nulls)
    and of the text it parses. *)
Theorem main_output :
  main = Ok
    (qlit "{
  'name': 'Jerry',
  'age': 21,
  'pi': 3.14159,
  'alive': true,
  'nothing': null,
  'user': {
    'id': 123,
    'meta': {
      'nick': 'ruijie'
    }
  },
  'arr': [
    'a',
    null,
    null,
    999
  ]
}
",
     qlit "{
  'x': 1,
  'y': [
    true,
    false,
    'hi'
  ]
}
").
Proof. by vm_compute. Qed.

End JsonValue.
