(* ===== verification/JsonProxy.v ===== *)
(** * protocol/Json.hpp: proxies that are kept

    A [JsonValue] made by a subscript points to a [std::unique_ptr] inside the storage
    of a vector, the members of an object or the elements of an array.  The pointer
    dangles when the vector moves its elements to new storage, or when a slot above
    is given another value.  JsonValue.v follows the document; this file also keeps,
    for every container a proxy points into, a number for its current storage,
    and a proxy remembers the number it was made with.  Whether an insertion moves the
    elements depends on the capacity of the vector and is an argument ([moves]); the
    objects themselves stay where they are, so proxies into containers further down
    are not affected.

    The theorem says exactly when a kept proxy can still be used. *)

From S2P Require Import Prelude Json JsonValue.
Import Json JsonValue.

Module JsonProxy.

(** ** Proxies and storage *)

(** The proxy of the root pointer, or of a slot: the path of its container, the
    position, and the storage of the container. *)
Inductive proxy : Type := Root | Slot (q : path) (i : nat) (b : nat).

Definition path_of (x : proxy) : path := match x with Root => [] | Slot q i _ => q ++ [i] end.

(** The document, the storage of containers, and the next number for storage. *)
Record doc : Type := mk { root_ : ptr; blocks : gmap path nat; fresh : nat }.

(** Whether the pointer of a proxy points to storage that still exists. *)
Definition valid (x : proxy) (d : doc) : bool :=
  match x with Root => true | Slot q _ b => bool_decide (blocks d !! q = Some b) end.

(** A slot gets another value: the containers in and below it are gone. *)
Definition forget (p : path) (m : gmap path nat) : gmap path nat := filter (fun e => ~ p `prefix_of` e.1) m.

(** The storage of container [p], which is new when the elements have moved, or when no
    proxy has pointed into it yet. *)
Definition touch (p : path) (moved : bool) (m : gmap path nat) (n : nat) : nat * gmap path nat * nat :=
  match m !! p, moved with
  | Some b, false => (b, m, n)
  | _, _ => (n, <[p := n]> m, S n)
  end.

(** ** Operations through a proxy *)

(** Whether the slot already holds the container a subscript needs. *)
Definition container_ok (v : ptr) (s : subscript) : bool :=
  match s, v with
  | Key _, Some (JsonObject _) | Index _, Some (JsonArray _) => true
  | _, _ => false
  end.

(** Whether a subscript inserts a member or elements. *)
Definition appends (v : ptr) (s : subscript) : bool :=
  match s with
  | Key k => negb (contains (object_members v) k)
  | Index i => (Zlen (array_elements v) <=? i)%Z
  end.

(** [x[s]] *)
Definition subscript_of (moves : bool) (x : proxy) (s : subscript) (d : doc) : outcome (proxy * doc) :=
  if valid x d then
    let p := path_of x in
    v ← deref (root_ d) p;
    '(root, q) ← at_subscript (root_ d) p s;
    let m := if container_ok v s then blocks d else forget p (blocks d) in
    let '(b, m, n) := touch p (moves && appends v s) m (fresh d) in
    Ok (Slot p (default 0 (last q)) b, mk root m n)
  else Undefined.

(** [x = o] *)
Definition assign_to (x : proxy) (o : operand) (d : doc) : outcome doc :=
  if valid x d then
    root ← operator_assign (root_ d) (path_of x) o;
    Ok (mk root (forget (path_of x) (blocks d)) (fresh d))
  else Undefined.

Definition is_array (v : ptr) : bool := match v with Some (JsonArray _) => true | _ => false end.

(** [x.push(y)] *)
Definition push_to (moves : bool) (x : proxy) (y : ptr) (d : doc) : outcome doc :=
  if valid x d then
    let p := path_of x in
    v ← deref (root_ d) p;
    root ← push (root_ d) p y;
    let m := if is_array v then blocks d else forget p (blocks d) in
    let '(_, m, n) := touch p moves m (fresh d) in
    Ok (mk root m n)
  else Undefined.

(** Any use that only reads, as [asString] and [dump]. *)
Definition read (x : proxy) (d : doc) : outcome ptr :=
  if valid x d then deref (root_ d) (path_of x) else Undefined.

Inductive op : Type :=
| Subscript (moves : bool) (x : proxy) (s : subscript)
| Assign (x : proxy) (o : operand)
| Push (moves : bool) (x : proxy) (y : ptr).

Definition exec (a : op) (d : doc) : outcome doc :=
  match a with
  | Subscript moves x s => '(_, d) ← subscript_of moves x s d; Ok d
  | Assign x o => assign_to x o d
  | Push moves x y => push_to moves x y d
  end.

Fixpoint exec_all (l : list op) (d : doc) : outcome doc :=
  match l with
  | [] => Ok d
  | a :: l => d ← exec a d; exec_all l d
  end.

(** ** When storage goes away *)

(** An operation at the slot [p]: it replaces the value there, or inserts into it. *)
Definition slot_of (a : op) : path := match a with Subscript _ x _ | Assign x _ | Push _ x _ => path_of x end.

Definition replaces (a : op) (v : ptr) : bool :=
  match a with
  | Subscript _ _ s => negb (container_ok v s)
  | Assign _ _ => true
  | Push _ _ _ => negb (is_array v)
  end.

Definition relocates (a : op) (v : ptr) : bool :=
  match a with
  | Subscript moves _ s => moves && appends v s
  | Assign _ _ => false
  | Push moves _ _ => moves
  end.

(** Whether an operation takes the storage of container [q] away. *)
Definition disturbs (q : path) (a : op) (d : doc) : bool :=
  let p := slot_of a in
  let v := default None (load (root_ d) p) in
  if replaces a v then bool_decide (p `prefix_of` q) else relocates a v && bool_decide (p = q).

Fixpoint undisturbed (q : path) (l : list op) (d : doc) : bool :=
  match l with
  | [] => true
  | a :: l => negb (disturbs q a d) && match exec a d with Ok d => undisturbed q l d | _ => true end
  end.

(** Numbers for storage are used once. *)
Definition Inv (d : doc) : Prop := forall q b, blocks d !! q = Some b -> b < fresh d.

(** What an operation does to the storage of containers. *)
Definition blocks_after (a : op) (d : doc) (v : ptr) : gmap path nat * nat :=
  let p := slot_of a in
  let m := if replaces a v then forget p (blocks d) else blocks d in
  match a with
  | Assign _ _ => (m, fresh d)
  | _ => let '(_, m, n) := touch p (relocates a v) m (fresh d) in (m, n)
  end.

Lemma exec_blocks a d d' :
  exec a d = Ok d' ->
  exists v, load (root_ d) (slot_of a) = Some v /\ (blocks d', fresh d') = blocks_after a d v.
Proof.
  assert (forall p v, deref (root_ d) p = Ok v -> load (root_ d) p = Some v) as Hd.
  { intros p v. unfold deref. by destruct (load _ p) as [v'|]; intros [= <-]. }
  unfold blocks_after. destruct a as [moves x s|x o|moves x y]; cbn [exec slot_of replaces relocates].
  - intros ([z d1] & H & [= <-])%bind_ok. unfold subscript_of in H. destruct (valid x d); [|done].
    apply bind_ok in H as (v & Hv & ([root q] & _ & H)%bind_ok). exists v. split; [by apply Hd|].
    destruct (container_ok v s); cbn [negb]; destruct (touch _ _ _ _) as [[b m] n]; by injection H as <- <-.
  - unfold assign_to. destruct (valid x d); [|done]. intros (root & H & [= <-])%bind_ok.
    destruct (load (root_ d) (path_of x)) as [v|] eqn:E; [by exists v|].
    exfalso. unfold operator_assign, assignString, assignNumber, assignBool, assignNull, assignObject, assignArray, assignPtr, assign, deref in H.
    rewrite E in H. by destruct o.
  - unfold push_to. destruct (valid x d); [|done]. intros (v & Hv & (root & _ & H)%bind_ok)%bind_ok. exists v. split; [by apply Hd|].
    destruct (is_array v); cbn [negb]; destruct (touch _ _ _ _) as [[b m] n]; by injection H as <-.
Qed.

Lemma lookup_forget p q m b : forget p m !! q = Some b <-> m !! q = Some b /\ ~ p `prefix_of` q.
Proof. unfold forget. by rewrite map_lookup_filter_Some. Qed.

(** Storage after [touch]: a number that was used before is kept where nothing moved. *)
Lemma lookup_touch p moved m n b m' n' q c :
  touch p moved m n = (b, m', n') -> c < n ->
  (m' !! q = Some c <-> m !! q = Some c /\ ~ (moved = true /\ p = q)) /\ n <= n' /\ (forall q' c', m' !! q' = Some c' -> m !! q' = Some c' \/ c' < n').
Proof.
  unfold touch. intros H Hc. assert (m' = m /\ n' = n /\ moved = false \/ m' = <[p := n]> m /\ n' = S n /\ (moved = true \/ m !! p = None)) as [(-> & -> & ->)|(-> & -> & Hm)].
  { destruct (m !! p), moved; injection H as <- <- <-; auto. }
  - split; [split; [intros ?; split; [done|]; by intros [? _]|by intros [? _]]|auto].
  - split; [|split; [lia|]].
    + rewrite lookup_insert_Some. split.
      * intros [[_ ?]|[Hne ?]]; [lia|]. split; [done|]. by intros [_ ?].
      * intros [Hq Hn]. right. split; [|done]. intros <-. destruct Hm as [Hm|Hm]; [by apply Hn|congruence].
    + intros q' c' [[_ <-]|[_ ?]]%lookup_insert_Some; auto.
Qed.

Lemma disturbs_cases (A : Prop) (rep mv : bool) (p q : path) :
  (A /\ (rep = true -> ~ p `prefix_of` q)) /\ ~ (mv = true /\ p = q) <->
  A /\ (if rep then bool_decide (p `prefix_of` q) else mv && bool_decide (p = q)) = false.
Proof.
  destruct rep.
  - rewrite bool_decide_eq_false. split; [intros [[? H] _]; auto|]. intros [? H]. split; [done|]. intros [_ ->]. by apply H.
  - destruct mv; cbn; [rewrite bool_decide_eq_false|]; intuition discriminate.
Qed.

Lemma lookup_replaced (rep : bool) p m q (b : nat) :
  (if rep then forget p m else m) !! q = Some b <-> m !! q = Some b /\ (rep = true -> ~ p `prefix_of` q).
Proof.
  destruct rep; [rewrite lookup_forget|].
  - split; intros [? H]; (split; [done|]); [by intros _|by apply H].
  - split; [intros ?; by split|by intros [? _]].
Qed.

(** One operation: the storage of a container stays exactly when it is not disturbed,
    and storage that is gone does not come back. *)
Lemma exec_storage a d d' q b :
  Inv d -> exec a d = Ok d' -> b < fresh d ->
  (blocks d' !! q = Some b <-> blocks d !! q = Some b /\ disturbs q a d = false) /\ fresh d <= fresh d' /\ Inv d'.
Proof.
  intros Hinv (v & Hv & Hb)%exec_blocks Hlt. unfold disturbs. rewrite Hv. cbn [default from_option id].
  rewrite <- disturbs_cases, <- lookup_replaced. unfold blocks_after in Hb.
  set (m := if replaces a v then forget (slot_of a) (blocks d) else blocks d) in *.
  assert (forall q' c', m !! q' = Some c' -> c' < fresh d) as Hm by (intros q' c' [? _]%lookup_replaced; by eapply Hinv).
  assert (exists c m' n', (c, m', n') = touch (slot_of a) (relocates a v) m (fresh d) /\ (blocks d', fresh d') = (m', n') \/
    relocates a v = false /\ (blocks d', fresh d') = (m, fresh d)) as (c & m' & n' & [[Ht Hb']|[Hr Hb']]).
  { destruct a; [|by exists 0, m, 0; right|]; destruct (touch _ _ _ _) as [[c m'] n']; exists c, m', n'; by left. }
  all: injection Hb' as Hb1 Hf1; unfold Inv; rewrite Hb1, Hf1.
  - symmetry in Ht. destruct (lookup_touch _ _ _ _ _ _ _ q b Ht Hlt) as (H1 & H2 & H3). split; [done|]. split; [done|].
    intros q' c' Hc. destruct (H3 _ _ Hc) as [?%Hm|?]; lia.
  - rewrite Hr. split; [split; [intros ?; split; [done|]; by intros [? _]|by intros [? _]]|]. by split.
Qed.

(** ** Slots stay *)

Lemma child_set_child_ne v i j x : i <> j -> child (set_child v i x) j = child v j.
Proof.
  intros Hne. destruct v as [[ms|es| | | |]|]; cbn; try done; [by rewrite list_lookup_alter_ne|by apply list_lookup_insert_ne].
Qed.

(** Changing a slot so that what was below it still is keeps all slots. *)
Lemma load_store_grows p : forall v c c' q,
  load v p = Some c -> (forall r, is_Some (load c r) -> is_Some (load c' r)) ->
  is_Some (load v q) -> is_Some (load (store v p c') q).
Proof.
  induction p as [|i p IH]; intros v c c' q; cbn; [intros [= ->]; auto|].
  destruct (child v i) as [w|] eqn:Hi; cbn; [|done]. intros Hw Hg. destruct q as [|j q]; [done|]. cbn.
  destruct (decide (i = j)) as [<-|Hne].
  - rewrite Hi, (child_set_child _ _ _ _ Hi). cbn. by apply (IH w c).
  - by rewrite child_set_child_ne.
Qed.

(** Replacing a slot keeps the slots that are not below it. *)
Lemma load_store_replaces p : forall v c c' q i,
  load v p = Some c -> ~ p `prefix_of` q -> is_Some (load v (q ++ [i])) -> is_Some (load (store v p c') (q ++ [i])).
Proof.
  induction p as [|j p IH]; intros v c c' q i; cbn; [intros _ Hn; destruct Hn; apply prefix_nil|].
  destruct (child v j) as [w|] eqn:Hj; cbn; [|done]. intros Hw Hn. destruct q as [|k q]; cbn.
  - destruct (decide (j = i)) as [<-|Hne]; [by rewrite (child_set_child _ _ _ _ Hj)|by rewrite child_set_child_ne].
  - destruct (decide (j = k)) as [<-|Hne]; [|by rewrite child_set_child_ne].
    rewrite Hj, (child_set_child _ _ _ _ Hj). cbn. apply (IH w c); [done|]. intros Hp. by apply Hn, prefix_cons.
Qed.

(** A value whose children stay, up to null pointers that become JSON nulls. *)
Lemma load_fill_null e r : is_Some (load e r) -> is_Some (load (fill_null e) r).
Proof. destruct e as [j|]; [done|]. destruct r; [done|]. by intros [? ?]. Qed.

Lemma children_grow v v' :
  (forall j e, child v j = Some e -> child v' j = Some e \/ child v' j = Some (fill_null e)) ->
  forall r, is_Some (load v r) -> is_Some (load v' r).
Proof.
  intros H [|j r]; [done|]. cbn. destruct (child v j) as [e|] eqn:E; [|by intros [? ?]]. cbn. intros Hl.
  destruct (H j e E) as [-> | ->]; cbn; [done|by apply load_fill_null].
Qed.

Lemma getRef_keeps k ms : forall ms' i j m,
  getRefForKeyCreate ms k = (ms', i) -> ms !! j = Some m -> ms' !! j = Some m.
Proof.
  induction ms as [|m0 ms IH]; intros ms' i j m; cbn [getRefForKeyCreate]; [done|]. case_decide; [by intros [= <- <-]|].
  destruct (getRefForKeyCreate ms k) as [ms1 i1]. intros [= <- <-]. destruct j as [|j]; [done|]. cbn. by apply (IH ms1 i1).
Qed.

Lemma getElement_keeps es idx es' j e :
  getElementRefCreate es idx = Ok es' -> es !! j = Some e -> es' !! j = Some e \/ es' !! j = Some (fill_null e).
Proof.
  intros (es1 & Hes & H)%bind_ok He. destruct (es1 !! Z.to_nat idx) as [e1|] eqn:E1; [|done]. injection H as <-.
  assert (es1 !! j = Some e \/ es1 !! j = Some (fill_null e)) as Hj.
  { pose proof (lookup_lt_Some _ _ _ He) as Hlt. pose proof (lookup_lt_Some _ _ _ E1) as Hlt1.
    destruct (Z.leb_spec (Zlen es) idx); [|injection Hes as <-; by left]. cbv zeta in Hes. destruct (wadd idx 1 <=? max_elements)%Z; [|done].
    injection Hes as <-. rewrite length_fmap, length_resize in Hlt1. unfold Zlen in *.
    right. rewrite list_lookup_fmap, lookup_resize, He by lia. done. }
  destruct (decide (j = Z.to_nat idx)) as [->|Hne]; [|by rewrite list_lookup_insert_ne by congruence].
  rewrite list_lookup_insert_eq by (by eapply lookup_lt_Some). right. rewrite E1 in Hj.
  by destruct e, Hj as [[= ->]|[= ->]].
Qed.

Lemma subscript_grows v s v' i :
  container_ok v s = true -> subscript_slot v s = Ok (v', i) -> forall r, is_Some (load v r) -> is_Some (load v' r).
Proof.
  intros Hok Hs. apply children_grow. intros j e. destruct s as [k|idx], v as [[]|]; try done; cbn [subscript_slot object_members array_elements] in Hs.
  - destruct (getRefForKeyCreate members_ k) as [ms i1] eqn:Hg. injection Hs as <- <-. cbn.
    intros (m & Hm & ->)%fmap_Some_1. apply (getRef_keeps _ _ _ _ _ _ Hg) in Hm.
    destruct (decide (i1 = j)) as [->|Hne]; [right; by rewrite list_lookup_alter_eq, Hm|left; by rewrite list_lookup_alter_ne, Hm].
  - apply bind_ok in Hs as (es & Hg & [= <- <-]). cbn. by apply getElement_keeps with (idx := idx).
Qed.

Lemma exec_root a d d' v :
  exec a d = Ok d' -> load (root_ d) (slot_of a) = Some v ->
  exists v', root_ d' = store (root_ d) (slot_of a) v' /\ (replaces a v = false -> forall r, is_Some (load v r) -> is_Some (load v' r)).
Proof.
  destruct a as [moves x s|x o|moves x y]; cbn [exec slot_of replaces]; intros H Hl.
  - apply bind_ok in H as ([z d1] & H & [= <-]). unfold subscript_of in H. destruct (valid x d); [|done].
    rewrite (deref_load _ _ _ Hl), (at_subscript_slot _ _ _ _ Hl) in H. run_binds in H.
    destruct (subscript_slot v s) as [[v' i]| | |] eqn:Hs; run_binds in H; try done.
    destruct (touch _ _ _ _) as [[b m] n]. injection H as <- <-. exists v'. split; [done|]. intros Hok%negb_false_iff. by eapply subscript_grows.
  - unfold assign_to in H. destruct (valid x d); [|done]. apply bind_ok in H as (root & H & [= <-]).
    rewrite (operator_assign_stores _ _ _ _ Hl) in H. injection H as <-. eexists. by split.
  - unfold push_to in H. destruct (valid x d); [|done]. rewrite (deref_load _ _ _ Hl), (push_appends _ _ _ _ Hl) in H. run_binds in H.
    destruct (touch _ _ _ _) as [[b m] n]. injection H as <-. eexists. split; [done|]. intros Ha. apply children_grow.
    destruct v as [[]|]; try done. cbn. intros j e He. left. by apply lookup_app_l_Some.
Qed.

Lemma exec_slot a d d' q i :
  exec a d = Ok d' -> disturbs q a d = false -> is_Some (load (root_ d) (q ++ [i])) -> is_Some (load (root_ d') (q ++ [i])).
Proof.
  intros He Hd. destruct (exec_blocks _ _ _ He) as (v & Hv & _). destruct (exec_root _ _ _ _ He Hv) as (v' & -> & Hg).
  unfold disturbs in Hd. rewrite Hv in Hd. cbn [default from_option id] in Hd. destruct (replaces a v).
  - apply load_store_replaces with (c := v); [done|]. by apply bool_decide_eq_false in Hd.
  - apply load_store_grows with (c := v); auto.
Qed.

(** A proxy that has gone stays unusable. *)
Lemma gone l : forall d d' q b,
  Inv d -> b < fresh d -> blocks d !! q <> Some b -> exec_all l d = Ok d' -> blocks d' !! q <> Some b.
Proof.
  induction l as [|a l IH]; intros d d' q b Hi Hb Hn; cbn [exec_all]; [by intros [= <-]|].
  intros (d1 & He & Hl)%bind_ok. destruct (exec_storage _ _ _ q b Hi He Hb) as (Hiff & Hle & Hi1).
  apply (IH d1); [done|lia| |done]. by intros [? _]%Hiff.
Qed.

(** C28: a proxy obtained by a subscript can be used as long as the storage it points into
    is not disturbed, and no longer.  Over any operations through any proxies: if none
    of them inserted into the proxy's container so that its elements moved, and none
    replaced a value above it, the proxy still reads its slot; after one that did,
    every use is undefined. *)
Theorem kept_proxy l d d' q i b :
  Inv d -> blocks d !! q = Some b -> is_Some (load (root_ d) (q ++ [i])) -> exec_all l d = Ok d' ->
  if undisturbed q l d then exists v, read (Slot q i b) d' = Ok v else read (Slot q i b) d' = Undefined.
Proof.
  revert d. induction l as [|a l IH]; intros d Hi Hb Hs; cbn [exec_all undisturbed].
  - intros [= <-]. unfold read. cbn [valid path_of]. rewrite bool_decide_eq_true_2 by done. destruct Hs as [v Hv].
    exists v. by apply deref_load.
  - intros (d1 & He & Hl)%bind_ok. rewrite He. destruct (exec_storage _ _ _ q b Hi He (Hi _ _ Hb)) as (Hiff & Hle & Hi1).
    destruct (disturbs q a d) eqn:Hd; cbn [negb andb].
    + unfold read. cbn [valid]. rewrite bool_decide_eq_false_2; [done|]. apply (gone l d1); [done| | |done].
      * pose proof (Hi _ _ Hb). lia.
      * by intros [_ ?]%Hiff.
    + apply IH; [done|by apply Hiff|by eapply exec_slot|done].
Qed.

(** [JsonValue root; auto u = root["u"]; auto id = u["id"];] *)
Definition kept_start : doc := mk JsonValue.new ∅ 0.
Definition kept_doc : doc :=
  match '(u, d) ← subscript_of false Root (Key (lit "u")) kept_start; subscript_of false u (Key (lit "id")) d with
  | Ok (_, d) => d
  | _ => kept_start
  end.

(** Then [root["x"]], which moves the members of the root: [id] can be used, [u] not. *)
Lemma kept_proxy_witness :
  (exists d', exec_all [Subscript true Root (Key (lit "x")); Assign (Slot [0] 0 1) (AnInt 7)] kept_doc = Ok d' /\
     exists v, read (Slot [0] 0 1) d' = Ok v) /\
  (exists d', exec_all [Subscript true Root (Key (lit "x"))] kept_doc = Ok d' /\ read (Slot [] 0 0) d' = Undefined).
Proof.
  assert (blocks kept_doc = {[ [] := 0; [0] := 1 ]} /\ fresh kept_doc = 2) as [Hb Hf] by done.
  assert (Inv kept_doc) as Hi.
  { intros q c. rewrite Hb, Hf. intros [[_ <-]|[_ [_ <-]%lookup_singleton_Some]]%lookup_insert_Some; lia. }
  split.
  - eexists. split; [by vm_compute|].
    apply (kept_proxy [Subscript true Root (Key (lit "x")); Assign (Slot [0] 0 1) (AnInt 7)] kept_doc _ [0] 0 1);
      [done|by vm_compute|by eexists|by vm_compute].
  - eexists. split; [by vm_compute|].
    apply (kept_proxy [Subscript true Root (Key (lit "x"))] kept_doc _ [] 0 0); [done|by vm_compute|by eexists|by vm_compute].
Defined.

End JsonProxy.
