(* ===== verification/StdString.v ===== *)
(** * std::string and string streams

    The operations of <string> and <sstream> the sources use, on lists of
    characters, with the lemmas the clients share: searching, substrings with
    their range check, [getline] and word extraction.  They model the standard
    library as it is documented; positions are [size_t] values wherever the
    sources compute with them. *)

From S2P Require Import Prelude.

Module StdString.

(** [npos] as a [find] result is [None]; otherwise the position found. *)
Definition starts_with (n d : str) : bool := bool_decide (take (length n) d = n).

Fixpoint find (n d : str) : option nat :=
  if starts_with n d then Some 0
  else match d with [] => None | _ :: d => S <$> find n d end.

Fixpoint find_char (c : ascii) (d : str) : option nat :=
  match d with
  | [] => None
  | x :: d => if decide (x = c) then Some 0 else S <$> find_char c d
  end.

(** [d.substr(pos, n)] *)
Definition substr (d : str) (pos n : Z) : outcome str :=
  if (Zlen d <? pos)%Z then Throw OutOfRange
  else Ok (take (Z.to_nat (n `min` (Zlen d - pos))) (drop (Z.to_nat pos) d)).

(** [d.substr(pos)] *)
Definition substr_from (d : str) (pos : Z) : outcome str := substr d pos SIZE_MAX.

(** [d.erase(0, d.find_first_not_of(c))]; when every character is [c] the count
    is [npos] and everything goes. *)
Fixpoint erase_leading (c : ascii) (d : str) : str :=
  match d with
  | [] => []
  | x :: d' => if decide (x = c) then erase_leading c d' else d
  end.

(** The lines successive calls of [std::getline] yield: a last line without a
    newline counts, an empty rest does not. *)
Fixpoint getlines (d : str) : list str :=
  match d with
  | [] => []
  | c :: d =>
      if decide (c = newline) then [] :: getlines d
      else match getlines d with
           | [] => [[c]]
           | l :: ls => (c :: l) :: ls
           end
  end.

(** The same with another delimiter, [std::getline(stream, token, delim)]. *)
Fixpoint gettokens (delim : ascii) (d : str) : list str :=
  match d with
  | [] => []
  | c :: d =>
      if decide (c = delim) then [] :: gettokens delim d
      else match gettokens delim d with
           | [] => [[c]]
           | l :: ls => (c :: l) :: ls
           end
  end.

(** [stream >> word]: leading white space is skipped, the word ends before the
    next white space.  An exhausted stream leaves the word empty. *)
Fixpoint skip_space (d : str) : str :=
  match d with
  | [] => []
  | c :: d' => if isspace c then skip_space d' else d
  end.

Fixpoint span_word (d : str) : str * str :=
  match d with
  | [] => ([], [])
  | c :: d' => if isspace c then ([], d) else let '(w, r) := span_word d' in (c :: w, r)
  end.

Definition extract_word (d : str) : str * str := span_word (skip_space d).

(** ** Lemmas *)

Lemma find_char_notin c d : c ∉ d -> find_char c d = None.
Proof.
  induction d as [|x d IH]; cbn; [done|]. intros [Hx Hd]%not_elem_of_cons.
  rewrite decide_False by done. by rewrite IH.
Qed.

Lemma find_char_app c a r : c ∉ a -> find_char c (a ++ c :: r) = Some (length a).
Proof.
  induction a as [|x a IH]; cbn; [by rewrite decide_True|]. intros [Hx Ha]%not_elem_of_cons.
  rewrite decide_False by done. by rewrite IH.
Qed.

Lemma find_char_lt c d i : find_char c d = Some i -> i < length d.
Proof.
  revert i. induction d as [|x d IH]; cbn; intros i; [done|]. case_decide; [intros [= <-]; lia|].
  intros (j & Hj%IH & ->)%fmap_Some. lia.
Qed.

Lemma starts_with_app n r : starts_with n (n ++ r) = true.
Proof. apply bool_decide_eq_true. apply take_app_length. Qed.

Lemma starts_with_iff n d : starts_with n d = true <-> exists r, d = n ++ r.
Proof.
  split; [|intros [r ->]; apply starts_with_app].
  intros H%bool_decide_eq_true. exists (drop (length n) d). rewrite <- H at 1. by rewrite take_drop.
Qed.

(** [find] returns the first occurrence. *)
Lemma find_Some n d i :
  find n d = Some i <->
  (exists r, drop i d = n ++ r) /\ i <= length d /\ (forall j, j < i -> starts_with n (drop j d) = false).
Proof.
  revert i. induction d as [|x d IH]; intros i; cbn [find].
  - destruct (starts_with n []) eqn:E.
    + split.
      * intros [= <-]. apply starts_with_iff in E as [r Hr]. rewrite drop_0. split; [eauto|]. split; [done|lia].
      * intros (_ & Hi & _). cbn in Hi. f_equal. lia.
    + split; [done|]. intros ([r Hr] & _ & _). rewrite drop_nil in Hr.
      rewrite Hr, starts_with_app in E. done.
  - destruct (starts_with n (x :: d)) eqn:E.
    + split.
      * intros [= <-]. apply starts_with_iff in E as [r Hr]. rewrite drop_0. split; [eauto|]. split; [lia|lia].
      * intros (_ & _ & H). destruct i as [|i]; [done|]. specialize (H 0 ltac:(lia)). rewrite drop_0 in H. congruence.
    + split.
      * intros (i' & (H1 & H2 & H3)%IH & ->)%fmap_Some. split; [done|]. split; [cbn; lia|].
        intros [|j] Hj; [done|]. apply H3. lia.
      * intros ([r Hr] & Hi & H). destruct i as [|i].
        { rewrite drop_0 in Hr. rewrite Hr, starts_with_app in E. done. }
        rewrite (proj2 (IH i)); [done|]. split; [eauto|]. split; [cbn in Hi; lia|].
        intros j Hj. apply (H (S j)). lia.
Qed.

Lemma find_bound n d i : find n d = Some i -> i + length n <= length d.
Proof.
  intros ([r Hr] & Hi & _)%find_Some. apply (f_equal length) in Hr.
  rewrite length_drop, length_app in Hr. lia.
Qed.

(** A text that is cut before the end of the first occurrence has none. *)
Lemma find_take n d i k : find n d = Some i -> k < i + length n -> find n (take k d) = None.
Proof.
  intros (_ & _ & Hmin)%find_Some Hk. destruct (find n (take k d)) as [j|] eqn:Hj; [|done].
  pose proof (find_bound _ _ _ Hj) as Hb. rewrite length_take in Hb. apply find_Some in Hj as ([r Hr] & _ & _).
  assert (starts_with n (drop j d) = false) as Hf by (apply Hmin; lia).
  rewrite skipn_firstn_comm in Hr. rewrite <- (take_drop (k - j) (drop j d)), Hr, <- app_assoc, starts_with_app in Hf. done.
Qed.

(** An occurrence of a needle is an occurrence of its prefixes. *)
Lemma find_prefix n m d i : find (n ++ m) d = Some i -> exists j, find n d = Some j /\ j <= i.
Proof.
  revert i. induction d as [|x d IH]; intros i; cbn [find].
  - destruct (starts_with (n ++ m) []) eqn:E; [|done].
    apply starts_with_iff in E as [r Hr]. destruct n; [|done]. intros [= <-]. cbn. eauto.
  - destruct (starts_with (n ++ m) (x :: d)) eqn:E.
    + apply starts_with_iff in E as [r Hr]. intros [= <-]. rewrite <- app_assoc in Hr.
      rewrite Hr, starts_with_app. eauto.
    + intros (i' & (j & Hj & Hle)%IH & ->)%fmap_Some. destruct (starts_with n (x :: d)); [exists 0; split; [done|lia]|].
      rewrite Hj. exists (S j). split; [done|lia].
Qed.

Lemma substr_ok d pos n : (0 <= pos <= Zlen d)%Z ->
  substr d pos n = Ok (take (Z.to_nat (n `min` (Zlen d - pos))) (drop (Z.to_nat pos) d)).
Proof. intros. unfold substr. by rewrite (proj2 (Z.ltb_ge _ _)) by lia. Qed.

Lemma substr_length d pos n b : substr d pos n = Ok b -> (Zlen b <= Zlen d)%Z.
Proof.
  unfold substr. case_match; [done|]. intros [= <-]. unfold Zlen. rewrite length_take, length_drop. lia.
Qed.

(** The substring that starts after a prefix. *)
Lemma substr_app_take a b c n :
  n = Zlen b -> substr (a ++ b ++ c) (Zlen a) n = Ok b.
Proof.
  intros ->. rewrite substr_ok by (rewrite !Zlen_app; pose proof (Zlen_nonneg a);
    pose proof (Zlen_nonneg b); pose proof (Zlen_nonneg c); lia).
  rewrite !Zlen_app. pose proof (Zlen_nonneg c). rewrite Z.min_l by lia.
  unfold Zlen. by rewrite !Nat2Z.id, drop_app_length, take_app_length.
Qed.

Lemma substr_app_rest a b n : (Zlen b <= n)%Z -> substr (a ++ b) (Zlen a) n = Ok b.
Proof.
  intros Hn. rewrite substr_ok by (rewrite Zlen_app; pose proof (Zlen_nonneg a); pose proof (Zlen_nonneg b); lia).
  rewrite Zlen_app, Z.min_r by lia. replace (Zlen a + Zlen b - Zlen a)%Z with (Zlen b) by lia.
  unfold Zlen. by rewrite !Nat2Z.id, drop_app_length, take_ge.
Qed.

Lemma getlines_app l d : newline ∉ l -> getlines (l ++ newline :: d) = l :: getlines d.
Proof.
  induction l as [|c l IH]; cbn; [by rewrite decide_True|]. intros [Hc Hl]%not_elem_of_cons.
  rewrite decide_False by done. by rewrite IH.
Qed.

Lemma getlines_last l : newline ∉ l -> l <> [] -> getlines l = [l].
Proof.
  induction l as [|c l IH]; [done|]. cbn. intros [Hc Hl]%not_elem_of_cons _.
  rewrite decide_False by done. destruct l; [done|]. by rewrite IH.
Qed.

Lemma span_word_app w r :
  Forall (fun c => isspace c = false) w -> match r with [] => True | c :: _ => isspace c = true end ->
  span_word (w ++ r) = (w, r).
Proof.
  intros Hw Hr. induction Hw as [|c w Hc Hw IH]; cbn.
  - destruct r as [|c r]; cbn; [done|]. by rewrite Hr.
  - by rewrite Hc, IH.
Qed.

(** Extracting a word that one space precedes, or none. *)
Lemma extract_word_app w r :
  w <> [] -> Forall (fun c => isspace c = false) w -> match r with [] => True | c :: _ => isspace c = true end ->
  extract_word (w ++ r) = (w, r) /\ extract_word (lit " " ++ w ++ r) = (w, r).
Proof.
  intros Hne Hw Hr. destruct w as [|c w]; [done|]. inversion Hw as [|?? Hc Hw']; subst.
  unfold extract_word. change (lit " " ++ ?x) with (" "%char :: x). cbn [skip_space app]. rewrite Hc.
  change (isspace " "%char) with true. cbn match.
  change (c :: w ++ r) with ((c :: w) ++ r). by rewrite span_word_app.
Qed.

End StdString.
