(* ===== verification/Http.v ===== *)
(** * HTTP messages

    Models src/include/protocol/Http.hpp: the request message, its
    serialisation and its parser.  The header map is a finite map; the order in
    which the [unordered_map] is traversed is an argument of the serialiser,
    any permutation of the entries.  The enum members of a message that was
    only default-constructed are indeterminate ([None]); reading one is
    undefined.  The theorems: the parser always returns and says when it
    accepts, what it reads from a message given line by line, that parsing
    inverts serialising, what happens to a message without headers, and what is
    made of one that has arrived in part. *)

From S2P Require Import Prelude StdString.
Import StdString.

Module Http.

Inductive HttpMethod : Type :=
| GET | POST | PUT | DELETE | HEAD | OPTIONS | TRACE | CONNECT | PATCH
| UNKNOWN_METHOD.

Inductive HttpVersion : Type := HTTP_1_0 | HTTP_1_1 | HTTP_2_0 | UNKNOWN_VERSION.

Record HttpMessage : Type := mk {
  method_ : option HttpMethod;
  version_ : option HttpVersion;
  url_ : str;
  headers_ : gmap str str;
  body_ : str
}.

(** [HttpMessage m;] leaves the two enum members indeterminate. *)
Definition default_message : HttpMessage := mk None None [] ∅ [].

Definition set_method (m : HttpMessage) (x : HttpMethod) : HttpMessage :=
  mk (Some x) (version_ m) (url_ m) (headers_ m) (body_ m).
Definition set_version (m : HttpMessage) (v : HttpVersion) : HttpMessage :=
  mk (method_ m) (Some v) (url_ m) (headers_ m) (body_ m).
Definition set_url (m : HttpMessage) (u : str) : HttpMessage :=
  mk (method_ m) (version_ m) u (headers_ m) (body_ m).
Definition set_headers (m : HttpMessage) (h : gmap str str) : HttpMessage :=
  mk (method_ m) (version_ m) (url_ m) h (body_ m).
Definition set_body (m : HttpMessage) (b : str) : HttpMessage :=
  mk (method_ m) (version_ m) (url_ m) (headers_ m) b.
Definition add_header (m : HttpMessage) (k v : str) : HttpMessage :=
  set_headers m (<[k := v]> (headers_ m)).

Definition line_sep : str := [creturn; newline].

Definition parse_method (s : str) : HttpMethod :=
  if decide (s = lit "GET") then GET
  else if decide (s = lit "POST") then POST
  else if decide (s = lit "PUT") then PUT
  else if decide (s = lit "DELETE") then DELETE
  else if decide (s = lit "HEAD") then HEAD
  else if decide (s = lit "OPTIONS") then OPTIONS
  else if decide (s = lit "TRACE") then TRACE
  else if decide (s = lit "CONNECT") then CONNECT
  else if decide (s = lit "PATCH") then PATCH
  else UNKNOWN_METHOD.

Definition parse_version (s : str) : HttpVersion :=
  if decide (s = lit "HTTP/1.0") then HTTP_1_0
  else if decide (s = lit "HTTP/1.1") then HTTP_1_1
  else if decide (s = lit "HTTP/2.0") then HTTP_2_0
  else UNKNOWN_VERSION.

Definition version_to_str (v : HttpVersion) : str :=
  match v with
  | HTTP_1_0 => lit "HTTP/1.0"
  | HTTP_1_1 => lit "HTTP/1.1"
  | HTTP_2_0 => lit "HTTP/2.0"
  | UNKNOWN_VERSION => lit "HTTP/1.1"
  end.

Definition method_to_str (m : HttpMethod) : str :=
  match m with
  | GET => lit "GET"
  | POST => lit "POST"
  | PUT => lit "PUT"
  | DELETE => lit "DELETE"
  | HEAD => lit "HEAD"
  | OPTIONS => lit "OPTIONS"
  | TRACE => lit "TRACE"
  | CONNECT => lit "CONNECT"
  | PATCH => lit "PATCH"
  | UNKNOWN_METHOD => lit "UNKNOWN"
  end.

(** Reading a member that may be indeterminate. *)
Definition read_member {A} (x : option A) : outcome A :=
  match x with Some a => Ok a | None => Undefined end.

(** [serialize_to_string]; [entries] is the order in which the loop visits the
    header map. *)
Definition serialize_to_string (entries : list (str * str)) (m : HttpMessage) : outcome str :=
  meth ← read_member (method_ m);
  ver ← read_member (version_ m);
  Ok (method_to_str meth ++ lit " " ++ url_ m ++ lit " " ++ version_to_str ver ++ line_sep
      ++ concat ((fun '(k, v) => k ++ lit ": " ++ v ++ line_sep) <$> entries)
      ++ line_sep ++ body_ m).

(** [if (!line.empty() && line.back() == '\r') line.pop_back();] *)
Definition pop_cr (line : str) : str :=
  match last line with
  | Some c => if decide (c = creturn) then removelast line else line
  | None => line
  end.

(** One iteration of the header loop. *)
Definition header_line (h : gmap str str) (line : str) : outcome (gmap str str) :=
  let line := pop_cr line in
  match find_char ":" line with
  | None => Ok h
  | Some colon =>
      key ← substr line 0 (Z.of_nat colon);
      value ← substr_from line (wadd (Z.of_nat colon) 1);
      Ok (<[key := erase_leading " " value]> h)
  end.

Fixpoint headers_loop (lines : list str) (h : gmap str str) : outcome (gmap str str) :=
  match lines with
  | [] => Ok h
  | line :: lines => h ← header_line h line; headers_loop lines h
  end.

(** [ss >> method_s >> url_s >> version_s] and the three assignments. *)
Definition start_line_fields (m : HttpMessage) (start_line : str) : HttpMessage :=
  let '(method_s, r) := extract_word start_line in
  let '(url_s, r) := extract_word r in
  let '(version_s, _) := extract_word r in
  mk (Some (parse_method method_s)) (Some (parse_version version_s)) url_s (headers_ m) (body_ m).

(** [parse_from_string]: the result and the message afterwards. *)
Definition parse_from_string (m : HttpMessage) (data : str) : outcome (bool * HttpMessage) :=
  if (PTRDIFF_MAX <? Zlen data)%Z then Throw LengthError
  else match find line_sep data with
  | None => Ok (false, m)
  | Some pos =>
      start_line ← substr data 0 (Z.of_nat pos);
      let m := start_line_fields m start_line in
      let header_start := wadd (Z.of_nat pos) (Zlen line_sep) in
      match find (line_sep ++ line_sep) data with
      | None => Ok (false, m)
      | Some header_end =>
          header_block ← substr data header_start (wsub (Z.of_nat header_end) header_start);
          h ← headers_loop (getlines header_block) ∅;
          body ← substr_from data (wadd (Z.of_nat header_end) (wmul (Zlen line_sep) 2));
          Ok (true, set_body (set_headers m h) body)
      end
  end.

(** ** Specification *)

(** The header a line stands for: the text before the first colon, and the text
    after it without leading spaces. *)
Definition header_of (line : str) : option (str * str) :=
  i ← find_char ":" line; Some (take i line, erase_leading " " (drop (S i) line)).

(** Adds the header of a line, replacing an earlier one with the same key. *)
Definition add_line (h : gmap str str) (line : str) : gmap str str :=
  match header_of (pop_cr line) with
  | Some (k, v) => <[k := v]> h
  | None => h
  end.

Definition headers_of (lines : list str) : gmap str str := foldl add_line ∅ lines.

(** A message as its lines. *)
Definition render (start : str) (lines : list str) (body : str) : str :=
  start ++ line_sep ++ concat ((fun l => l ++ line_sep) <$> lines) ++ line_sep ++ body.

(** A line that its separator ends: no newline in it, no carriage return at its
    end, and not empty. *)
Definition line_ok (l : str) : Prop := (newline ∉ l) /\ l <> [] /\ last l <> Some creturn.

(** ** The header loop *)

Lemma header_line_add h line :
  (Zlen line <= PTRDIFF_MAX)%Z -> header_line h line = Ok (add_line h line).
Proof.
  intros Hlen. unfold header_line, add_line, header_of. cbv zeta.
  assert (Zlen (pop_cr line) <= PTRDIFF_MAX)%Z as Hp.
  { unfold pop_cr. destruct (last line) eqn:E; [|done]. case_decide; [|done].
    destruct (exists_last (l := line) ltac:(by intros ->)) as (l' & x & ->).
    rewrite removelast_last. rewrite Zlen_app in Hlen. pose proof (Zlen_nonneg [x]). lia. }
  generalize dependent (pop_cr line). intros l Hl. destruct (find_char ":" l) as [i|] eqn:E; [|done].
  apply find_char_lt in E. unfold PTRDIFF_MAX, Zlen in Hl. rewrite substr_ok by (unfold Zlen; lia).
  cbn [mbind outcome_bind option_bind]. rewrite wadd_small by lia.
  unfold substr_from. rewrite substr_ok by (unfold Zlen; lia). run_binds.
  change (Z.to_nat 0) with 0. rewrite drop_0.
  rewrite (take_ge (drop _ l)) by (rewrite length_drop; unfold Zlen, SIZE_MAX; lia).
  replace (Z.to_nat (Z.of_nat i + 1)) with (S i) by lia.
  by replace (Z.to_nat (Z.of_nat i `min` (Zlen l - 0))) with i by (unfold Zlen; lia).
Qed.

Lemma headers_loop_fold ls h :
  Forall (fun l => Zlen l <= PTRDIFF_MAX)%Z ls -> headers_loop ls h = Ok (foldl add_line h ls).
Proof.
  intros Hls. revert h. induction Hls as [|l ls Hl Hls IH]; intros h; cbn [headers_loop foldl]; [done|].
  rewrite header_line_add by done. apply IH.
Qed.

Lemma getlines_length d : Forall (fun l => Zlen l <= Zlen d)%Z (getlines d).
Proof.
  induction d as [|c d IH]; cbn [getlines]; [constructor|].
  assert (forall l : list str, Forall (fun x => Zlen x <= Zlen d)%Z l -> Forall (fun x => Zlen x <= Zlen (c :: d))%Z l) as Hw.
  { intros l Hl. eapply Forall_impl; [exact Hl|]. intros x. unfold Zlen. cbn. lia. }
  case_decide.
  - constructor; [unfold Zlen; cbn; lia|]. by apply Hw.
  - destruct (getlines d) as [|l ls]; [repeat constructor; unfold Zlen; cbn; lia|].
    inversion_clear IH. constructor; [unfold Zlen in *; cbn; lia|]. by apply Hw.
Qed.

(** ** Where the separators are *)

Lemma sep_prefix m l r :
  newline ∉ l -> starts_with (line_sep ++ m) (l ++ line_sep ++ r) = true -> l = [].
Proof.
  intros Hl [x Hx]%starts_with_iff. destruct l as [|c l]; [done|]. exfalso. cbn in Hx.
  injection Hx as -> Hx. apply not_elem_of_cons in Hl as [_ Hl].
  destruct l as [|d l]; [done|]. injection Hx as -> _. apply Hl. constructor.
Qed.

(** No separator starts inside a line. *)
Lemma find_skip_line m l r :
  newline ∉ l ->
  find (line_sep ++ m) (l ++ line_sep ++ r) = (fun i => length l + i) <$> find (line_sep ++ m) (line_sep ++ r).
Proof.
  intros Hl. induction l as [|c l IH].
  - cbn [app]. by destruct (find _ _).
  - pose proof (sep_prefix m (c :: l) r Hl) as Hp. cbn [app find].
    destruct (starts_with _ _); [by specialize (Hp eq_refl)|].
    apply not_elem_of_cons in Hl as [_ Hl]. rewrite (IH Hl). by destruct (find _ (line_sep ++ r)).
Qed.

Lemma find_sep l r : newline ∉ l -> find line_sep (l ++ line_sep ++ r) = Some (length l).
Proof.
  intros Hl. pose proof (find_skip_line [] l r Hl) as H. rewrite app_nil_r in H. rewrite H.
  assert (find line_sep (line_sep ++ r) = Some 0) as ->.
  { apply find_Some. split; [by exists r|]. split; [lia|lia]. }
  cbn. f_equal. lia.
Qed.

Lemma find_blank l r : newline ∉ l -> find (line_sep ++ line_sep) (l ++ line_sep ++ line_sep ++ r) = Some (length l).
Proof.
  intros Hl. rewrite find_skip_line by done.
  assert (find (line_sep ++ line_sep) (line_sep ++ line_sep ++ r) = Some 0) as ->.
  { apply find_Some. split; [by exists r|]. split; [lia|lia]. }
  cbn. f_equal. lia.
Qed.

Lemma find_blank_line l r :
  newline ∉ l -> starts_with line_sep r = false ->
  find (line_sep ++ line_sep) (l ++ line_sep ++ r)
  = (fun i => length l + (2 + i)) <$> find (line_sep ++ line_sep) r.
Proof.
  intros Hl Hr. rewrite find_skip_line by done. cbn [app line_sep find].
  destruct (starts_with _ (creturn :: _)) eqn:E.
  - apply starts_with_iff in E as [x [= Hx]]. change (creturn :: newline :: x) with (line_sep ++ x) in Hx.
    by rewrite Hx, starts_with_app in Hr.
  - destruct (starts_with _ (newline :: r)) eqn:E'; [by apply starts_with_iff in E' as [x [= Hx]]|].
    by destruct (find _ r).
Qed.

Lemma render_cons start l ls body : render start (l :: ls) body = start ++ line_sep ++ render l ls body.
Proof. unfold render. cbn [fmap list_fmap concat]. by rewrite <- !app_assoc. Qed.

Lemma render_app start ls body :
  render start ls body = start ++ line_sep ++ concat ((fun l => l ++ line_sep) <$> ls) ++ line_sep ++ body.
Proof. done. Qed.

(** The text of the lines between the start line and the blank line. *)
Definition lines_text (ls : list str) : str := concat ((fun l => l ++ line_sep) <$> ls).

Lemma find_render_blank ls body : forall start,
  newline ∉ start -> Forall line_ok ls ->
  find (line_sep ++ line_sep) (render start ls body) = Some (length start + length (lines_text ls)).
Proof.
  induction ls as [|l ls IH]; intros start Hs Hls.
  - unfold render, lines_text. cbn [fmap list_fmap concat app length]. rewrite find_blank by done. f_equal. lia.
  - inversion_clear Hls as [|?? (Hl & Hne & _) Hls']. rewrite render_cons, find_blank_line; [|done|].
    + rewrite IH by done. unfold lines_text. cbn. rewrite !length_app. cbn. f_equal. lia.
    + destruct (starts_with line_sep (render l ls body)) eqn:E; [|done].
      apply (sep_prefix [] l) in E; done.
Qed.

(** ** Parsing a message given by its lines *)

Lemma pop_cr_snoc l : pop_cr (l ++ [creturn]) = l.
Proof. unfold pop_cr. by rewrite last_snoc, decide_True, removelast_last. Qed.

Lemma pop_cr_ok l : last l <> Some creturn -> pop_cr l = l.
Proof. unfold pop_cr. destruct (last l); [|done]. intros H. by rewrite decide_False by congruence. Qed.

Lemma lines_text_snoc ls l : lines_text (ls ++ [l]) = (lines_text ls ++ l) ++ line_sep.
Proof. unfold lines_text. rewrite fmap_app, concat_app. cbn. by rewrite app_nil_r, app_assoc. Qed.

Lemma getlines_lines ls l :
  Forall line_ok ls -> line_ok l ->
  getlines (lines_text ls ++ l) = ((fun l => l ++ [creturn]) <$> ls) ++ [l].
Proof.
  intros Hls (Hl & Hne & _). induction Hls as [|x ls (Hx & _ & _) Hls IH]; [by apply getlines_last|].
  unfold lines_text in *. cbn [fmap list_fmap concat]. rewrite <- !app_assoc.
  change (line_sep ++ ?r) with ([creturn] ++ newline :: r). rewrite app_assoc, getlines_app.
  - by rewrite IH.
  - rewrite elem_of_app. intros [?|?%list_elem_of_singleton]; [done|discriminate].
Qed.

Lemma add_line_cr h l : line_ok l -> add_line h (l ++ [creturn]) = add_line h l.
Proof. intros (_ & _ & Hl). unfold add_line. by rewrite pop_cr_snoc, pop_cr_ok. Qed.

Lemma fold_add_line_cr ls h :
  Forall line_ok ls -> foldl add_line h ((fun l => l ++ [creturn]) <$> ls) = foldl add_line h ls.
Proof.
  intros Hls. revert h. induction Hls as [|l ls Hl Hls IH]; intros h; cbn; [done|].
  by rewrite add_line_cr, IH.
Qed.

(** The header block as the parser cuts it out, and the headers in it. *)
Lemma header_block_headers start ls body :
  Forall line_ok ls -> (Zlen (render start ls body) <= PTRDIFF_MAX)%Z ->
  exists block,
    substr (render start ls body) (wadd (Z.of_nat (length start)) (Zlen line_sep))
      (wsub (Z.of_nat (length start + length (lines_text ls))) (wadd (Z.of_nat (length start)) (Zlen line_sep)))
    = Ok block /\
    foldl add_line ∅ (getlines block) = headers_of (match ls with [] => getlines body | _ => ls end).
Proof.
  intros Hls Hlen. unfold render in *. fold (lines_text ls) in *. rewrite !Zlen_app in Hlen. unfold PTRDIFF_MAX in Hlen.
  change (Zlen line_sep) with 2%Z in *. change (Z.of_nat (length start)) with (Zlen start).
  pose proof (Zlen_nonneg start). pose proof (Zlen_nonneg body). pose proof (Zlen_nonneg (lines_text ls)).
  rewrite wadd_small by lia. rewrite (app_assoc start).
  replace (Zlen start + 2)%Z with (Zlen (start ++ line_sep)) by (by rewrite Zlen_app).
  destruct ls as [|l ls _] using rev_ind.
  - exists (line_sep ++ body). split; [|done].
    cbn [lines_text fmap list_fmap concat app length].
    change (creturn :: newline :: body) with (line_sep ++ body).
    apply substr_app_rest. rewrite !Zlen_app. change (Zlen line_sep) with 2%Z.
    unfold wsub, u64, Zlen in *. replace (Z.of_nat (length start + 0) - _)%Z with (-2)%Z by lia.
    change ((-2) `mod` 2 ^ 64)%Z with (2 ^ 64 - 2)%Z. lia.
  - apply Forall_app in Hls as [Hls Hl]. inversion_clear Hl as [|?? Hl' _].
    exists (lines_text ls ++ l). split.
    + rewrite lines_text_snoc in *. rewrite <- (app_assoc (lines_text ls ++ l)). apply substr_app_take.
      unfold Zlen in *. rewrite !length_app in *. cbn [length line_sep] in *. rewrite wsub_small; lia.
    + rewrite getlines_lines by done. unfold headers_of.
      rewrite foldl_app, fold_add_line_cr by done. by destruct ls; cbn; rewrite <- ?foldl_snoc, ?foldl_app.
Qed.

Lemma parse_render_lines m start ls body :
  newline ∉ start -> Forall line_ok ls -> (Zlen (render start ls body) <= PTRDIFF_MAX)%Z ->
  parse_from_string m (render start ls body)
  = Ok (true, set_body (set_headers (start_line_fields m start)
                          (headers_of (match ls with [] => getlines body | _ => ls end))) body).
Proof.
  intros Hs Hls Hlen. unfold parse_from_string. rewrite (proj2 (Z.ltb_ge _ _)) by lia.
  rewrite render_app at 1. rewrite find_sep by done.
  rewrite find_render_blank by done.
  rewrite (substr_app_take [] start (line_sep ++ lines_text ls ++ line_sep ++ body)) by done.
  run_binds.
  destruct (header_block_headers start ls body Hls Hlen) as (block & Hb & Hh). rewrite Hb. run_binds.
  apply substr_length in Hb. rewrite headers_loop_fold.
  2:{ eapply Forall_impl; [apply getlines_length|]. intros x. cbn. lia. }
  run_binds. rewrite Hh.
  assert (render start ls body = (start ++ line_sep ++ lines_text ls ++ line_sep) ++ body) as Hr
    by (rewrite render_app, <- !app_assoc; done).
  rewrite Hr in *. unfold substr_from. change (wmul (Zlen line_sep) 2) with 4%Z.
  rewrite Zlen_app in Hlen. unfold PTRDIFF_MAX in Hlen.
  assert (wadd (Z.of_nat (length start + length (lines_text ls))) 4
          = Zlen (start ++ line_sep ++ lines_text ls ++ line_sep)) as ->.
  { unfold Zlen in *. rewrite !length_app in *. cbn [length line_sep] in *. rewrite wadd_small; lia. }
  rewrite substr_app_rest; [done|]. unfold SIZE_MAX, Zlen in *. lia.
Qed.

(** ** Totality *)

Lemma find_sub_iff n data : (exists a b, data = a ++ n ++ b) <-> find n data <> None.
Proof.
  split.
  - intros (a & b & ->). induction a as [|c a IH]; cbn [app].
    + destruct (n ++ b) eqn:E; cbn [find]; rewrite <- E, starts_with_app; done.
    + cbn [find]. destruct (starts_with n (c :: a ++ n ++ b)); [done|].
      destruct (find n (a ++ n ++ b)); done.
  - destruct (find n data) as [i|] eqn:E; [|done]. intros _.
    apply find_Some in E as ([r Hr] & _ & _). exists (take i data), r.
    by rewrite <- Hr, take_drop.
Qed.

(** Parsing always returns, without an exception or an access out of range,
    for every input a string can hold.  It accepts exactly the inputs that
    contain a blank line (CR LF CR LF), and when it refuses one the headers and
    the body of the message are as before. *)
Theorem parse_returns m data :
  (Zlen data <= PTRDIFF_MAX)%Z ->
  exists ok m', parse_from_string m data = Ok (ok, m') /\
    (ok = true <-> exists a b, data = a ++ (line_sep ++ line_sep) ++ b) /\
    (ok = false -> headers_ m' = headers_ m /\ body_ m' = body_ m).
Proof.
  intros Hlen. unfold parse_from_string. rewrite (proj2 (Z.ltb_ge _ _)) by lia.
  setoid_rewrite find_sub_iff.
  destruct (find line_sep data) as [pos|] eqn:Hpos.
  2:{ eexists _, _. split; [done|]. split; [|done]. split; [done|]. intros H.
      destruct (find (line_sep ++ line_sep) data) eqn:E; [|done].
      apply find_prefix in E as (j & Hj & _). congruence. }
  pose proof (find_bound _ _ _ Hpos) as Hp. cbn in Hp. unfold PTRDIFF_MAX, Zlen in Hlen.
  rewrite substr_ok by (unfold Zlen; lia). run_binds.
  destruct (find (line_sep ++ line_sep) data) as [e|] eqn:He.
  2:{ eexists _, _. split; [done|]. split; [by split|]. intros _. unfold start_line_fields.
      destruct (extract_word _) as [? r]. destruct (extract_word r) as [? r']. by destruct (extract_word r'). }
  pose proof (find_bound _ _ _ He) as Hb. cbn in Hb.
  rewrite (wadd_small (Z.of_nat pos)) by (unfold Zlen; cbn [length line_sep]; lia).
  rewrite substr_ok by (unfold Zlen; cbn [length line_sep]; lia). run_binds.
  rewrite headers_loop_fold.
  2:{ eapply Forall_impl; [apply getlines_length|]. cbn. intros x. unfold PTRDIFF_MAX, Zlen.
      rewrite length_take, length_drop. lia. }
  run_binds. change (wmul (Zlen line_sep) 2) with 4%Z. rewrite (wadd_small (Z.of_nat e)) by lia.
  unfold substr_from. rewrite substr_ok by (unfold Zlen; lia). run_binds.
  eexists _, _. split; [done|]. by split.
Qed.

Lemma parse_returns_witness :
  exists ok m', parse_from_string default_message (lit "GET / HTTP/1.1" ++ line_sep) = Ok (ok, m') /\
    (ok = true <-> exists a b, lit "GET / HTTP/1.1" ++ line_sep = a ++ (line_sep ++ line_sep) ++ b) /\
    (ok = false -> headers_ m' = ∅ /\ body_ m' = []).
Proof. apply (parse_returns default_message). by vm_compute. Defined.

(** What the parser reads: given a start line, header lines and a body, it
    takes method, URL and version from the first three words of the start line,
    the body as it is, and each header line as the text before its first colon
    and the text after it without leading spaces; the last line with a key
    wins, a line without a colon is ignored.  When there are no header lines,
    the lines of the body are read as headers. *)
Theorem parse_render m start ls body :
  newline ∉ start -> Forall line_ok ls -> (Zlen (render start ls body) <= PTRDIFF_MAX)%Z ->
  parse_from_string m (render start ls body)
  = Ok (true, set_body (set_headers (start_line_fields m start)
                          (headers_of (match ls with [] => getlines body | _ => ls end))) body).
Proof. apply parse_render_lines. Qed.

Lemma parse_render_witness :
  parse_from_string default_message (render (lit "PUT /a HTTP/1.0") [lit "k:  v"; lit "junk"; lit "k: w"] (lit "x:y"))
  = Ok (true, mk (Some PUT) (Some HTTP_1_0) (lit "/a") {[ lit "k" := lit "w" ]} (lit "x:y")).
Proof.
  rewrite (parse_render default_message (lit "PUT /a HTTP/1.0") [lit "k:  v"; lit "junk"; lit "k: w"] (lit "x:y")).
  - by vm_compute.
  - by apply (bool_decide_unpack _); vm_compute.
  - repeat (constructor; [split; [by apply (bool_decide_unpack _); vm_compute|split; discriminate]|]). constructor.
  - by vm_compute.
Defined.

(** ** Round trip *)

Definition url_ok (u : str) : Prop := u <> [] /\ Forall (fun c => isspace c = false) u.

(** A header that can be sent: its key has neither a colon nor a newline, its
    value has no newline, does not begin with a space and does not end with a
    carriage return. *)
Definition header_ok (e : str * str) : Prop :=
  (newline ∉ e.1) /\ (":"%char ∉ e.1) /\ (newline ∉ e.2) /\ head e.2 <> Some " "%char /\ last e.2 <> Some creturn.

Definition header_text (e : str * str) : str := e.1 ++ lit ": " ++ e.2.

Lemma header_text_ok e : header_ok e -> line_ok (header_text e).
Proof.
  destruct e as [k v]. intros (Hk & _ & Hv & _ & Hl). unfold line_ok, header_text. cbn in *. split; [|split].
  - rewrite elem_of_app, !elem_of_cons. intros [?|[?|[?|?]]]; done.
  - by destruct k.
  - rewrite last_app, !last_cons. by destruct (last v).
Qed.

Lemma add_line_header h e : header_ok e -> add_line h (header_text e) = <[e.1 := e.2]> h.
Proof.
  intros He. pose proof (header_text_ok e He) as (_ & _ & Hl). destruct e as [k v].
  destruct He as (_ & Hk & _ & Hv & _). unfold add_line, header_of. rewrite pop_cr_ok by done.
  unfold header_text. cbn [fst snd app] in *. change (lit ": " ++ v) with (":"%char :: " "%char :: v).
  rewrite find_char_app by done. cbn [mbind option_bind]. rewrite take_app_length.
  replace (S (length k)) with (length (k ++ [":"%char])) by (rewrite length_app; cbn; lia).
  change (":"%char :: " "%char :: v) with ([":"%char] ++ " "%char :: v).
  rewrite app_assoc, drop_app_length. cbn [erase_leading]. rewrite decide_True by done.
  destruct v as [|c v]; [done|]. cbn [erase_leading]. rewrite decide_False; [done|]. intros ->. by cbn in Hv.
Qed.

Lemma headers_of_entries entries :
  Forall header_ok entries -> headers_of (header_text <$> entries) = list_to_map (reverse entries).
Proof.
  intros Hok. unfold headers_of.
  assert (forall h, foldl add_line h (header_text <$> entries) = list_to_map (reverse entries) ∪ h) as H.
  { induction Hok as [|e es He Hes IH]; intros h; [cbn; by rewrite (left_id_L ∅ _)|].
    cbn [fmap list_fmap foldl]. rewrite add_line_header, IH by done.
    rewrite reverse_cons, list_to_map_app, <- (assoc_L (∪)). f_equal. destruct e as [k v]. cbn.
    rewrite insert_union_singleton_l. by rewrite insert_empty. }
  rewrite H. by rewrite (right_id_L ∅ _).
Qed.

Lemma list_to_map_entries (entries : list (str * str)) (h : gmap str str) :
  entries ≡ₚ map_to_list h -> list_to_map (reverse entries) = h.
Proof.
  intros Hp. rewrite <- (list_to_map_to_list h). apply list_to_map_proper.
  - rewrite reverse_Permutation, Hp. apply NoDup_fst_map_to_list.
  - by rewrite reverse_Permutation.
Qed.

Lemma parse_method_to_str m : parse_method (method_to_str m) = m.
Proof. by destruct m. Qed.

Lemma parse_version_to_str v : v <> UNKNOWN_VERSION -> parse_version (version_to_str v) = v.
Proof. by destruct v. Qed.

Definition start_line (meth : HttpMethod) (url : str) (ver : HttpVersion) : str :=
  method_to_str meth ++ lit " " ++ url ++ lit " " ++ version_to_str ver.

Lemma method_word meth : method_to_str meth <> [] /\ Forall (fun c => isspace c = false) (method_to_str meth).
Proof. destruct meth; (split; [done|by repeat constructor]). Qed.

Lemma version_word ver : version_to_str ver <> [] /\ Forall (fun c => isspace c = false) (version_to_str ver).
Proof. destruct ver; (split; [done|by repeat constructor]). Qed.

Lemma start_line_fields_line m meth url ver :
  url_ok url -> ver <> UNKNOWN_VERSION ->
  start_line_fields m (start_line meth url ver)
  = mk (Some meth) (Some ver) url (headers_ m) (body_ m).
Proof.
  intros [Hu1 Hu2] Hv. unfold start_line_fields, start_line.
  destruct (method_word meth) as [Hm1 Hm2]. destruct (version_word ver) as [Hv1 Hv2].
  rewrite (proj1 (extract_word_app _ (lit " " ++ url ++ lit " " ++ version_to_str ver) Hm1 Hm2 eq_refl)).
  rewrite (proj2 (extract_word_app _ (lit " " ++ version_to_str ver) Hu1 Hu2 eq_refl)).
  rewrite <- (app_nil_r (version_to_str ver)).
  rewrite (proj2 (extract_word_app _ [] Hv1 Hv2 I)).
  by rewrite parse_method_to_str, parse_version_to_str.
Qed.

Lemma serialize_lines (entries : list (str * str)) :
  (fun '(k, v) => k ++ lit ": " ++ v ++ line_sep) <$> entries
  = (fun l => l ++ line_sep) <$> (header_text <$> entries).
Proof.
  rewrite <- list_fmap_compose. apply list_fmap_ext. intros i [k v] _. cbn. unfold header_text.
  by rewrite <- !app_assoc.
Qed.

Lemma word_no_newline w : Forall (fun c => isspace c = false) w -> newline ∉ w.
Proof. intros HF Hin. rewrite Forall_forall in HF. by specialize (HF _ Hin). Qed.

Lemma start_line_no_newline meth url ver : url_ok url -> newline ∉ start_line meth url ver.
Proof.
  intros [_ Hu]. unfold start_line. rewrite !elem_of_app.
  assert (newline ∉ lit " ") as Hs by (by intros ?%list_elem_of_singleton).
  pose proof (word_no_newline _ (proj2 (method_word meth))).
  pose proof (word_no_newline _ (proj2 (version_word ver))).
  pose proof (word_no_newline _ Hu). tauto.
Qed.

(** What comes back when a serialised message is parsed. *)
Lemma serialize_parse_gen m0 entries m meth ver text :
  method_ m = Some meth -> version_ m = Some ver -> ver <> UNKNOWN_VERSION -> url_ok (url_ m) ->
  Forall header_ok entries -> entries ≡ₚ map_to_list (headers_ m) ->
  serialize_to_string entries m = Ok text -> (Zlen text <= PTRDIFF_MAX)%Z ->
  parse_from_string m0 text
  = Ok (true, set_headers m (if decide (entries = []) then headers_of (getlines (body_ m)) else headers_ m)).
Proof.
  intros Hm Hv Hunk Hu He Hp Hs Hlen. unfold serialize_to_string in Hs. rewrite Hm, Hv in Hs.
  cbn [read_member mbind outcome_bind] in Hs. rewrite serialize_lines in Hs.
  assert (text = render (start_line meth (url_ m) ver) (header_text <$> entries) (body_ m)) as ->
    by (injection Hs as <-; unfold render, start_line; by rewrite <- !app_assoc).
  rewrite parse_render_lines; [|..|done].
  - rewrite start_line_fields_line by done. destruct m as [m1 v1 u h b]. cbn in *. subst.
    unfold set_body, set_headers. cbn. do 3 f_equal. destruct entries as [|e es]; [done|].
    cbn [fmap list_fmap]. change (header_text e :: _) with (header_text <$> e :: es).
    rewrite headers_of_entries by done. by rewrite (list_to_map_entries _ h).
  - by apply start_line_no_newline.
  - apply Forall_fmap. eapply Forall_impl; [exact He|]. apply header_text_ok.
Qed.

(** C7: Parsing inverts serialising: a message with method and version set, the version
    a known one, a URL that is not empty and has no white space, and at least one header
    (keys without colons and newlines; values without newlines, a leading blank or a
    trailing carriage return) is read back exactly, whatever order the header map is
    traversed in and whatever the receiving message held before. *)
Theorem serialize_parse m0 entries m meth ver text :
  method_ m = Some meth -> version_ m = Some ver -> ver <> UNKNOWN_VERSION -> url_ok (url_ m) ->
  Forall header_ok entries -> entries ≡ₚ map_to_list (headers_ m) -> entries <> [] ->
  serialize_to_string entries m = Ok text -> (Zlen text <= PTRDIFF_MAX)%Z ->
  parse_from_string m0 text = Ok (true, m).
Proof.
  intros. erewrite serialize_parse_gen by done. rewrite decide_False by done. by destruct m.
Qed.

Definition sample_entries : list (str * str) :=
  [(lit "Host", lit "localhost"); (lit "Accept", lit "*/*"); (lit "Empty", [])].

Definition sample_message : HttpMessage :=
  mk (Some POST) (Some HTTP_1_1) (lit "/index.html?a=b") (list_to_map sample_entries) (lit "a: b" ++ line_sep ++ line_sep ++ lit "c").

Definition sample_text : str :=
  match serialize_to_string sample_entries sample_message with Ok t => t | _ => [] end.

Lemma sample_entries_ok : Forall header_ok sample_entries.
Proof.
  repeat (constructor; [repeat split; try discriminate; by apply (bool_decide_unpack _); vm_compute|]). constructor.
Qed.

Lemma sample_entries_all : sample_entries ≡ₚ map_to_list (headers_ sample_message).
Proof. symmetry. apply map_to_list_to_map. by apply (bool_decide_unpack _); vm_compute. Qed.

Lemma serialize_parse_witness :
  parse_from_string default_message sample_text = Ok (true, sample_message).
Proof.
  apply (serialize_parse default_message sample_entries sample_message POST HTTP_1_1).
  - done.
  - done.
  - done.
  - split; [done|by repeat constructor].
  - apply sample_entries_ok.
  - apply sample_entries_all.
  - done.
  - by vm_compute.
  - by vm_compute.
Defined.

(** A message without headers does not survive the round trip: the length of
    the empty header block wraps around to almost 2^64, so the block the parser
    scans is the whole body, and every body line with a colon comes back as a
    header. *)
Theorem headerless_body_is_scanned m0 m meth ver text :
  method_ m = Some meth -> version_ m = Some ver -> ver <> UNKNOWN_VERSION -> url_ok (url_ m) ->
  headers_ m = ∅ -> serialize_to_string [] m = Ok text -> (Zlen text <= PTRDIFF_MAX)%Z ->
  parse_from_string m0 text = Ok (true, set_headers m (headers_of (getlines (body_ m)))).
Proof.
  intros ? ? ? ? Hh ? ?.
  erewrite (serialize_parse_gen m0 [] m) by (done || constructor || by rewrite Hh, map_to_list_empty).
  by rewrite decide_True.
Qed.

Lemma headerless_body_is_scanned_witness :
  let m := set_body (set_url (set_version (set_method default_message POST) HTTP_1_1) (lit "/")) (qlit "{'user':'x'}") in
  parse_from_string default_message (lit "POST / HTTP/1.1" ++ line_sep ++ line_sep ++ qlit "{'user':'x'}")
  = Ok (true, add_header m (qlit "{'user'") (qlit "'x'}")).
Proof.
  intros m. rewrite (headerless_body_is_scanned default_message m POST HTTP_1_1).
  - by vm_compute.
  - done.
  - done.
  - done.
  - split; [done|by repeat constructor].
  - done.
  - by vm_compute.
  - by vm_compute.
Defined.

(** Parsing the first [n] characters of a serialised message. *)
Lemma prefix_parses m0 entries m meth ver text n :
  method_ m = Some meth -> version_ m = Some ver -> ver <> UNKNOWN_VERSION -> url_ok (url_ m) ->
  Forall header_ok entries -> entries ≡ₚ map_to_list (headers_ m) -> entries <> [] ->
  serialize_to_string entries m = Ok text -> (Zlen text <= PTRDIFF_MAX)%Z ->
  let head := length text - length (body_ m) in
  (n < head -> exists m', parse_from_string m0 (take n text) = Ok (false, m') /\ headers_ m' = headers_ m0 /\ body_ m' = body_ m0) /\
  (head <= n -> parse_from_string m0 (take n text) = Ok (true, set_body m (take (n - head) (body_ m)))).
Proof.
  intros Hm Hv Hk Hu He Hp Hne Hs Hlen head. pose proof Hs as Ht. unfold serialize_to_string in Ht. rewrite Hm, Hv in Ht.
  cbn [read_member mbind outcome_bind] in Ht. rewrite serialize_lines in Ht.
  assert (text = render (start_line meth (url_ m) ver) (header_text <$> entries) (body_ m)) as Htext
    by (injection Ht as <-; unfold render, start_line; by rewrite <- !app_assoc).
  set (pre := start_line meth (url_ m) ver ++ line_sep ++ lines_text (header_text <$> entries) ++ line_sep).
  assert (text = pre ++ body_ m) as Hpre by (rewrite Htext, render_app; unfold pre, lines_text; by rewrite <- !app_assoc).
  assert (head = length pre) as Hh by (unfold head; rewrite Hpre, length_app; lia). split.
  - intros Hn. destruct (parse_returns m0 (take n text)) as (ok & m' & Hr & Hok & Hf).
    { unfold Zlen in *. rewrite length_take. lia. }
    destruct ok; [|exists m'; split; [done|by apply Hf]]. exfalso.
    pose proof (proj1 Hok eq_refl) as Hb. apply find_sub_iff in Hb. apply Hb. rewrite Htext. eapply find_take.
    + apply find_render_blank; [by apply start_line_no_newline|]. apply Forall_fmap. eapply Forall_impl; [exact He|]. apply header_text_ok.
    + rewrite Hh in Hn. unfold pre in Hn. rewrite !length_app in Hn. cbn in Hn |- *. lia.
  - intros Hn. rewrite Hpre, take_app_ge, Hh by lia. set (body' := take (n - length pre) (body_ m)).
    rewrite (serialize_parse_gen m0 entries (set_body m body') meth ver); try done; [by rewrite decide_False|..].
    + unfold serialize_to_string. cbn [method_ version_ set_body]. rewrite Hm, Hv. cbn [read_member mbind outcome_bind].
      rewrite serialize_lines. f_equal. unfold pre, lines_text, start_line. cbn [url_ body_ set_body]. by rewrite <- !app_assoc.
    + rewrite Hpre in Hlen. unfold Zlen, body' in *. rewrite length_app in *. rewrite length_take. lia.
Qed.

(** The same when other text follows the message. *)
Lemma prefix_parses_following m0 entries m meth ver text more n :
  method_ m = Some meth -> version_ m = Some ver -> ver <> UNKNOWN_VERSION -> url_ok (url_ m) ->
  Forall header_ok entries -> entries ≡ₚ map_to_list (headers_ m) -> entries <> [] ->
  serialize_to_string entries m = Ok text -> (Zlen (text ++ more) <= PTRDIFF_MAX)%Z ->
  let head := length text - length (body_ m) in
  (n < head -> exists m', parse_from_string m0 (take n (text ++ more)) = Ok (false, m') /\ headers_ m' = headers_ m0 /\ body_ m' = body_ m0) /\
  (head <= n -> parse_from_string m0 (take n (text ++ more)) = Ok (true, set_body m (take (n - head) (body_ m ++ more)))).
Proof.
  intros Hm Hv Hk Hu He Hp Hne Hs Hlen head.
  assert (serialize_to_string entries (set_body m (body_ m ++ more)) = Ok (text ++ more)) as Hs'.
  { unfold serialize_to_string, set_body in *. cbn [method_ version_ url_ headers_ body_].
    rewrite Hm, Hv in *. cbn [read_member mbind outcome_bind] in *. apply (f_equal (fun o => match o with Ok t => t | _ => [] end)) in Hs.
    by rewrite <- Hs, <- !app_assoc. }
  replace head with (length (text ++ more) - length (body_ (set_body m (body_ m ++ more))))
    by (unfold head; cbn [body_ set_body]; rewrite !length_app; lia).
  by apply (prefix_parses m0 entries (set_body m (body_ m ++ more)) meth ver).
Qed.

(** C33: what a receiver sees of a message that has arrived in part, if it is one that
    survives a round trip (method and version set, the version a known one, a URL that
    is not empty and has no white space, at least one header, header keys without colons
    and newlines, values without newlines, a leading blank or a trailing carriage
    return): as long as the blank line is not complete parsing refuses it and leaves
    headers and body alone; from then on it accepts, with as much of the body as has
    arrived. *)
Theorem partial_message m0 entries m meth ver text n :
  method_ m = Some meth -> version_ m = Some ver -> ver <> UNKNOWN_VERSION -> url_ok (url_ m) ->
  Forall header_ok entries -> entries ≡ₚ map_to_list (headers_ m) -> entries <> [] ->
  serialize_to_string entries m = Ok text -> (Zlen text <= PTRDIFF_MAX)%Z ->
  let head := length text - length (body_ m) in
  (n < head -> exists m', parse_from_string m0 (take n text) = Ok (false, m') /\ headers_ m' = headers_ m0 /\ body_ m' = body_ m0) /\
  (head <= n -> parse_from_string m0 (take n text) = Ok (true, set_body m (take (n - head) (body_ m)))).
Proof. apply prefix_parses. Qed.

Lemma partial_message_witness :
  (exists m', parse_from_string default_message (take 71 sample_text) = Ok (false, m') /\ headers_ m' = ∅ /\ body_ m' = []) /\
  parse_from_string default_message (take 76 sample_text) = Ok (true, set_body sample_message (lit "a: b")).
Proof.
  split; [apply (partial_message default_message sample_entries sample_message POST HTTP_1_1 sample_text 71)
         |apply (partial_message default_message sample_entries sample_message POST HTTP_1_1 sample_text 76)].
  all: try done; try (by vm_compute).
  all: try (split; [done|by repeat constructor]).
  all: try apply sample_entries_ok; try apply sample_entries_all.
  all: vm_compute; lia.
Defined.

End Http.
