(* ===== verification/Message.v ===== *)
(** * Messages

    The abstract class [Message] of src/include/protocol/Http.hpp as an interface: what
    a message turns into, what it is parsed from, and that parsing inverts serialising
    for the messages that can be sent.  Whoever transports messages relies on nothing
    else; [HttpMessage] is the instance. *)

From S2P Require Import Prelude StdString Http.

Class Message (M : Type) : Type := {
  (** the results [serialize_to_string()] may have, [parse_from_string(str)], and the
      messages that can be sent *)
  serializes : M -> outcome str -> Prop;
  parse_from_string : M -> str -> outcome (bool * M);
  sendable : M -> Prop;
  serializes_total m : sendable m -> exists text, serializes m (Ok text);
  parse_serialized m0 m text : sendable m -> serializes m (Ok text) -> (Zlen text <= PTRDIFF_MAX)%Z ->
    parse_from_string m0 text = Ok (true, m)
}.

(** The HTTP messages that can be sent: method and version are set, the version is
    known, the URL has no blanks, and there are headers, which can be sent. *)
Record http_sendable (m : Http.HttpMessage) : Prop := {
  sendable_method : is_Some (Http.method_ m);
  sendable_version : exists ver, Http.version_ m = Some ver /\ ver <> Http.UNKNOWN_VERSION;
  sendable_url : Http.url_ok (Http.url_ m);
  sendable_headers : Forall Http.header_ok (map_to_list (Http.headers_ m));
  sendable_some : Http.headers_ m <> ∅
}.

(** [HttpMessage::serialize_to_string], for every order in which the loop may visit the
    headers. *)
Definition http_serializes (m : Http.HttpMessage) (r : outcome str) : Prop :=
  exists entries, entries ≡ₚ map_to_list (Http.headers_ m) /\ Http.serialize_to_string entries m = r.

Lemma http_serializes_total m : http_sendable m -> exists text, http_serializes m (Ok text).
Proof.
  intros [[meth Hm] (ver & Hv & _) _ _ _]. eexists. exists (map_to_list (Http.headers_ m)). split; [done|].
  unfold Http.serialize_to_string. rewrite Hm, Hv. done.
Qed.

Lemma http_parse_serialized m0 m text :
  http_sendable m -> http_serializes m (Ok text) -> (Zlen text <= PTRDIFF_MAX)%Z ->
  Http.parse_from_string m0 text = Ok (true, m).
Proof.
  intros [[meth Hm] (ver & Hv & Hk) Hu Hh Hne] (entries & Hp & Ht) Hlen.
  rewrite (Http.serialize_parse_gen m0 entries m meth ver text Hm Hv Hk Hu) by (done || by rewrite Hp).
  rewrite decide_False; [by destruct m|]. intros ->. apply Hne, map_to_list_empty_iff. by symmetry in Hp; apply Permutation_nil_r in Hp.
Qed.

#[global] Instance http_message : Message Http.HttpMessage := {|
  serializes := http_serializes;
  parse_from_string := Http.parse_from_string;
  sendable := http_sendable;
  serializes_total := http_serializes_total;
  parse_serialized := http_parse_serialized
|}.
