(* ===== verification/MemoryPool.v ===== *)
(** * The memory pool

    Models src/include/alloc/MemoryPool.hpp: [ThreadSafeMemoryPool] with its
    global free list, its chunks and the per-thread cache, and
    [GlobalPoolManager] with its 512 size classes.  An address is a region
    obtained from the system together with an offset in it; [::operator new]
    and [std::malloc] return a fresh region or fail, as an argument of the
    operation says.  The thread-local cache is one vector per thread, shared by
    every pool, as [localCache()] has it.  Each operation enters at most one
    critical section on the free list and otherwise touches data of its own
    thread, so threads are interleaved operation by operation.

    The theorems: the size-class arithmetic for every 64-bit size, conservation
    of the blocks under any sequence of operations, disjointness of the blocks
    handed out, that a block is large enough when one size class is in use, and
    that it is not when several are. *)

From S2P Require Import Prelude.
#[local] Open Scope Z_scope.

Module MemoryPool.

(** ** Memory *)

Record block : Type := Block { region : nat; offset : Z }.

#[global] Instance block_eq_dec : EqDecision block.
Proof. solve_decision. Defined.

Inductive origin : Type := New | Malloc.

#[global] Instance origin_eq_dec : EqDecision origin.
Proof. solve_decision. Defined.

(** The regions in use, with the call they come from and their size. *)
Record heap : Type := mkHeap { next : nat; regions : gmap nat (origin * Z) }.

Definition sys_alloc (o : origin) (n : Z) (h : heap) : nat * heap :=
  (next h, mkHeap (S (next h)) (<[next h := (o, n)]> (regions h))).

(** [std::free]: a null pointer is ignored, anything but the start of a region
    [std::malloc] returned is undefined. *)
Definition sys_free (p : option block) (h : heap) : outcome heap :=
  match p with
  | None => Ok h
  | Some b =>
      match regions h !! region b with
      | Some (Malloc, _) =>
          if offset b =? 0 then Ok (mkHeap (next h) (delete (region b) (regions h))) else Undefined
      | _ => Undefined
      end
  end.

(** ** ThreadSafeMemoryPool *)

(** The vectors are kept with their back first. *)
Record pool : Type := mkPool {
  blockSize_ : Z;
  blocksPerChunk_ : Z;
  localCacheLimit_ : Z;
  globalFreeList_ : list block;
  chunks_ : list nat
}.

Definition max_align : Z := 16.

Definition alignBlockSize (s : Z) : Z := wmul (wsub (wadd s max_align) 1 `div` max_align) max_align.

(** The constructor. *)
Definition new_pool (blockSize blocksPerChunk localCacheLimit : Z) : outcome pool :=
  let bs := alignBlockSize blockSize in
  if 8 <=? bs then Ok (mkPool bs blocksPerChunk localCacheLimit [] [])
  else Throw (AssertionFailed (lit "blockSize must be >= pointer size")).

Fixpoint refill_loop (toMove : nat) (local global : list block) : outcome (list block * list block) :=
  match toMove with
  | O => Ok (local, global)
  | S n =>
      match global with
      | [] => Undefined
      | b :: global => refill_loop n (b :: local) global
      end
  end.

(** [refillLocalFromGlobal(local)]: the cache and the pool afterwards. *)
Definition refillLocalFromGlobal (p : pool) (local : list block) : outcome (list block * pool) :=
  let toMove := localCacheLimit_ p `min` Zlen (globalFreeList_ p) in
  '(local, global) ← refill_loop (Z.to_nat toMove) local (globalFreeList_ p);
  Ok (local, mkPool (blockSize_ p) (blocksPerChunk_ p) (localCacheLimit_ p) global (chunks_ p)).

Fixpoint flush_loop (keep : Z) (local global : list block) : list block * list block :=
  match local with
  | [] => ([], global)
  | b :: local' =>
      if keep <? Zlen local then flush_loop keep local' (b :: global) else (local, global)
  end.

(** [flushLocalToGlobal(local)] *)
Definition flushLocalToGlobal (p : pool) (local : list block) : list block * pool :=
  let '(local, global) := flush_loop (localCacheLimit_ p) local (globalFreeList_ p) in
  (local, mkPool (blockSize_ p) (blocksPerChunk_ p) (localCacheLimit_ p) global (chunks_ p)).

(** The blocks of a chunk, in the order the loop pushes them. *)
Definition chunk_blocks (bs n : Z) (chunk : nat) : list block :=
  (fun i => Block chunk (wmul i bs)) <$> seqZ 0 n.

(** [allocateChunkToLocal(local)]; [ok] says whether [::operator new] succeeds. *)
Definition allocateChunkToLocal (ok : bool) (p : pool) (local : list block) (h : heap)
    : outcome (list block * pool * heap) :=
  if ok then
    let '(chunk, h) := sys_alloc New (wmul (blockSize_ p) (blocksPerChunk_ p)) h in
    let p := mkPool (blockSize_ p) (blocksPerChunk_ p) (localCacheLimit_ p)
               (globalFreeList_ p) (chunk :: chunks_ p) in
    Ok (foldl (fun l b => b :: l) local (chunk_blocks (blockSize_ p) (blocksPerChunk_ p) chunk), p, h)
  else Throw BadAlloc.

(** [allocate()]: the block, and the cache, pool and heap afterwards. *)
Definition pool_allocate (ok : bool) (p : pool) (local : list block) (h : heap)
    : outcome (block * list block * pool * heap) :=
  match local with
  | b :: local => Ok (b, local, p, h)
  | [] =>
      '(local, p) ← refillLocalFromGlobal p local;
      match local with
      | b :: local => Ok (b, local, p, h)
      | [] =>
          '(local, p, h) ← allocateChunkToLocal ok p local h;
          match local with
          | b :: local => Ok (b, local, p, h)
          | [] => Undefined
          end
      end
  end.

(** [deallocate(p)]: the cache and the pool afterwards. *)
Definition pool_deallocate (b : option block) (p : pool) (local : list block) : list block * pool :=
  match b with
  | None => (local, p)
  | Some b =>
      let local := b :: local in
      if wmul (localCacheLimit_ p) 2 <? Zlen local then flushLocalToGlobal p local
      else (local, p)
  end.

(** ** Size classes *)

Definition ALIGN : Z := 8.
Definition MAX_POOL_SIZE : Z := 4096.
Definition NUM_CLASSES : Z := MAX_POOL_SIZE `div` ALIGN.

Definition align_up (n : Z) : Z := Z.land (wsub (wadd n ALIGN) 1) (u64 (Z.lnot (ALIGN - 1))).

Definition size_to_class (n : Z) : Z :=
  let n := align_up n in
  if MAX_POOL_SIZE <? n then -1 else n `div` ALIGN - 1.

(** ** GlobalPoolManager *)

Record state : Type := mkState {
  pools_ : list pool;
  caches : gmap nat (list block);
  heap_ : heap
}.

(** The constructor's loop. *)
Fixpoint new_pools (n : nat) (i : Z) : outcome (list pool) :=
  match n with
  | O => Ok []
  | S n =>
      p ← new_pool (wmul (i + 1) ALIGN) 1024 64;
      ps ← new_pools n (i + 1);
      Ok (p :: ps)
  end.

Definition new_manager : outcome state :=
  ps ← new_pools (Z.to_nat NUM_CLASSES) 0;
  Ok (mkState ps ∅ (mkHeap 0 ∅)).

(** [localCache()] of a thread. *)
Definition localCache (t : nat) (s : state) : list block := default [] (caches s !! t).

(** [allocate(size)] called by thread [t]; [ok] says whether the system has
    memory, if it is asked. *)
Definition allocate (t : nat) (ok : bool) (size : Z) (s : state) : outcome (option block * state) :=
  let cls := size_to_class size in
  if cls <? 0 then
    if ok then
      let '(r, h) := sys_alloc Malloc size (heap_ s) in
      Ok (Some (Block r 0), mkState (pools_ s) (caches s) h)
    else Ok (None, s)
  else
    match pools_ s !! Z.to_nat cls with
    | None => Undefined
    | Some p =>
        '(b, local, p, h) ← pool_allocate ok p (localCache t s) (heap_ s);
        Ok (Some b, mkState (<[Z.to_nat cls := p]> (pools_ s)) (<[t := local]> (caches s)) h)
    end.

(** [deallocate(p, size)] called by thread [t]. *)
Definition deallocate (t : nat) (b : option block) (size : Z) (s : state) : outcome state :=
  let cls := size_to_class size in
  if cls <? 0 then
    h ← sys_free b (heap_ s);
    Ok (mkState (pools_ s) (caches s) h)
  else
    match pools_ s !! Z.to_nat cls with
    | None => Undefined
    | Some p =>
        let '(local, p) := pool_deallocate b p (localCache t s) in
        Ok (mkState (<[Z.to_nat cls := p]> (pools_ s)) (<[t := local]> (caches s)) (heap_ s))
    end.

(** [~ThreadSafeMemoryPool]: the loop over the chunks with [::operator delete]. *)
Fixpoint delete_chunks (cs : list nat) (h : heap) : outcome heap :=
  match cs with
  | [] => Ok h
  | c :: cs =>
      match regions h !! c with
      | Some (New, _) => delete_chunks cs (mkHeap (next h) (delete c (regions h)))
      | _ => Undefined
      end
  end.

(** The vector is kept with its back first, so its elements in order are those
    of the reversed list. *)
Definition destroy_pool (p : pool) (h : heap) : outcome heap := delete_chunks (rev (chunks_ p)) h.

(** [~GlobalPoolManager] *)
Fixpoint destroy_pools (ps : list pool) (h : heap) : outcome heap :=
  match ps with
  | [] => Ok h
  | p :: ps => h ← destroy_pool p h; destroy_pools ps h
  end.

Definition destroy_manager (s : state) : outcome heap := destroy_pools (pools_ s) (heap_ s).

(** ** Size-class arithmetic *)

Lemma land_align x : 0 <= x < 2 ^ 64 -> Z.land x (u64 (Z.lnot (ALIGN - 1))) = 8 * (x `div` 8).
Proof.
  intros Hx. unfold u64. rewrite <- Z.land_ones by lia. rewrite (Z.land_comm (Z.lnot _)), Z.land_assoc.
  rewrite Z.land_ones, Z.mod_small by lia.
  rewrite <- Z.ldiff_land. change (ALIGN - 1) with (Z.ones 3).
  rewrite Z.ldiff_ones_r, Z.shiftl_mul_pow2, Z.shiftr_div_pow2 by lia. change (2 ^ 3) with 8. lia.
Qed.

Lemma align_up_eq n :
  0 <= n < 2 ^ 64 -> align_up n = if 2 ^ 64 - 7 <=? n then 0 else 8 * ((n + 7) `div` 8).
Proof.
  intros Hn. unfold align_up. assert (wsub (wadd n ALIGN) 1 = u64 (n + 7)) as ->.
  { unfold wsub, wadd, u64, ALIGN. rewrite Zminus_mod_idemp_l. f_equal. lia. }
  rewrite land_align by apply u64_range. destruct (2 ^ 64 - 7 <=? n) eqn:E; reflect_bools.
  - unfold u64. replace (n + 7) with ((n + 7 - 2 ^ 64) + 1 * 2 ^ 64) by lia.
    rewrite Z.mod_add, Z.mod_small by lia. rewrite Z.div_small by lia. done.
  - by rewrite u64_small by lia.
Qed.

Lemma size_to_class_pool n :
  1 <= n <= 4096 -> 0 <= size_to_class n < NUM_CLASSES /\ n <= 8 * (size_to_class n + 1) < n + 8.
Proof.
  intros Hn. unfold size_to_class. rewrite align_up_eq by lia.
  destruct (2 ^ 64 - 7 <=? n) eqn:E; reflect_bools; [lia|].
  change NUM_CLASSES with 512. unfold MAX_POOL_SIZE, ALIGN.
  pose proof (Z.div_mod (n + 7) 8 ltac:(lia)). pose proof (Z.mod_pos_bound (n + 7) 8 ltac:(lia)).
  rewrite (proj2 (Z.ltb_ge _ _)) by lia. rewrite (Z.mul_comm 8 (_ `div` 8)), Z.div_mul by lia. lia.
Qed.

Lemma size_to_class_system n :
  0 <= n < 2 ^ 64 -> n = 0 \/ 4096 < n -> size_to_class n = -1.
Proof.
  intros Hn Hc. unfold size_to_class. rewrite align_up_eq by lia.
  destruct (2 ^ 64 - 7 <=? n) eqn:E; reflect_bools; [done|]. unfold MAX_POOL_SIZE, ALIGN.
  destruct Hc as [->|Hc]; [done|].
  pose proof (Z.div_mod (n + 7) 8 ltac:(lia)). pose proof (Z.mod_pos_bound (n + 7) 8 ltac:(lia)).
  by rewrite (proj2 (Z.ltb_lt _ _)) by lia.
Qed.

Lemma size_to_class_nonneg n : 0 <= n < 2 ^ 64 -> (size_to_class n <? 0) = false -> 1 <= n <= 4096.
Proof.
  intros Hn Hc. destruct (decide (1 <= n <= 4096)); [done|].
  rewrite size_to_class_system in Hc by lia. done.
Qed.

Lemma alignBlockSize_bounds s :
  0 <= s <= 2 ^ 64 - 16 ->
  alignBlockSize s `mod` 16 = 0 /\ s <= alignBlockSize s < s + 16.
Proof.
  intros Hs. unfold alignBlockSize, max_align.
  assert (wsub (wadd s 16) 1 = s + 15) as ->.
  { unfold wsub, wadd, u64. rewrite Zminus_mod_idemp_l, Z.mod_small by lia. lia. }
  pose proof (Z.div_mod (s + 15) 16 ltac:(lia)). pose proof (Z.mod_pos_bound (s + 15) 16 ltac:(lia)).
  unfold wmul. rewrite u64_small by lia. rewrite Z.mod_mul by lia. lia.
Qed.

(** ** One pool *)

Definition pool_ok (p : pool) : Prop :=
  0 < blockSize_ p /\ 1 <= blocksPerChunk_ p /\ blockSize_ p * blocksPerChunk_ p < 2 ^ 64 /\
  0 <= localCacheLimit_ p < 2 ^ 63.

(** All blocks of the chunks of a pool. *)
Definition pool_blocks (p : pool) : list block :=
  chunks_ p ≫= chunk_blocks (blockSize_ p) (blocksPerChunk_ p).

(** Two pools with the same parameters. *)
Definition same_shape (p q : pool) : Prop :=
  blockSize_ q = blockSize_ p /\ blocksPerChunk_ q = blocksPerChunk_ p /\ localCacheLimit_ q = localCacheLimit_ p.

Lemma refill_loop_ok n local global :
  (n <= length global)%nat ->
  refill_loop n local global = Ok (rev (take n global) ++ local, drop n global).
Proof.
  revert local global. induction n as [|n IH]; intros local global Hn; [done|].
  destruct global as [|b global]; cbn in *; [lia|]. rewrite IH by lia. by rewrite <- app_assoc.
Qed.

Lemma refill_ok p local :
  exists k, refillLocalFromGlobal p local
  = Ok (rev (take k (globalFreeList_ p)) ++ local,
        mkPool (blockSize_ p) (blocksPerChunk_ p) (localCacheLimit_ p) (drop k (globalFreeList_ p)) (chunks_ p)).
Proof.
  unfold refillLocalFromGlobal. rewrite refill_loop_ok by (unfold Zlen; lia). eexists. done.
Qed.

Lemma flush_loop_split keep local global :
  exists k, flush_loop keep local global = (drop k local, rev (take k local) ++ global) /\
    (keep < Zlen local -> 0 <= keep -> Zlen (drop k local) = keep) /\ (Zlen local <= keep -> k = 0%nat).
Proof.
  revert global. induction local as [|b local IH]; intros global; cbn [flush_loop].
  - exists 0%nat. split; [done|]. split; [unfold Zlen; cbn; lia|done].
  - destruct (keep <? Zlen (b :: local)) eqn:E; reflect_bools.
    + destruct (IH (b :: global)) as (k & Hk & H1 & H2). exists (S k). rewrite Hk. split; [|split].
      * cbn. by rewrite <- app_assoc.
      * intros _ Hk0. cbn [drop]. unfold Zlen in E. cbn in E.
        destruct (decide (keep < Zlen local)); [by apply H1|].
        rewrite H2 by lia. rewrite drop_0. unfold Zlen in *. lia.
      * intros. lia.
    + exists 0%nat. split; [done|]. split; [lia|done].
Qed.

Lemma fold_push local bs : foldl (fun (l : list block) b => b :: l) local bs = rev bs ++ local.
Proof. revert local. induction bs as [|b bs IH]; intros local; cbn; [done|]. by rewrite IH, <- app_assoc. Qed.

Lemma chunk_blocks_nonempty bs n c : 1 <= n -> chunk_blocks bs n c <> [].
Proof.
  intros Hn H. apply (f_equal length) in H. unfold chunk_blocks in H. rewrite length_fmap, length_seqZ in H. cbn in H. lia.
Qed.

(** What an allocation does to a pool: it takes one block from the cache, the
    free list or a new chunk, and moves the others without losing any. *)
Definition allocates (ok : bool) (p : pool) (local : list block) (h : heap)
    (b : block) (local' : list block) (p' : pool) (h' : heap) : Prop :=
  same_shape p p' /\
  ((chunks_ p' = chunks_ p /\ h' = h /\ b :: local' ++ globalFreeList_ p' ≡ₚ local ++ globalFreeList_ p) \/
   (ok = true /\ chunks_ p' = next h :: chunks_ p /\
    h' = (sys_alloc New (blockSize_ p * blocksPerChunk_ p) h).2 /\
    b :: local' ++ globalFreeList_ p'
    ≡ₚ chunk_blocks (blockSize_ p) (blocksPerChunk_ p) (next h) ++ local ++ globalFreeList_ p)).

Lemma pool_allocate_allocates ok p local h :
  pool_ok p ->
  (exists b local' p' h', pool_allocate ok p local h = Ok (b, local', p', h') /\
     allocates ok p local h b local' p' h') \/
  (ok = false /\ pool_allocate ok p local h = Throw BadAlloc).
Proof.
  intros (Hbs & Hn & Hmul & _). unfold pool_allocate. destruct local as [|b local].
  2:{ left. eexists _, _, _, _. split; [done|]. split; [done|]. left. done. }
  destruct (refill_ok p []) as [k ->]. run_binds. rewrite app_nil_r.
  destruct (rev (take k (globalFreeList_ p))) as [|b local] eqn:E.
  - unfold allocateChunkToLocal. destruct ok; [|by right]. left. cbn [mbind outcome_bind sys_alloc blockSize_ blocksPerChunk_].
    rewrite fold_push, app_nil_r.
    destruct (rev (chunk_blocks _ _ _)) as [|b local] eqn:Ec.
    + apply (f_equal (@rev block)) in Ec. rewrite rev_involutive in Ec. by apply chunk_blocks_nonempty in Ec.
    + eexists _, _, _, _. split; [done|]. split; [done|]. right. cbn [chunks_ globalFreeList_].
      apply (f_equal (@rev block)) in E. rewrite rev_involutive in E. cbn in E.
      split; [done|]. split; [done|]. split; [unfold wmul; by rewrite u64_small by lia|].
      change (b :: local ++ ?g) with ((b :: local) ++ g). rewrite <- Ec, <- Permutation_rev.
      f_equiv. rewrite <- (take_drop k (globalFreeList_ p)) at 2. by rewrite E.
  - left. eexists _, _, _, _. split; [done|]. split; [done|]. left. split; [done|]. split; [done|].
    change (b :: local ++ ?g) with ((b :: local) ++ g). cbn [globalFreeList_]. rewrite <- E, <- Permutation_rev.
    by rewrite take_drop.
Qed.

Lemma pool_deallocate_moves b p local :
  let '(local', p') := pool_deallocate (Some b) p local in
  same_shape p p' /\ chunks_ p' = chunks_ p /\
  local' ++ globalFreeList_ p' ≡ₚ b :: local ++ globalFreeList_ p.
Proof.
  unfold pool_deallocate. cbv zeta. destruct (wmul (localCacheLimit_ p) 2 <? _); [|done]. unfold flushLocalToGlobal.
  destruct (flush_loop_split (localCacheLimit_ p) (b :: local) (globalFreeList_ p)) as (k & -> & _ & _).
  split; [done|]. split; [done|]. cbn [globalFreeList_]. rewrite <- Permutation_rev.
  rewrite Permutation_app_swap_app, app_assoc, take_drop. done.
Qed.

(** ** Clients *)

(** A client of the manager with the allocations it holds, newest first, each
    with the size it asked for. *)
Record client : Type := mkClient { st : state; live : list (block * Z) }.

(** Thread [t] allocates [size] bytes, or gives back the [i]-th allocation, with
    the size it was made with.  A client that gets no memory carries on. *)
Inductive op : Type :=
| Alloc (t : nat) (ok : bool) (size : Z)
| Dealloc (t : nat) (i : nat).

Definition exec (c : client) (o : op) : outcome client :=
  match o with
  | Alloc t ok size =>
      match allocate t ok size (st c) with
      | Ok (Some b, s) => Ok (mkClient s ((b, size) :: live c))
      | Ok (None, s) => Ok (mkClient s (live c))
      | Throw BadAlloc => Ok c
      | Throw e => Throw e
      | Undefined => Undefined
      | OutOfFuel => OutOfFuel
      end
  | Dealloc t i =>
      match live c !! i with
      | None => Ok c
      | Some (b, size) =>
          s ← deallocate t (Some b) size (st c);
          Ok (mkClient s (delete i (live c)))
      end
  end.

Fixpoint run (c : client) (ops : list op) : outcome client :=
  match ops with
  | [] => Ok c
  | o :: ops => c ← exec c o; run c ops
  end.

Definition op_ok (o : op) : Prop :=
  match o with Alloc _ _ size => 0 <= size < 2 ^ 64 | Dealloc _ _ => True end.

(** ** Where the blocks are *)

Definition cached (s : state) : list block := map_to_list (caches s) ≫= snd.
Definition globals (s : state) : list block := pools_ s ≫= globalFreeList_.
Definition carved (s : state) : list block := pools_ s ≫= pool_blocks.
Definition all_chunks (s : state) : list nat := pools_ s ≫= chunks_.

(** The allocations served by the pools, and those served by [std::malloc]. *)
Definition pooled (l : list (block * Z)) : list block := (filter (fun e => 0 <= size_to_class e.2) l).*1.
Definition system (l : list (block * Z)) : list (block * Z) := filter (fun e => size_to_class e.2 < 0) l.

Definition shape (p : pool) : Z * Z * Z := (blockSize_ p, blocksPerChunk_ p, localCacheLimit_ p).

Definition class_shape (i : Z) : Z * Z * Z := (alignBlockSize (8 * (i + 1)), 1024, 64).

Record Inv (c : client) : Prop := {
  inv_shape : shape <$> pools_ (st c) = class_shape <$> seqZ 0 NUM_CLASSES;
  inv_blocks : cached (st c) ++ globals (st c) ++ pooled (live c) ≡ₚ carved (st c);
  inv_chunks : NoDup (all_chunks (st c));
  inv_new : forall p r, p ∈ pools_ (st c) -> r ∈ chunks_ p ->
    regions (heap_ (st c)) !! r = Some (New, blockSize_ p * blocksPerChunk_ p);
  inv_owned : forall r n, regions (heap_ (st c)) !! r = Some (New, n) -> r ∈ all_chunks (st c);
  inv_next : forall r x, regions (heap_ (st c)) !! r = Some x -> (r < next (heap_ (st c)))%nat;
  inv_system : forall b size, (b, size) ∈ system (live c) ->
    offset b = 0 /\ regions (heap_ (st c)) !! region b = Some (Malloc, size);
  inv_system_nodup : NoDup (region <$> (system (live c)).*1)
}.

Lemma cached_lookup t s : cached s ≡ₚ localCache t s ++ (map_to_list (delete t (caches s)) ≫= snd).
Proof.
  unfold cached, localCache. destruct (caches s !! t) as [l|] eqn:E; cbn.
  - by rewrite <- (map_to_list_delete _ _ _ E).
  - by rewrite delete_id.
Qed.

Lemma cached_insert t l ps s h :
  cached (mkState ps (<[t := l]> (caches s)) h) ≡ₚ l ++ (map_to_list (delete t (caches s)) ≫= snd).
Proof.
  unfold cached. cbn [caches]. rewrite <- insert_delete_eq, map_to_list_insert by apply lookup_delete_eq. done.
Qed.

Lemma class_lookup c i p :
  Inv c -> pools_ (st c) !! i = Some p -> shape p = class_shape (Z.of_nat i) /\ (i < 512)%nat.
Proof.
  intros Hinv Hp. assert ((shape <$> pools_ (st c)) !! i = Some (shape p)) as H by (by rewrite list_lookup_fmap, Hp).
  rewrite (inv_shape _ Hinv), list_lookup_fmap in H. apply fmap_Some in H as (j & Hj & ->).
  apply lookup_seqZ in Hj as [-> Hj]. change NUM_CLASSES with 512 in Hj. split; [done|lia].
Qed.

Lemma class_exists c i : Inv c -> 0 <= i < NUM_CLASSES -> exists p, pools_ (st c) !! Z.to_nat i = Some p.
Proof.
  intros Hinv Hi. apply lookup_lt_is_Some. rewrite <- (length_fmap shape), (inv_shape _ Hinv).
  rewrite length_fmap, length_seqZ. lia.
Qed.

Lemma class_pool_ok i p : 0 <= i < 512 -> shape p = class_shape i -> pool_ok p /\ 8 * (i + 1) <= blockSize_ p.
Proof.
  intros Hi [= H1 H2 H3]. destruct (alignBlockSize_bounds (8 * (i + 1)) ltac:(lia)) as [_ H].
  unfold pool_ok. rewrite H1, H2, H3. lia.
Qed.

(** ** The invariant is preserved *)

(** Replacing a pool and a cache, seen from the blocks. *)
Lemma blocks_update c t i p p' local' new L L' h' :
  cached (st c) ++ globals (st c) ++ L ≡ₚ carved (st c) ->
  pools_ (st c) !! i = Some p -> pool_blocks p' = new ++ pool_blocks p ->
  local' ++ globalFreeList_ p' ++ L' ≡ₚ new ++ localCache t (st c) ++ globalFreeList_ p ++ L ->
  let s' := mkState (<[i := p']> (pools_ (st c))) (<[t := local']> (caches (st c))) h' in
  cached s' ++ globals s' ++ L' ≡ₚ carved s'.
Proof.
  intros Hb Hp Hnew Hmove s'. unfold s', globals, carved in *. cbn [pools_] in *.
  rewrite cached_insert, !(bind_insert _ _ _ _ _ Hp), Hnew.
  rewrite (cached_lookup t), !(bind_lookup _ _ _ _ Hp) in Hb.
  set (C := map_to_list (delete t (caches (st c))) ≫= snd) in *.
  set (G := delete i (pools_ (st c)) ≫= globalFreeList_) in *.
  transitivity ((local' ++ globalFreeList_ p' ++ L') ++ C ++ G); [solve_Permutation|].
  rewrite Hmove, <- (app_assoc new (pool_blocks p)), <- Hb. solve_Permutation.
Qed.

Lemma shape_update c i p p' :
  Inv c -> pools_ (st c) !! i = Some p -> same_shape p p' ->
  shape <$> <[i := p']> (pools_ (st c)) = class_shape <$> seqZ 0 NUM_CLASSES.
Proof.
  intros Hinv Hp (H1 & H2 & H3). rewrite list_fmap_insert, <- (inv_shape _ Hinv).
  apply list_insert_id. rewrite list_lookup_fmap, Hp. unfold shape. cbn. by rewrite H1, H2, H3.
Qed.

Lemma pooled_cons b size l :
  pooled ((b, size) :: l) = if decide (0 <= size_to_class size) then b :: pooled l else pooled l.
Proof. unfold pooled. rewrite filter_cons. cbn. by case_decide. Qed.

Lemma system_cons b size l :
  system ((b, size) :: l) = if decide (size_to_class size < 0) then (b, size) :: system l else system l.
Proof. unfold system. rewrite filter_cons. cbn. by case_decide. Qed.

(** The region facts when no region is added or removed. *)
Lemma inv_same_heap c i p p' cs l :
  Inv c -> pools_ (st c) !! i = Some p -> same_shape p p' -> chunks_ p' = chunks_ p -> system l ≡ₚ system (live c) ->
  let s' := mkState (<[i := p']> (pools_ (st c))) cs (heap_ (st c)) in
  cached s' ++ globals s' ++ pooled l ≡ₚ carved s' -> Inv (mkClient s' l).
Proof.
  intros Hinv Hp Hs Hc Hl s' Hb.
  assert (all_chunks s' ≡ₚ all_chunks (st c)) as Hall.
  { unfold all_chunks, s'. cbn [pools_]. by rewrite (bind_insert _ _ _ _ _ Hp), Hc, (bind_lookup chunks_ _ _ _ Hp). }
  split; cbn [st live].
  - by eapply shape_update.
  - done.
  - rewrite Hall. apply Hinv.
  - intros q r Hq Hr. apply list_elem_of_lookup in Hq as [j Hj]. unfold s' in *. cbn [pools_ heap_] in *.
    apply list_lookup_insert_Some in Hj as [(<- & <- & _)|[Hne Hj]].
    + destruct Hs as (-> & -> & _). rewrite Hc in Hr. eapply inv_new; [done|by eapply list_elem_of_lookup_2|done].
    + eapply inv_new; [done|by eapply list_elem_of_lookup_2|done].
  - intros r n Hr. rewrite Hall. by eapply inv_owned.
  - apply Hinv.
  - intros b size Hin. rewrite Hl in Hin. by apply Hinv.
  - rewrite Hl. apply Hinv.
Qed.

Lemma allocated_region_fresh c : Inv c -> regions (heap_ (st c)) !! next (heap_ (st c)) = None.
Proof.
  intros Hinv. destruct (regions (heap_ (st c)) !! next (heap_ (st c))) eqn:E; [|done].
  apply (inv_next _ Hinv) in E. lia.
Qed.

(** The region facts when a chunk is added. *)
Lemma inv_new_chunk c i p p' cs l :
  Inv c -> pools_ (st c) !! i = Some p -> same_shape p p' -> chunks_ p' = next (heap_ (st c)) :: chunks_ p ->
  system l = system (live c) ->
  let s' := mkState (<[i := p']> (pools_ (st c))) cs
              (sys_alloc New (blockSize_ p * blocksPerChunk_ p) (heap_ (st c))).2 in
  cached s' ++ globals s' ++ pooled l ≡ₚ carved s' -> Inv (mkClient s' l).
Proof.
  intros Hinv Hp Hs Hc Hl s' Hb. pose proof (allocated_region_fresh c Hinv) as Hfresh.
  set (n0 := next (heap_ (st c))) in *.
  assert (all_chunks s' ≡ₚ n0 :: all_chunks (st c)) as Hall.
  { unfold all_chunks, s'. cbn [pools_]. by rewrite (bind_insert _ _ _ _ _ Hp), Hc, (bind_lookup chunks_ _ _ _ Hp). }
  assert (n0 ∉ all_chunks (st c)) as Hnin.
  { intros (q & Hr & Hq)%list_elem_of_bind. by rewrite (inv_new _ Hinv q n0 Hq Hr) in Hfresh. }
  assert (regions (heap_ s') = <[n0 := (New, blockSize_ p * blocksPerChunk_ p)]> (regions (heap_ (st c)))) as Hreg by done.
  assert (next (heap_ s') = S n0) as Hnext by done.
  split; cbn [st live]; rewrite ?Hreg, ?Hnext.
  - by eapply shape_update.
  - done.
  - rewrite Hall. constructor; [done|apply Hinv].
  - intros q r Hq Hr. apply list_elem_of_lookup in Hq as [j Hj].
    assert (forall q, q ∈ pools_ (st c) -> r ∈ chunks_ q ->
      <[n0:=(New, blockSize_ p * blocksPerChunk_ p)]> (regions (heap_ (st c))) !! r = Some (New, blockSize_ q * blocksPerChunk_ q)) as Hold.
    { intros q' Hq' Hr'. pose proof (inv_new _ Hinv _ _ Hq' Hr'). rewrite lookup_insert_ne; [done|]. intros <-. congruence. }
    apply list_lookup_insert_Some in Hj as [(<- & <- & _)|[Hne Hj]].
    + destruct Hs as (Hs1 & Hs2 & _). rewrite Hc in Hr. apply elem_of_cons in Hr as [->|Hr].
      * by rewrite lookup_insert_eq, Hs1, Hs2.
      * rewrite Hs1, Hs2. apply Hold; [by eapply list_elem_of_lookup_2|done].
    + apply Hold; [by eapply list_elem_of_lookup_2|done].
  - intros r n Hr. rewrite Hall. apply lookup_insert_Some in Hr as [[<- _]|[_ Hr]]; [left|right; by eapply inv_owned].
  - intros r x [[<- _]|[_ Hr]]%lookup_insert_Some; [lia|]. apply (inv_next _ Hinv) in Hr. unfold n0. lia.
  - intros b size Hin. rewrite Hl in Hin. destruct (inv_system _ Hinv _ _ Hin) as [H1 H2]. split; [done|].
    rewrite lookup_insert_ne; [done|]. congruence.
  - rewrite Hl. apply Hinv.
Qed.

#[local] Instance system_proper : Proper ((≡ₚ) ==> (≡ₚ)) system.
Proof. intros l k Hlk. unfold system. by rewrite Hlk. Qed.

#[local] Instance pooled_proper : Proper ((≡ₚ) ==> (≡ₚ)) pooled.
Proof. intros l k Hlk. unfold pooled. by rewrite Hlk. Qed.

Lemma inv_malloc c size :
  Inv c -> size_to_class size < 0 ->
  Inv (mkClient (mkState (pools_ (st c)) (caches (st c)) (sys_alloc Malloc size (heap_ (st c))).2)
         ((Block (next (heap_ (st c))) 0, size) :: live c)).
Proof.
  intros Hinv Hcls. pose proof (allocated_region_fresh c Hinv) as Hfresh.
  split; cbn [st live sys_alloc snd pools_ heap_ regions next];
    rewrite ?pooled_cons, ?system_cons, ?(decide_False (P := 0 <= _)), ?(decide_True (P := _ < 0)) by lia.
  - apply Hinv.
  - apply Hinv.
  - apply Hinv.
  - intros p r Hp Hr. pose proof (inv_new _ Hinv _ _ Hp Hr). rewrite lookup_insert_ne; [done|congruence].
  - intros r n [[_ ?]|[_ Hr]]%lookup_insert_Some; [done|]. by eapply (inv_owned _ Hinv).
  - intros r x [[<- _]|[_ Hr]]%lookup_insert_Some; [lia|]. apply (inv_next _ Hinv) in Hr. lia.
  - intros b sz [[= -> ->]|Hin]%elem_of_cons; [by rewrite lookup_insert_eq|].
    destruct (inv_system _ Hinv _ _ Hin) as [H1 H2]. split; [done|]. rewrite lookup_insert_ne; [done|congruence].
  - cbn. constructor; [|apply Hinv]. intros (b & Hb & ([b' sz] & -> & Hin)%list_elem_of_fmap)%list_elem_of_fmap.
    destruct (inv_system _ Hinv _ _ Hin) as [_ H2]. cbn in Hb. congruence.
Qed.

Lemma inv_free c i b size :
  Inv c -> live c !! i = Some (b, size) -> size_to_class size < 0 ->
  exists h, sys_free (Some b) (heap_ (st c)) = Ok h /\
    Inv (mkClient (mkState (pools_ (st c)) (caches (st c)) h) (delete i (live c))).
Proof.
  intros Hinv Hi Hcls. pose proof (delete_Permutation _ _ _ Hi) as Hperm.
  assert (system (live c) ≡ₚ (b, size) :: system (delete i (live c))) as Hsys
    by (by rewrite Hperm, system_cons, decide_True at 1).
  assert (pooled (live c) ≡ₚ pooled (delete i (live c))) as Hpool
    by (by rewrite Hperm, pooled_cons, decide_False at 1 by lia).
  destruct (inv_system _ Hinv b size) as [Ho Hr]; [rewrite Hsys; left|].
  pose proof (inv_system_nodup _ Hinv) as Hnd. rewrite Hsys in Hnd. cbn in Hnd. apply NoDup_cons in Hnd as [Hnin Hnd].
  cbn [sys_free]. rewrite Hr, Ho. cbn. eexists. split; [done|].
  split; cbn [st live pools_ heap_ regions next].
  - apply Hinv.
  - rewrite <- Hpool. apply Hinv.
  - apply Hinv.
  - intros p r Hp Hr'. pose proof (inv_new _ Hinv _ _ Hp Hr'). rewrite lookup_delete_ne; [done|congruence].
  - intros r n [_ Hr']%lookup_delete_Some. by eapply (inv_owned _ Hinv).
  - intros r x [_ Hr']%lookup_delete_Some. by apply (inv_next _ Hinv) in Hr'.
  - intros b' sz Hin. destruct (inv_system _ Hinv b' sz) as [H1 H2]; [rewrite Hsys; by right|].
    split; [done|]. rewrite lookup_delete_ne; [done|]. intros Heq. apply Hnin. rewrite Heq.
    apply list_elem_of_fmap. exists b'. split; [done|]. apply list_elem_of_fmap. by exists (b', sz).
  - done.
Qed.

Lemma size_to_class_lt n : size_to_class n < NUM_CLASSES.
Proof.
  unfold size_to_class. change NUM_CLASSES with 512. unfold MAX_POOL_SIZE, ALIGN.
  destruct (4096 <? align_up n) eqn:E; reflect_bools; [lia|].
  pose proof (Z.div_le_mono (align_up n) 4096 8). change (4096 `div` 8) with 512 in *. lia.
Qed.

(** The pool that serves a size. *)
Lemma class_of_size c size :
  Inv c -> 0 <= size_to_class size ->
  exists p, pools_ (st c) !! Z.to_nat (size_to_class size) = Some p /\
    pool_ok p /\ shape p = class_shape (size_to_class size).
Proof.
  intros Hinv Hcls. pose proof (size_to_class_lt size) as Hlt.
  destruct (class_exists c _ Hinv (conj Hcls Hlt)) as [p Hp]. exists p. split; [done|].
  destruct (class_lookup _ _ _ Hinv Hp) as [Hshape Hi]. rewrite Z2Nat.id in Hshape by done.
  split; [|done]. change NUM_CLASSES with 512 in Hlt. by apply (class_pool_ok (size_to_class size)).
Qed.

Lemma alloc_inv c t ok size : Inv c -> exists c', exec c (Alloc t ok size) = Ok c' /\ Inv c'.
Proof.
  intros Hinv. cbn [exec]. unfold allocate. destruct (size_to_class size <? 0) eqn:Hcls; reflect_bools.
  { destruct ok; [|eexists; split; [done|by destruct c as [[]]]].
    eexists. split; [done|]. by apply inv_malloc. }
  destruct (class_of_size c size Hinv Hcls) as (p & Hp & Hpok & _). rewrite Hp.
  destruct (pool_allocate_allocates ok p (localCache t (st c)) (heap_ (st c)) Hpok)
    as [(b & local' & p' & h' & -> & Hs & Hcase)|[-> ->]]; run_binds; [|by eexists].
  eexists. split; [done|].
  assert (forall l, pooled ((b, size) :: l) = b :: pooled l) as Hpl by (intros; by rewrite pooled_cons, decide_True).
  assert (forall l, system ((b, size) :: l) = system l) as Hsl by (intros; by rewrite system_cons, decide_False by lia).
  destruct Hcase as [(Hc & -> & Hm)|(_ & Hc & -> & Hm)].
  - eapply inv_same_heap; [done..|by rewrite Hsl|].
    eapply (blocks_update c t _ p p' local' []); [apply Hinv|done| |].
    + unfold pool_blocks. destruct Hs as (-> & -> & _). by rewrite Hc.
    + rewrite Hpl. transitivity ((b :: local' ++ globalFreeList_ p') ++ pooled (live c)); [solve_Permutation|].
      rewrite Hm. solve_Permutation.
  - eapply inv_new_chunk; [done..|by rewrite Hsl|].
    eapply (blocks_update c t _ p p' local' (chunk_blocks (blockSize_ p) (blocksPerChunk_ p) (next (heap_ (st c)))));
      [apply Hinv|done| |].
    + unfold pool_blocks. destruct Hs as (-> & -> & _). by rewrite Hc.
    + rewrite Hpl. transitivity ((b :: local' ++ globalFreeList_ p') ++ pooled (live c)); [solve_Permutation|].
      rewrite Hm. solve_Permutation.
Qed.

Lemma dealloc_inv c t i : Inv c -> exists c', exec c (Dealloc t i) = Ok c' /\ Inv c'.
Proof.
  intros Hinv. cbn [exec]. destruct (live c !! i) as [[b size]|] eqn:Hl; [|by eexists]. unfold deallocate.
  destruct (size_to_class size <? 0) eqn:Hcls; reflect_bools.
  { destruct (inv_free c i b size Hinv Hl Hcls) as (h & -> & Hinv'). by eexists. }
  destruct (class_of_size c size Hinv Hcls) as (p & Hp & Hpok & _). rewrite Hp.
  pose proof (pool_deallocate_moves b p (localCache t (st c))) as Hmoves.
  destruct (pool_deallocate (Some b) p (localCache t (st c))) as [local' p']. destruct Hmoves as (Hs & Hc & Hm).
  run_binds. eexists. split; [done|].
  pose proof (delete_Permutation _ _ _ Hl) as Hperm.
  eapply inv_same_heap; [done..|by rewrite Hperm at 2; rewrite system_cons, decide_False by lia|].
  eapply (blocks_update c t _ p p' local' []); [apply Hinv|done| |].
  - unfold pool_blocks. destruct Hs as (-> & -> & _). by rewrite Hc.
  - rewrite Hperm at 2. rewrite pooled_cons, decide_True by done.
    transitivity ((local' ++ globalFreeList_ p') ++ pooled (delete i (live c))); [solve_Permutation|].
    rewrite Hm. solve_Permutation.
Qed.

#[export] Hint Resolve alloc_inv dealloc_inv : hspd.

Lemma exec_inv c o : Inv c -> exists c', exec c o = Ok c' /\ Inv c'.
Proof. destruct o; auto with hspd. Qed.

Lemma run_inv ops : forall c, Inv c -> exists c', run c ops = Ok c' /\ Inv c'.
Proof.
  induction ops as [|o ops IH]; intros c Hinv; [by eexists|]. cbn [run].
  destruct (exec_inv c o Hinv) as (c' & -> & Hinv'). by apply IH.
Qed.

(** ** The start *)

Definition empty_pool (i : Z) : pool := mkPool (alignBlockSize (8 * (i + 1))) 1024 64 [] [].

Lemma new_pools_ok n : forall i,
  0 <= i -> i + Z.of_nat n <= 512 -> new_pools n i = Ok (empty_pool <$> seqZ i (Z.of_nat n)).
Proof.
  induction n as [|n IH]; intros i Hi Hn; [done|].
  cbn [new_pools]. unfold new_pool. assert (wmul (i + 1) ALIGN = 8 * (i + 1)) as ->.
  { unfold wmul, ALIGN. rewrite u64_small by lia. lia. }
  destruct (alignBlockSize_bounds (8 * (i + 1)) ltac:(lia)) as [_ Hb].
  rewrite (proj2 (Z.leb_le _ _)) by lia. run_binds. rewrite IH by lia. run_binds.
  rewrite (seqZ_cons i) by lia. cbn [fmap list_fmap]. do 2 f_equal. do 2 f_equal; lia.
Qed.

(** A program that uses the manager from its construction on. *)
Definition start : outcome client := s ← new_manager; Ok (mkClient s []).
Definition trace (ops : list op) : outcome client := c ← start; run c ops.

Lemma start_ok : start = Ok (mkClient (mkState (empty_pool <$> seqZ 0 NUM_CLASSES) ∅ (mkHeap 0 ∅)) []).
Proof. unfold start, new_manager. by rewrite new_pools_ok. Qed.

Lemma bind_empty {A B} (f : A -> list B) l : Forall (fun x => f x = []) l -> l ≫= f = [].
Proof. induction 1 as [|x l Hx _ IH]; [done|]. cbn. by rewrite Hx. Qed.

Lemma start_inv c : start = Ok c -> Inv c.
Proof.
  rewrite start_ok. remember (empty_pool <$> seqZ 0 NUM_CLASSES) as ps eqn:Hps. intros [= <-].
  assert (forall B (f : pool -> list B), (forall i, f (empty_pool i) = []) -> ps ≫= f = []) as He.
  { intros B f Hf. rewrite Hps. apply bind_empty, Forall_fmap, Forall_true. done. }
  split; cbn [st live pools_ heap_ regions].
  - by rewrite Hps, <- list_fmap_compose.
  - unfold cached, globals, carved. cbn [pools_ caches]. rewrite map_to_list_empty, !He; done.
  - unfold all_chunks. cbn [pools_]. rewrite He by done. constructor.
  - rewrite Hps. intros p r (i & -> & _)%list_elem_of_fmap Hr. by apply not_elem_of_nil in Hr.
  - done.
  - done.
  - intros b size H. by apply not_elem_of_nil in H.
  - constructor.
Qed.

Lemma trace_inv ops : exists c, trace ops = Ok c /\ Inv c.
Proof.
  unfold trace. pose proof start_inv as Hs. rewrite start_ok in *. run_binds.
  by apply run_inv, Hs.
Qed.

(** ** Distinct and disjoint blocks *)

Lemma chunk_blocks_elem bs n r b :
  0 < bs -> bs * n < 2 ^ 64 ->
  b ∈ chunk_blocks bs n r <-> region b = r /\ exists k, 0 <= k < n /\ offset b = k * bs.
Proof.
  intros Hbs Hmul. unfold chunk_blocks. rewrite list_elem_of_fmap. split.
  - intros (k & -> & Hk%elem_of_seqZ). cbn. split; [done|]. exists k. split; [lia|].
    unfold wmul. apply u64_small. nia.
  - intros (Hr & k & Hk & Ho). exists k. split; [|apply elem_of_seqZ; lia].
    destruct b as [r' o]. cbn in *. subst. f_equal. unfold wmul. rewrite u64_small by nia. done.
Qed.

Lemma pool_blocks_elem p b :
  pool_ok p -> b ∈ pool_blocks p <->
  region b ∈ chunks_ p /\ exists k, 0 <= k < blocksPerChunk_ p /\ offset b = k * blockSize_ p.
Proof.
  intros (Hbs & _ & Hmul & _). unfold pool_blocks. rewrite list_elem_of_bind. split.
  - intros (r & Hb & Hr). apply chunk_blocks_elem in Hb as [-> Hk]; done.
  - intros (Hr & Hk). exists (region b). split; [|done]. by apply chunk_blocks_elem.
Qed.

Lemma chunk_blocks_nodup bs n r : 0 < bs -> bs * n < 2 ^ 64 -> NoDup (chunk_blocks bs n r).
Proof.
  intros Hbs Hmul. apply NoDup_fmap_2_strong; [|apply NoDup_seqZ].
  intros i j Hi%elem_of_seqZ Hj%elem_of_seqZ [= H]. unfold wmul in H. rewrite !u64_small in H by nia. nia.
Qed.

Lemma carved_nodup ps : Forall pool_ok ps -> NoDup (ps ≫= chunks_) -> NoDup (ps ≫= pool_blocks).
Proof.
  intros Hok. induction Hok as [|p ps Hp Hps IH]; cbn; [intros; constructor|].
  intros (Hn1 & Hd & Hn2)%NoDup_app. apply NoDup_app. split; [|split; [|by apply IH]].
  - destruct Hp as (Hbs & _ & Hmul & _). apply NoDup_bind; [|intros; by apply chunk_blocks_nodup|done].
    intros r1 r2 b _ _ H1 H2. apply chunk_blocks_elem in H1 as [<- _], H2 as [<- _]; done.
  - intros b [Hr _]%pool_blocks_elem (q & Hb & Hq)%list_elem_of_bind; [|done].
    apply (Hd (region b) Hr). apply list_elem_of_bind. exists q. split; [|done].
    rewrite Forall_forall in Hps. by apply pool_blocks_elem in Hb as [? _]; [|apply Hps].
Qed.

Lemma inv_pools_ok c : Inv c -> Forall pool_ok (pools_ (st c)).
Proof.
  intros Hinv. apply Forall_lookup. intros i p Hp.
  destruct (class_lookup _ _ _ Hinv Hp) as [Hs Hi]. by apply (class_pool_ok (Z.of_nat i)); [lia|].
Qed.

(** C3: No block is ever lost or handed out twice.  Whatever sequence of
    allocations and deallocations the threads of a program perform, the
    operations are all defined, and the blocks in the thread caches, in the
    free lists and in the hands of the program are exactly the blocks carved
    from the chunks, each exactly once. *)
Theorem blocks_conserved ops :
  exists c, trace ops = Ok c /\
    cached (st c) ++ globals (st c) ++ pooled (live c) ≡ₚ carved (st c) /\
    NoDup (cached (st c) ++ globals (st c) ++ pooled (live c)).
Proof.
  destruct (trace_inv ops) as (c & Hc & Hinv). exists c. split; [done|]. split; [apply Hinv|].
  rewrite (inv_blocks _ Hinv). apply carved_nodup; [by apply inv_pools_ok|apply Hinv].
Qed.

(** ** Memory safety *)

(** The bytes an allocation may use lie in its region. *)
Definition in_region (h : heap) (e : block * Z) : Prop :=
  exists o n, regions h !! region e.1 = Some (o, n) /\ 0 <= offset e.1 /\ offset e.1 + e.2 <= n.

Definition apart (e1 e2 : block * Z) : Prop :=
  region e1.1 <> region e2.1 \/ offset e1.1 + e1.2 <= offset e2.1 \/ offset e2.1 + e2.2 <= offset e1.1.

(** What an allocator owes its clients: every allocation lies in memory the
    system gave out, and no two of them share a byte. *)
Definition safe (c : client) : Prop :=
  (forall e, e ∈ live c -> in_region (heap_ (st c)) e) /\
  (forall i j e1 e2, i <> j -> live c !! i = Some e1 -> live c !! j = Some e2 -> apart e1 e2).

(** The requests are of one size class, or too large for any. *)
Definition op_class (k : Z) (o : op) : Prop :=
  match o with Alloc _ _ size => size_to_class size = k \/ size_to_class size < 0 | Dealloc _ _ => True end.

(** Only one class has chunks, and the allocations are of that class. *)
Definition one_class (k : Z) (c : client) : Prop :=
  (forall i p, pools_ (st c) !! i = Some p -> Z.of_nat i <> k -> chunks_ p = []) /\
  (forall e, e ∈ live c -> 0 <= e.2 < 2 ^ 64 /\ (size_to_class e.2 = k \/ size_to_class e.2 < 0)).

Lemma alloc_one_class k c t ok size c' :
  Inv c -> op_ok (Alloc t ok size) -> op_class k (Alloc t ok size) -> one_class k c ->
  exec c (Alloc t ok size) = Ok c' -> one_class k c'.
Proof.
  intros Hinv Hok Hk [Hc Hl]. cbn [exec op_ok op_class] in *. unfold allocate.
  destruct (size_to_class size <? 0) eqn:Hcls; reflect_bools.
  { destruct ok; intros [= <-]; (split; [done|]); cbn [live]; [|done].
    intros e [->|He]%elem_of_cons; [done|by apply Hl]. }
  destruct (class_of_size c size Hinv Hcls) as (p & Hp & Hpok & _). rewrite Hp.
  destruct (pool_allocate_allocates ok p (localCache t (st c)) (heap_ (st c)) Hpok)
    as [(b & local' & p' & h' & -> & _ & _)|[-> ->]]; run_binds; intros [= <-]; [|by split].
  split; cbn [st live pools_].
  - intros i q [(<- & _ & _)|[_ Hq]]%list_lookup_insert_Some Hne; [lia|by eapply Hc].
  - intros e [->|He]%elem_of_cons; [done|by apply Hl].
Qed.

Lemma dealloc_one_class k c t i c' :
  Inv c -> one_class k c -> exec c (Dealloc t i) = Ok c' -> one_class k c'.
Proof.
  intros Hinv [Hc Hl]. cbn [exec]. destruct (live c !! i) as [[b size]|] eqn:Hi; [|by intros [= <-]].
  assert (forall e, e ∈ delete i (live c) -> e ∈ live c) as Hdel.
  { intros e He. rewrite (delete_Permutation _ _ _ Hi). by right. }
  unfold deallocate. destruct (size_to_class size <? 0) eqn:Hcls; reflect_bools.
  { intros (s & (h & _ & [= <-])%bind_ok & [= <-])%bind_ok. split; [done|]. cbn [live]. auto. }
  destruct (class_of_size c size Hinv Hcls) as (p & Hp & _ & _). rewrite Hp.
  pose proof (pool_deallocate_moves b p (localCache t (st c))) as Hmoves.
  destruct (pool_deallocate (Some b) p (localCache t (st c))) as [local' p']. destruct Hmoves as (_ & Hch & _).
  intros [= <-]. split; cbn [st live pools_]; [|auto].
  intros j q [(<- & <- & _)|[_ Hq]]%list_lookup_insert_Some Hne; [rewrite Hch|]; by eapply Hc.
Qed.

Lemma run_one_class k ops : forall c,
  Inv c -> one_class k c -> Forall op_ok ops -> Forall (op_class k) ops ->
  exists c', run c ops = Ok c' /\ Inv c' /\ one_class k c'.
Proof.
  induction ops as [|o ops IH]; intros c Hinv H1 Hok Hk; [by eexists|]. cbn [run].
  inversion_clear Hok as [|?? Ho Hok']. inversion_clear Hk as [|?? Ho' Hk'].
  destruct (exec_inv c o Hinv) as (c' & E & Hinv'). rewrite E. run_binds. apply IH; [done| |done..].
  destruct o; [exact (alloc_one_class k c _ _ _ c' Hinv Ho Ho' H1 E)|exact (dealloc_one_class k c _ _ c' Hinv H1 E)].
Qed.

Lemma pooled_elem l b size : (b, size) ∈ l -> 0 <= size_to_class size -> b ∈ pooled l.
Proof.
  intros Hin Hc. unfold pooled. apply list_elem_of_fmap. exists (b, size). split; [done|].
  by apply list_elem_of_filter.
Qed.

(** Where a pooled allocation lies, when one class is in use. *)
Lemma pooled_place k c b size :
  Inv c -> one_class k c -> (b, size) ∈ live c -> 0 <= size_to_class size ->
  exists p j, 0 <= j < blocksPerChunk_ p /\ offset b = j * blockSize_ p /\ 0 < blockSize_ p /\
    size <= blockSize_ p /\ pools_ (st c) !! Z.to_nat k = Some p /\
    regions (heap_ (st c)) !! region b = Some (New, blockSize_ p * blocksPerChunk_ p).
Proof.
  intros Hinv [Hc Hl] Hin Hcls.
  assert (b ∈ carved (st c)) as Hb.
  { rewrite <- (inv_blocks _ Hinv). apply elem_of_app. right. apply elem_of_app. right. by eapply pooled_elem. }
  unfold carved in Hb. apply list_elem_of_bind in Hb as (p & Hb & Hp).
  pose proof (inv_new _ Hinv p (region b) Hp) as Hreg. apply list_elem_of_lookup in Hp as [i Hp].
  destruct (class_lookup _ _ _ Hinv Hp) as [Hshape Hi].
  destruct (class_pool_ok (Z.of_nat i) p ltac:(lia) Hshape) as [Hpok Hbs].
  apply pool_blocks_elem in Hb as (Hr & j & Hj & Ho); [|done].
  destruct (decide (Z.of_nat i = k)) as [<-|Hne]; [|by rewrite (Hc _ _ Hp Hne) in Hr; apply not_elem_of_nil in Hr].
  destruct (Hl _ Hin) as [Hsize [Hk|Hk]]; cbn in *; [|lia].
  destruct (size_to_class_pool size) as [_ Hfit]; [by apply size_to_class_nonneg; [|apply Z.ltb_ge]|].
  exists p, j. rewrite Nat2Z.id. destruct Hpok as (? & _). repeat split; try done; try lia. by apply Hreg.
Qed.

Lemma pooled_split c b size :
  Inv c -> (b, size) ∈ live c -> size_to_class size < 0 ->
  offset b = 0 /\ regions (heap_ (st c)) !! region b = Some (Malloc, size).
Proof. intros Hinv Hin Hcls. apply (inv_system _ Hinv). by apply list_elem_of_filter. Qed.

(** Two allocations of the same kind at different positions differ. *)
Lemma pooled_distinct c i j b1 b2 s1 s2 :
  Inv c -> i <> j -> live c !! i = Some (b1, s1) -> live c !! j = Some (b2, s2) ->
  0 <= size_to_class s1 -> 0 <= size_to_class s2 -> b1 <> b2.
Proof.
  intros Hinv Hne H1 H2 Hc1 Hc2 <-.
  pose proof (carved_nodup _ (inv_pools_ok _ Hinv) (inv_chunks _ Hinv)) as Hnd.
  change (NoDup (carved (st c))) in Hnd. rewrite <- (inv_blocks _ Hinv) in Hnd.
  apply NoDup_app in Hnd as (_ & _ & Hnd). apply NoDup_app in Hnd as (_ & _ & Hnd).
  rewrite (delete_Permutation _ _ _ H1), pooled_cons, decide_True in Hnd by done.
  apply NoDup_cons in Hnd as [Hnin _]. apply Hnin. eapply pooled_elem; [|exact Hc2].
  apply list_elem_of_lookup. destruct (decide (j < i)%nat).
  - exists j. by rewrite list_lookup_delete_lt.
  - exists (pred j). rewrite list_lookup_delete_ge by lia. by replace (S (pred j)) with j by lia.
Qed.

Lemma system_distinct c i j b1 b2 s1 s2 :
  Inv c -> i <> j -> live c !! i = Some (b1, s1) -> live c !! j = Some (b2, s2) ->
  size_to_class s1 < 0 -> size_to_class s2 < 0 -> region b1 <> region b2.
Proof.
  intros Hinv Hne H1 H2 Hc1 Hc2 Heq. pose proof (inv_system_nodup _ Hinv) as Hnd.
  rewrite (delete_Permutation _ _ _ H1), system_cons, decide_True in Hnd by done.
  cbn in Hnd. apply NoDup_cons in Hnd as [Hnin _]. apply Hnin. rewrite Heq.
  apply list_elem_of_fmap. exists b2. split; [done|]. apply list_elem_of_fmap. exists (b2, s2). split; [done|].
  apply list_elem_of_filter. split; [done|]. apply list_elem_of_lookup. destruct (decide (j < i)%nat).
  - exists j. by rewrite list_lookup_delete_lt.
  - exists (pred j). rewrite list_lookup_delete_ge by lia. by replace (S (pred j)) with j by lia.
Qed.

Lemma one_class_safe k c : Inv c -> one_class k c -> safe c.
Proof.
  intros Hinv H1. split.
  - intros [b size] Hin. destruct (decide (size_to_class size < 0)) as [Hc|Hc].
    + destruct (pooled_split c b size Hinv Hin Hc) as [Ho Hr]. exists Malloc, size. cbn. rewrite Ho. split; [done|lia].
    + destruct (pooled_place k c b size Hinv H1 Hin ltac:(lia)) as (p & j & Hj & Ho & Hbs & Hfit & _ & Hr).
      exists New, (blockSize_ p * blocksPerChunk_ p). cbn. split; [done|]. nia.
  - intros i j [b1 s1] [b2 s2] Hne Hi Hj. unfold apart. cbn.
    assert ((b1, s1) ∈ live c) as Hin1 by (by eapply list_elem_of_lookup_2).
    assert ((b2, s2) ∈ live c) as Hin2 by (by eapply list_elem_of_lookup_2).
    destruct (decide (size_to_class s1 < 0)) as [Hc1|Hc1], (decide (size_to_class s2 < 0)) as [Hc2|Hc2].
    + left. by eapply system_distinct.
    + left. destruct (pooled_split c b1 s1 Hinv Hin1 Hc1) as [_ Hr1].
      destruct (pooled_place k c b2 s2 Hinv H1 Hin2 ltac:(lia)) as (p & ? & _ & _ & _ & _ & _ & Hr2). congruence.
    + left. destruct (pooled_split c b2 s2 Hinv Hin2 Hc2) as [_ Hr2].
      destruct (pooled_place k c b1 s1 Hinv H1 Hin1 ltac:(lia)) as (p & ? & _ & _ & _ & _ & _ & Hr1). congruence.
    + destruct (pooled_place k c b1 s1 Hinv H1 Hin1 ltac:(lia)) as (p & j1 & _ & Ho1 & Hbs & Hf1 & Hp & _).
      destruct (pooled_place k c b2 s2 Hinv H1 Hin2 ltac:(lia)) as (p' & j2 & _ & Ho2 & _ & Hf2 & Hp' & _).
      rewrite Hp in Hp'. injection Hp' as <-.
      pose proof (pooled_distinct c i j b1 b2 s1 s2 Hinv Hne Hi Hj ltac:(lia) ltac:(lia)) as Hd.
      destruct (decide (region b1 = region b2)) as [Hr|]; [right|by left].
      assert (j1 <> j2) as Hj12 by (intros ->; apply Hd; destruct b1, b2; cbn in *; congruence).
      destruct (decide (j1 < j2)); nia.
Qed.

(** C29: Used with one size class, the pool is a correct allocator: if all
    requests of a program, by any of its threads, are of the same class (or too
    large for the pool), every allocation it holds lies in memory obtained from
    the system and no two of them share a byte. *)
Theorem one_class_is_safe k ops :
  Forall op_ok ops -> Forall (op_class k) ops -> exists c, trace ops = Ok c /\ safe c.
Proof.
  intros Hok Hk. unfold trace. pose proof start_inv as Hs. rewrite start_ok in *. run_binds.
  destruct (run_one_class k ops _ (Hs _ eq_refl)) as (c & -> & Hinv & H1); [|done..|].
  - split; cbn [st live pools_].
    + intros i p Hp _. rewrite list_lookup_fmap in Hp. apply fmap_Some in Hp as (j & _ & ->). done.
    + intros e He. by apply not_elem_of_nil in He.
  - exists c. split; [done|]. by eapply one_class_safe.
Qed.

Definition one_class_ops : list op :=
  [Alloc 0 true 30; Alloc 1 true 32; Alloc 0 true 25; Dealloc 1 2; Alloc 1 true 10000; Alloc 1 true 27].

Lemma one_class_is_safe_witness : exists c, trace one_class_ops = Ok c /\ safe c.
Proof.
  apply (one_class_is_safe 3).
  - repeat constructor; done.
  - repeat first [left; reflexivity|right; reflexivity|constructor].
Defined.

(** Used with two size classes, the pool breaks: the thread cache is shared
    by all pools, so after an allocation of 8 bytes one of 4096 bytes is served
    with the neighbouring 16-byte block, 32 bytes before the end of its chunk:
    it runs over the first allocation and past the end of the chunk. *)
Theorem two_classes_overlap :
  match trace [Alloc 0 true 8; Alloc 0 true 4096] with
  | Ok c =>
      live c = [(Block 0 16352, 4096); (Block 0 16368, 8)] /\
      regions (heap_ (st c)) !! 0%nat = Some (New, 16384) /\ ~ safe c
  | _ => False
  end.
Proof.
  assert (match trace [Alloc 0 true 8; Alloc 0 true 4096] with
          | Ok c => Some (live c, regions (heap_ (st c)) !! 0%nat) | _ => None end
          = Some ([(Block 0 16352, 4096); (Block 0 16368, 8)], Some (New, 16384))) as H by (by vm_compute).
  destruct (trace [Alloc 0 true 8; Alloc 0 true 4096]) as [c| | |]; try discriminate H. injection H as Hl Hr.
  split; [done|]. split; [done|]. intros [_ H]. rewrite Hl in H.
  destruct (H 0%nat 1%nat _ _ ltac:(done) eq_refl eq_refl) as [?|[?|?]]; cbn in *; lia.
Qed.

(** C39: The size classes are right for every 64-bit size: sizes 1 to 4096 go to
    one of the 512 classes, the smallest whose block size holds them, and that
    class has blocks that hold them; size 0 and sizes above 4096, including
    those where rounding up wraps around, go to the system. *)
Theorem size_to_class_correct n :
  0 <= n < 2 ^ 64 ->
  (1 <= n <= 4096 ->
     0 <= size_to_class n < NUM_CLASSES /\ n <= ALIGN * (size_to_class n + 1) < n + ALIGN /\
     exists s p, new_manager = Ok s /\ pools_ s !! Z.to_nat (size_to_class n) = Some p /\ n <= blockSize_ p) /\
  (n = 0 \/ 4096 < n -> size_to_class n = -1).
Proof.
  intros Hn. split; [|by apply size_to_class_system]. intros Hp.
  destruct (size_to_class_pool n Hp) as [Hr Hfit]. split; [done|]. split; [done|].
  exists (mkState (empty_pool <$> seqZ 0 NUM_CLASSES) ∅ (mkHeap 0 ∅)), (empty_pool (size_to_class n)).
  split; [unfold new_manager; by rewrite new_pools_ok|].
  cbn [pools_]. rewrite list_lookup_fmap, lookup_seqZ_lt by lia.
  rewrite Z2Nat.id by lia. split; [done|]. cbn.
  change NUM_CLASSES with 512 in Hr.
  destruct (alignBlockSize_bounds (8 * (size_to_class n + 1)) ltac:(lia)) as [_ H]. lia.
Qed.

Lemma size_to_class_correct_witness :
  0 <= size_to_class 4089 < NUM_CLASSES /\ size_to_class (2 ^ 64 - 3) = -1.
Proof.
  split.
  - destruct (size_to_class_correct 4089) as [H _]; [done|]. by apply H.
  - destruct (size_to_class_correct (2 ^ 64 - 3)) as [_ H]; [done|]. apply H. by right.
Defined.

(** A thread cache stays bounded: after a deallocation it holds at most
    twice the cache limit, and when it would hold more it is cut down to the
    limit, the rest going to the free list of the pool. *)
Theorem deallocate_bounds_cache b p local local' p' :
  0 <= localCacheLimit_ p < 2 ^ 63 -> pool_deallocate (Some b) p local = (local', p') ->
  Zlen local' <= 2 * localCacheLimit_ p /\
  (Zlen local' = Zlen local + 1 \/ Zlen local' = localCacheLimit_ p).
Proof.
  intros Hlim. unfold pool_deallocate. unfold wmul. rewrite u64_small by lia.
  destruct (localCacheLimit_ p * 2 <? Zlen (b :: local)) eqn:E; reflect_bools; unfold Zlen in E; cbn [length] in E.
  - unfold flushLocalToGlobal.
    destruct (flush_loop_split (localCacheLimit_ p) (b :: local) (globalFreeList_ p)) as (k & -> & Hk & _).
    intros [= <- <-]. rewrite Hk; [lia|unfold Zlen; cbn [length]; lia|lia].
  - intros [= <- <-]. unfold Zlen. cbn [length]. lia.
Qed.

Lemma deallocate_bounds_cache_witness :
  Zlen [Block 0 16] <= 2 * 1 /\ (Zlen [Block 0 16] = Zlen [Block 0 0; Block 0 16] + 1 \/ Zlen [Block 0 16] = 1).
Proof.
  apply (deallocate_bounds_cache (Block 0 32) (mkPool 16 1024 1 [] [0%nat]) [Block 0 0; Block 0 16] [Block 0 16]
           (mkPool 16 1024 1 [Block 0 0; Block 0 32] [0%nat])).
  - done.
  - done.
Defined.

Lemma delete_chunks_ok cs : forall h,
  NoDup cs -> (forall r, r ∈ cs -> exists n, regions h !! r = Some (New, n)) ->
  exists h', delete_chunks cs h = Ok h' /\
    (forall r, r ∈ cs -> regions h' !! r = None) /\ (forall r, r ∉ cs -> regions h' !! r = regions h !! r).
Proof.
  induction cs as [|c cs IH]; intros h Hnd Hnew; cbn [delete_chunks].
  - exists h. split; [done|]. split; [|done]. intros r Hr. by apply not_elem_of_nil in Hr.
  - apply NoDup_cons in Hnd as [Hnin Hnd]. destruct (Hnew c) as [n ->]; [left|].
    destruct (IH (mkHeap (next h) (delete c (regions h))) Hnd) as (h' & -> & H1 & H2).
    + intros r Hr. cbn. destruct (Hnew r) as [m Hm]; [by right|]. exists m.
      rewrite lookup_delete_ne; [done|]. by intros ->.
    + exists h'. split; [done|]. split.
      * intros r [->|Hr]%elem_of_cons; [|by apply H1]. rewrite H2 by done. cbn. apply lookup_delete_eq.
      * intros r [Hne Hr]%not_elem_of_cons. rewrite H2 by done. cbn. by rewrite lookup_delete_ne.
Qed.

Lemma destroy_pools_ok ps : forall h,
  NoDup (ps ≫= chunks_) -> (forall r, r ∈ ps ≫= chunks_ -> exists n, regions h !! r = Some (New, n)) ->
  exists h', destroy_pools ps h = Ok h' /\
    (forall r, r ∈ ps ≫= chunks_ -> regions h' !! r = None) /\
    (forall r, r ∉ ps ≫= chunks_ -> regions h' !! r = regions h !! r).
Proof.
  induction ps as [|p ps IH]; intros h Hnd Hnew; cbn [destroy_pools].
  - exists h. split; [done|]. split; [|done]. intros r Hr. by apply not_elem_of_nil in Hr.
  - change ((p :: ps) ≫= chunks_) with (chunks_ p ++ (ps ≫= chunks_)) in *. unfold destroy_pool.
    apply NoDup_app in Hnd as (Hn1 & Hd & Hn2).
    destruct (delete_chunks_ok (rev (chunks_ p)) h) as (h1 & -> & H1 & H2);
      [by rewrite <- Permutation_rev|intros r Hr%list_elem_of_In%in_rev%list_elem_of_In; apply Hnew, elem_of_app; by left|].
    assert (forall r, r ∈ rev (chunks_ p) <-> r ∈ chunks_ p) as Hrev by (intros r; by rewrite <- Permutation_rev).
    setoid_rewrite Hrev in H1. setoid_rewrite Hrev in H2. run_binds.
    destruct (IH h1 Hn2) as (h2 & -> & H3 & H4).
    + intros r Hr. rewrite H2 by (intros ?; by eapply Hd). apply Hnew, elem_of_app. by right.
    + exists h2. split; [done|]. split.
      * intros r [Hr|Hr]%elem_of_app; [|by apply H3]. rewrite H4 by (by apply Hd). by apply H1.
      * intros r Hr. rewrite H4, H2; [done|..]; intros ?; apply Hr, elem_of_app; auto.
Qed.

(** Destroying the manager is always defined and returns every chunk to the
    system exactly once: after any use, no chunk is freed twice and none is
    left, and the memory of large allocations is not touched. *)
Theorem destroy_returns_chunks ops :
  exists c h, trace ops = Ok c /\ destroy_manager (st c) = Ok h /\
    (forall r n, regions h !! r <> Some (New, n)) /\
    (forall r n, regions h !! r = Some (Malloc, n) <-> regions (heap_ (st c)) !! r = Some (Malloc, n)).
Proof.
  destruct (trace_inv ops) as (c & Hc & Hinv). exists c. unfold destroy_manager.
  assert (forall r, r ∈ all_chunks (st c) -> exists n, regions (heap_ (st c)) !! r = Some (New, n)) as Hnew.
  { intros r (p & Hr & Hp)%list_elem_of_bind. eexists. by apply (inv_new _ Hinv). }
  destruct (destroy_pools_ok (pools_ (st c)) (heap_ (st c)) (inv_chunks _ Hinv) Hnew) as (h & -> & H1 & H2).
  exists h. split; [done|]. split; [done|]. split.
  - intros r n Hr. destruct (decide (r ∈ all_chunks (st c))) as [Hin|Hin]; [by rewrite H1 in Hr|].
    rewrite H2 in Hr by done. exact (Hin (inv_owned _ Hinv _ _ Hr)).
  - intros r n. destruct (decide (r ∈ all_chunks (st c))) as [Hin|Hin]; [|by rewrite H2].
    rewrite H1 by done. destruct (Hnew r Hin) as [m ->]. split; congruence.
Qed.

End MemoryPool.
