(* ===== verification/Allocator.v ===== *)
(** * Typed allocation

    Models src/include/alloc/alloc.hpp: [Allocator::alloc], [alloc_array],
    [dealloc] and [dealloc_array] on top of the pool manager.  The element type
    is a parameter: its size and, for each construction, whether its
    constructor throws (the overload that forwards arguments is the same
    function with another constructor).  The world is the pool manager with the
    set of addresses at which an object lives; constructing outside the memory
    obtained, or destroying where no object lives, is undefined.  An operation
    that throws after changing the world returns the exception with it.  What the
    constructors of an array receive of the forwarded arguments is modelled apart. *)

From S2P Require Import Prelude MemoryPool.
Import MemoryPool.
#[local] Open Scope Z_scope.

Module Allocator.

Definition address : Type := nat * Z.

Record world : Type := mkWorld { mem : state; objects : gset address }.

(** The set equations of the two loops. *)
Lemma set_push (x : address) (X Y : gset address) : {[x]} ∪ X ∪ Y = X ∪ ({[x]} ∪ Y).
Proof. set_solver. Qed.
Lemma set_pop (x : address) (X Y : gset address) : X ∖ {[x]} ∖ Y = X ∖ ({[x]} ∪ Y).
Proof. set_solver. Qed.
Lemma set_pop_subset (x : address) (X Y : gset address) : {[x]} ∪ Y ⊆ X -> x ∉ Y -> x ∈ X /\ Y ⊆ X ∖ {[x]}.
Proof. set_solver. Qed.

Lemma set_undo (x : address) (X : gset address) : x ∉ X -> ({[x]} ∪ X) ∖ {[x]} = X.
Proof. set_solver. Qed.

(** What a typed allocation returns: the pointer, or the exception of the
    constructor, which is thrown on. *)
Inductive result : Type := Pointer (b : block) | Rethrown.

Section element.

(** [sizeof(T)], and whether the [i]-th construction throws. *)
Context (sizeof : Z) (throws : Z -> bool).

Definition element (b : block) (i : Z) : address := (region b, offset b + i * sizeof).

(** [new (&arr[i]) T(...)], when the constructor does not throw. *)
Definition construct (b : block) (i : Z) (w : world) : outcome world :=
  match regions (heap_ (mem w)) !! region b with
  | Some (_, n) =>
      if (element b i).2 + sizeof <=? n then Ok (mkWorld (mem w) ({[element b i]} ∪ objects w)) else Undefined
  | None => Undefined
  end.

(** [arr[i].~T()] *)
Definition destroy (b : block) (i : Z) (w : world) : outcome world :=
  if decide (element b i ∈ objects w) then Ok (mkWorld (mem w) (objects w ∖ {[element b i]})) else Undefined.

(** The construction loop from element [i] on, [n] elements left: whether a
    constructor threw, and the world at that point. *)
Fixpoint construct_loop (n : nat) (i : Z) (b : block) (w : world) : outcome (bool * world) :=
  match n with
  | O => Ok (false, w)
  | S n =>
      if throws i then Ok (true, w)
      else w ← construct b i w; construct_loop n (i + 1) b w
  end.

Fixpoint destroy_loop (n : nat) (i : Z) (b : block) (w : world) : outcome world :=
  match n with
  | O => Ok w
  | S n => w ← destroy b i w; destroy_loop n (i + 1) b w
  end.

Definition release (t : nat) (b : block) (size : Z) (w : world) : outcome world :=
  s ← deallocate t (Some b) size (mem w);
  Ok (mkWorld s (objects w)).

(** [alloc<T>(args...)] by thread [t]; [ok] says whether the system has memory. *)
Definition alloc (t : nat) (ok : bool) (w : world) : outcome (result * world) :=
  '(p, s) ← allocate t ok sizeof (mem w);
  let w := mkWorld s (objects w) in
  match p with
  | None => Undefined
  | Some b =>
      if throws 0 then w ← release t b sizeof w; Ok (Rethrown, w)
      else w ← construct b 0 w; Ok (Pointer b, w)
  end.

(** [alloc_array<T>(n, args...)] *)
Definition alloc_array (t : nat) (ok : bool) (n : Z) (w : world) : outcome (option result * world) :=
  let sz := wmul sizeof n in
  '(p, s) ← allocate t ok sz (mem w);
  let w := mkWorld s (objects w) in
  match p with
  | None => if 0 <? n then Undefined else Ok (None, w)
  | Some b =>
      '(threw, w) ← construct_loop (Z.to_nat n) 0 b w;
      if threw : bool then
        w ← destroy_loop (Z.to_nat n) 0 b w;
        w ← release t b sz w;
        Ok (Some Rethrown, w)
      else Ok (Some (Pointer b), w)
  end.

(** [dealloc(p)] *)
Definition dealloc (t : nat) (p : option block) (w : world) : outcome world :=
  match p with
  | None => Ok w
  | Some b => w ← destroy b 0 w; release t b sizeof w
  end.

(** [dealloc_array(p, n)] *)
Definition dealloc_array (t : nat) (p : option block) (n : Z) (w : world) : outcome world :=
  match p with
  | None => Ok w
  | Some b => w ← destroy_loop (Z.to_nat n) 0 b w; release t b (wmul sizeof n) w
  end.

(** ** Elements *)

(** The addresses of [n] elements from the [i]-th on. *)
Definition elements (n : nat) (i : Z) (b : block) : gset address :=
  list_to_set (element b <$> seqZ i (Z.of_nat n)).

Lemma elements_S n i b : elements (S n) i b = {[element b i]} ∪ elements n (i + 1) b.
Proof.
  unfold elements. rewrite seqZ_cons by lia. cbn [fmap list_fmap list_to_set].
  replace (Z.pred (Z.of_nat (S n))) with (Z.of_nat n) by lia. by replace (Z.succ i) with (i + 1) by lia.
Qed.

Lemma elements_0 i b : elements 0 i b = ∅.
Proof. done. Qed.

Hypothesis sizeof_pos : 0 < sizeof.

Lemma element_inj b i j : element b i = element b j -> i = j.
Proof. intros [= H]. nia. Qed.

Lemma element_notin n i j b : j < i -> element b j ∉ elements n i b.
Proof.
  intros Hj. unfold elements. rewrite elem_of_list_to_set, list_elem_of_fmap.
  intros (k & Hk%element_inj & Hin%elem_of_seqZ). lia.
Qed.

Lemma construct_loop_mem n : forall i b w threw w',
  construct_loop n i b w = Ok (threw, w') -> mem w' = mem w.
Proof.
  induction n as [|n IH]; intros i b w threw w'; cbn [construct_loop]; [by intros [= _ <-]|].
  destruct (throws i); [by intros [= _ <-]|]. intros (w1 & Hw1 & ->%IH)%bind_ok.
  unfold construct in Hw1. destruct (regions _ !! _) as [[]|]; [|done]. case_match; [|done]. by injection Hw1 as <-.
Qed.

(** The loop constructs the elements before the first constructor that throws. *)
Lemma construct_loop_objects n : forall i b w threw w',
  construct_loop n i b w = Ok (threw, w') ->
  exists k, (k <= n)%nat /\ objects w' = objects w ∪ elements k i b /\ (threw = false -> k = n) /\
    (threw = true -> (k < n)%nat /\ throws (i + Z.of_nat k) = true).
Proof.
  induction n as [|n IH]; intros i b w threw w'; cbn [construct_loop].
  - intros [= <- <-]. exists O. split; [done|]. split; [|done]. by rewrite elements_0, union_empty_r_L.
  - destruct (throws i) eqn:Ht.
    + intros [= <- <-]. exists O. split; [lia|]. split; [by rewrite elements_0, union_empty_r_L|]. split; [done|].
      rewrite Z.add_0_r. split; [lia|done].
    + intros (w1 & Hw1 & (k & Hk & Hobj & H1 & H2)%IH)%bind_ok.
      unfold construct in Hw1. destruct (regions _ !! _) as [[]|]; [|done]. case_match; [|done]. injection Hw1 as <-.
      exists (S k). split; [lia|]. split; [|split].
      * rewrite Hobj, elements_S. cbn [objects]. apply set_push.
      * intros Hf. by rewrite H1.
      * intros Hf. destruct (H2 Hf) as [Hlt Hthrow]. split; [lia|].
        by replace (i + Z.of_nat (S k)) with (i + 1 + Z.of_nat k) by lia.
Qed.

Lemma destroy_loop_objects n : forall i b w,
  elements n i b ⊆ objects w ->
  destroy_loop n i b w = Ok (mkWorld (mem w) (objects w ∖ elements n i b)).
Proof.
  induction n as [|n IH]; intros i b w Hsub; cbn [destroy_loop].
  - rewrite elements_0, difference_empty_L. by destruct w.
  - rewrite elements_S in Hsub |- *. pose proof (element_notin n (i + 1) i b ltac:(lia)) as Hnin.
    destruct (set_pop_subset _ _ _ Hsub Hnin) as [Hin Hsub']. unfold destroy. rewrite decide_True by done.
    run_binds. rewrite IH by done. cbn [mem objects]. by rewrite set_pop.
Qed.

(** Destroying a range of which some element does not live is undefined. *)
Lemma destroy_loop_undefined n : forall i b w j,
  (j < n)%nat -> element b (i + Z.of_nat j) ∉ objects w -> destroy_loop n i b w = Undefined.
Proof.
  induction n as [|n IH]; intros i b w j Hj Hnin; [lia|]. cbn [destroy_loop]. unfold destroy.
  case_decide as Hin; [|done]. run_binds.
  destruct j as [|j]; [by rewrite Z.add_0_r in Hnin|].
  apply (IH _ _ _ j); [lia|]. cbn [objects]. replace (i + 1 + Z.of_nat j) with (i + Z.of_nat (S j)) by lia.
  by intros [? _]%elem_of_difference.
Qed.

End element.

(** ** Theorems *)

Lemma construct_loop_cases sizeof throws n : forall i b w,
  construct_loop sizeof throws n i b w = Undefined \/
  exists threw w', construct_loop sizeof throws n i b w = Ok (threw, w').
Proof.
  induction n as [|n IH]; intros i b w; cbn [construct_loop]; [eauto|].
  destruct (throws i); [eauto|]. unfold construct. destruct (regions _ !! _) as [[]|]; [|by left].
  case_match; [apply IH|by left].
Qed.

Lemma construct_loop_no_throw sizeof throws n : forall i b w w' k,
  construct_loop sizeof throws n i b w = Ok (false, w') -> i <= k < i + Z.of_nat n -> throws k = false.
Proof.
  induction n as [|n IH]; intros i b w w' k; cbn [construct_loop]; [lia|].
  destruct (throws i) eqn:Ht; [done|]. intros (w1 & _ & H)%bind_ok Hk.
  destruct (decide (k = i)) as [->|Hne]; [done|]. apply (IH _ _ _ _ k) in H; [done|lia].
Qed.

Lemma release_inv t b size w lv :
  Inv (mkClient (mem w) ((b, size) :: lv)) ->
  exists w', release t b size w = Ok w' /\ objects w' = objects w /\ Inv (mkClient (mem w') lv).
Proof.
  intros Hinv. destruct (dealloc_inv _ t 0 Hinv) as (c & Hc & Hinv'). cbn in Hc.
  apply bind_ok in Hc as (s & Hs & [= <-]). unfold release. rewrite Hs. cbn. eexists. split; [done|]. done.
Qed.

Lemma allocate_inv t ok size s b s' lv :
  Inv (mkClient s lv) -> allocate t ok size s = Ok (Some b, s') -> Inv (mkClient s' ((b, size) :: lv)).
Proof.
  intros Hinv Ha. destruct (alloc_inv _ t ok size Hinv) as (c & Hc & Hinv'). cbn in Hc. rewrite Ha in Hc.
  by injection Hc as <-.
Qed.

(** A constructor that throws leaves nothing behind in [alloc]: the exception
    comes out, no object is created, and the block is back with the pool, whose
    invariant holds for the allocations held before. *)
Theorem alloc_exception_safe sizeof throws t ok w b s lv :
  Inv (mkClient (mem w) lv) -> allocate t ok sizeof (mem w) = Ok (Some b, s) -> throws 0 = true ->
  exists w', alloc sizeof throws t ok w = Ok (Rethrown, w') /\
    objects w' = objects w /\ Inv (mkClient (mem w') lv).
Proof.
  intros Hinv Ha Ht. unfold alloc. rewrite Ha. run_binds. rewrite Ht.
  destruct (release_inv t b sizeof (mkWorld s (objects w)) lv) as (w' & -> & Ho & Hinv');
    [by eapply allocate_inv|]. by exists w'.
Qed.

(** A program's first state, and its first allocation of 16 bytes. *)
Definition first_world : world :=
  mkWorld (match start with Ok c => st c | _ => mkState [] ∅ (mkHeap 0 ∅) end) ∅.
Definition first_allocation : state :=
  match allocate 0 true 16 (mem first_world) with Ok (_, s) => s | _ => mem first_world end.

Lemma first_world_inv : Inv (mkClient (mem first_world) []).
Proof. unfold first_world. pose proof start_inv as H. rewrite start_ok in *. apply H. done. Qed.

Lemma first_allocation_ok : allocate 0 true 16 (mem first_world) = Ok (Some (Block 0 16368), first_allocation).
Proof. by vm_compute. Qed.

Lemma alloc_exception_safe_witness :
  exists w', alloc 16 (fun _ => true) 0 true first_world = Ok (Rethrown, w') /\
    objects w' = ∅ /\ Inv (mkClient (mem w') []).
Proof.
  apply (alloc_exception_safe 16 (fun _ => true) 0 true first_world (Block 0 16368) first_allocation []).
  - apply first_world_inv.
  - apply first_allocation_ok.
  - done.
Defined.

(** Objects round trip: an allocated object is alive at the start of its block,
    and giving it back, by any thread, is defined, destroys it and returns the
    block to the pool. *)
Theorem object_roundtrip sizeof throws t t' ok w b w1 lv :
  Inv (mkClient (mem w) lv) -> alloc sizeof throws t ok w = Ok (Pointer b, w1) ->
  element sizeof b 0 ∉ objects w ->
  objects w1 = {[element sizeof b 0]} ∪ objects w /\
  exists w2, dealloc sizeof t' (Some b) w1 = Ok w2 /\ objects w2 = objects w /\ Inv (mkClient (mem w2) lv).
Proof.
  intros Hinv (([p|] & s) & Ha & H)%bind_ok Hnin; [|done].
  destruct (throws 0); [by apply bind_ok in H as (? & _ & H)|].
  apply bind_ok in H as (w' & Hc & [= -> ->]). unfold construct in Hc. cbn [mem objects] in Hc.
  destruct (regions _ !! _) as [[o n]|]; [|done]. destruct (_ <=? n); [|done]. injection Hc as <-.
  split; [done|]. unfold dealloc, destroy. cbn [objects mem]. rewrite decide_True by (by apply elem_of_union_l, elem_of_singleton).
  run_binds. rewrite set_undo by done.
  apply (release_inv t' b sizeof (mkWorld s (objects w)) lv). by eapply allocate_inv.
Qed.

Lemma object_roundtrip_witness :
  exists w1, objects w1 = {[(0%nat, 16368)]} ∪ ∅ /\
  exists w2, dealloc 16 1 (Some (Block 0 16368)) w1 = Ok w2 /\ objects w2 = ∅ /\ Inv (mkClient (mem w2) []).
Proof.
  exists (match alloc 16 (fun _ => false) 0 true first_world with Ok (_, w) => w | _ => first_world end).
  apply (object_roundtrip 16 (fun _ => false) 0 1 true first_world (Block 0 16368)).
  - apply first_world_inv.
  - by vm_compute.
  - apply not_elem_of_empty.
Defined.

(** Arrays round trip: an array that was allocated has all its elements
    alive, and giving it back, by any thread, is defined, destroys exactly
    these elements and returns the block to the pool. *)
Theorem array_roundtrip sizeof throws t t' ok n w b w1 lv :
  0 < sizeof -> Inv (mkClient (mem w) lv) ->
  alloc_array sizeof throws t ok n w = Ok (Some (Pointer b), w1) ->
  objects w ## elements sizeof (Z.to_nat n) 0 b ->
  objects w1 = objects w ∪ elements sizeof (Z.to_nat n) 0 b /\
  exists w2, dealloc_array sizeof t' (Some b) n w1 = Ok w2 /\
    objects w2 = objects w /\ Inv (mkClient (mem w2) lv).
Proof.
  intros Hsz Hinv (([p|] & s) & Ha & H)%bind_ok Hdisj; [|by case_match].
  apply bind_ok in H as ([threw w'] & Hc & H). destruct threw.
  { apply bind_ok in H as (? & _ & H). by apply bind_ok in H as (? & _ & H). }
  injection H as -> ->. pose proof (construct_loop_mem _ _ _ _ _ _ _ _ Hc) as Hmem.
  apply construct_loop_objects in Hc as (k & _ & Hobj & Hk & _). rewrite Hk in Hobj by done. cbn in Hobj, Hmem.
  split; [done|]. unfold dealloc_array. rewrite destroy_loop_objects by (done || set_solver).
  run_binds.
  destruct (release_inv t' b (wmul sizeof n) (mkWorld (mem w1) (objects w1 ∖ elements sizeof (Z.to_nat n) 0 b)) lv)
    as (w2 & -> & Ho & Hinv').
  - cbn [mem]. rewrite Hmem. by eapply allocate_inv.
  - exists w2. split; [done|]. split; [|done]. rewrite Ho. cbn [objects]. rewrite Hobj. set_solver.
Qed.

Lemma array_roundtrip_witness :
  exists w1, objects w1 = elements 8 2 0 (Block 0 16368) /\
  exists w2, dealloc_array 8 1 (Some (Block 0 16368)) 2 w1 = Ok w2 /\
    objects w2 = ∅ /\ Inv (mkClient (mem w2) []).
Proof.
  exists (match alloc_array 8 (fun _ => false) 0 true 2 first_world with Ok (_, w) => w | _ => first_world end).
  rewrite <- (union_empty_l_L (elements 8 2 0 (Block 0 16368))).
  apply (array_roundtrip 8 (fun _ => false) 0 1 true 2 first_world (Block 0 16368)).
  - done.
  - apply first_world_inv.
  - by vm_compute.
  - apply disjoint_empty_l.
Defined.

(** An array whose construction fails is destroyed wrongly: if the
    constructor of any element throws, the handler runs the destructor on all
    [n] elements, including those that were never constructed, which is
    undefined. *)
Theorem array_throw_is_undefined sizeof throws t ok n w b s k :
  0 < sizeof -> allocate t ok (wmul sizeof n) (mem w) = Ok (Some b, s) ->
  0 <= k < n -> throws k = true -> objects w ## elements sizeof (Z.to_nat n) 0 b ->
  alloc_array sizeof throws t ok n w = Undefined.
Proof.
  intros Hsz Ha Hk Ht Hdisj. unfold alloc_array. rewrite Ha. run_binds.
  destruct (construct_loop_cases sizeof throws (Z.to_nat n) 0 b (mkWorld s (objects w))) as [->|(threw & w' & E)]; [done|].
  rewrite E. run_binds. destruct threw.
  2:{ rewrite (construct_loop_no_throw _ _ _ _ _ _ _ k E) in Ht by lia. done. }
  apply construct_loop_objects in E as (j & _ & Hobj & _ & Hj). destruct (Hj eq_refl) as [Hlt _]. cbn in Hobj.
  rewrite (destroy_loop_undefined _ _ _ _ _ j); [done|done|]. rewrite Hobj.
  assert (element sizeof b (0 + Z.of_nat j) ∈ elements sizeof (Z.to_nat n) 0 b) as Hin.
  { unfold elements. apply elem_of_list_to_set, list_elem_of_fmap. exists (0 + Z.of_nat j).
    split; [done|]. apply elem_of_seqZ. lia. }
  intros [Ho|Ho]%elem_of_union; [by eapply Hdisj|]. unfold elements in Ho.
  apply elem_of_list_to_set, list_elem_of_fmap in Ho as (i & Hi & Hs%elem_of_seqZ).
  apply element_inj in Hi; [lia|done].
Qed.

Lemma array_throw_is_undefined_witness :
  alloc_array 8 (fun i => i =? 1) 0 true 2 first_world = Undefined.
Proof.
  apply (array_throw_is_undefined 8 (fun i => i =? 1) 0 true 2 first_world (Block 0 16368) first_allocation 1).
  - done.
  - apply first_allocation_ok.
  - done.
  - done.
  - apply disjoint_empty_l.
Defined.

(** The size of an array is not checked for overflow: for 2^60 + 1 elements
    of 16 bytes the product wraps around to 16, the pool serves a 16-byte
    block, and constructing the second element is already outside the chunk. *)
Theorem array_size_wraps :
  wmul 16 (2 ^ 60 + 1) = 16 /\ alloc_array 16 (fun _ => false) 0 true (2 ^ 60 + 1) first_world = Undefined.
Proof.
  assert (wmul 16 (2 ^ 60 + 1) = 16) as Hw by done. split; [exact Hw|].
  unfold alloc_array. rewrite Hw, first_allocation_ok. run_binds.
  assert (exists m, Z.to_nat (2 ^ 60 + 1) = S (S m)) as [m ->].
  { exists (Z.to_nat (2 ^ 60 - 1)). lia. }
  cbn [construct_loop mbind outcome_bind]. unfold construct. cbn [mem].
  assert (regions (heap_ first_allocation) !! 0%nat = Some (New, 16384)) as Hr by (by vm_compute).
  cbn [region]. rewrite !Hr. done.
Qed.

(** ** The arguments of an array's constructors *)

Section arguments.
Context {A : Type} (moved_from : A).

(** An argument of [alloc_array(n, args...)]: an object of the caller, or a temporary. *)
Inductive argument : Type := LValue (a : A) | RValue (a : A).

(** [std::forward<Args>(args)] given to a constructor: its value there, and the argument
    afterwards; a constructor that is given a temporary may move out of it. *)
Definition forward (x : argument) : A * argument :=
  match x with LValue a => (a, LValue a) | RValue a => (a, RValue moved_from) end.

(** What the constructors of [n] elements receive. *)
Fixpoint forward_loop (n : nat) (args : list argument) : list (list A) :=
  match n with
  | O => []
  | S n => (fst <$> (forward <$> args)) :: forward_loop n (snd <$> (forward <$> args))
  end.

(** The arguments are the same for all elements only when they are objects of the
    caller: a temporary reaches the first element, the others get what is left. *)
Lemma forwarded_arguments n (vs : list A) :
  forward_loop n (LValue <$> vs) = replicate n vs /\
  forward_loop (S n) (RValue <$> vs) = vs :: replicate n (replicate (length vs) moved_from).
Proof.
  assert (forall ws : list A, fst <$> (forward <$> (RValue <$> ws)) = ws) as H1
    by (intros ws; induction ws as [|w ws IH]; [done|]; cbn in *; by rewrite IH).
  assert (forall ws : list A, snd <$> (forward <$> (RValue <$> ws)) = RValue <$> replicate (length ws) moved_from) as H2
    by (intros ws; induction ws as [|w ws IH]; [done|]; cbn in *; by rewrite IH).
  assert (forall ws : list A, fst <$> (forward <$> (LValue <$> ws)) = ws) as H3
    by (intros ws; induction ws as [|w ws IH]; [done|]; cbn in *; by rewrite IH).
  assert (forall ws : list A, snd <$> (forward <$> (LValue <$> ws)) = LValue <$> ws) as H4
    by (intros ws; induction ws as [|w ws IH]; [done|]; cbn in *; by rewrite IH).
  split.
  - induction n as [|n IH]; cbn [forward_loop replicate]; [done|]. by rewrite H3, H4, IH.
  - cbn [forward_loop]. rewrite H1, H2. f_equal. induction n as [|n IH]; cbn [forward_loop replicate]; [done|].
    by rewrite H1, H2, length_replicate, IH.
Qed.

End arguments.

End Allocator.
