(* ===== verification/ThreadPool.v ===== *)
(** * The thread pool

    Models src/include/tools/ThreadPool.hpp as a transition system.  A state
    holds the members of the class, the program counters of the worker threads,
    of the callers inside [_addTask] and of a caller inside [stop] or
    [stopHard], and the history the theorems speak about.  One event is one
    step of one thread; what happens inside a critical section is split where
    another thread can interfere, which is at the accesses to [running_] and at
    the release of the mutex by [cv_.wait].  Blocked threads may also wake up
    spuriously.  [run] and the stopping functions are called by one controlling
    thread; tasks are added by any thread, including the workers.  Each task is
    a value of an arbitrary type: the wrapper [addTask] builds around it runs
    once and passes a result or an exception to its future, so a task always
    returns to the worker.

    The theorems: the counters, the mutual exclusion and the accounting of
    tasks hold in every reachable state; no added task waits forever; a pool
    that was stopped has run its tasks; stopping can hang; and a pool that was not
    stopped with [stopHard] can be destroyed. *)

From S2P Require Import Prelude.
#[local] Open Scope Z_scope.

Module ThreadPool.

(** Where a worker is in its loop. *)
Inductive phase (task : Type) : Type :=
| AtLock                       (** before locking the mutex *)
| AtTest                       (** has the mutex, evaluates the wait predicate *)
| Sleepy                       (** has the mutex, found the predicate false *)
| Blocked                      (** waits on the condition variable *)
| Woken                        (** woken up, has to lock the mutex again *)
| AtTake                       (** has the mutex, the wait is over *)
| Running (t : task)           (** runs a task *)
| Exited.
Arguments AtLock {task}.
Arguments AtTest {task}.
Arguments Sleepy {task}.
Arguments Blocked {task}.
Arguments Woken {task}.
Arguments AtTake {task}.
Arguments Running {task} t.
Arguments Exited {task}.

(** Where the caller of [stop] (or of [stopHard], when [hard]) is. *)
Inductive stopper : Type :=
| NotStopping
| Notifying (hard : bool)
| Joining
| Draining.

Section pool.
Context {task : Type}.

Record pool : Type := mk {
  task_queue_ : list task;
  task_num_ : Z;                (** an [int], which wraps around *)
  waiting_threads_ : Z;         (** an [int]; at most the number of threads, see [waiting_bounded] *)
  running_ : bool;
  mtx_ : option nat;            (** the worker that has the mutex *)
  threads_ : list nat;          (** the threads of the vector, by number *)
  workers : list (phase task);  (** every thread started so far *)
  checking : nat;               (** callers of [_addTask] before the test of [waiting_threads_] *)
  notifying : nat;              (** callers of [_addTask] before [notify_one] *)
  stopping : stopper;
  added : list task;            (** the tasks added so far, in order *)
  started : list task;          (** the tasks started so far, in order *)
  finished : list task;
  dropped : list task           (** the tasks [stop] removed from the queue *)
}.

Definition new : pool := mk [] 0 0 false None [] [] 0 0 NotStopping [] [] [] [].

Definition THREADS_NUM : nat := 2.

(** Updates of the parts. *)
Definition set_worker (w : nat) (ph : phase task) (s : pool) : pool :=
  mk (task_queue_ s) (task_num_ s) (waiting_threads_ s) (running_ s) (mtx_ s) (threads_ s)
    (<[w := ph]> (workers s)) (checking s) (notifying s) (stopping s) (added s) (started s) (finished s) (dropped s).

Definition set_mutex (m : option nat) (s : pool) : pool :=
  mk (task_queue_ s) (task_num_ s) (waiting_threads_ s) (running_ s) m (threads_ s)
    (workers s) (checking s) (notifying s) (stopping s) (added s) (started s) (finished s) (dropped s).

Definition set_waiting (n : Z) (s : pool) : pool :=
  mk (task_queue_ s) (task_num_ s) n (running_ s) (mtx_ s) (threads_ s)
    (workers s) (checking s) (notifying s) (stopping s) (added s) (started s) (finished s) (dropped s).

Definition set_callers (c n : nat) (s : pool) : pool :=
  mk (task_queue_ s) (task_num_ s) (waiting_threads_ s) (running_ s) (mtx_ s) (threads_ s)
    (workers s) c n (stopping s) (added s) (started s) (finished s) (dropped s).

Definition set_stopping (st : stopper) (s : pool) : pool :=
  mk (task_queue_ s) (task_num_ s) (waiting_threads_ s) (running_ s) (mtx_ s) (threads_ s)
    (workers s) (checking s) (notifying s) st (added s) (started s) (finished s) (dropped s).

(** ** addTask *)

(** The critical section of [_addTask]. *)
Definition push (t : task) (s : pool) : option pool :=
  match mtx_ s with
  | Some _ => None
  | None =>
      Some (mk (task_queue_ s ++ [t]) (i32 (task_num_ s + 1)) (waiting_threads_ s) (running_ s) None (threads_ s)
              (workers s) (S (checking s)) (notifying s) (stopping s) (added s ++ [t]) (started s) (finished s) (dropped s))
  end.

(** [if (waiting_threads_ > 0)] *)
Definition check_waiting (s : pool) : option pool :=
  match checking s with
  | O => None
  | S c => Some (if 0 <? waiting_threads_ s then set_callers c (S (notifying s)) s else set_callers c (notifying s) s)
  end.

Definition is_blocked (ph : phase task) : bool := match ph with Blocked => true | _ => false end.

(** [cv_.notify_one()] wakes one of the blocked threads, if there is one. *)
Definition notify_one (w : option nat) (s : pool) : option pool :=
  match notifying s with
  | O => None
  | S n =>
      match w with
      | Some w =>
          match workers s !! w with
          | Some Blocked => Some (set_worker w Woken (set_callers (checking s) n s))
          | _ => None
          end
      | None => if forallb (fun ph => negb (is_blocked ph)) (workers s) then Some (set_callers (checking s) n s) else None
      end
  end.

(** ** run and worker *)

(** [run()] *)
Definition run (s : pool) : option pool :=
  match stopping s with
  | NotStopping =>
      if running_ s then Some s
      else
        let n := length (workers s) in
        Some (mk (task_queue_ s) (task_num_ s) (waiting_threads_ s) true (mtx_ s)
                (threads_ s ++ seq n THREADS_NUM) (workers s ++ replicate THREADS_NUM AtLock)
                (checking s) (notifying s) (stopping s) (added s) (started s) (finished s) (dropped s))
  | _ => None
  end.

(** The next step of worker [w] in [worker()]; a blocked worker has none. *)
Definition worker (w : nat) (s : pool) : option pool :=
  match workers s !! w with
  | Some AtLock =>
      match mtx_ s with
      | None => Some (set_waiting (waiting_threads_ s + 1) (set_mutex (Some w) (set_worker w AtTest s)))
      | Some _ => None
      end
  | Some Woken =>
      match mtx_ s with
      | None => Some (set_mutex (Some w) (set_worker w AtTest s))
      | Some _ => None
      end
  | Some AtTest =>
      if negb (running_ s) || negb (bool_decide (length (task_queue_ s) = 0%nat))
      then Some (set_waiting (waiting_threads_ s - 1) (set_worker w AtTake s))
      else Some (set_worker w Sleepy s)
  | Some Sleepy => Some (set_mutex None (set_worker w Blocked s))
  | Some AtTake =>
      match task_queue_ s with
      | [] => Some (set_mutex None (set_worker w (if running_ s then AtLock else Exited) s))
      | t :: q =>
          Some (mk q (i32 (task_num_ s - 1)) (waiting_threads_ s) (running_ s) None (threads_ s)
                  (<[w := Running t]> (workers s)) (checking s) (notifying s) (stopping s)
                  (added s) (started s ++ [t]) (finished s) (dropped s))
      end
  | Some (Running t) =>
      Some (mk (task_queue_ s) (task_num_ s) (waiting_threads_ s) (running_ s) (mtx_ s) (threads_ s)
              (<[w := AtLock]> (workers s)) (checking s) (notifying s) (stopping s)
              (added s) (started s) (finished s ++ [t]) (dropped s))
  | _ => None
  end.

(** A blocked thread may wake up without a notification. *)
Definition spurious (w : nat) (s : pool) : option pool :=
  match workers s !! w with
  | Some Blocked => Some (set_worker w Woken s)
  | _ => None
  end.

(** ** stop and stopHard *)

(** [if (!running_.exchange(false)) return;] *)
Definition begin_stop (hard : bool) (s : pool) : option pool :=
  match stopping s with
  | NotStopping =>
      if running_ s then
        Some (mk (task_queue_ s) (task_num_ s) (waiting_threads_ s) false (mtx_ s) (threads_ s)
                (workers s) (checking s) (notifying s) (Notifying hard) (added s) (started s) (finished s) (dropped s))
      else Some s
  | _ => None
  end.

Definition wake (ph : phase task) : phase task := if is_blocked ph then Woken else ph.

Definition has_exited (s : pool) (w : nat) : bool :=
  match workers s !! w with Some Exited => true | _ => false end.

(** The rest of [stop] and [stopHard]: [cv_.notify_all()]; then joining (or
    detaching) the threads; then emptying the queue. *)
Definition stop_step (s : pool) : option pool :=
  match stopping s with
  | NotStopping => None
  | Notifying hard =>
      let s := mk (task_queue_ s) (task_num_ s) (waiting_threads_ s) (running_ s) (mtx_ s) (threads_ s)
                 (wake <$> workers s) (checking s) (notifying s) (stopping s) (added s) (started s) (finished s) (dropped s) in
      if hard then
        Some (mk (task_queue_ s) (task_num_ s) (waiting_threads_ s) (running_ s) (mtx_ s) []
                (workers s) (checking s) (notifying s) NotStopping (added s) (started s) (finished s) (dropped s))
      else Some (set_stopping Joining s)
  | Joining =>
      if forallb (has_exited s) (threads_ s) then
        Some (mk (task_queue_ s) (task_num_ s) (waiting_threads_ s) (running_ s) (mtx_ s) []
                (workers s) (checking s) (notifying s) Draining (added s) (started s) (finished s) (dropped s))
      else None
  | Draining =>
      match mtx_ s with
      | Some _ => None
      | None =>
          Some (mk [] (i32 (task_num_ s - Zlen (task_queue_ s))) (waiting_threads_ s) (running_ s) None (threads_ s)
                  (workers s) (checking s) (notifying s) NotStopping (added s) (started s) (finished s)
                  (dropped s ++ task_queue_ s))
      end
  end.

(** ** Creation, inspection and destruction *)

(** [createThreadPool()], which also makes [gThreadPool]. *)
Definition createThreadPool : pool := new.

(** [getTaskCount()] converts the [int] to [size_t]. *)
Definition getTaskCount (s : pool) : Z := u64 (task_num_ s).
Definition getWaitingThreads (s : pool) : Z := waiting_threads_ s.

(** [~ThreadPool()] up to its call of [stop]; it goes on with the steps of [stop]
    and returns when they are over. *)
Definition destructor (s : pool) : option pool :=
  match stopping s with
  | NotStopping => if running_ s then begin_stop false s else Some s
  | _ => None
  end.

(** [std::default_delete<ThreadPool>]: [stop] and then the destructor, which finds
    a pool that does not run. *)
Definition default_delete (s : pool) : option pool := begin_stop false s.

(** ** The system *)

Inductive event : Type :=
| Push (t : task)
| CheckWaiting
| NotifyOne (w : option nat)
| Run
| Worker (w : nat)
| Spurious (w : nat)
| Stop (hard : bool)
| StopStep.

Definition exec (e : event) (s : pool) : option pool :=
  match e with
  | Push t => push t s
  | CheckWaiting => check_waiting s
  | NotifyOne w => notify_one w s
  | Run => run s
  | Worker w => worker w s
  | Spurious w => spurious w s
  | Stop hard => begin_stop hard s
  | StopStep => stop_step s
  end.

Fixpoint exec_all (es : list event) (s : pool) : option pool :=
  match es with
  | [] => Some s
  | e :: es => s ← exec e s; exec_all es s
  end.

Definition step (s s' : pool) : Prop := exists e, exec e s = Some s'.

Definition reachable (s : pool) : Prop := rtc step new s.

(** ** The invariant *)

(** The phases in which a worker has the mutex, is counted as waiting, and will
    look at the queue again without being notified. *)
Definition holds (ph : phase task) : bool :=
  match ph with AtTest | Sleepy | AtTake => true | _ => false end.
Definition waits (ph : phase task) : bool :=
  match ph with AtTest | Sleepy | Blocked | Woken => true | _ => false end.
Definition awake (ph : phase task) : bool :=
  match ph with AtLock | AtTest | Woken | AtTake | Running _ => true | _ => false end.

Definition running_of (ph : phase task) : list task := match ph with Running t => [t] | _ => [] end.

Definition some_worker (P : phase task -> Prop) (s : pool) : Prop :=
  exists w ph, workers s !! w = Some ph /\ P ph.

Record Inv (s : pool) : Prop := {
  inv_num : task_num_ s = i32 (Zlen (task_queue_ s));
  inv_waiting : waiting_threads_ s = Z.of_nat (sum_list_with (fun ph => Nat.b2n (waits ph)) (workers s));
  inv_mutex : forall w ph, workers s !! w = Some ph -> holds ph = true <-> mtx_ s = Some w;
  inv_owner : forall w, mtx_ s = Some w -> is_Some (workers s !! w);
  inv_sleepy : forall w, workers s !! w = Some Sleepy -> task_queue_ s = [];
  inv_account : added s ≡ₚ started s ++ task_queue_ s ++ dropped s;
  inv_order : started s ++ task_queue_ s `sublist_of` added s;
  inv_running : started s ≡ₚ finished s ++ (workers s ≫= running_of);
  inv_wakeup : task_queue_ s = [] \/ (0 < checking s + notifying s)%nat \/
    some_worker (fun ph => awake ph = true) s \/ Forall (eq Exited) (workers s);
  inv_live : running_ s = true -> some_worker (fun ph => ph <> Exited) s
}.

Lemma new_inv : Inv new.
Proof. split; cbn; try done; auto. Qed.

(** A transition of one worker that leaves the queue alone. *)
Definition moves (w : nat) (ph ph' : phase task) (s s' : pool) : Prop :=
  workers s !! w = Some ph /\ workers s' = <[w := ph']> (workers s) /\
  waiting_threads_ s' = waiting_threads_ s - Z.b2z (waits ph) + Z.b2z (waits ph') /\
  mtx_ s' = (if holds ph' then Some w else if holds ph then None else mtx_ s) /\
  (holds ph' = true -> holds ph = true \/ mtx_ s = None) /\
  (awake ph' = true \/ task_queue_ s' = []) /\
  (ph' = Exited -> running_ s = false) /\
  (ph' = Sleepy -> task_queue_ s' = []) /\ running_ s' = running_ s.

Lemma lookup_move (w w' : nat) (ph ph' ph1 : phase task) (ws : list (phase task)) :
  ws !! w = Some ph -> <[w := ph']> ws !! w' = Some ph1 -> (w' = w /\ ph1 = ph') \/ (w' <> w /\ ws !! w' = Some ph1).
Proof. intros H [(<- & <- & _)|[Hne H1]]%list_lookup_insert_Some; auto. Qed.

Lemma move_parts w ph ph' s s' :
  Inv s -> moves w ph ph' s s' ->
  waiting_threads_ s' = Z.of_nat (sum_list_with (fun ph => Nat.b2n (waits ph)) (workers s')) /\
  (forall w ph, workers s' !! w = Some ph -> holds ph = true <-> mtx_ s' = Some w) /\
  (forall w, mtx_ s' = Some w -> is_Some (workers s' !! w)) /\
  (running_ s' = true -> some_worker (fun ph => ph <> Exited) s') /\
  (task_queue_ s' = [] \/ (0 < checking s' + notifying s')%nat \/
    some_worker (fun ph => awake ph = true) s' \/ Forall (eq Exited) (workers s')).
Proof.
  intros Hinv (Hw & Hws & Hwait & Hm & Hfree & Hawake & Hex & _ & Hr).
  assert (workers s' !! w = Some ph') as Hw'.
  { rewrite Hws. apply list_lookup_insert_eq. by eapply lookup_lt_Some. }
  split; [|split; [|split; [|split]]].
  - pose proof (sum_list_insert (fun ph => Nat.b2n (waits ph)) _ _ _ ph' Hw) as Hsum.
    cbn beta in Hsum. rewrite Hwait, Hws, (inv_waiting _ Hinv).
    destruct (waits ph), (waits ph'); cbn [Nat.b2n Z.b2z] in *; lia.
  - intros w1 ph1 H1. rewrite Hws in H1. pose proof (inv_mutex _ Hinv _ _ Hw) as Hmw.
    rewrite Hm. destruct (lookup_move _ _ _ _ _ _ Hw H1) as [[-> ->]|[Hne H2]].
    + destruct (holds ph'); [done|]. destruct (holds ph); [split; done|]. split; [done|]. intros H. by apply Hmw.
    + pose proof (inv_mutex _ Hinv _ _ H2) as Hm1. rewrite Hm1.
      destruct (holds ph') eqn:E1.
      * destruct (Hfree eq_refl) as [H|H]; [apply Hmw in H|]; rewrite H; split; congruence.
      * destruct (holds ph) eqn:E2; [|done]. rewrite (proj1 Hmw eq_refl). split; congruence.
  - intros w1 H1. rewrite Hws. rewrite Hm in H1. apply lookup_lt_is_Some. rewrite length_insert.
    destruct (holds ph'); [injection H1 as <-; by eapply lookup_lt_Some|].
    destruct (holds ph); [done|]. by apply lookup_lt_is_Some, (inv_owner _ Hinv).
  - intros Hrun. exists w, ph'. split; [done|]. intros ->. rewrite Hr in Hrun. rewrite Hex in Hrun; done.
  - destruct Hawake as [Ha|Ha]; [|by left]. right; right; left. exists w, ph'. done.
Qed.

Ltac solve_moves := unfold moves; cbn; repeat split; intros; cbn; try done; auto; try lia.

(** Moving a worker without touching the queue or the history. *)
Lemma move_inv w ph ph' s s' :
  Inv s -> moves w ph ph' s s' ->
  task_queue_ s' = task_queue_ s -> task_num_ s' = task_num_ s ->
  added s' = added s -> started s' = started s -> dropped s' = dropped s ->
  finished s' ++ running_of ph' ≡ₚ finished s ++ running_of ph -> Inv s'.
Proof.
  intros Hinv Hmove Hq Hn Ha Hs Hd Hf. destruct (move_parts _ _ _ _ _ Hinv Hmove) as (H1 & H2 & H3 & H4 & H5).
  destruct Hmove as (Hw & Hws & _ & _ & _ & _ & _ & Hsl & _).
  split; rewrite ?Ha, ?Hs, ?Hd; try done.
  - rewrite Hn, Hq. apply Hinv.
  - intros w1 Hw1. rewrite Hws in Hw1. destruct (lookup_move _ _ _ _ _ _ Hw Hw1) as [[-> Heq]|[_ Hw2]].
    + by apply Hsl.
    + rewrite Hq. by eapply inv_sleepy.
  - rewrite Hq. apply Hinv.
  - rewrite Hq. apply Hinv.
  - rewrite Hws, (bind_insert _ _ _ _ _ Hw), app_assoc, Hf, <- app_assoc, <- (bind_lookup _ _ _ _ Hw). apply Hinv.
Qed.

Lemma push_inv t s s' : Inv s -> push t s = Some s' -> Inv s'.
Proof.
  unfold push. intros Hinv. destruct (mtx_ s) eqn:Hm; [done|]. intros [= <-]. split; cbn.
  - by rewrite (inv_num _ Hinv), Zlen_app, i32_add.
  - apply Hinv.
  - intros w ph Hw. rewrite <- Hm. by apply Hinv.
  - done.
  - intros w Hw. exfalso. pose proof (proj1 (inv_mutex _ Hinv _ _ Hw) eq_refl). congruence.
  - rewrite (inv_account _ Hinv). solve_Permutation.
  - rewrite app_assoc. by apply sublist_app; [apply Hinv|].
  - apply Hinv.
  - right; left. lia.
  - apply Hinv.
Qed.

Lemma exited_or_live (ws : list (phase task)) :
  Forall (eq Exited) ws \/ exists w ph, ws !! w = Some ph /\ ph <> Exited.
Proof.
  induction ws as [|ph ws IH]; [by left|].
  assert (ph = Exited \/ ph <> Exited) as [->|Hph] by (destruct ph; (by left) || by right).
  - destruct IH as [IH|(w & ph & Hw & Hne)]; [left; by constructor|right]. by exists (S w), ph.
  - right. by exists 0%nat, ph.
Qed.

Lemma check_waiting_inv s s' : Inv s -> check_waiting s = Some s' -> Inv s'.
Proof.
  unfold check_waiting. intros Hinv. destruct (checking s) as [|c] eqn:Hc; [done|].
  destruct (0 <? waiting_threads_ s) eqn:Hwt; intros [= <-]; reflect_bools.
  - split; cbn; try apply Hinv. right; left. lia.
  - split; cbn; try apply Hinv.
    destruct (inv_wakeup _ Hinv) as [H|[H|[H|H]]]; [by left| |by auto|by auto].
    destruct (exited_or_live (workers s)) as [Hall|(w & ph & Hw & Hne)]; [by auto|].
    right; right; left. exists w, ph. split; [done|].
    rewrite (inv_waiting _ Hinv) in Hwt.
    assert (Nat.b2n (waits ph) = 0%nat) as Hz.
    { eapply (sum_list_zero (fun ph => Nat.b2n (waits ph))); [|done]. lia. }
    by destruct ph.
Qed.

Lemma notify_one_inv w s s' : Inv s -> notify_one w s = Some s' -> Inv s'.
Proof.
  unfold notify_one. intros Hinv. destruct (notifying s) as [|n] eqn:Hn; [done|]. destruct w as [w|].
  - destruct (workers s !! w) as [[]|] eqn:Hw; try done. intros [= <-].
    apply (move_inv w Blocked Woken s); [done| |done..]. solve_moves.
  - destruct (forallb _ _) eqn:Hall; [|done]. intros [= <-]. rewrite forallb_forall in Hall.
    split; cbn; try apply Hinv. destruct (task_queue_ s) as [|t q] eqn:Hq; [by left|].
    destruct (exited_or_live (workers s)) as [?|(w & ph & Hw & Hne)]; [by auto|].
    right; right; left. exists w, ph. split; [done|].
    specialize (Hall ph (proj1 (list_elem_of_In _ _) (list_elem_of_lookup_2 _ _ _ Hw))).
    destruct ph; try done. by rewrite (inv_sleepy _ Hinv _ Hw) in Hq.
Qed.

Lemma spurious_inv w s s' : Inv s -> spurious w s = Some s' -> Inv s'.
Proof.
  unfold spurious. intros Hinv. destruct (workers s !! w) as [[]|] eqn:Hw; try done. intros [= <-].
  apply (move_inv w Blocked Woken s); [done| |done..]. solve_moves.
Qed.

Lemma run_pool_inv s s' : Inv s -> run s = Some s' -> Inv s'.
Proof.
  unfold run. intros Hinv. destruct (stopping s); try done. destruct (running_ s) eqn:Hr; intros <-%(inj Some); [done|].
  split; cbn [task_queue_ task_num_ waiting_threads_ running_ mtx_ threads_ workers checking notifying stopping added started finished dropped];
    try apply Hinv.
  - rewrite sum_list_with_app, (inv_waiting _ Hinv). cbn. lia.
  - intros w ph [Hw|[Hlen Hw]]%lookup_app_Some; [by apply Hinv|].
    apply lookup_replicate in Hw as [-> _]. cbn. split; [done|]. intros Hm. apply (inv_owner _ Hinv) in Hm.
    apply lookup_lt_is_Some in Hm. lia.
  - intros w Hm. apply (inv_owner _ Hinv) in Hm as [ph Hw]. exists ph. by apply lookup_app_l_Some.
  - intros w [Hw|[_ Hw]]%lookup_app_Some; [by eapply inv_sleepy|]. by apply lookup_replicate in Hw as [? _].
  - rewrite bind_app. cbn. rewrite app_nil_r. apply Hinv.
  - right; right; left. exists (length (workers s)), AtLock. split; [|done].
    cbn [workers]. rewrite lookup_app_r by lia. by rewrite Nat.sub_diag.
  - intros _. exists (length (workers s)), AtLock. split; [|done].
    cbn [workers]. rewrite lookup_app_r by lia. by rewrite Nat.sub_diag.
Qed.

(** Taking a task: the worker has the mutex, so no other worker is inside. *)
Lemma take_inv w t q s s' :
  Inv s -> workers s !! w = Some AtTake -> task_queue_ s = t :: q -> worker w s = Some s' -> Inv s'.
Proof.
  intros Hinv Hw Hq. unfold worker. rewrite Hw, Hq. intros [= <-].
  pose proof (proj1 (inv_mutex _ Hinv _ _ Hw) eq_refl) as Hm.
  match goal with |- Inv ?s' => set (s1 := s') end.
  assert (moves w AtTake (Running t) s s1) as Hmove by (solve_moves).
  destruct (move_parts _ _ _ _ _ Hinv Hmove) as (H1 & H2 & H3 & H4 & H5).
  split; try done; unfold s1; cbn.
  - rewrite (inv_num _ Hinv), Hq, i32_sub. f_equal. unfold Zlen. cbn. lia.
  - intros w1 Hw1. destruct (lookup_move _ _ _ _ _ _ Hw Hw1) as [[_ ?]|[Hne Hw2]]; [done|].
    pose proof (proj1 (inv_mutex _ Hinv _ _ Hw2) eq_refl). congruence.
  - rewrite (inv_account _ Hinv), Hq, <- app_assoc. done.
  - pose proof (inv_order _ Hinv) as Ho. rewrite Hq in Ho. by rewrite <- app_assoc.
  - rewrite (inv_running _ Hinv), (bind_insert _ _ _ _ _ Hw), (bind_lookup _ _ _ _ Hw). cbn. solve_Permutation.
Qed.

Lemma worker_inv w s s' : Inv s -> worker w s = Some s' -> Inv s'.
Proof.
  intros Hinv Hs. destruct (workers s !! w) as [ph|] eqn:Hw; [|unfold worker in Hs; by rewrite Hw in Hs].
  pose proof (inv_mutex _ Hinv _ _ Hw) as Hm.
  destruct ph as [| | | | | |t|] eqn:Hph; cbn in Hm.
  7: { unfold worker in Hs. rewrite Hw in Hs. injection Hs as <-.
    apply (move_inv w (Running t) AtLock s); [done| |done..|cbn; by rewrite app_nil_r].
    solve_moves. }
  6: { destruct (task_queue_ s) as [|t q] eqn:Hq; [|by eapply take_inv].
    unfold worker in Hs. rewrite Hw, Hq in Hs. injection Hs as <-.
    apply (move_inv w AtTake (if running_ s then AtLock else Exited) s); [done| |done..|by destruct (running_ s)].
    unfold moves. cbn. rewrite Hq. destruct (running_ s); solve_moves. }
  all: unfold worker in Hs; rewrite Hw in Hs; try done.
  - destruct (mtx_ s) eqn:Hmtx; [done|]. injection Hs as <-. apply (move_inv w AtLock AtTest s); [done| |done..].
    solve_moves.
  - destruct (_ || _) eqn:Hc; injection Hs as <-.
    + apply (move_inv w AtTest AtTake s); [done| |done..].
      solve_moves. by apply Hm.
    + apply (move_inv w AtTest Sleepy s); [done| |done..]. reflect_bools. apply nil_length_inv in H0.
      solve_moves. by apply Hm.
  - injection Hs as <-. apply (move_inv w Sleepy Blocked s); [done| |done..].
    pose proof (inv_sleepy _ Hinv _ Hw). solve_moves.
  - destruct (mtx_ s) eqn:Hmtx; [done|]. injection Hs as <-. apply (move_inv w Woken AtTest s); [done| |done..].
    solve_moves.
Qed.

Lemma begin_stop_inv hard s s' : Inv s -> begin_stop hard s = Some s' -> Inv s'.
Proof.
  unfold begin_stop. intros Hinv. destruct (stopping s); try done. destruct (running_ s); intros [= <-]; [|done].
  split; cbn; by try apply Hinv.
Qed.

Lemma wake_lookup (ws : list (phase task)) w ph :
  (wake <$> ws) !! w = Some ph -> exists ph0, ws !! w = Some ph0 /\ ph = wake ph0.
Proof. rewrite list_lookup_fmap. intros (ph0 & -> & ->)%fmap_Some. eauto. Qed.

Lemma notify_all_inv s st ts :
  Inv s ->
  Inv (mk (task_queue_ s) (task_num_ s) (waiting_threads_ s) (running_ s) (mtx_ s) ts
         (wake <$> workers s) (checking s) (notifying s) st (added s) (started s) (finished s) (dropped s)).
Proof.
  intros Hinv. assert (forall ph, waits (wake ph) = waits ph) as Hwaits by (by intros []).
  assert (forall ph, holds (wake ph) = holds ph) as Hholds by (by intros []).
  assert (forall ph, running_of (wake ph) = running_of ph) as Hrun by (by intros []).
  split; cbn; try apply Hinv.
  - rewrite (inv_waiting _ Hinv). f_equal. induction (workers s) as [|ph ws IH]; [done|].
    cbn. by rewrite Hwaits, IH.
  - intros w ph (ph0 & Hw & ->)%wake_lookup. rewrite Hholds. by apply Hinv.
  - intros w Hm. apply (inv_owner _ Hinv) in Hm as [ph Hw]. rewrite list_lookup_fmap, Hw. by eexists.
  - intros w (ph0 & Hw & Heq)%wake_lookup. destruct ph0; try done. by eapply inv_sleepy.
  - rewrite (inv_running _ Hinv). f_equiv. induction (workers s) as [|ph ws IH]; [done|].
    cbn. by rewrite Hrun, IH.
  - destruct (inv_wakeup _ Hinv) as [H|[H|[(w & ph & Hw & Ha)|H]]]; [by left|by auto| |].
    + right; right; left. exists w, (wake ph). cbn. rewrite list_lookup_fmap, Hw. split; [done|]. by destruct ph.
    + right; right; right. apply Forall_fmap. eapply Forall_impl; [exact H|]. by intros ? <-.
  - intros Hr. destruct (inv_live _ Hinv Hr) as (w & ph & Hw & Hne). exists w, (wake ph). cbn.
    rewrite list_lookup_fmap, Hw. split; [done|]. by destruct ph.
Qed.

Lemma stop_step_inv s s' : Inv s -> stop_step s = Some s' -> Inv s'.
Proof.
  unfold stop_step. intros Hinv. destruct (stopping s) as [|hard| |]; [done|..].
  - destruct hard; intros [= <-]; [by apply notify_all_inv|].
    unfold set_stopping. cbn. by apply notify_all_inv.
  - destruct (forallb _ _); intros [= <-]. split; cbn; by try apply Hinv.
  - destruct (mtx_ s) eqn:Hm; intros [= <-]. split; cbn; try apply Hinv; try done.
    + by rewrite (inv_num _ Hinv), i32_sub, Z.sub_diag.
    + intros w ph Hw. rewrite <- Hm. by apply Hinv.
    + rewrite (inv_account _ Hinv). solve_Permutation.
    + rewrite app_nil_r. etrans; [|apply (inv_order _ Hinv)]. by apply sublist_inserts_r.
    + by left.
Qed.

#[local] Hint Resolve push_inv check_waiting_inv notify_one_inv run_pool_inv worker_inv
  spurious_inv begin_stop_inv stop_step_inv : hspd.

Lemma exec_pool_inv e s s' : Inv s -> exec e s = Some s' -> Inv s'.
Proof. destruct e; cbn; eauto with hspd. Qed.
#[local] Hint Resolve exec_pool_inv : hspd.

Lemma reachable_inv s : reachable s -> Inv s.
Proof.
  intros H. refine (rtc_ind_r (R := step) Inv new new_inv _ s H).
  intros s1 s2 _ [e He] Hinv. by eapply exec_pool_inv.
Qed.

(** ** Progress *)

(** The steps the pool makes on its own: those of the workers and of the callers
    that are still inside [_addTask]. *)
Definition internal_event (e : event) : bool :=
  match e with CheckWaiting | NotifyOne _ | Worker _ => true | _ => false end.

Definition internal (s s' : pool) : Prop := exists e, internal_event e = true /\ exec e s = Some s'.

Lemma internal_inv s s' : Inv s -> internal s s' -> Inv s'.
Proof. intros Hinv (e & _ & He). by eapply exec_pool_inv. Qed.

Lemma holder_steps s w : Inv s -> mtx_ s = Some w -> exists s', internal s s'.
Proof.
  intros Hinv Hm. destruct (inv_owner _ Hinv _ Hm) as [ph Hw].
  pose proof (proj2 (inv_mutex _ Hinv _ _ Hw) Hm) as Hh.
  assert (exists s', worker w s = Some s') as [s' Hs].
  { unfold worker. rewrite Hw. destruct ph; try done; [case_match|..]; eauto. destruct (task_queue_ s); eauto. }
  exists s', (Worker w). done.
Qed.

Lemma awake_steps s : Inv s -> mtx_ s = None -> some_worker (fun ph => awake ph = true) s -> exists s', internal s s'.
Proof.
  intros Hinv Hm (w & ph & Hw & Ha). assert (exists s', worker w s = Some s') as [s' Hs]; [|by exists s', (Worker w)].
  unfold worker. rewrite Hw, Hm. pose proof (inv_mutex _ Hinv _ _ Hw) as Hh. rewrite Hm in Hh.
  destruct ph; try done; eauto; discriminate (proj1 Hh eq_refl).
Qed.

Lemma caller_steps s : (0 < checking s + notifying s)%nat -> exists s', internal s s'.
Proof.
  intros Hc. destruct (checking s) as [|c] eqn:E.
  - destruct (notifying s) as [|n] eqn:En; [lia|].
    destruct (forallb (fun ph => negb (is_blocked ph)) (workers s)) eqn:Hall.
    + eexists _, (NotifyOne None). split; [done|]. cbn. unfold notify_one. by rewrite En, Hall.
    + apply not_true_iff_false in Hall. rewrite forallb_forall in Hall.
      assert (exists w, workers s !! w = Some Blocked) as [w Hw].
      { clear -Hall. induction (workers s) as [|ph ws IH]; [by destruct Hall|].
        destruct (is_blocked ph) eqn:Hb; [exists 0%nat; by destruct ph|].
        destruct IH as [w Hw]; [|by exists (S w)]. intros H. apply Hall. intros x [<-|Hx]; [by rewrite Hb|by apply H]. }
      eexists _, (NotifyOne (Some w)). split; [done|]. cbn. unfold notify_one. by rewrite En, Hw.
  - eexists _, CheckWaiting. split; [done|]. cbn. unfold check_waiting. by rewrite E.
Qed.

(** A running pool with something left to do can make a step. *)
Lemma progress s :
  Inv s -> running_ s = true -> task_queue_ s <> [] \/ some_worker (fun ph => running_of ph <> []) s ->
  exists s', internal s s'.
Proof.
  intros Hinv Hr Hwork. destruct (mtx_ s) as [w|] eqn:Hm; [by eapply holder_steps|].
  destruct Hwork as [Hq|(w & ph & Hw & Hrun)].
  - destruct (inv_wakeup _ Hinv) as [?|[?|[?|Hall]]]; [done|by apply caller_steps|by apply awake_steps|].
    destruct (inv_live _ Hinv Hr) as (w & ph & Hw & Hne). rewrite Forall_lookup in Hall. by apply Hall in Hw.
  - apply awake_steps; [done..|]. exists w, ph. split; [done|]. by destruct ph.
Qed.

(** ** Termination *)

(** How many steps a worker can make before it blocks; [idle] says that the pool
    runs with an empty queue. *)
Definition weight (idle : bool) (ph : phase task) : nat :=
  match ph with
  | AtLock | Woken => 3
  | AtTest => 2
  | Sleepy => 1
  | Blocked | Exited => 0
  | AtTake => if idle then 4 else 1
  | Running _ => 4
  end.

Definition idle (s : pool) : bool := running_ s && bool_decide (length (task_queue_ s) = 0%nat).

Definition measure (s : pool) : nat :=
  5 * length (task_queue_ s) + sum_list_with (weight (idle s)) (workers s) + 5 * checking s + 4 * notifying s.

Lemma sum_weight_same b b' (ws : list (phase task)) :
  (forall w, ws !! w <> Some AtTake) -> sum_list_with (weight b) ws = sum_list_with (weight b') ws.
Proof.
  induction ws as [|ph ws IH]; intros H; cbn; [done|]. rewrite IH by (intros w; apply (H (S w))).
  f_equal. destruct ph; try done. by destruct (H 0%nat).
Qed.

Lemma take_measure w t q s s' :
  Inv s -> workers s !! w = Some AtTake -> task_queue_ s = t :: q -> worker w s = Some s' ->
  (measure s' < measure s)%nat.
Proof.
  intros Hinv Hw Hq. unfold worker. rewrite Hw, Hq. intros [= <-]. unfold measure, idle.
  cbn [task_queue_ running_ workers checking notifying]. rewrite Hq. cbn [length].
  rewrite (bool_decide_eq_false_2 (S (length q) = 0%nat)) by lia. rewrite andb_false_r.
  rewrite (sum_weight_same _ false (<[w := Running t]> _)).
  - pose proof (sum_list_insert (weight false) _ _ _ (Running t) Hw) as Hsum. cbn [weight] in Hsum. lia.
  - intros w1 Hw1. destruct (lookup_move _ _ _ _ _ _ Hw Hw1) as [[_ ?]|[Hne Hw2]]; [done|].
    pose proof (proj1 (inv_mutex _ Hinv _ _ Hw) eq_refl). pose proof (proj1 (inv_mutex _ Hinv _ _ Hw2) eq_refl). congruence.
Qed.

Lemma worker_measure w s s' : Inv s -> worker w s = Some s' -> (measure s' < measure s)%nat.
Proof.
  intros Hinv Hs. destruct (workers s !! w) as [ph|] eqn:Hw; [|unfold worker in Hs; by rewrite Hw in Hs].
  pose proof (fun ph' => sum_list_insert (weight (idle s)) _ _ _ ph' Hw) as Hsum.
  destruct ph as [| | | | | |t|].
  6: { destruct (task_queue_ s) as [|t q] eqn:Hq; [|by eapply take_measure].
    specialize (Hsum (if running_ s then AtLock else Exited)).
    assert (idle s = running_ s) as Hi by (unfold idle; by rewrite Hq, bool_decide_eq_true_2, andb_true_r).
    unfold worker in Hs. rewrite Hw, Hq in Hs. injection Hs as <-. unfold measure at 1.
    cbn [set_mutex set_worker task_queue_ workers checking notifying]. change (idle (set_mutex _ _)) with (idle s).
    unfold measure. rewrite Hi in *. destruct (running_ s); cbn [weight] in Hsum; lia. }
  all: unfold worker in Hs; rewrite Hw in Hs; try done.
  - destruct (mtx_ s); [done|]. injection Hs as <-. specialize (Hsum AtTest). unfold measure, idle in *. cbn in *. lia.
  - destruct (_ || _) eqn:Hc; injection Hs as <-; [specialize (Hsum AtTake)|specialize (Hsum Sleepy)];
      unfold measure, idle in *; cbn in *; [|lia].
    destruct (running_ s), (bool_decide _); cbn in *; try done; lia.
  - injection Hs as <-. specialize (Hsum Blocked). unfold measure, idle in *. cbn in *. lia.
  - destruct (mtx_ s); [done|]. injection Hs as <-. specialize (Hsum AtTest). unfold measure, idle in *. cbn in *. lia.
  - injection Hs as <-. specialize (Hsum AtLock). unfold measure, idle in *. cbn in *. lia.
Qed.

Lemma internal_measure s s' : Inv s -> internal s s' -> (measure s' < measure s)%nat.
Proof.
  intros Hinv (e & Hi & He). destruct e as [|  |w| |w| | |]; try done; cbn in He.
  - unfold check_waiting in He. destruct (checking s) as [|c] eqn:Hc; [done|].
    unfold measure, idle. rewrite Hc. case_match; injection He as <-; cbn; lia.
  - unfold notify_one in He. destruct (notifying s) as [|n] eqn:Hn; [done|]. destruct w as [w|].
    + destruct (workers s !! w) as [[]|] eqn:Hw; try done. injection He as <-.
      pose proof (sum_list_insert (weight (idle s)) _ _ _ Woken Hw) as Hsum. cbn [weight] in Hsum.
      unfold measure, idle in *. rewrite Hn. cbn in *. lia.
    + case_match; [|done]. injection He as <-. unfold measure, idle. rewrite Hn. cbn. lia.
  - by eapply worker_measure.
Qed.

Lemma internal_keeps s s' : internal s s' -> running_ s' = running_ s /\ added s' = added s /\ dropped s' = dropped s.
Proof.
  intros (e & Hi & He). destruct e as [|  |w| |w| | |]; try done; cbn in He.
  - unfold check_waiting in He. destruct (checking s); [done|]. case_match; by injection He as <-.
  - unfold notify_one in He. destruct (notifying s); [done|]. destruct w; repeat case_match; try done; by injection He as <-.
  - unfold worker in He. repeat case_match; try done; by injection He as <-.
Qed.

Lemma internals_keep s s' :
  rtc internal s s' -> Inv s -> Inv s' /\ running_ s' = running_ s /\ added s' = added s /\ dropped s' = dropped s.
Proof.
  induction 1 as [|s1 s2 s3 Hi _ IH]; intros Hinv; [done|].
  destruct (IH (internal_inv _ _ Hinv Hi)) as (? & -> & -> & ->). split; [done|]. by apply internal_keeps.
Qed.

Lemma internals_bounded n : forall s s', Inv s -> nsteps internal n s s' -> (n <= measure s)%nat.
Proof.
  induction n as [|n IH]; intros s s' Hinv Hn; [lia|]. inversion Hn as [|? ? s1 ? Hi Hn']; subst.
  pose proof (internal_measure _ _ Hinv Hi). pose proof (IH _ _ (internal_inv _ _ Hinv Hi) Hn'). lia.
Qed.

Lemma no_running_tasks (ws : list (phase task)) :
  (forall w ph, ws !! w = Some ph -> running_of ph = []) -> ws ≫= running_of = [].
Proof.
  induction ws as [|ph ws IH]; intros H; [done|]. cbn. rewrite (H 0%nat ph eq_refl). cbn.
  apply IH. intros w ph'. apply (H (S w)).
Qed.

Lemma quiescent_done s :
  Inv s -> running_ s = true -> (forall s', ~ internal s s') -> task_queue_ s = [] /\ workers s ≫= running_of = [].
Proof.
  intros Hinv Hr Hq. split.
  - destruct (task_queue_ s) as [|t q] eqn:E; [done|]. destruct (progress s Hinv Hr) as [s' Hs]; [left; by rewrite E|].
    by destruct (Hq s').
  - apply no_running_tasks. intros w ph Hw. destruct (running_of ph) as [|t l] eqn:E; [done|].
    destruct (progress s Hinv Hr) as [s' Hs]; [right; exists w, ph; by rewrite E|]. by destruct (Hq s').
Qed.

(** ** Stopping *)

Definition stops_threads (s : pool) : bool :=
  match stopping s with Notifying _ | Joining => true | _ => false end.

(** The vector of threads: filled while the pool runs, with threads that have
    not returned, until [stop] has joined them. *)
Record Threads (s : pool) : Prop := {
  thr_running : running_ s = true -> stopping s = NotStopping /\ threads_ s <> [] /\
    forall w, w ∈ threads_ s -> exists ph, workers s !! w = Some ph /\ ph <> Exited;
  thr_stopped : running_ s = false -> stopping s = NotStopping -> threads_ s = [];
  thr_stopping : stops_threads s = true -> threads_ s <> [];
  thr_draining : stopping s = Draining -> threads_ s = []
}.

(** Steps of one worker keep the vector, and a worker returns only when the pool
    has been stopped. *)
Lemma move_threads w ph ph' s s' :
  Threads s -> moves w ph ph' s s' -> threads_ s' = threads_ s -> stopping s' = stopping s -> Threads s'.
Proof.
  intros [H1 H2 H3 H4] (Hw & Hws & _ & _ & _ & _ & Hex & _ & Hr) Ht Hst.
  split; unfold stops_threads in *; rewrite ?Hr, ?Ht, ?Hst; try done.
  intros Hrun. destruct (H1 Hrun) as (? & ? & H). split; [done|]. split; [done|]. intros w1 Hin.
  destruct (H w1 Hin) as (ph1 & Hw1 & Hne). rewrite Hws. destruct (decide (w1 = w)) as [->|Hn].
  - exists ph'. split; [apply list_lookup_insert_eq; by eapply lookup_lt_Some|]. intros ->. rewrite Hex in Hrun; done.
  - exists ph1. by rewrite list_lookup_insert_ne.
Qed.

(** The step of a worker, as a move. *)
Lemma worker_moves w s s' :
  Inv s -> worker w s = Some s' ->
  exists ph ph', moves w ph ph' s s' /\ threads_ s' = threads_ s /\ stopping s' = stopping s /\
    (task_queue_ s = [] -> task_queue_ s' = []) /\ (ph' = Exited -> task_queue_ s' = []).
Proof.
  intros Hinv Hs. destruct (workers s !! w) as [ph|] eqn:Hw; [|unfold worker in Hs; by rewrite Hw in Hs].
  pose proof (inv_mutex _ Hinv _ _ Hw) as Hm. exists ph. unfold worker in Hs. rewrite Hw in Hs.
  destruct ph as [| | | | | |t|]; try done; cbn in Hm.
  - destruct (mtx_ s) eqn:Hmtx; [done|]. injection Hs as <-. exists AtTest. solve_moves.
  - destruct (_ || _) eqn:Hc; injection Hs as <-; [exists AtTake; solve_moves; by apply Hm|].
    exists Sleepy. reflect_bools. apply nil_length_inv in H0. solve_moves. by apply Hm.
  - injection Hs as <-. exists Blocked. pose proof (inv_sleepy _ Hinv _ Hw). solve_moves.
  - destruct (mtx_ s) eqn:Hmtx; [done|]. injection Hs as <-. exists AtTest. solve_moves.
  - destruct (task_queue_ s) as [|t q] eqn:Hq; injection Hs as <-.
    + exists (if running_ s then AtLock else Exited). unfold moves. cbn. rewrite Hq. destruct (running_ s); solve_moves.
    + exists (Running t). solve_moves.
  - injection Hs as <-. exists AtLock. solve_moves.
Qed.

Lemma exec_threads e s s' : Inv s -> Threads s -> exec e s = Some s' -> Threads s'.
Proof.
  intros Hinv Ht. pose proof Ht as [H1 H2 H3 H4]. destruct e as [t| |w| |w|w|hard|]; cbn.
  - unfold push. case_match; [done|]. by intros [= <-].
  - unfold check_waiting. case_match; [done|]. case_match; by intros [= <-].
  - unfold notify_one. case_match; [done|]. destruct w as [w|]; [|case_match; by intros [= <-]].
    destruct (workers s !! w) as [[]|] eqn:Hw; try done. intros [= <-].
    apply (move_threads w Blocked Woken s); [done|solve_moves|done..].
  - unfold run. destruct (stopping s) eqn:Hst; try done. destruct (running_ s) eqn:Hr; intros <-%(inj Some); [done|].
    rewrite (H2 eq_refl eq_refl). split; unfold stops_threads; cbn [running_ stopping threads_ workers app]; rewrite ?Hst; try done.
    intros _. split; [done|]. split; [done|]. intros w Hw%elem_of_seq. exists AtLock. split; [|done].
    rewrite lookup_app_r by lia. apply lookup_replicate. split; [done|lia].
  - intros Hs. destruct (worker_moves _ _ _ Hinv Hs) as (ph & ph' & Hm & Hth & Hst & _). by eapply move_threads.
  - unfold spurious. destruct (workers s !! w) as [[]|] eqn:Hw; try done. intros [= <-].
    apply (move_threads w Blocked Woken s); [done|solve_moves|done..].
  - unfold begin_stop. destruct (stopping s) eqn:Hst; try done. destruct (running_ s) eqn:Hr; intros [= <-]; [|done].
    split; cbn; try done. intros _. by destruct (H1 eq_refl) as (_ & ? & _).
  - unfold stop_step. unfold stops_threads in H3. destruct (stopping s) as [|h| |] eqn:Hst; [done|..].
    + assert (running_ s = false) as Hr by (destruct (running_ s); [by destruct H1|done]).
      destruct h; intros [= <-]; split; unfold stops_threads; cbn; rewrite ?Hr; try done; auto.
    + assert (running_ s = false) as Hr by (destruct (running_ s); [by destruct H1|done]).
      case_match; intros [= <-]. split; unfold stops_threads; cbn; rewrite ?Hr; done.
    + assert (running_ s = false) as Hr by (destruct (running_ s); [by destruct H1|done]).
      case_match; intros [= <-]. split; unfold stops_threads; cbn; rewrite ?Hr; try done. intros _ _. by apply H4.
Qed.

#[local] Hint Resolve exec_threads : hspd.

(** While [stop] waits, a thread that has returned found the queue empty. *)
Definition Emptied (s : pool) : Prop :=
  (stopping s = Draining -> task_queue_ s = []) /\
  (stops_threads s = true -> forall w, w ∈ threads_ s -> workers s !! w = Some Exited -> task_queue_ s = []).

Lemma emptied_same s s' :
  Emptied s -> stopping s' = stopping s -> task_queue_ s' = task_queue_ s -> threads_ s' = threads_ s ->
  (forall w, workers s' !! w = Some Exited -> workers s !! w = Some Exited) -> Emptied s'.
Proof.
  intros [H1 H2] Hst Hq Ht Hw. split; unfold stops_threads in *; rewrite ?Hst, ?Hq, ?Ht; [done|]. eauto.
Qed.

Lemma exec_emptied e s s' :
  Inv s -> Threads s -> Emptied s -> exec e s = Some s' -> (forall t, e <> Push t) -> Emptied s'.
Proof.
  intros Hinv Ht HE. destruct e as [t| |w| |w|w|hard|]; cbn; intros Hs Hne.
  - by destruct (Hne t).
  - unfold check_waiting in Hs. repeat case_match; try done; injection Hs as <-; by apply (emptied_same s).
  - unfold notify_one in Hs. repeat case_match; try done; injection Hs as <-; try by apply (emptied_same s).
    apply (emptied_same s); try done. intros w1 [(_ & ? & _)|[_ ?]]%list_lookup_insert_Some; done.
  - unfold run in Hs. destruct (stopping s) eqn:Hst; try done. destruct (running_ s); apply (inj Some) in Hs as <-; [done|].
    by split.
  - destruct (worker_moves _ _ _ Hinv Hs) as (ph & ph' & (Hw & Hws & _) & Hth & Hst & Hq & Hex). destruct HE as [E1 E2].
    split; unfold stops_threads in *; rewrite Hst; [by auto|]. rewrite Hth, Hws. intros H w1 Hin Hw1.
    destruct (lookup_move _ _ _ _ _ _ Hw Hw1) as [[_ <-]|[_ Hw2]]; [by apply Hex|]. eauto.
  - unfold spurious in Hs. repeat case_match; try done; injection Hs as <-.
    apply (emptied_same s); try done. intros w1 [(_ & ? & _)|[_ ?]]%list_lookup_insert_Some; done.
  - unfold begin_stop in Hs. destruct (stopping s) eqn:Hst; try done. destruct (running_ s) eqn:Hr; injection Hs as <-; [|done].
    split; [done|]. cbn. intros _ w Hin Hw. destruct (thr_running _ Ht Hr) as (_ & _ & H).
    destruct (H w Hin) as (ph & Hw' & Hex). congruence.
  - destruct HE as [E1 E2]. unfold stops_threads in E2. unfold stop_step in Hs.
    destruct (stopping s) as [|h| |] eqn:Hst; [done|..].
    + destruct h; injection Hs as <-; (split; [done|]); [done|]. cbn. intros _ w Hin (ph & Hw & Heq)%wake_lookup.
      apply (E2 eq_refl w Hin). by destruct ph.
    + destruct (forallb _ _) eqn:Hall; [|done]. injection Hs as <-. split; [|done]. cbn. intros _.
      pose proof (thr_stopping _ Ht) as Hth. unfold stops_threads in Hth. rewrite Hst in Hth. specialize (Hth eq_refl).
      destruct (threads_ s) as [|w ws]; [done|]. cbn in Hall. apply andb_true_iff in Hall as [Hx _].
      apply (E2 eq_refl w); [left|]. unfold has_exited in Hx. by repeat case_match.
    + case_match; [done|]. injection Hs as <-. done.
Qed.

Lemma exec_all_threads es : forall s s',
  Inv s -> Threads s -> exec_all es s = Some s' -> Inv s' /\ Threads s'.
Proof.
  induction es as [|e es IH]; intros s s' Hinv Ht; cbn; [by intros [= <-]|].
  intros (s1 & He & H)%bind_Some. eapply (IH s1); eauto with hspd.
Qed.

Lemma exec_all_emptied es : forall s s',
  Inv s -> Threads s -> Emptied s -> exec_all es s = Some s' -> (forall t, Push t ∉ es) -> Inv s' /\ Emptied s'.
Proof.
  induction es as [|e es IH]; intros s s' Hinv Ht HE; cbn; [by intros [= <-]|].
  intros (s1 & He & H)%bind_Some Hp. eapply (IH s1); [eauto with hspd..| |done|].
  - eapply exec_emptied; [done..|]. intros t ->. apply (Hp t). left.
  - intros t Hin. apply (Hp t). by right.
Qed.

Lemma new_threads : Threads new.
Proof. by split. Qed.

(** ** Destruction *)

(** Without [stopHard], a worker that has not returned is in the vector. *)
Record Joined (s : pool) : Prop := {
  joined_vector : forall w ph, workers s !! w = Some ph -> ph <> Exited -> w ∈ threads_ s;
  joined_soft : stopping s <> Notifying true
}.

Lemma move_joined w ph ph' s s' :
  Joined s -> workers s !! w = Some ph -> ph <> Exited -> workers s' = <[w := ph']> (workers s) ->
  threads_ s' = threads_ s -> stopping s' = stopping s -> Joined s'.
Proof.
  intros [H1 H2] Hw Hne Hws Ht Hst. split; [|by rewrite Hst]. rewrite Hws, Ht. intros w1 ph1 Hw1 Hne1.
  destruct (lookup_move _ _ _ _ _ _ Hw Hw1) as [[-> _]|[_ Hw2]]; eauto.
Qed.

Lemma worker_not_exited w s s' : worker w s = Some s' -> exists ph, workers s !! w = Some ph /\ ph <> Exited.
Proof. unfold worker. intros H. destruct (workers s !! w) as [ph|]; [|done]. exists ph. split; [done|]. by intros ->. Qed.

Lemma exec_joined e s s' : Inv s -> Joined s -> exec e s = Some s' -> e <> Stop true -> Joined s'.
Proof.
  intros Hinv Hj. pose proof Hj as [H1 H2]. destruct e as [t| |w| |w|w|hard|]; cbn; intros Hs Hne.
  - unfold push in Hs. case_match; [done|]. by injection Hs as <-.
  - unfold check_waiting in Hs. repeat case_match; try done; by injection Hs as <-.
  - unfold notify_one in Hs. case_match; [done|]. destruct w as [w|]; [|case_match; [by injection Hs as <-|done]].
    destruct (workers s !! w) as [[]|] eqn:Hw; try done. injection Hs as <-. by apply (move_joined w Blocked Woken s).
  - unfold run in Hs. destruct (stopping s) eqn:Hst; try done. destruct (running_ s); apply (inj Some) in Hs as <-; [done|].
    split; [|done]. cbn [workers threads_]. intros w ph [Hw|[Hlen Hw]]%lookup_app_Some Hx.
    + apply elem_of_app. left. by eapply H1.
    + apply elem_of_app. right. apply lookup_replicate in Hw as [_ ?]. apply elem_of_seq. lia.
  - destruct (worker_not_exited _ _ _ Hs) as (ph0 & Hw0 & Hx).
    destruct (worker_moves _ _ _ Hinv Hs) as (ph & ph' & (Hw & Hws & _) & Hth & Hst & _).
    apply (move_joined w ph ph' s); try done. congruence.
  - unfold spurious in Hs. destruct (workers s !! w) as [[]|] eqn:Hw; try done. injection Hs as <-.
    by apply (move_joined w Blocked Woken s).
  - unfold begin_stop in Hs. destruct (stopping s) eqn:Hst; try done. destruct (running_ s); injection Hs as <-; [|done].
    split; [done|]. cbn. intros [= ->]. done.
  - unfold stop_step in Hs. destruct (stopping s) as [|[]| |] eqn:Hst; try done.
    + injection Hs as <-. split; [|done]. cbn. intros w ph (ph0 & Hw & ->)%wake_lookup Hx. apply (H1 w ph0 Hw). by intros ->.
    + destruct (forallb _ _) eqn:Hall; [|done]. injection Hs as <-. split; [|done]. cbn. intros w ph Hw Hx. exfalso.
      rewrite forallb_forall in Hall. pose proof (Hall w (proj1 (list_elem_of_In _ _) (H1 _ _ Hw Hx))) as He.
      unfold has_exited in He. rewrite Hw in He. by destruct ph.
    + case_match; [done|]. injection Hs as <-. by split.
Qed.

Lemma exec_all_joined es : forall s s',
  Inv s -> Threads s -> Joined s -> exec_all es s = Some s' -> Stop true ∉ es -> Inv s' /\ Threads s' /\ Joined s'.
Proof.
  induction es as [|e es IH]; intros s s' Hinv Ht Hj; cbn; [by intros [= <-]|].
  intros (s1 & He & H)%bind_Some Hn. apply not_elem_of_cons in Hn as [Hn ?].
  eapply (IH s1); [eauto with hspd..| |done|done]. eapply exec_joined; eauto.
Qed.

(** The steps that other threads make while the destructor runs, and those of [stop]. *)
Definition in_destructor (e : event) : bool :=
  match e with Run | Stop _ => false | _ => true end.

Lemma destruction_stops es : forall s s',
  running_ s = false -> exec_all es s = Some s' -> forallb in_destructor es = true -> running_ s' = false.
Proof.
  induction es as [|e es IH]; intros s s' Hr; cbn; [by intros [= <-]|].
  intros (s1 & He & H)%bind_Some [Hd Hds]%andb_true_iff. apply (IH s1); [|done..].
  destruct e; try done; cbn in He; unfold push, check_waiting, notify_one, worker, spurious, stop_step in He;
    repeat case_match; try done; by injection He as <-.
Qed.

(** ** Theorems *)

(** C6: In every reachable state, whatever the interleaving of adding callers,
    workers, spurious wake-ups and stopping: the task counter, an [int], is the
    length of the queue modulo 2^32, hence the length itself as long as fewer than
    2^31 tasks are queued; at most one worker is inside the critical section, every task
    that was added is in exactly one place (finished, being run, in the queue,
    or removed by [stop]), and tasks are started in the order they were added. *)
Theorem tasks_accounted s :
  reachable s ->
  task_num_ s = i32 (Zlen (task_queue_ s)) /\
  (Zlen (task_queue_ s) < 2 ^ 31 -> task_num_ s = Zlen (task_queue_ s)) /\
  (forall w1 w2 ph1 ph2, workers s !! w1 = Some ph1 -> workers s !! w2 = Some ph2 ->
     holds ph1 = true -> holds ph2 = true -> w1 = w2) /\
  added s ≡ₚ finished s ++ (workers s ≫= running_of) ++ task_queue_ s ++ dropped s /\
  started s ++ task_queue_ s `sublist_of` added s.
Proof.
  intros Hinv%reachable_inv. split; [apply Hinv|]. split; [|split; [|split; [|apply Hinv]]].
  - intros Hlen. rewrite (inv_num _ Hinv), i32_small; [done|]. pose proof (Zlen_nonneg (task_queue_ s)). lia.
  - intros w1 w2 ph1 ph2 H1 H2 Hh1 Hh2. apply (inv_mutex _ Hinv _ _ H1) in Hh1. apply (inv_mutex _ Hinv _ _ H2) in Hh2.
    congruence.
  - by rewrite (inv_account _ Hinv), (inv_running _ Hinv), <- app_assoc.
Qed.

(** C4: No task waits forever.  From any reachable state of a pool that runs, the
    steps of the workers and of the callers still adding tasks come to an end
    after a bounded number of steps, in whatever order they are made, and when
    none is left the queue is empty and every task added has been run (or had
    been removed by an earlier [stop]). *)
Theorem every_task_runs s :
  reachable s -> running_ s = true ->
  (forall n s', nsteps internal n s s' -> (n <= measure s)%nat) /\
  (forall s', rtc internal s s' -> (forall s'', ~ internal s' s'') ->
     task_queue_ s' = [] /\ added s' = added s /\ added s ≡ₚ finished s' ++ dropped s).
Proof.
  intros Hinv%reachable_inv Hr. split; [intros; by eapply internals_bounded|].
  intros s' Hs Hq. destruct (internals_keep _ _ Hs Hinv) as (Hinv' & Hr' & Ha & Hd).
  destruct (quiescent_done s' Hinv') as [Hqueue Hrun]; [congruence|done|].
  split; [done|]. split; [done|]. rewrite <- Ha, <- Hd, (inv_account _ Hinv'), (inv_running _ Hinv'), Hrun, Hqueue.
  by rewrite app_nil_r.
Qed.

(** [stop] waits for all tasks.  If no task is added after the call, then when
    [stop] has joined the workers the queue is empty: every task added before
    was started, and the clean-up that follows removes nothing. *)
Theorem stop_waits_for_tasks es1 es2 s :
  exec_all (es1 ++ Stop false :: es2) new = Some s -> (forall t, Push t ∉ es2) -> stopping s = Draining ->
  task_queue_ s = [] /\ added s ≡ₚ started s ++ dropped s.
Proof.
  intros Hs Hp Hd.
  assert (exists s1, exec_all es1 new = Some s1 /\ exec_all (Stop false :: es2) s1 = Some s) as (s1 & Hs1 & Hs2).
  { clear Hp Hd. revert Hs. generalize new. induction es1 as [|e es1 IH]; intros s0; cbn [exec_all app]; [eauto|].
    intros (s' & He & H)%bind_Some. rewrite He. cbn. by apply IH. }
  destruct (exec_all_threads _ _ _ new_inv new_threads Hs1) as [Hinv Ht].
  cbn [exec_all] in Hs2. apply bind_Some in Hs2 as (s2 & He & Hs2).
  assert (Emptied s2) as HE.
  { pose proof He as He'. cbn in He'. unfold begin_stop in He'. destruct (stopping s1) eqn:Hst; try done.
    eapply exec_emptied; [exact Hinv|done| |exact He|done].
    split; unfold stops_threads; by rewrite Hst. }
  destruct (exec_all_emptied es2 s2 s) as [Hinv' [HE' _]]; [eauto with hspd..|done|done|done|].
  split; [by apply HE'|]. by rewrite (inv_account _ Hinv'), (HE' Hd).
Qed.

(** C22: a pool that is not stopped with [stopHard] can be destroyed.  However the
    workers are interleaved with the destructor, when it has returned every worker
    thread has returned and the vector of threads is empty, so no thread is left
    that could touch the members, and every task was run to its end or is discarded
    with the queue: none is cut off. *)
Theorem destruction_is_safe es1 es2 s1 s2 s :
  exec_all es1 createThreadPool = Some s1 -> Stop true ∉ es1 -> destructor s1 = Some s2 ->
  exec_all es2 s2 = Some s -> forallb in_destructor es2 = true -> stopping s = NotStopping ->
  threads_ s = [] /\ Forall (eq Exited) (workers s) /\ (forall w, worker w s = None /\ spurious w s = None) /\
  added s ≡ₚ finished s ++ task_queue_ s ++ dropped s.
Proof.
  intros Hs1 Hn Hd Hs Hin Hst.
  destruct (exec_all_joined es1 new s1) as (Hi1 & Ht1 & Hj1); [apply new_inv|apply new_threads|by split|done..|].
  assert (Inv s2 /\ Threads s2 /\ Joined s2 /\ running_ s2 = false) as (Hi2 & Ht2 & Hj2 & Hr2).
  { unfold destructor in Hd. destruct (stopping s1) eqn:Hst1; try done.
    destruct (running_ s1) eqn:Hr1; [|by injection Hd as <-].
    split; [by eapply begin_stop_inv|]. split; [by eapply (exec_threads (Stop false))|].
    split; [by eapply (exec_joined (Stop false))|]. unfold begin_stop in Hd. rewrite Hst1, Hr1 in Hd. by injection Hd as <-. }
  destruct (exec_all_joined es2 s2 s) as (Hi & Ht & Hj); [done..| |].
  { intros H%list_elem_of_In. rewrite forallb_forall in Hin. by apply Hin in H. }
  pose proof (thr_stopped _ Ht (destruction_stops es2 s2 s Hr2 Hs Hin) Hst) as Hth.
  assert (forall w ph, workers s !! w = Some ph -> ph = Exited) as Hex.
  { intros w ph Hw. destruct (has_exited s w) eqn:He; unfold has_exited in He; rewrite Hw in He; [by destruct ph|].
    exfalso. pose proof (joined_vector _ Hj w ph Hw) as H. rewrite Hth in H. destruct ph; try done; by apply not_elem_of_nil in H. }
  split; [done|]. split; [apply Forall_lookup; intros w ph Hw; symmetry; by eapply Hex|]. split.
  - intros w. unfold worker, spurious. destruct (workers s !! w) as [ph|] eqn:Hw; [|done]. by rewrite (Hex w ph Hw).
  - rewrite (inv_account _ Hi), (inv_running _ Hi). rewrite no_running_tasks; [by rewrite app_nil_r|].
    intros w ph Hw. by rewrite (Hex w ph Hw).
Qed.

(** [waiting_threads_] counts threads, so it stays within its width as long as there
    are fewer than 2^31 of them. *)
Lemma waiting_bounded s : reachable s -> 0 <= waiting_threads_ s <= Zlen (workers s).
Proof.
  intros Hinv%reachable_inv. rewrite (inv_waiting _ Hinv). unfold Zlen. split; [lia|]. apply inj_le.
  induction (workers s) as [|ph ws IH]; cbn; [lia|]. destruct (waits ph); cbn; lia.
Qed.

(** The count that is read is the length of the queue, as long as that fits an [int]. *)
Lemma getTaskCount_reachable s :
  reachable s -> Zlen (task_queue_ s) < 2 ^ 31 -> getTaskCount s = Zlen (task_queue_ s).
Proof.
  intros Hinv%reachable_inv Hlen. unfold getTaskCount. rewrite (inv_num _ Hinv). pose proof (Zlen_nonneg (task_queue_ s)).
  rewrite i32_small by lia. apply u64_small. lia.
Qed.

(** The deleter does what the destructor does. *)
Lemma default_delete_destructor s : default_delete s = destructor s.
Proof. unfold default_delete, destructor, begin_stop. destruct (stopping s), (running_ s) eqn:?; done. Qed.

End pool.
Arguments pool task : clear implicits.
Arguments event task : clear implicits.

(** A pool of two workers with three tasks added while one of them blocks. *)
Definition sample_events : list (event nat) :=
  [Run; Worker 0; Worker 0; Worker 0; Push 1%nat; Push 2%nat; CheckWaiting; Worker 1; NotifyOne (Some 0%nat);
   Worker 1; Worker 1; Push 3%nat].

Definition sample_pool : pool nat := default new (exec_all sample_events new).

Lemma exec_all_reachable {task} (es : list (event task)) s s' :
  rtc step new s -> exec_all es s = Some s' -> reachable s'.
Proof.
  revert s. induction es as [|e es IH]; intros s Hs; cbn; [by intros [= <-]|].
  intros (s1 & He & H)%bind_Some. apply (IH s1); [|done]. eapply rtc_r; [done|]. by exists e.
Qed.

Lemma sample_reachable : reachable sample_pool.
Proof. apply (exec_all_reachable sample_events new); [constructor|]. by vm_compute. Qed.

Lemma tasks_accounted_witness : task_num_ sample_pool = 2 /\ added sample_pool ≡ₚ [] ++ [1%nat] ++ [2%nat; 3%nat] ++ [].
Proof. destruct (tasks_accounted sample_pool sample_reachable) as (_ & H1 & _ & H2 & _). split; [by apply H1|exact H2]. Defined.

Lemma every_task_runs_witness :
  (forall n s', nsteps internal n sample_pool s' -> (n <= 27)%nat) /\
  (forall s', rtc internal sample_pool s' -> (forall s'', ~ internal s' s'') ->
     task_queue_ s' = [] /\ added s' = [1%nat; 2%nat; 3%nat] /\ [1%nat; 2%nat; 3%nat] ≡ₚ finished s' ++ []).
Proof. apply (every_task_runs sample_pool); [apply sample_reachable|done]. Defined.

(** Two tasks are added, [stop] is called, and the workers run them and return. *)
Definition stop_events : list (event nat) :=
  [StopStep; Worker 0; Worker 0; Worker 0; Worker 0; Worker 1; Worker 1; Worker 1; Worker 1;
   Worker 0; Worker 0; Worker 0; Worker 1; Worker 1; Worker 1; StopStep].

Lemma stop_waits_for_tasks_witness :
  exists s : pool nat, added s = [1%nat; 2%nat] /\ task_queue_ s = [] /\ added s ≡ₚ started s ++ dropped s.
Proof.
  exists (default new (exec_all ([Run; Push 1%nat; Push 2%nat] ++ Stop false :: stop_events) new)).
  split; [done|]. apply (stop_waits_for_tasks [Run; Push 1%nat; Push 2%nat] stop_events).
  - by vm_compute.
  - intros t Hin. by repeat (apply elem_of_cons in Hin as [Hin|Hin]; [discriminate|]); apply not_elem_of_nil in Hin.
  - by vm_compute.
Defined.

(** [stop] can hang.  It clears [running_] and notifies without the mutex, so
    this can happen after a worker has found that it has to wait and before it
    waits: the notification is lost.  In the state reached by these steps the
    caller of [stop] waits for that worker and nobody can make a step, apart
    from a new task being added or a spurious wake-up. *)
Theorem stop_can_hang :
  exists s : pool nat,
    exec_all [Run; Worker 0; Worker 0; Stop false; StopStep; Worker 0; Worker 1; Worker 1; Worker 1] new = Some s /\
    stopping s = Joining /\ workers s = [Blocked; Exited] /\
    (forall e s', exec e s = Some s' -> (exists t, e = Push t) \/ (exists w, e = Spurious w)).
Proof.
  eexists. split; [by vm_compute|]. split; [done|]. split; [done|].
  intros [t| |w| |w|w|hard|] s'; cbn; eauto; try done.
  unfold worker. cbn. destruct w as [|[|w]]; done.
Qed.

(** A pool destroyed while it runs two tasks. *)
Lemma destruction_is_safe_witness :
  exists s : pool nat, finished s = [1%nat; 2%nat] /\ task_queue_ s = [] /\ threads_ s = [] /\ Forall (eq Exited) (workers s) /\
    (forall w, worker w s = None /\ spurious w s = None) /\ [1%nat; 2%nat] ≡ₚ [1%nat; 2%nat] ++ [] ++ [].
Proof.
  exists (default new (s1 ← exec_all [Run; Push 1%nat; Push 2%nat] createThreadPool; s2 ← destructor s1; exec_all (stop_events ++ [StopStep]) s2)).
  split; [by vm_compute|]. split; [by vm_compute|].
  apply (destruction_is_safe [Run; Push 1%nat; Push 2%nat] (stop_events ++ [StopStep])
    (default new (exec_all [Run; Push 1%nat; Push 2%nat] createThreadPool))
    (default new (s1 ← exec_all [Run; Push 1%nat; Push 2%nat] createThreadPool; destructor s1))); try by vm_compute.
  intros H. by repeat (apply elem_of_cons in H as [H|H]; [discriminate|]); apply not_elem_of_nil in H.
Defined.

(** After [stopHard] the destructor has nothing to wait for: it returns while a
    detached worker runs a task and is about to lock the mutex of the pool that is
    gone. *)
Lemma destruction_after_stopHard :
  exists s : pool nat,
    exec_all [Run; Push 1%nat; Worker 0; Worker 0; Worker 0; Stop true; StopStep] createThreadPool = Some s /\
    destructor s = Some s /\ stopping s = NotStopping /\ workers s !! 0%nat = Some (Running 1%nat) /\
    (exists s', exec_all [Worker 0; Worker 0] s = Some s' /\ mtx_ s' = Some 0%nat).
Proof. eexists. repeat (split; [by vm_compute|]). eexists. split; by vm_compute. Qed.

End ThreadPool.
