(* ===== verification/Executor.v ===== *)
(** * What the strand relies on

    The interface between src/include/net/Strand.hpp and the thread pool it runs
    on ([Strand::Executor_t]): closures are submitted, each submitted closure is
    started once, and a started closure returns once; nothing is lost,
    duplicated or invented.  An executor can always accept a closure or make a
    step of its own, and while it runs and has closures it can make a step.  The thread pool is an instance. *)

From S2P Require Import Prelude ThreadPool.

Class Executor (E C : Type) : Type := {
  (** the states the executor can be in, and those in which it runs *)
  ex_ok : E -> Prop;
  ex_runs : E -> Prop;
  (** the closures submitted but not started, and those started but not returned *)
  ex_pending : E -> list C;
  ex_active : E -> list C;
  (** its steps: [addTask], starting a closure, its return, and any other *)
  ex_submit : C -> E -> E -> Prop;
  ex_start : C -> E -> E -> Prop;
  ex_finish : C -> E -> E -> Prop;
  ex_silent : E -> E -> Prop;
  ex_submit_law c e e' : ex_ok e -> ex_submit c e e' ->
    ex_ok e' /\ ex_pending e' ≡ₚ c :: ex_pending e /\ ex_active e' ≡ₚ ex_active e;
  ex_start_law c e e' : ex_ok e -> ex_start c e e' ->
    ex_ok e' /\ ex_pending e ≡ₚ c :: ex_pending e' /\ ex_active e' ≡ₚ c :: ex_active e;
  ex_finish_law c e e' : ex_ok e -> ex_finish c e e' ->
    ex_ok e' /\ ex_pending e' ≡ₚ ex_pending e /\ ex_active e ≡ₚ c :: ex_active e';
  ex_silent_law e e' : ex_ok e -> ex_silent e e' ->
    ex_ok e' /\ ex_pending e' ≡ₚ ex_pending e /\ ex_active e' ≡ₚ ex_active e;
  ex_accept c e : ex_ok e -> (exists e', ex_submit c e e') \/
    (exists c e', ex_start c e e') \/ (exists c e', ex_finish c e e') \/ (exists e', ex_silent e e');
  ex_progress e : ex_ok e -> ex_runs e -> ex_pending e <> [] ->
    (exists c e', ex_start c e e') \/ (exists c e', ex_finish c e e') \/ (exists e', ex_silent e e')
}.

(** ** The thread pool as an executor *)

Section thread_pool.
Import ThreadPool.
Context {C : Type}.

Definition pool_start (c : C) (s s' : pool C) : Prop :=
  exists w q, workers s !! w = Some AtTake /\ task_queue_ s = c :: q /\ worker w s = Some s'.

Definition pool_finish (c : C) (s s' : pool C) : Prop :=
  exists w, workers s !! w = Some (Running c) /\ worker w s = Some s'.

(** Every other step of the pool, except adding a task and emptying the queue at
    the end of [stop]. *)
Definition silent_event (e : event C) (s : pool C) : Prop :=
  match e with
  | Push _ => False
  | Worker w =>
      match workers s !! w with
      | Some AtTake => task_queue_ s = []
      | Some (Running _) => False
      | _ => True
      end
  | StopStep => stopping s <> Draining
  | _ => True
  end.

Definition pool_silent (s s' : pool C) : Prop := exists e, silent_event e s /\ exec e s = Some s'.

Lemma pool_start_law c s s' :
  Inv s -> pool_start c s s' ->
  Inv s' /\ task_queue_ s ≡ₚ c :: task_queue_ s' /\ workers s' ≫= running_of ≡ₚ c :: (workers s ≫= running_of).
Proof.
  intros Hinv (w & q & Hw & Hq & Hs). split; [by eapply worker_inv|].
  unfold worker in Hs. rewrite Hw, Hq in Hs. injection Hs as <-. cbn. split; [by rewrite Hq|].
  by rewrite (bind_insert _ _ _ _ _ Hw), (bind_lookup _ _ _ _ Hw).
Qed.

Lemma pool_finish_law c s s' :
  Inv s -> pool_finish c s s' ->
  Inv s' /\ task_queue_ s' ≡ₚ task_queue_ s /\ workers s ≫= running_of ≡ₚ c :: (workers s' ≫= running_of).
Proof.
  intros Hinv (w & Hw & Hs). split; [by eapply worker_inv|].
  unfold worker in Hs. rewrite Hw in Hs. injection Hs as <-. cbn. split; [done|].
  by rewrite (bind_insert _ _ _ _ _ Hw), (bind_lookup _ _ _ _ Hw).
Qed.

(** A worker step that neither takes nor finishes a task. *)
Lemma worker_silent w s s' :
  silent_event (Worker w) s -> worker w s = Some s' ->
  task_queue_ s' = task_queue_ s /\ workers s' ≫= running_of ≡ₚ workers s ≫= running_of.
Proof.
  cbn. unfold worker. destruct (workers s !! w) as [ph|] eqn:Hw; [|done].
  assert (forall ph', running_of ph = [] -> running_of ph' = [] ->
    <[w := ph']> (workers s) ≫= running_of ≡ₚ workers s ≫= running_of) as Hm.
  { intros ph' H1 H2. by rewrite (bind_insert _ _ _ _ _ Hw), (bind_lookup _ _ _ _ Hw), H1, H2. }
  destruct ph; try done; intros Hsil.
  - case_match; [done|]. intros [= <-]. cbn. auto.
  - case_match; intros [= <-]; cbn; auto.
  - intros [= <-]. cbn. auto.
  - case_match; [done|]. intros [= <-]. cbn. auto.
  - rewrite Hsil. intros [= <-]. cbn. split; [done|]. apply Hm; [done|]. by destruct (running_ s).
Qed.

Lemma wake_running (ws : list (phase C)) : (wake <$> ws) ≫= running_of = ws ≫= running_of.
Proof. induction ws as [|ph ws IH]; [done|]. cbn. rewrite IH. by destruct ph. Qed.

Lemma pool_silent_law s s' :
  Inv s -> pool_silent s s' ->
  Inv s' /\ task_queue_ s' ≡ₚ task_queue_ s /\ workers s' ≫= running_of ≡ₚ workers s ≫= running_of.
Proof.
  intros Hinv (e & Hsil & He). split; [by eapply exec_pool_inv|].
  assert (forall w ph', workers s !! w = Some Blocked -> running_of ph' = [] ->
    <[w := ph']> (workers s) ≫= running_of ≡ₚ workers s ≫= running_of) as Hm.
  { intros w ph' Hw H2. by rewrite (bind_insert _ _ _ _ _ Hw), (bind_lookup _ _ _ _ Hw), H2. }
  destruct e as [t| |w| |w|w|hard|]; cbn [exec silent_event] in *; try done.
  - unfold check_waiting in He. repeat case_match; try done; by injection He as <-.
  - unfold notify_one in He. repeat case_match; try done; injection He as <-; cbn; auto.
  - unfold run in He. destruct (stopping s); try done. destruct (running_ s); apply (inj Some) in He as <-; [done|].
    cbn [task_queue_ workers]. split; [done|]. rewrite bind_app. cbn. by rewrite app_nil_r.
  - destruct (worker_silent _ _ _ Hsil He) as [-> H]. done.
  - unfold spurious in He. repeat case_match; try done; injection He as <-; cbn; auto.
  - unfold begin_stop in He. repeat case_match; try done; by injection He as <-.
  - unfold stop_step in He. destruct (stopping s) as [|h| |]; [done|..|done].
    + destruct h; injection He as <-; cbn; by rewrite wake_running.
    + case_match; [|done]. by injection He as <-.
Qed.

(** A step of the pool itself is one of the three kinds. *)
Lemma internal_kinds s s' :
  internal s s' ->
  (exists c s', pool_start c s s') \/ (exists c s', pool_finish c s s') \/ (exists s', pool_silent s s').
Proof.
  intros (e & Hi & He). destruct e as [t| |w| |w|w|hard|]; try done.
  - right; right. by exists s', CheckWaiting.
  - right; right. by exists s', (NotifyOne w).
  - cbn in He. destruct (workers s !! w) as [ph|] eqn:Hw; [|unfold worker in He; by rewrite Hw in He].
    destruct ph as [| | | | | |t|].
    6: { destruct (task_queue_ s) as [|c q] eqn:E; [right; right; exists s', (Worker w); cbn; by rewrite Hw|].
         left. by exists c, s', w, q. }
    6: { right; left. by exists t, s', w. }
    all: right; right; exists s', (Worker w); split; [cbn; by rewrite Hw|done].
Qed.

Lemma pool_accept c s :
  Inv s -> (exists s', push c s = Some s') \/
  (exists c s', pool_start c s s') \/ (exists c s', pool_finish c s s') \/ (exists s', pool_silent s s').
Proof.
  intros Hinv. destruct (mtx_ s) as [w|] eqn:Hm; [right|left; unfold push; rewrite Hm; eauto].
  destruct (holder_steps _ _ Hinv Hm) as [s' Hs]. by eapply internal_kinds.
Qed.

Lemma pool_progress s :
  Inv s -> running_ s = true -> task_queue_ s <> [] ->
  (exists c s', pool_start c s s') \/ (exists c s', pool_finish c s s') \/ (exists s', pool_silent s s').
Proof.
  intros Hinv Hr Hq. destruct (progress s Hinv Hr (or_introl Hq)) as [s' Hs]. by eapply internal_kinds.
Qed.

#[global] Instance pool_executor : Executor (pool C) C.
Proof.
  refine {|
    ex_ok := Inv;
    ex_runs s := running_ s = true;
    ex_pending := task_queue_;
    ex_active s := workers s ≫= running_of;
    ex_submit c s s' := push c s = Some s';
    ex_start := pool_start;
    ex_finish := pool_finish;
    ex_silent := pool_silent;
    ex_start_law := pool_start_law;
    ex_finish_law := pool_finish_law;
    ex_silent_law := pool_silent_law;
    ex_accept := pool_accept;
    ex_progress := pool_progress
  |}.
  intros c s s' Hinv Hs. split; [by eapply push_inv|]. unfold push in Hs. case_match; [done|]. injection Hs as <-. cbn.
  split; [|done]. solve_Permutation.
Defined.

End thread_pool.

(** ** The least executor *)

(** A queue from which closures are started one after the other, and the closures
    that have not returned. *)
Section queue.
Context {C : Type}.

Record queue : Type := mkQueue { waiting : list C; started : list C }.

#[global] Instance queue_executor : Executor queue C.
Proof.
  refine {|
    ex_ok _ := True;
    ex_runs _ := True;
    ex_pending := waiting;
    ex_active := started;
    ex_submit c e e' := e' = mkQueue (waiting e ++ [c]) (started e);
    ex_start c e e' := exists q, waiting e = c :: q /\ e' = mkQueue q (c :: started e);
    ex_finish c e e' := exists l r, started e = l ++ c :: r /\ e' = mkQueue (waiting e) (l ++ r);
    ex_silent _ _ := False
  |}.
  - intros c e e' _ ->. cbn. split; [done|]. split; [solve_Permutation|done].
  - intros c e e' _ (q & Hq & ->). cbn. by rewrite Hq.
  - intros c e e' _ (l & r & Hl & ->). cbn. rewrite Hl. split; [done|]. split; [done|]. solve_Permutation.
  - done.
  - intros c e _. left. by eexists.
  - intros e _ _ Hne. left. destruct (waiting e) as [|c q] eqn:Hq; [done|]. exists c, (mkQueue q (c :: started e)), q. done.
Defined.

End queue.
Arguments queue C : clear implicits.
