(* ===== verification/Strand.v ===== *)
(** * The strand

    Models src/include/net/Strand.hpp: tasks added to a strand run one after the
    other on an executor that may run many closures at once.  The strand's
    members are kept with the threads that are inside its functions: those about
    to enter the critical section of [scheduleNext], those that have taken a
    task out and not yet given it to the executor, and those that run a task.
    The executor is any that satisfies the interface of Executor.v; it may also
    serve closures that do not belong to the strand.

    The theorems: the tasks of a strand never overlap and run in the order they
    were added, each once; and as long as a task has not run, there is a step
    that can be made. *)

From S2P Require Import Prelude Executor ThreadPool.

Module Strand.

(** The closures an executor of a strand serves: the strand's own
    ([next(); scheduleNext();]) and any others. *)
Inductive closure (task : Type) : Type :=
| StrandTask (t : task)
| Other (n : nat).
Arguments StrandTask {task} t.
Arguments Other {task} n.

Section strand.
Context {task E : Type} `{!Executor E (closure task)}.

Record strand : Type := mk {
  queue_ : list task;
  running_ : bool;
  schedulers : nat;          (** threads that have called [scheduleNext] *)
  submitting : list task;    (** taken from the queue, not yet with the executor *)
  in_next : list task;       (** being run *)
  added : list task;         (** the tasks added so far, in order *)
  completed : list task      (** the tasks that have run, in the order they ended *)
}.

Definition new : strand := mk [] false 0 [] [] [] [].

(** The critical section of [addTask]: the caller goes on to [scheduleNext] when
    the strand was not running. *)
Definition addTask (t : task) (s : strand) : strand :=
  mk (queue_ s ++ [t]) true (if running_ s then schedulers s else S (schedulers s))
    (submitting s) (in_next s) (added s ++ [t]) (completed s).

(** The critical section of [scheduleNext]. *)
Definition scheduleNext (s : strand) : option strand :=
  match schedulers s with
  | O => None
  | S n =>
      match queue_ s with
      | [] => Some (mk [] false n (submitting s) (in_next s) (added s) (completed s))
      | t :: q => Some (mk q (running_ s) n (submitting s ++ [t]) (in_next s) (added s) (completed s))
      end
  end.

Definition set_submitting (l : list task) (s : strand) : strand :=
  mk (queue_ s) (running_ s) (schedulers s) l (in_next s) (added s) (completed s).

Definition set_in_next (l : list task) (s : strand) : strand :=
  mk (queue_ s) (running_ s) (schedulers s) (submitting s) l (added s) (completed s).

(** [next()] returns in a closure of the strand, which then calls [scheduleNext]. *)
Definition end_next (t : task) (l : list task) (s : strand) : strand :=
  mk (queue_ s) (running_ s) (S (schedulers s)) (submitting s) l (added s) (completed s ++ [t]).

(** What others do: a task is added to the strand, or a closure that is not the
    strand's is submitted to the executor. *)
Inductive env_step : strand * E -> strand * E -> Prop :=
| env_add t s e : env_step (s, e) (addTask t s, e)
| env_submit n s e e' : ex_submit (Other n) e e' -> env_step (s, e) (s, e').

(** The steps of the strand and of its executor. *)
Inductive own_step : strand * E -> strand * E -> Prop :=
| step_schedule s s' e : scheduleNext s = Some s' -> own_step (s, e) (s', e)
| step_submit t l r s e e' :
    submitting s = l ++ t :: r -> ex_submit (StrandTask t) e e' -> own_step (s, e) (set_submitting (l ++ r) s, e')
| step_start t s e e' : ex_start (StrandTask t) e e' -> own_step (s, e) (set_in_next (in_next s ++ [t]) s, e')
| step_start_other n s e e' : ex_start (Other n) e e' -> own_step (s, e) (s, e')
| step_next t l r s e : in_next s = l ++ t :: r -> own_step (s, e) (end_next t (l ++ r) s, e)
| step_return t s e e' :
    ex_finish (StrandTask t) e e' -> StrandTask <$> in_next s ⊆+ ex_active e' -> own_step (s, e) (s, e')
| step_return_other n s e e' : ex_finish (Other n) e e' -> own_step (s, e) (s, e')
| step_silent s e e' : ex_silent e e' -> own_step (s, e) (s, e').

Definition step (x y : strand * E) : Prop := env_step x y \/ own_step x y.

(** ** The invariant *)

Definition strand_task (c : closure task) : option task :=
  match c with StrandTask t => Some t | Other _ => None end.

(** The strand's closures among those waiting in the executor. *)
Definition waiting (e : E) : list task := omap strand_task (ex_pending e).

Definition reachable (x : strand * E) : Prop :=
  exists e0, ex_ok e0 /\ waiting e0 = [] /\ rtc step (new, e0) x.

Record Inv (x : strand * E) : Prop := {
  inv_executor : ex_ok x.2;
  inv_token : schedulers x.1 + length (submitting x.1) + length (waiting x.2) + length (in_next x.1)
              = if running_ x.1 then 1 else 0;
  inv_idle : running_ x.1 = false -> queue_ x.1 = [];
  inv_order : added x.1 = completed x.1 ++ in_next x.1 ++ waiting x.2 ++ submitting x.1 ++ queue_ x.1
}.

Lemma omap_perm (l k : list (closure task)) : l ≡ₚ k -> omap strand_task l ≡ₚ omap strand_task k.
Proof. intros Hp. by rewrite Hp. Qed.

(** Lists of at most one element are equal when they are permutations. *)
Lemma perm_short (l k : list task) : l ≡ₚ k -> length k <= 1 -> l = k.
Proof.
  intros Hp Hk. destruct k as [|x [|y k]]; cbn in Hk; [by apply Permutation_nil_r in Hp| |lia].
  by apply Permutation_singleton_r in Hp.
Qed.

Lemma token_short x : Inv x -> length (waiting x.2) <= 1.
Proof. intros Hinv. pose proof (inv_token _ Hinv). destruct (running_ x.1); lia. Qed.

(** Steps of the executor that concern no closure of the strand. *)
Lemma executor_inv s e e' :
  Inv (s, e) -> ex_ok e' -> waiting e' ≡ₚ waiting e -> Inv (s, e').
Proof.
  intros Hinv Hok Hp. pose proof (token_short _ Hinv) as Hs.
  assert (waiting e' = waiting e) as Hw by (by apply perm_short). destruct Hinv as [H1 H2 H3 H4].
  split; cbn in *; rewrite ?Hw; done.
Qed.

Lemma add_inv t s e : Inv (s, e) -> Inv (addTask t s, e).
Proof.
  intros [H1 H2 H3 H4]. split; cbn in *; [done| |done|].
  - destruct (running_ s); lia.
  - rewrite H4. by rewrite <- !app_assoc.
Qed.

Lemma schedule_inv s s' e : Inv (s, e) -> scheduleNext s = Some s' -> Inv (s', e).
Proof.
  intros [H1 H2 H3 H4]. unfold scheduleNext. destruct (schedulers s) as [|n] eqn:Hn; [done|].
  cbn in *. assert (running_ s = true) as Hr by (destruct (running_ s); [done|lia]). rewrite Hr in H2.
  destruct (queue_ s) as [|t q] eqn:Hq; intros [= <-].
  - split; cbn; [done|lia|done|by rewrite H4].
  - split; cbn; rewrite ?Hr; [done|rewrite length_app; cbn; lia|done|]. by rewrite H4, <- !app_assoc.
Qed.

Lemma submit_inv t l r s e e' :
  Inv (s, e) -> submitting s = l ++ t :: r -> ex_submit (StrandTask t) e e' -> Inv (set_submitting (l ++ r) s, e').
Proof.
  intros [H1 H2 H3 H4] Hs He. cbn in *. destruct (ex_submit_law _ _ _ H1 He) as (Hok & Hp & _).
  apply omap_perm in Hp. cbn in Hp. fold (waiting e') in Hp. fold (waiting e) in Hp.
  rewrite Hs in *. rewrite length_app in H2. cbn in H2.
  assert (waiting e = [] /\ l = [] /\ r = [] /\ in_next s = []) as (Hw & -> & -> & Hi).
  { destruct (running_ s); [|lia]. repeat split; apply nil_length_inv; lia. }
  rewrite Hw in *. apply Permutation_singleton_r in Hp. cbn in *.
  split; cbn; rewrite ?Hp; try done; cbn; lia.
Qed.

Lemma start_task_inv t s e e' :
  Inv (s, e) -> ex_start (StrandTask t) e e' -> Inv (set_in_next (in_next s ++ [t]) s, e').
Proof.
  intros [H1 H2 H3 H4] He. cbn in *. destruct (ex_start_law _ _ _ H1 He) as (Hok & Hp & _).
  apply omap_perm in Hp. cbn in Hp. fold (waiting e') in Hp. fold (waiting e) in Hp.
  pose proof (Permutation_length Hp) as Hl. cbn in Hl.
  assert (waiting e' = [] /\ in_next s = []) as (Hw & Hi).
  { destruct (running_ s); [|lia]. split; apply nil_length_inv; lia. }
  rewrite Hw in *. apply Permutation_singleton_r in Hp. rewrite Hp, Hi in *. cbn in *.
  split; cbn; rewrite ?Hw; try done; cbn; lia.
Qed.

Lemma next_inv t l r s e : Inv (s, e) -> in_next s = l ++ t :: r -> Inv (end_next t (l ++ r) s, e).
Proof.
  intros [H1 H2 H3 H4] Hi. cbn in *. rewrite Hi in *. rewrite length_app in H2. cbn in H2.
  assert (l = [] /\ r = []) as [-> ->] by (destruct (running_ s); [|lia]; split; apply nil_length_inv; lia).
  cbn in *. split; cbn; try done; try lia. by rewrite H4, <- app_assoc.
Qed.

#[local] Hint Resolve add_inv schedule_inv submit_inv start_task_inv next_inv : hspd.

Lemma step_inv x y : Inv x -> step x y -> Inv y.
Proof.
  intros Hinv [Hstep|Hstep]; pose proof (inv_executor _ Hinv) as Hok.
  - destruct Hstep as [t s e|n s e e' He]; [eauto with hspd|].
    destruct (ex_submit_law _ _ _ Hok He) as (Hok' & Hp & _). eapply executor_inv; [done..|].
    apply omap_perm in Hp. exact Hp.
  - destruct Hstep as [s s' e Hs|t l r s e e' Hs He|t s e e' He|n s e e' He|t l r s e Hi|t s e e' He _
                      |n s e e' He|s e e' He].
    + eauto with hspd.
    + eauto with hspd.
    + eauto with hspd.
    + destruct (ex_start_law _ _ _ Hok He) as (Hok' & Hp & _). eapply executor_inv; [done..|].
      apply omap_perm in Hp. by symmetry.
    + eauto with hspd.
    + destruct (ex_finish_law _ _ _ Hok He) as (Hok' & Hp & _). eapply executor_inv; [done..|]. by apply omap_perm.
    + destruct (ex_finish_law _ _ _ Hok He) as (Hok' & Hp & _). eapply executor_inv; [done..|]. by apply omap_perm.
    + destruct (ex_silent_law _ _ Hok He) as (Hok' & Hp & _). eapply executor_inv; [done..|]. by apply omap_perm.
Qed.

Lemma strand_reachable_inv x : reachable x -> Inv x.
Proof.
  intros (e0 & Hok & Hw & Hr). refine (rtc_ind_r (R := step) Inv (new, e0) _ _ x Hr).
  - split; cbn; rewrite ?Hw; done.
  - intros y z _ Hs Hinv. by eapply step_inv.
Qed.

(** ** Theorems *)

(** C5: A strand is serial.  On any executor, in every reachable state at most one
    task of the strand is being run, and the tasks added are, in order: those
    that have run, the one being run, the one on its way to a worker, and those
    in the queue.  So tasks run in the order they were added, each exactly
    once, and never overlap. *)
Theorem strand_is_serial s e :
  reachable (s, e) ->
  length (in_next s) <= 1 /\ exists rest, added s = completed s ++ in_next s ++ rest /\
    rest = waiting e ++ submitting s ++ queue_ s.
Proof.
  intros Hinv%strand_reachable_inv. destruct Hinv as [H1 H2 H3 H4]. cbn in *.
  split; [destruct (running_ s); lia|]. eauto.
Qed.

(** The executor's own steps, as steps of the system, when no task of the strand
    is being run. *)
Lemma executor_step s e :
  in_next s = [] ->
  (exists c e', ex_start c e e') \/ (exists c e', ex_finish c e e') \/ (exists e', ex_silent e e') ->
  exists y, own_step (s, e) y.
Proof.
  intros Hi [([t|n] & e' & He)|[([t|n] & e' & He)|[e' He]]].
  - eexists. by eapply step_start.
  - eexists. by eapply step_start_other.
  - eexists. eapply step_return; [done|]. rewrite Hi. apply submseteq_nil_l.
  - eexists. by eapply step_return_other.
  - eexists. by eapply step_silent.
Qed.

Lemma inv_progress s e :
  Inv (s, e) -> ex_runs e -> completed s <> added s -> exists y, own_step (s, e) y.
Proof.
  intros Hinv Hr Hne. destruct Hinv as [H1 H2 H3 H4]. cbn in *.
  destruct (schedulers s) as [|n] eqn:Hn.
  2:{ assert (exists s', scheduleNext s = Some s') as [s' Hs] by (unfold scheduleNext; rewrite Hn; destruct (queue_ s); eauto).
      eexists. by apply step_schedule. }
  destruct (in_next s) as [|t l] eqn:Hi; [|eexists; by apply (step_next t [] l)].
  destruct (submitting s) as [|t l] eqn:Hs.
  2:{ destruct (ex_accept (StrandTask t) e H1) as [[e' He]|He]; [|by apply executor_step].
      eexists. by apply (step_submit t [] l). }
  apply executor_step; [done|]. apply ex_progress; [done..|]. intros Hp.
  assert (waiting e = []) as Hw by (unfold waiting; by rewrite Hp). rewrite Hw in *. cbn in *.
  destruct (running_ s); [lia|]. rewrite (H3 eq_refl), app_nil_r in H4. congruence.
Qed.

(** A strand never gets stuck: while some task that was added has not run, and
    the executor runs, the strand or its executor can make a step. *)
Theorem strand_progress s e :
  reachable (s, e) -> ex_runs e -> completed s <> added s -> exists y, own_step (s, e) y.
Proof. intros Hinv%strand_reachable_inv. by apply inv_progress. Qed.

(** A strand can go away when it does not run: no thread is inside its functions and no
    closure that refers to it is with the executor. *)
Lemma idle_unreferenced s e :
  reachable (s, e) -> running_ s = false ->
  queue_ s = [] /\ schedulers s = 0 /\ submitting s = [] /\ in_next s = [] /\ (forall t, StrandTask t ∉ ex_pending e) /\ completed s = added s.
Proof.
  intros Hinv%strand_reachable_inv Hr. destruct Hinv as [H1 H2 H3 H4]. cbn in *. rewrite Hr in H2.
  assert (submitting s = [] /\ waiting e = [] /\ in_next s = []) as (Hs & Hw & Hi) by (split_and!; apply nil_length_inv; lia).
  rewrite (H3 Hr), Hs, Hw, Hi, !app_nil_r in H4. split_and!; [auto|lia|done|done| |done].
  intros t Ht. assert (t ∈ waiting e) as Hin; [|rewrite Hw in Hin; by apply not_elem_of_nil in Hin].
  apply list_elem_of_omap. by exists (StrandTask t).
Qed.

End strand.

(** But its user cannot see that.  When every task that was added has run, so that every
    future is ready, a worker may still be about to call [scheduleNext], which locks
    the mutex of the strand. *)
Lemma done_but_referenced :
  exists (s : strand (task := nat)) (e : queue (closure nat)),
    reachable (s, e) /\ added s = [1] /\ completed s = added s /\ schedulers s = 1 /\ running_ s = true.
Proof.
  exists (mk [] true 1 [] [] [1] [1]), (mkQueue [] [StrandTask 1]). split; [|done].
  exists (mkQueue [] []). split; [done|]. split; [done|].
  eapply rtc_l; [left; apply (env_add 1)|]. eapply rtc_l; [right; by apply step_schedule|].
  eapply rtc_l; [right; by eapply (step_submit 1 [] [])|].
  eapply rtc_l; [right; eapply (step_start 1); by exists []|].
  eapply rtc_l; [right; by apply (step_next 1 [] [])|]. apply rtc_refl.
Qed.

(** ** On the thread pool *)

(** A pool that was started and has one worker about to take a task. *)
Definition started_pool : ThreadPool.pool (closure nat) :=
  default ThreadPool.new (ThreadPool.exec_all [ThreadPool.Run] ThreadPool.new).

Definition strand_with_task : strand (task := nat) :=
  mk [2] true 0 [] [] [1; 2] [].

Definition pool_with_task : ThreadPool.pool (closure nat) :=
  default started_pool (ThreadPool.push (StrandTask 1) started_pool).

Lemma strand_example : reachable (strand_with_task, pool_with_task).
Proof.
  exists started_pool. split; [|split; [done|]].
  - eapply (ThreadPool.exec_pool_inv ThreadPool.Run ThreadPool.new); [apply ThreadPool.new_inv|done].
  - eapply rtc_l; [left; apply (env_add 1)|]. eapply rtc_l; [left; apply (env_add 2)|].
    eapply rtc_l; [right; by apply step_schedule|].
    eapply rtc_l; [right; apply (step_submit 1 [] [] _ _ pool_with_task); [done|by vm_compute]|]. constructor.
Qed.

Lemma strand_is_serial_witness :
  length (in_next strand_with_task) <= 1 /\
  exists rest, [1; 2] = [] ++ [] ++ rest /\ rest = waiting pool_with_task ++ [] ++ [2].
Proof. apply (strand_is_serial strand_with_task pool_with_task). apply strand_example. Defined.

Lemma strand_progress_witness : exists y, own_step (strand_with_task, pool_with_task) y.
Proof.
  apply (strand_progress strand_with_task pool_with_task).
  - apply strand_example.
  - reflexivity.
  - done.
Defined.

End Strand.
