(* ===== verification/Futures.v ===== *)
(** * Futures

    Models [ThreadPool::addTask] of src/include/tools/ThreadPool.hpp: a function is
    wrapped in a [std::packaged_task], a closure that calls it is given to the
    pool, and its future is returned.  What the library says of a packaged task:
    calling it stores the result or the exception of the function, a second call
    throws; a second [get_future] throws.

    The pool is any executor ([Executor]).  The theorems: a call of a packaged task
    by a worker never throws, every future is retrieved once, and when nothing is
    left to be run every future holds what its function ended with; while there is
    something left, something can be done. *)

From S2P Require Import Prelude Executor.

Module Futures.

Section futures.
Context {T : Type}.

(** [std::packaged_task]: how the function ends, the result once it was called, and
    whether the future was retrieved.  Tasks are numbered. *)
Record packaged_task : Type := mkTask { func : T + exn; shared : option (T + exn); retrieved : bool }.

Abbreviation table := (gmap nat packaged_task).
Implicit Types (t : nat) (m : table).

(** [( *task_ptr)()] *)
Definition invoke t m : outcome table :=
  match m !! t with
  | None => Undefined
  | Some p =>
      match shared p with
      | Some _ => Throw (FutureError (lit "promise_already_satisfied"))
      | None => Ok (<[t := mkTask (func p) (Some (func p)) (retrieved p)]> m)
      end
  end.

(** [task_ptr->get_future()] *)
Definition get_future t m : outcome table :=
  match m !! t with
  | None => Undefined
  | Some p =>
      if retrieved p then Throw (FutureError (lit "future_already_retrieved"))
      else Ok (<[t := mkTask (func p) (shared p) true]> m)
  end.

(** [make_shared<packaged_task>], for a new task. *)
Definition package t (f : T + exn) m : table := <[t := mkTask f None false]> m.

Context {E : Type} `{!Executor E nat}.

Record system : Type := mk {
  tasks : table;
  pool : E;
  submitting : list nat;      (** callers of [addTask] inside [_addTask] *)
  returning : list nat;       (** callers of [addTask] before [get_future] *)
  invoking : list nat         (** closures that were started and have not called their task *)
}.

(** The steps of the callers of [addTask], of the closures and of the pool. *)
Inductive own_step : system -> system -> Prop :=
| step_submit t l r e x :
    submitting x = l ++ t :: r -> ex_submit t (pool x) e ->
    own_step x (mk (tasks x) e (l ++ r) (returning x ++ [t]) (invoking x))
| step_future t l r m x :
    returning x = l ++ t :: r -> get_future t (tasks x) = Ok m ->
    own_step x (mk m (pool x) (submitting x) (l ++ r) (invoking x))
| step_start t e x :
    ex_start t (pool x) e -> own_step x (mk (tasks x) e (submitting x) (returning x) (invoking x ++ [t]))
| step_invoke t l r m x :
    invoking x = l ++ t :: r -> invoke t (tasks x) = Ok m ->
    own_step x (mk m (pool x) (submitting x) (returning x) (l ++ r))
| step_return t e x :
    ex_finish t (pool x) e -> invoking x ⊆+ ex_active e ->
    own_step x (mk (tasks x) e (submitting x) (returning x) (invoking x))
| step_silent e x :
    ex_silent (pool x) e -> own_step x (mk (tasks x) e (submitting x) (returning x) (invoking x)).

(** A caller enters [addTask], or a step of the system. *)
Inductive step : system -> system -> Prop :=
| step_add t f x :
    tasks x !! t = None ->
    step x (mk (package t f (tasks x)) (pool x) (submitting x ++ [t]) (returning x) (invoking x))
| step_own x y : own_step x y -> step x y.

Definition start (e : E) : system := mk ∅ e [] [] [].

Definition reachable (x : system) : Prop :=
  exists e, ex_ok e /\ ex_pending e = [] /\ rtc step (start e) x.

(** ** The invariant *)

(** Where the closures of tasks are that have not been called. *)
Definition open_tasks (x : system) : list nat := submitting x ++ ex_pending (pool x) ++ invoking x.

Record Inv (x : system) : Prop := {
  inv_pool : ex_ok (pool x);
  inv_open : NoDup (open_tasks x);
  inv_shared : forall t p, tasks x !! t = Some p -> shared p = if decide (t ∈ open_tasks x) then None else Some (func p);
  inv_known : forall t, t ∈ open_tasks x -> is_Some (tasks x !! t);
  inv_futures : NoDup (submitting x ++ returning x);
  inv_retrieved : forall t p, tasks x !! t = Some p -> retrieved p = bool_decide (t ∉ submitting x ++ returning x);
  inv_returning : forall t, t ∈ returning x -> is_Some (tasks x !! t)
}.

Lemma start_futures_inv e : ex_ok e -> ex_pending e = [] -> Inv (start e).
Proof.
  intros He Hp. assert (open_tasks (start e) = []) as Ho by (unfold open_tasks; cbn; by rewrite Hp).
  split; try rewrite Ho; cbn; try done; try constructor; by intros t ?%elem_of_nil.
Qed.

(** Only the places change. *)
Lemma inv_places x e su re iv :
  Inv x -> ex_ok e -> su ++ ex_pending e ++ iv ≡ₚ open_tasks x -> su ++ re ≡ₚ submitting x ++ returning x ->
  Inv (mk (tasks x) e su re iv).
Proof.
  intros [Hp Ho Hs Hk Hf Hr Hre] He Hperm Hfut.
  assert (open_tasks (mk (tasks x) e su re iv) ≡ₚ open_tasks x) as Heq by done. split; cbn [tasks pool submitting returning]; try done.
  - by rewrite Heq.
  - intros t p Ht. rewrite (Hs t p Ht). apply decide_ext. by rewrite Heq.
  - intros t Ht. apply Hk. by rewrite Heq in Ht.
  - by rewrite Hfut.
  - intros t p Ht. rewrite (Hr t p Ht). apply bool_decide_ext. by rewrite Hfut.
  - intros t Ht. assert (t ∈ submitting x ++ returning x) as [Hin|Hin]%elem_of_app; [|apply Hk|by apply Hre].
    + rewrite <- Hfut. apply elem_of_app. by right.
    + unfold open_tasks. apply elem_of_app. by left.
Qed.

Lemma add_future_inv t f x :
  Inv x -> tasks x !! t = None -> Inv (mk (package t f (tasks x)) (pool x) (submitting x ++ [t]) (returning x) (invoking x)).
Proof.
  intros [Hp Ho Hs Hk Hf Hr Hre] Hnew. set (y := mk _ _ _ _ _).
  assert (tasks y = <[t := mkTask f None false]> (tasks x)) as Hty by done.
  assert (open_tasks y ≡ₚ t :: open_tasks x) as Hoy by (unfold open_tasks; cbn; solve_Permutation).
  assert (submitting y ++ returning y ≡ₚ t :: submitting x ++ returning x) as Hfy by (cbn; solve_Permutation).
  assert (t ∉ open_tasks x) as Hto by (intros [? ?]%Hk; congruence).
  assert (t ∉ submitting x ++ returning x) as Htf.
  { intros [Hin|[? ?]%Hre]%elem_of_app; [|congruence]. apply Hto. unfold open_tasks. apply elem_of_app. by left. }
  split; try done.
  - rewrite Hoy. by constructor.
  - intros t' p. rewrite Hty. intros [[<- <-]|[Hne Ht']]%lookup_insert_Some; cbn [shared func].
    + rewrite decide_True; [done|]. rewrite Hoy. by left.
    + rewrite (Hs _ _ Ht'). apply decide_ext. rewrite Hoy, elem_of_cons. split; [by right|intros [->|?]; [done|done]].
  - intros t'. rewrite Hoy, Hty. intros [->|Ht']%elem_of_cons; apply lookup_insert_is_Some'; auto.
  - rewrite Hfy. by constructor.
  - intros t' p. rewrite Hty. intros [[<- <-]|[Hne Ht']]%lookup_insert_Some; cbn [retrieved].
    + rewrite bool_decide_eq_false_2; [done|]. rewrite Hfy. intros Hn. apply Hn. by left.
    + rewrite (Hr _ _ Ht'). apply bool_decide_ext. rewrite Hfy, not_elem_of_cons. split; [by split|by intros [_ ?]].
  - intros t' Ht'. rewrite Hty. apply lookup_insert_is_Some'. right. by apply Hre.
Qed.

(** A closure calls its task. *)
Lemma invoke_inv t l r x :
  Inv x -> invoking x = l ++ t :: r ->
  exists m, invoke t (tasks x) = Ok m /\ Inv (mk m (pool x) (submitting x) (returning x) (l ++ r)).
Proof.
  intros [Hp Ho Hs Hk Hf Hr Hre] Hi.
  assert (open_tasks x ≡ₚ t :: submitting x ++ ex_pending (pool x) ++ l ++ r) as Hox
    by (unfold open_tasks; rewrite Hi; solve_Permutation).
  rewrite Hox in Ho. apply NoDup_cons in Ho as [Hnt Hnd].
  assert (t ∈ open_tasks x) as Hto by (rewrite Hox; by left). destruct (Hk t Hto) as [p Ht].
  pose proof (Hs t p Ht) as Hsp. rewrite decide_True in Hsp by done. unfold invoke. rewrite Ht, Hsp. eexists. split; [done|].
  split; cbn [tasks pool submitting returning]; try done.
  - intros t' p' [[<- <-]|[Hne Ht']]%lookup_insert_Some; cbn.
    + by rewrite decide_False.
    + rewrite (Hs _ _ Ht'). apply decide_ext. rewrite Hox, elem_of_cons. unfold open_tasks. cbn. split; [intros [->|?]; done|by right].
  - intros t' Ht'. apply lookup_insert_is_Some'. right. apply Hk. rewrite Hox. by right.
  - intros t' p' [[<- <-]|[Hne Ht']]%lookup_insert_Some; cbn [retrieved]; by apply Hr.
  - intros t' Ht'. apply lookup_insert_is_Some'. right. by apply Hre.
Qed.

(** A caller retrieves its future. *)
Lemma future_inv t l r x :
  Inv x -> returning x = l ++ t :: r ->
  exists m, get_future t (tasks x) = Ok m /\ Inv (mk m (pool x) (submitting x) (l ++ r) (invoking x)).
Proof.
  intros [Hp Ho Hs Hk Hf Hr Hre] Hi.
  assert (submitting x ++ returning x ≡ₚ t :: submitting x ++ l ++ r) as Hfx by (rewrite Hi; solve_Permutation).
  pose proof Hf as Hf'. rewrite Hfx in Hf'. apply NoDup_cons in Hf' as [Hnt Hnd].
  destruct (Hre t) as [p Ht]; [rewrite Hi; apply elem_of_app; right; by left|].
  pose proof (Hr t p Ht) as Hrp. rewrite bool_decide_eq_false_2 in Hrp by (rewrite Hfx; intros Hn; apply Hn; by left).
  unfold get_future. rewrite Ht, Hrp. eexists. split; [done|]. split; cbn [tasks pool submitting returning]; try done.
  - intros t' p' [[<- <-]|[Hne Ht']]%lookup_insert_Some; cbn [shared func]; by apply Hs.
  - intros t' Ht'. apply lookup_insert_is_Some'. right. by apply Hk.
  - intros t' p' [[<- <-]|[Hne Ht']]%lookup_insert_Some; cbn.
    + by rewrite bool_decide_eq_true_2.
    + rewrite (Hr _ _ Ht'). apply bool_decide_ext. rewrite Hfx, not_elem_of_cons. split; [by intros [_ ?]|by split].
  - intros t' Ht'. apply lookup_insert_is_Some'. right. apply Hre. rewrite Hi. cbn in Ht'.
    apply elem_of_app in Ht' as [?|?]; apply elem_of_app; [by left|right; by right].
Qed.

Lemma own_step_inv x y : Inv x -> own_step x y -> Inv y.
Proof.
  intros Hx Hstep. pose proof (inv_pool _ Hx) as Hok.
  destruct Hstep as [t l r e x Hs He|t l r m x Hs Hm|t e x He|t l r m x Hi Hm|t e x He _|e x He].
  - destruct (ex_submit_law _ _ _ Hok He) as (? & Hp & _). apply inv_places; [done..| |].
    + unfold open_tasks. rewrite Hp, Hs. solve_Permutation.
    + rewrite Hs. solve_Permutation.
  - destruct (future_inv t l r x Hx Hs) as (m' & Hm' & Hy). rewrite Hm' in Hm. by injection Hm as <-.
  - destruct (ex_start_law _ _ _ Hok He) as (? & Hp & _). apply inv_places; [done..| |done].
    unfold open_tasks. rewrite Hp. solve_Permutation.
  - destruct (invoke_inv t l r x Hx Hi) as (m' & Hm' & Hy). rewrite Hm' in Hm. by injection Hm as <-.
  - destruct (ex_finish_law _ _ _ Hok He) as (? & Hp & _). apply inv_places; [done..| |done]. unfold open_tasks. by rewrite Hp.
  - destruct (ex_silent_law _ _ Hok He) as (? & Hp & _). apply inv_places; [done..| |done]. unfold open_tasks. by rewrite Hp.
Qed.

Lemma futures_inv x : reachable x -> Inv x.
Proof.
  intros (e & He & Hp & Hs). refine (rtc_ind_r (R := step) Inv (start e) _ _ x Hs); [by apply start_futures_inv|].
  intros y z _ [t f y' Ht|y' z' Hown] Hy; [by apply add_future_inv|by eapply own_step_inv].
Qed.

(** A step of the pool while no closure is about to call its task. *)
Lemma pool_steps x :
  invoking x = [] ->
  (exists t e, ex_start t (pool x) e) \/ (exists t e, ex_finish t (pool x) e) \/ (exists e, ex_silent (pool x) e) ->
  exists y, own_step x y.
Proof.
  intros Hi [(t & e & He)|[(t & e & He)|[e He]]]; eexists; [by eapply step_start|eapply step_return|by eapply step_silent]; [done|].
  rewrite Hi. apply submseteq_nil_l.
Qed.

(** What the invariant gives. *)
Lemma inv_deliver x :
  Inv x ->
  (forall t, t ∈ invoking x -> exists m, invoke t (tasks x) = Ok m) /\
  (forall t, t ∈ returning x -> exists m, get_future t (tasks x) = Ok m) /\
  (forall t p, tasks x !! t = Some p -> shared p = if decide (t ∈ open_tasks x) then None else Some (func p)) /\
  (ex_runs (pool x) -> open_tasks x ++ returning x <> [] -> exists y, own_step x y).
Proof.
  intros Hx. split_and!.
  - intros t (l & r & Hl)%list_elem_of_split. destruct (invoke_inv t l r x Hx Hl) as (m & Hm & _). by exists m.
  - intros t (l & r & Hl)%list_elem_of_split. destruct (future_inv t l r x Hx Hl) as (m & Hm & _). by exists m.
  - apply Hx.
  - intros Hruns Hne. destruct (invoking x) as [|t r] eqn:Hi.
    2:{ destruct (invoke_inv t [] r x Hx Hi) as (m & Hm & _). eexists. by eapply (step_invoke t []). }
    destruct (returning x) as [|t r] eqn:Hre.
    2:{ destruct (future_inv t [] r x Hx Hre) as (m & Hm & _). eexists. by eapply (step_future t []). }
    unfold open_tasks in Hne. rewrite Hi, !app_nil_r in Hne. destruct (submitting x) as [|t r] eqn:Hs.
    + apply pool_steps; [done|]. by apply ex_progress; [apply Hx| |].
    + destruct (ex_accept t (pool x) (inv_pool _ Hx)) as [[e He]|He]; [|by apply pool_steps].
      eexists. by eapply (step_submit t []).
Qed.

(** The closures about to call their task are among those the pool runs. *)
Lemma reachable_invoking x : reachable x -> invoking x ⊆+ ex_active (pool x).
Proof.
  intros (e0 & He0 & Hp0 & Hs).
  assert (Inv x /\ invoking x ⊆+ ex_active (pool x)) as [_ H]; [|done].
  refine (rtc_ind_r (R := step) (fun x => Inv x /\ invoking x ⊆+ ex_active (pool x)) (start e0) _ _ x Hs).
  { split; [by apply start_futures_inv|apply submseteq_nil_l]. }
  intros y z _ Hstep [Hy Ha]. destruct Hstep as [t f y' Ht|y' z' Hown]; [split; [by apply add_future_inv|done]|].
  split; [by eapply own_step_inv|]. pose proof (inv_pool _ Hy) as Hok.
  destruct Hown as [t l r e y Hsu He|t l r m y Hre Hm|t e y He|t l r m y Hi Hm|t e y He Hsub|e y He]; cbn [invoking pool]; try done.
  - destruct (ex_submit_law _ _ _ Hok He) as (_ & _ & Hp). by rewrite Hp.
  - destruct (ex_start_law _ _ _ Hok He) as (_ & _ & Hp). rewrite Hp, Permutation_app_comm. cbn. by apply submseteq_skip.
  - rewrite Hi in Ha. etrans; [|exact Ha]. apply submseteq_app; [done|]. by apply submseteq_cons.
  - destruct (ex_silent_law _ _ Hok He) as (_ & _ & Hp). by rewrite Hp.
Qed.

(** C30: a future holds the result of its function.  In every reachable state, a
    closure that is about to call its task can do so without an exception, so that
    no exception of a task reaches the worker; [addTask] can retrieve its future;
    and the future of a task has what the function ended with, exactly when the
    closure is not with a caller, in the pool's queue or about to make the call.
    While such a closure or caller is left and the pool runs, the system can make a
    step of its own. *)
Theorem futures_deliver x :
  reachable x ->
  (forall t, t ∈ invoking x -> exists m, invoke t (tasks x) = Ok m) /\
  (forall t, t ∈ returning x -> exists m, get_future t (tasks x) = Ok m) /\
  (forall t p, tasks x !! t = Some p -> shared p = if decide (t ∈ open_tasks x) then None else Some (func p)) /\
  (ex_runs (pool x) -> open_tasks x ++ returning x <> [] -> exists y, own_step x y).
Proof. intros Hx%futures_inv. by apply inv_deliver. Qed.

End futures.

(** A function that returns 7, called by a worker. *)
Definition sample_futures : system (T := nat) (E := queue nat) :=
  mk {[0 := mkTask (inl 7) None false]} (mkQueue [] [0]) [] [0] [0].

Lemma sample_futures_reachable : reachable sample_futures.
Proof.
  exists (mkQueue [] []). split_and!; [done..|].
  eapply rtc_l; [by apply (step_add 0 (inl 7))|].
  eapply rtc_l; [apply step_own; by eapply (step_submit 0 [])|].
  eapply rtc_l; [apply step_own; eapply (step_start 0); by exists []|]. cbn. apply rtc_refl.
Qed.

Lemma futures_deliver_witness :
  (exists m, invoke 0 (tasks sample_futures) = Ok m) /\ exists y, own_step sample_futures y.
Proof.
  destruct (futures_deliver sample_futures sample_futures_reachable) as (H1 & _ & _ & H2).
  split; [apply H1; by left|by apply H2].
Defined.

End Futures.
