(* ===== verification/StrandFutures.v ===== *)
(** * Futures of a strand

    Models [Strand::addTask] of src/include/net/Strand.hpp as a whole: the function is
    wrapped in a packaged task, the closure that calls it goes through the strand, and
    its future is returned.  A strand is itself an executor: it accepts tasks,
    starts each once and they end once ([strand_executor]).  So what Futures.v proves of
    [ThreadPool::addTask] holds of [Strand::addTask] as well, over any executor the
    strand runs on.

    The theorem: futures of a strand get the results of their functions, which are
    called one at a time. *)

From S2P Require Import Prelude ThreadPool Executor Strand Futures.

Module StrandFutures.
Import Strand.

Section strand_executor.
Context {task E : Type} `{!Executor E (closure task)}.

Abbreviation system := (strand (task := task) * E)%type.

(** [makeStrand(executor)] *)
Definition makeStrand (e : E) : system := (new, e).

(** The tasks of the strand that have not been started. *)
Definition pending (x : system) : list task := queue_ x.1 ++ submitting x.1 ++ waiting x.2.

(** The queue part of [addTask]: with the test of [running_], in the critical section. *)
Definition submit (t : task) (x y : system) : Prop := y = (addTask t x.1, x.2).

(** A worker begins, or ends, [next()] in a closure of the strand. *)
Definition start (t : task) (x y : system) : Prop :=
  exists e, ex_start (StrandTask t) x.2 e /\ y = (set_in_next (in_next x.1 ++ [t]) x.1, e).
Definition finish (t : task) (x y : system) : Prop :=
  exists l r, in_next x.1 = l ++ t :: r /\ y = (end_next t (l ++ r) x.1, x.2).

(** The other steps: [scheduleNext], giving a task to the executor, what the executor
    does besides, and closures of others. *)
Inductive silent : system -> system -> Prop :=
| silent_schedule s s' e : scheduleNext s = Some s' -> silent (s, e) (s', e)
| silent_submit t l r s e e' :
    submitting s = l ++ t :: r -> ex_submit (StrandTask t) e e' -> silent (s, e) (set_submitting (l ++ r) s, e')
| silent_start n s e e' : ex_start (Other n) e e' -> silent (s, e) (s, e')
| silent_return c s e e' :
    ex_finish c e e' -> StrandTask <$> in_next s ⊆+ ex_active e' -> silent (s, e) (s, e')
| silent_return_other n s e e' : ex_finish (Other n) e e' -> silent (s, e) (s, e')
| silent_executor s e e' : ex_silent e e' -> silent (s, e) (s, e')
| silent_other n s e e' : ex_submit (Other n) e e' -> silent (s, e) (s, e').

Lemma silent_step x y : silent x y -> step x y.
Proof.
  intros H. destruct H as [s s' e Hs|t l r s e e' Hs He|n s e e' He|[t|n] s e e' He Ha|n s e e' He|s e e' He|n s e e' He].
  - right. by apply step_schedule.
  - right. by eapply step_submit.
  - right. by eapply step_start_other.
  - right. by eapply step_return.
  - right. by eapply step_return_other.
  - right. by eapply step_return_other.
  - right. by apply step_silent.
  - left. by eapply env_submit.
Qed.

Lemma executor_waiting e e' (He : ex_pending e' ≡ₚ ex_pending e) : waiting e' ≡ₚ waiting (E := E) e.
Proof. by apply omap_perm. Qed.

(** What a silent step keeps. *)
Lemma silent_keeps x y : Strand.Inv x -> silent x y -> pending y ≡ₚ pending x /\ in_next y.1 = in_next x.1.
Proof.
  intros Hinv H. pose proof (inv_executor _ Hinv) as Hok. unfold pending.
  destruct H as [s s' e Hs|t l r s e e' Hs He|n s e e' He|c s e e' He Ha|n s e e' He|s e e' He|n s e e' He]; cbn [fst snd] in *.
  - unfold scheduleNext in Hs. destruct (schedulers s); [done|].
    destruct (queue_ s) as [|t q]; injection Hs as <-; cbn; (split; [|done]); [done|]. solve_Permutation.
  - cbn. destruct (ex_submit_law _ _ _ Hok He) as (_ & Hp & _). apply omap_perm in Hp. cbn in Hp.
    fold (waiting e') in Hp. fold (waiting e) in Hp. split; [|done]. rewrite Hp, Hs. solve_Permutation.
  - destruct (ex_start_law _ _ _ Hok He) as (_ & Hp & _). apply omap_perm in Hp. cbn in Hp.
    fold (waiting e') in Hp. fold (waiting e) in Hp. by rewrite Hp.
  - destruct (ex_finish_law _ _ _ Hok He) as (_ & Hp & _). by rewrite (executor_waiting _ _ Hp).
  - destruct (ex_finish_law _ _ _ Hok He) as (_ & Hp & _). by rewrite (executor_waiting _ _ Hp).
  - destruct (ex_silent_law _ _ Hok He) as (_ & Hp & _). by rewrite (executor_waiting _ _ Hp).
  - destruct (ex_submit_law _ _ _ Hok He) as (_ & Hp & _). apply omap_perm in Hp. cbn in Hp.
    fold (waiting e') in Hp. fold (waiting e) in Hp. by rewrite Hp.
Qed.

(** A step of the strand or its executor, as a step of an executor. *)
Lemma own_step_kinds x y :
  own_step x y -> (exists t z, start t x z) \/ (exists t z, finish t x z) \/ (exists z, silent x z).
Proof.
  intros H. destruct H as [s s' e Hs|t l r s e e' Hs He|t s e e' He|n s e e' He|t l r s e Hi|t s e e' He Ha|n s e e' He|s e e' He].
  - right; right. eexists. by apply silent_schedule.
  - right; right. eexists. by eapply silent_submit.
  - left. exists t. eexists. by exists e'.
  - right; right. eexists. by eapply silent_start.
  - right; left. exists t. eexists. by exists l, r.
  - right; right. eexists. by eapply silent_return.
  - right; right. eexists. by eapply silent_return_other.
  - right; right. eexists. by apply silent_executor.
Qed.

Lemma pending_progress x :
  Strand.Inv x -> ex_runs x.2 -> pending x <> [] ->
  (exists t z, start t x z) \/ (exists t z, finish t x z) \/ (exists z, silent x z).
Proof.
  destruct x as [s e]. intros Hinv Hr Hp. destruct (inv_progress s e Hinv Hr) as [y Hy]; [|by eapply own_step_kinds].
  intros Heq. apply Hp. pose proof (inv_order _ Hinv) as Ho. cbn in Ho. rewrite Heq in Ho. unfold pending. cbn.
  apply (f_equal length) in Ho. rewrite !length_app in Ho. apply nil_length_inv. rewrite !length_app. lia.
Qed.

Lemma submit_law t x y :
  Strand.Inv x -> submit t x y -> Strand.Inv y /\ pending y ≡ₚ t :: pending x /\ in_next y.1 ≡ₚ in_next x.1.
Proof.
  destruct x as [s e]. intros Hinv ->. split; [by apply add_inv|]. unfold pending. cbn. split; [solve_Permutation|done].
Qed.

Lemma start_law t x y :
  Strand.Inv x -> start t x y -> Strand.Inv y /\ pending x ≡ₚ t :: pending y /\ in_next y.1 ≡ₚ t :: in_next x.1.
Proof.
  destruct x as [s e]. intros Hinv (e' & He & ->). pose proof (inv_executor _ Hinv) as Hok. cbn in He.
  split; [by apply start_task_inv with (e := e)|]. destruct (ex_start_law _ _ _ Hok He) as (_ & Hp & _).
  apply omap_perm in Hp. cbn in Hp. fold (waiting e') in Hp. fold (waiting e) in Hp. unfold pending. cbn.
  split; [rewrite Hp; solve_Permutation|solve_Permutation].
Qed.

Lemma finish_law t x y :
  Strand.Inv x -> finish t x y -> Strand.Inv y /\ pending y ≡ₚ pending x /\ in_next x.1 ≡ₚ t :: in_next y.1.
Proof.
  destruct x as [s e]. intros Hinv (l & r & Hi & ->). cbn in Hi. split; [by apply next_inv|]. unfold pending. cbn.
  split; [done|rewrite Hi; solve_Permutation].
Qed.

Lemma silent_law x y :
  Strand.Inv x -> silent x y -> Strand.Inv y /\ pending y ≡ₚ pending x /\ in_next y.1 ≡ₚ in_next x.1.
Proof.
  intros Hinv Hs. destruct (silent_keeps _ _ Hinv Hs) as [Hp Ha]. split; [|by rewrite Hp, Ha].
  by eapply step_inv; [|apply silent_step].
Qed.

Lemma accept_law t x :
  Strand.Inv x -> (exists y, submit t x y) \/
  (exists t y, start t x y) \/ (exists t y, finish t x y) \/ (exists y, silent x y).
Proof. left. by eexists. Qed.

#[global] Instance strand_executor : Executor system task := {|
  ex_ok := Strand.Inv;
  ex_runs x := ex_runs x.2;
  ex_pending := pending;
  ex_active x := in_next x.1;
  ex_submit := submit;
  ex_start := start;
  ex_finish := finish;
  ex_silent := silent;
  ex_submit_law := submit_law;
  ex_start_law := start_law;
  ex_finish_law := finish_law;
  ex_silent_law := silent_law;
  ex_accept := accept_law;
  ex_progress := pending_progress
|}.

End strand_executor.

(** ** Futures *)

Section futures.
Context {T E : Type} `{!Executor E (closure nat)}.

(** Callers of [Strand::addTask], the packaged tasks, and the strand on its executor. *)
Abbreviation fsystem := (Futures.system (T := T) (E := strand (task := nat) * E)).

(** The states a program reaches that begins with [makeStrand] on an executor. *)
Definition reachable (x : fsystem) : Prop :=
  exists e, ex_ok e /\ waiting e = [] /\ rtc Futures.step (Futures.start (makeStrand e)) x.

Lemma makeStrand_inv e : ex_ok e -> waiting e = [] -> Strand.Inv (makeStrand e).
Proof. intros Hok Hw. split; cbn; rewrite ?Hw; done. Qed.

Lemma reachable_futures x : reachable x -> Futures.reachable x.
Proof.
  intros (e & Hok & Hw & Hs). exists (makeStrand e). split; [by apply makeStrand_inv|]. split; [|done]. cbn. unfold pending. cbn. by rewrite Hw.
Qed.

(** Every task is added once. *)
Record Once (x : fsystem) : Prop := {
  once_nodup : NoDup (Futures.submitting x ++ added (Futures.pool x).1);
  once_known : forall t, t ∈ Futures.submitting x ++ added (Futures.pool x).1 -> is_Some (Futures.tasks x !! t)
}.

(** Steps that change neither list, up to the order. *)
Lemma once_keeps x y :
  Once x -> Futures.submitting y ++ added (Futures.pool y).1 ≡ₚ Futures.submitting x ++ added (Futures.pool x).1 ->
  (forall t, is_Some (Futures.tasks x !! t) -> is_Some (Futures.tasks y !! t)) -> Once y.
Proof. intros [H1 H2] Hp Hk. split; [by rewrite Hp|]. intros t. rewrite Hp. auto. Qed.

Lemma silent_added x y : silent (E := E) x y -> added y.1 = added x.1.
Proof.
  destruct 1 as [s s' e Hs| | | | | |]; try done. cbn. unfold scheduleNext in Hs.
  destruct (schedulers s); [done|]. destruct (queue_ s); by injection Hs as <-.
Qed.

Lemma step_once x y : Once x -> Futures.step x y -> Once y.
Proof.
  intros Hx Hstep. pose proof Hx as [H1 H2]. destruct Hstep as [t f x Ht|x y Hown].
  - split; cbn.
    + assert ((Futures.submitting x ++ [t]) ++ added (Futures.pool x).1 ≡ₚ t :: Futures.submitting x ++ added (Futures.pool x).1) as ->
        by solve_Permutation.
      constructor; [|done]. intros [? ?]%H2. congruence.
    + intros t' Hin. apply lookup_insert_is_Some'. rewrite <- app_assoc in Hin. cbn in Hin. rewrite elem_of_app, elem_of_cons in Hin.
      destruct Hin as [?|[->|?]]; [right; apply H2, elem_of_app; by left|by left|right; apply H2, elem_of_app; by right].
  - destruct Hown as [t l r e x Hs He|t l r m x Hs Hm|t e x He|t l r m x Hi Hm|t e x He Ha|e x He];
      apply (once_keeps x _ Hx); try done; cbn.
    + cbn in He. rewrite He. cbn. rewrite Hs. solve_Permutation.
    + unfold Futures.get_future in Hm. repeat case_match; try done. injection Hm as <-. intros t' ?. by apply lookup_insert_is_Some'; right.
    + cbn in He. destruct He as (e' & _ & ->). done.
    + unfold Futures.invoke in Hm. repeat case_match; try done. injection Hm as <-. intros t' ?. by apply lookup_insert_is_Some'; right.
    + cbn in He. destruct He as (l & r & _ & ->). done.
    + by rewrite (silent_added _ _ He).
Qed.

Lemma reachable_once x : reachable x -> Once x.
Proof.
  intros (e & Hok & Hw & Hs). refine (rtc_ind_r (R := Futures.step) Once _ _ _ x Hs); [|intros ? ? _ ? ?; by eapply step_once].
  split; cbn; [constructor|by intros t ?%elem_of_nil].
Qed.

Lemma split_unique (l1 l2 r1 r2 : list nat) x :
  x ∉ l1 -> x ∉ l2 -> l1 ++ x :: r1 = l2 ++ x :: r2 -> l1 = l2.
Proof.
  revert l2. induction l1 as [|y l1 IH]; intros [|z l2]; cbn; intros H1 H2 H; [done| | |].
  - injection H as -> _. by destruct H2; left.
  - injection H as -> _. by destruct H1; left.
  - injection H as -> H. f_equal. apply not_elem_of_cons in H1 as [_ H1]. apply not_elem_of_cons in H2 as [_ H2]. by apply IH.
Qed.

(** The tasks that were added before one that has been started have all ended. *)
Lemma before_started x l t r :
  Strand.Inv x -> NoDup (added x.1) -> added x.1 = l ++ t :: r -> t ∉ pending (E := E) x -> forall t', t' ∈ l -> t' ∈ completed x.1.
Proof.
  intros Hinv Hnd Hl Hp t' Ht'. pose proof (inv_order _ Hinv) as Ho. unfold pending in Hp.
  assert (length (in_next x.1) <= 1) as Hlen by (pose proof (inv_token _ Hinv); destruct (running_ x.1); lia).
  assert (t ∈ completed x.1 ++ in_next x.1) as Hin.
  { assert (t ∈ added x.1) as H by (rewrite Hl; apply elem_of_app; right; by left). rewrite Ho in H.
    rewrite !elem_of_app in *. tauto. }
  assert (exists c1 c2, completed x.1 ++ in_next x.1 = c1 ++ t :: c2 /\ c1 ⊆ completed x.1) as (c1 & c2 & Hc & Hsub).
  { apply elem_of_app in Hin as [Hin|Hin].
    - apply list_elem_of_split in Hin as (c1 & c2 & ->). exists c1, (c2 ++ in_next x.1). split; [by rewrite <- app_assoc|].
      intros y Hy. apply elem_of_app. by left.
    - destruct (in_next x.1) as [|y [|]]; [by apply not_elem_of_nil in Hin| |cbn in Hlen; lia].
      apply list_elem_of_singleton in Hin as ->. exists (completed x.1), []. done. }
  apply Hsub. rewrite Ho, app_assoc, Hc, <- app_assoc in Hl. cbn in Hl.
  rewrite Ho, app_assoc, Hc, <- app_assoc in Hnd. cbn in Hnd.
  assert (c1 = l) as ->; [|done]. eapply split_unique; [| |exact Hl].
  - apply NoDup_app in Hnd as (_ & Hd & _). intros H. apply (Hd t H). by left.
  - rewrite Hl in Hnd. apply NoDup_app in Hnd as (_ & Hd & _). intros H. apply (Hd t H). by left.
Qed.

(** C19: the futures of a strand.  Over any executor, in every state a program reaches
    that adds functions to a strand: at most one closure is about to call its
    function; the call does not throw, so no exception reaches the worker, and
    [addTask] can retrieve its future; a function that was added before one whose
    result is there has its result too, the value or exception it ended with; and
    while a function has not been called and the executor runs, a step can be made. *)
Theorem strand_futures_deliver x :
  reachable x ->
  length (Futures.invoking x) <= 1 /\
  (forall t, t ∈ Futures.invoking x -> exists m, Futures.invoke t (Futures.tasks x) = Ok m) /\
  (forall t, t ∈ Futures.returning x -> exists m, Futures.get_future t (Futures.tasks x) = Ok m) /\
  (forall l t r p t' p', added (Futures.pool x).1 = l ++ t :: r -> t' ∈ l ->
     Futures.tasks x !! t = Some p -> Futures.shared p <> None ->
     Futures.tasks x !! t' = Some p' -> Futures.shared p' = Some (Futures.func p')) /\
  (ex_runs (Futures.pool x) -> Futures.open_tasks x ++ Futures.returning x <> [] -> exists y, Futures.own_step x y).
Proof.
  intros Hx. pose proof (reachable_once _ Hx) as [Hnd _]. pose proof (reachable_futures _ Hx) as Hf.
  pose proof (Futures.futures_inv _ Hf) as Hinv. pose proof (Futures.inv_pool _ Hinv) as Hst. cbn in Hst.
  pose proof (Futures.reachable_invoking _ Hf) as Hact. cbn in Hact.
  destruct (Futures.inv_deliver _ Hinv) as (H1 & H2 & H3 & H4). split; [|split; [done|split; [done|split; [|done]]]].
  - apply submseteq_length in Hact. pose proof (inv_token _ Hst). destruct (running_ _); lia.
  - intros l t r p t' p' Hadd Ht' Hp Hsh Hp'. rewrite (H3 _ _ Hp'), decide_False; [done|]. rewrite (H3 _ _ Hp) in Hsh.
    case_decide as Hopen; [done|]. apply NoDup_app in Hnd as (_ & Hdis & Hnd).
    assert (t' ∈ completed (Futures.pool x).1) as Hc.
    { apply (before_started (Futures.pool x) l t r); try done. intros Hpen. apply Hopen. unfold Futures.open_tasks.
      rewrite !elem_of_app. right. by left. }
    rewrite (inv_order _ Hst) in Hnd, Hdis. apply NoDup_app in Hnd as (_ & Hnc & _). specialize (Hnc t' Hc).
    unfold Futures.open_tasks. cbn [ex_pending strand_executor]. unfold pending. rewrite !elem_of_app in *.
    intros [Hs|[Hs|Hs]]; [apply (Hdis t' Hs); rewrite elem_of_app; by left|tauto|].
    apply Hnc. left. by eapply elem_of_submseteq.
Qed.

End futures.

(** A function is added to a strand on a queue, and a worker has started its closure. *)
Definition sample_strand : Futures.system (T := nat) (E := strand (task := nat) * queue (closure nat)) :=
  Futures.mk (Futures.package 0 (inl 7) ∅) (mk [] true 0 [] [0] [0] [], mkQueue [] [StrandTask 0]) [] [0] [0].

Lemma sample_strand_reachable : reachable sample_strand.
Proof.
  exists (mkQueue [] []). split; [done|]. split; [done|].
  eapply rtc_l; [apply (Futures.step_add 0 (inl 7)); apply lookup_empty|].
  eapply rtc_l; [apply Futures.step_own; by eapply (Futures.step_submit 0 [])|].
  eapply rtc_l; [apply Futures.step_own; apply Futures.step_silent; by apply silent_schedule|].
  eapply rtc_l; [apply Futures.step_own; apply Futures.step_silent; by eapply (silent_submit 0 [] [])|].
  eapply rtc_l; [apply Futures.step_own; apply (Futures.step_start 0); eexists; split; [by exists []|done]|]. apply rtc_refl.
Qed.

Lemma strand_futures_deliver_witness :
  length (Futures.invoking sample_strand) <= 1 /\ (exists m, Futures.invoke 0 (Futures.tasks sample_strand) = Ok m) /\
  exists y, Futures.own_step sample_strand y.
Proof.
  destruct (strand_futures_deliver sample_strand sample_strand_reachable) as (H1 & H2 & _ & _ & H3).
  split; [done|]. split; [apply H2; by left|by apply H3].
Defined.

End StrandFutures.
