(* ===== verification/Format.v ===== *)
(** * Formatting

    Models src/include/log/format.hpp: the formatters of the argument types, the
    argument list and [vformat], which replaces the placeholders of a format
    string.  The output stream is kept with the flags the code sets on it: the
    floating-point notation and the precision stay as the last placeholder left
    them, the base and the case are reset by the formatter that sets them.  What
    the standard library does ([operator<<] at the flags used, [std::stoi],
    [std::stoul]) is written out.

    The theorems: formatting always returns or throws a [format_error]; what it
    produces for a format string given as its pieces; when it succeeds; that
    escaped text comes out as it is; that flags leak between placeholders; and that
    the objects made for the arguments are deleted again. *)

From S2P Require Import Prelude StdString Double.
Import StdString.
#[local] Open Scope Z_scope.

Module Format.

Definition format_error {A} (msg : str) : outcome A := Throw (FormatError msg).

(** ** The stream *)

Inductive float_mode : Type := DefaultFloat | Fixed | Scientific.

Record ostream : Type := mkStream { text : str; mode : float_mode; precision : Z }.

Definition new_stream : ostream := mkStream [] DefaultFloat 6.

Definition put (s : str) (os : ostream) : ostream := mkStream (text os ++ s) (mode os) (precision os).
Definition set_mode (m : float_mode) (os : ostream) : ostream := mkStream (text os) m (precision os).
Definition set_precision (p : Z) (os : ostream) : ostream := mkStream (text os) (mode os) p.

(** [toupper] on the characters a number is printed with. *)
Definition upcase (s : str) : str :=
  (fun c => let n := nat_of_ascii c in
            if (97 <=? n)%nat && (n <=? 122)%nat then ascii_of_nat (n - 32) else c) <$> s.

(** [%.pf] and [%.pe] of [num / den > 0]; [general] of Double.v is [%.pg]. *)
Definition fixed_digits (p num den : Z) : str :=
  let q := Double.scaled num den p in
  Double.digits (q `div` 10 ^ p) ++
  Double.with_point (if p =? 0 then [] else Double.digits_padded (Z.to_nat p) (q `mod` 10 ^ p)).

Definition scientific_digits (p num den : Z) : str :=
  let '(q, x) := Double.significant (p + 1) num den in
  Double.digits (q `div` 10 ^ p) ++
  Double.with_point (if p =? 0 then [] else Double.digits_padded (Z.to_nat p) (q `mod` 10 ^ p)) ++
  Double.print_exponent x.

(** The text of a [double] at the stream's notation; a negative precision counts
    as six, and [%g] takes a precision of zero as one. *)
Definition double_text (m : float_mode) (p : Z) (d : Double.t) : str :=
  let p := if p <? 0 then 6 else p in
  match d with
  | S754_infinity s => Double.sign_str s ++ lit "inf"
  | S754_nan => lit "nan"
  | S754_zero s =>
      Double.sign_str s ++
      match m with
      | DefaultFloat => lit "0"
      | Fixed => lit "0" ++ Double.with_point (replicate (Z.to_nat p) "0"%char)
      | Scientific => lit "0" ++ Double.with_point (replicate (Z.to_nat p) "0"%char) ++ lit "e+00"
      end
  | S754_finite s mant e =>
      let num := Double.numerator mant e in
      let den := Double.denominator e in
      Double.sign_str s ++
      match m with
      | DefaultFloat => Double.general (if p =? 0 then 1 else p) num den
      | Fixed => fixed_digits p num den
      | Scientific => scientific_digits p num den
      end
  end.

(** [os << d], without and with [std::uppercase]. *)
Definition put_double (d : Double.t) (os : ostream) : ostream := put (double_text (mode os) (precision os) d) os.
Definition put_double_upper (d : Double.t) (os : ostream) : ostream :=
  put (upcase (double_text (mode os) (precision os) d)) os.

(** The digits of [n >= 0] in a base up to sixteen. *)
Definition base_digit (n : Z) : ascii :=
  if n <? 10 then Double.digit n else ascii_of_nat (87 + Z.to_nat n).

Fixpoint base_digits (fuel : nat) (b n : Z) : str :=
  match fuel with
  | O => []
  | S fuel => (if n <? b then [] else base_digits fuel b (n `div` b)) ++ [base_digit (n `mod` b)]
  end.

(** [os << n] with [std::hex] or [std::oct]: the bits of the value at the width of
    its type, read as an unsigned number. *)
Definition print_base (b bits v : Z) : str := base_digits (Z.to_nat bits) b (v `mod` 2 ^ bits).

(** ** Reading numbers *)

(** What [strtol] and [strtoul] read: white space, a sign and digits; [None] when
    there is no digit. *)
Definition read_integer (s : str) : option (bool * Z) :=
  let s := skip_space s in
  let '(neg, s) := match Double.eat "-" s, Double.eat "+" s with
                   | Some s, _ => (true, s)
                   | None, Some s => (false, s)
                   | None, None => (false, s)
                   end in
  let ds := (Double.span_digits s).1 in
  if decide (ds = []) then None else Some (neg, Double.digits_value ds).

Definition stoi (s : str) : outcome Z :=
  match read_integer s with
  | None => Throw (InvalidArgument (lit "stoi"))
  | Some (neg, n) =>
      let v := if neg then - n else n in
      if (- 2 ^ 31 <=? v) && (v <? 2 ^ 31) then Ok v else Throw OutOfRange
  end.

(** A minus sign negates modulo 2^64. *)
Definition stoul (s : str) : outcome Z :=
  match read_integer s with
  | None => Throw (InvalidArgument (lit "stoul"))
  | Some (neg, n) => if n <? 2 ^ 64 then Ok (if neg then u64 (- n) else n) else Throw OutOfRange
  end.

(** ** Arguments *)

(** The kinds of argument [format_arg<T>] accepts: integers of some width, the
    character types (which a stream prints as characters), floating point,
    strings, pointers and [bool]. *)
Inductive arg : Type :=
| Int (bits v : Z)
| Char (c : ascii)
| Float (d : Double.t)
| Str (s : str)
| Ptr (address : Z)
| Bool (b : bool).

(** The loop that prints the bits of an integer, from bit [n - 1] down. *)
Fixpoint put_bits (n : nat) (v : Z) (os : ostream) : ostream :=
  match n with
  | O => os
  | S n => put_bits n v (put (if Z.testbit v (Z.of_nat n) then lit "1" else lit "0") os)
  end.

(** [format_impl] for integers: the texts [os << value] gives in each base, with
    and without [std::uppercase]. *)
Definition format_integral (dec hex HEX oct : str) (bits v : Z) (spec : str) (os : ostream) : ostream :=
  match spec with
  | [] => put dec os
  | c :: _ =>
      if decide (c = "x"%char) then put hex os
      else if decide (c = "X"%char) then put HEX os
      else if decide (c = "o"%char) then put oct os
      else if decide (c = "b"%char) then put_bits (Z.to_nat bits) v (put (lit "0b") os)
      else put dec os
  end.

(** [format_impl] for floating point. *)
Definition format_floating (d : Double.t) (spec : str) (os : ostream) : ostream :=
  match spec with
  | [] => put_double d os
  | c :: rest =>
      if decide (spec = lit "f" \/ spec = lit "F") then put_double d (set_mode Fixed os)
      else if decide (spec = lit "e") then put_double d (set_mode Scientific os)
      else if decide (spec = lit "E") then put_double_upper d (set_mode Scientific os)
      else if decide (spec = lit "g") then put_double d (set_mode DefaultFloat os)
      else if decide (spec = lit "G") then put_double_upper d (set_mode DefaultFloat os)
      else if decide (c = "."%char) then
        match stoi rest with
        | Ok p => put_double d (set_precision p (set_mode Fixed os))
        | _ => put_double d os
        end
      else put_double d os
  end.

(** [os << p] for a pointer. *)
Definition print_pointer (address : Z) : str :=
  if address =? 0 then lit "0" else lit "0x" ++ print_base 16 64 address.

Definition bool_text (b : bool) : str := if b then lit "true" else lit "false".

(** [format_arg_base::format] *)
Definition format_arg (a : arg) (spec : str) (os : ostream) : ostream :=
  match a with
  | Int bits v =>
      format_integral (Double.print_int v) (print_base 16 bits v) (upcase (print_base 16 bits v)) (print_base 8 bits v)
        bits v spec os
  | Char c => format_integral [c] [c] [c] [c] 8 (Z.of_nat (nat_of_ascii c)) spec os
  | Float d => format_floating d spec os
  | Str s => put s os
  | Ptr address => put (print_pointer address) os
  | Bool b => if decide (spec = lit "d") then put (if b then lit "1" else lit "0") os else put (bool_text b) os
  end.

(** [format_context::get_arg] *)
Definition get_arg (args : list arg) (index : Z) : outcome arg :=
  if Zlen args <=? index then format_error (lit "Argument index out of range")
  else match args !! Z.to_nat index with Some a => Ok a | None => Undefined end.

(** ** vformat *)

Definition is_brace (c : ascii) : bool := bool_decide (c = "{"%char) || bool_decide (c = "}"%char).

(** [fmt.find_first_of("{}", pos)] *)
Fixpoint find_brace (s : str) : option nat :=
  match s with
  | [] => None
  | c :: s => if is_brace c then Some 0%nat else S <$> find_brace s
  end.

(** A placeholder that is not empty: an index, and what follows a colon. *)
Definition format_manual (args : list arg) (format_spec : str) (os : ostream) : outcome ostream :=
  let colon_pos := find_char ":" format_spec in
  let index_str := match colon_pos with Some i => take i format_spec | None => format_spec end in
  let spec_str := match colon_pos with Some i => drop (S i) format_spec | None => [] end in
  match stoul index_str with
  | Ok index =>
      if Zlen args <=? index then format_error (lit "Argument index out of range: " ++ Double.print_int index)
      else a ← get_arg args index; Ok (format_arg a spec_str os)
  | _ => format_error (lit "Invalid argument index: " ++ index_str)
  end.

(** The loop: the text from [pos] on is [rest]; the result is the number of
    automatic placeholders and the stream. *)
Fixpoint vformat_loop (fuel : nat) (args : list arg) (rest : str) (arg_index : nat) (os : ostream)
    : outcome (nat * ostream) :=
  match fuel with
  | O => OutOfFuel
  | S fuel =>
      match rest with
      | [] => Ok (arg_index, os)
      | _ =>
          match find_brace rest with
          | None => Ok (arg_index, put rest os)
          | Some next_brace =>
              let os := put (take next_brace rest) os in
              let brace := rest !! next_brace in
              let after := drop (S next_brace) rest in
              if decide (brace = Some "}"%char) then
                match Double.eat "}" after with
                | Some after => vformat_loop fuel args after arg_index (put (lit "}") os)
                | None => format_error (lit "Unmatched '}' in format string")
                end
              else
                match Double.eat "{" after with
                | Some after => vformat_loop fuel args after arg_index (put (lit "{") os)
                | None =>
                    match find_char "}" after with
                    | None => format_error (lit "Unmatched '{' in format string")
                    | Some format_end =>
                        let format_spec := take format_end after in
                        let rest := drop (S format_end) after in
                        if decide (format_spec = []) then
                          if (length args <=? arg_index)%nat then format_error (lit "Too few arguments provided")
                          else
                            a ← get_arg args (Z.of_nat arg_index);
                            vformat_loop fuel args rest (S arg_index) (format_arg a [] os)
                        else
                          os ← format_manual args format_spec os;
                          vformat_loop fuel args rest arg_index os
                    end
                end
          end
      end
  end.

(** [vformat(fmt, ctx)]; [format] builds the context from its arguments. *)
Definition vformat (fmt : str) (args : list arg) : outcome str :=
  '(arg_index, os) ← vformat_loop (S (length fmt)) args fmt 0 new_stream;
  if (arg_index <? length args)%nat then format_error (lit "Too many arguments provided")
  else Ok (text os).

(** ** Termination *)

(** A call that returns a value or throws a [format_error]. *)
Definition formats {A} (m : outcome A) : Prop := (exists a, m = Ok a) \/ (exists msg, m = Throw (FormatError msg)).

Lemma get_arg_ok args index : 0 <= index -> index < Zlen args -> exists a, get_arg args index = Ok a.
Proof.
  intros H0 Hi. unfold get_arg. rewrite (proj2 (Z.leb_gt _ _)) by done.
  destruct (lookup_lt_is_Some_2 args (Z.to_nat index)) as [a ->]; [unfold Zlen in Hi; lia|eauto].
Qed.

Lemma digits_value_nonneg ds : Forall (fun c => isdigit c = true) ds -> 0 <= Double.digits_value ds.
Proof.
  unfold Double.digits_value. assert (forall a, 0 <= a -> Forall (fun c => isdigit c = true) ds ->
    0 <= foldl (fun a c => 10 * a + Double.digit_value c) a ds) as H; [|by apply H].
  induction ds as [|c ds IH]; intros a Ha Hd; cbn; [done|]. inversion_clear Hd as [|?? Hc Hds]. apply IH; [|done].
  unfold isdigit in Hc. apply andb_true_iff in Hc as [Hc _]. apply Nat.leb_le in Hc. unfold Double.digit_value. lia.
Qed.

Lemma span_digits_isdigit s : Forall (fun c => isdigit c = true) (Double.span_digits s).1.
Proof.
  induction s as [|c s IH]; cbn; [constructor|]. destruct (isdigit c) eqn:E; [|constructor].
  destruct (Double.span_digits s). cbn in *. by constructor.
Qed.

Lemma stoul_nonneg s index : stoul s = Ok index -> 0 <= index.
Proof.
  unfold stoul, read_integer. destruct (match Double.eat _ _ with Some _ => _ | None => _ end) as [neg r].
  case_decide; [done|]. destruct (_ <? _); [|done]. intros [= <-]. destruct neg; [apply u64_range|].
  apply digits_value_nonneg, span_digits_isdigit.
Qed.

Lemma format_manual_formats args spec os : formats (format_manual args spec os).
Proof.
  unfold format_manual. destruct (stoul _) as [index| | |] eqn:E; [|right; by eexists..].
  destruct (Zlen args <=? index) eqn:Hle; [right; by eexists|]. reflect_bools. apply stoul_nonneg in E.
  destruct (get_arg_ok args index E Hle) as [a ->]. left. by eexists.
Qed.

Lemma find_brace_lt s i : find_brace s = Some i -> (i < length s)%nat.
Proof.
  revert i. induction s as [|c s IH]; cbn; intros i; [done|]. destruct (is_brace c); [intros [= <-]; lia|].
  intros (j & Hj%IH & ->)%fmap_Some. lia.
Qed.

Lemma eat_length c s s' : Double.eat c s = Some s' -> length s = S (length s').
Proof. unfold Double.eat. destruct s; [done|]. case_decide; [|done]. by intros [= <-]. Qed.

Lemma vformat_loop_formats fuel : forall args rest n os,
  (length rest < fuel)%nat -> formats (vformat_loop fuel args rest n os).
Proof.
  induction fuel as [|fuel IH]; intros args rest n os Hlen; [lia|]. cbn [vformat_loop].
  destruct rest as [|c0 rest0]; [left; by eexists|]. set (rest := c0 :: rest0) in *.
  destruct (find_brace rest) as [i|] eqn:Hb; [|left; by eexists]. apply find_brace_lt in Hb. cbv zeta.
  set (after := drop (S i) rest). assert (length after < length rest)%nat as Ha by (unfold after; rewrite length_drop; lia).
  case_decide.
  - destruct (Double.eat "}" after) eqn:E; [|right; by eexists]. apply eat_length in E. apply IH. lia.
  - destruct (Double.eat "{" after) eqn:E; [apply eat_length in E; apply IH; lia|].
    destruct (find_char "}" after) as [e|] eqn:Hf; [|right; by eexists].
    assert (length (drop (S e) after) < fuel)%nat as Hd by (rewrite length_drop; lia).
    case_decide.
    + destruct (length args <=? n)%nat eqn:Hn; [right; by eexists|]. reflect_bools.
      destruct (get_arg_ok args (Z.of_nat n)) as [a ->]; [lia|unfold Zlen; lia|]. by apply IH.
    + destruct (format_manual_formats args (take e after) (put (take i rest) os)) as [[os' ->]|[msg ->]];
        [by apply IH|right; by eexists].
Qed.

Lemma vformat_formats fmt args : formats (vformat fmt args).
Proof.
  unfold vformat. destruct (vformat_loop_formats (S (length fmt)) args fmt 0 new_stream) as [[[n os] ->]|[msg ->]];
    [lia| |right; by eexists].
  run_binds. destruct (n <? length args)%nat; [right|left]; by eexists.
Qed.

(** Formatting always comes to an end, for every format string and every list
    of arguments: it returns a string or throws a [format_error], and never
    reads outside the string or the arguments. *)
Theorem vformat_returns fmt args :
  (exists s, vformat fmt args = Ok s) \/ (exists msg, vformat fmt args = Throw (FormatError msg)).
Proof. apply vformat_formats. Qed.

(** ** Format strings as pieces *)

Inductive piece : Type :=
| Text (s : str)
| OpenBrace
| CloseBrace
| Auto
| Manual (index : str) (spec : option str).

#[global] Instance piece_eq_dec : EqDecision piece.
Proof. solve_decision. Defined.

(** How a piece is written. *)
Definition inner (index : str) (spec : option str) : str :=
  index ++ match spec with Some sp => ":"%char :: sp | None => [] end.

Definition render (p : piece) : str :=
  match p with
  | Text s => s
  | OpenBrace => lit "{{"
  | CloseBrace => lit "}}"
  | Auto => lit "{}"
  | Manual index spec => lit "{" ++ inner index spec ++ lit "}"
  end.

Definition piece_ok (p : piece) : Prop :=
  match p with
  | Text s => Forall (fun c => is_brace c = false) s
  | Manual index spec =>
      (":"%char ∉ index) /\ ("}"%char ∉ inner index spec) /\ inner index spec <> [] /\
      head (inner index spec) <> Some "{"%char
  | _ => True
  end.

(** What a piece stands for: text, or the next or the given argument. *)
Definition eval_piece (args : list arg) (x : nat * ostream) (p : piece) : outcome (nat * ostream) :=
  let '(n, os) := x in
  match p with
  | Text s => Ok (n, put s os)
  | OpenBrace => Ok (n, put (lit "{") os)
  | CloseBrace => Ok (n, put (lit "}") os)
  | Auto =>
      match args !! n with
      | Some a => Ok (S n, format_arg a [] os)
      | None => format_error (lit "Too few arguments provided")
      end
  | Manual index spec =>
      match stoul index with
      | Ok i =>
          match args !! Z.to_nat i with
          | Some a => Ok (n, format_arg a (default [] spec) os)
          | None => format_error (lit "Argument index out of range: " ++ Double.print_int i)
          end
      | _ => format_error (lit "Invalid argument index: " ++ index)
      end
  end.

Fixpoint eval (args : list arg) (x : nat * ostream) (ps : list piece) : outcome (nat * ostream) :=
  match ps with
  | [] => Ok x
  | p :: ps => x ← eval_piece args x p; eval args x ps
  end.

Definition pieces_text (ps : list piece) : str := concat (render <$> ps).

(** ** The loop on the pieces *)

Lemma find_brace_text s r :
  Forall (fun c => is_brace c = false) s -> find_brace (s ++ r) = (fun i => length s + i)%nat <$> find_brace r.
Proof.
  induction 1 as [|c s Hc _ IH]; cbn; [by destruct (find_brace r)|]. rewrite Hc, IH. by destruct (find_brace r).
Qed.

Lemma put_put a b os : put b (put a os) = put (a ++ b) os.
Proof. unfold put. cbn. by rewrite app_assoc. Qed.

Lemma put_nil os : put [] os = os.
Proof. unfold put. rewrite app_nil_r. by destruct os. Qed.

(** Text before the next brace can be printed first. *)
Lemma vformat_loop_text fuel args s r n os :
  Forall (fun c => is_brace c = false) s ->
  vformat_loop (S fuel) args (s ++ r) n os = vformat_loop (S fuel) args r n (put s os).
Proof.
  intros Hs. destruct s as [|c s]; [by rewrite put_nil|]. set (t := c :: s) in *.
  cbn [vformat_loop]. rewrite find_brace_text by done.
  destruct r as [|d r].
  { cbn [find_brace fmap option_fmap option_map]. rewrite app_nil_r. done. }
  assert (t ++ d :: r <> []) as Hne by done. destruct (t ++ d :: r) as [|x y] eqn:E; [done|]. rewrite <- E. clear Hne.
  destruct (find_brace (d :: r)) as [i|] eqn:Hi; cbn [fmap option_fmap option_map]; [|by rewrite put_put].
  cbv zeta. rewrite (put_put t (take i (d :: r))), take_app_ge, lookup_app_r by lia.
  replace (length t + i - length t)%nat with i by lia.
  rewrite (drop_app_ge t (d :: r) (S (length t + i))) by lia.
  by replace (S (length t + i) - length t)%nat with (S i) by lia.
Qed.

Lemma vformat_loop_open fuel args r n os :
  vformat_loop (S fuel) args (lit "{{" ++ r) n os = vformat_loop fuel args r n (put (lit "{") os).
Proof. trans (vformat_loop fuel args r n (put (lit "{") (put [] os))); [reflexivity|by rewrite put_nil]. Qed.

Lemma vformat_loop_close fuel args r n os :
  vformat_loop (S fuel) args (lit "}}" ++ r) n os = vformat_loop fuel args r n (put (lit "}") os).
Proof. trans (vformat_loop fuel args r n (put (lit "}") (put [] os))); [reflexivity|by rewrite put_nil]. Qed.

Lemma get_arg_lookup args i :
  0 <= i -> i < Zlen args -> get_arg args i = match args !! Z.to_nat i with Some a => Ok a | None => Undefined end.
Proof. intros. unfold get_arg. by rewrite (proj2 (Z.leb_gt _ _)) by done. Qed.

(** A placeholder: what is between a brace and the next closing brace. *)
Lemma vformat_loop_placeholder fuel args spec r n os :
  "}"%char ∉ spec -> head spec <> Some "{"%char ->
  vformat_loop (S fuel) args (lit "{" ++ spec ++ lit "}" ++ r) n os
  = if decide (spec = []) then
      if (length args <=? n)%nat then format_error (lit "Too few arguments provided")
      else a ← get_arg args (Z.of_nat n); vformat_loop fuel args r (S n) (format_arg a [] os)
    else os ← format_manual args spec os; vformat_loop fuel args r n os.
Proof.
  intros Hs Hh. set (after := spec ++ "}"%char :: r).
  assert (Double.eat "{" after = None) as He.
  { unfold Double.eat, after. destruct spec as [|c spec]; cbn; [by rewrite decide_False|].
    rewrite decide_False; [done|]. intros ->. done. }
  trans (match Double.eat "{" after with
         | Some after => vformat_loop fuel args after n (put (lit "{") (put [] os))
         | None =>
             match find_char "}" after with
             | None => format_error (lit "Unmatched '{' in format string")
             | Some format_end =>
                 let format_spec := take format_end after in
                 let rest := drop (S format_end) after in
                 if decide (format_spec = []) then
                   if (length args <=? n)%nat then format_error (lit "Too few arguments provided")
                   else
                     a ← get_arg args (Z.of_nat n);
                     vformat_loop fuel args rest (S n) (format_arg a [] (put [] os))
                 else
                   os ← format_manual args format_spec (put [] os);
                   vformat_loop fuel args rest n os
             end
         end); [reflexivity|].
  rewrite He, put_nil. unfold after. rewrite (find_char_app "}" spec r) by done. cbv zeta.
  rewrite take_app_length, drop_app_ge by lia.
  by replace (S (length spec) - length spec)%nat with 1%nat by lia.
Qed.

Lemma vformat_loop_auto fuel args r n os :
  vformat_loop (S fuel) args (lit "{}" ++ r) n os
  = '(n, os) ← eval_piece args (n, os) Auto; vformat_loop fuel args r n os.
Proof.
  pose proof (vformat_loop_placeholder fuel args [] r n os) as H. cbn [app lit] in H. 
  etrans; [apply H; [apply not_elem_of_nil|done]|]. rewrite decide_True by done. cbn [eval_piece].
  destruct (args !! n) as [a|] eqn:Hn.
  - pose proof (lookup_lt_Some _ _ _ Hn). rewrite (proj2 (Nat.leb_gt _ _)) by done.
    rewrite get_arg_lookup by (unfold Zlen; lia). by rewrite Nat2Z.id, Hn.
  - apply lookup_ge_None in Hn. by rewrite (proj2 (Nat.leb_le _ _)) by done.
Qed.

Lemma find_char_inner index spec :
  ":"%char ∉ index ->
  find_char ":" (inner index spec) = match spec with Some _ => Some (length index) | None => None end.
Proof.
  intros Hi. unfold inner. destruct spec as [sp|]; [by apply find_char_app|]. rewrite app_nil_r. by apply find_char_notin.
Qed.

Lemma format_manual_inner args index spec os n :
  ":"%char ∉ index ->
  format_manual args (inner index spec) os = '(_, os) ← eval_piece args (n, os) (Manual index spec); Ok os.
Proof.
  intros Hi. unfold format_manual. rewrite find_char_inner by done. cbv zeta.
  assert ((match spec with Some _ => Some (length index) | None => None end,
           match (match spec with Some _ => Some (length index) | None => None end) with
           | Some i => take i (inner index spec) | None => inner index spec end,
           match (match spec with Some _ => Some (length index) | None => None end) with
           | Some i => drop (S i) (inner index spec) | None => [] end)
          = (match spec with Some _ => Some (length index) | None => None end, index, default [] spec)) as [= -> ->].
  { unfold inner. destruct spec as [sp|]; cbn; [|by rewrite app_nil_r].
    rewrite take_app_length. do 2 f_equal. change (":"%char :: sp) with ([":"%char] ++ sp). rewrite app_assoc.
    replace (S (length index)) with (length (index ++ [":"%char])) by (rewrite length_app; cbn; lia).
    by rewrite drop_app_length. }
  cbn [eval_piece]. destruct (stoul index) as [i| | |] eqn:E; try done. apply stoul_nonneg in E.
  destruct (args !! Z.to_nat i) as [a|] eqn:Ha.
  - pose proof (lookup_lt_Some _ _ _ Ha). rewrite (proj2 (Z.leb_gt _ _)) by (unfold Zlen; lia).
    rewrite get_arg_lookup by (unfold Zlen; lia). by rewrite Ha.
  - apply lookup_ge_None in Ha. by rewrite (proj2 (Z.leb_le _ _)) by (unfold Zlen; lia).
Qed.

Lemma vformat_loop_manual fuel args index spec r n os :
  piece_ok (Manual index spec) ->
  vformat_loop (S fuel) args (render (Manual index spec) ++ r) n os
  = '(n, os) ← eval_piece args (n, os) (Manual index spec); vformat_loop fuel args r n os.
Proof.
  intros (Hi & Hc & Hne & Hh). cbn [render]. rewrite <- !app_assoc, vformat_loop_placeholder by done.
  rewrite decide_False, (format_manual_inner args index spec os n) by done. cbn [eval_piece].
  destruct (stoul index) as [i| | |]; try done. by destruct (args !! Z.to_nat i).
Qed.

Lemma render_length p : (match p with Text _ => 0 | _ => 1 end <= length (render p))%nat.
Proof. destruct p; cbn; lia. Qed.

Lemma vformat_loop_pieces args ps : forall fuel n os,
  Forall piece_ok ps -> (length (pieces_text ps) < fuel)%nat ->
  vformat_loop fuel args (pieces_text ps) n os = eval args (n, os) ps.
Proof.
  unfold pieces_text. induction ps as [|p ps IH]; intros fuel n os Hok Hlen; (destruct fuel as [|fuel]; [cbn in Hlen; lia|]).
  { done. }
  inversion_clear Hok as [|?? Hp Hps]. cbn [fmap list_fmap concat] in *. rewrite length_app in Hlen.
  pose proof (render_length p). destruct p as [s| | | |index spec].
  - rewrite vformat_loop_text by done. apply IH; [done|lia].
  - cbn [render]. rewrite vformat_loop_open. apply IH; [done|lia].
  - cbn [render]. rewrite vformat_loop_close. apply IH; [done|lia].
  - cbn [render]. rewrite vformat_loop_auto. cbn [eval]. destruct (eval_piece args (n, os) Auto) as [[n' os']| | |]; try done.
    apply IH; [done|lia].
  - rewrite vformat_loop_manual by done. cbn [eval].
    destruct (eval_piece args (n, os) (Manual index spec)) as [[n' os']| | |]; try done. apply IH; [done|lia].
Qed.

Lemma vformat_pieces ps args :
  Forall piece_ok ps ->
  vformat (pieces_text ps) args
  = '(used, os) ← eval args (0%nat, new_stream) ps;
    if (used <? length args)%nat then format_error (lit "Too many arguments provided") else Ok (text os).
Proof. intros Hok. unfold vformat. by rewrite vformat_loop_pieces by (done || lia). Qed.

(** C32: formatting a string written as pieces (text without braces, doubled
    braces, automatic and numbered placeholders) gives exactly what the pieces
    stand for, in order, on the stream the previous ones left, or the error of the
    first piece that has one, or the error for arguments no automatic placeholder
    took. *)
Theorem vformat_render ps args :
  Forall piece_ok ps ->
  vformat (pieces_text ps) args
  = '(used, os) ← eval args (0%nat, new_stream) ps;
    if (used <? length args)%nat then format_error (lit "Too many arguments provided") else Ok (text os).
Proof. apply vformat_pieces. Qed.

(** ** When it succeeds *)

Definition autos (ps : list piece) : nat := length (filter (fun p => p = Auto) ps).

Definition index_in (args : list arg) (p : piece) : Prop :=
  match p with
  | Manual index _ => exists i, stoul index = Ok i /\ i < Zlen args
  | _ => True
  end.

Lemma eval_ok args ps : forall n os,
  Forall (index_in args) ps -> (n + autos ps <= length args)%nat -> exists os', eval args (n, os) ps = Ok ((n + autos ps)%nat, os').
Proof.
  unfold autos. induction ps as [|p ps IH]; intros n os Hi Hn; [exists os; cbn; by rewrite Nat.add_0_r|].
  inversion_clear Hi as [|?? Hp Hps]. rewrite filter_cons in *. destruct p as [s| | | |index spec];
    [rewrite decide_False in * by done; cbn; by apply IH..| |].
  - rewrite decide_True in * by done. cbn [length] in *. cbn. destruct (lookup_lt_is_Some_2 args n) as [a ->]; [lia|]. cbn.
    replace (n + S (length (filter (fun p => p = Auto) ps)))%nat
      with (S n + length (filter (fun p => p = Auto) ps))%nat by lia. apply IH; [done|lia].
  - rewrite decide_False in * by done. destruct Hp as (i & Hi & Hlt). cbn. rewrite Hi. apply stoul_nonneg in Hi.
    destruct (lookup_lt_is_Some_2 args (Z.to_nat i)) as [a ->]; [unfold Zlen in Hlt; lia|]. by apply IH.
Qed.

Lemma eval_used args ps : forall n os n' os',
  (n <= length args)%nat -> eval args (n, os) ps = Ok (n', os') -> n' = (n + autos ps)%nat /\ (n' <= length args)%nat.
Proof.
  unfold autos. induction ps as [|p ps IH]; intros n os n' os' Hn; [cbn; intros [= <- <-]; lia|].
  cbn [eval]. intros ([m om] & Hp & Hps)%bind_ok. rewrite filter_cons.
  destruct p as [s| | | |index spec]; cbn [eval_piece] in Hp;
    try (injection Hp as <- <-; rewrite decide_False by done; by eapply IH).
  - rewrite decide_True by done. destruct (args !! n) as [a|] eqn:Ha; [|done]. injection Hp as <- <-.
    apply lookup_lt_Some in Ha. apply IH in Hps; [|lia]. cbn. lia.
  - rewrite decide_False by done. destruct (stoul index) as [i| | |]; try done.
    destruct (args !! Z.to_nat i); [|done]. injection Hp as <- <-. by eapply IH.
Qed.

Lemma vformat_ok ps args :
  Forall piece_ok ps -> Forall (index_in args) ps -> autos ps = length args ->
  exists s, vformat (pieces_text ps) args = Ok s.
Proof.
  intros Hok Hi Ha. rewrite vformat_pieces by done. destruct (eval_ok args ps 0 new_stream Hi) as [os He]; [lia|].
  rewrite He. run_binds. rewrite (proj2 (Nat.ltb_ge _ _)) by lia. by eexists.
Qed.

(** C34: when every numbered placeholder names an argument, formatting succeeds
    exactly when there are as many automatic placeholders as arguments: a numbered
    placeholder does not count as a use, so an argument that is only printed by
    its number is reported as one too many. *)
Theorem vformat_success ps args :
  Forall piece_ok ps -> Forall (index_in args) ps ->
  (exists s, vformat (pieces_text ps) args = Ok s) <-> autos ps = length args.
Proof.
  intros Hok Hi. split; [|by apply vformat_ok].
  rewrite vformat_pieces by done. intros (s & ([n os] & He & Hs)%bind_ok). apply eval_used in He; [|lia].
  destruct (n <? length args)%nat eqn:Hn; [done|]. reflect_bools. lia.
Qed.

Lemma vformat_success_witness :
  ~ (exists s, vformat (lit "{0:x}") [Int 32 255] = Ok s) /\
  (exists s, vformat (lit "{0:x} is {}") [Int 32 255] = Ok s).
Proof.
  split.
  - change (lit "{0:x}") with (pieces_text [Manual (lit "0") (Some (lit "x"))]).
    rewrite vformat_success; [vm_compute; lia| |].
    + constructor; [|constructor]. repeat split; try done; refine (bool_decide_unpack _ _); by vm_compute.
    + constructor; [|constructor]. by exists 0.
  - change (lit "{0:x} is {}") with (pieces_text [Manual (lit "0") (Some (lit "x")); Text (lit " is "); Auto]).
    apply vformat_success; [| |by vm_compute].
    + repeat constructor; try done; refine (bool_decide_unpack _ _); by vm_compute.
    + repeat constructor. by exists 0.
Defined.

Lemma vformat_render_witness :
  vformat (lit "{}: {{{1:X}}}") [Str (lit "id"); Int 32 (-2)] = Throw (FormatError (lit "Too many arguments provided")) /\
  vformat (lit "{}: {{{1:X}}} {}") [Str (lit "id"); Int 32 (-2)] = Ok (lit "id: {FFFFFFFE} -2").
Proof.
  set (ps := [Auto; Text (lit ": "); OpenBrace; Manual (lit "1") (Some (lit "X")); CloseBrace]).
  assert (Forall piece_ok ps /\ Forall piece_ok (ps ++ [Text (lit " "); Auto])) as [H1 H2].
  { split; repeat constructor; try done; refine (bool_decide_unpack _ _); by vm_compute. }
  split.
  - change (lit "{}: {{{1:X}}}") with (pieces_text ps). rewrite (vformat_render ps) by done. by vm_compute.
  - change (lit "{}: {{{1:X}}} {}") with (pieces_text (ps ++ [Text (lit " "); Auto])).
    rewrite (vformat_render (ps ++ _)) by done. by vm_compute.
Defined.

(** ** Escaping *)

(** Text with its braces doubled. *)
Definition escape (s : str) : str := s ≫= fun c => if is_brace c then [c; c] else [c].

Definition escape_piece (c : ascii) : piece :=
  if decide (c = "{"%char) then OpenBrace else if decide (c = "}"%char) then CloseBrace else Text [c].

Lemma escape_pieces s : pieces_text (escape_piece <$> s) = escape s /\ Forall piece_ok (escape_piece <$> s).
Proof.
  unfold pieces_text, escape. induction s as [|c s [IH1 IH2]]; [done|]. cbn. rewrite IH1.
  assert (render (escape_piece c) = (if is_brace c then [c; c] else [c]) /\ piece_ok (escape_piece c)) as [-> Hp].
  { unfold escape_piece. repeat case_decide; subst; try done.
    assert (is_brace c = false) as Hc by (unfold is_brace; by rewrite !bool_decide_eq_false_2).
    rewrite Hc. split; [done|]. by repeat constructor. }
  split; [done|by constructor].
Qed.

Lemma eval_escape s : forall os, eval [] (0%nat, os) (escape_piece <$> s) = Ok (0%nat, put s os).
Proof.
  induction s as [|c s IH]; intros os; [cbn; by rewrite put_nil|]. cbn [fmap list_fmap eval].
  assert (eval_piece [] (0%nat, os) (escape_piece c) = Ok (0%nat, put [c] os)) as ->.
  { unfold escape_piece. repeat case_decide; by subst. }
  run_binds. rewrite IH. by rewrite put_put.
Qed.

(** Any text comes out unchanged when its braces are doubled and there are no
    arguments. *)
Theorem escape_roundtrip s : vformat (escape s) [] = Ok s.
Proof.
  destruct (escape_pieces s) as [<- Hok]. rewrite vformat_pieces, eval_escape by done. done.
Qed.

(** The notation and precision a floating-point placeholder asks for stay for
    the placeholders after it: the same argument prints differently before and
    after one. *)
Theorem flags_leak :
  exists x : Double.t,
    vformat (lit "{}") [Float x] = Ok (lit "0.125") /\
    vformat (lit "{}|{0:.1}|{}|{}") [Float x; Float x; Float x] = Ok (lit "0.125|0.1|0.1|0.1") /\
    vformat (lit "{}|{0:E}|{}") [Float x; Float x] = Ok (lit "0.125|1.250000E-01|1.250000e-01").
Proof. exists (S754_finite false 4503599627370496 (-55)). by vm_compute. Qed.

(** ** Bases *)

Definition base_digit_value (c : ascii) : Z :=
  if isdigit c then Double.digit_value c else Z.of_nat (nat_of_ascii c) - 87.

Definition base_value (b : Z) (s : str) : Z := foldl (fun a c => b * a + base_digit_value c) 0 s.

Lemma base_digit_value_digit n : 0 <= n < 16 -> base_digit_value (base_digit n) = n.
Proof.
  intros Hn. assert (n ∈ seqZ 0 16) as Hin by (apply elem_of_seqZ; lia).
  clear Hn. revert n Hin. apply Forall_forall. repeat constructor.
Qed.

Lemma base_value_digits b fuel : forall n,
  2 <= b <= 16 -> 0 <= n < 2 ^ Z.of_nat fuel -> (0 < fuel)%nat -> base_value b (base_digits fuel b n) = n.
Proof.
  induction fuel as [|fuel IH]; intros n Hb Hn Hf; [lia|]. cbn [base_digits]. unfold base_value in *.
  rewrite foldl_app. cbn [foldl]. rewrite base_digit_value_digit by (pose proof (Z.mod_pos_bound n b); lia).
  destruct (n <? b) eqn:E; reflect_bools.
  - cbn. rewrite Z.mod_small by lia. lia.
  - assert (0 < fuel)%nat by (destruct fuel; [cbn in Hn|]; lia). rewrite IH; [|done| |done].
    + pose proof (Z.div_mod n b). lia.
    + split; [apply Z.div_pos; lia|]. apply Z.div_lt_upper_bound; [lia|].
      rewrite Nat2Z.inj_succ, Z.pow_succ_r in Hn by lia. nia.
Qed.

Lemma put_bits_text n v : forall os, exists ds,
  put_bits n v os = put ds os /\ length ds = n /\ base_value 2 ds = v `mod` 2 ^ Z.of_nat n.
Proof.
  assert (forall os a, exists ds, put_bits n v os = put ds os /\ length ds = n /\
    foldl (fun a c => 2 * a + base_digit_value c) a ds = a * 2 ^ Z.of_nat n + v `mod` 2 ^ Z.of_nat n) as H.
  { induction n as [|n IH]; intros os a.
    { exists []. rewrite put_nil. repeat split. cbn. rewrite Z.mod_1_r. lia. }
    cbn [put_bits]. set (c := if Z.testbit v (Z.of_nat n) then "1"%char else "0"%char).
    destruct (IH (put [c] os) (2 * a + base_digit_value c)) as (ds & Hp & Hl & Hv). exists (c :: ds).
    split; [|split; [cbn; by rewrite Hl|]].
    - change (c :: ds) with ([c] ++ ds). rewrite <- put_put, <- Hp. unfold c.
      by destruct (Z.testbit v (Z.of_nat n)).
    - cbn [foldl]. rewrite Hv, Nat2Z.inj_succ, Z.pow_succ_r by lia.
      assert (0 < 2 ^ Z.of_nat n) by lia. rewrite (Z.mul_comm 2 (2 ^ _)), Z.rem_mul_r by lia.
      assert (base_digit_value c = (v `div` 2 ^ Z.of_nat n) `mod` 2) as ->; [|lia].
      rewrite <- Z.testbit_spec' by lia. unfold c. by destruct (Z.testbit v (Z.of_nat n)). }
  intros os. destruct (H os 0) as (ds & ? & ? & Hv). exists ds. unfold base_value. rewrite Hv. by split_and!.
Qed.

(** An integer formatted with [x], [o] or [b] is written with digits that read
    back, in that base, as the value's bits at the width of its type; [b] writes
    exactly one digit per bit after the prefix. *)
Theorem integer_bases bits v spec os :
  0 < bits ->
  (exists ds, format_arg (Int bits v) ("x"%char :: spec) os = put ds os /\ base_value 16 ds = v `mod` 2 ^ bits) /\
  (exists ds, format_arg (Int bits v) ("o"%char :: spec) os = put ds os /\ base_value 8 ds = v `mod` 2 ^ bits) /\
  (exists ds, format_arg (Int bits v) ("b"%char :: spec) os = put (lit "0b" ++ ds) os /\
              Zlen ds = bits /\ base_value 2 ds = v `mod` 2 ^ bits).
Proof.
  intros Hb.
  assert (forall b, 2 <= b <= 16 -> base_value b (print_base b bits v) = v `mod` 2 ^ bits) as Hbase.
  { intros b ?. unfold print_base. apply base_value_digits; [done| |lia]. rewrite Z2Nat.id by lia. apply Z.mod_pos_bound. lia. }
  split_and!.
  - exists (print_base 16 bits v). split; [done|]. by apply Hbase.
  - exists (print_base 8 bits v). split; [done|]. by apply Hbase.
  - destruct (put_bits_text (Z.to_nat bits) v (put (lit "0b") os)) as (ds & Hp & Hl & Hv).
    rewrite Z2Nat.id in Hv by lia. exists ds. split; [by rewrite <- put_put, <- Hp|].
    split; [unfold Zlen; lia|done].
Qed.

Lemma integer_bases_witness :
  0 < 8 /\ exists ds, format_arg (Int 8 (-3)) (lit "b") new_stream = put (lit "0b" ++ ds) new_stream /\
               Zlen ds = 8 /\ base_value 2 ds = 253.
Proof. split; [lia|]. apply (integer_bases 8 (-3) [] new_stream). lia. Defined.

(** ** The argument objects

    [format] makes an object for each argument with [new], in the constructor of its
    [format_context]; the destructor deletes them. *)

(** The objects that exist, by address, and the next address. *)
Record memory : Type := mkMem { objects : gmap nat arg; next_address : nat }.

(** [args_.push_back(new format_arg<T>(value))]; whether there is memory is an argument.
    The vector was given its capacity before, so [push_back] does not throw. *)
Definition emplace_back (available : bool) (a : arg) (args_ : list nat) (m : memory) : option (list nat) * memory :=
  if available then
    (Some (args_ ++ [next_address m]), mkMem (<[next_address m := a]> (objects m)) (S (next_address m)))
  else (None, m).

(** The constructor: the addresses, or none when a [new] has thrown. *)
Fixpoint build (available : list bool) (args : list arg) (args_ : list nat) (m : memory) : option (list nat) * memory :=
  match args with
  | [] => (Some args_, m)
  | a :: args =>
      match emplace_back (default true (head available)) a args_ m with
      | (Some args_, m) => build (tail available) args args_ m
      | (None, m) => (None, m)
      end
  end.

(** [~format_context()]; deleting what does not exist is undefined. *)
Fixpoint delete_args (args_ : list nat) (m : memory) : outcome memory :=
  match args_ with
  | [] => Ok m
  | x :: args_ =>
      match objects m !! x with
      | Some _ => delete_args args_ (mkMem (delete x (objects m)) (next_address m))
      | None => Undefined
      end
  end.

(** The arguments a context refers to. *)
Definition context_args (args_ : list nat) (m : memory) : list arg := omap (fun x => objects m !! x) args_.

(** [format(fmt, args...)]: the result, and the memory once the context is destroyed. *)
Definition format (available : list bool) (fmt : str) (args : list arg) (m : memory) : outcome (outcome str * memory) :=
  match build available args [] m with
  | (None, m) => Ok (Throw BadAlloc, m)
  | (Some args_, m') =>
      let r := vformat fmt (context_args args_ m') in
      m'' ← delete_args args_ m';
      Ok (r, m'')
  end.

(** Addresses are not used twice. *)
Definition mem_ok (m : memory) : Prop := forall x, is_Some (objects m !! x) -> (x < next_address m)%nat.

Lemma build_all (args : list arg) : forall args_ m,
  mem_ok m ->
  exists m', build [] args args_ m = (Some (args_ ++ seq (next_address m) (length args)), m') /\
    next_address m' = (next_address m + length args)%nat /\
    forall x, objects m' !! x =
      if decide (next_address m <= x < next_address m + length args)%nat then args !! (x - next_address m)%nat else objects m !! x.
Proof.
  induction args as [|a args IH]; intros args_ m Hok; cbn [build length seq].
  - exists m. rewrite app_nil_r. split; [done|]. split; [lia|]. intros x. by rewrite decide_False by lia.
  - cbn [emplace_back head default tail]. destruct (IH (args_ ++ [next_address m]) (mkMem (<[next_address m := a]> (objects m)) (S (next_address m)))) as (m' & Hb & Hn & Hl).
    { intros x. cbn. rewrite lookup_insert_is_Some'. intros [->|?%Hok]; lia. }
    exists m'. rewrite Hb, <- app_assoc. cbn [next_address objects] in *. split; [done|]. split; [lia|]. intros x. rewrite Hl.
    destruct (decide (x = next_address m)) as [->|Hne].
    + rewrite decide_False, lookup_insert_eq, decide_True by lia. by rewrite Nat.sub_diag.
    + rewrite lookup_insert_ne by done. destruct (decide (S (next_address m) <= x < S (next_address m) + length args)%nat).
      * rewrite decide_True by lia. by replace (x - next_address m)%nat with (S (x - S (next_address m))) by lia.
      * by rewrite decide_False by lia.
Qed.

Lemma delete_all n : forall k m,
  (forall x, (k <= x < k + n)%nat -> is_Some (objects m !! x)) ->
  exists m', delete_args (seq k n) m = Ok m' /\ next_address m' = next_address m /\
    forall x, objects m' !! x = if decide (k <= x < k + n)%nat then None else objects m !! x.
Proof.
  induction n as [|n IH]; intros k m Hm; cbn [seq delete_args].
  - exists m. split; [done|]. split; [done|]. intros x. by rewrite decide_False by lia.
  - destruct (Hm k) as [a Ha]; [lia|]. rewrite Ha. destruct (IH (S k) (mkMem (delete k (objects m)) (next_address m))) as (m' & Hd & Hn & Hl).
    { intros x Hx. cbn. rewrite lookup_delete_ne by lia. apply Hm. lia. }
    exists m'. split; [done|]. split; [done|]. intros x. rewrite Hl. cbn [objects]. destruct (decide (x = k)) as [->|Hne].
    + rewrite decide_False, decide_True, lookup_delete_eq by lia. done.
    + rewrite lookup_delete_ne by congruence. destruct (decide (S k <= x < S k + n)%nat); [by rewrite decide_True by lia|by rewrite decide_False by lia].
Qed.

Lemma context_args_built (args : list arg) k m :
  (forall i, (i < length args)%nat -> objects m !! (k + i)%nat = args !! i) -> context_args (seq k (length args)) m = args.
Proof.
  revert k. induction args as [|a args IH]; intros k H; [done|]. cbn [length seq]. unfold context_args in *. cbn [omap list_omap].
  rewrite <- (Nat.add_0_r k) at 1. rewrite (H 0%nat) by (cbn; lia). cbn. f_equal. apply IH. intros i Hi.
  rewrite Nat.add_succ_comm. apply (H (S i)). cbn. lia.
Qed.

(** With memory for its argument objects, [format] returns or throws what [vformat] does,
    and either way deletes every object it made, once, and nothing else. *)
Lemma format_balanced fmt args m :
  mem_ok m -> exists m', format [] fmt args m = Ok (vformat fmt args, m') /\ forall x, objects m' !! x = objects m !! x.
Proof.
  intros Hok. unfold format. destruct (build_all args [] m Hok) as (m1 & -> & Hn & Hl). cbn [app].
  rewrite context_args_built.
  2:{ intros i Hi. rewrite Hl, decide_True by lia. f_equal. lia. }
  destruct (delete_all (length args) (next_address m) m1) as (m2 & -> & _ & Hd).
  { intros x Hx. rewrite Hl, decide_True by lia. apply lookup_lt_is_Some. lia. }
  run_binds. exists m2. split; [done|]. intros x. rewrite Hd. case_decide as E; [|by rewrite Hl, decide_False].
  destruct (objects m !! x) eqn:Ex; [|done]. assert (x < next_address m)%nat by (apply Hok; by eexists). lia.
Qed.

(** When the memory ends at the second argument, the object of the first is never
    deleted: the destructor of a context whose constructor throws does not run. *)
Lemma format_leaks fmt a b m :
  mem_ok m ->
  exists m', format [true; false] fmt [a; b] m = Ok (Throw BadAlloc, m') /\ objects m !! next_address m = None /\
    objects m' !! next_address m = Some a.
Proof.
  intros Hok. eexists. split; [done|]. cbn. split; [|by rewrite lookup_insert_eq].
  destruct (objects m !! next_address m) eqn:E; [|done]. assert (next_address m < next_address m)%nat by (apply Hok; by eexists). lia.
Qed.

End Format.
