(* ===== verification/FormatArgs.v ===== *)
(** * Which formatter an argument gets

    Models how src/include/log/format.hpp chooses a formatter for an argument of
    [format]: [format_arg<T>::format] calls [format_impl(os, spec, value_)], and overload
    resolution picks among three function templates, which are enabled by type traits, and
    two functions.  The model of Format.v starts from the choice made; here the choice is
    derived from the overloads.

    The theorem: for every type that can be formatted the choice is the overload that is
    strictly better than all others, and text that is given as a [char *] is printed as
    an address. *)

From S2P Require Import Prelude Double Format.

Module FormatArgs.
Import Format.

(** The values given to [format], by their types. *)
Inductive cpp_value : Type :=
| CBool (b : bool)
| CChar (c : ascii)
| CInteger (bits v : Z)
| CFloating (d : Double.t)
| CString (s : str)                       (** [std::string] *)
| CStringView (s : str)                   (** [std::string_view] *)
| CConstCharPtr (s : str)                 (** [const char *] *)
| CCharArray (s : str)                    (** [char[N]], as a literal is *)
| CCharPtr (address : Z) (s : str)        (** [char *], with the text it points to *)
| CPointer (address : Z).                 (** another pointer to an object *)

(** The traits of the types. *)
Definition is_string_like (v : cpp_value) : bool :=
  match v with CString _ | CStringView _ | CConstCharPtr _ | CCharArray _ => true | _ => false end.
Definition is_integral (v : cpp_value) : bool :=
  match v with CBool _ | CChar _ | CInteger _ _ => true | _ => false end.
Definition is_floating_point (v : cpp_value) : bool := match v with CFloating _ => true | _ => false end.

(** The overloads of [format_impl]. *)
Inductive overload : Type := Integral | Floating | StringLike | Pointer | Boolean.

#[global] Instance overload_eq_dec : EqDecision overload.
Proof. solve_decision. Defined.

(** How well an overload fits, the better the smaller, if it is viable: a function with
    the parameter's type exactly; a template that is enabled, whose parameter then has
    it; a conversion; and a conversion of a pointer to [bool], which is worse than
    others. *)
Definition rank (o : overload) (v : cpp_value) : option nat :=
  match o with
  | Integral => if is_integral v then Some 1 else None
  | Floating => if is_floating_point v then Some 1 else None
  | StringLike => if is_string_like v then Some 1 else None
  | Pointer =>
      match v with
      | CConstCharPtr _ | CCharArray _ | CCharPtr _ _ | CPointer _ => Some 2
      | _ => None
      end
  | Boolean =>
      match v with
      | CBool _ => Some 0
      | CChar _ | CInteger _ _ | CFloating _ => Some 2
      | CConstCharPtr _ | CCharArray _ | CCharPtr _ _ | CPointer _ => Some 3
      | CString _ | CStringView _ => None
      end
  end%nat.

(** [new format_arg<T>(value)]: the argument as its formatter sees it. *)
Definition wrap (v : cpp_value) : arg :=
  match v with
  | CBool b => Bool b
  | CChar c => Char c
  | CInteger bits v => Int bits v
  | CFloating d => Float d
  | CString s | CStringView s | CConstCharPtr s | CCharArray s => Str s
  | CCharPtr a _ | CPointer a => Ptr a
  end.

(** The overload an argument of the model stands for. *)
Definition overload_of (a : arg) : overload :=
  match a with
  | Int _ _ | Char _ => Integral
  | Float _ => Floating
  | Str _ => StringLike
  | Ptr _ => Pointer
  | Bool _ => Boolean
  end.

(** [format(fmt, values...)] *)
Definition format_values (fmt : str) (vs : list cpp_value) : outcome str := vformat fmt (wrap <$> vs).

(** The choice is that of overload resolution. *)
Theorem wrap_selects v :
  exists k, rank (overload_of (wrap v)) v = Some k /\
    forall o k', rank o v = Some k' -> o <> overload_of (wrap v) -> (k < k')%nat.
Proof. destruct v; (eexists; split; [done|]); intros [] k' [= <-]; cbn; lia || done. Qed.

(** The same text prints as text or as an address, by the type it is given as. *)
Lemma text_by_type s a :
  format_values (lit "{}") [CConstCharPtr s] = Ok s /\
  format_values (lit "{}") [CCharArray s] = Ok s /\
  format_values (lit "{}") [CCharPtr a s] = Ok (print_pointer a).
Proof. done. Qed.

End FormatArgs.
