(* ===== verification/FileTool.v ===== *)
(** * Files

    Models src/include/tools/Tool.hpp over a map from paths to contents.  Which
    paths can be opened for writing is up to the system, and an argument.  A
    stream that could not be opened ignores what is written to it, and reading
    from it gives nothing; the code tests for neither. *)

From S2P Require Import Prelude.

Module FileTool.

Abbreviation files := (gmap str str).

(** What is read from a path. *)
Definition contents (p : str) (fs : files) : str := default [] (fs !! p).

(** [FileTool::read_from_file] *)
Definition read_from_file (p : str) (fs : files) : str := contents p fs.

Section writing.
Context (can_open : str -> bool).

(** [FileTool::write_to_file]: [std::ofstream] truncates or creates the file. *)
Definition write_to_file (p content : str) (fs : files) : files :=
  if can_open p then <[p := content]> fs else fs.

(** [open(p, std::ios::app)] *)
Definition open_append (p : str) (fs : files) : files :=
  if can_open p then <[p := contents p fs]> fs else fs.

End writing.

(** Writing at the end of an open file. *)
Definition append_to (p s : str) (fs : files) : files := <[p := contents p fs ++ s]> fs.

Lemma contents_insert p q s fs : contents q (<[p := s]> fs) = if decide (q = p) then s else contents q fs.
Proof.
  unfold contents. case_decide as H; [subst; by rewrite lookup_insert_eq|]. by rewrite lookup_insert_ne.
Qed.

Lemma contents_append p q s fs :
  contents q (append_to p s fs) = contents q fs ++ if decide (q = p) then s else [].
Proof. unfold append_to. rewrite contents_insert. case_decide; [by subst|by rewrite app_nil_r]. Qed.

Lemma contents_open can_open p q fs : contents q (open_append can_open p fs) = contents q fs.
Proof. unfold open_append. destruct (can_open p); [|done]. rewrite contents_insert. case_decide; by subst. Qed.

(** A file that was written is read back, and no other file changes; where the
    path cannot be opened nothing happens, and the caller is not told. *)
Lemma write_read can_open p q s fs :
  read_from_file q (write_to_file can_open p s fs) =
  if decide (q = p) then if can_open p then s else read_from_file p fs else read_from_file q fs.
Proof.
  unfold read_from_file, write_to_file. destruct (can_open p); [by rewrite contents_insert|]. case_decide; by subst.
Qed.

End FileTool.
