(* ===== verification/Log.v ===== *)
(** * Logging

    Models src/include/log/Log.hpp: the lines loggers write, the two kinds of
    logger, the factory and the global logger with its configuration.  Standard
    output and the files are part of the state.  A file stream keeps what was
    written to it in a buffer that it may write out at any time, and writes it out
    when it is closed.  The time of a line is an argument, as are the paths the
    system lets be opened.

    The theorems: the global logger does what its configuration says, for any
    sequence of calls; what the factory does with a format; the messages the
    library itself logs always format; and what the macros do on their first use. *)

From S2P Require Import Prelude StdString Double FileTool Format.
Import StdString FileTool.
#[local] Open Scope Z_scope.

Module Log.

Inductive LogLevel : Type := DEBUG | RELEASE | INFO | WARN | ERROR | FATAL.

#[global] Instance LogLevel_eq_dec : EqDecision LogLevel.
Proof. solve_decision. Defined.

(** The value of an enumerator, which [<] compares. *)
Definition level_value (l : LogLevel) : Z :=
  match l with DEBUG => 0 | RELEASE => 1 | INFO => 2 | WARN => 3 | ERROR => 4 | FATAL => 5 end.

Definition LevelToString (l : LogLevel) : str :=
  lit match l with
      | DEBUG => "DEBUG" | RELEASE => "RELEASE" | INFO => "INFO"
      | WARN => "WARN" | ERROR => "ERROR" | FATAL => "FATAL"
      end.

(** ** A line *)

(** [std::tm], as far as it is printed. *)
Record tm : Type := mkTm { tm_year : Z; tm_mon : Z; tm_mday : Z; tm_hour : Z; tm_min : Z; tm_sec : Z }.

(** [std::put_time(&t, "%Y-%m-%d %H:%M:%S")] *)
Definition put_time (t : tm) : str :=
  Double.digits_padded 4 (1900 + tm_year t) ++ lit "-" ++ Double.digits_padded 2 (tm_mon t + 1) ++ lit "-" ++
  Double.digits_padded 2 (tm_mday t) ++ lit " " ++ Double.digits_padded 2 (tm_hour t) ++ lit ":" ++
  Double.digits_padded 2 (tm_min t) ++ lit ":" ++ Double.digits_padded 2 (tm_sec t).

(** A call of one of the logging functions. *)
Record message : Type := mkMessage {
  level : LogLevel; file : str; line : Z; formatStr : str; args : list Format.arg; now : tm
}.

(** [Logger::log], up to the call of [output]: the line, or nothing when the level
    is too low, in which case the arguments are not even formatted. *)
Definition log (min_level_ : LogLevel) (m : message) : outcome (option str) :=
  if level_value (level m) <? level_value min_level_ then Ok None
  else
    text ← Format.vformat (formatStr m) (args m);
    Ok (Some (lit "[" ++ LevelToString (level m) ++ lit "][" ++ put_time (now m) ++ lit "][" ++ file m ++ lit "][" ++
              Double.print_int (line m) ++ lit "] : " ++ text ++ [newline])).

(** ** Loggers *)

Record LogFormat : Type := mkFormat { f_level : str; f_time : str; f_file : str; f_line : str; f_message : str }.

Definition empty_format : LogFormat := mkFormat [] [] [] [] [].

Definition kLogFormat : str := lit "[{level}]:[{time}]:[{file}]:[{line}]:[{message}]".

(** The loop of [createLogger] over the comma-separated parts of a format.  The
    views [key] and [value] are views of temporary strings, so comparing a key
    that is not empty reads an object that no longer exists. *)
Definition format_token (token : str) (f : LogFormat) : outcome LogFormat :=
  match find_char "=" token with
  | None => Ok f
  | Some pos => if (pos =? 0)%nat then Ok f else Undefined
  end.

Fixpoint format_tokens (tokens : list str) (f : LogFormat) : outcome LogFormat :=
  match tokens with
  | [] => Ok f
  | t :: ts => f ← format_token t f; format_tokens ts f
  end.

(** The format part of [LoggerFactory::createLogger]. *)
Definition parse_format (format : str) : outcome LogFormat := format_tokens (gettokens "," format) empty_format.

Record StdoutLogger : Type := mkStdout { so_format : LogFormat; so_min_level : LogLevel }.

(** A file logger, with what its stream has not written out yet. *)
Record FileLogger : Type := mkFile {
  fl_format : LogFormat; fl_min_level : LogLevel; file_path_ : str; opened : bool; pending : str
}.

(** The world outside: standard output and the files. *)
Record system : Type := mkSys { stdout : str; disk : files }.

Definition set_disk (fs : files) (x : system) : system := mkSys (stdout x) fs.

(** [StdoutLogger::output] *)
Definition stdout_output (s : str) (x : system) : system := mkSys (stdout x ++ s) (disk x).

(** [FileLogger::output] *)
Definition file_output (s : str) (f : FileLogger) : FileLogger :=
  mkFile (fl_format f) (fl_min_level f) (file_path_ f) (opened f) (if opened f then pending f ++ s else pending f).

(** The stream writes out the first [n] bytes it has kept. *)
Definition drain (n : nat) (f : FileLogger) (x : system) : FileLogger * system :=
  (mkFile (fl_format f) (fl_min_level f) (file_path_ f) (opened f) (drop n (pending f)),
   set_disk (append_to (file_path_ f) (take n (pending f)) (disk x)) x).

(** [~FileLogger()]; closing a stream that is not open does nothing. *)
Definition close_file (f : FileLogger) (x : system) : system :=
  if opened f then set_disk (append_to (file_path_ f) (pending f) (disk x)) x else x.

Section global_logger.
Context (can_open : str -> bool).

(** The constructor of [FileLogger]. *)
Definition new_file (fmt : LogFormat) (l : LogLevel) (p : str) (x : system) : FileLogger * system :=
  (mkFile fmt l p (can_open p) [], set_disk (open_append can_open p (disk x)) x).

(** [LoggerFactory::createLogger] *)
Definition create_stdout (format : str) (l : LogLevel) : outcome StdoutLogger :=
  f ← parse_format format; Ok (mkStdout f l).

Definition create_file (format : str) (l : LogLevel) (p : str) (x : system) : outcome (FileLogger * system) :=
  f ← parse_format format; Ok (new_file f l p x).

(** ** The global logger *)

Inductive Choice : Type := STDOUT | FILE | NONE.

#[global] Instance Choice_eq_dec : EqDecision Choice.
Proof. solve_decision. Defined.

Record GlobalLogger : Type := mkGlobal {
  g_logger : option StdoutLogger;
  g_file_logger : option FileLogger;
  g_choice : Choice;
  g_file_path : str;
  g_min_level : LogLevel
}.

Abbreviation state := (GlobalLogger * system)%type.

(** [flush()]: a new logger of the chosen kind; the old one goes away. *)
Definition flush (x : state) : outcome state :=
  let '(g, sys) := x in
  match g_choice g with
  | STDOUT =>
      l ← create_stdout kLogFormat (g_min_level g);
      Ok (mkGlobal (Some l) (g_file_logger g) (g_choice g) (g_file_path g) (g_min_level g), sys)
  | FILE =>
      '(f, sys) ← create_file kLogFormat (g_min_level g) (g_file_path g) sys;
      let sys := match g_file_logger g with Some old => close_file old sys | None => sys end in
      Ok (mkGlobal (g_logger g) (Some f) (g_choice g) (g_file_path g) (g_min_level g), sys)
  | NONE => Ok x
  end.

(** The constructor, with the members' initial values. *)
Definition instance (sys : system) : outcome state :=
  l ← create_stdout kLogFormat DEBUG;
  Ok (mkGlobal (Some l) None STDOUT (lit "./log.txt") DEBUG, sys).

Definition setLogLevel (l : LogLevel) (x : state) : outcome state :=
  let '(g, sys) := x in
  if decide (g_min_level g = l) then Ok x
  else flush (mkGlobal (g_logger g) (g_file_logger g) (g_choice g) (g_file_path g) l, sys).

Definition setLogFile (p : str) (x : state) : outcome state :=
  let '(g, sys) := x in
  if decide (g_file_path g = p) then Ok x
  else flush (mkGlobal (g_logger g) (g_file_logger g) (g_choice g) p (g_min_level g), sys).

Definition setLogChoice (c : Choice) (x : state) : outcome state :=
  let '(g, sys) := x in
  if decide (g_choice g = c) then Ok x
  else flush (mkGlobal (g_logger g) (g_file_logger g) c (g_file_path g) (g_min_level g), sys).

(** [setFilePath] has the same text as [setLogFile]. *)
Definition setFilePath (p : str) (x : state) : outcome state := setLogFile p x.

(** [ENABLE_LOG_FILE(p)] *)
Definition enable_log_file (p : str) (x : state) : outcome state := x ← setLogFile p x; setLogChoice FILE x.

(** [debug], [release], [info], [warn], [error] and [fatal], which differ in the
    level of the message. *)
Definition write (m : message) (x : state) : outcome state :=
  let '(g, sys) := x in
  match g_choice g with
  | STDOUT =>
      match g_logger g with
      | None => Undefined
      | Some l =>
          t ← log (so_min_level l) m;
          Ok (g, match t with Some t => stdout_output t sys | None => sys end)
      end
  | FILE =>
      match g_file_logger g with
      | None => Undefined
      | Some f =>
          t ← log (fl_min_level f) m;
          Ok (match t with
              | Some t => mkGlobal (g_logger g) (Some (file_output t f)) (g_choice g) (g_file_path g) (g_min_level g)
              | None => g
              end, sys)
      end
  | NONE => Ok x
  end.

(** [instance()]: the global logger is created by the first use. *)
Definition get_instance (g_instance : option GlobalLogger) (sys : system) : outcome state :=
  match g_instance with Some g => Ok (g, sys) | None => instance sys end.

(** [LOG_DEBUG(fmt, ...)] and the other five, by their level. *)
Definition LOG (l : LogLevel) (fmt file : str) (line : Z) (args : list Format.arg) (now : tm)
    (g_instance : option GlobalLogger) (sys : system) : outcome state :=
  x ← get_instance g_instance sys; write (mkMessage l file line fmt args now) x.

(** [ENABLE_LOG_DEBUG()] and the other five. *)
Definition ENABLE_LOG (l : LogLevel) (g_instance : option GlobalLogger) (sys : system) : outcome state :=
  x ← get_instance g_instance sys; setLogLevel l x.

(** The end of the program destroys the logger. *)
Definition shutdown (x : state) : system :=
  let '(g, sys) := x in
  match g_file_logger g with Some f => close_file f sys | None => sys end.

(** ** Sequences of calls *)

Inductive call : Type :=
| SetLevel (l : LogLevel)
| SetFile (p : str)
| SetChoice (c : Choice)
| EnableFile (p : str)
| Write (m : message)
| Drain (n : nat).          (** not a call: the file stream writes something out *)

Definition exec (c : call) (x : state) : outcome state :=
  match c with
  | SetLevel l => setLogLevel l x
  | SetFile p => setLogFile p x
  | SetChoice ch => setLogChoice ch x
  | EnableFile p => enable_log_file p x
  | Write m => write m x
  | Drain n =>
      let '(g, sys) := x in
      match g_file_logger g with
      | Some f =>
          if opened f then
            let '(f, sys) := drain n f sys in
            Ok (mkGlobal (g_logger g) (Some f) (g_choice g) (g_file_path g) (g_min_level g), sys)
          else Ok x
      | None => Ok x
      end
  end.

(** The calls of a program, which goes on after an exception: the results and the
    state at the end. *)
Fixpoint run (cs : list call) (x : state) : list (outcome unit) * state :=
  match cs with
  | [] => ([], x)
  | c :: cs =>
      let r := exec c x in
      let '(rs, x) := run cs (match r with Ok x => x | _ => x end) in
      ((const () <$> r) :: rs, x)
  end.

(** ** What the logger promises *)

(** A configuration and the texts written: nothing else matters to the caller. *)
Record spec : Type := mkSpec { s_choice : Choice; s_path : str; s_level : LogLevel; s_out : str; s_files : str -> str }.

(** The text a message adds under a configuration. *)
Definition spec_write (m : message) (a : spec) : outcome spec :=
  match s_choice a with
  | NONE => Ok a
  | c =>
      t ← log (s_level a) m;
      match t, c with
      | None, _ => Ok a
      | Some t, STDOUT => Ok (mkSpec (s_choice a) (s_path a) (s_level a) (s_out a ++ t) (s_files a))
      | Some t, _ =>
          Ok (mkSpec (s_choice a) (s_path a) (s_level a) (s_out a)
                (fun p => if decide (p = s_path a) then s_files a p ++ (if can_open p then t else []) else s_files a p))
      end
  end.

Definition spec_exec (c : call) (a : spec) : outcome spec :=
  match c with
  | SetLevel l => Ok (mkSpec (s_choice a) (s_path a) l (s_out a) (s_files a))
  | SetFile p => Ok (mkSpec (s_choice a) p (s_level a) (s_out a) (s_files a))
  | SetChoice ch => Ok (mkSpec ch (s_path a) (s_level a) (s_out a) (s_files a))
  | EnableFile p => Ok (mkSpec FILE p (s_level a) (s_out a) (s_files a))
  | Write m => spec_write m a
  | Drain _ => Ok a
  end.

Fixpoint spec_run (cs : list call) (a : spec) : list (outcome unit) * spec :=
  match cs with
  | [] => ([], a)
  | c :: cs =>
      let r := spec_exec c a in
      let '(rs, a) := spec_run cs (match r with Ok a => a | _ => a end) in
      ((const () <$> r) :: rs, a)
  end.

Definition spec_start (sys : system) : spec :=
  mkSpec STDOUT (lit "./log.txt") DEBUG (stdout sys) (fun p => contents p (disk sys)).

(** What a file holds once the streams have written out what they keep. *)
Definition held (f : option FileLogger) (p : str) : str :=
  match f with
  | Some f => if opened f && bool_decide (p = file_path_ f) then pending f else []
  | None => []
  end.

(** A state implements a specification: the logger of the chosen kind exists and
    has the configured level and path, and the texts agree. *)
Record implements (x : state) (a : spec) : Prop := {
  imp_choice : g_choice x.1 = s_choice a;
  imp_path : g_file_path x.1 = s_path a;
  imp_level : g_min_level x.1 = s_level a;
  imp_out : stdout x.2 = s_out a;
  imp_files : forall p, contents p (disk x.2) ++ held (g_file_logger x.1) p = s_files a p;
  imp_stdout : s_choice a = STDOUT -> exists l, g_logger x.1 = Some l /\ so_min_level l = s_level a;
  imp_file : s_choice a = FILE ->
    exists f, g_file_logger x.1 = Some f /\ fl_min_level f = s_level a /\ file_path_ f = s_path a;
  imp_opened : forall f, g_file_logger x.1 = Some f -> opened f = can_open (file_path_ f)
}.

Lemma parse_kLogFormat : parse_format kLogFormat = Ok empty_format.
Proof. by vm_compute. Qed.

Lemma instance_implements sys : exists x, instance sys = Ok x /\ implements x (spec_start sys).
Proof.
  unfold instance, create_stdout. rewrite parse_kLogFormat. run_binds. eexists. split; [done|].
  split; cbn; try done; [intros p; by rewrite app_nil_r|]. intros _. by eexists.
Qed.

(** The first use of a macro logs to the standard output, at every level. *)
Lemma LOG_first_use l fmt file line xs now sys text :
  Format.vformat fmt xs = Ok text ->
  exists g, LOG l fmt file line xs now None sys =
    Ok (g, stdout_output (lit "[" ++ LevelToString l ++ lit "][" ++ put_time now ++ lit "][" ++ file ++ lit "][" ++
              Double.print_int line ++ lit "] : " ++ text ++ [newline]) sys).
Proof.
  intros Ht. unfold LOG, get_instance, instance, create_stdout. rewrite parse_kLogFormat. run_binds. unfold write, log.
  cbn [g_choice g_logger so_min_level level formatStr args]. rewrite Ht. run_binds. by destruct l; eexists.
Qed.

(** [ENABLE_LOG] keeps messages below its level out. *)
Lemma ENABLE_LOG_filters l sys m :
  (level_value (level m) < level_value l)%Z ->
  exists x, ENABLE_LOG l None sys = Ok x /\ write m x = Ok x.
Proof.
  intros Hl. unfold ENABLE_LOG, get_instance, instance, create_stdout, setLogLevel, flush, create_stdout.
  rewrite parse_kLogFormat. run_binds. cbn [g_min_level g_choice]. case_decide as E.
  - subst l. exfalso. revert Hl. unfold level_value. by destruct (level m).
  - eexists. split; [done|]. cbn. unfold log. by rewrite (proj2 (Z.ltb_lt _ _) Hl).
Qed.

Lemma contents_close f q sys :
  contents q (disk (close_file f sys)) = contents q (disk sys) ++ held (Some f) q.
Proof.
  unfold close_file, held. destruct (opened f); cbn; [|by rewrite app_nil_r]. rewrite contents_append.
  case_decide; [by rewrite bool_decide_eq_true_2|by rewrite bool_decide_eq_false_2].
Qed.

Lemma stdout_close f sys : stdout (close_file f sys) = stdout sys.
Proof. unfold close_file. by destruct (opened f). Qed.

(** [flush] brings the logger of the chosen kind up to date with a configuration
    that has changed. *)
Lemma flush_implements g sys ch p l a :
  implements (g, sys) a ->
  exists x, flush (mkGlobal (g_logger g) (g_file_logger g) ch p l, sys) = Ok x /\
    implements x (mkSpec ch p l (s_out a) (s_files a)).
Proof.
  intros [H1 H2 H3 H4 H5 H6 H7 H8]. cbn [fst snd] in *. unfold flush. cbn [g_choice g_min_level g_file_path g_logger g_file_logger].
  destruct ch.
  - unfold create_stdout. rewrite parse_kLogFormat. run_binds. eexists. split; [done|]. split; cbn; try done. by eexists.
  - unfold create_file. rewrite parse_kLogFormat. run_binds. cbn [new_file]. eexists. split; [done|].
    split; cbn [fst snd g_choice g_file_path g_min_level g_logger g_file_logger s_choice s_path s_level s_out s_files]; try done.
    + by destruct (g_file_logger g); rewrite ?stdout_close.
    + intros q. rewrite <- H5. unfold held at 1. cbn [opened file_path_ pending].
      assert ((if can_open p && bool_decide (q = p) then [] else []) = @nil ascii) as -> by (by destruct (_ && _)).
      rewrite app_nil_r. destruct (g_file_logger g) as [f|]; cbn [held]; rewrite ?contents_close; cbn; by rewrite contents_open, ?app_nil_r.
    + intros _. by eexists.
    + by intros f [= <-].
  - eexists. split; [done|]. by split.
Qed.

Lemma spec_eta a : mkSpec (s_choice a) (s_path a) (s_level a) (s_out a) (s_files a) = a.
Proof. by destruct a. Qed.

Lemma set_level_implements l x a :
  implements x a -> exists x', setLogLevel l x = Ok x' /\ implements x' (mkSpec (s_choice a) (s_path a) l (s_out a) (s_files a)).
Proof.
  destruct x as [g sys]. intros Hi. unfold setLogLevel. pose proof Hi as [H1 H2 H3 H4 H5 H6 H7 H8]. cbn [fst snd] in *. case_decide as E.
  - exists (g, sys). split; [done|]. rewrite <- E, H3, spec_eta. done.
  - rewrite <- H1, <- H2. by apply flush_implements.
Qed.

Lemma set_file_implements p x a :
  implements x a -> exists x', setLogFile p x = Ok x' /\ implements x' (mkSpec (s_choice a) p (s_level a) (s_out a) (s_files a)).
Proof.
  destruct x as [g sys]. intros Hi. unfold setLogFile. pose proof Hi as [H1 H2 H3 H4 H5 H6 H7 H8]. cbn [fst snd] in *. case_decide as E.
  - exists (g, sys). split; [done|]. rewrite <- E, H2, spec_eta. done.
  - rewrite <- H1, <- H3. by apply flush_implements.
Qed.

Lemma set_choice_implements c x a :
  implements x a -> exists x', setLogChoice c x = Ok x' /\ implements x' (mkSpec c (s_path a) (s_level a) (s_out a) (s_files a)).
Proof.
  destruct x as [g sys]. intros Hi. unfold setLogChoice. pose proof Hi as [H1 H2 H3 H4 H5 H6 H7 H8]. cbn [fst snd] in *. case_decide as E.
  - exists (g, sys). split; [done|]. rewrite <- E, H1, spec_eta. done.
  - rewrite <- H2, <- H3. by apply flush_implements.
Qed.

(** What a file logger holds after a line. *)
Lemma held_output t f p :
  held (Some (file_output t f)) p =
  held (Some f) p ++ if opened f && bool_decide (p = file_path_ f) then t else [].
Proof. unfold held, file_output. cbn. destruct (opened f), (bool_decide _); cbn; by rewrite ?app_nil_r. Qed.

(** The same result, and states that still agree. *)
Definition agree (r : outcome state) (r' : outcome spec) : Prop :=
  match r, r' with
  | Ok x, Ok a => implements x a
  | Throw e, Throw e' => e = e'
  | _, _ => False
  end.

(** [log] returns or throws. *)
Lemma log_returns l m : (exists t, log l m = Ok t) \/ (exists e, log l m = Throw e).
Proof.
  unfold log. destruct (_ <? _); [eauto|]. destruct (Format.vformat_formats (formatStr m) (args m)) as [[t ->]|[msg ->]]; run_binds; eauto.
Qed.

Lemma write_agrees m x a : implements x a -> agree (write m x) (spec_write m a).
Proof.
  destruct x as [g sys]. intros Hi. pose proof Hi as [H1 H2 H3 H4 H5 H6 H7 H8]. cbn [fst snd] in *.
  unfold write, spec_write. rewrite H1. destruct (s_choice a) eqn:Hc; [| |done].
  - destruct (H6 eq_refl) as (l & -> & ->). destruct (log_returns (s_level a) m) as [[[t|] ->]|[e ->]]; run_binds; try done.
    split; cbn; try done. by rewrite H4.
  - destruct (H7 eq_refl) as (f & Hf & Hl & Hp). rewrite Hf, Hl.
    destruct (log_returns (s_level a) m) as [[[t|] ->]|[e ->]]; run_binds; try done.
    split; cbn [agree fst snd g_choice g_file_path g_min_level g_logger g_file_logger s_choice s_path s_level s_out s_files]; try done.
    + intros q. rewrite held_output, app_assoc, <- Hf, H5, (H8 _ Hf), Hp.
      case_decide as E; [subst q; rewrite bool_decide_eq_true_2, andb_true_r by done; done|].
      by rewrite bool_decide_eq_false_2, andb_false_r, app_nil_r by done.
    + intros _. by exists (file_output t f).
    + intros f' [= <-]. apply (H8 _ Hf).
Qed.

Lemma drain_agrees n x a : implements x a -> agree (exec (Drain n) x) (Ok a).
Proof.
  destruct x as [g sys]. intros Hi. pose proof Hi as [H1 H2 H3 H4 H5 H6 H7 H8]. cbn [fst snd] in *. cbn [exec].
  destruct (g_file_logger g) as [f|] eqn:Hf; [|done]. destruct (opened f) eqn:Ho; [|done].
  split; cbn [fst snd drain g_choice g_file_path g_min_level g_logger g_file_logger stdout disk set_disk]; try done.
  - intros q. rewrite <- H5, contents_append. unfold held. cbn [opened file_path_ pending]. rewrite Ho. cbn [andb].
    case_decide as E.
    + rewrite bool_decide_eq_true_2 by done. by rewrite <- app_assoc, take_drop.
    + by rewrite bool_decide_eq_false_2, !app_nil_r by done.
  - intros Hc. destruct (H7 Hc) as (f' & [= <-] & Hl & Hp). eexists. split; [done|]. split; done.
  - intros f' [= <-]. cbn. by apply H8.
Qed.

Lemma exec_agrees c x a : implements x a -> agree (exec c x) (spec_exec c a).
Proof.
  intros Hi. destruct c as [l|p|ch|p|m|n]; cbn [exec spec_exec].
  - by destruct (set_level_implements l x a Hi) as (x' & -> & H).
  - by destruct (set_file_implements p x a Hi) as (x' & -> & H).
  - by destruct (set_choice_implements ch x a Hi) as (x' & -> & H).
  - unfold enable_log_file. destruct (set_file_implements p x a Hi) as (x' & -> & H). run_binds.
    by destruct (set_choice_implements FILE x' _ H) as (x'' & -> & H').
  - by apply write_agrees.
  - by apply drain_agrees.
Qed.

Lemma run_agrees cs : forall x a,
  implements x a -> (run cs x).1 = (spec_run cs a).1 /\ implements (run cs x).2 (spec_run cs a).2.
Proof.
  induction cs as [|c cs IH]; intros x a Hi; [done|]. cbn [run spec_run].
  pose proof (exec_agrees c x a Hi) as Ha.
  destruct (exec c x) as [x'|e| |]; destruct (spec_exec c a) as [a'|e'| |]; try done; cbn [agree] in Ha.
  - destruct (IH x' a' Ha) as [H1 H2]. destruct (run cs x'), (spec_run cs a'). cbn in *. by rewrite H1.
  - subst e'. destruct (IH x a Hi) as [H1 H2]. destruct (run cs x), (spec_run cs a). cbn in *. by rewrite H1.
Qed.

Lemma shutdown_implements x a :
  implements x a -> stdout (shutdown x) = s_out a /\ forall p, contents p (disk (shutdown x)) = s_files a p.
Proof.
  destruct x as [g sys]. intros [H1 H2 H3 H4 H5 H6 H7 H8]. cbn [fst snd] in *. unfold shutdown.
  destruct (g_file_logger g) as [f|]; [rewrite stdout_close|]; (split; [done|]); intros p; rewrite <- H5.
  - apply contents_close.
  - by rewrite app_nil_r.
Qed.

(** C15: the global logger does what its configuration says.  For any sequence of
    calls that set the level, the file or the kind of output and that log
    messages, and however the file streams buffer, every call has the result
    it has for a plain configuration (only formatting can throw, and only for
    a message that is not filtered out; no call uses a logger that does not
    exist), and when the program ends standard output and every file hold what
    they held before and the lines that were not filtered out, in order, each
    where the configuration sent it when it was logged. *)
Theorem logger_refines_spec cs sys :
  exists x, instance sys = Ok x /\
    (run cs x).1 = (spec_run cs (spec_start sys)).1 /\
    stdout (shutdown (run cs x).2) = s_out (spec_run cs (spec_start sys)).2 /\
    forall p, contents p (disk (shutdown (run cs x).2)) = s_files (spec_run cs (spec_start sys)).2 p.
Proof.
  destruct (instance_implements sys) as (x & Hx & Hi). exists x. split; [done|].
  destruct (run_agrees cs _ _ Hi) as [H1 H2]. split; [done|]. by apply shutdown_implements.
Qed.

(** ** The library's own messages *)

(** The format strings the library logs with, and how many arguments it gives. *)
Definition library_messages : list (str * nat) :=
  [(lit "Exception in worker thread: {}", 1%nat);
   (lit "Unknown exception in worker thread", 0%nat);
   (lit "ThreadPool stopped", 0%nat);
   (lit "ThreadPool stopping forcefully", 0%nat);
   (lit "IOContext: fd {} registered for waiter {}", 2%nat);
   (lit "IOContext: epoll modify failed for fd {}", 1%nat);
   (lit "IOContext: fd {} removed", 1%nat);
   (lit "IOContext: fd {} modified", 1%nat);
   (lit "{} async_read : {} bytes", 2%nat);
   (lit "{} async_read EAGAIN : ", 1%nat);
   (lit "{} async_write : {} bytes", 2%nat)].

(** A format string whose braces are automatic placeholders, in pieces. *)
Fixpoint auto_pieces (s : str) : list Format.piece :=
  match s with
  | [] => []
  | c :: s =>
      if decide (c = "{"%char) then Format.Auto :: auto_pieces s
      else if decide (c = "}"%char) then auto_pieces s
      else Format.Text [c] :: auto_pieces s
  end.

Lemma auto_pieces_ok s args :
  Forall Format.piece_ok (auto_pieces s) /\ Forall (Format.index_in args) (auto_pieces s).
Proof.
  induction s as [|c s [IH1 IH2]]; [done|]. cbn [auto_pieces]. repeat case_decide; [by split; constructor|done|].
  split; constructor; try done. constructor; [|done]. unfold Format.is_brace. by rewrite !bool_decide_eq_false_2.
Qed.

Lemma library_messages_ok fmt n ar :
  (fmt, n) ∈ library_messages -> length ar = n -> exists s, Format.vformat fmt ar = Ok s.
Proof.
  intros Hin Hl. assert (Format.pieces_text (auto_pieces fmt) = fmt /\ Format.autos (auto_pieces fmt) = n) as [H1 H2].
  { revert Hin. unfold library_messages.
    repeat (intros [[= -> ->]|Hin]%elem_of_cons; [by vm_compute|revert Hin]). by intros ?%not_elem_of_nil. }
  rewrite <- H1. destruct (auto_pieces_ok fmt ar). apply Format.vformat_ok; [done..|]. congruence.
Qed.

(** C35: the library's own log calls never throw: whatever the logger was asked to
    do before, each message of the thread pool, the I/O context and the
    sockets is logged or filtered out.  So the logging calls inside functions
    declared [noexcept] do not end the program. *)
Theorem library_logging_returns cs sys x m :
  instance sys = Ok x -> (formatStr m, length (args m)) ∈ library_messages ->
  exists x', write m (run cs x).2 = Ok x'.
Proof.
  intros Hx Hm. destruct (instance_implements sys) as (x0 & Hx0 & Hi). assert (x0 = x) as -> by congruence.
  destruct (run_agrees cs _ _ Hi) as [_ Hr]. pose proof (write_agrees m _ _ Hr) as Ha.
  destruct (write m (run cs x).2) as [x'|e| |]; [by eexists| |done..]. exfalso.
  unfold spec_write, log in Ha. destruct (library_messages_ok _ _ (args m) Hm eq_refl) as [t Ht]. rewrite Ht in Ha.
  destruct (s_choice _); [| |done]; by destruct (_ <? _).
Qed.

End global_logger.

Lemma library_logging_returns_witness :
  exists x', write (mkMessage INFO (lit "IOContext.hpp") 54 (lit "IOContext: fd {} registered for waiter {}")
                      [Format.Int 32 5; Format.Ptr 4096] (mkTm 125 0 1 12 30 0))
    (run (fun _ => true) [EnableFile (lit "a.txt"); SetLevel WARN]
       (default (mkGlobal None None NONE [] DEBUG, mkSys [] ∅) (match instance (mkSys [] ∅) with Ok x => Some x | _ => None end))).2
  = Ok x'.
Proof.
  apply (library_logging_returns (fun _ => true) [EnableFile (lit "a.txt"); SetLevel WARN] (mkSys [] ∅)).
  - by vm_compute.
  - vm_compute. do 4 right. left.
Defined.

(** ** The factory *)

(** Creating a logger returns exactly when every comma-separated part of the
    format has no [=] or starts with it; otherwise a key of the format is
    compared after the string it refers to is gone.  What is created does not
    depend on the format: the layout it asks for is never used. *)
Theorem create_logger_format format l :
  (create_stdout format l = Ok (mkStdout empty_format l) <->
     Forall (fun t => find_char "=" t = None \/ find_char "=" t = Some 0%nat) (gettokens "," format)) /\
  (create_stdout format l = Ok (mkStdout empty_format l) \/ create_stdout format l = Undefined).
Proof.
  unfold create_stdout, parse_format. generalize (gettokens "," format). intros ts.
  assert ((format_tokens ts empty_format = Ok empty_format /\
           Forall (fun t => find_char "=" t = None \/ find_char "=" t = Some 0%nat) ts) \/
          (format_tokens ts empty_format = Undefined /\
           ~ Forall (fun t => find_char "=" t = None \/ find_char "=" t = Some 0%nat) ts)) as [[-> H]|[-> H]].
  { induction ts as [|t ts IH]; [by left|]. cbn [format_tokens]. unfold format_token.
    destruct (find_char "=" t) as [[|i]|] eqn:E; cbn [Nat.eqb].
    - run_binds. destruct IH as [[-> H]|[-> H]]; [left|right]; (split; [done|]); [constructor; auto|by inversion 1].
    - right. split; [done|]. inversion 1 as [|?? [?|?]]; congruence.
    - run_binds. destruct IH as [[-> H]|[-> H]]; [left|right]; (split; [done|]); [constructor; auto|by inversion 1]. }
  - run_binds. split; [done|by left].
  - run_binds. split; [done|by right].
Qed.

End Log.
