(* ===== verification/Loggers.v ===== *)
(** * Loggers shared by threads

    Models src/include/log/Log.bak.hpp, the earlier version of the logger: loggers
    come from the factory, there is no global one, and threads call [log] on the
    loggers they share.  Up to [LoggerFactory] the text is that of Log.hpp, so what is
    said here of loggers and threads holds there as well.

    The time of a line is part of the call.  The code takes it from [std::localtime],
    whose result is an object that all threads share, before it has the mutex: two
    threads that format at once race for it, which is not modelled.

    A thread formats its line, waits for [g_log_mutex], writes the line to the
    stream of the logger character by character, and releases the mutex; any thread
    can run between two such steps, and a file stream can write out what it has
    kept at any time.  The loggers are created before the threads start and are
    destroyed after they have ended.

    The theorems: logging ends, every line arrives whole, each thread's lines in its
    order; and this needs one logger per file. *)

From S2P Require Import Prelude Threads StdString FileTool Format Log.
Import FileTool.

Module Loggers.

(** The enumeration, the names of the levels and the format are those of Log.hpp. *)
Definition LogLevel : Type := Log.LogLevel.
Definition LevelToString : LogLevel -> str := Log.LevelToString.
Definition LogFormat : Type := Log.LogFormat.
Definition kLogFormat : str := Log.kLogFormat.

(** ** Loggers *)

(** Where a logger writes: [StdoutLogger] to standard output, [FileLogger] to its
    file, whose stream may have failed to open. *)
Inductive target : Type := Cout | Ofs (file_path_ : str) (opened : bool).

#[global] Instance target_eq_dec : EqDecision target.
Proof. solve_decision. Defined.

Record logger : Type := mkLogger { format_ : LogFormat; min_level_ : LogLevel; target_ : target }.

Definition is_cout (l : logger) : bool := match target_ l with Cout => true | Ofs _ _ => false end.

(** A call of [log] on a logger, given by its number. *)
Abbreviation call := (nat * Log.message)%type.

(** A call of [createLogger]: for a [FileLogger] with its path. *)
Record request : Type := mkRequest { r_format : str; r_level : LogLevel; r_path : option str }.

Section loggers.
Context (can_open : str -> bool).

(** The constructors of the two classes. *)
Definition new_logger (f : LogFormat) (r : request) (d : files) : logger * files :=
  match r_path r with
  | None => (mkLogger f (r_level r) Cout, d)
  | Some p => (mkLogger f (r_level r) (Ofs p (can_open p)), open_append can_open p d)
  end.

(** [LoggerFactory::createLogger] *)
Definition createLogger (r : request) (d : files) : outcome (logger * files) :=
  f ← Log.parse_format (r_format r); Ok (new_logger f r d).

Fixpoint create_all (rs : list request) (d : files) : outcome (list logger * files) :=
  match rs with
  | [] => Ok ([], d)
  | r :: rs => '(l, d) ← createLogger r d; '(ls, d) ← create_all rs d; Ok (l :: ls, d)
  end.

(** [~FileLogger()] with what its stream has kept. *)
Definition destroy (l : logger) (kept : str) (d : files) : files :=
  match target_ l with
  | Ofs p true => append_to p kept d
  | _ => d
  end.

Fixpoint destroy_all (ls : list logger) (ps : list str) (d : files) : files :=
  match ls, ps with
  | l :: ls, p :: ps => destroy_all ls ps (destroy l p d)
  | _, _ => d
  end.

(** ** Threads *)

(** Where a thread is: between calls; in [output] before the mutex; or writing with
    the mutex, with what is written and what is left. *)
Inductive phase : Type :=
| Ready
| AtLock (i : nat) (line : str)
| Writing (i : nat) (done rest : str).

Record thread : Type := mkThread { todo : list call; phase_ : phase }.

Record world : Type := mk {
  stdout : str;
  disk : files;
  kept : list str;                      (** what the stream of each logger has not written out *)
  g_log_mutex : option nat;             (** the thread that has the mutex *)
  threads : list thread;
  history : list (nat * (nat * str))    (** the lines written: by which thread, to which logger *)
}.

Definition set_thread (t : nat) (th : thread) (w : world) : world :=
  mk (stdout w) (disk w) (kept w) (g_log_mutex w) (<[t := th]> (threads w)) (history w).

Section threads.
Context (loggers : list logger).

(** [Logger::log] up to the call of [output]; a line that is filtered out, or whose
    formatting throws, is not written. *)
Definition log (i : nat) (m : Log.message) (rest : list call) : option thread :=
  l ← loggers !! i;
  match Log.log (min_level_ l) m with
  | Ok (Some line) => Some (mkThread rest (AtLock i line))
  | Ok None | Throw _ => Some (mkThread rest Ready)
  | _ => None
  end.

(** One character of [std::cout << log_message] or [file_ << log_message]. *)
Definition put (i : nat) (c : ascii) (w : world) : world :=
  match target_ <$> loggers !! i with
  | Some Cout => mk (stdout w ++ [c]) (disk w) (kept w) (g_log_mutex w) (threads w) (history w)
  | Some (Ofs _ true) => mk (stdout w) (disk w) (alter (fun s => s ++ [c]) i (kept w)) (g_log_mutex w) (threads w) (history w)
  | _ => w
  end.

(** [output]: taking the mutex, writing, and releasing it. *)
Definition output (t : nat) (th : thread) (w : world) : option world :=
  match phase_ th with
  | Ready => None
  | AtLock i line =>
      match g_log_mutex w with
      | Some _ => None
      | None => Some (mk (stdout w) (disk w) (kept w) (Some t) (<[t := mkThread (todo th) (Writing i [] line)]> (threads w)) (history w))
      end
  | Writing i d (c :: r) => Some (put i c (set_thread t (mkThread (todo th) (Writing i (d ++ [c]) r)) w))
  | Writing i d [] =>
      Some (mk (stdout w) (disk w) (kept w) None (<[t := mkThread (todo th) Ready]> (threads w)) (history w ++ [(t, (i, d))]))
  end.

(** The next step of thread [t]. *)
Definition thread_step (t : nat) (w : world) : option world :=
  th ← threads w !! t;
  match phase_ th, todo th with
  | Ready, [] => None
  | Ready, (i, m) :: rest => th ← log i m rest; Some (set_thread t th w)
  | _, _ => output t th w
  end.

(** The stream of logger [i] writes out the first [n] characters it has kept. *)
Definition drain (i n : nat) (w : world) : option world :=
  l ← loggers !! i;
  s ← kept w !! i;
  match target_ l with
  | Ofs p true =>
      Some (mk (stdout w) (append_to p (take n s) (disk w)) (<[i := drop n s]> (kept w)) (g_log_mutex w) (threads w) (history w))
  | _ => None
  end.

Definition step (w w' : world) : Prop := exists t, thread_step t w = Some w'.
Definition any_step (w w' : world) : Prop := step w w' \/ exists i n, drain i n w = Some w'.

(** Before the threads run. *)
Definition start (out : str) (d : files) (programs : list (list call)) : world :=
  mk out d (replicate (length loggers) []) None ((fun p => mkThread p Ready) <$> programs) [].

(** ** What threads promise *)

(** The lines a program writes: those that are not filtered out, in its order. *)
Definition accepted1 (c : call) : list (nat * str) :=
  match loggers !! c.1 with
  | Some l => match Log.log (min_level_ l) c.2 with Ok (Some line) => [(c.1, line)] | _ => [] end
  | None => []
  end.
Definition accepted (p : list call) : list (nat * str) := p ≫= accepted1.

(** The lines of one thread, and the text that lines add to the loggers of a kind. *)
Definition by_thread (t : nat) (h : list (nat * (nat * str))) : list (nat * str) :=
  h ≫= fun x => if decide (x.1 = t) then [x.2] else [].
Definition text (P : nat -> bool) (xs : list (nat * str)) : str := xs ≫= fun x => if P x.1 then x.2 else [].

Definition to_cout (i : nat) : bool := match loggers !! i with Some l => is_cout l | None => false end.
Definition to_logger (i j : nat) : bool := bool_decide (i = j).

(** No two loggers write to one file. *)
Definition own_files : Prop :=
  forall i j l l' p o o', loggers !! i = Some l -> loggers !! j = Some l' ->
    target_ l = Ofs p o -> target_ l' = Ofs p o' -> i = j.

(** ** The invariant *)

(** The line being written. *)
Definition current (th : thread) : list (nat * str) :=
  match phase_ th with
  | Ready => []
  | AtLock i line => [(i, line)]
  | Writing i d r => [(i, d ++ r)]
  end.

Definition is_writing (th : thread) : bool := match phase_ th with Writing _ _ _ => true | _ => false end.

(** What is shown so far of the line the owner of the mutex writes. *)
Definition partial (w : world) : list (nat * str) :=
  match g_log_mutex w ≫= fun t => threads w !! t with
  | Some (mkThread _ (Writing i d _)) => [(i, d)]
  | _ => []
  end.
Definition shown (w : world) : list (nat * str) := (snd <$> history w) ++ partial w.

Record Inv (out : str) (d : files) (programs : list (list call)) (w : world) : Prop := {
  inv_mutex : mutex_ok is_writing (threads w) (g_log_mutex w);
  inv_out : stdout w = out ++ text to_cout (shown w);
  inv_kept : length (kept w) = length loggers;
  inv_files : forall i l p s, loggers !! i = Some l -> target_ l = Ofs p true -> kept w !! i = Some s ->
    contents p (disk w) ++ s = contents p d ++ text (to_logger i) (shown w);
  inv_lines : forall t, (by_thread t (history w) ++ current (default (mkThread [] Ready) (threads w !! t))) ++
      accepted (todo (default (mkThread [] Ready) (threads w !! t))) = accepted (default [] (programs !! t));
  inv_todo : forall t th, threads w !! t = Some th -> Forall (fun c => c.1 < length loggers) (todo th)
}.

Lemma text_app P xs ys : text P (xs ++ ys) = text P xs ++ text P ys.
Proof. apply bind_app. Qed.

Lemma by_thread_app t xs ys : by_thread t (xs ++ ys) = by_thread t xs ++ by_thread t ys.
Proof. apply bind_app. Qed.

Lemma lookup_thread (t t' : nat) th th' (ths : list thread) :
  ths !! t = Some th -> <[t := th']> ths !! t' = if decide (t = t') then Some th' else ths !! t'.
Proof.
  intros H%lookup_lt_Some. case_decide; [subst; by apply list_lookup_insert_eq|by apply list_lookup_insert_ne].
Qed.

(** What a thread does to its own part: the lines it has yet to write become part of
    the history, and nothing of the other threads changes. *)
Lemma lines_move out d programs w t th th' h :
  Inv out d programs w -> threads w !! t = Some th ->
  h ++ current th' ++ accepted (todo th') = current th ++ accepted (todo th) ->
  forall t', (by_thread t' (history w ++ ((fun x => (t, x)) <$> h)) ++
      current (default (mkThread [] Ready) (<[t := th']> (threads w) !! t'))) ++
      accepted (todo (default (mkThread [] Ready) (<[t := th']> (threads w) !! t'))) = accepted (default [] (programs !! t')).
Proof.
  intros Hinv Ht Hh t'. rewrite <- (inv_lines _ _ _ _ Hinv t'), (lookup_thread t t' th th') by done.
  rewrite by_thread_app, <- !app_assoc. f_equal. case_decide as E.
  - subst t'. rewrite Ht. cbn [default from_option id]. rewrite <- Hh. f_equal.
    clear. induction h as [|x h IH]; [done|]. cbn. rewrite decide_True by done. cbn. by f_equal.
  - assert (by_thread t' ((fun x => (t, x)) <$> h) = []) as ->; [|done].
    clear -E. induction h as [|x h IH]; [done|]. cbn. by rewrite decide_False.
Qed.

Lemma todo_move out d programs w t th th' :
  Inv out d programs w -> threads w !! t = Some th -> todo th' `suffix_of` todo th ->
  forall t' th1, <[t := th']> (threads w) !! t' = Some th1 -> Forall (fun c => c.1 < length loggers) (todo th1).
Proof.
  intros Hinv Ht [l Hl] t' th1. rewrite (lookup_thread t t' th th') by done. case_decide as E; [|apply Hinv].
  intros [= <-]. pose proof (inv_todo _ _ _ _ Hinv _ _ Ht) as H. rewrite Hl, Forall_app in H. apply H.
Qed.

(** A step that shows nothing new. *)
Lemma log_quiet_move out d programs w t th th' m h :
  Inv out d programs w -> threads w !! t = Some th -> todo th' `suffix_of` todo th ->
  h ++ current th' ++ accepted (todo th') = current th ++ accepted (todo th) ->
  (is_writing th' = true -> is_writing th = true \/ g_log_mutex w = None) ->
  m = (if is_writing th' then Some t else if is_writing th then None else g_log_mutex w) ->
  let w' := mk (stdout w) (disk w) (kept w) m (<[t := th']> (threads w)) (history w ++ ((fun x => (t, x)) <$> h)) in
  (forall P, text P (shown w') = text P (shown w)) -> Inv out d programs w'.
Proof.
  intros Hinv Ht Htd Hh Hfree Hm w' Hs. split; cbn [stdout disk kept g_log_mutex threads history w']; try done.
  - rewrite Hm. apply mutex_move; [apply Hinv|done|done].
  - rewrite Hs. apply Hinv.
  - apply Hinv.
  - intros i l p s Hi Hl Hk. rewrite Hs. by eapply (inv_files _ _ _ _ Hinv).
  - by apply (lines_move out d programs w t th).
  - by apply (todo_move out d programs w t th).
Qed.

Lemma partial_other w t th' m' h' out' disk' kept' :
  g_log_mutex w <> Some t -> m' = g_log_mutex w ->
  partial (mk out' disk' kept' m' (<[t := th']> (threads w)) h') = partial w.
Proof.
  intros Hm ->. unfold partial. cbn. destruct (g_log_mutex w) as [t'|]; [|done]. cbn.
  rewrite list_lookup_insert_ne by congruence. done.
Qed.

Lemma log_accepted i m rest th :
  log i m rest = Some th ->
  todo th = rest /\ is_writing th = false /\ current th ++ accepted rest = accepted ((i, m) :: rest).
Proof.
  unfold log, accepted. cbn [mbind list_bind]. unfold accepted1. cbn [fst snd]. destruct (loggers !! i) as [l|]; [|done]. cbn.
  destruct (Log.log (min_level_ l) m) as [[line|]|e| |]; intros [= <-]; done.
Qed.

Lemma log_step_inv out d programs w t i m rest th :
  Inv out d programs w -> threads w !! t = Some (mkThread ((i, m) :: rest) Ready) -> log i m rest = Some th ->
  Inv out d programs (set_thread t th w).
Proof.
  intros Hinv Ht (Hrest & Hw & Ha)%log_accepted. unfold set_thread.
  rewrite <- (app_nil_r (history w)). change [] with ((fun x : nat * str => (t, x)) <$> []).
  apply (log_quiet_move out d programs w t (mkThread ((i, m) :: rest) Ready) th _ []); try done; cbn [todo current phase_ app].
  - exists [(i, m)]. by rewrite Hrest.
  - by rewrite Hrest.
  - by rewrite Hw.
  - by rewrite Hw.
  - intros P. unfold shown. cbn [history fmap list_fmap]. rewrite app_nil_r, partial_other; try done.
    intros Hm. by apply (proj1 (inv_mutex _ _ _ _ Hinv) _ _ Ht) in Hm.
Qed.

Lemma lock_inv out d programs w t td i line :
  Inv out d programs w -> threads w !! t = Some (mkThread td (AtLock i line)) -> g_log_mutex w = None ->
  Inv out d programs (mk (stdout w) (disk w) (kept w) (Some t) (<[t := mkThread td (Writing i [] line)]> (threads w)) (history w)).
Proof.
  intros Hinv Ht Hm. rewrite <- (app_nil_r (history w)). change [] with ((fun x : nat * str => (t, x)) <$> []) at 2.
  apply (log_quiet_move out d programs w t (mkThread td (AtLock i line)) _ _ []); try done; [by right|].
  intros P. unfold shown, partial. cbn [history g_log_mutex threads fmap list_fmap mbind option_bind].
  rewrite Hm, app_nil_r, list_lookup_insert_eq by (by eapply lookup_lt_Some). cbn. rewrite !text_app. cbn. by destruct (P i).
Qed.

Lemma unlock_inv out d programs w t td i line :
  Inv out d programs w -> threads w !! t = Some (mkThread td (Writing i line [])) ->
  Inv out d programs (mk (stdout w) (disk w) (kept w) None (<[t := mkThread td Ready]> (threads w)) (history w ++ [(t, (i, line))])).
Proof.
  intros Hinv Ht. pose proof (proj1 (proj1 (inv_mutex _ _ _ _ Hinv) _ _ Ht) eq_refl) as Hm.
  apply (log_quiet_move out d programs w t (mkThread td (Writing i line [])) _ _ [(i, line)]); try done.
  - cbn. by rewrite app_nil_r.
  - intros P. unfold shown, partial. cbn. rewrite Hm. cbn. rewrite Ht, fmap_app. cbn. by rewrite app_nil_r.
Qed.

(** Writing a character, for the stream that gets it. *)
Lemma text_shown_put w w' t td i di c r P :
  threads w !! t = Some (mkThread td (Writing i di (c :: r))) -> g_log_mutex w = Some t ->
  history w' = history w -> g_log_mutex w' = Some t ->
  threads w' = <[t := mkThread td (Writing i (di ++ [c]) r)]> (threads w) ->
  text P (shown w') = text P (shown w) ++ if P i then [c] else [].
Proof.
  intros Ht Hm Hh Hm' Hth. unfold shown, partial. rewrite Hh, Hm, Hm', Hth. cbn.
  rewrite Ht, list_lookup_insert_eq by (by eapply lookup_lt_Some). rewrite !text_app. cbn. destruct (P i); cbn; by rewrite !app_nil_r, ?app_assoc.
Qed.

Lemma put_threads i c w :
  threads (put i c w) = threads w /\ history (put i c w) = history w /\ g_log_mutex (put i c w) = g_log_mutex w /\
  disk (put i c w) = disk w.
Proof. unfold put. by destruct (loggers !! i) as [[? ? [|? []]]|]. Qed.

Lemma put_stdout i c w : stdout (put i c w) = stdout w ++ if to_cout i then [c] else [].
Proof.
  unfold put, to_cout, is_cout. destruct (loggers !! i) as [[? ? [|? []]]|]; cbn; by rewrite ?app_nil_r.
Qed.

Lemma put_kept i c w j l p s :
  loggers !! j = Some l -> target_ l = Ofs p true -> kept (put i c w) !! j = Some s ->
  exists s0, kept w !! j = Some s0 /\ s = s0 ++ if to_logger j i then [c] else [].
Proof.
  intros Hj Hl. unfold put, to_logger. destruct (decide (j = i)) as [->|Hne].
  - rewrite Hj. cbn. rewrite Hl, bool_decide_eq_true_2 by done. cbn. rewrite list_lookup_alter_eq.
    intros (s0 & H0 & ->)%fmap_Some_1. by exists s0.
  - rewrite bool_decide_eq_false_2 by done. intros Hs. exists s. rewrite app_nil_r. split; [|done].
    destruct (loggers !! i) as [[? ? [|? []]]|]; try done. cbn in Hs. by rewrite list_lookup_alter_ne in Hs.
Qed.

Lemma put_length i c w : length (kept (put i c w)) = length (kept w).
Proof. unfold put. destruct (loggers !! i) as [[? ? [|? []]]|]; try done. apply length_alter. Qed.

Lemma put_inv out d programs w t td i di c r :
  Inv out d programs w -> threads w !! t = Some (mkThread td (Writing i di (c :: r))) ->
  Inv out d programs (put i c (set_thread t (mkThread td (Writing i (di ++ [c]) r)) w)).
Proof.
  intros Hinv Ht. pose proof (proj1 (proj1 (inv_mutex _ _ _ _ Hinv) _ _ Ht) eq_refl) as Hm.
  set (w1 := set_thread t _ w). destruct (put_threads i c w1) as (H1 & H2 & H3 & H4).
  assert (forall P, text P (shown (put i c w1)) = text P (shown w) ++ if P i then [c] else []) as Hs.
  { intros P. apply (text_shown_put w _ t td i di c r P Ht Hm H2); [by rewrite H3|by rewrite H1]. }
  pose proof (mutex_move is_writing _ _ t _ (mkThread td (Writing i (di ++ [c]) r)) (inv_mutex _ _ _ _ Hinv) Ht) as Hmm.
  split; rewrite ?H1, ?H2, ?H3, ?H4; cbn [threads history g_log_mutex disk set_thread w1]; rewrite ?Hm; try done.
  - apply Hmm. by left.
  - rewrite put_stdout, Hs. cbn. by rewrite (inv_out _ _ _ _ Hinv), app_assoc.
  - rewrite put_length. apply Hinv.
  - intros j l p s Hj Hl Hk. destruct (put_kept i c w1 j l p s Hj Hl Hk) as (s0 & H0 & ->).
    rewrite Hs, app_assoc. cbn in H0. rewrite (inv_files _ _ _ _ Hinv j l p s0 Hj Hl H0). by rewrite app_assoc.
  - intros t'. rewrite <- (app_nil_r (history w)). change [] with ((fun x : nat * str => (t, x)) <$> []) at 1.
    apply (lines_move out d programs w t (mkThread td (Writing i di (c :: r)))); [done..|]. cbn. by rewrite <- app_assoc.
  - by apply (todo_move out d programs w t (mkThread td (Writing i di (c :: r)))).
Qed.

Lemma thread_step_inv out d programs t w w' :
  Inv out d programs w -> thread_step t w = Some w' -> Inv out d programs w'.
Proof.
  intros Hinv (th & Ht & Hs)%bind_Some. destruct th as [td ph]. cbn [phase_ todo] in Hs.
  destruct ph as [|i line|i di r].
  - destruct td as [|[i m] rest]; [done|]. apply bind_Some in Hs as (th & Hl & [= <-]). by eapply log_step_inv.
  - unfold output in Hs. cbn in Hs. destruct (g_log_mutex w) eqn:Hm; [done|]. injection Hs as <-. by apply lock_inv with (i := i) (line := line).
  - unfold output in Hs. cbn in Hs. destruct r as [|c r]; injection Hs as <-; [by apply unlock_inv|by apply put_inv].
Qed.

Lemma drain_inv out d programs i n w w' :
  own_files -> Inv out d programs w -> drain i n w = Some w' -> Inv out d programs w'.
Proof.
  intros Hown Hinv (l & Hl & (s & Hs & H)%bind_Some)%bind_Some. destruct (target_ l) as [|p []] eqn:Htg; try done.
  injection H as <-. pose proof Hinv as [H1 H3 H4 H5 H6 H7].
  split; cbn [stdout disk kept g_log_mutex threads history]; try done.
  - by rewrite length_insert.
  - intros j l' p' s' Hj Hl' Hk. change (shown _) with (shown w). rewrite contents_append.
    apply list_lookup_insert_Some in Hk as [(<- & <- & _)|[Hne Hk]].
    + assert (l' = l) as -> by congruence. assert (p' = p) as -> by congruence. rewrite decide_True by done.
      rewrite <- app_assoc, take_drop. by apply (H5 i l p s).
    + rewrite decide_False, app_nil_r; [by apply (H5 j l' p' s')|]. intros ->. by apply Hne, (Hown i j l l' p true true).
Qed.

Lemma loggers_start_inv out d programs :
  Forall (Forall (fun c : call => c.1 < length loggers)) programs -> Inv out d programs (start out d programs).
Proof.
  intros Hp. assert (forall t, ((fun p => mkThread p Ready) <$> programs) !! t = (fun p => mkThread p Ready) <$> programs !! t) as Hl
    by (intros; apply list_lookup_fmap).
  split; cbn [start stdout disk kept g_log_mutex threads history]; try done.
  - split; [|done]. intros t th. rewrite Hl. by intros (p & _ & ->)%fmap_Some_1.
  - by rewrite app_nil_r.
  - apply length_replicate.
  - intros i l p s _ _ [-> _]%lookup_replicate_1. by rewrite !app_nil_r.
  - intros t. rewrite Hl. by destruct (programs !! t).
  - intros t th. rewrite Hl. intros (p & Hpt & ->)%fmap_Some_1. rewrite Forall_lookup in Hp. by apply (Hp t).
Qed.

Lemma loggers_reachable_inv out d programs w :
  own_files -> Forall (Forall (fun c : call => c.1 < length loggers)) programs ->
  rtc any_step (start out d programs) w -> Inv out d programs w.
Proof.
  intros Hown Hp Hr. remember (start out d programs) as w0 eqn:Hw0.
  assert (Inv out d programs w0) as Hinv by (subst; by apply loggers_start_inv). clear Hw0.
  induction Hr as [|w1 w2 w3 [[t Ht]|(i & n & Hd)] _ IH]; [done|..]; apply IH; [by eapply thread_step_inv|by eapply drain_inv].
Qed.

(** ** Termination *)

(** How many steps a call, and what is left of one, can take. *)
Definition call_cost (c : call) : nat := match accepted1 c with [] => 1 | x :: _ => 3 + length x.2 end.
Definition phase_cost (ph : phase) : nat :=
  match ph with Ready => 0 | AtLock _ line => 2 + length line | Writing _ _ r => 1 + length r end.
Definition cost (th : thread) : nat := phase_cost (phase_ th) + sum_list_with call_cost (todo th).
Definition measure (w : world) : nat := sum_list_with cost (threads w).

Lemma thread_step_moves t w w' :
  thread_step t w = Some w' ->
  exists th th', threads w !! t = Some th /\ threads w' = <[t := th']> (threads w) /\ cost th' < cost th.
Proof.
  intros ([td ph] & Ht & Hs)%bind_Some. cbn [phase_ todo] in Hs. exists (mkThread td ph). unfold cost.
  destruct ph as [|i line|i di r].
  - destruct td as [|[i m] rest]; [done|]. apply bind_Some in Hs as (th & Hl & [= <-]). exists th. split; [done|]. split; [done|].
    unfold log in Hl. cbn [sum_list_with todo phase_ phase_cost]. unfold call_cost at 2, accepted1. cbn [fst snd].
    destruct (loggers !! i) as [l|]; [|done]. cbn [mbind option_bind] in Hl.
    destruct (Log.log (min_level_ l) m) as [[line|]|e| |]; try done; injection Hl as <-; cbn; lia.
  - unfold output in Hs. cbn in Hs. destruct (g_log_mutex w); [done|]. injection Hs as <-.
    exists (mkThread td (Writing i [] line)). split; [done|]. split; [done|]. cbn. lia.
  - unfold output in Hs. cbn in Hs. destruct r as [|c r]; injection Hs as <-.
    + exists (mkThread td Ready). split; [done|]. split; [done|]. cbn. lia.
    + exists (mkThread td (Writing i (di ++ [c]) r)). split; [done|]. split; [apply put_threads|]. cbn. lia.
Qed.

Lemma step_measure w w' : step w w' -> measure w' < measure w.
Proof.
  intros (t & (th & th' & Ht & Hth & Hc)%thread_step_moves). unfold measure. rewrite Hth.
  pose proof (sum_list_insert cost _ _ _ th' Ht). lia.
Qed.

Lemma steps_bounded n : forall w w', nsteps step n w w' -> n <= measure w.
Proof.
  induction n as [|n IH]; intros w w' H; [lia|]. inversion H as [|? ? w1 ? Hs Hn]; subst.
  apply step_measure in Hs. apply IH in Hn. lia.
Qed.

(** Threads that can make no step are done: the owner of the mutex can always go
    on, and when there is none any waiting thread can take it. *)
Lemma stuck_done out d programs w :
  Inv out d programs w -> (forall t, thread_step t w = None) ->
  g_log_mutex w = None /\ forall t th, threads w !! t = Some th -> th = mkThread [] Ready.
Proof.
  intros Hinv Hst. assert (forall t th, threads w !! t = Some th -> is_writing th = false) as Hw.
  { intros t [td ph] Ht. destruct (is_writing _) eqn:E; [|done]. specialize (Hst t). unfold thread_step in Hst. rewrite Ht in Hst.
    destruct ph as [| |i di [|c r]]; by cbn in Hst. }
  assert (g_log_mutex w = None) as Hm.
  { destruct (g_log_mutex w) as [t|] eqn:Hm; [|done]. destruct (proj2 (inv_mutex _ _ _ _ Hinv) t Hm) as [th Ht].
    pose proof (Hw t th Ht) as Hf. apply (proj1 (inv_mutex _ _ _ _ Hinv) _ _ Ht) in Hm. congruence. }
  split; [done|]. intros t [td ph] Ht. specialize (Hst t). unfold thread_step in Hst. rewrite Ht in Hst. cbn in Hst.
  destruct ph as [|i line|i di r]; [|unfold output in Hst; cbn in Hst; by rewrite Hm in Hst|by specialize (Hw _ _ Ht)].
  destruct td as [|[i m] rest]; [done|]. exfalso. pose proof (inv_todo _ _ _ _ Hinv _ _ Ht) as Hf. cbn in Hf.
  apply Forall_cons in Hf as [Hi _]. cbn in Hi. apply lookup_lt_is_Some in Hi as [l Hl].
  unfold log in Hst. rewrite Hl in Hst. cbn in Hst. by destruct (Log.log_returns (min_level_ l) m) as [[[line|] E]|[e E]]; rewrite E in Hst.
Qed.

(** What the destructors leave in the file of one logger. *)
Lemma contents_destroy l kept0 d p :
  contents p (destroy l kept0 d) = contents p d ++ if decide (target_ l = Ofs p true) then kept0 else [].
Proof.
  unfold destroy. destruct (target_ l) as [|q []]; [by rewrite decide_False, app_nil_r|..|rewrite decide_False, app_nil_r; [done|congruence]].
  rewrite contents_append. destruct (decide (p = q)) as [->|Hne]; [by rewrite decide_True|]. rewrite decide_False; [done|congruence].
Qed.

End threads.

Lemma contents_destroy_other ls : forall ps d p,
  (forall i l o, ls !! i = Some l -> target_ l <> Ofs p o) -> contents p (destroy_all ls ps d) = contents p d.
Proof.
  induction ls as [|l ls IH]; intros [|k ps] d p Hne; cbn [destroy_all]; try done.
  rewrite IH by (intros i; apply (Hne (S i))). rewrite contents_destroy, decide_False by (by apply (Hne 0)). by rewrite app_nil_r.
Qed.

Lemma contents_destroy_all ls : forall ps d i l p s,
  own_files ls -> ls !! i = Some l -> target_ l = Ofs p true -> ps !! i = Some s ->
  contents p (destroy_all ls ps d) = contents p d ++ s.
Proof.
  induction ls as [|l0 ls IH]; intros [|k ps] d i l p s Hown Hi Hl Hs; try done. cbn [destroy_all].
  destruct i as [|i].
  - injection Hi as ->. injection Hs as ->. rewrite contents_destroy_other, contents_destroy, decide_True; [done..|].
    intros j l' o Hj Hl'. by pose proof (Hown 0 (S j) l l' p true o eq_refl Hj Hl Hl').
  - rewrite (IH ps _ i l p s); [|by intros a b la lb q o o' Ha Hb Hqa Hqb; injection (Hown (S a) (S b) la lb q o o' Ha Hb Hqa Hqb)|done..].
    rewrite contents_destroy, decide_False, app_nil_r; [done|]. intros H0. by pose proof (Hown 0 (S i) l0 l p true true eq_refl Hi H0 Hl).
Qed.

(** What the factory made for a request. *)
Definition made_for (r : request) (l : logger) : Prop :=
  min_level_ l = r_level r /\ target_ l = match r_path r with None => Cout | Some p => Ofs p (can_open p) end.

Lemma create_all_made rs : forall d ls d',
  create_all rs d = Ok (ls, d') -> Forall2 made_for rs ls /\ forall p, contents p d' = contents p d.
Proof.
  induction rs as [|r rs IH]; intros d ls d'; cbn [create_all]; [by intros [= <- <-]|]. unfold createLogger.
  destruct (Log.parse_format (r_format r)) as [f| | |]; run_binds; try done.
  destruct (new_logger f r d) as [l d1] eqn:Hn. destruct (create_all rs d1) as [[ls1 d2]| | |] eqn:Hc; run_binds; try done.
  intros [= <- <-]. destruct (IH _ _ _ Hc) as [H1 H2]. unfold new_logger in Hn. split.
  - constructor; [|done]. unfold made_for. by destruct (r_path r); injection Hn as <- <-.
  - intros p. rewrite H2. destruct (r_path r); injection Hn as <- <-; [apply contents_open|done].
Qed.

(** Every request for a file names a file of its own. *)
Definition own_paths (rs : list request) : Prop :=
  forall i j r r' p, rs !! i = Some r -> rs !! j = Some r' -> r_path r = Some p -> r_path r' = Some p -> i = j.

Lemma made_own_files rs ls : Forall2 made_for rs ls -> own_paths rs -> own_files ls.
Proof.
  intros Hm Hown i j l l' p o o' Hi Hj Hl Hl'.
  destruct (Forall2_lookup_r _ _ _ _ _ Hm Hi) as (r & Hr & _ & Ht). destruct (Forall2_lookup_r _ _ _ _ _ Hm Hj) as (r' & Hr' & _ & Ht').
  apply (Hown i j r r' p Hr Hr'); [rewrite Hl in Ht|rewrite Hl' in Ht']; [destruct (r_path r)|destruct (r_path r')]; congruence.
Qed.

(** When no thread can make a step: the lines of each thread, and what the sinks hold. *)
Lemma lines_written ls out d programs w :
  own_files ls -> Forall (Forall (fun c : call => c.1 < length ls)) programs ->
  rtc (any_step ls) (start ls out d programs) w -> (forall t, thread_step ls t w = None) ->
  (forall t, by_thread t (history w) = accepted ls (default [] (programs !! t))) /\
  stdout w = out ++ text (to_cout ls) (snd <$> history w) /\
  (forall i l p, ls !! i = Some l -> target_ l = Ofs p true ->
     contents p (destroy_all ls (kept w) (disk w)) = contents p d ++ text (to_logger i) (snd <$> history w)).
Proof.
  intros Hof Hp Hr Hst. pose proof (loggers_reachable_inv ls out d programs w Hof Hp Hr) as Hinv.
  destruct (stuck_done ls _ _ _ _ Hinv Hst) as [Hmu Hth].
  assert (shown w = snd <$> history w) as Hs by (unfold shown, partial; rewrite Hmu; apply app_nil_r). split; [|split].
  - intros t. rewrite <- (inv_lines _ _ _ _ _ Hinv t).
    destruct (threads w !! t) as [th|] eqn:E; [rewrite (Hth _ _ E)|]; cbn; by rewrite !app_nil_r.
  - rewrite <- Hs. apply Hinv.
  - intros i l p Hl Ht. assert (is_Some (kept w !! i)) as [s Hk].
    { apply lookup_lt_is_Some. rewrite (inv_kept _ _ _ _ _ Hinv). by eapply lookup_lt_Some. }
    rewrite (contents_destroy_all ls _ _ i l p s) by done. rewrite (inv_files _ _ _ _ _ Hinv i l p s) by done. by rewrite Hs.
Qed.

(** C20: threads that share loggers write whole lines. For loggers of which no two have
    the same file, any programs of the threads and any interleaving of their steps and
    of the streams writing out: the threads make a bounded number of steps, and when
    none is left, all calls have returned, the lines form one sequence in which the
    lines of each thread are exactly those its calls produce, in order, and standard
    output and, once the loggers are destroyed, each file that could be opened hold what
    they held before and the lines of that sequence sent there, one after the other. *)
Theorem threads_write_whole_lines rs out d ls d' programs w :
  create_all rs d = Ok (ls, d') -> own_paths rs ->
  Forall (Forall (fun c : call => c.1 < length rs)) programs ->
  rtc (any_step ls) (start ls out d' programs) w ->
  (forall n w', nsteps (step ls) n w w' -> n <= measure ls w) /\
  ((forall t, thread_step ls t w = None) ->
     (forall t p, programs !! t = Some p -> by_thread t (history w) = accepted ls p) /\
     stdout w = out ++ text (to_cout ls) (snd <$> history w) /\
     (forall i r p, rs !! i = Some r -> r_path r = Some p -> can_open p = true ->
        contents p (destroy_all ls (kept w) (disk w)) = contents p d ++ text (to_logger i) (snd <$> history w))).
Proof.
  intros Hc Hown Hp Hr. destruct (create_all_made _ _ _ _ Hc) as [Hm Hd]. pose proof (made_own_files _ _ Hm Hown) as Hof.
  rewrite (Forall2_length _ _ _ Hm) in Hp. split; [intros n w'; apply steps_bounded|]. intros Hst.
  destruct (lines_written ls out d' programs w Hof Hp Hr Hst) as (Hl & Ho & Hf).
  split; [intros t p Ht; by rewrite Hl, Ht|]. split; [done|]. intros i r p Hi Hpath Hopen. destruct (Forall2_lookup_l _ _ _ _ _ Hm Hi) as (l & Hli & _ & Ht). rewrite Hpath, Hopen in Ht.
  by rewrite (Hf i l p Hli Ht), Hd.
Qed.

End loggers.

(** ** Schedules *)

(** A run: steps of threads, and streams writing out. *)
Fixpoint schedule (ls : list logger) (es : list (nat + nat * nat)) (w : world) : option world :=
  match es with
  | [] => Some w
  | inl t :: es => w ← thread_step ls t w; schedule ls es w
  | inr (i, n) :: es => w ← drain ls i n w; schedule ls es w
  end.

Lemma schedule_steps ls es : forall w w', schedule ls es w = Some w' -> rtc (any_step ls) w w'.
Proof.
  induction es as [|[t|[i n]] es IH]; intros w w'; cbn [schedule]; [by intros [= <-]|..];
    intros (w1 & H1 & H2)%bind_Some; (eapply rtc_l; [|by eapply IH]); [left; by exists t|right; by exists i, n].
Qed.

Definition message (l : Log.LogLevel) (s : str) : Log.message := Log.mkMessage l (lit "a.cpp") 7 s [] (Log.mkTm 125 0 1 12 30 0).

(** Loggers with the default format. *)
Lemma create_default can_open l l' p d :
  create_all can_open [mkRequest kLogFormat l None; mkRequest kLogFormat l' (Some p)] d =
  Ok ([mkLogger Log.empty_format l Cout; mkLogger Log.empty_format l' (Ofs p (can_open p))], open_append can_open p d).
Proof. cbn [create_all]. unfold createLogger. cbn [r_format]. unfold kLogFormat. rewrite Log.parse_kLogFormat. by run_binds. Qed.

(** Two threads and two loggers: standard output from WARN on, and a file. *)
Definition sample_requests : list request :=
  [mkRequest kLogFormat Log.WARN None; mkRequest kLogFormat Log.DEBUG (Some (lit "a.txt"))].
Definition sample_programs : list (list call) :=
  [[(0, message Log.INFO (lit "no")); (1, message Log.INFO (lit "x"))]; [(1, message Log.DEBUG (lit "y")); (0, message Log.ERROR (lit "z"))]].
Definition sample_loggers : list logger :=
  [mkLogger Log.empty_format Log.WARN Cout; mkLogger Log.empty_format Log.DEBUG (Ofs (lit "a.txt") true)].
Definition sample_disk : files := open_append (fun _ => true) (lit "a.txt") ∅.
Definition sample_start : world := start sample_loggers [] sample_disk sample_programs.
Definition sample_schedule : list (nat + nat * nat) :=
  [inl 0; inl 0; inl 1; inl 0; inr (1, 0)] ++ replicate 20 (inl 0) ++ [inr (1, 5)] ++ replicate 23 (inl 0) ++ replicate 91 (inl 1).
Definition sample_world : world := default sample_start (schedule sample_loggers sample_schedule sample_start).

Lemma threads_write_whole_lines_witness :
  stdout sample_world = lit "[ERROR][2025-01-01 12:30:00][a.cpp][7] : z" ++ [newline] /\
  contents (lit "a.txt") (destroy_all sample_loggers (kept sample_world) (disk sample_world)) =
    lit "[INFO][2025-01-01 12:30:00][a.cpp][7] : x" ++ newline :: lit "[DEBUG][2025-01-01 12:30:00][a.cpp][7] : y" ++ [newline].
Proof.
  destruct (threads_write_whole_lines (fun _ => true) sample_requests [] ∅ sample_loggers sample_disk sample_programs sample_world)
    as [_ (_ & Hout & Hfile)].
  - by apply create_default.
  - intros [|[|i]] [|[|j]] r r' p H1 H2 H3 H4; try done; [injection H1 as <-|injection H2 as <-]; done.
  - repeat constructor.
  - apply (schedule_steps _ sample_schedule). by vm_compute.
  - intros [|[|t]]; by vm_compute.
  - split; [rewrite Hout; by vm_compute|].
    rewrite (Hfile 1 (mkRequest kLogFormat Log.DEBUG (Some (lit "a.txt"))) (lit "a.txt")) by done. by vm_compute.
Defined.

(** Two loggers of one file cut each other's lines: the mutex orders what is given
    to the streams, and each stream writes its part out when it likes. *)
Lemma shared_file_cuts_lines :
  exists w,
    let ls := [mkLogger Log.empty_format Log.DEBUG (Ofs (lit "a.txt") true); mkLogger Log.empty_format Log.DEBUG (Ofs (lit "a.txt") true)] in
    rtc (any_step ls) (start ls [] sample_disk [[(0, message Log.INFO (lit "x")); (1, message Log.INFO (lit "y"))]]) w /\
    (forall t, thread_step ls t w = None) /\
    contents (lit "a.txt") (destroy_all ls (kept w) (disk w)) =
      lit "[INFO][[INFO][2025-01-01 12:30:00][a.cpp][7] : y" ++ newline :: lit "2025-01-01 12:30:00][a.cpp][7] : x" ++ [newline].
Proof.
  eexists. cbv zeta. split.
  - apply (schedule_steps _ (replicate 45 (inl 0) ++ [inr (0, 7)] ++ replicate 45 (inl 0) ++ [inr (1, 100)])). vm_compute. reflexivity.
  - split; [by intros [|t]; vm_compute|]. vm_compute. reflexivity.
Qed.

End Loggers.
