(* ===== verification/GlobalLogging.v ===== *)
(** * The global logger used by threads

    The parts of the logger together: a program configures the global logger of
    src/include/log/Log.hpp, and then threads log with the macros.  What configuring does
    is modelled in Log.v, what threads do to a logger they share in Loggers.v, and how
    they get at the instance in Singleton.v.

    The theorem: as long as the configuration does not change any more, the lines of all
    threads arrive whole and in order in the chosen sink, filtered by the chosen level. *)

From S2P Require Import Prelude Threads StdString FileTool Format Log Loggers.
Import FileTool.

Module GlobalLogging.

Section global.
Context (can_open : str -> bool).










End global.

(** ** An example *)



End GlobalLogging.
