(* ===== verification/Coroutine.v ===== *)
(** * Coroutine frames

    The language's coroutine handles, as src/include/coro/ uses them: a frame is
    allocated when a coroutine function is called, a handle is its address, and
    the frame lives until [destroy()].  Using a handle whose frame was destroyed is
    undefined.  What a frame holds is up to the promise type. *)

From S2P Require Import Prelude.

Abbreviation handle := nat.

Record frames (F : Type) : Type := mkFrames { live : gmap handle F; next_handle : handle }.
Arguments mkFrames {F} live next_handle.
Arguments live {F} f.
Arguments next_handle {F} f.

Section frames.
Context {F : Type}.
Implicit Types (h : handle) (f : F) (s : frames F).

Definition no_frames : frames F := mkFrames ∅ 0.

(** A new frame and its handle. *)
Definition alloc_frame f s : handle * frames F :=
  (next_handle s, mkFrames (<[next_handle s := f]> (live s)) (S (next_handle s))).

Definition get_frame h s : outcome F :=
  match live s !! h with Some f => Ok f | None => Undefined end.

Definition set_frame h f s : frames F := mkFrames (<[h := f]> (live s)) (next_handle s).

(** [handle.destroy()] *)
Definition destroy_frame h s : outcome (frames F) :=
  match live s !! h with Some _ => Ok (mkFrames (delete h (live s)) (next_handle s)) | None => Undefined end.

(** New handles are new. *)
Definition frames_ok s : Prop := forall h, next_handle s <= h -> live s !! h = None.

Lemma no_frames_ok : frames_ok no_frames.
Proof. intros h _. apply lookup_empty. Qed.

Lemma frames_lt s h f : frames_ok s -> live s !! h = Some f -> h < next_handle s.
Proof. intros Hok Hh. destruct (decide (h < next_handle s)) as [?|Hge]; [done|]. rewrite Hok in Hh; [done|lia]. Qed.

Lemma alloc_ok f s : frames_ok s -> frames_ok (alloc_frame f s).2.
Proof. intros Hok h Hh. cbn in *. rewrite lookup_insert_ne by lia. apply Hok. lia. Qed.

Lemma set_ok h f f' s : frames_ok s -> live s !! h = Some f -> frames_ok (set_frame h f' s).
Proof. intros Hok Hh h' Hh'. cbn in *. pose proof (frames_lt _ _ _ Hok Hh). rewrite lookup_insert_ne by lia. by apply Hok. Qed.

Lemma destroy_ok h s s' : frames_ok s -> destroy_frame h s = Ok s' -> frames_ok s'.
Proof.
  unfold destroy_frame. intros Hok. destruct (live s !! h); [|done]. intros [= <-] h' Hh'. cbn in *.
  apply lookup_delete_None. right. by apply Hok.
Qed.

End frames.
