(* ===== verification/Generator.v ===== *)
(** * Generators

    Models src/include/coro/Generator.hpp.  The body of a generator is the user's:
    here any state machine that, when resumed, yields a value, returns or throws,
    so that bodies that never end are included.  A frame holds the promise and
    where the body is suspended; generators and iterators hold handles, which may
    be null or, after the frame was destroyed, dangling.

    The theorems: what an iteration sees of a body, an exception included; and
    that generators own their frames, so that no frame is destroyed twice or left
    behind, and none is used after it was destroyed unless the program keeps an
    iterator for longer than its generator. *)

From S2P Require Import Prelude Ownership Coroutine.

Module Generator.

(** What a resumed body does. *)
Inductive event (T St : Type) : Type :=
| Yields (v : T) (st : St)
| Returns
| Throws (e : exn).
Arguments Yields {T St} v st.
Arguments Returns {T St}.
Arguments Throws {T St} e.

Section generator.
Context {T St : Type} (body : St -> event T St).

(** The promise, and the state of the body at its suspension point; [None] is the
    final suspension point. *)
Record frame : Type := mkFrame { value_ : option T; exception_ : option exn; suspended : option St }.

Abbreviation heap := (frames frame).
Implicit Types (s : heap) (h : handle).

(** Calling the coroutine function: [get_return_object] and [initial_suspend]. *)
Definition create (st : St) s : handle * heap := alloc_frame (mkFrame None None (Some st)) s.

(** ** Handles *)

Definition done_ (h : handle) s : outcome bool :=
  f ← get_frame h s; Ok (bool_decide (suspended f = None)).

(** [coro_.resume()]: the body runs to its next [co_yield] ([yield_value]), to its
    end ([return_void]) or to an exception ([unhandled_exception]); after the
    latter two it is at its final suspension point. *)
Definition resume (h : handle) s : outcome heap :=
  f ← get_frame h s;
  match suspended f with
  | None => Undefined
  | Some st =>
      Ok (set_frame h
            match body st with
            | Yields v st => mkFrame (Some v) (exception_ f) (Some st)
            | Returns => mkFrame (value_ f) (exception_ f) None
            | Throws e => mkFrame (value_ f) (Some e) None
            end s)
  end.

(** [if (!coro_ || coro_.done())] *)
Definition null_or_done (c : option handle) s : outcome bool :=
  match c with None => Ok true | Some h => done_ h s end.

(** [if (done()) ...; else if (promise().exception_) rethrow]: what is done after
    each resumption; the result says whether the body has ended. *)
Definition after_resume (h : handle) s : outcome bool :=
  d ← done_ h s;
  if (d : bool) then Ok true
  else f ← get_frame h s; match exception_ f with Some e => Throw e | None => Ok false end.

(** ** Iterators *)

Record iterator : Type := mkIter { coro_ : option handle; is_end_ : bool }.

Definition end_ : iterator := mkIter None true.

(** [explicit iterator(handle_t)] *)
Definition iterator_of (c : option handle) s : outcome iterator :=
  b ← null_or_done c s; Ok (mkIter c b).

Definition at_end (it : iterator) s : outcome bool :=
  if is_end_ it then Ok true else null_or_done (coro_ it) s.

(** [operator++] *)
Definition increment (it : iterator) s : outcome (iterator * heap) :=
  b ← at_end it s;
  match b, coro_ it with
  | true, _ | _, None => Ok (mkIter (coro_ it) true, s)
  | false, Some h =>
      s ← resume h s;
      d ← after_resume h s;
      Ok (mkIter (Some h) d, s)
  end.

(** [operator*] *)
Definition deref (it : iterator) s : outcome T :=
  b ← at_end it s;
  match b, coro_ it with
  | true, _ | _, None => Throw (RuntimeError (lit "Cannot dereference ended iterator"))
  | false, Some h => f ← get_frame h s; match value_ f with Some v => Ok v | None => Throw BadOptionalAccess end
  end.

(** [operator==] *)
Definition equal (a b : iterator) : bool :=
  if is_end_ a && is_end_ b then true
  else if negb (Bool.eqb (is_end_ a) (is_end_ b)) then false
  else bool_decide (coro_ a = coro_ b).

(** [operator!=], the postfix [operator++], and [operator->], which points to what
    [operator*] refers to. *)
Definition not_equal (a b : iterator) : bool := negb (equal a b).
Definition post_increment (it : iterator) s : outcome (iterator * heap) := increment it s.
Definition arrow (it : iterator) s : outcome T := deref it s.

(** ** Generators *)

(** A generator holds a handle or null. *)
Abbreviation generator := (option handle).

(** [begin()] *)
Definition begin (g : generator) s : outcome (iterator * heap) :=
  b ← null_or_done g s;
  match b, g with
  | true, _ | _, None => Ok (end_, s)
  | false, Some h =>
      it ← iterator_of (Some h) s;
      if is_end_ it then Ok (it, s)
      else
        s ← resume h s;
        d ← after_resume h s;
        Ok (mkIter (Some h) d, s)
  end.

(** [next()] *)
Definition next (g : generator) s : outcome (bool * heap) :=
  b ← null_or_done g s;
  match b, g with
  | true, _ | _, None => Ok (false, s)
  | false, Some h =>
      s ← resume h s;
      d ← after_resume h s;
      Ok (negb d, s)
  end.

(** [value()] returns the [std::optional<T>] of the promise as a [T], for the types that
    can be made of one. *)
Definition value (from_optional : option T -> T) (g : generator) s : outcome T :=
  b ← null_or_done g s;
  match b, g with
  | true, _ | _, None => Throw (RuntimeError (lit "No value available"))
  | false, Some h => f ← get_frame h s; Ok (from_optional (value_ f))
  end.

(** [operator bool] *)
Definition valid (g : generator) s : outcome bool := b ← null_or_done g s; Ok (negb b).

(** [~Generator()]; also what a move assignment does with its old frame. *)
Definition release (g : generator) s : outcome heap :=
  match g with None => Ok s | Some h => destroy_frame h s end.

(** ** Iterating *)

(** [begin()] and then [n] increments. *)
Fixpoint advance (n : nat) (it : iterator) s : outcome (iterator * heap) :=
  match n with
  | O => Ok (it, s)
  | S n => '(it, s) ← increment it s; advance n it s
  end.

Definition begin_advance (n : nat) (g : generator) s : outcome (iterator * heap) :=
  '(it, s) ← begin g s; advance n it s.

(** [for (auto& v : g)], with the values it sees. *)
Fixpoint for_loop (fuel : nat) (it : iterator) s : outcome (list T * heap) :=
  match fuel with
  | O => OutOfFuel
  | S fuel =>
      if not_equal it end_ then
        v ← deref it s;
        '(it, s) ← increment it s;
        '(vs, s) ← for_loop fuel it s;
        Ok (v :: vs, s)
      else Ok ([], s)
  end.

Definition range_for (fuel : nat) (g : generator) s : outcome (list T * heap) :=
  '(it, s) ← begin g s; for_loop fuel it s.

(** What the body does when it is resumed for the [n]-th time, counted from zero;
    a body that has ended stays at its end. *)
Fixpoint event_at (n : nat) (st : St) : event T St :=
  match body st, n with
  | Yields v st, O => Yields v st
  | Yields _ st, S n => event_at n st
  | e, _ => e
  end.

(** The same number of resumptions with [next()]: its last result. *)
Fixpoint nexts (n : nat) (g : generator) s : outcome (bool * heap) :=
  match n with
  | O => next g s
  | S n => '(_, s) ← nexts n g s; next g s
  end.

Definition ended (e : event T St) : bool := match e with Yields _ _ => false | _ => true end.

(** What the next resumption does, after [e]. *)
Definition after (e : event T St) : event T St := match e with Yields _ st => body st | e => e end.

Lemma event_at_S n st : event_at (S n) st = after (event_at n st).
Proof.
  revert st. induction n as [|n IH]; intros st.
  - cbn. destruct (body st) as [v st'| |e]; [|done..]. cbn. by destruct (body st').
  - cbn [event_at] in *. destruct (body st) as [v st'| |e]; [|done..]. apply IH.
Qed.

(** The frame after a resumption. *)
Definition stepped (st : St) (f : frame) : frame :=
  match body st with
  | Yields v st => mkFrame (Some v) (exception_ f) (Some st)
  | Returns => mkFrame (value_ f) (exception_ f) None
  | Throws e => mkFrame (value_ f) (Some e) None
  end.

Lemma done_live h f s : live s !! h = Some f -> done_ h s = Ok (bool_decide (suspended f = None)).
Proof. intros H. unfold done_, get_frame. by rewrite H. Qed.

Lemma resume_live h f st s :
  live s !! h = Some f -> suspended f = Some st -> resume h s = Ok (set_frame h (stepped st f) s).
Proof. intros H Hs. unfold resume, get_frame. rewrite H. run_binds. by rewrite Hs. Qed.

(** The test after a resumption: the body has ended or has yielded; an exception
    leaves the frame at its final suspension point, so it is never rethrown. *)
Lemma after_resume_live h f st s :
  exception_ f = None -> after_resume h (set_frame h (stepped st f) s) = Ok (ended (body st)).
Proof.
  intros He. assert (live (set_frame h (stepped st f) s) !! h = Some (stepped st f)) as Hl by apply lookup_insert_eq.
  unfold after_resume. rewrite (done_live _ _ _ Hl). run_binds. unfold get_frame. rewrite Hl. unfold stepped.
  destruct (body st); cbn; by rewrite ?He.
Qed.

(** An iterator into a frame whose last resumption was [e]. *)
Definition iterates (h : handle) (e : event T St) (it : iterator) s : Prop :=
  it = mkIter (Some h) (ended e) /\
  exists f, live s !! h = Some f /\
    match e with
    | Yields v st => f = mkFrame (Some v) None (Some st)
    | _ => suspended f = None
    end.

Lemma resume_iterates h f st s :
  live s !! h = Some f -> exception_ f = None ->
  iterates h (body st) (mkIter (Some h) (ended (body st))) (set_frame h (stepped st f) s).
Proof.
  intros Hl He. split; [done|]. exists (stepped st f). split; [apply lookup_insert_eq|].
  unfold stepped. destruct (body st); cbn; by rewrite ?He.
Qed.

Lemma increment_iterates h e it s :
  iterates h e it s ->
  exists it' s', increment it s = Ok (it', s') /\ iterates h (after e) it' s'.
Proof.
  intros [-> (f & Hl & Hf)]. unfold increment, at_end. cbn [is_end_ coro_]. destruct e as [v st| |e]; cbn [ended].
  - subst f. unfold null_or_done. rewrite (done_live _ _ _ Hl). run_binds. rewrite (resume_live _ _ st _ Hl eq_refl). run_binds.
    rewrite after_resume_live by done. run_binds. eexists _, _. split; [done|]. by apply resume_iterates.
  - run_binds. eexists _, _. split; [done|]. split; [done|]. by exists f.
  - run_binds. eexists _, _. split; [done|]. split; [done|]. by exists f.
Qed.

Lemma advance_iterates h st n : forall k it s,
  iterates h (event_at k st) it s ->
  exists it' s', advance n it s = Ok (it', s') /\ iterates h (event_at (k + n) st) it' s'.
Proof.
  induction n as [|n IH]; intros k it s Hi; [rewrite Nat.add_0_r; by exists it, s|].
  destruct (increment_iterates _ _ _ _ Hi) as (it1 & s1 & Hs & Hi1). rewrite <- event_at_S in Hi1.
  destruct (IH _ _ _ Hi1) as (it2 & s2 & Hs2 & Hi2). exists it2, s2. cbn [advance]. rewrite Hs. run_binds.
  split; [done|]. by replace (k + S n) with (S k + n) by lia.
Qed.

Lemma begin_live h f st s :
  live s !! h = Some f -> suspended f = Some st -> exception_ f = None ->
  begin (Some h) s = Ok (mkIter (Some h) (ended (body st)), set_frame h (stepped st f) s).
Proof.
  intros Hl Hs He. unfold begin, iterator_of, null_or_done. rewrite (done_live _ _ _ Hl), Hs. run_binds. cbn [bool_decide decide_rel].
  rewrite bool_decide_eq_false_2 by done. run_binds. cbn [is_end_].
  rewrite (resume_live _ _ _ _ Hl Hs). run_binds. by rewrite after_resume_live.
Qed.

(** [next()] resumes exactly when [++] does. *)
Lemma next_iterates h e it s it' s' :
  iterates h e it s -> increment it s = Ok (it', s') -> next (Some h) s = Ok (negb (is_end_ it'), s').
Proof.
  intros [-> (f & Hl & Hf)]. unfold increment, at_end, next. cbn [is_end_ coro_ null_or_done]. rewrite (done_live _ _ _ Hl).
  destruct e as [v st| |e]; cbn [ended]; run_binds.
  - subst f. cbn [bool_decide decide_rel suspended]. rewrite bool_decide_eq_false_2 by done. run_binds.
    rewrite (resume_live _ _ st _ Hl eq_refl). run_binds. rewrite after_resume_live by done. run_binds. by intros [= <- <-].
  - rewrite bool_decide_eq_true_2 by done. by intros [= <- <-].
  - rewrite bool_decide_eq_true_2 by done. by intros [= <- <-].
Qed.

Lemma next_live h f st s :
  live s !! h = Some f -> suspended f = Some st -> exception_ f = None ->
  next (Some h) s = Ok (negb (ended (body st)), set_frame h (stepped st f) s).
Proof.
  intros Hl Hs He. unfold next, null_or_done. rewrite (done_live _ _ _ Hl), Hs, bool_decide_eq_false_2 by done. run_binds.
  rewrite (resume_live _ _ _ _ Hl Hs). run_binds. by rewrite after_resume_live.
Qed.

Lemma advance_last n : forall it s,
  advance (S n) it s = '(it, s) ← advance n it s; increment it s.
Proof.
  induction n as [|n IH]; intros it s.
  - cbn. by destruct (increment it s) as [[]| | |].
  - cbn [advance] in *. destruct (increment it s) as [[it1 s1]| | |]; [|done..]. run_binds. apply IH.
Qed.

Lemma begin_advance_iterates n h st s :
  live s !! h = Some (mkFrame None None (Some st)) ->
  exists it s', begin_advance n (Some h) s = Ok (it, s') /\ nexts n (Some h) s = Ok (negb (is_end_ it), s') /\
    iterates h (event_at n st) it s'.
Proof.
  intros Hl. induction n as [|n (it & s' & H1 & H2 & H3)].
  - unfold begin_advance. rewrite (begin_live _ _ st _ Hl) by done. run_binds. eexists _, _. split; [done|].
    split; [by apply next_live|]. cbn [event_at].
    pose proof (resume_iterates _ _ st _ Hl eq_refl) as H. by destruct (body st).
  - destruct (increment_iterates _ _ _ _ H3) as (it2 & s2 & Hi & Hit). exists it2, s2.
    unfold begin_advance in *. cbn [nexts]. rewrite H2. run_binds.
    destruct (begin (Some h) s) as [[it0 s0]| | |]; try done. run_binds in H1. run_binds.
    rewrite advance_last, H1. run_binds. split; [done|]. split; [by eapply next_iterates|]. by rewrite event_at_S.
Qed.

(** C25: iterating a generator shows what its body yields.  After [begin()] and [n]
    increments the iterator equals [end()] exactly when the body ended before
    its [n]-th yield (counted from zero); until then it points to that value,
    afterwards it cannot be dereferenced.  Calling [next()] one time more than
    [n] resumes the body to the same point and says the same.  A body that
    throws looks as if it had returned: no call rethrows the exception. *)
Theorem iteration n st s0 :
  let '(h, s) := create st s0 in
  exists it s', begin_advance n (Some h) s = Ok (it, s') /\ nexts n (Some h) s = Ok (negb (equal it end_), s') /\
    equal it end_ = ended (event_at n st) /\
    deref it s' = match event_at n st with
                  | Yields v _ => Ok v
                  | _ => Throw (RuntimeError (lit "Cannot dereference ended iterator"))
                  end.
Proof.
  cbn [create alloc_frame]. destruct (begin_advance_iterates n (next_handle s0) st (create st s0).2) as (it & s' & H1 & H2 & -> & H3).
  { apply lookup_insert_eq. }
  eexists _, s'. split; [exact H1|].
  assert (equal (mkIter (Some (next_handle s0)) (ended (event_at n st))) end_ = ended (event_at n st)) as ->
    by (by destruct (event_at n st)).
  split; [exact H2|]. split; [done|]. destruct H3 as (f & Hl & Hf).
  unfold deref, at_end. cbn [is_end_ coro_ null_or_done]. destruct (event_at n st) as [v st'| |e]; cbn [ended]; [|done..].
  subst f. rewrite (done_live _ _ _ Hl). run_binds. unfold get_frame. by rewrite Hl.
Qed.

(** The values of up to [n] events from [e] on. *)
Fixpoint collect (n : nat) (e : event T St) : list T :=
  match e, n with
  | Yields v st, S n => v :: collect n (body st)
  | _, _ => []
  end.

Lemma event_at_iter n st : event_at n st = Nat.iter n after (body st).
Proof. induction n as [|n IH]; [cbn; by destruct (body st)|]. by rewrite event_at_S, IH. Qed.

Lemma deref_iterates h v st it s : iterates h (Yields v st) it s -> not_equal it end_ = true /\ deref it s = Ok v.
Proof.
  intros [-> (f & Hl & ->)]. split; [done|]. unfold deref, at_end. cbn [is_end_ coro_ ended null_or_done].
  rewrite (done_live _ _ _ Hl). run_binds. unfold get_frame. by rewrite Hl.
Qed.

Lemma for_loop_iterates h n : forall e it s,
  iterates h e it s -> ended (Nat.iter n after e) = true -> exists s', for_loop (S n) it s = Ok (collect n e, s').
Proof.
  induction n as [|n IH]; intros e it s Hi He.
  - destruct Hi as [-> _]. exists s. destruct e; done.
  - destruct e as [v st| |e]; [|destruct Hi as [-> _]; by exists s..].
    destruct (deref_iterates _ _ _ _ _ Hi) as [Hne Hd]. destruct (increment_iterates _ _ _ _ Hi) as (it' & s' & Hinc & Hi').
    rewrite Nat.iter_succ_r in He. destruct (IH _ _ _ Hi' He) as (s2 & Hs2). exists s2.
    remember (S n) as m eqn:Hm. cbn [for_loop]. rewrite Hne, Hd. run_binds. rewrite Hinc. run_binds. rewrite Hs2. run_binds.
    by rewrite Hm.
Qed.

(** A range-based for loop over a generator whose body ends sees every value the body
    yields, in order, and ends after the last one, also when the body throws. *)
Lemma range_for_collects n st s0 :
  ended (event_at n st) = true ->
  let '(h, s) := create st s0 in exists s', range_for (S n) (Some h) s = Ok (collect n (body st), s').
Proof.
  intros He. cbn [create alloc_frame].
  destruct (begin_advance_iterates 0 (next_handle s0) st (create st s0).2) as (it & s' & H1 & _ & H3); [apply lookup_insert_eq|].
  unfold begin_advance in H1. unfold range_for. cbn [create alloc_frame] in H1.
  destruct (begin _ _) as [[it1 s1]| | |]; try done. run_binds in H1. cbn in H1. injection H1 as -> ->. run_binds.
  rewrite event_at_iter in H3, He. by apply (for_loop_iterates (next_handle s0)).
Qed.

(** A generator has a value to give between the first yield and the end. *)
Lemma value_iterates from_optional h e it s :
  iterates h e it s ->
  value from_optional (Some h) s =
  match e with Yields v _ => Ok (from_optional (Some v)) | _ => Throw (RuntimeError (lit "No value available")) end.
Proof.
  intros [-> (f & Hl & Hf)]. unfold value. cbn [null_or_done]. rewrite (done_live _ _ _ Hl). run_binds.
  destruct e as [v st| |e].
  - subst f. cbn [suspended]. rewrite bool_decide_eq_false_2 by done. unfold get_frame. by rewrite Hl.
  - by rewrite bool_decide_eq_true_2.
  - by rewrite bool_decide_eq_true_2.
Qed.

(** ** Ownership *)

(** The generators and the iterators of a program, by name, with the frames.  [value()]
    is for types that can be made of an optional. *)
Context (from_optional : option T -> T).

Record world : Type := mkWorld { gens : gmap nat generator; iters : gmap nat iterator; heap_of : heap }.

Definition empty_world : world := mkWorld ∅ ∅ no_frames.

Inductive op : Type :=
| Default (x : nat)                (** [Generator<T> x;] *)
| Call (x : nat) (st : St)         (** [auto x = coroutine(...);] *)
| Move (x y : nat)                 (** [Generator<T> x(std::move(y));] *)
| Assign (x y : nat)               (** [x = std::move(y);] *)
| Begin (i x : nat)                (** [auto i = x.begin();] *)
| End (i : nat)                    (** [auto i = x.end();] *)
| CopyIter (i j : nat)             (** [auto i = j;] *)
| Incr (i : nat)                   (** [++i;] or [i++;] *)
| Deref (i : nat)                  (** [*i] or [i->], the exception caught *)
| Next (x : nat)
| Value (x : nat)                  (** [x.value()], the exception caught *)
| Test (x : nat)                   (** [if (x)] *)
| Leave (x : nat).                 (** the scope of [x] ends *)

(** The program catches what a call throws. *)
Definition caught {A} (m : outcome A) : outcome unit :=
  match m with Ok _ | Throw _ => Ok tt | Undefined => Undefined | OutOfFuel => OutOfFuel end.

(** Move construction: [std::exchange(other.coro_, {})]. *)
Definition move_new (x y : nat) (g : generator) (w : world) : world :=
  mkWorld (<[x := g]> (<[y := None]> (gens w))) (iters w) (heap_of w).

(** Move assignment. *)
Definition move_assign (x y : nat) (gx gy : generator) (w : world) : outcome world :=
  if decide (x = y) then Ok w
  else s ← release gx (heap_of w); Ok (mkWorld (<[x := gy]> (<[y := None]> (gens w))) (iters w) s).

(** One operation; [None] when a name is not in scope, or already is. *)
Definition exec (o : op) (w : world) : option (outcome world) :=
  match o with
  | Default x => match gens w !! x with None => Some (Ok (mkWorld (<[x := None]> (gens w)) (iters w) (heap_of w))) | Some _ => None end
  | Call x st =>
      match gens w !! x with
      | None => let '(h, s) := create st (heap_of w) in Some (Ok (mkWorld (<[x := Some h]> (gens w)) (iters w) s))
      | Some _ => None
      end
  | Move x y =>
      match gens w !! x, gens w !! y with
      | None, Some g => Some (Ok (move_new x y g w))
      | _, _ => None
      end
  | Assign x y => gx ← gens w !! x; gy ← gens w !! y; Some (move_assign x y gx gy w)
  | Begin i x => g ← gens w !! x; Some ('(it, s) ← begin g (heap_of w); Ok (mkWorld (gens w) (<[i := it]> (iters w)) s))
  | End i => Some (Ok (mkWorld (gens w) (<[i := end_]> (iters w)) (heap_of w)))
  | CopyIter i j => it ← iters w !! j; Some (Ok (mkWorld (gens w) (<[i := it]> (iters w)) (heap_of w)))
  | Incr i => it ← iters w !! i; Some ('(it, s) ← increment it (heap_of w); Ok (mkWorld (gens w) (<[i := it]> (iters w)) s))
  | Deref i => it ← iters w !! i; Some (_ ← caught (deref it (heap_of w)); Ok w)
  | Next x => g ← gens w !! x; Some ('(_, s) ← next g (heap_of w); Ok (mkWorld (gens w) (iters w) s))
  | Value x => g ← gens w !! x; Some (_ ← caught (value from_optional g (heap_of w)); Ok w)
  | Test x => g ← gens w !! x; Some (_ ← valid g (heap_of w); Ok w)
  | Leave x => g ← gens w !! x; Some (s ← release g (heap_of w); Ok (mkWorld (delete x (gens w)) (iters w) s))
  end.

Fixpoint exec_all (os : list op) (w : world) : option (outcome world) :=
  match os with
  | [] => Some (Ok w)
  | o :: os =>
      r ← exec o w;
      match r with
      | Ok w => exec_all os w
      | r => Some r
      end
  end.

(** An iterator that is not at the end, into a frame that is gone; the iterator an
    operation uses; and whether it is such a one. *)
Definition dangling (it : iterator) s : bool :=
  negb (is_end_ it) && match coro_ it with Some h => bool_decide (live s !! h = None) | None => false end.

Definition used (o : op) : option nat := match o with Incr i | Deref i => Some i | _ => None end.

Definition misuses (o : op) (w : world) : bool :=
  match i ← used o; iters w !! i with Some it => dangling it (heap_of w) | None => false end.

(** A program that never uses an iterator whose frame is gone. *)
Fixpoint careful (os : list op) (w : world) : bool :=
  match os with
  | [] => true
  | o :: os => negb (misuses o w) && match exec o w with Some (Ok w) => careful os w | _ => true end
  end.

(** A frame that is alive. *)
Definition alive (s : heap) (h : handle) : Prop := is_Some (live s !! h).

(** A suspended body has not thrown; every live frame is held by exactly one
    generator, and generators hold live frames only. *)
Record Own (w : world) : Prop := {
  own_frames : frames_ok (heap_of w);
  own_exception : forall h f, live (heap_of w) !! h = Some f -> suspended f <> None -> exception_ f = None;
  own_exclusive : Exclusive (gens w) (alive (heap_of w))
}.

Lemma empty_own : Own empty_world.
Proof. split; [done..|]. apply exclusive_nothing. by intros h [f ?]. Qed.

Lemma own_live w x h : Own w -> gens w !! x = Some (Some h) -> is_Some (live (heap_of w) !! h).
Proof. intros Hown. apply (held_alive _ _ (own_exclusive _ Hown)). Qed.

Lemma step_own w h f st :
  Own w -> live (heap_of w) !! h = Some f -> suspended f = Some st ->
  Own (mkWorld (gens w) (iters w) (set_frame h (stepped st f) (heap_of w))).
Proof.
  intros Hown Hl Hs. split; cbn.
  - by eapply set_ok; [apply Hown|].
  - intros h' f'. rewrite lookup_insert_Some. intros [[<- <-]|[_ Hf]] Hne; [|by eapply own_exception].
    unfold stepped in *. destruct (body st); cbn in *; try done. eapply own_exception; [done..|]. by rewrite Hs.
  - eapply exclusive_iff; [apply Hown|]. intros h'. unfold alive. cbn. rewrite lookup_insert_is_Some'.
    split; [intros [<-|?]; [by eexists|done]|by right].
Qed.

(** [begin] and [next] on a generator of the program. *)
Lemma begin_own w x g :
  Own w -> gens w !! x = Some g -> exists it s, begin g (heap_of w) = Ok (it, s) /\ Own (mkWorld (gens w) (iters w) s).
Proof.
  intros Hown Hx. destruct g as [h|]; [|exists end_, (heap_of w); by destruct w].
  destruct (own_live _ _ _ Hown Hx) as [f Hl]. destruct (suspended f) as [st|] eqn:Hs.
  - eexists _, _. split; [eapply begin_live; [done..|]|by apply step_own]. eapply own_exception; [done..|]. by rewrite Hs.
  - exists end_, (heap_of w). split; [|by destruct w]. unfold begin, null_or_done. by rewrite (done_live _ _ _ Hl), Hs.
Qed.

Lemma next_own w x g :
  Own w -> gens w !! x = Some g -> exists b s, next g (heap_of w) = Ok (b, s) /\ Own (mkWorld (gens w) (iters w) s).
Proof.
  intros Hown Hx. destruct g as [h|]; [|exists false, (heap_of w); by destruct w].
  destruct (own_live _ _ _ Hown Hx) as [f Hl]. destruct (suspended f) as [st|] eqn:Hs.
  - eexists _, _. split; [eapply next_live; [done..|]|by apply step_own]. eapply own_exception; [done..|]. by rewrite Hs.
  - exists false, (heap_of w). split; [|by destruct w]. unfold next, null_or_done. by rewrite (done_live _ _ _ Hl), Hs.
Qed.

Lemma valid_own w x g : Own w -> gens w !! x = Some g -> exists b, valid g (heap_of w) = Ok b.
Proof.
  intros Hown Hx. destruct g as [h|]; [|by eexists]. destruct (own_live _ _ _ Hown Hx) as [f Hl].
  unfold valid, null_or_done. rewrite (done_live _ _ _ Hl). by eexists.
Qed.

(** Destroying what a generator holds, when it goes away or holds something else
    afterwards: [gs] are the generators then, with [x] holding [g']. *)
Lemma release_own w x g :
  Own w -> gens w !! x = Some g ->
  exists s, release g (heap_of w) = Ok s /\ Own (mkWorld (<[x := None]> (gens w)) (iters w) s).
Proof.
  intros Hown Hx. destruct g as [h|].
  - destruct (own_live _ _ _ Hown Hx) as [f Hl]. unfold release, destroy_frame. rewrite Hl. eexists. split; [done|].
    split; cbn.
    + eapply destroy_ok; [apply Hown|]. unfold destroy_frame. by rewrite Hl.
    + intros h' f' [_ Hf]%lookup_delete_Some. by eapply own_exception.
    + eapply exclusive_iff; [by apply (exclusive_release _ _ x h (own_exclusive _ Hown))|]. intros h'. unfold alive. cbn.
      split; [intros [f' [? ?]%lookup_delete_Some]; split; [by eexists|done]|].
      intros [[f' ?] ?]. exists f'. by apply lookup_delete_Some.
  - exists (heap_of w). split; [done|]. rewrite insert_id by done. by destruct w.
Qed.

(** The same frames, held differently. *)
Lemma reown w gs its : Own w -> Exclusive gs (alive (heap_of w)) -> Own (mkWorld gs its (heap_of w)).
Proof. intros Hown Hgs. split; [apply Hown|apply Hown|done]. Qed.

Lemma own_iters w its : Own w -> Own (mkWorld (gens w) its (heap_of w)).
Proof. intros Hown. apply reown; [done|apply Hown]. Qed.

(** An iterator whose frame is gone cannot be used; one that is at the end, or whose
    frame is alive, can. *)
Lemma dangling_undefined it s : dangling it s = true -> increment it s = Undefined /\ deref it s = Undefined.
Proof.
  unfold dangling, increment, deref, at_end. destruct it as [[h|] []]; cbn; try done. intros Hn%bool_decide_eq_true.
  unfold done_, get_frame. by rewrite Hn.
Qed.

Lemma increment_own w it :
  Own w -> dangling it (heap_of w) = false ->
  exists it' s, increment it (heap_of w) = Ok (it', s) /\ Own (mkWorld (gens w) (iters w) s).
Proof.
  intros Hown Hd. destruct it as [[h|] []]; unfold increment, at_end; cbn [is_end_ coro_ null_or_done];
    try (eexists _, (heap_of w); split; [done|by apply own_iters]).
  unfold dangling in Hd. cbn in Hd. apply bool_decide_eq_false in Hd. destruct (live (heap_of w) !! h) as [f|] eqn:Hl; [|done].
  rewrite (done_live _ _ _ Hl). run_binds. destruct (suspended f) as [st|] eqn:Hs.
  - rewrite bool_decide_eq_false_2 by done. rewrite (resume_live _ _ _ _ Hl Hs). run_binds.
    rewrite after_resume_live by (eapply own_exception; [done..|]; by rewrite Hs). run_binds.
    eexists _, _. split; [done|]. by apply step_own.
  - rewrite bool_decide_eq_true_2 by done. eexists _, _. split; [done|]. by apply own_iters.
Qed.

Lemma deref_own w it : dangling it (heap_of w) = false -> caught (deref it (heap_of w)) = Ok tt.
Proof.
  intros Hd. destruct it as [[h|] []]; try done. unfold deref, at_end. cbn [is_end_ coro_ null_or_done].
  unfold dangling in Hd. cbn in Hd. apply bool_decide_eq_false in Hd. destruct (live (heap_of w) !! h) as [f|] eqn:Hl; [|done].
  rewrite (done_live _ _ _ Hl). run_binds. destruct (bool_decide _); [done|]. unfold get_frame. rewrite Hl. run_binds.
  by destruct (value_ f).
Qed.

Lemma value_own w x g : Own w -> gens w !! x = Some g -> caught (value from_optional g (heap_of w)) = Ok tt.
Proof.
  intros Hown Hx. destruct g as [h|]; [|done]. destruct (own_live _ _ _ Hown Hx) as [f Hl].
  unfold value, null_or_done. rewrite (done_live _ _ _ Hl). run_binds. destruct (bool_decide _); [done|].
  unfold get_frame. by rewrite Hl.
Qed.

Lemma exec_own o w r : Own w -> misuses o w = false -> exec o w = Some r -> exists w', r = Ok w' /\ Own w'.
Proof.
  intros Hown Hm. destruct o as [x|x st|x y|x y|i x|i|i j|i|i|x|x|x|x]; cbn [exec].
  - destruct (gens w !! x) eqn:Hx; [done|]. intros [= <-]. eexists. split; [done|].
    apply reown; [done|]. apply exclusive_empty; [apply Hown|done].
  - destruct (gens w !! x) eqn:Hx; [done|]. intros [= <-]. eexists. split; [done|].
    assert (live (heap_of w) !! next_handle (heap_of w) = None) as Hnew by (apply (own_frames _ Hown); done).
    split; cbn.
    + apply (alloc_ok (mkFrame None None (Some st))), Hown.
    + intros h f [[<- <-]|[_ Hf]]%lookup_insert_Some; [done|]. by eapply own_exception.
    + eapply exclusive_iff; [apply (exclusive_new _ _ x (next_handle (heap_of w)) (own_exclusive _ Hown) Hx)|].
      * unfold alive. rewrite Hnew. by intros [? ?].
      * intros h. unfold alive. cbn. rewrite lookup_insert_is_Some'. split; intros [->|?]; auto.
  - destruct (gens w !! x) eqn:Hx; [done|]. destruct (gens w !! y) as [g|] eqn:Hy; [|done]. intros [= <-].
    eexists. split; [done|]. apply reown; [done|]. apply exclusive_transfer; [apply Hown|auto|done|congruence].
  - intros (gx & Hx & (gy & Hy & [= <-])%bind_Some)%bind_Some. unfold move_assign. case_decide as Hxy; [by exists w|].
    destruct (release_own _ _ _ Hown Hx) as (s & -> & Hs). run_binds. eexists. split; [done|].
    apply (reown (mkWorld (<[x := None]> (gens w)) (iters w) s)); [done|].
    pose proof (exclusive_transfer _ _ x y gy (own_exclusive _ Hs)) as Ht. cbn in Ht |- *. rewrite lookup_insert_eq, lookup_insert_ne in Ht by done.
    rewrite (insert_insert_ne (gens w) y x), insert_insert_eq in Ht by done. apply Ht; auto.
  - intros (g & Hx & [= <-])%bind_Some. destruct (begin_own _ _ _ Hown Hx) as (it & s & -> & Hs). eexists. split; [done|].
    apply (own_iters _ _ Hs).
  - intros [= <-]. eexists. split; [done|by apply own_iters].
  - intros (it & _ & [= <-])%bind_Some. eexists. split; [done|by apply own_iters].
  - intros (it & Hi & [= <-])%bind_Some. unfold misuses in Hm. cbn in Hm. rewrite Hi in Hm.
    destruct (increment_own _ _ Hown Hm) as (it' & s & -> & Hs). eexists. split; [done|]. apply (own_iters _ _ Hs).
  - intros (it & Hi & [= <-])%bind_Some. unfold misuses in Hm. cbn in Hm. rewrite Hi in Hm. rewrite deref_own by done. by exists w.
  - intros (g & Hx & [= <-])%bind_Some. destruct (next_own _ _ _ Hown Hx) as (b & s & -> & Hs). by eexists.
  - intros (g & Hx & [= <-])%bind_Some. rewrite (value_own _ _ _ Hown Hx). by exists w.
  - intros (g & Hx & [= <-])%bind_Some. destruct (valid_own _ _ _ Hown Hx) as (b & ->). by eexists.
  - intros (g & Hx & [= <-])%bind_Some. destruct (release_own _ _ _ Hown Hx) as (s & -> & Hs). eexists. split; [done|].
    apply (reown (mkWorld (<[x := None]> (gens w)) (iters w) s)); [done|].
    pose proof (exclusive_leave _ _ x (own_exclusive _ Hs) (lookup_insert_eq _ _ _)) as He. cbn in He.
    by rewrite delete_insert_eq in He.
Qed.

Lemma exec_misuse o w r : misuses o w = true -> exec o w = Some r -> r = Undefined.
Proof.
  unfold misuses. destruct o; cbn; try done; destruct (iters w !! i) as [it|]; try done; intros Hd [= <-];
    destruct (dangling_undefined _ _ Hd) as [H1 H2]; by rewrite ?H1, ?H2.
Qed.

Lemma exec_all_own os : forall w r,
  Own w -> exec_all os w = Some r -> if careful os w then exists w', r = Ok w' /\ Own w' else r = Undefined.
Proof.
  induction os as [|o os IH]; intros w r Hown; cbn [exec_all careful]; [intros [= <-]; by exists w|].
  intros (r1 & Ho & Hr)%bind_Some. rewrite Ho. destruct (misuses o w) eqn:Hm; cbn [negb andb].
  - rewrite (exec_misuse _ _ _ Hm Ho) in Hr. by injection Hr as <-.
  - destruct (exec_own _ _ _ Hown Hm Ho) as (w1 & -> & Hown1). by apply IH.
Qed.

(** C31: generators own their frames.  A program calls coroutines, moves, assigns and
    iterates generators and lets them go, and keeps, copies and uses iterators.  As long
    as it uses no iterator whose generator's frame is gone, no operation is undefined;
    every frame that is alive is held by exactly one generator, and every generator
    holds a live frame or none, so that frames are destroyed exactly once, and when
    all generators are gone there is none left.  A program that increments or
    dereferences an iterator, not at the end, whose frame is gone is undefined. *)
Theorem generators_own_frames os r :
  exec_all os empty_world = Some r ->
  if careful os empty_world then
    exists w, r = Ok w /\
      (forall h, is_Some (live (heap_of w) !! h) <->
         exists x, gens w !! x = Some (Some h) /\ forall y, gens w !! y = Some (Some h) -> y = x) /\
      (gens w = ∅ -> live (heap_of w) = ∅)
  else r = Undefined.
Proof.
  intros Hr%(exec_all_own _ _ _ empty_own). destruct (careful os empty_world); [|done]. destruct Hr as (w & -> & Hown).
  exists w. split; [done|]. split.
  - intros h. apply (exclusive_owner _ _ _ (own_exclusive _ Hown)).
  - intros He. apply map_empty. intros h. apply eq_None_not_Some. intros [x Hx]%(alive_held _ _ (own_exclusive _ Hown)).
    by rewrite He, lookup_empty in Hx.
Qed.

End generator.

(** A body that counts up to three. *)
Definition count_body (n : nat) : event nat nat := if n <? 3 then Yields n (S n) else Returns.

(** An iterator is used while its frame exists, which has moved to another generator;
    and once more when the frame is gone. *)
Definition sample_ops : list (op (St := nat)) :=
  [Call 0 0; Default 1; Begin 5 0; Assign 1 0; Incr 5; Deref 5; Next 1; Value 1; Call 2 1; Assign 1 2].

Lemma generators_own_frames_witness :
  (exists w, exec_all count_body (default 0) (sample_ops ++ [Leave 0; Leave 2; Leave 1]) empty_world = Some (Ok w) /\
     (gens w = ∅ -> live (heap_of w) = ∅)) /\
  exec_all count_body (default 0) (sample_ops ++ [Deref 5]) empty_world = Some Undefined.
Proof.
  split.
  - destruct (exec_all count_body (default 0) (sample_ops ++ [Leave 0; Leave 2; Leave 1]) empty_world) as [r|] eqn:Hr;
      [|by vm_compute in Hr].
    destruct (generators_own_frames count_body (default 0) _ r Hr) as (w & -> & _ & H). by exists w.
  - destruct (exec_all count_body (default 0) (sample_ops ++ [Deref 5]) empty_world) as [r|] eqn:Hr; [|by vm_compute in Hr].
    f_equal. apply (generators_own_frames count_body (default 0) _ r Hr).
Defined.

End Generator.
