(* ===== verification/Awaitable.v ===== *)
(** * Awaitable coroutines

    Models src/include/coro/Awaitable.hpp: coroutines that run on an executor and
    wait for each other.  The body of a coroutine is the user's: a state machine
    that, when it runs, returns, throws, awaits a coroutine it calls
    ([co_await f();]), or awaits something else ([Wait]), after which it is
    resumed from outside.  A frame holds the promise and where the body is.  The
    executor is any that satisfies the interface of Executor.v; its closures
    resume a handle.  Coroutines of [Awaitable<T>] and of [Awaitable<void>], whose
    promise has no value, may await each other; all values are of one type.

    What one resumption does to the frames is one step: the frames it touches are
    those of one chain of awaiting coroutines, and handing a new coroutine to the
    executor, which is a step of its own, is the last thing it does.

    The theorems: no resumption is undefined or fails an assertion; what a
    spawned coroutine computes is what its body computes as an ordinary call; and
    which frames are left behind. *)

From S2P Require Import Prelude Ownership Coroutine Executor.

Module Awaitable.

(** What a body does when it runs. *)
Inductive action (V W St : Type) : Type :=
| Return (v : V)                              (** [co_return v;] *)
| Raise (e : exn)                             (** an exception leaves the body *)
| Await (c : St) (k : V + exn -> St)          (** [co_await] of a call; [k] continues *)
| Wait (w : W) (st : St).                     (** [co_await] of another awaiter *)
Arguments Return {V W St} v.
Arguments Raise {V W St} e.
Arguments Await {V W St} c k.
Arguments Wait {V W St} w st.

(** Where a coroutine is: suspended and resumable, suspended until a coroutine it
    called has ended, running, or at its final suspension point. *)
Inductive point (V St : Type) : Type :=
| Ready (st : St)
| Waiting (child : handle) (k : V + exn -> St)
| Active
| Final.
Arguments Ready {V St} st.
Arguments Waiting {V St} child k.
Arguments Active {V St}.
Arguments Final {V St}.

Section awaitable.
Context {V W St : Type} (body : St -> action V W St).

(** Which coroutines are declared [Awaitable<void>], and what awaiting one of them
    gives to the body that awaits it. *)
Context (is_void : St -> bool) (unit_value : V).

(** [promise_type], and where the body is.  The promise of an [Awaitable<void>] has no
    [value]. *)
Record frame : Type := mkFrame {
  void : bool;
  executor : bool;             (** the pointer is set *)
  awaiting : option handle;
  value : option V;
  exception : option exn;
  at_ : point V St
}.

Abbreviation heap := (frames frame).
Implicit Types (s : heap) (h p ch : handle).

Definition set_at (a : point V St) (f : frame) : frame := mkFrame (void f) (executor f) (awaiting f) (value f) (exception f) a.
Definition set_executor (b : bool) (f : frame) : frame := mkFrame (void f) b (awaiting f) (value f) (exception f) (at_ f).
Definition set_awaiting (p : handle) (f : frame) : frame :=
  mkFrame (void f) (executor f) (Some p) (value f) (exception f) (at_ f).

(** [return_value] and, of an [Awaitable<void>], [return_void]; [unhandled_exception]; on
    the way to the final suspension point. *)
Definition return_value (v : V) (f : frame) : frame :=
  mkFrame (void f) (executor f) (awaiting f) (Some v) (exception f) Final.

Definition return_void (f : frame) : frame := set_at Final f.

Definition unhandled_exception (e : exn) (f : frame) : frame :=
  mkFrame (void f) (executor f) (awaiting f) (value f) (Some e) Final.

Definition set_result (r : V + exn) (f : frame) : frame :=
  match r with
  | inl v => if void f then return_void f else return_value v f
  | inr e => unhandled_exception e f
  end.

(** Calling a coroutine function: [get_return_object] and [initial_suspend]. *)
Definition create (st : St) s : handle * heap := 
  alloc_frame (mkFrame (is_void st) false None None None (Ready st)) s.

(** [Awaitable(std::coroutine_handle)] *)
Definition awaitable (a : option handle) : outcome (option handle) :=
  match a with None => Throw (InvalidArgument (lit "Coroutine handle is null")) | Some _ => Ok a end.

(** ** Awaiting a coroutine *)

(** [await_transform(Awaitable<U>)] *)
Definition await_transform (h ch : handle) s : outcome heap :=
  f ← get_frame h s;
  g ← get_frame ch s;
  Ok (set_frame ch (set_executor (executor f) g) s).

(** [await_suspend(h)] of the awaitable [ch], up to [addTask]. *)
Definition await_suspend (ch h : handle) s : outcome heap :=
  g ← get_frame ch s;
  if executor g then Ok (set_frame ch (set_awaiting h g) s)
  else Throw (AssertionFailed (lit "p.executor")).

(** [await_resume()]: a value, or an exception thrown into the awaiting body. *)
Definition await_resume_value (g : frame) : V + exn :=
  match exception g, value g with
  | Some e, _ => inr e
  | None, Some v => inl v
  | None, None => inr BadOptionalAccess
  end.

(** [await_resume()] of an [Awaitable<void>]. *)
Definition await_resume_void (g : frame) : V + exn :=
  match exception g with Some e => inr e | None => inl unit_value end.

Definition result (g : frame) : V + exn := if void g then await_resume_void g else await_resume_value g.

Definition await_resume (ch : handle) s : outcome (V + exn) := g ← get_frame ch s; Ok (result g).

(** How a piece of a body ends. *)
Inductive next : Type :=
| Continue (h : handle) (st : St)   (** another coroutine goes on in the same call *)
| Submit (ch : handle)              (** suspended; [addTask] of a new coroutine *)
| Park (w : W)                      (** suspended at another awaiter *)
| Finished.

(** [final_awaiter::await_suspend]: the awaiting coroutine is resumed; it takes the
    result, and the awaitable it awaited, a temporary, is destroyed. *)
Definition final_suspend (h : handle) s : outcome (heap * next) :=
  f ← get_frame h s;
  match awaiting f with
  | None => Ok (s, Finished)
  | Some p =>
      g ← get_frame p s;
      match at_ g with
      | Waiting ch k =>
          r ← await_resume ch s;
          s ← destroy_frame ch s;
          Ok (set_frame p (set_at Active g) s, Continue p (k r))
      | _ => Undefined
      end
  end.

(** [co_return], or an exception, and what follows. *)
Definition finish (h : handle) (r : V + exn) s : outcome (heap * next) :=
  f ← get_frame h s; final_suspend h (set_frame h (set_result r f) s).

(** Runs the body of [h], which is at [st], up to where it suspends or ends. *)
Definition advance (h : handle) (st : St) s : outcome (heap * next) :=
  match body st with
  | Return v => finish h (inl v) s
  | Raise e => finish h (inr e) s
  | Await c k =>
      let '(ch, s) := create c s in
      s ← await_transform h ch s;
      f ← get_frame h s;
      s ← await_suspend ch h (set_frame h (set_at (Waiting ch k) f) s);
      Ok (s, Submit ch)
  | Wait w st =>
      f ← get_frame h s;
      Ok (set_frame h (set_at (Ready st) f) s, Park w)
  end.

(** The nested resumptions; every one after the first has destroyed a frame. *)
Fixpoint drive (fuel : nat) (h : handle) (st : St) s : outcome (heap * handle * next) :=
  match fuel with
  | O => OutOfFuel
  | S fuel =>
      '(s, n) ← advance h st s;
      match n with
      | Continue h st => drive fuel h st s
      | n => Ok (s, h, n)
      end
  end.

(** [handle.resume()]; the result names the coroutine that was suspended last. *)
Definition resume (h : handle) s : outcome (heap * handle * next) :=
  f ← get_frame h s;
  match at_ f with
  | Ready st => drive (S (size (live s))) h st (set_frame h (set_at Active f) s)
  | _ => Undefined
  end.

(** [co_spawn(pool, awaitable)]: the frame's executor is set and the handle taken
    out of the awaitable; the result is the handle to resume. *)
Definition co_spawn (a : option handle) s : outcome (handle * heap) :=
  match a with
  | None => Throw (InvalidArgument (lit "Coroutine handle is null"))
  | Some h => f ← get_frame h s; Ok (h, set_frame h (set_executor true f) s)
  end.

(** ** The system *)

Context {E : Type} `{!Executor E handle}.

Record system : Type := mk {
  mem : heap;
  pool : E;
  submitting : list handle;          (** inside [addTask] *)
  running : list handle;             (** closures that were started and not yet resumed their handle *)
  parked : list (handle * W);        (** suspended at another awaiter *)
  spawned : list (handle * St)       (** the coroutines given to [co_spawn] *)
}.

Definition set_pool (e : E) (x : system) : system :=
  mk (mem x) e (submitting x) (running x) (parked x) (spawned x).

(** What a suspension leaves to be done. *)
Definition submits (n : next) : list handle := match n with Submit ch => [ch] | _ => [] end.
Definition parks (h : handle) (n : next) : list (handle * W) := match n with Park w => [(h, w)] | _ => [] end.

Inductive step : system -> system -> Prop :=
| step_spawn st h s s' x :
    create st (mem x) = (h, s) -> co_spawn (Some h) s = Ok (h, s') ->
    step x (mk s' (pool x) (submitting x ++ [h]) (running x) (parked x) (spawned x ++ [(h, st)]))
| step_submit h l r e x :
    submitting x = l ++ h :: r -> ex_submit h (pool x) e ->
    step x (mk (mem x) e (l ++ r) (running x) (parked x) (spawned x))
| step_start h e x :
    ex_start h (pool x) e ->
    step x (mk (mem x) e (submitting x) (running x ++ [h]) (parked x) (spawned x))
| step_resume h l r s h' n x :
    running x = l ++ h :: r -> resume h (mem x) = Ok (s, h', n) ->
    step x (mk s (pool x) (submitting x ++ submits n) (l ++ r) (parked x ++ parks h' n) (spawned x))
| step_return h e x :
    ex_finish h (pool x) e -> running x ⊆+ ex_active e -> step x (set_pool e x)
| step_silent e x : ex_silent (pool x) e -> step x (set_pool e x)
| step_wake h w l r x :
    parked x = l ++ (h, w) :: r ->
    step x (mk (mem x) (pool x) (submitting x ++ [h]) (running x) (l ++ r) (spawned x)).

Definition start (e : E) : system := mk no_frames e [] [] [] [].

Definition reachable (x : system) : Prop :=
  exists e, ex_ok e /\ ex_pending e = [] /\ rtc step (start e) x.

(** ** What a body computes *)

(** What the caller of a coroutine gets when it returns [v]. *)
Definition returned (b : bool) (r : V + exn) : V + exn :=
  match r with inl v => inl (if b then unit_value else v) | inr e => inr e end.

(** The result of a body run as an ordinary function, declared [void] or not, where
    awaiting a coroutine is calling it and other awaiters return at once. *)
Inductive evals (b : bool) : St -> V + exn -> Prop :=
| evals_return st v : body st = Return v -> evals b st (returned b (inl v))
| evals_raise st e : body st = Raise e -> evals b st (inr e)
| evals_await st c k r r' : body st = Await c k -> evals (is_void c) c r -> evals b (k r) r' -> evals b st r'
| evals_wait st w st' r : body st = Wait w st' -> evals b st' r -> evals b st r.

Lemma evals_return_inv b st v r : body st = Return v -> evals b st r -> r = returned b (inl v).
Proof. intros H. destruct 1; congruence. Qed.

Lemma evals_raise_inv b st e r : body st = Raise e -> evals b st r -> r = inr e.
Proof. intros H. destruct 1; congruence. Qed.

Lemma evals_await_inv b st c k r' :
  body st = Await c k -> evals b st r' -> exists r, evals (is_void c) c r /\ evals b (k r) r'.
Proof. intros H. destruct 1 as [| |? c' k' r r' H'|]; try congruence. rewrite H in H'. injection H' as <- <-. eauto. Qed.

Lemma evals_wait_inv b st w st' r : body st = Wait w st' -> evals b st r -> evals b st' r.
Proof. intros H. destruct 1; congruence. Qed.

(** ** The invariant *)

(** The coroutine [root] gets the result [r'] if [h] goes on at [st]: [h] is [root],
    or is awaited by a coroutine that goes on with the result of [h]. *)
Inductive finishes s : handle -> St -> handle -> V + exn -> Prop :=
| finishes_root h f st r :
    live s !! h = Some f -> awaiting f = None -> evals (void f) st r -> finishes s h st h r
| finishes_up h f p g k st r root r' :
    live s !! h = Some f -> awaiting f = Some p -> live s !! p = Some g -> at_ g = Waiting h k ->
    evals (void f) st r -> finishes s p (k r) root r' -> finishes s h st root r'.

(** The shape of the frames.  [cur] is the coroutine that is running, [toks] are the
    suspended coroutines that will be resumed, and [roots] those that were
    spawned. *)
Record Shape (cur : option handle) (toks roots : list handle) s : Prop := {
  sh_ok : frames_ok s;
  sh_executor : forall h f, live s !! h = Some f -> executor f = true;
  sh_result : forall h f, live s !! h = Some f -> at_ f <> Final -> value f = None /\ exception f = None;
  sh_toks : NoDup toks;
  sh_live : forall h, h ∈ toks -> is_Some (live s !! h);
  sh_ready : forall h f, live s !! h = Some f -> h ∈ toks <-> exists st, at_ f = Ready st;
  sh_active : forall h f, live s !! h = Some f -> at_ f = Active <-> cur = Some h;
  sh_cur : forall h, cur = Some h -> is_Some (live s !! h);
  sh_up : forall h f p, live s !! h = Some f -> awaiting f = Some p -> exists g k, live s !! p = Some g /\ at_ g = Waiting h k;
  sh_down : forall p g h k, live s !! p = Some g -> at_ g = Waiting h k -> exists f, live s !! h = Some f /\ awaiting f = Some p;
  sh_order : forall p g h k, live s !! p = Some g -> at_ g = Waiting h k -> p < h;
  sh_final : forall h f, live s !! h = Some f -> at_ f = Final -> awaiting f = None;
  sh_roots : forall h f, live s !! h = Some f -> awaiting f = None <-> h ∈ roots;
  sh_rooted : forall h, h ∈ roots -> is_Some (live s !! h)
}.

(** A coroutine that will go on: the running one, or a suspended one. *)
Definition goes_on (cur : option (handle * St)) s (h : handle) (st : St) : Prop :=
  cur = Some (h, st) \/ exists f, live s !! h = Some f /\ at_ f = Ready st.

(** Every spawned coroutine has its result or will get it. *)
Definition Results (cur : option (handle * St)) (sp : list (handle * St)) s : Prop :=
  forall root st0 r, (root, st0) ∈ sp -> evals (is_void st0) st0 r ->
    (exists f, live s !! root = Some f /\ at_ f = Final /\ result f = r) \/
    (exists h st, goes_on cur s h st /\ finishes s h st root r).

Definition Inv (cur : option (handle * St)) (toks : list handle) (sp : list (handle * St)) s : Prop :=
  Shape (fst <$> cur) toks (sp.*1) s /\ Results cur sp s.

Lemma shape_perm cur toks toks' roots s : toks ≡ₚ toks' -> Shape cur toks roots s -> Shape cur toks' roots s.
Proof.
  intros Hp [H1 H2 H3 H4 H5 H6 H7 H8 H9 H10 H11 H12 H13 H14].
  split; try done; [by rewrite <- Hp|intros h; rewrite <- Hp; apply H5|intros h f; rewrite <- Hp; apply H6].
Qed.

Lemma inv_perm cur toks toks' sp s : toks ≡ₚ toks' -> Inv cur toks sp s -> Inv cur toks' sp s.
Proof. intros Hp [H1 H2]. split; [by eapply shape_perm|done]. Qed.

(** Changes of frames that no coroutine of a chain notices. *)
Lemma finishes_stable (P : handle -> Prop) s s' h st root r :
  (forall q f, P q -> live s !! q = Some f -> exists f', live s' !! q = Some f' /\ awaiting f' = awaiting f /\ void f' = void f) ->
  (forall q p g k, P q -> live s !! p = Some g -> at_ g = Waiting q k ->
     P p /\ exists g', live s' !! p = Some g' /\ at_ g' = Waiting q k) ->
  P h -> finishes s h st root r -> finishes s' h st root r.
Proof.
  intros H1 H2 Hh Hf. induction Hf as [h f st r Hl Ha He|h f p g k st r root r' Hl Ha Hp Hg He _ IH].
  - destruct (H1 _ _ Hh Hl) as (f' & Hl' & Ha' & Hv'). apply (finishes_root _ _ f'); [done|by rewrite Ha'|by rewrite Hv'].
  - destruct (H1 _ _ Hh Hl) as (f' & Hl' & Ha' & Hv'). destruct (H2 _ _ _ _ Hh Hp Hg) as (HP & g' & Hp' & Hg').
    apply (finishes_up _ _ f' p g' k _ r); [done|by rewrite Ha'|done|done|by rewrite Hv'|]. by apply IH.
Qed.

Lemma finishes_eval s h st st' root r :
  (forall b r, evals b st r -> evals b st' r) -> finishes s h st root r -> finishes s h st' root r.
Proof.
  intros Hst. destruct 1 as [h f st r Hl Ha He|h f p g k st r root r' Hl Ha Hp Hg He Hf].
  - eapply finishes_root; eauto.
  - eapply finishes_up; eauto.
Qed.

(** ** Steps of one coroutine *)

Definition is_waiting (a : point V St) : bool := match a with Waiting _ _ => true | _ => false end.

(** One frame changes, except for whom it is awaited by; it does not await a
    coroutine before or after. *)
Lemma touch_shape cur cur' toks toks' roots h f f' s :
  Shape cur toks roots s -> live s !! h = Some f ->
  awaiting f' = awaiting f -> executor f' = true -> (at_ f' <> Final -> value f' = None /\ exception f' = None) ->
  is_waiting (at_ f) = false -> is_waiting (at_ f') = false -> (at_ f' = Final -> awaiting f = None) ->
  NoDup toks' -> (forall h', h' <> h -> h' ∈ toks' <-> h' ∈ toks) -> (h ∈ toks' <-> exists st, at_ f' = Ready st) ->
  (forall h', h' <> h -> cur' = Some h' <-> cur = Some h') -> (at_ f' = Active <-> cur' = Some h) ->
  Shape cur' toks' roots (set_frame h f' s).
Proof.
  intros Hsh Hl Haw Hex Hres Hw Hw' Hfin Hnd Ht Hth Hc Hch. split; cbn; try done.
  - by eapply set_ok; [apply Hsh|].
  - intros q g [[<- <-]|[_ Hq]]%lookup_insert_Some; [done|by eapply sh_executor].
  - intros q g [[<- <-]|[_ Hq]]%lookup_insert_Some; [done|by eapply sh_result].
  - intros q Hq. apply lookup_insert_is_Some'. destruct (decide (q = h)) as [->|Hne]; [by left|right].
    eapply sh_live; [done|]. by apply Ht.
  - intros q g [[<- <-]|[Hne Hq]]%lookup_insert_Some; [done|]. rewrite Ht by done. by eapply sh_ready.
  - intros q g [[<- <-]|[Hne Hq]]%lookup_insert_Some; [done|]. rewrite Hc by done. by eapply sh_active.
  - intros q Hq. apply lookup_insert_is_Some'. destruct (decide (q = h)) as [->|Hne]; [by left|right].
    eapply sh_cur; [done|]. by apply Hc.
  - assert (forall q p g, live s !! q = Some g -> awaiting g = Some p ->
      exists g' k, <[h := f']> (live s) !! p = Some g' /\ at_ g' = Waiting q k) as Hup.
    { intros q p g Hq Ha. destruct (sh_up _ _ _ _ Hsh _ _ _ Hq Ha) as (g' & k & Hp & Hg). exists g', k.
      split; [|done]. rewrite lookup_insert_ne; [done|]. intros <-. rewrite Hl in Hp. injection Hp as <-. by rewrite Hg in Hw. }
    intros q g p [[<- <-]|[_ Hq]]%lookup_insert_Some Ha; [|by eapply Hup]. rewrite Haw in Ha. by eapply Hup.
  - intros p g q k [[<- <-]|[_ Hp]]%lookup_insert_Some Hg; [by rewrite Hg in Hw'|].
    destruct (sh_down _ _ _ _ Hsh _ _ _ _ Hp Hg) as (fq & Hq & Ha). destruct (decide (h = q)) as [<-|Hne].
    + exists f'. split; [apply lookup_insert_eq|]. congruence.
    + exists fq. by rewrite lookup_insert_ne.
  - intros p g q k [[<- <-]|[_ Hp]]%lookup_insert_Some Hg; [by rewrite Hg in Hw'|by eapply sh_order].
  - intros q g [[<- <-]|[_ Hq]]%lookup_insert_Some Hg; [rewrite Haw; by apply Hfin|by eapply sh_final].
  - intros q g [[<- <-]|[_ Hq]]%lookup_insert_Some; [rewrite Haw|]; by eapply sh_roots.
  - intros q Hq. apply lookup_insert_is_Some'. right. by eapply sh_rooted.
Qed.

Lemma touch_finishes h f f' s q st root r :
  live s !! h = Some f -> awaiting f' = awaiting f -> void f' = void f -> is_waiting (at_ f) = false ->
  finishes s q st root r -> finishes (set_frame h f' s) q st root r.
Proof.
  intros Hl Haw Hvo Hw. apply (finishes_stable (fun _ => True)); [| |done].
  - intros p g _ Hp. cbn. destruct (decide (h = p)) as [<-|Hne]; [|exists g; by rewrite lookup_insert_ne].
    exists f'. rewrite lookup_insert_eq. split_and!; congruence.
  - intros u p g k _ Hp Hg. split; [done|]. exists g. cbn. rewrite lookup_insert_ne; [done|].
    intros <-. rewrite Hl in Hp. injection Hp as <-. by rewrite Hg in Hw.
Qed.

(** The running coroutine, and what is known of its frame. *)
Lemma cur_frame h st toks sp s :
  Inv (Some (h, st)) toks sp s ->
  exists f, live s !! h = Some f /\ at_ f = Active /\ executor f = true /\ value f = None /\ exception f = None /\ h ∉ toks.
Proof.
  intros [Hsh _]. destruct (sh_cur _ _ _ _ Hsh h eq_refl) as [f Hl]. exists f.
  assert (at_ f = Active) as Ha by (by apply (sh_active _ _ _ _ Hsh _ _ Hl)). split; [done|]. split; [done|].
  split; [by eapply sh_executor|]. destruct (sh_result _ _ _ _ Hsh _ _ Hl) as [??]; [by rewrite Ha|]. split; [done|]. split; [done|].
  rewrite (sh_ready _ _ _ _ Hsh _ _ Hl), Ha. by intros [? ?].
Qed.

(** The body awaits something that is not a coroutine. *)
Lemma wait_inv h st w st' f toks sp s :
  Inv (Some (h, st)) toks sp s -> body st = Wait w st' -> live s !! h = Some f ->
  Inv None (h :: toks) sp (set_frame h (set_at (Ready st') f) s).
Proof.
  intros Hinv Hb Hl. destruct (cur_frame _ _ _ _ _ Hinv) as (f0 & Hl0 & Ha & Hex & Hv & Hx & Hn).
  rewrite Hl in Hl0. injection Hl0 as <-. destruct Hinv as [Hsh Hres]. split.
  - eapply touch_shape; [done|done|done|done|done|by rewrite Ha|done|done|apply NoDup_cons_2; [done|apply Hsh]| | | |done].
    + intros q Hq. split; [by intros [?|?]%elem_of_cons|by right].
    + split; [by eexists|]. intros _. by left.
    + cbn. intros q Hq. split; congruence.
  - intros root st0 r Hin He. destruct (Hres _ _ _ Hin He) as [(g & Hg & Hfin & Hr)|(q & stq & Hgo & Hf)].
    + left. exists g. cbn. rewrite lookup_insert_ne; [done|]. intros <-. congruence.
    + right. destruct Hgo as [[= <- <-]|(g & Hg & Hr)].
      * exists h, st'. split; [right; eexists; split; [apply lookup_insert_eq|done]|].
        eapply touch_finishes; [done|done|done|by rewrite Ha|]. eapply finishes_eval; [|done]. intros b r'. by eapply evals_wait_inv.
      * exists q, stq. split; [|eapply touch_finishes; [done|done|done|by rewrite Ha|done]].
        right. exists g. cbn. rewrite lookup_insert_ne; [done|]. intros <-. congruence.
Qed.

Lemma set_result_result r f :
  executor f = true -> exception f = None ->
  awaiting (set_result r f) = awaiting f /\ at_ (set_result r f) = Final /\
  result (set_result r f) = returned (void f) r /\ executor (set_result r f) = true /\ void (set_result r f) = void f.
Proof.
  intros Hex Hx. destruct f as [[] ex aw v x a]; cbn in *; subst; destruct r; cbn; done.
Qed.

(** A coroutine nobody awaits ends. *)
Lemma finish_root_inv h st r f toks sp s :
  Inv (Some (h, st)) toks sp s -> live s !! h = Some f ->
  (forall r', evals (void f) st r' -> r' = returned (void f) r) -> awaiting f = None ->
  Inv None toks sp (set_frame h (set_result r f) s).
Proof.
  intros Hinv Hl Hb Haw. destruct (cur_frame _ _ _ _ _ Hinv) as (f0 & Hl0 & Ha & Hex & Hv & Hx & Hn).
  rewrite Hl in Hl0. injection Hl0 as <-. destruct Hinv as [Hsh Hres].
  assert (awaiting (set_result r f) = awaiting f /\ at_ (set_result r f) = Final /\
          result (set_result r f) = returned (void f) r /\ executor (set_result r f) = true /\ void (set_result r f) = void f)
    as (H1 & H2 & H3 & H4 & H5) by (by apply set_result_result).
  split.
  - eapply touch_shape; [done|done|done|done|by rewrite H2|by rewrite Ha|by rewrite H2|done|apply Hsh|done| | |].
    + rewrite H2. split; [done|]. by intros [? ?].
    + cbn. intros q Hq. split; congruence.
    + by rewrite H2.
  - intros root st0 r0 Hin He. destruct (Hres _ _ _ Hin He) as [(g & Hg & Hfin & Hr)|(q & stq & Hgo & Hf)].
    + left. exists g. cbn. rewrite lookup_insert_ne; [done|]. intros <-. congruence.
    + destruct Hgo as [[= <- <-]|(g & Hg & Hr)].
      * left. exists (set_result r f). inversion Hf as [? f1 ? ? Hl1 Ha1 He1|? f1 ? ? ? ? ? ? ? Hl1 Ha1]; subst; [|congruence].
        assert (f1 = f) as -> by congruence.
        cbn. rewrite lookup_insert_eq. split; [done|]. split; [done|]. rewrite H3. symmetry. by apply Hb.
      * right. exists q, stq. split; [|eapply touch_finishes; [done|done|done|by rewrite Ha|done]].
        right. exists g. cbn. rewrite lookup_insert_ne; [done|]. intros <-. congruence.
Qed.

(** The frames after the body of [h] has called a coroutine and awaits it. *)
Definition called (h : handle) (f : frame) (c : St) (k : V + exn -> St) s s' : Prop :=
  let ch := next_handle s in
  live s' = <[ch := mkFrame (is_void c) true (Some h) None None (Ready c)]> (<[h := set_at (Waiting ch k) f]> (live s)) /\
  next_handle s' = S ch.

Lemma called_frames h f c k s s' :
  frames_ok s -> live s !! h = Some f -> called h f c k s s' ->
  let ch := next_handle s in
  live s' !! h = Some (set_at (Waiting ch k) f) /\
  live s' !! ch = Some (mkFrame (is_void c) true (Some h) None None (Ready c)) /\
  (forall q g, live s !! q = Some g -> q <> h -> live s' !! q = Some g) /\
  (forall q g, live s' !! q = Some g ->
    (q = ch /\ g = mkFrame (is_void c) true (Some h) None None (Ready c)) \/ (q = h /\ g = set_at (Waiting ch k) f) \/
    (q <> ch /\ q <> h /\ live s !! q = Some g)).
Proof.
  intros Hok Hl [Hs' _] ch. fold ch in Hs'. assert (live s !! ch = None) as Hch by (by apply Hok).
  assert (h <> ch) as Hne by congruence. rewrite Hs'. split_and!.
  - by rewrite lookup_insert_ne, lookup_insert_eq.
  - by rewrite lookup_insert_eq.
  - intros q g Hq Hqh. rewrite !lookup_insert_ne by congruence. done.
  - intros q g. rewrite !lookup_insert_Some. intros [[<- <-]|[? [[<- <-]|[? ?]]]]; auto.
Qed.

Lemma called_mono h f c k s s' q :
  frames_ok s -> live s !! h = Some f -> called h f c k s s' -> is_Some (live s !! q) -> is_Some (live s' !! q).
Proof. intros Hok Hl [Hs' _] Hq. rewrite Hs', !lookup_insert_is_Some'. auto. Qed.

Lemma called_shape h c k f toks roots s s' :
  Shape (Some h) toks roots s -> live s !! h = Some f -> called h f c k s s' ->
  Shape None (next_handle s :: toks) roots s'.
Proof.
  intros Hsh Hl Hcl. set (ch := next_handle s). pose proof (sh_ok _ _ _ _ Hsh) as Hok.
  assert (live s !! ch = None) as Hch by (by apply Hok).
  assert (at_ f = Active) as Ha by (by apply (sh_active _ _ _ _ Hsh _ _ Hl)).
  assert (h ∉ toks) as Hn by (rewrite (sh_ready _ _ _ _ Hsh _ _ Hl), Ha; by intros [? ?]).
  destruct (called_frames _ _ _ _ _ _ Hok Hl Hcl) as (Hh & Hc & Hother & Hcases). fold ch in Hh, Hc, Hcases.
  assert (forall q g p, live s !! q = Some g -> awaiting g = Some p -> exists g' k', live s' !! p = Some g' /\ at_ g' = Waiting q k')
    as Hup.
  { intros q g p Hq Hp. destruct (sh_up _ _ _ _ Hsh _ _ _ Hq Hp) as (g' & k' & Hg' & Hk'). exists g', k'.
    split; [|done]. apply Hother; [done|]. congruence. }
  split; cbn.
  - intros q Hq. destruct Hcl as [-> Hn']. rewrite Hn' in Hq. pose proof (frames_lt _ _ _ Hok Hl).
    rewrite !lookup_insert_ne by lia. apply Hok. lia.
  - intros q g [[-> ->]|[[-> ->]|(_ & _ & Hq)]]%Hcases; [done|by eapply (sh_executor _ _ _ _ Hsh _ f)|by eapply sh_executor].
  - intros q g [[-> ->]|[[-> ->]|(_ & _ & Hq)]]%Hcases; [done| |by eapply sh_result].
    intros _. eapply (sh_result _ _ _ _ Hsh _ f); [done|]. by rewrite Ha.
  - constructor; [|apply Hsh]. intros Hin. apply (sh_live _ _ _ _ Hsh) in Hin as [? ?]. congruence.
  - intros q [->|Hq]%elem_of_cons; [by eexists|]. by eapply called_mono; [..|eapply sh_live].
  - intros q g [[-> ->]|[[-> ->]|(Hq1 & Hq2 & Hq)]]%Hcases.
    + split; [by eexists|]. intros _. by left.
    + split; [intros [?|?]%elem_of_cons; congruence|]. by intros [? ?].
    + rewrite <- (sh_ready _ _ _ _ Hsh _ _ Hq). split; [by intros [?|?]%elem_of_cons|by right].
  - intros q g [[-> ->]|[[-> ->]|(Hq1 & Hq2 & Hq)]]%Hcases; [done|done|].
    rewrite (sh_active _ _ _ _ Hsh _ _ Hq). split; congruence.
  - done.
  - intros q g p Hq Hp. apply Hcases in Hq as [[-> ->]|[[-> ->]|(Hq1 & Hq2 & Hq)]]; [injection Hp as <-; eauto|eauto..].
  - intros p g q k' Hp Hg. apply Hcases in Hp as [[-> ->]|[[-> ->]|(Hp1 & Hp2 & Hp)]]; [done|injection Hg as <- <-; by eexists|].
    destruct (sh_down _ _ _ _ Hsh _ _ _ _ Hp Hg) as (fq & Hq & Haq). destruct (decide (q = h)) as [->|?]; [|eauto].
    exists (set_at (Waiting ch k) f). split; [done|]. cbn. congruence.
  - intros p g q k' Hp Hg. apply Hcases in Hp as [[-> ->]|[[-> ->]|(_ & _ & Hp)]]; [done| |by eapply sh_order].
    injection Hg as <- <-. exact (frames_lt _ _ _ Hok Hl).
  - intros q g [[-> ->]|[[-> ->]|(_ & _ & Hq)]]%Hcases; [done|done|by eapply sh_final].
  - intros q g [[-> ->]|[[-> ->]|(_ & _ & Hq)]]%Hcases; [|exact (sh_roots _ _ _ _ Hsh h f Hl)|by eapply sh_roots].
    split; [done|]. intros Hin. apply (sh_rooted _ _ _ _ Hsh) in Hin as [? ?]. congruence.
  - intros q Hq. by eapply called_mono; [..|eapply sh_rooted].
Qed.

(** The body calls a coroutine and awaits it. *)
Lemma await_inv h st c k f toks sp s s' :
  Inv (Some (h, st)) toks sp s -> body st = Await c k -> live s !! h = Some f -> called h f c k s s' ->
  Inv None (next_handle s :: toks) sp s'.
Proof.
  intros Hinv Hb Hl Hcl. destruct (cur_frame _ _ _ _ _ Hinv) as (f0 & Hl0 & Ha & _). rewrite Hl in Hl0. injection Hl0 as <-.
  destruct Hinv as [Hsh Hres]. split; [by eapply called_shape|].
  destruct (called_frames _ _ _ _ _ _ (sh_ok _ _ _ _ Hsh) Hl Hcl) as (Hh & Hc & Hother & _).
  assert (forall q stq root r, finishes s q stq root r -> finishes s' q stq root r) as Hfin.
  { intros q stq root r. apply (finishes_stable (fun _ => True)); [| |done].
    - intros u g _ Hu. destruct (decide (u = h)) as [->|?]; [|by eauto]. eexists. split; [done|]. cbn. split; congruence.
    - intros u p g k' _ Hp Hg. split; [done|]. exists g. split; [|done]. apply Hother; [done|]. congruence. }
  intros root st0 r Hin He. destruct (Hres _ _ _ Hin He) as [(g & Hg & Hfi & Hr)|(q & stq & Hgo & Hf)].
  - left. exists g. split; [|done]. apply Hother; [done|]. congruence.
  - right. destruct Hgo as [[= <- <-]|(g & Hg & Hr)].
    + exists (next_handle s), c. split; [right; by eexists|]. pose proof (Hfin _ _ _ _ Hf) as Hf'.
      inversion Hf' as [? f1 ? ? Hl1 Ha1 He1|? f1 p1 g1 k1 ? r1 ? ? Hl1 Ha1 Hp1 Hg1 He1 Hf1]; subst;
        destruct (evals_await_inv _ _ _ _ _ Hb He1) as (r2 & Hr2 & Hr2'); 
        apply (finishes_up s' _ _ _ _ k c r2 _ _ Hc eq_refl Hh eq_refl Hr2).
      * by eapply finishes_root.
      * by eapply finishes_up.
    + exists q, stq. split; [|by apply Hfin]. right. exists g. split; [|done]. apply Hother; [done|]. congruence.
Qed.

(** The frames after [h] has ended and [p], which awaited it, goes on. *)
Definition handed_over (h p : handle) (g : frame) s s' : Prop :=
  live s' = <[p := set_at Active g]> (delete h (live s)) /\ next_handle s' = next_handle s.

Lemma handed_over_cases h p g s s' q f' :
  handed_over h p g s s' -> live s' !! q = Some f' ->
  (q = p /\ f' = set_at Active g) \/ (q <> p /\ q <> h /\ live s !! q = Some f').
Proof. intros [-> _]. rewrite lookup_insert_Some, lookup_delete_Some. intros [[<- <-]|[? [? ?]]]; auto. Qed.

Lemma handed_over_other h p g s s' q f' :
  handed_over h p g s s' -> live s !! q = Some f' -> q <> h -> q <> p -> live s' !! q = Some f'.
Proof. intros [-> _] Hq Hh Hp. by rewrite lookup_insert_ne, lookup_delete_ne. Qed.

Lemma handed_over_shape h p f g k toks roots s s' :
  Shape (Some h) toks roots s -> live s !! h = Some f -> awaiting f = Some p ->
  live s !! p = Some g -> at_ g = Waiting h k -> handed_over h p g s s' -> Shape (Some p) toks roots s'.
Proof.
  intros Hsh Hl Haw Hp Hg Ho. pose proof (sh_ok _ _ _ _ Hsh) as Hok.
  assert (at_ f = Active) as Ha by (by apply (sh_active _ _ _ _ Hsh _ _ Hl)).
  assert (h ∉ toks) as Hn by (rewrite (sh_ready _ _ _ _ Hsh _ _ Hl), Ha; by intros [? ?]).
  assert (live s' !! p = Some (set_at Active g)) as Hp' by (destruct Ho as [-> _]; apply lookup_insert_eq).
  assert (forall q, is_Some (live s !! q) -> q <> h -> is_Some (live s' !! q)) as Hmono.
  { intros q [f' Hq] Hqh. destruct (decide (q = p)) as [->|?]; [by eexists|]. exists f'. by eapply handed_over_other. }
  assert (forall q fq u, live s !! q = Some fq -> q <> h -> awaiting fq = Some u ->
    exists g' k', live s' !! u = Some g' /\ at_ g' = Waiting q k') as Hup.
  { intros q fq u Hq Hqh Hu. destruct (sh_up _ _ _ _ Hsh _ _ _ Hq Hu) as (g' & k' & Hg' & Hk'). exists g', k'.
    split; [|done]. eapply handed_over_other; [done..| |]; congruence. }
  split.
  - intros q Hq. destruct Ho as [-> Hnx]. rewrite Hnx in Hq. pose proof (frames_lt _ _ _ Hok Hp).
    rewrite lookup_insert_ne by lia. apply lookup_delete_None. right. by apply Hok.
  - intros q f' [[-> ->]|(_ & _ & Hq)]%(handed_over_cases _ _ _ _ _ _ _ Ho); [by eapply (sh_executor _ _ _ _ Hsh _ g)|by eapply sh_executor].
  - intros q f' [[-> ->]|(_ & _ & Hq)]%(handed_over_cases _ _ _ _ _ _ _ Ho); [|by eapply sh_result].
    intros _. eapply (sh_result _ _ _ _ Hsh _ g); [done|]. by rewrite Hg.
  - apply Hsh.
  - intros q Hq. apply Hmono; [by eapply sh_live|]. by intros ->.
  - intros q f' [[-> ->]|(_ & _ & Hq)]%(handed_over_cases _ _ _ _ _ _ _ Ho); [|by eapply sh_ready].
    rewrite (sh_ready _ _ _ _ Hsh _ _ Hp), Hg. by split; intros [? ?].
  - intros q f' [[-> ->]|(Hq1 & Hq2 & Hq)]%(handed_over_cases _ _ _ _ _ _ _ Ho); [done|].
    rewrite (sh_active _ _ _ _ Hsh _ _ Hq). split; congruence.
  - intros q [= <-]. by eexists.
  - intros q f' u Hq Hu. apply (handed_over_cases _ _ _ _ _ _ _ Ho) in Hq as [[-> ->]|(_ & Hqh & Hq)]; [|by eapply Hup].
    eapply (Hup p g); [done| |done]. congruence.
  - intros u g' q k' Hu Hg'. apply (handed_over_cases _ _ _ _ _ _ _ Ho) in Hu as [[-> ->]|(Hup1 & Huh & Hu)]; [done|].
    destruct (sh_down _ _ _ _ Hsh _ _ _ _ Hu Hg') as (fq & Hq & Haq). destruct (decide (q = p)) as [->|?].
    + exists (set_at Active g). split; [done|]. cbn. congruence.
    + exists fq. split; [|done]. eapply handed_over_other; [done..| |done]. congruence.
  - intros u g' q k' Hu Hg'. apply (handed_over_cases _ _ _ _ _ _ _ Ho) in Hu as [[-> ->]|(_ & _ & Hu)]; [done|by eapply sh_order].
  - intros q f' [[-> ->]|(_ & _ & Hq)]%(handed_over_cases _ _ _ _ _ _ _ Ho); [done|by eapply sh_final].
  - intros q f' [[-> ->]|(_ & _ & Hq)]%(handed_over_cases _ _ _ _ _ _ _ Ho); [|by eapply sh_roots].
    exact (sh_roots _ _ _ _ Hsh p g Hp).
  - intros q Hq. apply Hmono; [by eapply sh_rooted|]. intros ->. apply (sh_roots _ _ _ _ Hsh _ _ Hl) in Hq. congruence.
Qed.

(** A coroutine ends and the one that awaits it goes on. *)
Lemma finish_up_inv h st r p f g k toks sp s s' :
  Inv (Some (h, st)) toks sp s -> live s !! h = Some f ->
  (forall r', evals (void f) st r' -> r' = returned (void f) r) -> awaiting f = Some p ->
  live s !! p = Some g -> at_ g = Waiting h k -> handed_over h p g s s' ->
  Inv (Some (p, k (returned (void f) r))) toks sp s'.
Proof.
  intros [Hsh Hres] Hl Hb Haw Hp Hg Ho. split; [by eapply handed_over_shape|].
  assert (at_ f = Active) as Ha by (by apply (sh_active _ _ _ _ Hsh _ _ Hl)).
  assert (live s' !! p = Some (set_at Active g)) as Hp' by (destruct Ho as [-> _]; apply lookup_insert_eq).
  assert (forall q stq root r, q <> h -> finishes s q stq root r -> finishes s' q stq root r) as Hfin.
  { intros q stq root r0 Hq. apply (finishes_stable (fun q => q <> h)); [| |done].
    - intros u fu Hu Hlu. destruct (decide (u = p)) as [->|?]; [|exists fu; split; [by eapply handed_over_other|done]].
      eexists. split; [done|]. cbn. split; congruence.
    - intros u v gv kv Hu Hv Hgv. split; [congruence|]. exists gv. split; [|done].
      eapply handed_over_other; [done..| |]; congruence. }
  intros root st0 r0 Hin He. destruct (Hres _ _ _ Hin He) as [(fr & Hfr & Hfi & Hr)|(q & stq & Hgo & Hf)].
  - left. exists fr. split; [|done]. eapply handed_over_other; [done..| |]; congruence.
  - right. destruct Hgo as [[= <- <-]|(fq & Hq & Hr)].
    + exists p, (k (returned (void f) r)). split; [by left|]. apply Hfin; [congruence|].
      inversion Hf as [? f1 ? ? Hl1 Ha1 He1|? f1 p1 g1 k1 ? r1 ? ? Hl1 Ha1 Hp1 Hg1 He1 Hf1]; subst; [congruence|].
      assert (f1 = f) as -> by congruence. apply Hb in He1 as ->. congruence.
    + exists q, stq. assert (q <> h) by congruence. split; [|by apply Hfin]. right. exists fq. split; [|done].
      eapply handed_over_other; [done..|]. congruence.
Qed.

(** What holds after a piece of a body, by how it ended. *)
Definition after_next (h : handle) (toks : list handle) (sp : list (handle * St)) s s' (n : next) : Prop :=
  match n with
  | Continue p st => Inv (Some (p, st)) toks sp s' /\ size (live s') < size (live s)
  | Submit ch => Inv None (ch :: toks) sp s'
  | Park w => Inv None (h :: toks) sp s'
  | Finished => Inv None toks sp s'
  end.

Lemma finish_next h st r toks sp s :
  Inv (Some (h, st)) toks sp s -> (forall b r', evals b st r' -> r' = returned b r) ->
  exists s' n, finish h r s = Ok (s', n) /\ after_next h toks sp s s' n.
Proof.
  intros Hinv Hb. destruct (cur_frame _ _ _ _ _ Hinv) as (f & Hl & Ha & Hex & Hv & Hx & Hn).
  assert (awaiting (set_result r f) = awaiting f /\ result (set_result r f) = returned (void f) r) as [Hw Hr]
    by (by destruct (set_result_result r f Hex Hx) as (? & _ & ? & _)).
  unfold finish, final_suspend, get_frame. rewrite Hl. run_binds. cbn [live set_frame]. rewrite lookup_insert_eq. run_binds.
  rewrite Hw. destruct (awaiting f) as [p|] eqn:Haw.
  - destruct (sh_up _ _ _ _ (proj1 Hinv) _ _ _ Hl Haw) as (g & k & Hp & Hg). assert (h <> p) as Hne by congruence.
    rewrite lookup_insert_ne, Hp by done. run_binds. rewrite Hg. unfold await_resume, get_frame, destroy_frame.
    cbn [live set_frame next_handle]. rewrite lookup_insert_eq. run_binds. rewrite Hr.
    eexists _, _. split; [done|].
    assert (handed_over h p g s (set_frame p (set_at Active g)
      (mkFrames (delete h (<[h := set_result r f]> (live s))) (next_handle s)))) as Ho by (split; [cbn; by rewrite delete_insert_eq|done]).
    split; [eapply finish_up_inv; eauto|]. destruct Ho as [-> _].
    rewrite map_size_insert_Some by (by rewrite lookup_delete_ne). rewrite map_size_delete_Some by done.
    assert (size (live s) <> 0) by (intros Hz%map_size_empty_inv; by rewrite Hz in Hl).
    lia.
  - eexists _, _. split; [done|]. eapply finish_root_inv; eauto.
Qed.

Lemma advance_next h st toks sp s :
  Inv (Some (h, st)) toks sp s -> exists s' n, advance h st s = Ok (s', n) /\ after_next h toks sp s s' n.
Proof.
  intros Hinv. unfold advance. destruct (body st) as [v|e|c k|w st'] eqn:Hb.
  - apply (finish_next h st); [done|]. intros b r'. by eapply evals_return_inv.
  - apply (finish_next h st); [done|]. intros b r'. by eapply evals_raise_inv.
  - destruct (cur_frame _ _ _ _ _ Hinv) as (f & Hl & Ha & Hex & Hv & Hx & Hn).
    assert (h <> next_handle s /\ next_handle s <> h) as [Hne Hne'].
    { pose proof (frames_lt _ _ _ (sh_ok _ _ _ _ (proj1 Hinv)) Hl). lia. }
    unfold create, alloc_frame. cbv beta iota. unfold await_transform, get_frame. cbn [live set_frame next_handle].
    rewrite (lookup_insert_ne (live s) (next_handle s) h), Hl by done. run_binds. rewrite lookup_insert_eq. run_binds.
    cbn [live set_frame next_handle].
    rewrite !(lookup_insert_ne _ (next_handle s) h), Hl by done. run_binds. unfold await_suspend, get_frame. cbn [live set_frame next_handle].
    rewrite (lookup_insert_ne _ h (next_handle s)), lookup_insert_eq by done. run_binds. cbn [executor set_executor]. rewrite Hex.
    eexists _, _. split; [done|]. cbn [after_next]. eapply await_inv; [done..|]. split; [|done]. cbn.
    apply map_eq. intros q. rewrite !lookup_insert. by repeat case_decide.
  - destruct (cur_frame _ _ _ _ _ Hinv) as (f & Hl & _). unfold get_frame. rewrite Hl. run_binds.
    eexists _, _. split; [done|]. by eapply wait_inv.
Qed.

Lemma drive_inv fuel : forall h st toks sp s,
  Inv (Some (h, st)) toks sp s -> size (live s) < fuel ->
  exists s' h' n, drive fuel h st s = Ok (s', h', n) /\ Inv None (submits n ++ (parks h' n).*1 ++ toks) sp s'.
Proof.
  induction fuel as [|fuel IH]; intros h st toks sp s Hinv Hf; [lia|]. cbn [drive].
  destruct (advance_next _ _ _ _ _ Hinv) as (s1 & n & Ha & Hn). rewrite Ha. run_binds.
  destruct n as [p stp|ch|w|]; cbn in Hn.
  - destruct Hn as [Hinv1 Hs]. apply IH; [done|lia].
  - eauto.
  - eauto.
  - eauto.
Qed.

(** Resuming a coroutine that is due. *)
Lemma resume_inv h toks sp s :
  Inv None (h :: toks) sp s ->
  exists s' h' n, resume h s = Ok (s', h', n) /\ Inv None (submits n ++ (parks h' n).*1 ++ toks) sp s'.
Proof.
  intros [Hsh Hres]. assert (h ∈ h :: toks) as Hin by (by left). destruct (sh_live _ _ _ _ Hsh _ Hin) as [f Hl].
  destruct (proj1 (sh_ready _ _ _ _ Hsh _ _ Hl) Hin) as [st Ha]. unfold resume, get_frame. rewrite Hl. run_binds. rewrite Ha.
  pose proof (sh_toks _ _ _ _ Hsh) as [Hn Hnd]%NoDup_cons.
  clear Hin. apply drive_inv; [|cbn; rewrite map_size_insert_Some by done; lia]. split.
  - eapply touch_shape; [done|done|done|exact (sh_executor _ _ _ _ Hsh _ _ Hl)| |by rewrite Ha|done|done|done| | | |].
    + intros _. eapply (sh_result _ _ _ _ Hsh _ f); [done|]. by rewrite Ha.
    + intros q Hq. split; [by right|by intros [?|?]%elem_of_cons].
    + split; [done|]. by intros [? ?].
    + cbn. intros q Hq. split; congruence.
    + done.
  - intros root st0 r Hin He. destruct (Hres _ _ _ Hin He) as [(g & Hg & Hfin & Hr)|(q & stq & Hgo & Hf)].
    + left. exists g. cbn. rewrite lookup_insert_ne; [done|]. intros <-. congruence.
    + right. destruct Hgo as [?|(g & Hg & Hr)]; [done|]. exists q, stq.
      split; [|eapply touch_finishes; [done|done|done|by rewrite Ha|done]]. destruct (decide (q = h)) as [->|?].
      * left. congruence.
      * right. exists g. cbn. by rewrite lookup_insert_ne.
Qed.

(** A coroutine is created and spawned. *)
Lemma spawn_inv st h s1 s2 toks sp s :
  Inv None toks sp s -> create st s = (h, s1) -> co_spawn (Some h) s1 = Ok (h, s2) ->
  Inv None (h :: toks) (sp ++ [(h, st)]) s2.
Proof.
  intros [Hsh Hres] [= <- <-]. unfold co_spawn, get_frame. cbn [live]. rewrite lookup_insert_eq. run_binds. cbn.
  intros [= <-]. set (h := next_handle s). pose proof (sh_ok _ _ _ _ Hsh) as Hok.
  assert (live s !! h = None) as Hh by (by apply Hok).
  set (f := mkFrame (is_void st) true None None None (Ready st)). set (s2 := set_frame _ _ _).
  assert (live s2 = <[h := f]> (live s)) as Hs2 by (cbn; by rewrite insert_insert_eq).
  assert (forall q g, live s !! q = Some g -> live s2 !! q = Some g) as Hother.
  { intros q g Hq. rewrite Hs2, lookup_insert_ne; [done|]. congruence. }
  split; [split|].
  - apply (set_ok h (mkFrame (is_void st) false None None None (Ready st))); [apply (alloc_ok _ _ Hok)|apply lookup_insert_eq].
  - intros q g. rewrite Hs2. intros [[<- <-]|[_ Hq]]%lookup_insert_Some; [done|by eapply sh_executor].
  - intros q g. rewrite Hs2. intros [[<- <-]|[_ Hq]]%lookup_insert_Some; [done|by eapply sh_result].
  - constructor; [|apply Hsh]. intros [? ?]%(sh_live _ _ _ _ Hsh). congruence.
  - intros q Hq. rewrite Hs2. apply lookup_insert_is_Some'. apply elem_of_cons in Hq as [->|Hq]; [by left|right]. by eapply sh_live.
  - intros q g. rewrite Hs2. intros [[<- <-]|[Hne Hq]]%lookup_insert_Some; [split; [by eexists|by left]|].
    rewrite <- (sh_ready _ _ _ _ Hsh _ _ Hq). split; [by intros [?|?]%elem_of_cons|by right].
  - intros q g. rewrite Hs2. intros [[<- <-]|[Hne Hq]]%lookup_insert_Some; [done|by eapply (sh_active _ _ _ _ Hsh)].
  - done.
  - intros q g p. rewrite Hs2. intros [[<- <-]|[Hne Hq]]%lookup_insert_Some Ha; [done|]. rewrite <- Hs2.
    destruct (sh_up _ _ _ _ Hsh _ _ _ Hq Ha) as (g' & k & Hp & Hg). eauto.
  - intros p g q k. rewrite Hs2. intros [[<- <-]|[Hne Hp]]%lookup_insert_Some Hg; [done|]. rewrite <- Hs2.
    destruct (sh_down _ _ _ _ Hsh _ _ _ _ Hp Hg) as (g' & Hq & Ha). eauto.
  - intros p g q k. rewrite Hs2. intros [[<- <-]|[_ Hp]]%lookup_insert_Some Hg; [done|by eapply sh_order].
  - intros q g. rewrite Hs2. intros [[<- <-]|[_ Hq]]%lookup_insert_Some Hg; [done|by eapply sh_final].
  - intros q g. rewrite Hs2, fmap_app, elem_of_app. intros [[<- <-]|[Hne Hq]]%lookup_insert_Some; [split; [|done]; right; by left|].
    rewrite (sh_roots _ _ _ _ Hsh _ _ Hq). split; [by left|]. intros [?|Hc]; [done|]. cbn in Hc. by apply list_elem_of_singleton in Hc.
  - intros q. rewrite fmap_app, elem_of_app, Hs2, lookup_insert_is_Some'. cbn. rewrite list_elem_of_singleton.
    intros [Hq| ->]; [right; by eapply sh_rooted|by left].
  - assert (forall q stq root r, finishes s q stq root r -> finishes s2 q stq root r) as Hfin.
    { intros q stq root r. apply (finishes_stable (fun _ => True)); [| |done]; eauto 6. }
    intros root st0 r [Hin|Hin]%elem_of_app He.
    + destruct (Hres _ _ _ Hin He) as [(g & Hg & Hr)|(q & stq & [?|(g & Hg & Hr)] & Hf)]; [left; eauto|done|].
      right. exists q, stq. split; [right; eauto|by apply Hfin].
    + apply list_elem_of_singleton in Hin as [= -> ->]. right. exists h, st.
      assert (live s2 !! h = Some f) as Hf by (rewrite Hs2; apply lookup_insert_eq).
      split; [right; by exists f|]. by eapply finishes_root.
Qed.

(** ** The system's invariant *)

(** The coroutines that will be resumed. *)
Definition tokens (x : system) : list handle :=
  submitting x ++ ex_pending (pool x) ++ running x ++ (parked x).*1.

Definition SysInv (x : system) : Prop := ex_ok (pool x) /\ Inv None (tokens x) (spawned x) (mem x).

Lemma awaitable_start_inv e : ex_ok e -> ex_pending e = [] -> SysInv (start e).
Proof.
  intros Hok Hp. split; [done|]. unfold tokens. cbn. rewrite Hp. split.
  - split; cbn; try done; try (by intros h ?%not_elem_of_nil). apply NoDup_nil_2.
  - by intros root st r ?%not_elem_of_nil.
Qed.

Lemma awaitable_step_inv x y : SysInv x -> step x y -> SysInv y.
Proof.
  intros [Hok Hinv] Hstep.
  destruct Hstep as [st h s s' x Hc Hs|h l r e x Hl He|h e x He|h l r s h' n x Hl Hr|h e x He _|e x He|h w l r x Hl];
    unfold SysInv, tokens in *; cbn.
  - split; [done|]. eapply inv_perm; [|by eapply spawn_inv]. solve_Permutation.
  - destruct (ex_submit_law _ _ _ Hok He) as (Hok' & Hp & _). split; [done|]. eapply inv_perm; [|done].
    rewrite Hl, Hp. solve_Permutation.
  - destruct (ex_start_law _ _ _ Hok He) as (Hok' & Hp & _). split; [done|]. eapply inv_perm; [|done].
    rewrite Hp. solve_Permutation.
  - split; [done|]. eapply inv_perm in Hinv; [|etrans; [rewrite Hl|]; [done|]].
    + destruct (resume_inv h (submitting x ++ ex_pending (pool x) ++ (l ++ r) ++ (parked x).*1) _ _ Hinv)
        as (s1 & h1 & n1 & Hr1 & Hinv1).
      rewrite Hr in Hr1. injection Hr1 as <- <- <-. eapply inv_perm; [|done]. rewrite fmap_app. solve_Permutation.
    + solve_Permutation.
  - destruct (ex_finish_law _ _ _ Hok He) as (Hok' & Hp & _). split; [done|]. eapply inv_perm; [|done]. by rewrite Hp.
  - destruct (ex_silent_law _ _ Hok He) as (Hok' & Hp & _). split; [done|]. eapply inv_perm; [|done]. by rewrite Hp.
  - split; [done|]. eapply inv_perm; [|done]. rewrite Hl, !fmap_app. cbn. solve_Permutation.
Qed.

Lemma awaitable_reachable_inv x : reachable x -> SysInv x.
Proof.
  intros (e & Hok & Hp & Hr). refine (rtc_ind_r (R := step) SysInv (start e) _ _ x Hr); [by apply awaitable_start_inv|].
  intros y z _ Hs Hy. by eapply awaitable_step_inv.
Qed.

(** Resuming any coroutine whose closure was started. *)
Lemma running_resumes x h l r :
  SysInv x -> running x = l ++ h :: r -> exists s h' n, resume h (mem x) = Ok (s, h', n).
Proof.
  intros [_ Hinv] Hl. unfold tokens in Hinv. rewrite Hl in Hinv.
  destruct (resume_inv h (submitting x ++ ex_pending (pool x) ++ (l ++ r) ++ (parked x).*1) (spawned x) (mem x))
    as (s & h' & n & Hr & _); [|eauto].
  eapply inv_perm; [|done]. solve_Permutation.
Qed.

(** When nothing will be resumed, every coroutine has ended. *)
Lemma quiescent_final roots s h f : Shape None [] roots s -> live s !! h = Some f -> at_ f = Final.
Proof.
  intros Hsh. remember (next_handle s - h) as d eqn:Hd. revert h f Hd.
  induction (lt_wf d) as [d _ IH]. intros h f -> Hl. destruct (at_ f) as [st|ch k| |] eqn:Ha; [| | |done].
  - assert (h ∈ @nil handle) as ?%not_elem_of_nil; [|done]. apply (sh_ready _ _ _ _ Hsh _ _ Hl). by eexists.
  - destruct (sh_down _ _ _ _ Hsh _ _ _ _ Hl Ha) as (g & Hg & Haw).
    pose proof (sh_order _ _ _ _ Hsh _ _ _ _ Hl Ha). pose proof (frames_lt _ _ _ (sh_ok _ _ _ _ Hsh) Hg).
    assert (at_ g = Final) as Hf by (eapply (IH (next_handle s - ch)); [lia|done|done]).
    apply (sh_final _ _ _ _ Hsh _ _ Hg) in Hf. congruence.
  - by apply (sh_active _ _ _ _ Hsh _ _ Hl) in Ha.
Qed.

(** ** Theorems *)

(** C12: resuming never goes wrong.  In every reachable state, every closure that a
    worker of the executor has started can resume its coroutine: the frame is
    alive and suspended, the coroutines resumed in turn by the ones that end
    are alive and waiting for them, no frame is used after it was destroyed,
    every executor pointer is set where the code asserts it, and the chain of
    resumptions ends. *)
Theorem resumption_is_safe x h :
  reachable x -> h ∈ running x -> exists s h' n, resume h (mem x) = Ok (s, h', n).
Proof. intros Hinv%awaitable_reachable_inv (l & r & Hl)%list_elem_of_split. by eapply running_resumes. Qed.

(** C11: spawned coroutines compute what their bodies compute.  When nothing is left
    to be resumed, every coroutine given to [co_spawn] whose body, run as an
    ordinary function that calls what it awaits, has a result has ended with
    that result, an exception included.  The frames of all coroutines that were
    awaited are destroyed; those of the spawned ones, and no others, are still
    there: nothing destroys them. *)
Theorem spawned_coroutines_compute x :
  reachable x -> tokens x = [] ->
  (forall root st r, (root, st) ∈ spawned x -> evals (is_void st) st r ->
     exists f, live (mem x) !! root = Some f /\ at_ f = Final /\ result f = r) /\
  (forall h, is_Some (live (mem x) !! h) <-> h ∈ (spawned x).*1).
Proof.
  intros [_ [Hsh Hres]]%awaitable_reachable_inv Ht. rewrite Ht in Hsh. split.
  - intros root st r Hin He. destruct (Hres _ _ _ Hin He) as [H|(h & sth & [?|(f & Hl & Ha)] & _)]; [done|done|].
    rewrite (quiescent_final _ _ _ _ Hsh Hl) in Ha. done.
  - intros h. split; [|by eapply sh_rooted]. intros [f Hl]. apply (sh_roots _ _ _ _ Hsh _ _ Hl).
    eapply sh_final; [done..|]. by eapply quiescent_final.
Qed.

(** The steps that are not decided by others. *)
Definition own_step (x y : system) : Prop := step x y /\ spawned y = spawned x /\ length (parked x) <= length (parked y).

Lemma executor_steps x :
  running x = [] ->
  (exists c e', ex_start c (pool x) e') \/ (exists c e', ex_finish c (pool x) e') \/ (exists e', ex_silent (pool x) e') ->
  exists y, own_step x y.
Proof.
  intros Hr [(c & e & He)|[(c & e & He)|[e He]]]; eexists.
  - split; [by eapply step_start|done].
  - split; [eapply step_return; [done|rewrite Hr; apply submseteq_nil_l]|done].
  - split; [by eapply step_silent|done].
Qed.

(** No coroutine is forgotten: while the executor runs and some coroutine is to
    be resumed that is not suspended at an awaiter of another kind, the system
    can make a step of its own. *)
Theorem coroutines_progress x :
  reachable x -> ex_runs (pool x) -> submitting x ++ ex_pending (pool x) ++ running x <> [] -> exists y, own_step x y.
Proof.
  intros Hinv%awaitable_reachable_inv Hruns Hne. destruct (running x) as [|h r] eqn:Hr.
  - destruct (submitting x) as [|h l] eqn:Hs.
    + apply executor_steps; [done|]. apply ex_progress; [apply Hinv|done|]. intros Hp. by rewrite Hp in Hne.
    + destruct (ex_accept h (pool x) (proj1 Hinv)) as [[e He]|He]; [|by apply executor_steps].
      eexists. split; [by eapply (step_submit h [])|]. done.
  - destruct (running_resumes x h [] r Hinv Hr) as (s & h' & n & Hs). eexists.
    split; [by eapply (step_resume h [])|]. split; [done|]. cbn. rewrite length_app. lia.
Qed.

End awaitable.

(** ** Who destroys a frame *)

(** The objects of a program that hold coroutines which were called and not awaited
    yet.  [co_spawn] takes the handle out of its object and gives it to nobody. *)
Section objects.
Context {V St : Type} (is_void : St -> bool).

Abbreviation heap := (frames (frame (V := V) (St := St))).

Record world : Type := mkWorld { objects : gmap nat (option handle); memory : heap; detached : list handle }.

Definition empty_world : world := mkWorld ∅ no_frames [].

Inductive op : Type :=
| Call (x : nat) (st : St)         (** [auto x = coroutine(...);] *)
| Move (x y : nat)                 (** [Awaitable<T> x(std::move(y));] *)
| Assign (x y : nat)               (** [x = std::move(y);] *)
| Spawn (x : nat)                  (** [co_spawn(pool, std::move(x));] *)
| Leave (x : nat).                 (** the scope of [x] ends *)

(** [if (handle) handle.destroy();] *)
Definition release (a : option handle) (s : heap) : outcome heap :=
  match a with Some h => destroy_frame h s | None => Ok s end.

Definition move_new (x y : nat) (a : option handle) (w : world) : world :=
  mkWorld (<[x := a]> (<[y := None]> (objects w))) (memory w) (detached w).

Definition move_assign (x y : nat) (ax ay : option handle) (w : world) : outcome world :=
  if decide (x = y) then Ok w
  else s ← release ax (memory w); Ok (mkWorld (<[x := ay]> (<[y := None]> (objects w))) s (detached w)).

Definition spawn (x : nat) (a : option handle) (w : world) : outcome world :=
  '(h, s) ← co_spawn a (memory w); Ok (mkWorld (<[x := None]> (objects w)) s (h :: detached w)).

(** One operation; [None] when a name is not in scope, or already is. *)
Definition exec (o : op) (w : world) : option (outcome world) :=
  match o with
  | Call x st =>
      match objects w !! x with
      | None =>
          let '(h, s) := create is_void st (memory w) in
          Some (a ← awaitable (Some h); Ok (mkWorld (<[x := a]> (objects w)) s (detached w)))
      | Some _ => None
      end
  | Move x y =>
      match objects w !! x, objects w !! y with
      | None, Some a => Some (Ok (move_new x y a w))
      | _, _ => None
      end
  | Assign x y => ax ← objects w !! x; ay ← objects w !! y; Some (move_assign x y ax ay w)
  | Spawn x => a ← objects w !! x; Some (spawn x a w)
  | Leave x => a ← objects w !! x; Some (s ← release a (memory w); Ok (mkWorld (delete x (objects w)) s (detached w)))
  end.

Fixpoint exec_all (os : list op) (w : world) : option (outcome world) :=
  match os with
  | [] => Some (Ok w)
  | o :: os =>
      r ← exec o w;
      match r with
      | Ok w => exec_all os w
      | r => Some r
      end
  end.

(** A frame that is alive and was not spawned. *)
Definition kept (w : world) (h : handle) : Prop := is_Some (live (memory w) !! h) /\ h ∉ detached w.

Record Own (w : world) : Prop := {
  own_frames : frames_ok (memory w);
  own_exclusive : Exclusive (objects w) (kept w);
  own_detached : forall h, h ∈ detached w -> is_Some (live (memory w) !! h)
}.

Lemma objects_empty_own : Own empty_world.
Proof.
  split; [done| |by intros h ?%elem_of_nil]. apply exclusive_nothing. by intros h [[f ?] _].
Qed.

Lemma objects_reown w os : Own w -> Exclusive os (kept w) -> Own (mkWorld os (memory w) (detached w)).
Proof. intros [? ? ?] ?. by split. Qed.

Lemma objects_release_own w x a :
  Own w -> objects w !! x = Some a ->
  exists s, release a (memory w) = Ok s /\ Own (mkWorld (<[x := None]> (objects w)) s (detached w)).
Proof.
  intros Hown Hx. destruct a as [h|]; [|exists (memory w); split; [done|]; rewrite insert_id by done; by destruct w].
  destruct Hown as [Hf Hex Hd]. destruct (held_alive _ _ Hex _ _ Hx) as [[f Hl] Hn].
  unfold release, destroy_frame. rewrite Hl. eexists. split; [done|]. split; cbn.
  - eapply (destroy_ok h (memory w)); [done|]. unfold destroy_frame. by rewrite Hl.
  - eapply exclusive_iff; [by apply (exclusive_release _ _ x h Hex)|]. intros h'. unfold kept. cbn.
    rewrite lookup_delete_is_Some. split; [intros [[? ?] ?]|intros [[? ?] ?]]; split_and!; congruence || done.
  - intros h' Hh'. apply lookup_delete_is_Some. split; [congruence|auto].
Qed.

Lemma spawn_own w x h :
  Own w -> objects w !! x = Some (Some h) -> exists w', spawn x (Some h) w = Ok w' /\ Own w'.
Proof.
  intros [Hf Hex Hd] Hx. destruct (held_alive _ _ Hex _ _ Hx) as [[f Hl] Hn].
  unfold spawn, co_spawn, get_frame. rewrite Hl. run_binds. eexists. split; [done|]. split; cbn.
  - by eapply set_ok.
  - eapply exclusive_iff; [by apply (exclusive_release _ _ x h Hex)|]. intros h'. unfold kept. cbn.
    rewrite lookup_insert_is_Some', not_elem_of_cons. split; [|tauto]. intros [[->|?] [? ?]]; tauto.
  - intros h' Hh'. apply lookup_insert_is_Some'. apply elem_of_cons in Hh' as [->|?]; auto.
Qed.

Lemma exec_own_awaitable o w r :
  Own w -> exec o w = Some r ->
  (exists w', r = Ok w' /\ Own w') \/
  (exists x, o = Spawn x /\ objects w !! x = Some None /\ r = Throw (InvalidArgument (lit "Coroutine handle is null"))).
Proof.
  intros Hown. destruct o as [x st|x y|x y|x|x]; cbn [exec].
  - destruct (objects w !! x) eqn:Hx; [done|]. intros [= <-]. left. eexists. split; [done|]. destruct Hown as [Hf Hex Hd].
    assert (live (memory w) !! next_handle (memory w) = None) as Hnew by (by apply Hf).
    split; cbn.
    + apply (alloc_ok (mkFrame (is_void st) false None None None (Ready st))), Hf.
    + eapply exclusive_iff; [apply (exclusive_new _ _ x (next_handle (memory w)) Hex Hx)|].
      * unfold kept. rewrite Hnew. by intros [[? ?] _].
      * intros h. unfold kept. cbn. rewrite lookup_insert_is_Some'. split; [intros [[->|?] ?]; auto|].
        intros [->|[? ?]]; [|auto]. split; [by left|]. intros [? ?]%Hd. congruence.
    + intros h Hh. apply lookup_insert_is_Some'. auto.
  - destruct (objects w !! x) eqn:Hx; [done|]. destruct (objects w !! y) as [a|] eqn:Hy; [|done]. intros [= <-]. left.
    eexists. split; [done|]. apply objects_reown; [done|]. apply exclusive_transfer; [apply Hown|auto|done|congruence].
  - intros (ax & Hx & (ay & Hy & [= <-])%bind_Some)%bind_Some. left. unfold move_assign. case_decide as Hxy; [by exists w|].
    destruct (objects_release_own _ _ _ Hown Hx) as (s & -> & Hs). run_binds. eexists. split; [done|].
    apply (objects_reown (mkWorld (<[x := None]> (objects w)) s (detached w))); [done|].
    pose proof (exclusive_transfer _ _ x y ay (own_exclusive _ Hs)) as Ht. cbn in Ht |- *. rewrite lookup_insert_eq, lookup_insert_ne in Ht by done.
    rewrite (insert_insert_ne (objects w) y x), insert_insert_eq in Ht by done. apply Ht; auto.
  - intros (a & Hx & [= <-])%bind_Some. destruct a as [h|]; [left; by apply spawn_own|right; by exists x].
  - intros (a & Hx & [= <-])%bind_Some. left. destruct (objects_release_own _ _ _ Hown Hx) as (s & -> & Hs). eexists. split; [done|].
    apply (objects_reown (mkWorld (<[x := None]> (objects w)) s (detached w))); [done|].
    pose proof (exclusive_leave _ _ x (own_exclusive _ Hs) (lookup_insert_eq _ _ _)) as He. cbn in He.
    by rewrite delete_insert_eq in He.
Qed.

Lemma exec_all_own_awaitable os : forall w r,
  Own w -> exec_all os w = Some r ->
  (exists w', r = Ok w' /\ Own w') \/ r = Throw (InvalidArgument (lit "Coroutine handle is null")).
Proof.
  induction os as [|o os IH]; intros w r Hown; cbn; [intros [= <-]; left; by exists w|].
  intros (r1 & Ho & Hr)%bind_Some.
  destruct (exec_own_awaitable _ _ _ Hown Ho) as [(w1 & -> & Hown1)|(x & _ & _ & ->)]; [by apply (IH w1)|].
  injection Hr as <-. by right.
Qed.

(** Awaitables own the frames of the coroutines that were called.  Whatever a
    program does with its awaitables, nothing is undefined, and the only exception
    is that of spawning an awaitable that was moved from.  A frame that is alive is
    held by exactly one awaitable, or was spawned; when all awaitables are gone,
    what is left are the frames of the spawned coroutines, which nothing destroys. *)
Theorem awaitables_own_frames os r :
  exec_all os empty_world = Some r ->
  r = Throw (InvalidArgument (lit "Coroutine handle is null")) \/
  exists w, r = Ok w /\
    (forall h, is_Some (live (memory w) !! h) /\ h ∉ detached w <->
       exists x, objects w !! x = Some (Some h) /\ forall y, objects w !! y = Some (Some h) -> y = x) /\
    (objects w = ∅ -> forall h, is_Some (live (memory w) !! h) <-> h ∈ detached w).
Proof.
  intros [(w & -> & Hown)|Hr]%(exec_all_own_awaitable _ _ _ objects_empty_own); [right|by left].
  exists w. split; [done|]. destruct Hown as [Hf Hex Hd]. split.
  - intros h. apply (exclusive_owner _ _ h Hex).
  - intros He h. split; [|apply Hd]. intros Hl. destruct (decide (h ∈ detached w)) as [|Hn]; [done|].
    destruct (alive_held _ _ Hex h) as [x Hx]; [done|]. by rewrite He, lookup_empty in Hx.
Qed.

End objects.

Lemma awaitables_own_frames_witness :
  exists w : world (V := nat), exec_all (fun n => n =? 7) [Call 0 7; Call 1 8; Assign 0 1; Move 2 0; Call 3 9; Spawn 3; Leave 0; Leave 1; Leave 2; Leave 3]
      empty_world = Some (Ok w) /\ objects w = ∅ /\ (objects w = ∅ -> forall h, is_Some (live (memory w) !! h) <-> h ∈ detached w).
Proof.
  set (os := [Call 0 7; Call 1 8; Assign 0 1; Move 2 0; Call 3 9; Spawn 3; Leave 0; Leave 1; Leave 2; Leave 3]).
  assert (exists w : world (V := nat), exec_all (fun n => n =? 7) os empty_world = Some (Ok w) /\ objects w = ∅) as (w & Hw & He)
    by (eexists; split; [vm_compute; reflexivity|by vm_compute]).
  destruct (awaitables_own_frames (fun n => n =? 7) os (Ok w) Hw) as [?|(w' & [= <-] & _ & H)]; [done|]. by exists w.
Defined.

(** ** An example *)

(** [test], an [Awaitable<void>], awaits [test_1], which returns 1, and returns. *)
Definition test_body (st : nat) : action nat unit nat :=
  match st with
  | 0 => Await 1 (fun r => match r with inl _ => 3 | inr _ => 2 end)
  | 1 => Return 1
  | 2 => Raise BadAlloc
  | _ => Return 0
  end.

Definition test_void (st : nat) : bool := st =? 0.

Definition fresh_queue : queue handle := mkQueue [] [].

(** The system when [test] was spawned and its first resumption has been started,
    and when it has ended. *)
Definition test_started : system (V := nat) (W := unit) (St := nat) (E := queue handle) :=
  mk (mkFrames {[0 := mkFrame true true None None None (Ready 0)]} 1) (mkQueue [] [0]) [] [0] [] [(0, 0)].

Definition test_ended : system (V := nat) (W := unit) (St := nat) (E := queue handle) :=
  mk (mkFrames {[0 := mkFrame true true None None None Final]} 2) (mkQueue [] [1; 0]) [] [] [] [(0, 0)].

Lemma test_started_steps : rtc (step test_body test_void 0) (start fresh_queue) test_started.
Proof.
  eapply rtc_l; [eapply (step_spawn _ _ _ 0); [done|by vm_compute]|]. cbn.
  eapply rtc_l; [eapply (step_submit _ _ _ 0 []); done|]. cbn.
  eapply rtc_l; [eapply (step_start _ _ _ 0); by exists []|]. cbn. apply rtc_refl.
Qed.

Lemma test_ended_steps : rtc (step test_body test_void 0) test_started test_ended.
Proof.
  eapply rtc_l; [eapply (step_resume _ _ _ 0 []); [done|by vm_compute]|]. cbn.
  eapply rtc_l; [eapply (step_submit _ _ _ 1 []); done|]. cbn.
  eapply rtc_l; [eapply (step_start _ _ _ 1); by exists []|]. cbn.
  eapply rtc_l; [eapply (step_resume _ _ _ 1 []); [done|by vm_compute]|]. cbn. apply rtc_refl.
Qed.

Lemma resumption_is_safe_witness : exists s h' n, resume test_body test_void 0 0 (mem test_started) = Ok (s, h', n).
Proof.
  apply (resumption_is_safe test_body test_void 0 test_started 0).
  - exists fresh_queue. split; [done|]. split; [done|]. apply test_started_steps.
  - by left.
Defined.

Lemma coroutines_progress_witness : exists y, own_step test_body test_void 0 test_started y.
Proof.
  apply (coroutines_progress test_body test_void 0 test_started).
  - exists fresh_queue. split; [done|]. split; [done|]. apply test_started_steps.
  - done.
  - done.
Defined.

Lemma spawned_coroutines_compute_witness :
  exists f, live (mem test_ended) !! 0 = Some f /\ at_ f = Final /\ result 0 f = inl 0.
Proof.
  apply (spawned_coroutines_compute test_body test_void 0 test_ended) with (st := 0).
  - exists fresh_queue. split; [done|]. split; [done|]. etrans; [apply test_started_steps|apply test_ended_steps].
  - done.
  - by left.
  - apply (evals_await _ _ _ _ _ 1 (fun r => match r with inl _ => 3 | inr _ => 2 end) (inl 1)); [done|by apply (evals_return _ _ _ false)|].
    by apply (evals_return _ _ _ true 3 0).
Defined.

End Awaitable.
