(* ===== verification/AwaitableVoid.v ===== *)
(** * The void specialisation of Awaitable

    Models the second half of src/include/coro/Awaitable.hpp, which writes
    [Awaitable<void>] out once more instead of sharing code with [Awaitable<T>].  The
    definitions here follow that text: its promise has no value, its [return_void] does
    nothing and its [await_resume] only rethrows.

    The theorem: coroutines of the specialisation behave as those of the template in
    Awaitable.v that are declared void, operation by operation and in whole
    resumptions, so what is proved there of mixed programs is about this text as well. *)

From S2P Require Import Prelude Coroutine Awaitable.
Import Awaitable (action, Return, Raise, Await, Wait, point, Ready, Waiting, Active, Final).

Module AwaitableVoid.

Section void.
Context {W St : Type} (body : St -> action unit W St).

(** [promise_type], and where the body is. *)
Record frame : Type := mkFrame {
  executor : bool;             (** the pointer is set *)
  awaiting : option handle;
  exception : option exn;
  at_ : point unit St
}.

Abbreviation heap := (frames frame).
Implicit Types (s : heap) (h ch p : handle) (f g : frame).

Definition set_at (a : point unit St) f : frame := mkFrame (executor f) (awaiting f) (exception f) a.

(** Calling a coroutine function: [get_return_object] and [initial_suspend]. *)
Definition get_return_object (st : St) s : handle * heap := alloc_frame (mkFrame false None None (Ready st)) s.

(** [explicit Awaitable(std::coroutine_handle)] *)
Definition awaitable (a : option handle) : outcome (option handle) :=
  match a with None => Throw (InvalidArgument (lit "Coroutine handle is null")) | Some _ => Ok a end.

(** [return_void()] and [unhandled_exception()], on the way to the final suspension
    point. *)
Definition return_void f : frame := set_at Final f.
Definition unhandled_exception (e : exn) f : frame := mkFrame (executor f) (awaiting f) (Some e) Final.

(** [await_transform(Awaitable<void>)], which overload resolution prefers to the
    template with the same body. *)
Definition await_transform h ch s : outcome heap :=
  f ← get_frame h s;
  g ← get_frame ch s;
  Ok (set_frame ch (mkFrame (executor f) (awaiting g) (exception g) (at_ g)) s).

(** [await_suspend(h)] of the awaitable [ch], up to [addTask]. *)
Definition await_suspend ch h s : outcome heap :=
  g ← get_frame ch s;
  if executor g then Ok (set_frame ch (mkFrame (executor g) (Some h) (exception g) (at_ g)) s)
  else Throw (AssertionFailed (lit "p.executor")).

(** [await_resume()] *)
Definition await_resume ch s : outcome (unit + exn) :=
  g ← get_frame ch s;
  Ok (match exception g with Some e => inr e | None => inl tt end).

(** [final_awaiter::await_suspend]; the coroutine that goes on takes the result and
    destroys the awaitable it awaited. *)
Definition final_suspend h s : outcome (heap * Awaitable.next (W := W) (St := St)) :=
  f ← get_frame h s;
  match awaiting f with
  | None => Ok (s, Awaitable.Finished)
  | Some p =>
      g ← get_frame p s;
      match at_ g with
      | Waiting ch k =>
          r ← await_resume ch s;
          s ← destroy_frame ch s;
          Ok (set_frame p (set_at Active g) s, Awaitable.Continue p (k r))
      | _ => Undefined
      end
  end.

(** The body of [h], which is at [st], up to where it suspends or ends. *)
Definition advance h (st : St) s : outcome (heap * Awaitable.next (W := W) (St := St)) :=
  match body st with
  | Return _ => f ← get_frame h s; final_suspend h (set_frame h (return_void f) s)
  | Raise e => f ← get_frame h s; final_suspend h (set_frame h (unhandled_exception e f) s)
  | Await c k =>
      let '(ch, s) := get_return_object c s in
      s ← await_transform h ch s;
      f ← get_frame h s;
      s ← await_suspend ch h (set_frame h (set_at (Waiting ch k) f) s);
      Ok (s, Awaitable.Submit ch)
  | Wait w st =>
      f ← get_frame h s;
      Ok (set_frame h (set_at (Ready st) f) s, Awaitable.Park w)
  end.

Fixpoint drive (fuel : nat) h (st : St) s : outcome (heap * handle * Awaitable.next (W := W) (St := St)) :=
  match fuel with
  | O => OutOfFuel
  | S fuel =>
      '(s, n) ← advance h st s;
      match n with
      | Awaitable.Continue h st => drive fuel h st s
      | n => Ok (s, h, n)
      end
  end.

(** [handle.resume()] *)
Definition resume h s : outcome (heap * handle * Awaitable.next (W := W) (St := St)) :=
  f ← get_frame h s;
  match at_ f with
  | Ready st => drive (S (size (live s))) h st (set_frame h (set_at Active f) s)
  | _ => Undefined
  end.

(** ** Moves and destruction *)

(** The destructor. *)
Definition release (a : option handle) s : outcome heap :=
  match a with Some h => destroy_frame h s | None => Ok s end.

(** [Awaitable(Awaitable&& other)]: the handles of the new and of the old object. *)
Definition move_new (other : option handle) : option handle * option handle := (other, None).

(** [operator=(Awaitable&& other)], of an object to another: both handles afterwards. *)
Definition move_assign (same : bool) (a other : option handle) s : outcome (option handle * option handle * heap) :=
  if same then Ok (a, other, s) else s ← release a s; Ok (other, None, s).

(** ** The specialisation and the template *)

(** A frame of the specialisation as a frame of the template that is declared void. *)
Definition up f : Awaitable.frame (V := unit) (St := St) :=
  Awaitable.mkFrame true (executor f) (awaiting f) None (exception f) (at_ f).
Definition ups s : frames (Awaitable.frame (V := unit) (St := St)) := mkFrames (up <$> live s) (next_handle s).

Lemma get_ups h s : get_frame h (ups s) = up <$> get_frame h s.
Proof. unfold get_frame, ups. cbn. rewrite lookup_fmap. by destruct (live s !! h). Qed.

Lemma set_ups h f s : set_frame h (up f) (ups s) = ups (set_frame h f s).
Proof. unfold set_frame, ups. cbn. by rewrite fmap_insert. Qed.

Lemma destroy_ups h s : destroy_frame h (ups s) = ups <$> destroy_frame h s.
Proof. unfold destroy_frame, ups. cbn. rewrite lookup_fmap. destruct (live s !! h); [cbn; by rewrite fmap_delete|done]. Qed.

Lemma create_ups st s :
  Awaitable.create (fun _ => true) st (ups s) = ((get_return_object st s).1, ups (get_return_object st s).2).
Proof. unfold Awaitable.create, get_return_object, alloc_frame, ups. cbn. by rewrite fmap_insert. Qed.

(** One case analysis per frame that is looked up. *)
Ltac look :=
  match goal with |- get_frame ?h (ups ?s) ≫= _ = _ => rewrite (get_ups h s); destruct (get_frame h s) as [?f| | |] end; [|done..];
  cbn [fmap outcome_fmap]; run_binds.

Lemma await_transform_ups h ch s : Awaitable.await_transform h ch (ups s) = ups <$> await_transform h ch s.
Proof. unfold Awaitable.await_transform, await_transform. look. look. cbn [fmap outcome_fmap]. by rewrite <- set_ups. Qed.

Lemma await_suspend_ups ch h s : Awaitable.await_suspend ch h (ups s) = ups <$> await_suspend ch h s.
Proof.
  unfold Awaitable.await_suspend, await_suspend. look. cbn [Awaitable.executor up].
  destruct f as [[] aw e a]; [|done]. cbn [executor]. cbn [fmap outcome_fmap]. by rewrite <- set_ups.
Qed.

Lemma await_resume_ups ch s : Awaitable.await_resume tt ch (ups s) = await_resume ch s.
Proof. unfold Awaitable.await_resume, await_resume. look. done. Qed.

Definition ups_next (x : heap * Awaitable.next (W := W) (St := St)) :=  (ups x.1, x.2).

Lemma final_suspend_ups h s : Awaitable.final_suspend tt h (ups s) = ups_next <$> final_suspend h s.
Proof.
  unfold Awaitable.final_suspend, final_suspend. look. cbn [Awaitable.awaiting up]. destruct (awaiting _) as [p|]; [|done].
  look. cbn [Awaitable.at_ up]. destruct (at_ _) as [|ch k| |]; try done. rewrite await_resume_ups.
  destruct (await_resume ch s) as [r| | |]; run_binds; [|done..]. rewrite destroy_ups.
  destruct (destroy_frame ch s) as [s'| | |]; cbn [fmap outcome_fmap]; run_binds; [|done..].
  cbn [fmap outcome_fmap]. unfold ups_next. cbn [fst snd]. by rewrite <- set_ups.
Qed.

Lemma advance_ups h st s : Awaitable.advance body (fun _ => true) tt h st (ups s) = ups_next <$> advance h st s.
Proof.
  unfold Awaitable.advance, advance. destruct (body st) as [v|e|c k|w st'].
  - unfold Awaitable.finish. look. rewrite <- final_suspend_ups, <- set_ups. done.
  - unfold Awaitable.finish. look. rewrite <- final_suspend_ups, <- set_ups. done.
  - rewrite create_ups. destruct (get_return_object c s) as [ch s1]. cbn [fst snd]. rewrite await_transform_ups.
    destruct (await_transform h ch s1) as [s2| | |]; cbn [fmap outcome_fmap]; run_binds; [|done..]. look.
    change (Awaitable.set_at (Waiting ch k) (up f)) with (up (set_at (Waiting ch k) f)). rewrite set_ups, await_suspend_ups.
    by destruct (await_suspend ch h _).
  - look. cbn [fmap outcome_fmap]. unfold ups_next. cbn [fst snd]. by rewrite <- set_ups.
Qed.

Definition ups_drive (x : heap * handle * Awaitable.next (W := W) (St := St)) := (ups x.1.1, x.1.2, x.2).

Lemma drive_ups fuel : forall h st s,
  Awaitable.drive body (fun _ => true) tt fuel h st (ups s) = ups_drive <$> drive fuel h st s.
Proof.
  induction fuel as [|fuel IH]; intros h st s; cbn [Awaitable.drive drive]; [done|]. rewrite advance_ups.
  destruct (advance h st s) as [[s1 n]| | |]; cbn [fmap outcome_fmap ups_next fst snd]; run_binds; [|done..].
  destruct n; try done. apply IH.
Qed.

(** The specialisation agrees with the template: resuming a coroutine among void
    coroutines does to the frames of the specialisation what it does to void frames of
    the template, with the same outcome; and so do the operations on awaitables. *)
Theorem specialisation_agrees s :
  (forall h, Awaitable.resume body (fun _ => true) tt h (ups s) = ups_drive <$> resume h s) /\
  (forall a, Awaitable.release a (ups s) = ups <$> release a s) /\
  (forall a, Awaitable.awaitable a = awaitable a) /\
  (forall x y a os d, Awaitable.move_new x y a (Awaitable.mkWorld os (ups s) d) =
     Awaitable.mkWorld (<[x := (move_new a).1]> (<[y := (move_new a).2]> os)) (ups s) d) /\
  (forall x y ax ay os d, x <> y -> Awaitable.move_assign x y ax ay (Awaitable.mkWorld os (ups s) d) =
     (fun r => Awaitable.mkWorld (<[x := r.1.1]> (<[y := r.1.2]> os)) (ups r.2) d) <$> move_assign false ax ay s).
Proof.
  assert (forall a, Awaitable.release a (ups s) = ups <$> release a s) as Hrel by (intros [h|]; [apply destroy_ups|done]).
  split_and!; [|done|done|done|]; cycle 1.
  { intros x y ax ay os d Hne. unfold Awaitable.move_assign, move_assign. rewrite decide_False by done. cbn [Awaitable.memory].
    rewrite Hrel. by destruct (release ax s). }
  intros h. unfold Awaitable.resume, resume. look.
  cbn [Awaitable.at_ up]. destruct (at_ _) as [st| | |]; try done. rewrite <- drive_ups. unfold ups at 1. cbn [live].
  by rewrite map_size_fmap, <- set_ups.
Qed.

End void.
End AwaitableVoid.
