(* ===== verification/Scheduler.v ===== *)
(** * The coroutine scheduler

    Models src/include/coro/Scheduler.hpp as a transition system.  It is a second
    thread pool, for coroutine handles, but not the same one: the counter of
    waiting tasks is what its workers wait for, and it is increased after the
    notification and outside the mutex.  A state holds the members of the class,
    where each worker is, where the callers of [add_coroutine] and of [stop] are,
    and the history.  One event is one access another thread can interleave with.
    [run] and [stop] are called by one controlling thread; resuming a coroutine
    returns, since the promises of Task.hpp keep exceptions.  The counter is an [int] and
    wraps around; the theorems that depend on it are about runs in which the queue is
    shorter than 2^31.

    The theorems: the accounting of the coroutines and that the assertion in the
    worker holds; [stop] resumes everything that was added before it; and two
    ways in which a notification is lost. *)

From S2P Require Import Prelude Threads.
#[local] Open Scope Z_scope.

Module Scheduler.

(** Where a worker is in [worker()]. *)
Inductive phase (coro : Type) : Type :=
| AtLoop                       (** the loop condition: reads [running_] *)
| AtLoopNum                    (** the loop condition: reads [task_num_] *)
| AtLock                       (** before locking the mutex *)
| AtTest                       (** has the mutex; the wait condition reads [task_num_] *)
| AtTestRun                    (** the wait condition reads [running_] *)
| Sleepy                       (** has the mutex and is about to wait *)
| Blocked                      (** waits on the condition variable *)
| Woken                        (** woken up, has to lock the mutex again *)
| AtIf                         (** after the wait loop: reads [task_num_] *)
| AtIfRun                      (** after the wait loop: reads [running_] *)
| AtTake                       (** takes a coroutine out of the queue *)
| Resuming (c : coro)
| Exited.
Arguments AtLoop {coro}.
Arguments AtLoopNum {coro}.
Arguments AtLock {coro}.
Arguments AtTest {coro}.
Arguments AtTestRun {coro}.
Arguments Sleepy {coro}.
Arguments Blocked {coro}.
Arguments Woken {coro}.
Arguments AtIf {coro}.
Arguments AtIfRun {coro}.
Arguments AtTake {coro}.
Arguments Resuming {coro} c.
Arguments Exited {coro}.

(** Where the caller of [stop] is. *)
Inductive stopper : Type := NotStopping | Notifying | Joining | Joined.

Section scheduler.
Context {coro : Type}.

(** The callers inside [add_coroutine]: past the assertion; past the critical
    section; about to notify; about to count. *)
Record callers : Type := mkCallers { entering : list coro; checking : nat; notifying : nat; counting : nat }.

(** Callers whose coroutine is in the queue and not counted. *)
Definition uncounted (c : callers) : nat := (checking c + notifying c + counting c)%nat.

Record scheduler : Type := mk {
  corotines_ : list coro;
  task_num_ : Z;                  (** an [int], which wraps around *)
  waiting_threads_ : Z;           (** an [int]; at most the number of threads *)
  running_ : bool;
  mtx_ : option nat;              (** the worker that has the mutex *)
  threads_ : list (phase coro);
  calls : callers;
  stopping : stopper;
  added : list coro;              (** the coroutines pushed so far, in order *)
  taken : list coro;              (** those taken out so far, in order *)
  resumed : list coro             (** those whose resumption has returned *)
}.

Definition new : scheduler := mk [] 0 0 false None [] (mkCallers [] 0 0 0) NotStopping [] [] [].

Definition set_worker (w : nat) (ph : phase coro) (s : scheduler) : scheduler :=
  mk (corotines_ s) (task_num_ s) (waiting_threads_ s) (running_ s) (mtx_ s) (<[w := ph]> (threads_ s))
    (calls s) (stopping s) (added s) (taken s) (resumed s).

Definition set_mutex (m : option nat) (s : scheduler) : scheduler :=
  mk (corotines_ s) (task_num_ s) (waiting_threads_ s) (running_ s) m (threads_ s)
    (calls s) (stopping s) (added s) (taken s) (resumed s).

Definition set_waiting (n : Z) (s : scheduler) : scheduler :=
  mk (corotines_ s) (task_num_ s) n (running_ s) (mtx_ s) (threads_ s)
    (calls s) (stopping s) (added s) (taken s) (resumed s).

Definition set_calls (c : callers) (s : scheduler) : scheduler :=
  mk (corotines_ s) (task_num_ s) (waiting_threads_ s) (running_ s) (mtx_ s) (threads_ s)
    c (stopping s) (added s) (taken s) (resumed s).

Definition set_stopping (st : stopper) (s : scheduler) : scheduler :=
  mk (corotines_ s) (task_num_ s) (waiting_threads_ s) (running_ s) (mtx_ s) (threads_ s)
    (calls s) st (added s) (taken s) (resumed s).

(** ** add_coroutine *)

(** [assert(coro != nullptr && running_.load() == true)]; where it fails the
    program ends, which is not a step. *)
Definition enter (c : coro) (s : scheduler) : option scheduler :=
  if running_ s then
    let k := calls s in
    Some (set_calls (mkCallers (entering k ++ [c]) (checking k) (notifying k) (counting k)) s)
  else None.

(** The critical section, by the [i]-th of the callers waiting for the mutex. *)
Definition push (i : nat) (s : scheduler) : option scheduler :=
  let k := calls s in
  match mtx_ s, entering k !! i with
  | None, Some c =>
      Some (mk (corotines_ s ++ [c]) (task_num_ s) (waiting_threads_ s) (running_ s) None (threads_ s)
              (mkCallers (delete i (entering k)) (S (checking k)) (notifying k) (counting k))
              (stopping s) (added s ++ [c]) (taken s) (resumed s))
  | _, _ => None
  end.

(** [if(waiting_threads_ > 0)] *)
Definition check_waiting (s : scheduler) : option scheduler :=
  let k := calls s in
  match checking k with
  | O => None
  | S n =>
      Some (set_calls (if 0 <? waiting_threads_ s then mkCallers (entering k) n (S (notifying k)) (counting k)
                       else mkCallers (entering k) n (notifying k) (S (counting k))) s)
  end.

Definition is_blocked (ph : phase coro) : bool := match ph with Blocked => true | _ => false end.

(** [cv_.notify_one()] wakes one of the blocked threads, if there is one. *)
Definition notify_one (w : option nat) (s : scheduler) : option scheduler :=
  let k := calls s in
  match notifying k with
  | O => None
  | S n =>
      let s' := set_calls (mkCallers (entering k) (checking k) n (S (counting k))) s in
      match w with
      | Some w =>
          match threads_ s !! w with
          | Some Blocked => Some (set_worker w Woken s')
          | _ => None
          end
      | None => if forallb (fun ph => negb (is_blocked ph)) (threads_ s) then Some s' else None
      end
  end.

(** [task_num_++] *)
Definition count_task (s : scheduler) : option scheduler :=
  let k := calls s in
  match counting k with
  | O => None
  | S n =>
      Some (mk (corotines_ s) (i32 (task_num_ s + 1)) (waiting_threads_ s) (running_ s) (mtx_ s) (threads_ s)
              (mkCallers (entering k) (checking k) (notifying k) n) (stopping s) (added s) (taken s) (resumed s))
  end.

(** ** run and worker *)

(** [run()] starts [THREADS_NUM] threads, which is [hardware_concurrency()]. *)
Definition run (THREADS_NUM : nat) (s : scheduler) : option scheduler :=
  match stopping s with
  | NotStopping =>
      Some (mk (corotines_ s) (task_num_ s) (waiting_threads_ s) true (mtx_ s)
              (threads_ s ++ replicate THREADS_NUM AtLoop) (calls s) (stopping s) (added s) (taken s) (resumed s))
  | _ => None
  end.

(** [get_instance()]: the first call creates the scheduler and starts its threads. *)
Definition get_instance (THREADS_NUM : nat) (instance_ : option scheduler) : option scheduler :=
  match instance_ with
  | Some s => Some s
  | None => run THREADS_NUM new
  end.

(** The next step of thread [w] in [worker()]; a blocked thread has none, and one
    that finds the queue empty where the code asserts that it is not has none. *)
Definition worker (w : nat) (s : scheduler) : option scheduler :=
  match threads_ s !! w with
  | Some AtLoop => Some (set_worker w (if running_ s then AtLock else AtLoopNum) s)
  | Some AtLoopNum => Some (set_worker w (if 0 <? task_num_ s then AtLock else Exited) s)
  | Some AtLock =>
      match mtx_ s with
      | None => Some (set_mutex (Some w) (set_worker w AtTest s))
      | Some _ => None
      end
  | Some AtTest => Some (set_worker w (if task_num_ s =? 0 then AtTestRun else AtIf) s)
  | Some AtTestRun =>
      if running_ s then Some (set_waiting (waiting_threads_ s + 1) (set_worker w Sleepy s))
      else Some (set_worker w AtIf s)
  | Some Sleepy => Some (set_mutex None (set_worker w Blocked s))
  | Some Blocked => None
  | Some Woken =>
      match mtx_ s with
      | None => Some (set_waiting (waiting_threads_ s - 1) (set_mutex (Some w) (set_worker w AtTest s)))
      | Some _ => None
      end
  | Some AtIf => Some (set_worker w (if task_num_ s =? 0 then AtIfRun else AtTake) s)
  | Some AtIfRun =>
      if running_ s then Some (set_worker w AtTake s)
      else Some (set_mutex None (set_worker w Exited s))
  | Some AtTake =>
      match corotines_ s with
      | [] => None
      | c :: q =>
          Some (mk q (i32 (task_num_ s - 1)) (waiting_threads_ s) (running_ s) None (<[w := Resuming c]> (threads_ s))
                  (calls s) (stopping s) (added s) (taken s ++ [c]) (resumed s))
      end
  | Some (Resuming c) =>
      Some (mk (corotines_ s) (task_num_ s) (waiting_threads_ s) (running_ s) (mtx_ s) (<[w := AtLoop]> (threads_ s))
              (calls s) (stopping s) (added s) (taken s) (resumed s ++ [c]))
  | Some Exited | None => None
  end.

(** A blocked thread may wake up without a notification. *)
Definition spurious (w : nat) (s : scheduler) : option scheduler :=
  match threads_ s !! w with
  | Some Blocked => Some (set_worker w Woken s)
  | _ => None
  end.

(** ** stop *)

(** [running_ = false;] *)
Definition begin_stop (s : scheduler) : option scheduler :=
  match stopping s with
  | NotStopping =>
      Some (mk (corotines_ s) (task_num_ s) (waiting_threads_ s) false (mtx_ s) (threads_ s)
              (calls s) Notifying (added s) (taken s) (resumed s))
  | _ => None
  end.

Definition wake (ph : phase coro) : phase coro := if is_blocked ph then Woken else ph.

Definition has_exited (ph : phase coro) : bool := match ph with Exited => true | _ => false end.

(** [cv_.notify_all()], then joining the threads; [assert(task_num_ == 0)] comes
    after that. *)
Definition stop_step (s : scheduler) : option scheduler :=
  match stopping s with
  | Notifying =>
      Some (mk (corotines_ s) (task_num_ s) (waiting_threads_ s) (running_ s) (mtx_ s) (wake <$> threads_ s)
              (calls s) Joining (added s) (taken s) (resumed s))
  | Joining => if forallb has_exited (threads_ s) then Some (set_stopping Joined s) else None
  | _ => None
  end.

(** [std::default_delete<Scheduler>], which the end of the program calls for the
    instance: [stop], whose steps follow, and then the members are destroyed. *)
Definition default_delete (s : scheduler) : option scheduler := begin_stop s.

(** ** The system *)

Inductive event : Type :=
| Enter (c : coro)
| Push (i : nat)
| CheckWaiting
| NotifyOne (w : option nat)
| CountTask
| Run (THREADS_NUM : nat)
| Worker (w : nat)
| Spurious (w : nat)
| Stop
| StopStep.

Definition exec (e : event) (s : scheduler) : option scheduler :=
  match e with
  | Enter c => enter c s
  | Push i => push i s
  | CheckWaiting => check_waiting s
  | NotifyOne w => notify_one w s
  | CountTask => count_task s
  | Run n => run n s
  | Worker w => worker w s
  | Spurious w => spurious w s
  | Stop => begin_stop s
  | StopStep => stop_step s
  end.

Fixpoint exec_all (es : list event) (s : scheduler) : option scheduler :=
  match es with
  | [] => Some s
  | e :: es => s ← exec e s; exec_all es s
  end.

Definition step (s s' : scheduler) : Prop := exists e, exec e s = Some s'.

Definition reachable (s : scheduler) : Prop := rtc step new s.

(** The counter is an [int], so it says how many coroutines there are as long as fewer
    than 2^31 are in the queue. *)
Definition fits (s : scheduler) : Prop := Zlen (corotines_ s) < 2 ^ 31.

(** Reachable by a run in which that is so at every moment. *)
Definition reachable_fitting (s : scheduler) : Prop := rtc (fun s s' => step s s' /\ fits s') new s.

(** ** The invariant *)

(** The phases in which a thread has the mutex, and is counted as waiting. *)
Definition holds (ph : phase coro) : bool :=
  match ph with AtTest | AtTestRun | Sleepy | AtIf | AtIfRun | AtTake => true | _ => false end.
Definition waits (ph : phase coro) : bool :=
  match ph with Sleepy | Blocked | Woken => true | _ => false end.

Definition resuming_of (ph : phase coro) : list coro := match ph with Resuming c => [c] | _ => [] end.

(** What a thread relies on where it is; nobody else takes from the queue while
    it has the mutex, and [running_] does not become true again. *)
Definition phase_ok (num : Z) (run : bool) (ph : phase coro) : Prop :=
  match ph with
  | AtIf => run = false \/ 0 < num
  | AtLoopNum | AtIfRun | Exited => run = false
  | AtTake => 0 < num
  | _ => True
  end.

Record Inv (s : scheduler) : Prop := {
  inv_num : task_num_ s + Z.of_nat (uncounted (calls s)) = Zlen (corotines_ s);
  inv_nonneg : 0 <= task_num_ s;
  inv_waiting : waiting_threads_ s = Z.of_nat (count waits (threads_ s));
  inv_mutex : mutex_ok holds (threads_ s) (mtx_ s);
  inv_fifo : added s = taken s ++ corotines_ s;
  inv_resumed : taken s ≡ₚ resumed s ++ (threads_ s ≫= resuming_of);
  inv_phase : forall w ph, threads_ s !! w = Some ph -> phase_ok (task_num_ s) (running_ s) ph;
  inv_stopping : stopping s <> NotStopping -> running_ s = false;
  inv_started : stopping s = NotStopping -> running_ s = true \/ threads_ s = []
}.

Lemma sched_new_inv : Inv new.
Proof. split; cbn; try done; auto. Qed.

(** A thread moves on and leaves the queue alone. *)
Lemma sched_move_inv w ph ph' s s' :
  Inv s -> threads_ s !! w = Some ph ->
  threads_ s' = <[w := ph']> (threads_ s) ->
  waiting_threads_ s' = waiting_threads_ s - Z.b2z (waits ph) + Z.b2z (waits ph') ->
  mtx_ s' = (if holds ph' then Some w else if holds ph then None else mtx_ s) ->
  (holds ph' = true -> holds ph = true \/ mtx_ s = None) ->
  phase_ok (task_num_ s) (running_ s) ph' ->
  corotines_ s' = corotines_ s -> task_num_ s' = task_num_ s -> uncounted (calls s') = uncounted (calls s) ->
  running_ s' = running_ s -> stopping s' = stopping s -> added s' = added s -> taken s' = taken s ->
  resumed s' ++ resuming_of ph' ≡ₚ resumed s ++ resuming_of ph ->
  Inv s'.
Proof.
  intros Hinv Hw Hws Hwait Hm Hfree Hok Hq Hn Hc Hr Hst Ha Ht Hf.
  split; rewrite ?Hn, ?Hc, ?Hq, ?Ha, ?Ht, ?Hr, ?Hst; try apply Hinv.
  - rewrite Hwait, Hws, (inv_waiting _ Hinv). pose proof (count_move waits _ _ _ ph' Hw).
    destruct (waits ph), (waits ph'); cbn [Nat.b2n Z.b2z] in *; lia.
  - rewrite Hws, Hm. by apply mutex_move; [apply Hinv|..].
  - rewrite Hws, (bind_insert _ _ _ _ _ Hw), app_assoc, Hf, <- app_assoc, <- (bind_lookup _ _ _ _ Hw). apply Hinv.
  - intros w1 ph1 H1. rewrite Hws in H1.
    destruct (lookup_insert_phase _ _ _ _ _ _ Hw H1) as [[-> ->]|[_ H2]]; [done|by eapply inv_phase].
  - intros Hns. destruct (inv_started _ Hinv Hns) as [?|H]; [by left|]. by rewrite H in Hw.
Qed.

Lemma num_grows_ok num num' run ph : num <= num' -> phase_ok num run ph -> phase_ok num' run ph.
Proof. destruct ph; cbn; try done; intros; intuition lia. Qed.

Lemma enter_inv c s s' : Inv s -> enter c s = Some s' -> Inv s'.
Proof. unfold enter. intros Hinv. destruct (running_ s); [|done]. intros <-%(inj Some). by split; apply Hinv. Qed.

Lemma sched_push_inv i s s' : Inv s -> push i s = Some s' -> Inv s'.
Proof.
  unfold push. intros Hinv. destruct (mtx_ s) eqn:Hm; [done|]. destruct (entering _ !! i) as [c|]; [|done].
  intros [= <-]. split; cbn; try apply Hinv.
  - rewrite Zlen_app. change (Zlen [c]) with 1. pose proof (inv_num _ Hinv). unfold uncounted in *. cbn. lia.
  - rewrite <- Hm. apply Hinv.
  - by rewrite (inv_fifo _ Hinv), app_assoc.
Qed.

Lemma sched_check_waiting_inv s s' : Inv s -> check_waiting s = Some s' -> Inv s'.
Proof.
  unfold check_waiting. intros Hinv. destruct (checking _) as [|n] eqn:Hn; [done|]. intros [= <-].
  pose proof (inv_num _ Hinv) as Hnum. unfold uncounted in Hnum.
  split; cbn; try apply Hinv. unfold uncounted. destruct (0 <? _); cbn; lia.
Qed.

Lemma sched_notify_one_inv w s s' : Inv s -> notify_one w s = Some s' -> Inv s'.
Proof.
  unfold notify_one. intros Hinv. destruct (notifying _) as [|n] eqn:Hn; [done|].
  assert (uncounted (mkCallers (entering (calls s)) (checking (calls s)) n (S (counting (calls s)))) = uncounted (calls s))
    as Hu by (unfold uncounted; cbn; lia). destruct w as [w|].
  - destruct (threads_ s !! w) as [[]|] eqn:Hw; try done. intros [= <-].
    apply (sched_move_inv w Blocked Woken s); cbn; try done. lia.
  - destruct (forallb _ _); [|done]. intros <-%(inj Some). split; cbn [set_calls corotines_ task_num_ waiting_threads_ running_ mtx_ threads_ calls
      stopping added taken resumed]; rewrite ?Hu; apply Hinv.
Qed.

Lemma count_task_inv s s' : Inv s -> count_task s = Some s' -> fits s' -> Inv s'.
Proof.
  unfold count_task. intros Hinv. destruct (counting _) as [|n] eqn:Hn; [done|]. intros [= <-] Hfits.
  pose proof (inv_num _ Hinv) as Hnum. pose proof (inv_nonneg _ Hinv). unfold uncounted in Hnum. unfold fits in Hfits. cbn in Hfits.
  assert (i32 (task_num_ s + 1) = task_num_ s + 1) as Hi by (apply i32_small; lia). rewrite Hi.
  split; cbn; try apply Hinv; unfold uncounted; cbn; try lia.
  intros w ph Hw. apply (num_grows_ok (task_num_ s)); [lia|]. by eapply inv_phase.
Qed.

Lemma sched_run_inv n s s' : Inv s -> run n s = Some s' -> Inv s'.
Proof.
  unfold run. intros Hinv. destruct (stopping s) eqn:Hst; try done. intros <-%(inj Some).
  assert (forall (f : phase coro -> bool), f AtLoop = false -> Forall (fun ph => f ph = false) (replicate n AtLoop)) as Hrep.
  { intros f Hf. by apply Forall_replicate. }
  split; cbn [corotines_ task_num_ waiting_threads_ running_ mtx_ threads_ calls stopping added taken resumed]; try apply Hinv.
  - rewrite count_app, (count_none waits (replicate n AtLoop)), Nat.add_0_r by (by apply Hrep). apply Hinv.
  - apply mutex_app; [apply Hinv|by apply Hrep].
  - rewrite bind_app. assert (replicate n AtLoop ≫= resuming_of = []) as ->
      by (clear Hrep; induction n as [|n IH]; [done|exact IH]).
    rewrite app_nil_r. apply Hinv.
  - intros w ph. rewrite lookup_app. destruct (threads_ s !! w) as [ph1|] eqn:E.
    + intros [= <-]. destruct (inv_started _ Hinv Hst) as [Hr|Hr]; [rewrite <- Hr; by eapply inv_phase|].
      by rewrite Hr in E.
    + intros [-> _]%lookup_replicate. done.
  - done.
  - by left.
Qed.

(** Taking a coroutine out of the queue. *)
Lemma sched_take_inv w s s' : Inv s -> threads_ s !! w = Some AtTake -> worker w s = Some s' -> fits s' -> Inv s'.
Proof.
  unfold worker. intros Hinv Hw. rewrite Hw. destruct (corotines_ s) as [|c q] eqn:Hq; [done|]. intros [= <-] Hfits.
  pose proof (inv_phase _ Hinv _ _ Hw) as Hpos. cbn in Hpos. pose proof (inv_num _ Hinv) as Hnum.
  rewrite Hq in Hnum. unfold fits, Zlen in *. cbn in Hnum, Hfits.
  assert (i32 (task_num_ s - 1) = task_num_ s - 1) as Hi by (apply i32_small; lia). rewrite Hi.
  split; cbn -[count]; try apply Hinv; try (unfold Zlen; lia).
  - rewrite (inv_waiting _ Hinv). pose proof (count_move waits _ _ _ (Resuming c) Hw). cbn [waits Nat.b2n] in *. lia.
  - apply (mutex_move holds _ (mtx_ s) w AtTake (Resuming c)); [apply Hinv|done|done].
  - by rewrite (inv_fifo _ Hinv), Hq, <- app_assoc.
  - rewrite (bind_insert _ _ _ _ _ Hw), (inv_resumed _ Hinv), (bind_lookup _ _ _ _ Hw). cbn. solve_Permutation.
  - intros w1 ph1 H1. destruct (lookup_insert_phase _ _ _ _ _ _ Hw H1) as [[-> ->]|[Hne H2]]; [done|].
    pose proof (inv_phase _ Hinv _ _ H2) as Hok.
    assert (holds ph1 = false) as Hh.
    { destruct (holds ph1) eqn:E; [|done]. destruct Hne. by eapply (mutex_exclusive holds _ _ _ _ _ _ (inv_mutex _ Hinv)). }
    by destruct ph1.
  - intros Hns. destruct (inv_started _ Hinv Hns) as [?|H]; [by left|]. by rewrite H in Hw.
Qed.

(** Discharges the conditions of [sched_move_inv] for a given move. *)
Ltac solve_move Hinv Hw :=
  eapply (sched_move_inv _ _ _ _ _ Hinv Hw); [reflexivity|..]; cbn [threads_ set_worker set_mutex set_waiting waiting_threads_ mtx_ waits holds Z.b2z
    corotines_ task_num_ calls running_ stopping added taken resumed phase_ok resuming_of]; auto; try lia;
  try apply (proj1 (proj1 (inv_mutex _ Hinv) _ _ Hw) eq_refl); rewrite ?app_nil_r; done.

Lemma sched_worker_inv w s s' : Inv s -> worker w s = Some s' -> fits s' -> Inv s'.
Proof.
  intros Hinv Hs Hfits. pose proof Hs as Htake. unfold worker in Hs. destruct (threads_ s !! w) as [ph|] eqn:Hw; [|done].
  pose proof (inv_phase _ Hinv _ _ Hw) as Hok. pose proof (inv_nonneg _ Hinv) as Hpos.
  destruct ph as [| | | | | | | | | | |c|]; try done; cbn in Hok.
  - destruct (running_ s) eqn:E; injection Hs as <-; solve_move Hinv Hw.
  - destruct (0 <? task_num_ s); injection Hs as <-; solve_move Hinv Hw.
  - destruct (mtx_ s) eqn:Hm; [done|]. injection Hs as <-. solve_move Hinv Hw.
  - destruct (task_num_ s =? 0) eqn:E; injection Hs as <-; reflect_bools; solve_move Hinv Hw.
  - destruct (running_ s) eqn:E; injection Hs as <-; solve_move Hinv Hw.
  - injection Hs as <-. solve_move Hinv Hw.
  - destruct (mtx_ s) eqn:Hm; [done|]. injection Hs as <-. solve_move Hinv Hw.
  - destruct (task_num_ s =? 0) eqn:E; injection Hs as <-; reflect_bools; destruct Hok; try lia; solve_move Hinv Hw.
  - destruct (running_ s) eqn:E; [done|]. injection Hs as <-. solve_move Hinv Hw.
  - by eapply sched_take_inv.
  - injection Hs as <-. solve_move Hinv Hw.
Qed.

Lemma sched_spurious_inv w s s' : Inv s -> spurious w s = Some s' -> Inv s'.
Proof.
  unfold spurious. intros Hinv. destruct (threads_ s !! w) as [[]|] eqn:Hw; try done. intros [= <-]. solve_move Hinv Hw.
Qed.

Lemma sched_begin_stop_inv s s' : Inv s -> begin_stop s = Some s' -> Inv s'.
Proof.
  unfold begin_stop. intros Hinv. destruct (stopping s); try done. intros <-%(inj Some). split; try apply Hinv; try done.
  intros w ph Hw%(inv_phase _ Hinv). destruct ph; cbn in *; auto.
Qed.

Lemma wake_waits ph : waits (wake ph) = waits ph.
Proof. by destruct ph. Qed.

Lemma wake_holds ph : holds (wake ph) = holds ph.
Proof. by destruct ph. Qed.

Lemma wake_resuming (ws : list (phase coro)) : (wake <$> ws) ≫= resuming_of = ws ≫= resuming_of.
Proof. induction ws as [|ph ws IH]; [done|]. cbn. rewrite IH. by destruct ph. Qed.

Lemma sched_stop_step_inv s s' : Inv s -> stop_step s = Some s' -> Inv s'.
Proof.
  unfold stop_step. intros Hinv. destruct (stopping s) eqn:Hst; try done.
  - intros <-%(inj Some). assert (running_ s = false) as Hr by (apply Hinv; by rewrite Hst).
    split; cbn [corotines_ task_num_ waiting_threads_ running_ mtx_ threads_ calls stopping added taken resumed];
      try apply Hinv; try done.
    + rewrite count_map by apply wake_waits. apply Hinv.
    + apply mutex_map; [apply wake_holds|apply Hinv].
    + rewrite wake_resuming. apply Hinv.
    + intros w ph. rewrite list_lookup_fmap, fmap_Some. intros (ph1 & H1%(inv_phase _ Hinv) & ->). by destruct ph1.
  - destruct (forallb _ _); [|done]. intros <-%(inj Some).
    assert (running_ s = false) as Hr by (apply Hinv; by rewrite Hst). split; try apply Hinv; done.
Qed.

Lemma exec_scheduler_inv e s s' : Inv s -> exec e s = Some s' -> fits s' -> Inv s'.
Proof.
  intros Hinv He Hfits. destruct e; cbn [exec] in He;
    eauto using enter_inv, sched_push_inv, sched_check_waiting_inv, sched_notify_one_inv, count_task_inv, sched_run_inv,
      sched_worker_inv, sched_spurious_inv, sched_begin_stop_inv, sched_stop_step_inv.
Qed.

Lemma scheduler_reachable_inv s : reachable_fitting s -> Inv s /\ fits s.
Proof.
  intros Hr. refine (rtc_ind_r (R := fun s s' => step s s' /\ fits s') (fun s => Inv s /\ fits s) new _ _ s Hr).
  - split; [apply sched_new_inv|done].
  - intros y z _ [[e He] Hf] [Hinv _]. split; [by eapply exec_scheduler_inv|done].
Qed.

(** Past that bound the counter is negative while the queue is full, and the loop
    condition of the workers fails. *)
Lemma counter_wraps s s' :
  task_num_ s = 2 ^ 31 - 1 -> count_task s = Some s' -> task_num_ s' = - 2 ^ 31 /\
  forall w, threads_ s' !! w = Some AtLoopNum -> worker w s' = Some (set_worker w Exited s').
Proof.
  unfold count_task. intros Hn. destruct (counting _); [done|]. intros [= <-]. cbn [task_num_]. rewrite Hn. split; [done|].
  intros w Hw. unfold worker. rewrite Hw. by cbn [task_num_].
Qed.

(** C16: as long as the queue never holds 2^31 coroutines, which is what the counter can
    count, in every reachable state the counter and the callers that have not counted
    yet make up the queue, at most one thread is inside the critical section,
    coroutines are taken in the order they were added, each is in exactly one
    place, and a thread that is about to take one finds the queue not empty, as
    the code asserts. *)
Theorem coroutines_accounted s :
  reachable_fitting s ->
  task_num_ s + Z.of_nat (uncounted (calls s)) = Zlen (corotines_ s) /\ 0 <= task_num_ s /\
  (forall w1 w2 ph1 ph2, threads_ s !! w1 = Some ph1 -> threads_ s !! w2 = Some ph2 ->
     holds ph1 = true -> holds ph2 = true -> w1 = w2) /\
  added s = taken s ++ corotines_ s /\ taken s ≡ₚ resumed s ++ (threads_ s ≫= resuming_of) /\
  (forall w, threads_ s !! w = Some AtTake -> corotines_ s <> []).
Proof.
  intros [Hinv _]%scheduler_reachable_inv. repeat split; try apply Hinv.
  - intros w1 w2 ph1 ph2. apply (mutex_exclusive holds _ _ _ _ _ _ (inv_mutex _ Hinv)).
  - intros w Hw%(inv_phase _ Hinv) Hq. pose proof (inv_num _ Hinv) as Hn. rewrite Hq in Hn. unfold Zlen in Hn. cbn in Hw, Hn. lia.
Qed.

(** ** Stopping *)

(** No call of [add_coroutine] is under way. *)
Definition idle (k : callers) : Prop := entering k = [] /\ uncounted k = 0%nat.

(** The state after [stop] was called with no such call under way. *)
Record Quiet (A : list coro) (s : scheduler) : Prop := {
  quiet_inv : Inv s;
  quiet_fits : fits s;
  quiet_stopping : stopping s <> NotStopping;
  quiet_idle : idle (calls s);
  quiet_threads : threads_ s <> [];
  quiet_added : added s = A;
  quiet_done : forall w ph, threads_ s !! w = Some ph -> ph = Exited \/ ph = AtIfRun -> task_num_ s = 0;
  quiet_joined : stopping s = Joined -> Forall (eq Exited) (threads_ s)
}.

(** A thread moves on after that. *)
Lemma quiet_move A w ph ph' s s' :
  Quiet A s -> Inv s' -> fits s' -> threads_ s !! w = Some ph -> ph <> Exited ->
  threads_ s' = <[w := ph']> (threads_ s) -> task_num_ s' = task_num_ s -> calls s' = calls s ->
  stopping s' = stopping s -> added s' = added s -> (ph' = Exited \/ ph' = AtIfRun -> task_num_ s = 0) -> Quiet A s'.
Proof.
  intros HQ Hinv' Hfits Hw Hne Hws Hn Hc Hst Ha Hd. split; rewrite ?Hst, ?Hc, ?Ha, ?Hn; try apply HQ; [done|done|..].
  - rewrite Hws. intros E%(f_equal length). rewrite length_insert in E. apply (quiet_threads _ _ HQ). by apply nil_length_inv.
  - intros w1 ph1 H1. rewrite Hws in H1. destruct (lookup_insert_phase _ _ _ _ _ _ Hw H1) as [[-> ->]|[_ H2]]; [done|].
    by eapply quiet_done.
  - intros Hj%(quiet_joined _ _ HQ). by rewrite (Forall_lookup_1 _ _ _ _ Hj Hw) in Hne.
Qed.

Lemma quiet_running A s : Quiet A s -> running_ s = false.
Proof. intros HQ. eapply inv_stopping; apply HQ. Qed.

Lemma quiet_worker A w s s' : Quiet A s -> Inv s' -> fits s' -> worker w s = Some s' -> Quiet A s'.
Proof.
  intros HQ Hinv' Hfits Hs. pose proof (quiet_inv _ _ HQ) as Hinv. unfold worker in Hs. destruct (threads_ s !! w) as [ph|] eqn:Hw; [|done].
  pose proof (inv_phase _ Hinv _ _ Hw) as Hok. pose proof (inv_nonneg _ Hinv). pose proof (quiet_running _ _ HQ) as Hr.
  destruct ph as [| | | | | | | | | | |c|]; try done; rewrite ?Hr in Hs; cbn in Hok.
  - injection Hs as <-. eapply (quiet_move _ w _ _ s); try done. by intros [?|?].
  - injection Hs as <-. eapply (quiet_move _ w _ _ s); try done. destruct (0 <? _) eqn:E; reflect_bools; [by intros [?|?]|lia].
  - destruct (mtx_ s) eqn:Hm; [done|]. injection Hs as <-. eapply (quiet_move _ w _ _ s); try done. by intros [?|?].
  - injection Hs as <-. eapply (quiet_move _ w _ _ s); try done. destruct (_ =? _); by intros [?|?].
  - injection Hs as <-. eapply (quiet_move _ w _ _ s); try done. by intros [?|?].
  - injection Hs as <-. eapply (quiet_move _ w _ _ s); try done. by intros [?|?].
  - destruct (mtx_ s) eqn:Hm; [done|]. injection Hs as <-. eapply (quiet_move _ w _ _ s); try done. by intros [?|?].
  - injection Hs as <-. eapply (quiet_move _ w _ _ s); try done. destruct (_ =? _) eqn:E; reflect_bools; [done|by intros [?|?]].
  - injection Hs as <-. eapply (quiet_move _ w _ _ s); try done. intros _. eapply quiet_done; eauto.
  - destruct (corotines_ s) as [|c q] eqn:Hq; [done|]. injection Hs as <-. split; cbn; try apply HQ; try done.
    + intros E%(f_equal length). rewrite length_insert in E. apply (quiet_threads _ _ HQ). by apply nil_length_inv.
    + intros w1 ph1 H1 Hph. destruct (lookup_insert_phase _ _ _ _ _ _ Hw H1) as [[-> ->]|[_ H2]]; [by destruct Hph|].
      pose proof (quiet_done _ _ HQ _ _ H2 Hph) as Hz. lia.
    + intros Hj%(quiet_joined _ _ HQ). by pose proof (Forall_lookup_1 _ _ _ _ Hj Hw).
  - injection Hs as <-. eapply (quiet_move _ w _ _ s); try done. by intros [?|?].
Qed.

(** Nothing is added any more. *)
Lemma quiet_shrinks A e s s' : Quiet A s -> exec e s = Some s' -> fits s'.
Proof.
  intros HQ He. pose proof (quiet_fits _ _ HQ) as Hf. destruct (quiet_idle _ _ HQ) as [Hen _]. unfold fits, Zlen in *.
  destruct e; cbn in He; unfold enter, push, check_waiting, notify_one, count_task, run, worker, spurious, begin_stop, stop_step in He.
  2: { rewrite Hen in He. by destruct (mtx_ s). }
  all: repeat case_match; simplify_eq; cbn in *; lia.
Qed.

Lemma quiet_exec A e s s' : Quiet A s -> exec e s = Some s' -> Quiet A s'.
Proof.
  intros HQ He. pose proof (quiet_shrinks _ _ _ _ HQ He) as Hfits.
  pose proof (exec_scheduler_inv _ _ _ (quiet_inv _ _ HQ) He Hfits) as Hinv'.
  pose proof (quiet_running _ _ HQ) as Hr. destruct (quiet_idle _ _ HQ) as [Hen Hun]. unfold uncounted in Hun.
  pose proof (quiet_stopping _ _ HQ) as Hst.
  destruct e as [c|i| |w| |n|w|w| |]; cbn in He.
  - unfold enter in He. by rewrite Hr in He.
  - unfold push in He. rewrite Hen in He. by destruct (mtx_ s).
  - unfold check_waiting in He. by replace (checking (calls s)) with 0%nat in He by lia.
  - unfold notify_one in He. by replace (notifying (calls s)) with 0%nat in He by lia.
  - unfold count_task in He. by replace (counting (calls s)) with 0%nat in He by lia.
  - unfold run in He. by destruct (stopping s).
  - by eapply quiet_worker.
  - unfold spurious in He. destruct (threads_ s !! w) as [[]|] eqn:Hw; try done. injection He as <-.
    eapply (quiet_move _ w _ _ s); try done. by intros [?|?].
  - unfold begin_stop in He. by destruct (stopping s).
  - unfold stop_step in He. destruct (stopping s) eqn:E; try done.
    + injection He as <-. split; cbn; try apply HQ; try done.
      * intros Ht%(f_equal length). rewrite length_fmap in Ht. apply (quiet_threads _ _ HQ). by apply nil_length_inv.
      * intros w ph. rewrite list_lookup_fmap, fmap_Some. intros (ph1 & H1 & ->) Hph. apply (quiet_done _ _ HQ _ _ H1).
        destruct Hph; destruct ph1; done || auto.
    + destruct (forallb _ _) eqn:Hall; [|done]. injection He as <-. split; cbn; try apply HQ; try done.
      intros _. rewrite forallb_forall in Hall. apply Forall_forall. intros ph Hph%list_elem_of_In%Hall. by destruct ph.
Qed.

Lemma quiet_start s s' :
  Inv s -> fits s -> running_ s = true -> idle (calls s) -> threads_ s <> [] -> begin_stop s = Some s' -> Quiet (added s) s'.
Proof.
  intros Hinv Hf Hr Hi Ht He. pose proof (sched_begin_stop_inv _ _ Hinv He) as Hinv'. unfold begin_stop in He.
  destruct (stopping s); try done. injection He as <-. split; cbn; try done.
  intros w ph Hw%(inv_phase _ Hinv) Hph. rewrite Hr in Hw. by destruct Hph as [-> | ->].
Qed.

(** C24: a scheduler with at least one thread, whose queue never held 2^31 coroutines,
    that is stopped while no call of [add_coroutine] is under way has, when [stop] has
    joined its threads, resumed every coroutine that was added; the assertion at the end
    of [stop] holds. *)
Theorem stop_resumes_all s s1 s2 :
  reachable_fitting s -> running_ s = true -> idle (calls s) -> threads_ s <> [] ->
  begin_stop s = Some s1 -> rtc step s1 s2 -> stopping s2 = Joined ->
  task_num_ s2 = 0 /\ corotines_ s2 = [] /\ added s2 = added s /\ added s ≡ₚ resumed s2.
Proof.
  intros [Hinv Hf]%scheduler_reachable_inv Hr Hi Ht Hs1 Hs2 Hj. pose proof (quiet_start _ _ Hinv Hf Hr Hi Ht Hs1) as HQ.
  assert (Quiet (added s) s2) as HQ2.
  { refine (rtc_ind_r (R := step) (Quiet (added s)) s1 HQ _ s2 Hs2). intros y z _ [e He] Hy. by eapply quiet_exec. }
  destruct HQ2 as [Hinv2 _ _ [_ Hun] Hth Ha Hd Hall]. specialize (Hall Hj).
  destruct (threads_ s2) as [|ph ws] eqn:E; [done|]. assert (task_num_ s2 = 0) as Hz.
  { apply (Hd 0%nat ph); [done|]. left. symmetry. by inversion Hall. }
  assert (corotines_ s2 = []) as Hq.
  { pose proof (inv_num _ Hinv2) as Hn. rewrite Hz, Hun in Hn. apply nil_length_inv. unfold Zlen in Hn. lia. }
  split; [done|]. split; [done|]. split; [done|].
  rewrite <- Ha, (inv_fifo _ Hinv2), Hq, app_nil_r, (inv_resumed _ Hinv2), E.
  assert ((ph :: ws) ≫= resuming_of = []) as ->; [|by rewrite app_nil_r].
  clear - Hall. induction Hall as [|? l <- _ IH]; [done|exact IH].
Qed.

(** Once [stop] has joined the threads they have all returned, whatever callers and
    coroutines there still are: nothing runs in the scheduler that is then deleted. *)
Lemma sched_exec_joined e s s' :
  (stopping s = Joined -> Forall (eq Exited) (threads_ s)) -> exec e s = Some s' ->
  stopping s' = Joined -> Forall (eq Exited) (threads_ s').
Proof.
  intros Hj He. assert (forall w ph, stopping s = Joined -> threads_ s !! w = Some ph -> ph = Exited) as Hex.
  { intros w ph H Hw. symmetry. by apply (Forall_lookup_1 _ _ _ _ (Hj H) Hw). }
  destruct e as [c|i| |w| |n|w|w| |]; cbn in He.
  - unfold enter in He. repeat case_match; try done; by injection He as <-.
  - unfold push in He. repeat case_match; try done; by injection He as <-.
  - unfold check_waiting in He. repeat case_match; try done; by injection He as <-.
  - unfold notify_one in He. destruct (notifying (calls s)); [done|]. destruct w as [w|]; [|case_match; [by injection He as <-|done]].
    destruct (threads_ s !! w) as [[]|] eqn:Hw; try done. injection He as <-. cbn. intros H. by pose proof (Hex _ _ H Hw).
  - unfold count_task in He. repeat case_match; try done; by injection He as <-.
  - unfold run in He. destruct (stopping s) eqn:Hst; try done. injection He as <-. cbn. congruence.
  - unfold worker in He. destruct (threads_ s !! w) as [ph|] eqn:Hw; [|done]. intros Hst'.
    assert (stopping s = Joined) as Hst by (revert Hst'; repeat case_match; try done; by injection He as <-).
    rewrite (Hex w ph Hst Hw) in He. done.
  - unfold spurious in He. destruct (threads_ s !! w) as [[]|] eqn:Hw; try done. injection He as <-. cbn. intros H.
    by pose proof (Hex _ _ H Hw).
  - unfold begin_stop in He. destruct (stopping s); try done. by injection He as <-.
  - unfold stop_step in He. destruct (stopping s) eqn:Hst; try done; [by injection He as <-|].
    destruct (forallb _ _) eqn:Hall; [|done]. injection He as <-. cbn. intros _. rewrite forallb_forall in Hall.
    apply Forall_forall. intros ph Hph%list_elem_of_In%Hall. by destruct ph.
Qed.

Lemma deletion_is_safe s :
  reachable s -> stopping s = Joined -> Forall (eq Exited) (threads_ s) /\ forall w, worker w s = None /\ spurious w s = None.
Proof.
  intros Hr Hst. assert (stopping s = Joined -> Forall (eq Exited) (threads_ s)) as Hj.
  { refine (rtc_ind_r (R := step) (fun s => stopping s = Joined -> Forall (eq Exited) (threads_ s)) new _ _ s Hr); [done|].
    intros y z _ [e He] Hy. by eapply sched_exec_joined. }
  split; [by apply Hj|]. intros w. unfold worker, spurious. destruct (threads_ s !! w) as [ph|] eqn:Hw; [|done].
  by rewrite <- (Forall_lookup_1 _ _ _ _ (Hj Hst) Hw).
Qed.

(** ** Lost notifications *)

(** [k] of the [n] threads wait for a coroutine and the others have not started. *)
Definition waiting_state (k n : nat) : scheduler :=
  mk [] 0 (Z.of_nat k) true None (replicate k Blocked ++ replicate n AtLoop) (mkCallers [] 0 0 0) NotStopping [] [] [].

(** The steps of one thread from the start of its loop until it waits. *)
Definition wait_events (w : nat) : list event := [Worker w; Worker w; Worker w; Worker w; Worker w].

Lemma lookup_next (k n : nat) (a b c : phase coro) : (replicate k a ++ b :: replicate n c) !! k = Some b.
Proof. apply list_lookup_middle. by rewrite length_replicate. Qed.

Lemma insert_next (k n : nat) (a b b' c : phase coro) :
  <[k := b']> (replicate k a ++ b :: replicate n c) = replicate k a ++ b' :: replicate n c.
Proof. rewrite insert_app_r_alt; rewrite length_replicate; [by rewrite Nat.sub_diag|done]. Qed.

Lemma wait_next k n : exec_all (wait_events k) (waiting_state k (S n)) = Some (waiting_state (S k) n).
Proof.
  pose (st z m ph := mk [] 0 z true m (replicate k Blocked ++ ph :: replicate n AtLoop) (mkCallers [] 0 0 0)
                       NotStopping [] [] []).
  assert (forall z m ph, worker k (st z m ph) =
    match ph with
    | AtLoop => Some (st z m AtLock)
    | AtLock => match m with None => Some (st z (Some k) AtTest) | Some _ => None end
    | AtTest => Some (st z m AtTestRun)
    | AtTestRun => Some (st (z + 1) m Sleepy)
    | Sleepy => Some (st z None Blocked)
    | _ => worker k (st z m ph)
    end) as Hst.
  { intros z m ph. unfold worker. unfold st at 1. cbn [threads_]. rewrite lookup_next.
    destruct ph; try (unfold st; cbn [threads_]; by rewrite lookup_next); [|destruct m; [done|]|..];
      unfold set_mutex, set_waiting, set_worker, st; cbn; by rewrite insert_next. }
  change (waiting_state k (S n)) with (st (Z.of_nat k) None AtLoop). unfold wait_events. cbn [exec_all exec].
  do 5 (rewrite Hst; cbn [mbind option_bind]). unfold st, waiting_state. do 2 f_equal; [lia|].
  by rewrite replicate_S_end, <- app_assoc.
Qed.

Lemma exec_all_app es1 es2 s : exec_all (es1 ++ es2) s = s ← exec_all es1 s; exec_all es2 s.
Proof. revert s. induction es1 as [|e es1 IH]; intros s; [done|]. cbn. destruct (exec e s); [apply IH|done]. Qed.

Lemma wait_all k n : exec_all (seq k n ≫= wait_events) (waiting_state k n) = Some (waiting_state (k + n) 0).
Proof.
  revert k. induction n as [|n IH]; intros k; [by rewrite Nat.add_0_r|].
  cbn [seq mbind list_bind]. rewrite exec_all_app, wait_next. cbn [mbind option_bind].
  rewrite IH. do 2 f_equal. lia.
Qed.

Lemma exec_all_steps es s s' : exec_all es s = Some s' -> rtc step s s'.
Proof.
  revert s. induction es as [|e es IH]; intros s; cbn; [by intros [= <-]|].
  intros (s1 & He & H)%bind_Some. eapply rtc_l; [by exists e|by apply IH].
Qed.

(** A state in which only a new call, another run, a stop or a spurious wake-up can
    change anything. *)
Definition stuck (s : scheduler) : Prop :=
  forall e s', exec e s = Some s' ->
    (exists c, e = Enter c) \/ (exists n, e = Run n) \/ (exists w, e = Spurious w) \/ e = Stop.

Lemma blocked_stuck s :
  Forall (eq Blocked) (threads_ s) -> threads_ s <> [] -> idle (calls s) ->
  stopping s = NotStopping \/ stopping s = Joining -> stuck s.
Proof.
  intros Hb Hne [Hen Hun] Hst e s' He. unfold uncounted in Hun. destruct e as [c|i| |w| |n|w|w| |]; cbn in He; eauto.
  - unfold push in He. rewrite Hen in He. by destruct (mtx_ s).
  - unfold check_waiting in He. by replace (checking (calls s)) with 0%nat in He by lia.
  - unfold notify_one in He. by replace (notifying (calls s)) with 0%nat in He by lia.
  - unfold count_task in He. by replace (counting (calls s)) with 0%nat in He by lia.
  - unfold worker in He. destruct (threads_ s !! w) as [ph|] eqn:Hw; [|done]. by rewrite <- (Forall_lookup_1 _ _ _ _ Hb Hw) in He.
  - unfold stop_step in He. destruct Hst as [Hst|Hst]; rewrite Hst in He; [done|].
    destruct (threads_ s) as [|ph ws]; [done|]. by inversion Hb; subst.
Qed.

(** A coroutine is added when [S n] threads wait, and not noticed. *)
Definition lost_state (c : coro) (n : nat) : scheduler :=
  mk [c] 1 (Z.of_nat (S n) - 1 + 1) true None (Blocked :: replicate n Blocked ++ []) (mkCallers [] 0 0 0)
    NotStopping [c] [] [].

Lemma lost_steps c n :
  exec_all [Enter c; Push 0; CheckWaiting; NotifyOne (Some 0%nat); Worker 0; Worker 0; Worker 0; Worker 0; CountTask]
    (waiting_state (S n) 0) = Some (lost_state c n).
Proof. vm_compute. reflexivity. Qed.

(** The thread of a scheduler is about to wait when [stop] is called. *)
Definition hanging_state : scheduler :=
  mk [] 0 1 false None [Blocked] (mkCallers [] 0 0 0) Joining [] [] [].

Lemma hanging_steps :
  exec_all [Run 1; Worker 0; Worker 0; Worker 0; Worker 0; Stop; StopStep; Worker 0] new = Some hanging_state.
Proof. vm_compute. reflexivity. Qed.

(** C36: notifications are lost.  A coroutine is counted after the notification and
    outside the mutex, so with any number of threads, all of them waiting, the
    one that is woken up can find the counter still at zero and wait again: the
    coroutine is then in the queue, every thread is blocked and nothing in the
    scheduler can change that.  And [stop] notifies without the mutex, so that
    it can wait forever for a thread that was about to block. *)
Theorem notifications_are_lost (c : coro) :
  (forall n, (0 < n)%nat -> exists s, reachable s /\ running_ s = true /\ corotines_ s = [c] /\ length (threads_ s) = n /\
     stuck s) /\
  (exists s, reachable s /\ stopping s = Joining /\ threads_ s = [Blocked] /\ stuck s).
Proof.
  split.
  - intros [|n] Hn; [lia|]. exists (lost_state c n).
    split_and!; [|done|done|cbn; by rewrite length_app, length_replicate, Nat.add_0_r|].
    + apply rtc_l with (waiting_state 0 (S n)); [by exists (Run (S n))|].
      transitivity (waiting_state (0 + S n) 0); [apply (exec_all_steps _ _ _ (wait_all 0 (S n)))|].
      apply (exec_all_steps _ _ _ (lost_steps c n)).
    + apply blocked_stuck; [|done|done|by left]. cbn. constructor; [done|]. rewrite app_nil_r. by apply Forall_replicate.
  - exists hanging_state. split; [apply (exec_all_steps _ _ _ hanging_steps)|]. split; [done|]. split; [done|].
    apply blocked_stuck; [by repeat constructor|done|done|by right].
Qed.

End scheduler.
Arguments scheduler coro : clear implicits.
Arguments event coro : clear implicits.

(** ** Examples *)

(** Two threads, of which one waits, and two coroutines. *)
Definition sample_events : list (event nat) :=
  [Run 2] ++ wait_events 1 ++
  [Enter 7%nat; Push 0; CheckWaiting; NotifyOne (Some 1%nat); CountTask; Enter 8%nat; Push 0; CheckWaiting; NotifyOne None;
   Worker 0; Worker 0; CountTask].

Definition sample : scheduler nat := default new (exec_all sample_events new).

(** A run of events in which the queue always fits. *)
Fixpoint exec_fitting (es : list (event nat)) (s : scheduler nat) : option (scheduler nat) :=
  match es with
  | [] => Some s
  | e :: es => s ← exec e s; if Zlen (corotines_ s) <? 2 ^ 31 then exec_fitting es s else None
  end.

Lemma exec_fitting_steps es : forall s s', exec_fitting es s = Some s' -> rtc (fun s s' => step s s' /\ fits s') s s'.
Proof.
  induction es as [|e es IH]; intros s s'; cbn; [by intros [= <-]|]. intros (s1 & He & H)%bind_Some.
  destruct (_ <? _) eqn:E; [|done]. reflect_bools. eapply rtc_l; [split; [by exists e|done]|by apply IH].
Qed.

Lemma sample_is_reachable : reachable_fitting sample.
Proof. apply (exec_fitting_steps sample_events). by vm_compute. Qed.

Lemma coroutines_accounted_witness :
  task_num_ sample = 2 /\ added sample = taken sample ++ [7%nat; 8%nat].
Proof. destruct (coroutines_accounted sample sample_is_reachable) as (_ & _ & _ & H & _). split; [done|exact H]. Defined.

(** The threads resume both and exit. *)
Definition stopping_events : list (event nat) :=
  [StopStep] ++ replicate 5 (Worker 0) ++ replicate 6 (Worker 1) ++ [Worker 0; Worker 1; StopStep].

Lemma stop_resumes_all_witness :
  exists s, added sample = [7%nat; 8%nat] /\ corotines_ s = [] /\ added sample ≡ₚ resumed s.
Proof.
  pose (s1 := default new (begin_stop sample)). exists (default new (exec_all stopping_events s1)). split; [done|].
  destruct (stop_resumes_all sample s1 (default new (exec_all stopping_events s1))) as (_ & H1 & _ & H2).
  - apply sample_is_reachable.
  - by vm_compute.
  - by vm_compute.
  - by vm_compute.
  - by vm_compute.
  - apply (exec_all_steps stopping_events). by vm_compute.
  - by vm_compute.
  - split; [exact H1|exact H2].
Defined.

End Scheduler.
