(* ===== verification/Task.v ===== *)
(** * Tasks

    Models src/include/coro/Task.hpp: the life of one task, shared between the thread
    that creates it, waits for it and destroys it, and the worker of the scheduler
    that resumes its coroutine.  The creating thread hands the coroutine to the
    scheduler before the coroutine reaches its initial suspension point; the
    destructor of the task destroys the frame, whatever the coroutine is doing.

    What the language says of coroutine handles: resuming or destroying a coroutine
    that is not suspended, or whose frame was destroyed, is undefined, and so is
    using the promise of such a frame.  What the library says of [std::promise]: a
    second [get_future] throws, and [get] waits for the value.

    The theorems: runs in which the coroutine is suspended before it is resumed,
    and finished before the task goes away, are defined and give the result of the
    body to the caller; nothing in the code orders these events, and three runs in
    which they come in another order are undefined.  [Task<void>] is the same over a
    flag. *)

From S2P Require Import Prelude.

Module Task.

Section task.
Context {T : Type}.

(** What the coroutine's body ends with. *)
Context (body : T + exn).

(** Where the coroutine is: on its way to the initial suspension point, suspended
    there, in its body, past [return_value] or [unhandled_exception], or suspended at
    the final suspension point. *)
Inductive point : Type := Starting | Initial | Running | Finishing | Final.

#[global] Instance point_eq_dec : EqDecision point.
Proof. solve_decision. Defined.

(** [std::promise<T>]: the stored result, and whether the future was retrieved. *)
Record promise : Type := mkPromise { stored : option (T + exn); retrieved : bool }.

Record frame : Type := mkFrame { at_ : point; value_ : promise }.

(** Where the owner of the task is. *)
Inductive owner : Type :=
| Idle
| InGet                           (** inside [result.get()] *)
| Got (r : outcome T).            (** what the last call of [get] gave *)

(** The frame, if it exists; whether the scheduler's queue holds the handle; the
    task object's handle; its owner. *)
Record state : Type := mkState {
  frame_ : option frame;
  queued : bool;
  coro_ : bool;
  caller : owner
}.

Definition at_point (p : point) (f : frame) : frame := mkFrame p (value_ f).

Definition set_frame (f : frame) (s : state) : state := mkState (Some f) (queued s) (coro_ s) (caller s).

Definition suspended (f : frame) : bool :=
  match at_ f with Initial | Final => true | _ => false end.

(** The coroutine function is called: the frame is allocated, and
    [get_return_object] gives the handle to the scheduler. *)
Definition get_return_object : state := mkState (Some (mkFrame Starting (mkPromise None false))) true true Idle.

(** [initial_suspend()] *)
Definition initial_suspend (s : state) : option (outcome state) :=
  f ← frame_ s;
  match at_ f with
  | Starting => Some (Ok (set_frame (at_point Initial f) s))
  | _ => None
  end.

(** A worker takes the handle out of the queue and resumes it. *)
Definition resume (s : state) : option (outcome state) :=
  if queued s then
    Some match frame_ s with
         | Some f =>
             match at_ f with
             | Initial => Ok (mkState (Some (at_point Running f)) false (coro_ s) (caller s))
             | _ => Undefined
             end
         | None => Undefined
         end
  else None.

(** [return_value(value)] and [unhandled_exception()]: the promise stores the
    result. *)
Definition store_result (s : state) : option (outcome state) :=
  f ← frame_ s;
  match at_ f with
  | Running => Some (Ok (set_frame (mkFrame Finishing (mkPromise (Some body) (retrieved (value_ f)))) s))
  | _ => None
  end.

(** [final_suspend()] *)
Definition final_suspend (s : state) : option (outcome state) :=
  f ← frame_ s;
  match at_ f with
  | Finishing => Some (Ok (set_frame (at_point Final f) s))
  | _ => None
  end.

(** [get()] up to the wait: [get_future] of the promise. *)
Definition get (s : state) : option (outcome state) :=
  match caller s with
  | InGet => None
  | _ =>
      if coro_ s then
        Some match frame_ s with
             | Some f =>
                 if retrieved (value_ f)
                 then Ok (mkState (frame_ s) (queued s) (coro_ s) (Got (Throw (FutureError (lit "future_already_retrieved")))))
                 else Ok (mkState (Some (mkFrame (at_ f) (mkPromise (stored (value_ f)) true))) (queued s) (coro_ s) InGet)
             | None => Undefined
             end
      else None
  end.

(** [get()] returns or rethrows when the result is there. *)
Definition get_returns (s : state) : option (outcome state) :=
  match caller s, frame_ s with
  | InGet, Some f =>
      r ← stored (value_ f);
      Some (Ok (mkState (frame_ s) (queued s) (coro_ s) (Got (match r with inl v => Ok v | inr e => Throw e end))))
  | _, _ => None
  end.

(** [operator T()] is [get()]. *)
Definition operator_T (s : state) : option (outcome state) := get s.

(** [~Task()] *)
Definition destroy (s : state) : option (outcome state) :=
  match caller s with
  | InGet => None
  | _ =>
      if coro_ s then
        Some match frame_ s with
             | Some f => if suspended f then Ok (mkState None (queued s) false (caller s)) else Undefined
             | None => Undefined
             end
      else None
  end.

Inductive event : Type := Suspend | Resume | Store | Finish | Get | GetReturns | Destroy.

#[global] Instance event_eq_dec : EqDecision event.
Proof. solve_decision. Defined.

(** [None]: the event is not possible. *)
Definition exec (e : event) (s : state) : option (outcome state) :=
  match e with
  | Suspend => initial_suspend s
  | Resume => resume s
  | Store => store_result s
  | Finish => final_suspend s
  | Get => get s
  | GetReturns => get_returns s
  | Destroy => destroy s
  end.

(** What is undefined stays so. *)
Fixpoint exec_all (es : list event) (s : state) : option (outcome state) :=
  match es with
  | [] => Some (Ok s)
  | e :: es =>
      r ← exec e s;
      match r with
      | Ok s => exec_all es s
      | r => Some r
      end
  end.

(** Where [a] and [b] both happen, [a] happens first. *)
Fixpoint precedes (a b : event) (es : list event) : bool :=
  match es with
  | [] => true
  | e :: es => if decide (e = a) then true else if decide (e = b) then false else precedes a b es
  end.

(** The orders nothing in the code enforces. *)
Definition ordered (es : list event) : bool := precedes Suspend Resume es && precedes Finish Destroy es.

(** What [get] gives for a result. *)
Definition result : outcome T := match body with inl v => Ok v | inr e => Throw e end.

Definition refused : outcome T := Throw (FutureError (lit "future_already_retrieved")).

(** What the owner of a task has after [n] calls of [get]. *)
Definition caller_ok (n : nat) (c : owner) : Prop :=
  match n with
  | 0 => c = Idle
  | 1 => c = InGet \/ c = Got result
  | _ => c = Got refused
  end.

Definition frame_ok (n : nat) (s : state) (f : frame) : Prop :=
  coro_ s = true /\ retrieved (value_ f) = bool_decide (0 < n) /\
  match at_ f with
  | Starting | Initial => queued s = true /\ stored (value_ f) = None
  | Running => queued s = false /\ stored (value_ f) = None
  | Finishing | Final => queued s = false /\ stored (value_ f) = Some body
  end.

Definition Good (n : nat) (s : state) : Prop :=
  caller_ok n (caller s) /\
  match frame_ s with
  | Some f => frame_ok n s f
  | None => queued s = false /\ coro_ s = false /\ caller s <> InGet
  end.

Definition gets (e : event) : nat := if decide (e = Get) then 1 else 0.

(** The order that is still to come, in a state. *)
Definition order_left (s : state) (es : list event) : Prop :=
  forall f, frame_ s = Some f ->
    (at_ f = Starting -> precedes Suspend Resume es = true) /\
    (at_ f <> Final -> precedes Finish Destroy es = true).

Lemma precedes_tail a b e es : precedes a b (e :: es) = true -> e <> a -> e <> b /\ precedes a b es = true.
Proof. cbn. intros H Hne. rewrite decide_False in H by done. case_decide; [done|]. done. Qed.

Lemma order_tail e es s s' :
  order_left s (e :: es) ->
  (forall f', frame_ s' = Some f' -> exists f, frame_ s = Some f /\
     (at_ f' = Starting -> at_ f = Starting /\ e <> Suspend) /\ (at_ f' <> Final -> at_ f <> Final /\ e <> Finish)) ->
  order_left s' es.
Proof.
  intros Ho Hs f' Hf'. destruct (Hs f' Hf') as (f & Hf & H1 & H2). destruct (Ho f Hf) as [Ho1 Ho2]. split.
  - intros Hp. destruct (H1 Hp) as [Ha Hne]. exact (proj2 (precedes_tail _ _ _ _ (Ho1 Ha) Hne)).
  - intros Hp. destruct (H2 Hp) as [Ha Hne]. exact (proj2 (precedes_tail _ _ _ _ (Ho2 Ha) Hne)).
Qed.

(** No event of an ordered run is undefined. *)
Lemma exec_defined e es n s r :
  Good n s -> order_left s (e :: es) -> exec e s = Some r -> exists s', r = Ok s'.
Proof.
  intros [_ Hf] Ho. destruct s as [[f|] q co c]; unfold Good, order_left, frame_ok in *; cbn in *.
  - destruct (Ho f eq_refl) as [Hs Hd]. destruct Hf as (-> & _ & Hp).
    destruct e; cbn; try (destruct (at_ f); by eauto || by intros [= <-]; eexists).
    + destruct q; [|done]. intros [= <-]. destruct (at_ f); try (by destruct Hp); [by specialize (Hs eq_refl)|by eexists].
    + destruct c; [|done|]; intros [= <-]; destruct (retrieved _); by eexists.
    + destruct c; try done. intros (r' & _ & [= <-])%bind_Some. by eexists.
    + assert (at_ f = Final) as Hfin.
      { destruct (decide (at_ f = Final)) as [|Hne]; [done|]. specialize (Hd Hne). done. }
      unfold destroy, suspended. cbn. rewrite Hfin. destruct c; [|done|]; intros [= <-]; by eexists.
  - destruct Hf as (-> & -> & _). destruct e; cbn; try done; destruct c; done.
Qed.

Lemma exec_good e es n s s' :
  Good n s -> order_left s (e :: es) -> exec e s = Some (Ok s') -> Good (gets e + n) s' /\ order_left s' es.
Proof.
  intros [Hc Hf] Ho He. destruct s as [[[p [st rt]]|] q co c]; cbn in *.
  2:{ destruct Hf as (-> & -> & _). destruct e; cbn in He; try done; destruct c; done. }
  destruct Hf as (Hco & Hrt & Hp). cbn in Hco, Hrt, Hp. subst co.
  assert (forall s2, (forall f', frame_ s2 = Some f' -> (at_ f' = Starting -> p = Starting /\ e <> Suspend) /\
     (at_ f' <> Final -> p <> Final /\ e <> Finish)) -> order_left s2 es) as Hord.
  { intros s2 Hs2. eapply order_tail; [exact Ho|]. intros f' Hf'. eexists. split; [done|]. by apply Hs2. }
  destruct e; cbn in He.
  - destruct p; try done. injection He as <-. split; [by split|]. apply Hord. by intros f' [= <-].
  - destruct q; [|done]. destruct p; try done. injection He as <-. split; [|apply Hord; by intros f' [= <-]].
    split; [done|]. by destruct Hp.
  - destruct p; try done. injection He as <-. split; [|apply Hord; by intros f' [= <-]]. split; [done|]. by destruct Hp.
  - destruct p; try done. injection He as <-. split; [by split|]. apply Hord. by intros f' [= <-].
  - assert (c = Idle /\ n = 0 \/ (exists o, c = Got o) /\ 0 < n) as Hcase.
    { destruct n as [|[|n]]; cbn in Hc; [by left|..]; right; (split; [|lia]).
      - destruct Hc as [->| ->]; [done|by eexists].
      - subst c. by eexists. }
    destruct Hcase as [[-> ->]|[[o ->] Hn]]; rewrite Hrt in He; cbn in He.
    + injection He as <-. split; [split; [by left|by split; [|split]]|]. apply Hord. by intros f' [= <-].
    + rewrite bool_decide_eq_true_2 in He by done. injection He as <-. split.
      * split; [by destruct n; [lia|]|]. split; [done|]. split; [|done]. cbn. by rewrite ?Hrt, !bool_decide_eq_true_2 by (cbn; lia).
      * apply Hord. by intros f' [= <-].
  - destruct c; try done. apply bind_Some in He as (r & Hr & [= <-]). cbn in Hr. split.
    + destruct n as [|[|n]]; cbn in Hc; try done. split; [|by split]. right. unfold result.
      cbn. destruct p; destruct Hp as [_ Hp]; try congruence. all: by simplify_eq.
    + apply Hord. by intros f' [= <-].
  - destruct (decide (p = Final)) as [->|Hne]; [|by destruct (Ho _ eq_refl) as [_ Hd]; specialize (Hd Hne)].
    destruct Hp as [-> _]. destruct c; [|done|]; injection He as <-; (split; [by split|]); apply Hord; by intros f' Hf'.
Qed.

Lemma exec_all_good es : forall n s r,
  Good n s -> order_left s es -> exec_all es s = Some r ->
  exists s', r = Ok s' /\ Good (length (filter (fun e => e = Get) es) + n) s'.
Proof.
  induction es as [|e es IH]; intros n s r Hs Ho; cbn [exec_all]; [intros [= <-]; by exists s|].
  intros (r1 & He & Hr)%bind_Some. destruct (exec_defined _ _ _ _ _ Hs Ho He) as [s1 ->].
  destruct (exec_good _ _ _ _ _ Hs Ho He) as [Hs1 Ho1]. destruct (IH _ _ _ Hs1 Ho1 Hr) as (s' & -> & Hs'). exists s'. split; [done|].
  rewrite filter_cons. unfold gets in Hs'. case_decide; cbn; [|done]. by rewrite <- Nat.add_succ_r.
Qed.

Lemma start_good : Good 0 get_return_object.
Proof. done. Qed.

(** A call of [get] that waits can return. *)
Lemma delivers s :
  Good 1 s -> caller s = InGet -> exists es s', exec_all es s = Some (Ok s') /\ caller s' = Got result.
Proof.
  intros [_ Hf] Hc. destruct s as [[[p [st rt]]|] q co c]; cbn in *; subst c.
  - destruct Hf as (Hco & _ & Hp). cbn in Hco, Hp. unfold result. destruct p, Hp as [-> ->].
    + exists [Suspend; Resume; Store; GetReturns]. by eexists.
    + exists [Resume; Store; GetReturns]. by eexists.
    + exists [Store; GetReturns]. by eexists.
    + exists [GetReturns]. by eexists.
    + exists [GetReturns]. by eexists.
  - by destruct Hf as (_ & _ & ?).
Qed.

(** C26: a run in which the coroutine is suspended before the worker resumes it and
    finished before the task is destroyed is defined, and [get] gives the result of
    the body: the first call returns its value or rethrows its exception once it is
    there, and any further call throws [std::future_error].  Before that the first
    call waits, and the run can go on so that it returns. *)
Theorem ordered_task_delivers es r :
  ordered es = true -> exec_all es get_return_object = Some r ->
  exists s, r = Ok s /\
    match length (filter (fun e => e = Get) es) with
    | 0 => caller s = Idle
    | 1 => caller s = Got result \/
        (caller s = InGet /\ exists es' s', exec_all es' s = Some (Ok s') /\ caller s' = Got result)
    | _ => caller s = Got refused
    end.
Proof.
  intros [Ho1 Ho2]%andb_true_iff Hr.
  destruct (exec_all_good es 0 get_return_object r start_good) as (s & -> & Hs); [by intros f [= <-]|done|].
  exists s. split; [done|]. rewrite Nat.add_0_r in Hs. pose proof Hs as [Hc _].
  destruct (length _) as [|[|n]] eqn:Hn; [done| |done]. destruct Hc as [Hc|Hc]; [|by left]. right. split; [done|].
  by eapply delivers.
Qed.

(** Nothing orders the events the previous theorem asks for.  The scheduler has
    the handle before the coroutine is suspended, so that a worker may resume a
    coroutine that is not suspended; a task that is destroyed while its coroutine
    is queued leaves a dangling handle to the worker; and a task that is destroyed
    when [get] has returned, which the value alone makes possible, may destroy a
    coroutine that has not reached its final suspension point.  All three are
    undefined. *)
Theorem task_races :
  exec_all [Resume] get_return_object = Some Undefined /\
  exec_all [Suspend; Destroy; Resume] get_return_object = Some Undefined /\
  exec_all [Suspend; Resume; Get; Store; GetReturns; Destroy] get_return_object = Some Undefined.
Proof. done. Qed.

End task.

(** ** Task<void>

    The same code over a [std::promise<bool>]: [return_void] stores [true], and [get]
    throws the flag away. *)

Section void_task.
Context (body : unit + exn).

(** What [return_void] or [unhandled_exception] stores. *)
Definition return_void : bool + exn := match body with inl _ => inl true | inr e => inr e end.

(** The events of a [Task<void>]. *)
Definition exec_void (es : list event) : option (outcome state) := exec_all return_void es get_return_object.

(** [(void)result.get();] *)
Definition get_void (c : owner (T := bool)) : option (outcome unit) :=
  match c with Got r => Some (_ ← r; Ok tt) | _ => None end.

(** What [get] gives of a [Task<void>] in an ordered run: the body's end or its
    exception, and never the flag [false]. *)
Lemma ordered_void_task es s r :
  ordered es = true -> length (filter (fun e => e = Get) es) = 1 -> exec_void es = Some (Ok s) -> caller s = Got r ->
  get_void (caller s) = Some (match body with inl _ => Ok tt | inr e => Throw e end) /\ r <> Ok false.
Proof.
  intros [Ho1 Ho2]%andb_true_iff Hn Hr Hc.
  destruct (exec_all_good return_void es 0 get_return_object (Ok s) (start_good _)) as (s' & [= <-] & [Hs _]); [by intros f [= <-]|done|].
  rewrite Nat.add_0_r, Hn, Hc in Hs. destruct Hs as [?|[= ->]]; [done|]. rewrite Hc. unfold result, return_void. by destruct body.
Qed.

End void_task.

Lemma ordered_task_delivers_witness :
  exists s, exec_all (inl 42) [Suspend; Get; Resume; Store; GetReturns; Finish; Destroy] get_return_object = Some (Ok s) /\
    caller s = Got (Ok 42).
Proof.
  destruct (ordered_task_delivers (inl 42) [Suspend; Get; Resume; Store; GetReturns; Finish; Destroy]
    (Ok (mkState None false false (Got (Ok 42))))) as (s & Hs & [H|[H _]]); [done..| |].
  - by exists s; split; [injection Hs as <-|].
  - injection Hs as <-. done.
Defined.

End Task.
