(* ===== verification/IOContext.v ===== *)
(** * Epoll and the I/O context

    Models src/include/net/Epoll.hpp and src/include/net/IOContext.hpp.  The
    kernel's part is what epoll_ctl(2) and close(2) document: an interest list of
    open descriptors, to which a descriptor can be added once, and from which it
    disappears when it is closed.  Whether the kernel has the memory for a
    request is an argument ([grant]).  The executor is the list of handles it was
    given to resume; resuming a null handle is undefined.

    The theorems: each waiter is handed to the executor once; a suspension is its two
    steps, between which Server.v lets other threads act; and when a loop that is
    stopped ends. *)

From S2P Require Import Prelude Coroutine.
#[local] Open Scope Z_scope.

Module Epoll.

Record kernel : Type := mkKernel { open_fds : gset Z; interest : gmap Z Z }.

(** [epoll_ctl(EPOLL_CTL_ADD)] *)
Definition add (grant : bool) (fd events : Z) (k : kernel) : outcome kernel :=
  if grant && bool_decide (fd ∈ open_fds k) && bool_decide (interest k !! fd = None)
  then Ok (mkKernel (open_fds k) (<[fd := events]> (interest k)))
  else Throw (RuntimeError (lit "epoll_ctl add failed")).

(** [epoll_ctl(EPOLL_CTL_MOD)] *)
Definition modify (grant : bool) (fd events : Z) (k : kernel) : outcome kernel :=
  if grant && bool_decide (is_Some (interest k !! fd))
  then Ok (mkKernel (open_fds k) (<[fd := events]> (interest k)))
  else Throw (RuntimeError (lit "epoll_ctl modify failed")).

(** [epoll_ctl(EPOLL_CTL_DEL)] *)
Definition remove (fd : Z) (k : kernel) : outcome kernel :=
  if bool_decide (is_Some (interest k !! fd))
  then Ok (mkKernel (open_fds k) (delete fd (interest k)))
  else Throw (RuntimeError (lit "epoll_ctl remove failed")).

(** [close(fd)] *)
Definition close (fd : Z) (k : kernel) : kernel := mkKernel (open_fds k ∖ {[fd]}) (delete fd (interest k)).

(** A new descriptor, as [socket] and [accept4] return it. *)
Definition open (fd : Z) (k : kernel) : kernel := mkKernel ({[fd]} ∪ open_fds k) (interest k).

(** [Epoll::Epoll()]: the descriptor [epoll_create1] returns, if it does. *)
Definition create (fd : option Z) (k : kernel) : outcome (Z * kernel) :=
  match fd with
  | Some fd => Ok (fd, open fd k)
  | None => Throw (RuntimeError (lit "epoll_create1 failed"))
  end.

(** [~Epoll()]; its interest list goes with it. *)
Definition destroy (epoll_fd_ : Z) (k : kernel) : kernel := mkKernel (open_fds k ∖ {[epoll_fd_]}) ∅.

(** [wait(events, max_events, timeout)]: what [epoll_wait] stores of the descriptors
    that have an event, or its error. *)
Definition wait (max_events : Z) (ready : option (list Z)) : option (list Z) :=
  take (Z.to_nat max_events) <$> ready.

(** An [Epoll] that is created and destroyed leaves the descriptors as they were. *)
Lemma create_destroy fd k :
  fd ∉ open_fds k ->
  exists k', create (Some fd) k = Ok (fd, k') /\ open_fds (destroy fd k') = open_fds k /\ interest (destroy fd k') = ∅.
Proof.
  intros Hf. eexists. split; [done|]. cbn. split; [|done].
  rewrite difference_union_distr_l_L, difference_diag_L, (left_id_L ∅ (∪)). by apply difference_disjoint_L, disjoint_singleton_r.
Qed.

End Epoll.

Module IOContext.

Record Waiter : Type := mkWaiter { handle_ : option handle; events : Z }.

Definition null_waiter : Waiter := mkWaiter None 0.

Record context : Type := mk {
  waiters_ : gmap Z Waiter;
  ev_ : Epoll.kernel;
  tasks : list (option handle);      (** given to the executor, not yet resumed *)
  running_ : bool
}.

Definition set_waiters (w : gmap Z Waiter) (c : context) : context := mk w (ev_ c) (tasks c) (running_ c).
Definition set_kernel (k : Epoll.kernel) (c : context) : context := mk (waiters_ c) k (tasks c) (running_ c).
Definition set_tasks (l : list (option handle)) (c : context) : context := mk (waiters_ c) (ev_ c) l (running_ c).

(** The constructor; whether the pointers it is given are set. *)
Definition new (executor ev : bool) (k : Epoll.kernel) : outcome context :=
  if negb executor then Throw (InvalidArgument (lit "IOContext needs a ThreadPool"))
  else if negb ev then Throw (InvalidArgument (lit "IOContext needs an Epoll"))
  else Ok (mk ∅ k [] false).

(** [executor_->addTask(...)] *)
Definition addTask (h : option handle) (c : context) : context := set_tasks (tasks c ++ [h]) c.

(** [FdAwaiter], which [await_fd] makes; [ctx] is the context that is passed along. *)
Record FdAwaiter : Type := mkAwaiter { fd_ : Z; events_ : Z }.
Definition await_fd (fd events : Z) : FdAwaiter := mkAwaiter fd events.
Definition await_ready (a : FdAwaiter) : bool := false.

(** [FdAwaiter::await_suspend]: registers the waiter, over one that is there, and
    tells epoll; where that fails the waiter is removed again. *)
Definition await_suspend (grant : bool) (fd events : Z) (awaiting : handle) (c : context) : context :=
  let c := set_waiters (<[fd := mkWaiter (Some awaiting) events]> (waiters_ c)) c in
  match Epoll.modify grant fd events (ev_ c) with
  | Ok k => set_kernel k c
  | _ => set_waiters (delete fd (waiters_ c)) c
  end.

(** The body of the event loop for one event: the waiter is taken out of the table
    and resumed on the executor. *)
Definition dispatch (fd : Z) (c : context) : context :=
  match waiters_ c !! fd with
  | None => c
  | Some w => addTask (handle_ w) (set_waiters (delete fd (waiters_ c)) c)
  end.

(** One turn of the event loop, over the events [epoll_wait] returned. *)
Fixpoint dispatch_all (fds : list Z) (c : context) : context :=
  match fds with
  | [] => c
  | fd :: fds => dispatch_all fds (dispatch fd c)
  end.

(** The size of the array for events. *)
Definition EVENTS_MAX : Z := 64.

(** The event loop, over what [epoll_wait] finds in each turn: the descriptors with an
    event, of which it stores as many as the array holds, or an error.  The loop ends
    when [running_] is false. *)
Fixpoint loop (waits : list (option (list Z))) (c : context) : context :=
  match waits with
  | [] => c
  | n :: waits =>
      if running_ c
      then loop waits (match Epoll.wait EVENTS_MAX n with Some fds => dispatch_all fds c | None => c end)
      else c
  end.

Definition run (waits : list (option (list Z))) (c : context) : context :=
  loop waits (mk (waiters_ c) (ev_ c) (tasks c) true).

(** [co_spawn(awaitable)], given the handle of the awaitable: the first resumption is
    given to the executor. *)
Definition co_spawn (h : option handle) (c : context) : outcome context :=
  match h with
  | None => Throw (InvalidArgument (lit "co_spawn: null coroutine handle"))
  | Some h => Ok (addTask (Some h) c)
  end.

(** [get_events(fd)]: [waiters_[fd].events], which inserts a waiter when there is
    none. *)
Definition get_events (fd : Z) (c : context) : Z * context :=
  match waiters_ c !! fd with
  | Some w => (events w, c)
  | None => (0, set_waiters (<[fd := null_waiter]> (waiters_ c)) c)
  end.

Definition add_fd (grant : bool) (fd events : Z) (c : context) : outcome context :=
  k ← Epoll.add grant fd events (ev_ c); Ok (set_kernel k c).

Definition modify_fd (grant : bool) (fd events : Z) (c : context) : outcome context :=
  k ← Epoll.modify grant fd events (ev_ c); Ok (set_kernel k c).

(** [remove_fd(fd)]: the waiter goes, also when epoll then throws. *)
Definition remove_fd (fd : Z) (c : context) : outcome unit * context :=
  let c := set_waiters (delete fd (waiters_ c)) c in
  match Epoll.remove fd (ev_ c) with
  | Ok k => (Ok tt, set_kernel k c)
  | Throw e => (Throw e, c)
  | Undefined => (Undefined, c)
  | OutOfFuel => (OutOfFuel, c)
  end.

Definition stop (c : context) : context := mk (waiters_ c) (ev_ c) (tasks c) false.

(** ** Lemmas *)

Lemma dispatch_all_app fds1 fds2 c : dispatch_all (fds1 ++ fds2) c = dispatch_all fds2 (dispatch_all fds1 c).
Proof. revert c. induction fds1 as [|fd fds1 IH]; intros c; [done|]. apply IH. Qed.

(** What the executor is given by the event loop for a list of events. *)
Fixpoint resumed (fds : list Z) (m : gmap Z Waiter) : list (option handle) :=
  match fds with
  | [] => []
  | fd :: fds =>
      match m !! fd with
      | Some w => handle_ w :: resumed fds (delete fd m)
      | None => resumed fds m
      end
  end.

Lemma dispatch_all_spec fds : forall c,
  tasks (dispatch_all fds c) = tasks c ++ resumed fds (waiters_ c) /\
  running_ (dispatch_all fds c) = running_ c /\ ev_ (dispatch_all fds c) = ev_ c /\
  forall fd, waiters_ (dispatch_all fds c) !! fd = if decide (fd ∈ fds) then None else waiters_ c !! fd.
Proof.
  induction fds as [|fd fds IH]; intros c; cbn [dispatch_all resumed].
  - rewrite app_nil_r. split_and!; done.
  - destruct (IH (dispatch fd c)) as (Ht & Hr & He & Hw). unfold dispatch in *. destruct (waiters_ c !! fd) as [w|] eqn:Hf.
    + rewrite Ht, Hr, He. cbn. split_and!; [by rewrite <- app_assoc|done..|]. intros fd'. rewrite Hw. cbn.
      destruct (decide (fd' = fd)) as [->|Hne].
      * rewrite lookup_delete_eq. rewrite (decide_True (P := fd ∈ fd :: fds)) by left. by case_decide.
      * rewrite lookup_delete_ne by congruence. apply decide_ext. rewrite elem_of_cons. tauto.
    + split_and!; [done..|]. intros fd'. rewrite Hw. destruct (decide (fd' = fd)) as [->|Hne].
      * rewrite (decide_True (P := fd ∈ fd :: fds)) by left. rewrite Hf. by case_decide.
      * apply decide_ext. rewrite elem_of_cons. tauto.
Qed.

(** The event loop hands each waiter to the executor once: over all batches of
    events, in their order, the executor gets the handle of a descriptor's waiter at
    the first event of the descriptor, the waiter is gone afterwards, and
    descriptors without an event keep their waiter. *)
Theorem event_loop_resumes_once waits c :
  let fds := concat (omap (Epoll.wait EVENTS_MAX) waits) in
  tasks (run waits c) = tasks c ++ resumed fds (waiters_ c) /\
  forall fd, waiters_ (run waits c) !! fd = if decide (fd ∈ fds) then None else waiters_ c !! fd.
Proof.
  unfold run. set (c1 := mk _ _ _ true). change (tasks c) with (tasks c1). change (waiters_ c) with (waiters_ c1).
  assert (loop waits c1 = dispatch_all (concat (omap (Epoll.wait EVENTS_MAX) waits)) c1) as ->.
  { assert (running_ c1 = true) as Hr by done. revert Hr. generalize c1. clear c1 c.
    induction waits as [|n waits IH]; intros c Hr; cbn [loop omap list_omap]; [done|]. rewrite Hr.
    destruct (Epoll.wait EVENTS_MAX n) as [fds|]; cbn [concat]; [|by apply IH].
    rewrite dispatch_all_app. apply IH. by destruct (dispatch_all_spec fds c) as (_ & -> & _). }
  by destruct (dispatch_all_spec (concat (omap (Epoll.wait EVENTS_MAX) waits)) c1) as (? & _ & _ & ?).
Qed.

Lemma await_suspend_granted fd events h c :
  is_Some (Epoll.interest (ev_ c) !! fd) ->
  await_suspend true fd events h c =
  mk (<[fd := mkWaiter (Some h) events]> (waiters_ c))
    (Epoll.mkKernel (Epoll.open_fds (ev_ c)) (<[fd := events]> (Epoll.interest (ev_ c)))) (tasks c) (running_ c).
Proof. intros H. unfold await_suspend, Epoll.modify. cbn [ev_ set_waiters]. by rewrite bool_decide_eq_true_2. Qed.

(** ** A suspension in steps

    [await_suspend] runs on a worker while the event loop and the other workers go on.
    The awaiter is a temporary of the [co_await] expression in the frame of the
    coroutine: it is gone as soon as the coroutine is resumed. *)

(** Up to the insertion into [waiters_]. *)
Definition register (fd events : Z) (awaiting : handle) (c : context) : context :=
  set_waiters (<[fd := mkWaiter (Some awaiting) events]> (waiters_ c)) c.

(** From the call of [modify] on, which reads the members of the awaiter. *)
Definition rearm (grant : bool) (fd events : Z) (c : context) : context :=
  match Epoll.modify grant fd events (ev_ c) with
  | Ok k => set_kernel k c
  | _ => set_waiters (delete fd (waiters_ c)) c
  end.

Lemma await_suspend_steps grant fd events h c :
  await_suspend grant fd events h c = rearm grant fd events (register fd events h c).
Proof. done. Qed.

(** ** Stopping the event loop

    [stop()] is called while the loop runs in another thread. *)

(** Where the loop is: at the test of [running_], inside [epoll_wait], which has no
    timeout, or behind the loop. *)
Inductive loop_phase : Type := AtTest | InWait | Left.

(** One step of the loop; [ready] is what [epoll_wait] returns, once it returns. *)
Definition loop_step (ready : option (option (list Z))) (x : loop_phase * context) : option (loop_phase * context) :=
  let '(ph, c) := x in
  match ph with
  | AtTest => Some (if running_ c then InWait else Left, c)
  | InWait =>
      n ← ready;
      Some (AtTest, match Epoll.wait EVENTS_MAX n with Some fds => dispatch_all fds c | None => c end)
  | Left => None
  end.

(** A turn of the loop: the test, and the wait with what it returns. *)
Fixpoint turns (waits : list (option (list Z))) (x : loop_phase * context) : option (loop_phase * context) :=
  match waits with
  | [] => Some x
  | n :: waits => x ← loop_step None x; x ← loop_step (Some n) x; turns waits x
  end.

Lemma turns_loop waits : forall c, running_ c = true -> turns waits (AtTest, c) = Some (AtTest, loop waits c).
Proof.
  induction waits as [|n waits IH]; intros c Hr; cbn [turns loop loop_step]; [done|]. rewrite Hr. cbn.
  apply IH. destruct (Epoll.wait EVENTS_MAX n) as [fds|]; [|done]. by destruct (dispatch_all_spec fds c) as (_ & -> & _).
Qed.

(** A loop that is stopped at its test leaves.  Inside [epoll_wait] it makes no step until
    a descriptor has an event, which nothing in [stop] causes; it then still handles what
    it was given before it leaves. *)
Lemma stop_needs_event c :
  loop_step None (AtTest, stop c) = Some (Left, stop c) /\
  loop_step None (InWait, stop c) = None /\
  forall fds, exists c', loop_step (Some (Some fds)) (InWait, stop c) = Some (AtTest, c') /\
    loop_step None (AtTest, c') = Some (Left, c') /\
    tasks c' = tasks c ++ resumed (take (Z.to_nat EVENTS_MAX) fds) (waiters_ c).
Proof.
  split; [done|]. split; [done|]. intros fds. eexists. split; [done|]. cbn [loop_step Epoll.wait fmap option_fmap option_map].
  destruct (dispatch_all_spec (take (Z.to_nat EVENTS_MAX) fds) (stop c)) as (Ht & Hr & _). by rewrite Hr, Ht.
Qed.

End IOContext.
