(* ===== verification/Socket.v ===== *)
(** * Sockets

    Models src/include/net/Socket.hpp: the asynchronous operations, with the
    answers of the kernel to [readv], [write] and [accept4] as arguments, their
    interplay with the I/O context, and who closes a descriptor.

    An operation in flight is a coroutine: it tries the system call when it is
    resumed, and where the call would block it looks up the events of its
    descriptor ([get_events]) and then registers itself ([await_fd]).  These are
    two steps, and the event loop may run in between.

    The theorems: what an operation returns for any answers of the kernel; when a
    waiting operation is sure to be watched and resumed, and two ways in which it
    is not; that sockets own their descriptors, as long as no acceptor is copied; and
    the address an acceptor binds. *)

From S2P Require Import Prelude Ownership Coroutine Buffer IOContext.
#[local] Open Scope Z_scope.

Module Socket.
Import IOContext.

Definition EAGAIN : Z := 11.          (** the same value as [EWOULDBLOCK] *)
Definition EPOLLIN : Z := 1.
Definition EPOLLOUT : Z := 4.

(** ** One attempt *)

(** How a turn of an operation's loop ends. *)
Inductive attempt : Type :=
| Done (n : Z)              (** [co_return n;] *)
| Again                     (** the call would block *)
| Failed (e : exn).

Definition errno_attempt (errno : Z) (what : str) : attempt :=
  if errno =? EAGAIN then Again else Failed (SystemError errno what).

(** The loop body of [async_read], up to the test of [EAGAIN]. *)
Definition try_read (r : Buffer.readv_result) (b : Buffer.t) : outcome (attempt * Buffer.t) :=
  '(n, saveErr, b) ← Buffer.readFd b r;
  Ok (if 0 <=? n then Done n else errno_attempt (default 0 saveErr) (lit "read failed"), b).

(** The loop body of [async_write]. *)
Definition try_write (r : Buffer.write_result) (b : Buffer.t) : attempt * Buffer.t :=
  if Buffer.readableBytes b =? 0 then (Done 0, b)
  else
    let '(n, saveErr, b) := Buffer.writeFd b r in
    (if 0 <=? n then Done n else errno_attempt (default 0 saveErr) (lit "write failed"), b).

(** [accept4]: a descriptor, or an error number. *)
Inductive accept_result : Type := Accepts (fd : Z) | AcceptFails (errno : Z).

(** The loop body of [async_accept]. *)
Definition try_accept (r : accept_result) : attempt :=
  match r with
  | Accepts fd => Done fd
  | AcceptFails errno => errno_attempt errno (lit "accept failed")
  end.

(** ** Whole operations *)

(** [async_read] and [async_write] over the answers they get, one per attempt; an
    operation that still waits when there are no more answers has no result. *)
Fixpoint async_read (rs : list Buffer.readv_result) (b : Buffer.t) : outcome (option Z * Buffer.t) :=
  match rs with
  | [] => Ok (None, b)
  | r :: rs =>
      '(a, b) ← try_read r b;
      match a with
      | Done n => Ok (Some n, b)
      | Again => async_read rs b
      | Failed e => Throw e
      end
  end.

Fixpoint async_write (rs : list Buffer.write_result) (b : Buffer.t) : outcome (option Z * Buffer.t) :=
  match rs with
  | [] => Ok (None, b)
  | r :: rs =>
      let '(a, b) := try_write r b in
      match a with
      | Done n => Ok (Some n, b)
      | Again => async_write rs b
      | Failed e => Throw e
      end
  end.

(** ** Operations in flight *)

Inductive kind : Type := Read | Write | Accept.

(** Where the coroutine of an operation is: handed to the executor, between the
    failed call and its registration, registered, or ended. *)
Inductive phase : Type :=
| Queued
| Arming (events : Z)
| Parked
| Ended (r : Z + exn).

Record io : Type := mkIo { io_kind : kind; io_fd : Z; io_buf : Buffer.t; io_phase : phase }.

Definition set_phase (ph : phase) (o : io) : io := mkIo (io_kind o) (io_fd o) (io_buf o) ph.

Record system : Type := mkSys { ctx : context; flight : gmap handle io }.

Inductive answer : Type :=
| AnsRead (r : Buffer.readv_result)
| AnsWrite (r : Buffer.write_result)
| AnsAccept (r : accept_result) (grant : bool).  (** and whether epoll takes the new descriptor *)

Definition try_io (o : io) (a : answer) : option (attempt * Buffer.t) :=
  match io_kind o, a with
  | Read, AnsRead r =>
      match try_read r (io_buf o) with
      | Ok x => Some x
      | Throw e => Some (Failed e, io_buf o)
      | _ => None
      end
  | Write, AnsWrite r => Some (try_write r (io_buf o))
  | Accept, AnsAccept r _ => Some (try_accept r, io_buf o)
  | _, _ => None
  end.

(** [Socket{ fd, ctx_ }] on what [accept4] or [socket] returned. *)
Definition construct (grant : bool) (fd : Z) (c : context) : (Z + exn) * context :=
  if 0 <=? fd then
    let c := set_kernel (Epoll.open fd (ev_ c)) c in
    match add_fd grant fd EPOLLIN c with
    | Ok c => (inl fd, c)
    | Throw e => (inr e, c)
    | _ => (inl fd, c)
    end
  else (inl fd, c).

(** The [co_return] of an operation: that of [async_accept] constructs a socket. *)
Definition return_io (a : answer) (n : Z) (c : context) : (Z + exn) * context :=
  match a with
  | AnsAccept _ grant => construct grant n c
  | _ => (inl n, c)
  end.

(** The event an operation waits for. *)
Definition needs (k : kind) : Z := match k with Write => EPOLLOUT | _ => EPOLLIN end.

(** The events to wait for: those of the descriptor's entry in the table, which this
    creates, and the operation's own; [async_accept] does not look at the table. *)
Definition wanted_events (o : io) (c : context) : Z * context :=
  match io_kind o with
  | Accept => (EPOLLIN, c)
  | k => let '(prev, c) := get_events (io_fd o) c in (Z.lor prev (needs k), c)
  end.

(** A coroutine of an operation begins; its handle is with the executor. *)
Definition begin_io (h : handle) (k : kind) (fd : Z) (b : Buffer.t) (s : system) : option system :=
  match flight s !! h with
  | Some _ => None
  | None => Some (mkSys (addTask (Some h) (ctx s)) (<[h := mkIo k fd b Queued]> (flight s)))
  end.

(** A worker resumes the [i]-th task: one attempt. *)
Definition resume_io (i : nat) (a : answer) (s : system) : option system :=
  match tasks (ctx s) !! i with
  | Some (Some h) =>
      o ← flight s !! h;
      '(t, b) ← try_io o a;
      let c := set_tasks (delete i (tasks (ctx s))) (ctx s) in
      let o := mkIo (io_kind o) (io_fd o) b (io_phase o) in
      match io_phase o, t with
      | Queued, Done n =>
          let '(r, c) := return_io a n c in
          Some (mkSys c (<[h := set_phase (Ended r) o]> (flight s)))
      | Queued, Failed e => Some (mkSys c (<[h := set_phase (Ended (inr e)) o]> (flight s)))
      | Queued, Again =>
          let '(ev, c) := wanted_events o c in
          Some (mkSys c (<[h := set_phase (Arming ev) o]> (flight s)))
      | _, _ => None
      end
  | _ => None
  end.

(** [co_await ctx_->await_fd(fd, events)] *)
Definition arm (grant : bool) (h : handle) (s : system) : option system :=
  o ← flight s !! h;
  match io_phase o with
  | Arming ev => Some (mkSys (await_suspend grant (io_fd o) ev h (ctx s)) (<[h := set_phase Parked o]> (flight s)))
  | _ => None
  end.

(** The handle that waits on a descriptor. *)
Definition waiting_on (fd : Z) (c : context) : option handle := w ← waiters_ c !! fd; handle_ w.

(** The event loop handles an event of a descriptor in the interest list: the
    operation that waits on it is with the executor again. *)
Definition event_io (fd : Z) (s : system) : option system :=
  match Epoll.interest (ev_ (ctx s)) !! fd with
  | Some _ =>
      Some (mkSys (dispatch fd (ctx s))
        (match waiting_on fd (ctx s) with
         | Some h => alter (set_phase Queued) h (flight s)
         | None => flight s
         end))
  | None => None
  end.

(** A descriptor is obtained and registered by the constructor of [Socket] or
    [Acceptor]. *)
Definition open_io (fd : Z) (s : system) : option system :=
  match construct true fd (ctx s) with
  | (inl _, c) => Some (mkSys c (flight s))
  | _ => None
  end.

(** [Socket::close()] *)
Definition close_io (fd : Z) (s : system) : option system :=
  match remove_fd fd (ctx s) with
  | (Ok _, c) => Some (mkSys (set_kernel (Epoll.close fd (ev_ c)) c) (flight s))
  | _ => None
  end.

Inductive step : system -> system -> Prop :=
| step_begin h k fd b s s' : begin_io h k fd b s = Some s' -> step s s'
| step_resume i a s s' : resume_io i a s = Some s' -> step s s'
| step_arm g h s s' : arm g h s = Some s' -> step s s'
| step_event fd s s' : event_io fd s = Some s' -> step s s'
| step_open fd s s' : open_io fd s = Some s' -> step s s'
| step_close fd s s' : close_io fd s = Some s' -> step s s'.

Definition empty_system : system := mkSys (mk ∅ (Epoll.mkKernel ∅ ∅) [] true) ∅.

Definition reachable (s : system) : Prop := rtc step empty_system s.

(** ** What an operation returns *)

Definition read_blocks (r : Buffer.readv_result) : bool :=
  match r with Buffer.ReadvFails errno => errno =? EAGAIN | _ => false end.

Definition write_blocks (r : Buffer.write_result) : bool :=
  match r with Buffer.WriteFails errno => errno =? EAGAIN | _ => false end.

(** What a read does is settled by the first answer of the kernel that is not
    [EAGAIN]: it ends with the number of bytes, which are then at the end of the
    buffer's contents, or throws the kernel's error; without such an answer it
    still waits, and the buffer is as it was. *)
Theorem async_read_result b rs :
  Buffer.wf b ->
  match List.find (fun r => negb (read_blocks r)) rs with
  | None => async_read rs b = Ok (None, b)
  | Some (Buffer.ReadvFails errno) => async_read rs b = Throw (SystemError errno (lit "read failed"))
  | Some (Buffer.ReadvReads bytes) =>
      Zlen bytes <= Buffer.iov_capacity b -> Buffer.size b + Zlen bytes <= PTRDIFF_MAX ->
      exists b', async_read rs b = Ok (Some (Zlen bytes), b') /\ Buffer.wf b' /\
        Buffer.contents b' = Buffer.contents b ++ bytes
  end.
Proof.
  intros Hwf. induction rs as [|[errno|bytes] rs IH]; [done| |]; cbn [List.find read_blocks negb].
  - cbn. unfold errno_attempt. destruct (errno =? EAGAIN) eqn:He; cbn [negb]; [apply IH|].
    by cbn.
  - intros Hcap Hmax. destruct (Buffer.readFd_correct b bytes) as (b' & Hr & Hwf' & Hc & _); [done..|].
    exists b'. cbn [async_read]. unfold try_read. rewrite Hr. cbn. pose proof (Zlen_nonneg bytes).
    by rewrite (proj2 (Z.leb_le _ _)) by done.
Qed.

(** A write of an empty buffer ends at once, without a system call.  Otherwise
    the first answer of the kernel that is not [EAGAIN] settles it: the bytes the
    kernel took, as many as the operation returns, are gone from the front of the
    buffer, or the kernel's error is thrown; without such an answer the write still
    waits, and the buffer is as it was. *)
Theorem async_write_result b r rs :
  Buffer.wf b ->
  if Buffer.readableBytes b =? 0 then async_write (r :: rs) b = Ok (Some 0, b)
  else
    match List.find (fun r => negb (write_blocks r)) (r :: rs) with
    | None => async_write (r :: rs) b = Ok (None, b)
    | Some (Buffer.WriteFails errno) => async_write (r :: rs) b = Throw (SystemError errno (lit "write failed"))
    | Some (Buffer.WriteWrites n) =>
        0 <= n <= Buffer.readableBytes b ->
        exists b', async_write (r :: rs) b = Ok (Some n, b') /\ Buffer.wf b' /\
          Buffer.contents b = take (Z.to_nat n) (Buffer.contents b) ++ Buffer.contents b'
    end.
Proof.
  intros Hwf. destruct (Buffer.readableBytes b =? 0) eqn:Hb; [cbn [async_write]; unfold try_write; by rewrite Hb|].
  generalize (r :: rs). clear r rs. intros rs. induction rs as [|[errno|n] rs IH]; [done| |];
    cbn [List.find write_blocks negb async_write]; unfold try_write; rewrite Hb; cbn.
  - unfold errno_attempt. destruct (errno =? EAGAIN) eqn:He; cbn [negb]; [apply IH|done].
  - intros Hn. destruct (Buffer.retrieve_correct b n) as (Hwf' & Hc & _); [done|lia|].
    exists (Buffer.retrieve b n). rewrite (proj2 (Z.leb_le _ _)) by lia. split; [done|]. split; [done|].
    by rewrite Hc, take_drop.
Qed.

(** ** Operations that get lost *)

(** An operation that waits and that nothing refers to any more. *)
Definition lost (h : handle) (s : system) : Prop :=
  (exists o, flight s !! h = Some o /\ io_phase o = Parked) /\ (Some h ∉ tasks (ctx s)) /\
  (forall fd w, waiters_ (ctx s) !! fd = Some w -> handle_ w <> Some h).

Lemma wanted_events_tasks o c : tasks (wanted_events o c).2 = tasks c.
Proof. unfold wanted_events, get_events. destruct (io_kind o); [destruct (waiters_ c !! io_fd o)..|]; done. Qed.

Lemma wanted_events_kernel o c : ev_ (wanted_events o c).2 = ev_ c.
Proof. unfold wanted_events, get_events. destruct (io_kind o); [destruct (waiters_ c !! io_fd o)..|]; done. Qed.

Lemma wanted_events_waiters o c fd w :
  waiters_ ((wanted_events o c).2) !! fd = Some w -> waiters_ c !! fd = Some w \/ w = null_waiter.
Proof.
  unfold wanted_events, get_events. destruct (io_kind o); [destruct (waiters_ c !! io_fd o)..|]; cbn; auto;
    intros [[_ <-]|[_ ?]]%lookup_insert_Some; auto.
Qed.

(** The interest list only grows. *)
Definition extends (k k' : Epoll.kernel) : Prop := Epoll.interest k ⊆ Epoll.interest k'.

Lemma construct_inv grant fd c r c' :
  construct grant fd c = (r, c') ->
  waiters_ c' = waiters_ c /\ tasks c' = tasks c /\ extends (ev_ c) (ev_ c').
Proof.
  unfold construct. destruct (0 <=? fd); [|intros [= <- <-]; split_and!; [done..|unfold extends; reflexivity]].
  unfold add_fd, Epoll.add. cbn. destruct (_ && bool_decide (_ !! fd = None)) eqn:Hg; cbn; intros [= <- <-]; [|split_and!; [done..|unfold extends; reflexivity]].
  apply andb_true_iff in Hg as [_ Hn%bool_decide_eq_true]. split_and!; [done..|]. by apply insert_subseteq.
Qed.

Lemma return_io_inv a n c r c' :
  return_io a n c = (r, c') ->
  waiters_ c' = waiters_ c /\ tasks c' = tasks c /\ extends (ev_ c) (ev_ c').
Proof. destruct a; cbn; [intros [= <- <-]; split_and!; [done..|unfold extends; reflexivity]..|apply construct_inv]. Qed.

(** A resumption that succeeds: the task is gone, and the operation has ended or has
    looked up the events to wait for. *)
Lemma resume_io_inv i a s s' :
  resume_io i a s = Some s' ->
  exists h o o', tasks (ctx s) !! i = Some (Some h) /\ flight s !! h = Some o /\ io_phase o = Queued /\
    io_kind o' = io_kind o /\ io_fd o' = io_fd o /\ flight s' = <[h := o']> (flight s) /\
    tasks (ctx s') = delete i (tasks (ctx s)) /\ extends (ev_ (ctx s)) (ev_ (ctx s')) /\
    ((exists r, io_phase o' = Ended r /\ waiters_ (ctx s') = waiters_ (ctx s)) \/
     (exists ev, io_phase o' = Arming ev /\
        wanted_events o (set_tasks (delete i (tasks (ctx s))) (ctx s)) = (ev, ctx s'))).
Proof.
  unfold resume_io. destruct (tasks (ctx s) !! i) as [[h|]|] eqn:Hi; try done.
  set (c := set_tasks (delete i (tasks (ctx s))) (ctx s)).
  intros (o & Ho & ([t b] & _ & He)%bind_Some)%bind_Some. cbv zeta in He. cbn [io_phase io_kind io_fd] in He.
  destruct (io_phase o) eqn:Hp; try done. exists h, o.
  pose (end_in ph := mkIo (io_kind o) (io_fd o) b ph). destruct t as [n| |e].
  - destruct (return_io a n c) as [r c'] eqn:Hr. apply return_io_inv in Hr as (Hw & Ht & Hk).
    injection He as <-. exists (end_in (Ended r)). cbn. split_and!; try done. left. by exists r.
  - change (wanted_events _ c) with (wanted_events o c) in He.
    pose proof (wanted_events_tasks o c) as Ht. pose proof (wanted_events_kernel o c) as Hk.
    destruct (wanted_events o c) as [ev c'] eqn:Hev. injection He as <-. exists (end_in (Arming ev)). cbn in *. split_and!; try done.
    + rewrite Hk. unfold extends. reflexivity.
    + right. by exists ev.
  - injection He as <-. exists (end_in (Ended (inr e))). cbn. split_and!; try done; [unfold extends; reflexivity|]. left. by eexists.
Qed.

(** An attempt that would block. *)
Lemma resume_io_again i a s h o b :
  tasks (ctx s) !! i = Some (Some h) -> flight s !! h = Some o -> io_phase o = Queued ->
  try_io o a = Some (Again, b) ->
  resume_io i a s =
    let '(ev, c) := wanted_events o (set_tasks (delete i (tasks (ctx s))) (ctx s)) in
    Some (mkSys c (<[h := mkIo (io_kind o) (io_fd o) b (Arming ev)]> (flight s))).
Proof. intros Hi Ho Hp Ht. unfold resume_io. rewrite Hi. cbn. rewrite Ho. cbn. rewrite Ht. cbn. by rewrite Hp. Qed.

Lemma delete_notin {A} (x : A) (l : list A) i : x ∉ l -> x ∉ delete i l.
Proof. intros H Hin. apply H. eapply elem_of_submseteq; [done|]. apply submseteq_delete. Qed.

Lemma lost_step h s s' : lost h s -> step s s' -> lost h s'.
Proof.
  intros ((o & Ho & Hp) & Ht & Hw) Hstep.
  destruct Hstep as [h' k fd b s s' He|i a s s' He|g h' s s' He|fd s s' He|fd s s' He|fd s s' He].
  - unfold begin_io in He. destruct (flight s !! h') eqn:Hf; [done|]. injection He as <-. assert (h <> h') as Hne by congruence.
    split; [exists o; cbn; by rewrite lookup_insert_ne|]. split; [|done]. cbn. intros [?|Hin]%elem_of_app; [done|].
    apply list_elem_of_singleton in Hin. congruence.
  - apply resume_io_inv in He as (h' & o' & o'' & Hi & Ho' & Hp' & _ & _ & Hf & Htk & _ & Hres).
    assert (h <> h') as Hne by (intros <-; apply Ht; by eapply list_elem_of_lookup_2).
    split; [exists o; rewrite Hf; by rewrite lookup_insert_ne|]. split; [rewrite Htk; by apply delete_notin|].
    intros fd w Hfd. destruct Hres as [(r & _ & Hr)|(ev & _ & Hev)]; [rewrite Hr in Hfd; by eapply Hw|].
    apply (f_equal snd) in Hev. cbn [snd] in Hev. rewrite <- Hev in Hfd.
    apply wanted_events_waiters in Hfd as [Hfd| ->]; [by eapply Hw|done].
  - unfold arm in He. apply bind_Some in He as (o' & Ho' & He). destruct (io_phase o') as [|ev| |] eqn:Hp'; try done.
    injection He as <-. assert (h <> h') as Hne by congruence. split; [exists o; cbn; by rewrite lookup_insert_ne|]. cbn.
    assert (forall fd w, <[io_fd o' := mkWaiter (Some h') ev]> (waiters_ (ctx s)) !! fd = Some w -> handle_ w <> Some h) as Hins.
    { intros fd w [[_ <-]|[_ Hfd]]%lookup_insert_Some; [cbn; congruence|by eapply Hw]. }
    unfold await_suspend. cbn [ev_ set_waiters]. destruct (Epoll.modify _ _ _ _); cbn; (split; [done|]); try done;
      intros fd w [_ Hfd]%lookup_delete_Some; by eapply Hins.
  - unfold event_io in He. destruct (_ !! fd) eqn:Hfd; [|done]. injection He as <-. split.
    { exists o. cbn. unfold waiting_on. destruct (waiters_ (ctx s) !! fd) as [w|] eqn:Hwf; [|done]. cbn.
      specialize (Hw _ _ Hwf). destruct (handle_ w) as [h'|]; [|done]. rewrite lookup_alter_ne by congruence. done. }
    cbn. unfold dispatch. destruct (waiters_ (ctx s) !! fd) as [w|] eqn:Hwf; [|done]. cbn. split.
    + intros [?|Hin]%elem_of_app; [done|]. apply list_elem_of_singleton in Hin. by eapply Hw.
    + intros fd' w' [_ Hw']%lookup_delete_Some. by eapply Hw.
  - unfold open_io in He. destruct (construct true fd (ctx s)) as [[]] eqn:Hc; [|done]. injection He as <-.
    apply construct_inv in Hc as (Hw' & Ht' & _). split; [by exists o|]. cbn. by rewrite Hw', Ht'.
  - unfold close_io, remove_fd in He. destruct (Epoll.remove _ _); try done. injection He as <-. split; [by exists o|]. cbn.
    split; [done|]. intros fd' w' [_ Hw']%lookup_delete_Some. by eapply Hw.
Qed.

Lemma lost_forever h s s' : rtc step s s' -> lost h s -> lost h s'.
Proof. induction 1; eauto using lost_step. Qed.

(** The system after the events of a run, where each of them is possible. *)
Definition run (es : list (system -> option system)) (s : system) : option system :=
  foldl (fun s e => s ← s; e s) (Some s) es.

Lemma run_reachable es s s' :
  Forall (fun e => forall s s', e s = Some s' -> step s s') es -> run es s = Some s' -> rtc step s s'.
Proof.
  revert s. induction es as [|e es IH]; intros s Hes; [by intros [= <-]|]. inversion Hes as [|? ? He Hes']; subst.
  unfold run. cbn. destruct (e s) as [s1|] eqn:H1; cbn.
  - intros Hr. eapply rtc_l; [by apply He|]. by apply IH.
  - intros Hr. exfalso. clear -Hr. induction es as [|e' es IH]; [done|]. by apply IH.
Qed.

(** A reader of a socket that waits, and a writer that would block. *)
Definition reader_waits (b1 b2 : Buffer.t) : list (system -> option system) :=
  [open_io 5; begin_io 1%nat Read 5 b1; begin_io 2%nat Write 5 b2;
   resume_io 0%nat (AnsRead (Buffer.ReadvFails EAGAIN)); arm true 1%nat].

Definition reader_waiting (b1 b2 : Buffer.t) : system :=
  mkSys (mk {[5 := mkWaiter (Some 1%nat) 1]} (Epoll.mkKernel {[5]} {[5 := 1]}) [Some 2%nat] true)
    {[1%nat := mkIo Read 5 b1 Parked; 2%nat := mkIo Write 5 b2 Queued]}.

Definition both_waiting (b1 b2 : Buffer.t) : system :=
  mkSys (mk {[5 := mkWaiter (Some 2%nat) 5]} (Epoll.mkKernel {[5]} {[5 := 5]}) [] true)
    {[1%nat := mkIo Read 5 b1 Parked; 2%nat := mkIo Write 5 b2 Parked]}.

(** An event that comes between the failed call and the registration. *)
Definition early_event (b : Buffer.t) : list (system -> option system) :=
  [open_io 5; begin_io 1%nat Read 5 b; resume_io 0%nat (AnsRead (Buffer.ReadvFails EAGAIN)); event_io 5].

Lemma both_waiting_reachable b1 b2 : Buffer.readableBytes b2 <> 0 -> reachable (both_waiting b1 b2).
Proof.
  intros Hb. unfold reachable. transitivity (reader_waiting b1 b2).
  - apply (run_reachable (reader_waits b1 b2) _ (reader_waiting b1 b2)); [repeat constructor; eauto using step|reflexivity].
  - eapply rtc_l; [eapply (step_resume 0 (AnsWrite (Buffer.WriteFails EAGAIN)))|eapply rtc_once, (step_arm true 2)].
    + rewrite (resume_io_again _ _ _ 2%nat (mkIo Write 5 b2 Queued) b2); [reflexivity|done..|]. unfold try_io, try_write. cbn [io_kind io_buf].
      by rewrite (proj2 (Z.eqb_neq _ _) Hb).
    + reflexivity.
Qed.

(** C37: there is one waiter per descriptor, and a second operation that waits on
    it takes the place of the first.  A socket with a reader and a writer that
    both would block reaches a state in which the reader waits, is neither in the
    table of waiters nor with the executor, and no continuation changes that. *)
Theorem second_waiter_evicts_first b1 b2 :
  Buffer.readableBytes b2 <> 0 ->
  exists s, reachable s /\ flight s !! 1%nat = Some (mkIo Read 5 b1 Parked) /\
    flight s !! 2%nat = Some (mkIo Write 5 b2 Parked) /\ forall s', rtc step s s' -> lost 1%nat s'.
Proof.
  intros Hb. exists (both_waiting b1 b2). split; [by apply both_waiting_reachable|]. split_and!; [done..|].
  intros s' Hs'. apply (lost_forever _ _ _ Hs'). split; [by eexists|]. split; [by apply not_elem_of_nil|].
  cbn. by intros fd w [_ <-]%lookup_singleton_Some.
Qed.

Lemma second_waiter_evicts_first_witness :
  exists s, reachable s /\ flight s !! 1%nat = Some (mkIo Read 5 (Buffer.mk (lit "        ") 8 8) Parked) /\
    flight s !! 2%nat = Some (mkIo Write 5 (Buffer.mk (lit "        Hi") 8 10) Parked) /\
    forall s', rtc step s s' -> lost 1%nat s'.
Proof. apply second_waiter_evicts_first. by vm_compute. Defined.

(** Looking up the events of a descriptor puts an empty waiter into the table.
    An event that comes before the operation has registered itself makes the event
    loop hand the null handle of that waiter to the executor. *)
Theorem early_event_resumes_null b :
  exists s, reachable s /\ flight s !! 1%nat = Some (mkIo Read 5 b (Arming EPOLLIN)) /\ tasks (ctx s) = [None].
Proof.
  assert (exists s, run (early_event b) empty_system = Some s /\
    flight s !! 1%nat = Some (mkIo Read 5 b (Arming EPOLLIN)) /\ tasks (ctx s) = [None]) as (s & Hs & H1 & H2).
  { by eexists. }
  exists s. split; [|done]. eapply run_reachable; [|exact Hs]. repeat constructor; eauto using step.
Qed.

(** ** Operations that are sure to be resumed *)




















(** An empty buffer, and one with two readable bytes. *)
Definition sample_buffer : Buffer.t := Buffer.mk (lit "        ") 8 8.
Definition sample_output : Buffer.t := Buffer.mk (lit "        Hi") 8 10.




Lemma async_read_result_witness :
  exists b', async_read [Buffer.ReadvFails EAGAIN; Buffer.ReadvReads (lit "Hi")] sample_buffer = Ok (Some 2, b') /\
    Buffer.wf b' /\ Buffer.contents b' = lit "Hi".
Proof.
  apply (async_read_result sample_buffer [Buffer.ReadvFails EAGAIN; Buffer.ReadvReads (lit "Hi")]); [|by vm_compute..].
  repeat split; by vm_compute.
Defined.

Lemma async_write_result_witness :
  exists b', async_write [Buffer.WriteFails EAGAIN; Buffer.WriteWrites 1] sample_output = Ok (Some 1, b') /\
    Buffer.wf b' /\ lit "Hi" = lit "H" ++ Buffer.contents b'.
Proof.
  apply (async_write_result sample_output (Buffer.WriteFails EAGAIN) [Buffer.WriteWrites 1]); [|split; by vm_compute].
  repeat split; by vm_compute.
Defined.

(** ** Who closes a descriptor *)

(** A [Socket] or [Acceptor] object: its descriptor, whether it has a context, and
    whether it is an acceptor; sockets are moved, acceptors are copied, also where a
    program writes [std::move].  All of them use one context. *)
Record sock : Type := mkSock { sockfd_ : Z; ctx_ : bool; accepts : bool }.




(** [Socket::close()], [Acceptor::close()] and the destructors. *)
Definition close (s : sock) (c : context) : outcome (sock * context) :=
  if 0 <=? sockfd_ s then
    if ctx_ s then
      match remove_fd (sockfd_ s) c with
      | (Ok _, c) => Ok (mkSock (-1) (ctx_ s) (accepts s), set_kernel (Epoll.close (sockfd_ s) (ev_ c)) c)
      | (Throw e, _) => Throw e
      | _ => Undefined
      end
    else Ok (mkSock (-1) (ctx_ s) (accepts s), set_kernel (Epoll.close (sockfd_ s) (ev_ c)) c)
  else Ok (s, c).

(** [Acceptor::close()], which does not test the context: its constructor has. *)
Definition close_acceptor (s : sock) (c : context) : outcome (sock * context) :=
  if 0 <=? sockfd_ s then
    match remove_fd (sockfd_ s) c with
    | (Ok _, c) => Ok (mkSock (-1) (ctx_ s) (accepts s), set_kernel (Epoll.close (sockfd_ s) (ev_ c)) c)
    | (Throw e, _) => Throw e
    | _ => Undefined
    end
  else Ok (s, c).

Lemma close_acceptor_close s c : ctx_ s = true -> close_acceptor s c = close s c.
Proof. intros H. unfold close_acceptor, close. by rewrite H. Qed.

(** [async_accept] over the answers of [accept4], each with whether epoll would take
    the descriptor. *)
Fixpoint async_accept (rs : list (accept_result * bool)) (c : context) : outcome (option sock * context) :=
  match rs with
  | [] => Ok (None, c)
  | (r, grant) :: rs =>
      match try_accept r with
      | Done fd =>
          match construct grant fd c with
          | (inl fd, c) => Ok (Some (mkSock fd true false), c)
          | (inr e, _) => Throw e
          end
      | Again => async_accept rs c
      | Failed e => Throw e
      end
  end.

Definition accept_blocks (r : accept_result * bool) : bool :=
  match r with (AcceptFails errno, _) => errno =? EAGAIN | _ => false end.

(** The first answer that is not [EAGAIN] settles it: a descriptor becomes a socket
    that is registered for reading, unless epoll refuses it, or the error of the
    kernel is thrown. *)
Lemma async_accept_result rs c :
  match List.find (fun r => negb (accept_blocks r)) rs with
  | None => async_accept rs c = Ok (None, c)
  | Some (AcceptFails errno, _) => async_accept rs c = Throw (SystemError errno (lit "accept failed"))
  | Some (Accepts fd, grant) =>
      0 <= fd -> Epoll.interest (ev_ c) !! fd = None ->
      if grant
      then exists c', async_accept rs c = Ok (Some (mkSock fd true false), c') /\ Epoll.interest (ev_ c') !! fd = Some EPOLLIN
      else exists e, async_accept rs c = Throw e
  end.
Proof.
  induction rs as [|[[fd|errno] grant] rs IH]; [done|..]; cbn [List.find accept_blocks negb].
  - intros Hfd%Z.leb_le Hn. cbn [async_accept try_accept]. unfold construct, add_fd, Epoll.add. rewrite Hfd. cbn.
    rewrite (bool_decide_eq_true_2 (_ !! fd = None)) by done.
    rewrite (bool_decide_eq_true_2 (fd ∈ _)) by (apply elem_of_union_l, elem_of_singleton; done).
    destruct grant; cbn; [|by eexists]. eexists. split; [done|]. cbn. by rewrite lookup_insert_eq.
  - cbn [async_accept try_accept]. unfold errno_attempt. destruct (errno =? EAGAIN); cbn [negb]; [apply IH|done].
Qed.

(** ** Addresses *)

Record EndPoint : Type := mkEndPoint { ip : str; port : Z }.

(** The constructor's default arguments. *)
Definition default_endpoint : EndPoint := mkEndPoint (lit "0.0.0.0") 0.

Definition AF_INET : Z := 2.

(** [htons] on a machine that stores the low byte first. *)
Definition htons (p : Z) : Z := Z.lor (Z.shiftl (Z.land p 255) 8) (Z.shiftr p 8).

Record sockaddr_in : Type := mkAddr { sin_family : Z; sin_port : Z; s_addr : Z }.

(** The address an acceptor binds; [inet_addr] is the system's. *)
Definition bind_address (inet_addr : str -> Z) (ep : EndPoint) : sockaddr_in :=
  mkAddr AF_INET (htons (port ep)) (inet_addr (ip ep)).

Lemma lor_bytes a b : 0 <= b < 256 -> Z.lor (a * 256) b = a * 256 + b.
Proof.
  intros Hb. rewrite <- Z.add_lor_land. enough (Z.land (a * 256) b = 0) by lia.
  apply Z.bits_inj'. intros n Hn. rewrite Z.land_spec, Z.bits_0. destruct (Z.ltb_spec n 8).
  - change 256 with (2 ^ 8). by rewrite Z.mul_pow2_bits_low.
  - rewrite <- (Z.mod_small b (2 ^ 8)) by lia. by rewrite Z.mod_pow2_bits_high, andb_false_r by lia.
Qed.

(** The port goes into the address with its high byte first: stored low byte first, the
    bytes of [sin_port] are the high and the low byte of the port. *)
Lemma bind_address_port inet_addr ep :
  0 <= port ep < 2 ^ 16 ->
  let p := sin_port (bind_address inet_addr ep) in
  0 <= p < 2 ^ 16 /\ Z.land p 255 = port ep / 256 /\ Z.shiftr p 8 = port ep mod 256 /\ htons p = port ep.
Proof.
  intros Hp. cbn. generalize (port ep) Hp. clear. intros p Hp. unfold htons.
  assert (forall n, Z.land n 255 = n mod 256) as Hl by (intros n; apply (Z.land_ones n 8); lia).
  assert (Z.lor (Z.shiftl (Z.land p 255) 8) (Z.shiftr p 8) = 256 * (p mod 256) + p / 256) as ->.
  { rewrite Hl, Z.shiftl_mul_pow2, Z.shiftr_div_pow2 by lia. change (2 ^ 8) with 256.
    rewrite lor_bytes by (Z.to_euclidean_division_equations; lia). lia. }
  rewrite !Hl, Z.shiftl_mul_pow2, Z.shiftr_div_pow2 by lia. change (2 ^ 8) with 256. change (2 ^ 16) with 65536 in *.
  assert ((256 * (p mod 256) + p / 256) mod 256 = p / 256 /\ (256 * (p mod 256) + p / 256) / 256 = p mod 256) as [-> ->]
    by (Z.to_euclidean_division_equations; lia).
  rewrite lor_bytes by (Z.to_euclidean_division_equations; lia). Z.to_euclidean_division_equations; lia.
Qed.




































End Socket.
