(* ===== verification/Connection.v ===== *)
(** * Messages over a connection

    The parts of the library composed: a JSON value is printed into the body of an HTTP
    message, which is serialised into a buffer and written to a socket; the peer reads
    into its own buffer, takes the bytes out, and parses the message and its body.

    What the two programs do in between is left open: the sender makes any calls of
    [append] and [async_write], the receiver any calls of [async_read], with any answers
    of the kernel, and it parses when it likes.  The connection carries a stream of bytes:
    what the receiver has been given is the beginning of what the sender's writes have
    taken. *)

From S2P Require Import Prelude Coroutine Buffer IOContext Socket StdString Http Message Double Json JsonParser JsonGrammar JsonRoundTrip.
#[local] Open Scope Z_scope.

Module Connection.
Import Socket.

(** ** The sender *)

(** A call of the sender. *)
Inductive call : Type :=
| Append (text : str)                        (** [buffer.append(text)] *)
| Write (rs : list Buffer.write_result).     (** [co_await socket.async_write(buffer)] *)

(** Any calls, none of which throws: the bytes the kernel takes, and the buffer. *)
Fixpoint sends (cs : list call) (b : Buffer.t) : outcome (str * Buffer.t) :=
  match cs with
  | [] => Ok ([], b)
  | Append text :: cs => b ← Buffer.append b text; sends cs b
  | Write rs :: cs =>
      '(n, b') ← async_write rs b;
      '(out, b'') ← sends cs b';
      Ok (take (Z.to_nat (default 0 n)) (Buffer.contents b) ++ out, b'')
  end.

(** What is given to [append]. *)
Definition appended (cs : list call) : str := cs ≫= fun c => match c with Append text => text | Write _ => [] end.

Lemma async_write_takes rs : forall b n b',
  Buffer.wf b -> async_write rs b = Ok (n, b') ->
  Buffer.wf b' /\ Buffer.size b' = Buffer.size b /\
  Buffer.contents b = take (Z.to_nat (default 0 n)) (Buffer.contents b) ++ Buffer.contents b'.
Proof.
  induction rs as [|r rs IH]; intros b n b' Hwf; cbn [async_write]; [by intros [= <- <-]|].
  unfold try_write. destruct (Buffer.readableBytes b =? 0); [by intros [= <- <-]|].
  destruct r as [errno|k]; cbn.
  - unfold errno_attempt. destruct (errno =? EAGAIN); [by apply IH|done].
  - destruct (0 <=? k) eqn:Hk; cbn; [|unfold errno_attempt; cbn; by destruct (0 =? EAGAIN)]. reflect_bools. intros [= <- <-]. cbn [default from_option id].
    destruct (Buffer.retrieve_correct b k Hwf Hk) as (Hw & Hc & Hs). split; [done|]. split; [done|]. by rewrite Hc, take_drop.
Qed.

(** Nothing is lost or reordered on the way to the kernel. *)
Lemma sends_stream cs : forall b wire b',
  Buffer.wf b -> Buffer.size b + Zlen (appended cs) <= PTRDIFF_MAX -> sends cs b = Ok (wire, b') ->
  wire ++ Buffer.contents b' = Buffer.contents b ++ appended cs.
Proof.
  induction cs as [|[text|rs] cs IH]; intros b wire b' Hwf Hmax; cbn [sends appended mbind list_bind].
  - intros [= <- <-]. by rewrite app_nil_r.
  - intros (b1 & Hb1 & H)%bind_ok. unfold appended in Hmax. cbn in Hmax. rewrite Zlen_app in Hmax.
    pose proof (Zlen_nonneg (appended cs)) as Hnn. unfold appended in *.
    destruct (Buffer.append_correct b text) as (b2 & Hb2 & Hwf2 & Hc2 & Hs2); [done|lia|]. rewrite Hb1 in Hb2. injection Hb2 as <-.
    rewrite (IH b1 wire b') by (done || lia). by rewrite Hc2, app_assoc.
  - intros ([n b1] & Hb1 & ([out b2] & Hb2 & [= <- <-])%bind_ok)%bind_ok.
    destruct (async_write_takes rs b n b1 Hwf Hb1) as (Hwf1 & Hs1 & Hc1). rewrite <- app_assoc, (IH b1 out b2) by (done || by rewrite Hs1).
    by rewrite app_assoc, <- Hc1.
Qed.

(** ** The receiver *)

(** Any calls of [co_await socket.async_read(buffer)], each with its answers. *)
Fixpoint receives (reads : list (list Buffer.readv_result)) (b : Buffer.t) : outcome Buffer.t :=
  match reads with
  | [] => Ok b
  | rs :: reads => '(_, b) ← async_read rs b; receives reads b
  end.

(** The bytes of the answer that ends a read. *)
Definition delivered (rs : list Buffer.readv_result) : str :=
  match List.find (fun r => negb (read_blocks r)) rs with Some (Buffer.ReadvReads bytes) => bytes | _ => [] end.

(** The kernel fills at most the two areas a read offers it. *)
Fixpoint reads_fit (reads : list (list Buffer.readv_result)) (b : Buffer.t) : Prop :=
  match reads with
  | [] => True
  | rs :: reads =>
      Zlen (delivered rs) <= Buffer.iov_capacity b /\
      match async_read rs b with Ok (_, b) => reads_fit reads b | _ => True end
  end.

Definition got (reads : list (list Buffer.readv_result)) : str := reads ≫= delivered.

Lemma async_read_gets rs : forall b n b',
  Buffer.wf b -> Zlen (delivered rs) <= Buffer.iov_capacity b -> Buffer.size b + Zlen (delivered rs) <= PTRDIFF_MAX ->
  async_read rs b = Ok (n, b') ->
  Buffer.wf b' /\ Buffer.size b' <= Buffer.size b + Zlen (delivered rs) /\ Buffer.contents b' = Buffer.contents b ++ delivered rs.
Proof.
  induction rs as [|[errno|bytes] rs IH]; intros b n b' Hwf Hcap Hmax; cbn [async_read].
  - intros [= <- <-]. change (delivered []) with (@nil ascii). rewrite app_nil_r. split; [done|]. split; [unfold Zlen; cbn; lia|done].
  - unfold delivered in *. cbn in *. unfold errno_attempt. destruct (errno =? EAGAIN); [by apply IH|done].
  - unfold delivered in *. cbn [List.find read_blocks negb] in *. pose proof (Zlen_nonneg bytes).
    destruct (Buffer.readFd_correct b bytes) as (b1 & Hr & Hwf1 & Hc1 & Hs1); [done..|].
    unfold try_read. rewrite Hr. cbn. rewrite (proj2 (Z.leb_le _ _)) by done. by intros [= <- <-].
Qed.

Lemma receives_stream reads : forall b b',
  Buffer.wf b -> reads_fit reads b ->
  Buffer.size b + Zlen (got reads) <= PTRDIFF_MAX -> receives reads b = Ok b' ->
  Buffer.wf b' /\ Buffer.contents b' = Buffer.contents b ++ got reads.
Proof.
  unfold got. induction reads as [|rs reads IH]; intros b b' Hwf Hcap Hmax; cbn [receives mbind list_bind].
  - intros [= <-]. by rewrite app_nil_r.
  - intros ([n b1] & Hb1 & H)%bind_ok. cbn [reads_fit] in Hcap. rewrite Hb1 in Hcap. destruct Hcap as [Hc Hcap]. cbn in Hmax. rewrite Zlen_app in Hmax.
    pose proof (Zlen_nonneg (reads ≫= delivered)). pose proof (Zlen_nonneg (delivered rs)).
    destruct (async_read_gets rs b n b1 Hwf Hc ltac:(lia) Hb1) as (Hwf1 & Hs1 & Hc1).
    destruct (IH b1 b' Hwf1 Hcap ltac:(lia) H) as [Hwf' Hc']. split; [done|]. by rewrite Hc', Hc1, app_assoc.
Qed.

Lemma retrieve_everything b :
  Buffer.wf b -> exists b', Buffer.retrieveAllAsString b = Ok (Buffer.contents b, b').
Proof.
  intros Hwf. unfold Buffer.retrieveAllAsString. rewrite Buffer.readableBytes_wf by done.
  destruct (Buffer.retrieveAsString_correct b (Zlen (Buffer.contents b))) as (b' & Hb' & _); [done|apply Zlen_nonneg|].
  exists b'. rewrite <- Buffer.length_contents by done. rewrite Hb'. rewrite take_ge; [done|]. unfold Zlen. lia.
Qed.

(** ** Both *)

(** A sender whose buffer was empty, and a receiver, with its own empty buffer, that
    has been given the beginning of what the sender's writes took. *)
Record exchange (cs : list call) (reads : list (list Buffer.readv_result)) (br' : Buffer.t) : Prop := {
  ex_sender : exists bs wire bs', Buffer.wf bs /\ Buffer.contents bs = [] /\
    Buffer.size bs + Zlen (appended cs) <= PTRDIFF_MAX /\ sends cs bs = Ok (wire, bs') /\ got reads `prefix_of` wire;
  ex_receiver : exists br, Buffer.wf br /\ Buffer.contents br = [] /\ Buffer.size br + Zlen (got reads) <= PTRDIFF_MAX /\
    reads_fit reads br /\ receives reads br = Ok br'
}.

(** The receiver's buffer holds the beginning of what was given to [append]. *)
Lemma stream_arrives cs reads br' :
  exchange cs reads br' ->
  exists b, Buffer.retrieveAllAsString br' = Ok (take (length (got reads)) (appended cs), b) /\
    Zlen (appended cs) <= PTRDIFF_MAX.
Proof.
  intros [(bs & wire & bs' & Hwf & Hc & Hmax & Hs & [rest Hw]) (br & Hwfr & Hcr & Hmaxr & Hcap & Hr)].
  apply sends_stream in Hs; [|done..]. rewrite Hc, Hw, <- app_assoc in Hs. cbn in Hs.
  destruct (receives_stream _ _ _ Hwfr Hcap Hmaxr Hr) as [Hwf' Hc']. rewrite Hcr in Hc'. cbn in Hc'.
  destruct (retrieve_everything br' Hwf') as [b Hb]. exists b. rewrite Hb, Hc', <- Hs, take_app_length. split; [done|].
  rewrite Hs. pose proof (Zlen_nonneg (Buffer.buffer_ bs)). unfold Buffer.size in Hmax. lia.
Qed.

(** A message of any kind that has arrived completely, and nothing else. *)
Lemma message_arrives `{!Message M} (m m0 : M) text cs reads br' :
  sendable m -> serializes m (Ok text) -> appended cs = text -> exchange cs reads br' -> length (got reads) = length text ->
  exists b, Buffer.retrieveAllAsString br' = Ok (text, b) /\ parse_from_string m0 text = Ok (true, m).
Proof.
  intros Hm Ht Ha Hex Hlen. destruct (stream_arrives _ _ _ Hex) as (b & Hb & Hmax). exists b.
  rewrite Ha, Hlen, take_ge in Hb by lia. split; [done|]. rewrite Ha in Hmax. by apply parse_serialized.
Qed.

(** C23: a JSON value in an HTTP message over a connection. The value is printable, its
    text is the body of a message that can be sent ([http_sendable]), and the sender
    appends the serialised message, and perhaps more behind it, to an empty buffer.
    Whatever calls of [append] and [async_write] it makes, whatever calls of
    [async_read] the receiver makes on its own empty buffer, none of them throwing and
    the buffers staying within the size of a vector, and however the kernel cuts the
    stream and answers [EAGAIN]: what the receiver takes out of its buffer is the
    beginning of the text. Parsing it refuses while the blank line is missing; then it
    gives the message with as much of the body, and of what follows the message, as has
    arrived, for the code has no other end of a message. When exactly the message has
    arrived, parsing gives that message, and parsing its body gives the value. *)
Theorem json_over_http_arrives v (m m0 : Http.HttpMessage) text more cs reads br' :
  JsonRoundTrip.printable v = true -> Json.toString v = Ok (Http.body_ m) ->
  sendable m -> serializes m (Ok text) -> appended cs = text ++ more -> exchange cs reads br' ->
  let n := length (got reads) in
  let head := (length text - length (Http.body_ m))%nat in
  exists s b, Buffer.retrieveAllAsString br' = Ok (s, b) /\ s = take n (text ++ more) /\
    ((n < head)%nat -> exists m', parse_from_string m0 s = Ok (false, m') /\
       Http.headers_ m' = Http.headers_ m0 /\ Http.body_ m' = Http.body_ m0) /\
    ((head <= n)%nat -> parse_from_string m0 s = Ok (true, Http.set_body m (take (n - head) (Http.body_ m ++ more)))) /\
    (n = length text -> parse_from_string m0 s = Ok (true, m) /\
       JsonParser.parse (Http.body_ m) = Ok (JsonRoundTrip.normalize v)).
Proof.
  intros Hv Hbody Hm Htext Ha Hex n head. destruct (stream_arrives _ _ _ Hex) as (b & Hb & Hmax). rewrite Ha in Hb, Hmax.
  exists (take n (text ++ more)), b. split; [done|]. split; [done|].
  pose proof Hm as [[meth Hme] (ver & Hve & Hver) Hurl Hhd Hne]. pose proof Htext as (entries & Hp & Hs).
  destruct (Http.prefix_parses_following m0 entries m meth ver text more n) as [H1 H2]; try done.
  { by rewrite Hp. }
  { intros ->. apply Hne, map_to_list_empty_iff. by symmetry in Hp; apply Permutation_nil_r in Hp. }
  split; [done|]. split; [done|]. intros Hn. split.
  - rewrite Hn, take_app_length. apply parse_serialized; [done..|]. rewrite Zlen_app in Hmax. pose proof (Zlen_nonneg more). lia.
  - destruct (JsonRoundTrip.prints_parses _ _ (JsonRoundTrip.toString_prints v Hv)) as (s & Hs' & Ht).
    rewrite Hbody in Hs'. injection Hs' as <-. by apply JsonGrammar.parse_text_iff.
Qed.

(** A request with one header and a JSON body, cut into two pieces on either side. *)
Definition sample_request : Http.HttpMessage :=
  Http.mk (Some Http.POST) (Some Http.HTTP_1_1) (lit "/api") (list_to_map [(lit "Host", lit "localhost")])
    (match Json.toString JsonRoundTrip.sample with Ok t => t | _ => [] end).

Definition request_text : str :=
  match Http.serialize_to_string [(lit "Host", lit "localhost")] sample_request with Ok t => t | _ => [] end.

Definition sample_calls : list call :=
  [Append request_text; Write [Buffer.WriteFails EAGAIN; Buffer.WriteWrites 20]; Write [Buffer.WriteWrites (Zlen request_text - 20)]].
Definition sample_reads : list (list Buffer.readv_result) :=
  [[Buffer.ReadvFails EAGAIN; Buffer.ReadvFails EAGAIN; Buffer.ReadvReads (take 7 request_text)];
   [Buffer.ReadvReads (drop 7 request_text)]].
Definition sample_received : Buffer.t := match receives sample_reads sample_buffer with Ok b => b | _ => sample_buffer end.

Lemma sample_sendable : sendable sample_request.
Proof.
  split; cbn [sample_request Http.method_ Http.version_ Http.url_ Http.headers_].
  - by eexists.
  - by exists Http.HTTP_1_1.
  - split; [done|by repeat constructor].
  - rewrite map_to_list_to_map by (by apply (bool_decide_unpack _); vm_compute).
    constructor; [repeat split; try discriminate; by apply (bool_decide_unpack _); vm_compute|constructor].
  - intros H. apply (f_equal (fun m => m !! lit "Host")) in H. by vm_compute in H.
Qed.

Lemma sample_exchange : exchange sample_calls sample_reads sample_received.
Proof.
  split.
  - exists sample_buffer, request_text. eexists. split_and!; try by vm_compute. exists []. by vm_compute.
  - exists sample_buffer. split_and!; by vm_compute.
Qed.

Lemma json_over_http_arrives_witness :
  exists s b, Buffer.retrieveAllAsString sample_received = Ok (s, b) /\
    parse_from_string Http.default_message s = Ok (true, sample_request) /\
    JsonParser.parse (Http.body_ sample_request) = Ok (JsonRoundTrip.normalize JsonRoundTrip.sample).
Proof.
  destruct (json_over_http_arrives JsonRoundTrip.sample sample_request Http.default_message request_text []
    sample_calls sample_reads sample_received) as (s & b & Hb & _ & _ & _ & H).
  - by vm_compute.
  - by vm_compute.
  - apply sample_sendable.
  - exists [(lit "Host", lit "localhost")]. split; [|by vm_compute].
    symmetry. apply map_to_list_to_map. by apply (bool_decide_unpack _); vm_compute.
  - by vm_compute.
  - apply sample_exchange.
  - exists s, b. split; [exact Hb|]. apply H. by vm_compute.
Defined.

End Connection.
