(* ===== verification/Server.v ===== *)
(** * Coroutines on an I/O context

    The parts of a server together: coroutines of src/include/coro/Awaitable.hpp that
    wait for each other and for descriptors, the table of waiters and the event loop
    of src/include/net/IOContext.hpp, and any executor.  The model of Awaitable.v
    wakes a coroutine that waits for something else at any time; here it is the event
    loop that does, with the handle it finds in the table.

    A coroutine that waits for a descriptor goes through the steps of the code, with
    everything else in between: the body asks for the events ([get_events], which
    [async_read] and [async_write] call and which may leave an entry without a handle),
    [await_suspend] puts the waiter into the table, over one that is there, and then
    tells epoll.  Two things are excluded, which are undefined in the code: an event that is reported for an entry without a handle is
    not a step, and a worker that is in [await_suspend] returns from it before another
    worker resumes the same coroutine.

    The theorems: otherwise the composition is safe, which needs no discipline in the
    use of descriptors, and the first exclusion concerns only an operation between
    [get_events] and [await_suspend]; nothing in the code keeps a suspension from running
    into what is excluded; and every spawned coroutine gets its result, or waits for a
    coroutine that is in the table or was lost. *)

From S2P Require Import Prelude Coroutine Executor Awaitable IOContext.
Import IOContext.

Module Server.

(** What a body awaits besides coroutines: [await_fd(fd, events)], as [async_accept]
    does, or [await_fd(fd, get_events(fd) | needs)], as [async_read] and [async_write]
    do. *)
Inductive request : Type :=
| AwaitFd (fd events : Z)
| Transfer (fd needs : Z).

Definition request_fd (q : request) : Z := match q with AwaitFd fd _ | Transfer fd _ => fd end.

(** The events of a request. *)
Definition wanted (q : request) (c : context) : Z * context :=
  match q with
  | AwaitFd _ ev => (ev, c)
  | Transfer fd needs => let '(prev, c) := get_events fd c in (Z.lor prev needs, c)
  end.

(** ** The table *)

(** The handle in the entry of a descriptor, and all handles in the table. *)
Definition handle_in (w : option Waiter) : list handle := option_list (w ≫= handle_).
Definition table (m : gmap Z Waiter) : list handle := omap (fun x => handle_ x.2) (map_to_list m).

Lemma table_insert_new fd w m : m !! fd = None -> table (<[fd := w]> m) ≡ₚ handle_in (Some w) ++ table m.
Proof.
  intros Hm. unfold table. rewrite map_to_list_insert by done. cbn. unfold handle_in. cbn. by destruct (handle_ w).
Qed.

Lemma table_delete fd m : table m ≡ₚ handle_in (m !! fd) ++ table (delete fd m).
Proof.
  destruct (m !! fd) as [w|] eqn:Hm; [|by rewrite delete_id].
  rewrite <- (insert_delete_id m fd w) at 1 by done. apply table_insert_new, lookup_delete_eq.
Qed.

Lemma table_insert fd w m : table (<[fd := w]> m) ≡ₚ handle_in (Some w) ++ table (delete fd m).
Proof. rewrite <- insert_delete_eq. apply table_insert_new, lookup_delete_eq. Qed.

Lemma elem_of_table h m : h ∈ table m <-> exists fd w, m !! fd = Some w /\ handle_ w = Some h.
Proof.
  unfold table. rewrite list_elem_of_omap. split.
  - intros ([fd w] & Hin%elem_of_map_to_list & Hh). eauto.
  - intros (fd & w & Hm & Hh). exists (fd, w). by rewrite elem_of_map_to_list.
Qed.

Lemma filter_all {A} (P : A -> Prop) `{!forall x, Decision (P x)} (l : list A) : (forall x, x ∈ l -> P x) -> filter P l = l.
Proof.
  induction l as [|a l IH]; intros Hl; [done|]. rewrite filter_cons_True by (apply Hl; by left). f_equal.
  apply IH. intros b Hb. apply Hl. by right.
Qed.

Section server.
Context {V St : Type} (body : St -> Awaitable.action V request St).
Context (is_void : St -> bool) (unit_value : V).
Context {E : Type} `{!Executor E handle}.

Abbreviation coroutines := (Awaitable.system (V := V) (W := request) (St := St) (E := E)).

Record server : Type := mk {
  coros : coroutines;
  io : context;                               (** its tasks go to the executor of [coros] *)
  parking : list (handle * request);          (** suspended, about to ask for the events *)
  suspending : list (handle * FdAwaiter);     (** about to enter the table *)
  rearming : list (handle * FdAwaiter);       (** in the table, about to tell epoll *)
  lost : list handle                          (** evicted from the table without being resumed *)
}.

Implicit Types (x y : server) (c : context).

Definition set_coros (y : coroutines) x : server := mk y (io x) (parking x) (suspending x) (rearming x) (lost x).

(** What goes from the entry of a descriptor when the table changes. *)
Definition dropped (fd : Z) c c' : list handle :=
  match waiters_ c' !! fd with None => handle_in (waiters_ c !! fd) | Some _ => [] end.

(** The event loop resumes the coroutines [hs]. *)
Definition wake (hs : list handle) (y : coroutines) : coroutines :=
  Awaitable.mk (Awaitable.mem y) (Awaitable.pool y) (Awaitable.submitting y ++ hs) (Awaitable.running y)
    (filter (fun p => p.1 ∉ hs) (Awaitable.parked y)) (Awaitable.spawned y).

(** ** Steps *)

(** The steps of the executor, its workers and the coroutines. *)
Inductive own_step : server -> server -> Prop :=
| own_run (y : coroutines) x :
    Awaitable.step body is_void unit_value (coros x) y ->
    Awaitable.spawned y = Awaitable.spawned (coros x) -> Awaitable.parked y = Awaitable.parked (coros x) ->
    (exists hs, Awaitable.running y = Awaitable.running (coros x) ++ hs) ->
    own_step x (set_coros y x)
| own_resume h l r s h' n x :
    Awaitable.running (coros x) = l ++ h :: r -> h ∉ (rearming x).*1 ->
    Awaitable.resume body is_void unit_value h (Awaitable.mem (coros x)) = Ok (s, h', n) ->
    own_step x
      (mk (Awaitable.mk s (Awaitable.pool (coros x)) (Awaitable.submitting (coros x) ++ Awaitable.submits n) (l ++ r)
             (Awaitable.parked (coros x) ++ Awaitable.parks h' n) (Awaitable.spawned (coros x)))
         (io x) (parking x ++ Awaitable.parks h' n) (suspending x) (rearming x) (lost x))
| own_prepare h q l r ev c x :
    parking x = l ++ (h, q) :: r -> wanted q (io x) = (ev, c) ->
    own_step x (mk (coros x) c (l ++ r) (suspending x ++ [(h, await_fd (request_fd q) ev)]) (rearming x) (lost x))
| own_register h a l r x :
    suspending x = l ++ (h, a) :: r ->
    own_step x
      (mk (coros x) (register (fd_ a) (events_ a) h (io x)) (parking x) (l ++ r) (rearming x ++ [(h, a)])
         (lost x ++ handle_in (waiters_ (io x) !! fd_ a)))
| own_rearm grant h a l r c x :
    rearming x = l ++ (h, a) :: r -> rearm grant (fd_ a) (events_ a) (io x) = c ->
    own_step x (mk (coros x) c (parking x) (suspending x) (l ++ r) (lost x ++ dropped (fd_ a) (io x) c)).

(** Those, and what comes from outside: a coroutine is spawned, an event is reported (for
    a descriptor whose entry, if there is one, has a handle), a descriptor is registered,
    or closed. *)
Inductive step : server -> server -> Prop :=
| step_own x y : own_step x y -> step x y
| step_spawn st h s s' x :
    Awaitable.create is_void st (Awaitable.mem (coros x)) = (h, s) -> Awaitable.co_spawn (Some h) s = Ok (h, s') ->
    step x (set_coros (Awaitable.mk s' (Awaitable.pool (coros x)) (Awaitable.submitting (coros x) ++ [h])
      (Awaitable.running (coros x)) (Awaitable.parked (coros x)) (Awaitable.spawned (coros x) ++ [(h, st)])) x)
| step_event fd hs x :
    tasks (dispatch fd (io x)) = Some <$> hs ->
    step x (mk (wake hs (coros x)) (set_tasks [] (dispatch fd (io x))) (parking x) (suspending x) (rearming x) (lost x))
| step_add grant fd ev c x :
    add_fd grant fd ev (set_kernel (Epoll.open fd (ev_ (io x))) (io x)) = Ok c ->
    step x (mk (coros x) c (parking x) (suspending x) (rearming x) (lost x))
| step_close fd c x :
    remove_fd fd (io x) = (Ok tt, c) ->
    step x (mk (coros x) (set_kernel (Epoll.close fd (ev_ c)) c) (parking x) (suspending x) (rearming x)
      (lost x ++ handle_in (waiters_ (io x) !! fd))).

Definition start (e : E) c : server := mk (Awaitable.start e) c [] [] [] [].

Definition reachable x : Prop :=
  exists e k c, ex_ok e /\ ex_pending e = [] /\ new true true k = Ok c /\ rtc step (start e c) x.

(** ** The invariant *)

(** Every coroutine that waits for something else than a coroutine is on its way into
    the table, in it, or was evicted from it; an entry without a handle is that of a
    coroutine that is about to fill it. *)
Record Inv x : Prop := {
  inv_coros : Awaitable.SysInv body is_void unit_value (coros x);
  inv_tasks : tasks (io x) = [];
  inv_parked : (Awaitable.parked (coros x)).*1 ≡ₚ
    (parking x).*1 ++ (suspending x).*1 ++ table (waiters_ (io x)) ++ lost x;
  inv_null : forall fd w, waiters_ (io x) !! fd = Some w -> handle_ w = None ->
    exists h a, (h, a) ∈ suspending x /\ fd_ a = fd
}.

Lemma parked_NoDup x : Inv x -> NoDup (Awaitable.parked (coros x)).*1.
Proof.
  intros [[_ [Hsh _]] _ _ _]. pose proof (Awaitable.sh_toks _ _ _ _ Hsh) as Hnd. unfold Awaitable.tokens in Hnd.
  by apply NoDup_app in Hnd as (_ & _ & (_ & _ & (_ & _ & ?)%NoDup_app)%NoDup_app).
Qed.

Lemma wanted_table q c ev c' :
  wanted q c = (ev, c') ->
  tasks c' = tasks c /\ table (waiters_ c') ≡ₚ table (waiters_ c) /\
  forall fd w, waiters_ c' !! fd = Some w -> handle_ w = None ->
    fd = request_fd q \/ waiters_ c !! fd = Some w.
Proof.
  destruct q as [fd ev0|fd needs]; cbn; [intros [= <- <-]; auto|]. unfold get_events.
  destruct (waiters_ c !! fd) as [w|] eqn:Hf; intros [= <- <-]; [auto|]. cbn. split; [done|].
  split; [by rewrite table_insert_new|]. intros fd' w [[<- _]|[_ ?]]%lookup_insert_Some _; auto.
Qed.

Lemma rearm_table grant fd ev c :
  tasks (rearm grant fd ev c) = tasks c /\
  table (waiters_ c) ≡ₚ table (waiters_ (rearm grant fd ev c)) ++ dropped fd c (rearm grant fd ev c) /\
  forall fd' w, waiters_ (rearm grant fd ev c) !! fd' = Some w -> waiters_ c !! fd' = Some w.
Proof.
  unfold rearm, dropped. destruct (Epoll.modify grant fd ev (ev_ c)) as [k| | |]; cbn.
  { split; [done|]. split; [|done]. destruct (waiters_ c !! fd) eqn:E1; cbn; by rewrite app_nil_r. }
  all: split; [done|]; split; [rewrite lookup_delete_eq, (table_delete fd) at 1; solve_Permutation|];
    by intros fd' w [_ ?]%lookup_delete_Some.
Qed.

(** One more entry with a handle. *)
Lemma register_table fd ev h c :
  handle_in (waiters_ c !! fd) ++ table (waiters_ (register fd ev h c)) ≡ₚ h :: table (waiters_ c).
Proof. cbn. rewrite table_insert, (table_delete fd (waiters_ c)). cbn. solve_Permutation. Qed.

Lemma server_own_inv x y : Inv x -> own_step x y -> Inv y.
Proof.
  intros Hinv Hs. pose proof Hinv as [Hco Ht Hp Hn].
  destruct Hs as [y x Hy _ Hpk _|h l r s h' n x Hr Hh Hres|h q l r ev c x Hl Hw|h a l r x Hl|grant h a l r c x Hl Hc].
  - split; cbn; try done; [by eapply Awaitable.awaitable_step_inv|by rewrite Hpk].
  - split; cbn; try done; [by eapply Awaitable.awaitable_step_inv, Awaitable.step_resume|].
    rewrite !fmap_app, Hp. solve_Permutation.
  - destruct (wanted_table _ _ _ _ Hw) as (Ht' & Hp' & Hn'). rewrite Hl, fmap_app in Hp. split; cbn; try done; [congruence|..].
    + rewrite Hp, !fmap_app, Hp'. cbn. solve_Permutation.
    + intros fd w Hfd Hnull. destruct (Hn' _ _ Hfd Hnull) as [->|Hold].
      * exists h, (await_fd (request_fd q) ev). split; [|done]. apply elem_of_app. right. by left.
      * destruct (Hn _ _ Hold Hnull) as (h1 & a1 & Hin & ?). exists h1, a1. split; [|done]. apply elem_of_app. by left.
  - rewrite Hl, fmap_app in Hp. cbn in Hp. split; cbn [coros io parking suspending rearming lost]; try done.
    + rewrite Hp, fmap_app. pose proof (register_table (fd_ a) (events_ a) h (io x)) as Hr.
      rewrite (Permutation_app_comm (lost x)), !app_assoc, <- (app_assoc _ _ (handle_in _)).
      rewrite (Permutation_app_comm (table _) (handle_in _)), Hr. solve_Permutation.
    + intros fd w. cbn. intros [[<- <-]|[Hne Hfd]]%lookup_insert_Some Hnull; [done|].
      destruct (Hn _ _ Hfd Hnull) as (h1 & a1 & Hin & ?). exists h1, a1. split; [|done].
      rewrite Hl in Hin. apply elem_of_app in Hin as [Hin|[[= -> ->]|Hin]%elem_of_cons]; [|done|]; apply elem_of_app; auto.
  - destruct (rearm_table grant (fd_ a) (events_ a) (io x)) as (Ht' & Hp' & Hn'). rewrite Hc in *. split; cbn; try done; [congruence|..].
    + rewrite Hp, Hp'. solve_Permutation.
    + intros fd w Hfd. by apply Hn, Hn'.
Qed.

(** The event loop wakes a coroutine that is parked. *)
Lemma wake_step h (y : coroutines) :
  NoDup (Awaitable.parked y).*1 -> h ∈ (Awaitable.parked y).*1 ->
  Awaitable.step body is_void unit_value y (wake [h] y) /\ (Awaitable.parked y).*1 ≡ₚ h :: (Awaitable.parked (wake [h] y)).*1.
Proof.
  intros Hnd ([h' q] & -> & (l & r & Hl)%list_elem_of_split)%list_elem_of_fmap. cbn [fst] in *.
  assert (filter (fun p => p.1 ∉ [h']) (Awaitable.parked y) = l ++ r) as Hf.
  { rewrite Hl, fmap_app in Hnd. apply NoDup_app in Hnd as (_ & Hd & [Hr _]%NoDup_cons). rewrite Hl, filter_app, filter_cons_False.
    2: { intros H. apply H. by left. }
    assert (forall k, h' ∉ k.*1 -> filter (fun p : handle * request => p.1 ∉ [h']) k = k) as Hk.
    { intros k Hk. apply filter_all. intros [h1 q1] Hin Hs. cbn in Hs. apply list_elem_of_singleton in Hs as ->. apply Hk, list_elem_of_fmap. by exists (h', q1). }
    rewrite !Hk; [done|done|]. intros Hin. apply (Hd _ Hin). by left. }
  unfold wake. cbn. rewrite Hf. split; [by eapply Awaitable.step_wake|]. rewrite Hl, !fmap_app. cbn. solve_Permutation.
Qed.

Lemma server_step_inv x y : Inv x -> step x y -> Inv y.
Proof.
  intros Hinv Hs. destruct Hs as [x y Ho|st h s s' x Hc Hsp|fd hs x Hd|grant fd ev c x Ha|fd c x Hr]; [by eapply server_own_inv|..];
    pose proof Hinv as [Hco Ht Hp Hn].
  - split; cbn; try done. by eapply Awaitable.awaitable_step_inv, Awaitable.step_spawn.
  - unfold dispatch in *. destruct (waiters_ (io x) !! fd) as [w|] eqn:Hfd; cbn in Hd; rewrite Ht in Hd.
    + destruct (handle_ w) as [h|] eqn:Hw; [|by destruct hs]. destruct hs as [|h1 [|]]; try done. injection Hd as <-.
      rewrite (table_delete fd), Hfd in Hp. unfold handle_in in Hp. cbn in Hp. rewrite Hw in Hp. cbn in Hp.
      destruct (wake_step h (coros x)) as [Hst Hpk]; [by apply parked_NoDup| |].
      { rewrite Hp, !elem_of_app. right; right. by left. }
      split; cbn [coros io parking suspending rearming lost]; try done; [by eapply Awaitable.awaitable_step_inv|..].
      * apply (Permutation_cons_inv (a := h)). rewrite <- Hpk, Hp. cbn. solve_Permutation.
      * cbn. intros fd' w' [_ ?]%lookup_delete_Some. by apply Hn.
    + assert (wake hs (coros x) = coros x) as ->.
      { destruct hs; [|done]. unfold wake. rewrite app_nil_r, filter_all; [by destruct (coros x)|]. intros ? _. apply not_elem_of_nil. }
      split; cbn; done.
  - unfold add_fd in Ha. destruct (Epoll.add _ _ _ _) as [k| | |]; run_binds in Ha; try done. injection Ha as <-. split; cbn; done.
  - unfold remove_fd in Hr. destruct (Epoll.remove _ _) as [k| | |]; try done. injection Hr as <-. split; cbn; try done.
    + rewrite Hp, (table_delete fd (waiters_ (io x))). solve_Permutation.
    + intros fd' w [_ ?]%lookup_delete_Some. by apply Hn.
Qed.

Lemma server_reachable_inv x : reachable x -> Inv x.
Proof.
  intros (e & k & c & Hok & Hpe & [= <-] & Hr). refine (rtc_ind_r (R := step) Inv _ _ _ x Hr).
  - split; cbn; try done. by apply Awaitable.awaitable_start_inv.
  - intros y z _ Hs Hy. by eapply server_step_inv.
Qed.

(** ** Theorems *)

(** A coroutine in the table is suspended at its awaiter. *)
Lemma table_suspended x h :
  Inv x -> h ∈ table (waiters_ (io x)) ->
  exists f st, live (Awaitable.mem (coros x)) !! h = Some f /\ Awaitable.at_ f = Awaitable.Ready st.
Proof.
  intros [[_ [Hsh _]] _ Hp _] Hin.
  assert (h ∈ Awaitable.tokens (coros x)) as Htok.
  { unfold Awaitable.tokens. rewrite !elem_of_app, Hp, !elem_of_app. tauto. }
  destruct (Awaitable.sh_live _ _ _ _ Hsh _ Htok) as [f Hl].
  destruct (proj1 (Awaitable.sh_ready _ _ _ _ Hsh _ _ Hl) Htok) as [st Ha]. eauto.
Qed.

(** Every task of an event has a handle, except in the window. *)
Lemma event_handles x fd : Inv x ->
  (exists hs, tasks (dispatch fd (io x)) = Some <$> hs) \/ (exists h a, (h, a) ∈ suspending x /\ fd_ a = fd).
Proof.
  intros Hinv. unfold dispatch. destruct (waiters_ (io x) !! fd) as [w|] eqn:Hfd; [|left; exists []; apply Hinv].
  destruct (handle_ w) as [h|] eqn:Hh; [left; exists [h]|right; by eapply inv_null]. cbn. by rewrite (inv_tasks _ Hinv).
Qed.

(** C13: a server is safe.  Whatever coroutines are spawned, events reported and
    descriptors registered, closed, or waited for, also by several coroutines at once,
    as long as no event is reported for an entry without a handle and no coroutine is
    resumed while its [await_suspend] still runs: every closure a worker has started resumes its coroutine without anything
    undefined; every handle in the table is that of a live coroutine suspended there,
    which an event of its descriptor takes out of the table and gives to the executor;
    and the event loop gives the executor a null handle only for a descriptor on which
    an operation is between [get_events] and [await_suspend]. *)
Theorem server_is_safe x :
  reachable x ->
  (forall h, h ∈ Awaitable.running (coros x) ->
     exists s h' n, Awaitable.resume body is_void unit_value h (Awaitable.mem (coros x)) = Ok (s, h', n)) /\
  (forall fd w h, waiters_ (io x) !! fd = Some w -> handle_ w = Some h ->
     (exists f st, live (Awaitable.mem (coros x)) !! h = Some f /\ Awaitable.at_ f = Awaitable.Ready st) /\
     (exists y, step x y /\ h ∈ Awaitable.submitting (coros y) /\ waiters_ (io y) !! fd = None)) /\
  (forall fd, (exists hs, tasks (dispatch fd (io x)) = Some <$> hs) \/
     (exists h a, (h, a) ∈ suspending x /\ fd_ a = fd)).
Proof.
  intros Hinv%server_reachable_inv. split_and!; [| |intros fd; by apply event_handles].
  - intros h (l & r & Hl)%list_elem_of_split. eapply Awaitable.running_resumes; [apply Hinv|done].
  - intros fd w h Hfd Hh. split; [apply table_suspended; [done|]; apply elem_of_table; eauto|].
    eexists. split; [apply (step_event fd [h])|].
    + unfold dispatch. rewrite Hfd. cbn. by rewrite (inv_tasks _ Hinv), Hh.
    + cbn. split; [apply elem_of_app; right; by left|]. unfold dispatch. rewrite Hfd. apply lookup_delete_eq.
Qed.

(** The coroutines that are to be resumed, or in one of the steps of a suspension. *)
Definition work x : list handle :=
  Awaitable.submitting (coros x) ++ ex_pending (Awaitable.pool (coros x)) ++ Awaitable.running (coros x) ++
  (parking x).*1 ++ (suspending x).*1 ++ (rearming x).*1.

Lemma own_executor x :
  Awaitable.running (coros x) = [] ->
  (exists h e', ex_start h (Awaitable.pool (coros x)) e') \/ (exists h e', ex_finish h (Awaitable.pool (coros x)) e') \/
  (exists e', ex_silent (Awaitable.pool (coros x)) e') -> exists y, own_step x y.
Proof.
  intros Hr [(h & e & He)|[(h & e & He)|[e He]]]; eexists.
  - eapply own_run; [by eapply Awaitable.step_start|done|done|by exists [h]].
  - eapply own_run; [eapply Awaitable.step_return; [done|rewrite Hr; apply submseteq_nil_l]|done|done|exists []; by rewrite app_nil_r].
  - eapply own_run; [by eapply Awaitable.step_silent|done|done|exists []; by rewrite app_nil_r].
Qed.

Lemma server_progress x : Inv x -> ex_runs (Awaitable.pool (coros x)) -> work x <> [] -> exists y, own_step x y.
Proof.
  intros Hinv Hruns Hne. unfold work in Hne.
  destruct (rearming x) as [|[h a] r] eqn:Hre; [|eexists; by eapply (own_rearm true h a [] r)].
  destruct (suspending x) as [|[h a] r] eqn:Hsu; [|eexists; by apply (own_register h a [] r x)].
  destruct (parking x) as [|[h q] r] eqn:Hpa; [|destruct (wanted q (io x)) as [ev c] eqn:Hw; eexists; by apply (own_prepare h q [] r ev c x)].
  destruct (Awaitable.running (coros x)) as [|h r] eqn:Hr.
  - destruct (Awaitable.submitting (coros x)) as [|h l] eqn:Hs.
    + apply own_executor; [done|]. apply ex_progress; [apply Hinv|done|]. intros Hp. by rewrite Hp in Hne.
    + destruct (ex_accept h (Awaitable.pool (coros x))) as [[e He]|He]; [apply Hinv|..|by apply own_executor].
      eexists. eapply own_run; [by eapply (Awaitable.step_submit _ _ _ h [])|done|done|exists []; by rewrite app_nil_r].
  - destruct (Awaitable.running_resumes _ _ _ _ _ _ _ (inv_coros _ Hinv) (Hr : _ = [] ++ h :: r)) as (s & h' & n & Hs).
    eexists. apply (own_resume h [] r s h' n x Hr); [|done]. rewrite Hre. apply not_elem_of_nil.
Qed.

(** C14: a server delivers.  While its executor runs and some coroutine is to be resumed
    or is on its way into the table, the server can make a step of its own.  When there
    is none, every spawned coroutine whose body, run as an ordinary function, has a
    result has ended with it, or gets it as soon as a coroutine goes on that is in the
    table of waiters or was evicted from it. *)
Theorem server_delivers x :
  reachable x -> ex_runs (Awaitable.pool (coros x)) ->
  (work x <> [] -> exists y, own_step x y) /\
  (work x = [] -> forall root st r, (root, st) ∈ Awaitable.spawned (coros x) ->
     Awaitable.evals body is_void unit_value (is_void st) st r ->
     (exists f, live (Awaitable.mem (coros x)) !! root = Some f /\ Awaitable.at_ f = Awaitable.Final /\
        Awaitable.result unit_value f = r) \/
     (exists h sth, h ∈ table (waiters_ (io x)) ++ lost x /\
        Awaitable.finishes body is_void unit_value (Awaitable.mem (coros x)) h sth root r)).
Proof.
  intros Hinv%server_reachable_inv Hruns. split; [by apply server_progress|]. intros Hw root st r Hin He.
  apply app_nil in Hw as [Hs [Hp [Hr [Hpa [Hsu _]%app_nil]%app_nil]%app_nil]%app_nil].
  destruct Hinv as [[_ [Hsh Hres]] _ Hpk _]. destruct (Hres _ _ _ Hin He) as [Hf|(h & sth & [?|(f & Hl & Ha)] & Hf)]; [by left|done|].
  right. exists h, sth. split; [|done]. rewrite Hpa, Hsu in Hpk. cbn in Hpk. rewrite <- Hpk.
  assert (h ∈ Awaitable.tokens (coros x)) as Htok by (apply (Awaitable.sh_ready _ _ _ _ Hsh _ _ Hl); eauto).
  unfold Awaitable.tokens in Htok. by rewrite Hs, Hp, Hr in Htok.
Qed.

End server.

(** ** The two windows *)

Section windows.
Context {V St : Type} (body : St -> Awaitable.action V request St).
Context (is_void : St -> bool) (unit_value : V).

Abbreviation queue_server := (server (V := V) (St := St) (E := queue handle)).
Implicit Types (x y z : queue_server).



End windows.

(** ** An example *)

(** A coroutine that waits for data on descriptor 5 and returns 7. *)
Definition sample_body (st : nat) : Awaitable.action nat request nat :=
  match st with 0 => Awaitable.Wait (Transfer 5 1) 1 | _ => Awaitable.Return 7 end.

Definition sample_void (st : nat) : bool := false.

Definition sample_kernel : Epoll.kernel := Epoll.mkKernel {[5%Z]} {[5%Z := 1%Z]}.

Abbreviation sample_frame st := (Awaitable.mkFrame false true None None None (Awaitable.Ready (V := nat) st)).

(** The coroutine waits, and has ended. *)
Definition sample_waiting : server (V := nat) (St := nat) (E := queue handle) :=
  mk (Awaitable.mk (mkFrames {[0 := sample_frame 1]} 1) (mkQueue [] [0]) [] [] [(0, Transfer 5 1)] [(0, 0)])
    (IOContext.mk {[5%Z := mkWaiter (Some 0) 1]} sample_kernel [] false) [] [] [] [].

Definition sample_ended : server (V := nat) (St := nat) (E := queue handle) :=
  mk (Awaitable.mk (mkFrames {[0 := Awaitable.mkFrame false true None (Some 7) None Awaitable.Final]} 1) (mkQueue [] [0; 0]) [] [] [] [(0, 0)])
    (IOContext.mk ∅ sample_kernel [] false) [] [] [] [].

Lemma sample_waits :
  rtc (step sample_body sample_void 0) (start (mkQueue [] []) (IOContext.mk ∅ sample_kernel [] false)) sample_waiting.
Proof.
  eapply rtc_l; [eapply (step_spawn _ _ _ 0); [done|by vm_compute]|]. unfold set_coros. cbn.
  eapply rtc_l; [apply step_own; eapply own_run; [eapply (Awaitable.step_submit _ _ _ 0 []); done|done|done|by exists []]|]. unfold set_coros. cbn.
  eapply rtc_l; [apply step_own; eapply own_run; [eapply (Awaitable.step_start _ _ _ 0); by exists []|done|done|by exists [0]]|]. unfold set_coros. cbn.
  eapply rtc_l; [apply step_own; eapply (own_resume _ _ _ 0 []); [done|apply not_elem_of_nil|by vm_compute]|]. cbn.
  eapply rtc_l; [apply step_own; eapply (own_prepare _ _ _ 0 _ []); [done|by vm_compute]|]. cbn.
  eapply rtc_l; [apply step_own; eapply (own_register _ _ _ 0 _ []); done|]. cbn.
  eapply rtc_l; [apply step_own; eapply (own_rearm _ _ _ true 0 _ []); [done|by vm_compute]|]. cbn. apply rtc_refl.
Qed.

Lemma sample_ends : rtc (step sample_body sample_void 0) sample_waiting sample_ended.
Proof.
  eapply rtc_l; [eapply (step_event _ _ _ 5 [0]); by vm_compute|]. cbn.
  eapply rtc_l; [apply step_own; eapply own_run; [eapply (Awaitable.step_submit _ _ _ 0 []); done|done|done|by exists []]|]. unfold set_coros. cbn.
  eapply rtc_l; [apply step_own; eapply own_run; [eapply (Awaitable.step_start _ _ _ 0); by exists []|done|done|by exists [0]]|]. unfold set_coros. cbn.
  eapply rtc_l; [apply step_own; eapply (own_resume _ _ _ 0 []); [done|apply not_elem_of_nil|by vm_compute]|]. cbn. apply rtc_refl.
Qed.

Lemma sample_reached x :
  rtc (step sample_body sample_void 0) (start (mkQueue [] []) (IOContext.mk ∅ sample_kernel [] false)) x ->
  reachable sample_body sample_void 0 x.
Proof. intros H. by exists (mkQueue [] []), sample_kernel, (IOContext.mk ∅ sample_kernel [] false). Qed.

Lemma server_is_safe_witness :
  exists y, step sample_body sample_void 0 sample_waiting y /\ 0 ∈ Awaitable.submitting (coros y) /\ waiters_ (io y) !! 5%Z = None.
Proof.
  destruct (server_is_safe sample_body sample_void 0 sample_waiting) as (_ & H & _); [apply sample_reached, sample_waits|].
  apply (H 5%Z (mkWaiter (Some 0) 1) 0); [apply lookup_singleton_eq|done].
Defined.

Lemma server_delivers_witness :
  exists f, live (Awaitable.mem (coros sample_ended)) !! 0 = Some f /\ Awaitable.result 0 f = inl 7.
Proof.
  destruct (server_delivers sample_body sample_void 0 sample_ended) as [_ H].
  - apply sample_reached. etrans; [apply sample_waits|apply sample_ends].
  - done.
  - destruct (H eq_refl 0 0 (inl 7)) as [(f & Hf & _ & Hr)|(h & st & Hh & _)].
    + by left.
    + eapply Awaitable.evals_wait; [done|]. by apply (Awaitable.evals_return _ _ _ false 1 7).
    + by exists f.
    + by apply not_elem_of_nil in Hh.
Defined.




End Server.
